(* ===== verification/_CoqProject ===== *)
-Q . S2P
Prelude.v
Sampling.v
Codec.v
EloqString.v
RedisTypes.v
StringNum.v
StringMatch.v
Encoding.v
EloqKey.v
Double.v
NamespaceStorage.v
NamespaceGc.v
NamespaceServer.v
PubSub.v
ScanCursor.v
ListObject.v
StringObject.v
HashObject.v
SetObject.v
ZsetObject.v
ZsetImage.v
ZsetRange.v
ZsetScan.v
RedisObject.v
TxCommand.v
ListCommand.v
ZsetCommand.v
KeyCommand.v
StringCommand.v
HashCommand.v
HashSetCommand.v
CommandParse.v
MultiCommand.v
MultiParse.v
ZScanCommand.v
MultiList.v
Commands.v
