(* ===== verification/Prelude.v ===== *)
(** * EloqKV: a verification development of the Redis API layer

    EloqKV stores Redis values as objects and changes them through command
    objects.  A command is decided on an object by [ExecuteOn], which fills the
    reply and returns a verdict without touching the object, and is performed
    by [CommitOn], possibly much later and on another node: the engine writes
    the command's image (its [Serialize]) to the log, and standbys and recovery
    read the image back and run [CommitOn] alone.  Correctness therefore rests
    on three agreements that no type checks: what was decided is what is
    committed, what is read back from an image commits like the original, and
    the running [serialized_length_] of every object is the length of the image
    it is written as, because buffers are sized by it and the 256 MB limit is
    tested on it.  This development proves these for the parts below.

    ** The files

    - Prelude.v (this file): bytes, machine integers with their wrap-around
      written out ([u8] to [u64], [i32], [i64]), lengths and sums as [Z], the
      rewrite databases [wrap64] and [zlen], the tactics [mach] and [concrete].
    - Codec.v: readers of byte buffers ([Reader], with the law [Reads]: the
      bytes are consumed whatever follows) and writers into a resized
      [std::vector<char>] ([VWriter], with the law [Writes]), length-prefixed
      strings, the hint database [codec], and the contract of a stored object
      ([image_law]) that every object class is proved to meet.  A read past the
      end is [None].
    - Sampling.v: src/eloq_algorithm.cpp, the choice of random positions.
    - EloqString.v: src/eloq_string.cpp, the string class by value: storage
      class and bytes; constructors, copy, move, [Clone], comparison.
    - RedisTypes.v: enumerations, error codes and result structures of
      include/redis_object.h, redis_errors.h and redis_command.h.
    - StringNum.v: include/redis_string_num.h, [string2ll] and the overflow
      tests, and what [std::stoull] reads.
    - StringMatch.v: src/redis_string_match.cpp, the glob matcher with its
      loops, its backtracking and its early cut-off, over the memory that holds
      the pattern; the reference is a tokenizer and a matching function.
    - Encoding.v: src/b255.cpp and include/base64url.h, the spellings of
      namespace numbers and tokens.
    - EloqKey.v: include/eloqkv_key.h and src/eloqkv_key.cpp, keys with their
      hash slot, order and image; include/namespace/prefix.h and context.h, the
      prefixes that keep the keys of namespaces apart; the ranges that SCAN and
      KEYS open (src/redis_service.cpp).
    - NamespaceStorage.v: src/namespace/storage.cpp, every operation on the
      table of namespaces as a transaction.  The engine is a working copy of
      the table and the list of outcomes of the requests, so that a theorem
      covers every pattern of failures; [Tx] is the monad of a method with
      early returns.
    - NamespaceGc.v: src/namespace/gc.cpp, a pass of the collector of deleted
      and flushed prefixes.  The batches a scan returns are an argument; the
      law [ScanLaws] only says that the live records in them are in the table
      and in the range.
    - NamespaceServer.v: src/namespace/manager.cpp with its cache of shared
      metadata objects (a heap with addresses), AUTH, NAMESPACE, SELECT,
      FLUSHDB and FLUSHALL (src/redis_command.cpp, redis_service.cpp), the
      check of the connection's namespace in [DispatchCommand], and a world of
      connections, commands and collector passes.
    - PubSub.v: src/pub_sub_manager.cpp and the connection's side of it.  The
      order in which the hash tables are walked is an argument with the law
      [WalkLaws].
    - ScanCursor.v: the scan cursors of src/redis_connection_context.cpp.
    - ListObject.v, StringObject.v, HashObject.v, SetObject.v:
      src/redis_list_object.cpp, redis_string_object.cpp, redis_hash_object.cpp
      and redis_set_object.cpp with their headers, and the parsers of SADD and
      SREM (src/redis_command.cpp).  An object is the record of its fields; [Execute_X] is the method
      [Execute(XCommand &)], returning the changed result; [CommitX] is the
      method of that name, returning the changed object and, where the code
      moves strings out of the command, what it leaves there.  Accesses the
      code does not check return [option].
    - Double.v: scores as IEEE 754 bit patterns with comparison and addition, and
      [d2string] with the digits of the vendored fpconv as an argument.
    - ZsetObject.v, ZsetImage.v, ZsetRange.v, ZsetScan.v:
      src/redis_zset_object.cpp and its header, in the same style: the ordered
      set with the table beside it, ZADD with its filters, ZREM, ZPOP; images,
      comparison and ranks; ranges by rank, score and bytes; a page of ZSCAN
      with the cursor it leaves, and ZRANDMEMBER.
    - RedisObject.v: the ten object classes together, as a command meets them,
      behind one interface ([StoredObject]), and [DeserializeObject]
      (src/redis_object.cpp).
    - TxCommand.v: a command class is a record of its methods
      ([CommandClass]); what the engine relies on when it logs and replays
      commands is the class [Replayable]; [replay_log] is proved from it for any
      family of command classes.
    - ListCommand.v: the commands on one list of src/redis_command.cpp, one
      definition per method ([LPush_ExecuteOn], [LPush_CommitOn], ...), the
      type [ListCmd] of all of them with the virtual calls, the list part of
      [CreateTxCommand] (src/eloqkv_catalog_factory.cpp), the replies and the
      codec of [RedisListResult].
    - StringCommand.v, HashCommand.v, HashSetCommand.v, ZsetCommand.v,
      KeyCommand.v: the commands on one string, hash, set, sorted set or key of
      any type (DEL, EXISTS, TYPE, EXPIRE, PERSIST), each class a
      [CommandClass] with its instance of [Replayable].
    - CommandParse.v: the parsers of the string commands, of EXPIRE and its
      relatives, and of GETEX, with every refusal; the outcome [Undefined] stands
      for an access past the arguments.
    - Commands.v: the switch of [CreateTxCommand] over all of these classes.
    - MultiCommand.v, MultiParse.v, MultiList.v: the commands on several keys of
      src/redis_command.cpp, each a record of its steps ([MultiCommand]), run by
      the driver [ExecuteMultiObjTxRequest] of src/redis_service.cpp, which
      commits or aborts a command that runs alone and leaves the end to MULTI or
      a script otherwise; with their parsers.
    - ZScanCommand.v: ZSCAN from its arguments to its reply, through the cursors
      that the connection keeps, and a client that follows them.

    ** The method

    Each object has a type invariant ([list_wf], [str_wf], [hash_wf], [set_wf]:
    strings owned and within their 32-bit lengths, the running length exact) and a
    canonical object for each abstract content ([list_of] for a list of byte
    strings, [str_of], [hash_of] for a finite map, [set_of] for a
    finite set); a well-formed object is the
    canonical object of its contents.  Every commit is proved to take canonical
    objects to canonical objects, which gives the invariant and the functional
    behaviour at once, and every execute to report what that commit does.  The
    reference semantics ([spec_ltrim], [spec_lrem], [spec_lpos],
    [spec_setbit], [spec_setrange], [hset_all], [hdel_all], ...) are plain
    functions on lists and maps.

    ** What the theorems show

    - Commands: a log of commands of all families replays to the slot of the node
      that wrote it, through objects that keep their invariants and the size
      limit ([replay_history]); commands leave objects of other types alone and
      keep type and expiry ([commands_respect_types]).
    - ListCommand: verdicts agree with commits ([verdict_matches_commit]); images and
      results are read back ([command_image_roundtrip],
      [list_result_roundtrip]); the size test of the pushes is exact
      ([push_limit_exact]); replies are well defined ([replies_defined]).
    - StringCommand, KeyCommand: SET under all its flags ([set_correct]), EXPIRE
      under all of its flags and PERSIST ([expire_correct]).
    - CommandParse: what the parsers accept runs ([parsed_commands_run]); SET
      options and BITFIELD operations are parsed as they are spelled
      ([set_options_parsed], [bitfield_parsed]).
    - ZsetObject, ZsetImage, ZsetRange, ZsetScan: ZADD under all its flags
      ([zadd_agrees], [zincr_agrees]), removals ([zrem_agrees],
      [zpop_agrees], [zremrange_agrees]), ranges and counts
      ([zrange_correct], [zcount_correct], [zrank_correct]) and draws
      ([zrandmember_correct]).
    - ZScanCommand: a client that follows the cursors gets every matching
      member once ([zscan_complete]).
    - MultiCommand, MultiParse, MultiList: what DEL, EXISTS, MSET, MGET, MSETNX,
      the set operations and their store forms, SMOVE, LMOVE, LMPOP and BITOP
      reply and leave in the data, with every error, alone and inside MULTI
      ([del_exists_correct], [mset_mget_correct], [msetnx_correct],
      [set_operations_correct], [set_stores_correct], [smove_correct],
      [lmove_correct], [lmpop_correct], [bitop_correct]).
    - RedisObject: every object is restored from its image
      ([object_image_roundtrip]).
    - ListObject, StringObject, HashObject, SetObject: functional correctness of the
      commands against the reference semantics on every branch, agreement of
      reply and commit, and the image round trips with and without a TTL, for
      both serializers.  SPOP and SRANDMEMBER are correct for every iteration
      order, bucket count and random draw.
    - NamespaceStorage: any history of operations, with any failures but in
      two reads of DEL, is a history of an abstract registry in which each
      operation is performed or does nothing ([storage_history]).
    - NamespaceGc: a pass ends and never touches live data ([gc_pass_safe]);
      without failures it drops every marker it is shown
      ([gc_pass_collects]).
    - NamespaceServer: the invariant of the whole ([server_invariant]), that
      commands stay inside their tenant ([tenant_isolation]), what FLUSHDB and
      AUTH do ([flush_empties_namespace], [auth_correct]).
    - EloqKey, Encoding: slots ([key_slot]), prefixes and ranges
      ([namespace_prefix_sound], [scan_range_sound]), spellings
      ([base64_bijection]).
    - PubSub: the tables send what an abstract account of the subscriptions
      sends ([pubsub_refines]).
    - ScanCursor: which cursors are found again ([scan_cursor_cache]).
    - StringNum, StringMatch: exactness of the number parser and the overflow
      tests; the matcher decides the language of its pattern, but that an
      empty pattern matches everything.
    - Theorems that record where the code departs from its intent:
      [list_equality_ignores_head], [lrem_count_narrowed],
      [lmove_passes_size_limit], [lmovepop_reply_fails],
      [empty_pattern_matches_all], [bitfield_sat_i64_overflow_is_zero],
      [key_image_collision], [scan_range_misses_matches],
      [keys_prefix_unescaped], [del_read_failure_leaks],
      [deleted_tenant_becomes_admin], [deleted_token_stays_cached],
      [flushall_read_error_leaks], [cursor_hash_is_fnv1a_on_ascii],
      [crossed_scores_stuck], [negative_offset_leaks],
      [zadd_moved_key_dangles], [null_range_lost], [empty_store_keeps_key],
      [store_one_over_limit], [set_over_other_type_loses_value],
      [set_get_skips_limit], [keepttl_swallows_option],
      [bitfield_negative_offset], [decrby_negates], [expire_xx_ignores_gt],
      [negative_expiry_is_far], [gc_leaks_behind_deleted],
      [lmpop_numkeys_wraps], [zscan_empty_member_asserts].

    ** Bounds and fuel

    The mutually recursive matcher runs on the fuel [match_fuel], computed from
    the lengths of pattern and string; [stringmatchlen_correct] includes that
    it never runs out.  Decimal printing uses 20 digits, enough for 64 bits.
    The deletion loop of the collector runs on fuel too: a round removes a key
    or meets a failure, so the number of keys and failures plus one is enough,
    which [gc_pass_safe] includes.
    Other loops recurse on their data or on the count of iterations.  The
    limits in hypotheses are those of the C++ types, or follow from the size
    limit of objects; LMOVE is the one command that passes that limit, by four
    bytes, so the invariant of lists is [MAX_OBJECT_SIZE + 4].

    ** What is assumed or left out

    The engine (txservice) is not part of the repository: [history] only uses
    the order in which the interface is meant to be called, the namespace files
    take transactions to be atomic with outcomes as an argument, and the numbers of
    [BlockOperation] are arguments with the law that the cast back returns the
    enumerator.  The order in which a hash table yields its entries is an
    argument constrained by [hash_iter] or [set_iter]; the values of
    [std::rand] are a list of non-negative integers, long enough for the draws
    ([rands_ok]).  A draw of SPOP or
    SRANDMEMBER (order of the walk, buckets, random numbers) travels with the
    command in the model and is not part of its image; the time that EXPIRE reads
    comes with its result.  The memory that the vector of a page of ZSCAN may
    reserve is an argument.  Assertions are read as in a release build, but for
    the one on the cursor of ZSCAN and those of MSETNX on its results, which a
    client can make fail: there a failed assertion has no result.

    Not modelled: INCRBYFLOAT and HINCRBYFLOAT ([long double] arithmetic and
    printing), TTL (rounding in [double]), DUMP and RESTORE, the record
    RECOVER that brings an expired object back, the operations on several sorted
    sets (ZUNION and its relatives), the blocking commands BLMOVE and BLMPOP, the
    command classes of HSCAN, SSCAN, HRANDFIELD and ZRANDMEMBER (the methods of
    the objects they call are modelled but for HRANDFIELD), the parsers not named above (the
    theorems state what they need of them, such as distinct fields), networking,
    the queue of MULTI, scripting, RDB and the vector index. *)

From Stdlib Require Export ZArith Lia.
From Stdlib Require Strings.Byte.
From stdpp Require Export base gmap list strings numbers.

#[global] Open Scope Z_scope.

(** ** Bytes

    A C++ [char] or [uint8_t] in memory is a [byte]; [b2z] reads it as
    [unsigned char], [c2z] as the (signed, on the supported platforms)
    plain [char], and [z2b] is the narrowing conversion to 8 bits. *)

Abbreviation byte := Init.Byte.byte.
Abbreviation bytes := (list Init.Byte.byte).

Definition b2z (b : byte) : Z := Z.of_N (Strings.Byte.to_N b).

Definition z2b (z : Z) : byte :=
  match Strings.Byte.of_N (Z.to_N (z mod 256)) with
  | Some b => b
  | None => Init.Byte.x00
  end.

Definition c2z (b : byte) : Z := if b2z b <? 128 then b2z b else b2z b - 256.

#[global] Instance byte_eq_dec : EqDecision byte := Strings.Byte.byte_eq_dec.

Lemma b2z_range (b : byte) : 0 <= b2z b < 256.
Proof. unfold b2z. pose proof (Strings.Byte.to_N_bounded b). lia. Qed.

Lemma b2z_z2b (z : Z) : b2z (z2b z) = z mod 256.
Proof.
  unfold z2b. pose proof (Z.mod_pos_bound z 256 ltac:(lia)).
  destruct (Strings.Byte.of_N _) as [b|] eqn:E.
  - apply Strings.Byte.to_of_N in E. unfold b2z. rewrite E. lia.
  - apply Strings.Byte.of_N_None_iff in E. lia.
Qed.

Lemma z2b_b2z (b : byte) : z2b (b2z b) = b.
Proof.
  unfold z2b. rewrite Z.mod_small by apply b2z_range.
  unfold b2z. by rewrite N2Z.id, Strings.Byte.of_to_N.
Qed.

Lemma b2z_inj (a b : byte) : b2z a = b2z b -> a = b.
Proof. intros H. by rewrite <-(z2b_b2z a), H, z2b_b2z. Qed.

#[global] Program Instance byte_countable : Countable byte :=
  inj_countable' b2z z2b _.
Next Obligation. apply z2b_b2z. Qed.

(** ** Machine integers

    Integers are [Z]; a value of a C++ integer type is the [Z] it denotes,
    and a conversion to a type is the wrap-around written here. *)

Definition u8 (z : Z) : Z := z mod 2 ^ 8.
Definition u16 (z : Z) : Z := z mod 2 ^ 16.
Definition u32 (z : Z) : Z := z mod 2 ^ 32.
Definition u64 (z : Z) : Z := z mod 2 ^ 64.
Definition i32 (z : Z) : Z := (z + 2 ^ 31) mod 2 ^ 32 - 2 ^ 31.
Definition i64 (z : Z) : Z := (z + 2 ^ 63) mod 2 ^ 64 - 2 ^ 63.

Definition INT32_MIN : Z := - 2 ^ 31.
Definition INT32_MAX : Z := 2 ^ 31 - 1.
Definition INT64_MIN : Z := - 2 ^ 63.
Definition INT64_MAX : Z := 2 ^ 63 - 1.
Definition UINT64_MAX : Z := 2 ^ 64 - 1.

Definition is_u8 (z : Z) : Prop := 0 <= z < 2 ^ 8.
Definition is_u16 (z : Z) : Prop := 0 <= z < 2 ^ 16.
Definition is_u32 (z : Z) : Prop := 0 <= z < 2 ^ 32.
Definition is_u64 (z : Z) : Prop := 0 <= z < 2 ^ 64.
Definition is_i32 (z : Z) : Prop := INT32_MIN <= z <= INT32_MAX.
Definition is_i64 (z : Z) : Prop := INT64_MIN <= z <= INT64_MAX.

(** [mach] unfolds the integer types so that [lia] sees plain bounds. *)
Ltac mach :=
  unfold is_u8, is_u16, is_u32, is_u64, is_i32, is_i64,
    INT32_MIN, INT32_MAX, INT64_MIN, INT64_MAX, UINT64_MAX in *.

Lemma u32_id (z : Z) : is_u32 z -> u32 z = z.
Proof. apply Z.mod_small. Qed.

Lemma u64_id (z : Z) : is_u64 z -> u64 z = z.
Proof. apply Z.mod_small. Qed.

Lemma i64_id (z : Z) : is_i64 z -> i64 z = z.
Proof. intros H. mach. unfold i64. rewrite Z.mod_small; lia. Qed.

Lemma i32_id (z : Z) : is_i32 z -> i32 z = z.
Proof. intros H. mach. unfold i32. rewrite Z.mod_small; lia. Qed.

Lemma u32_range (z : Z) : is_u32 (u32 z).
Proof. apply Z.mod_pos_bound. lia. Qed.

Lemma u64_range (z : Z) : is_u64 (u64 z).
Proof. apply Z.mod_pos_bound. lia. Qed.

Lemma i64_range (z : Z) : is_i64 (i64 z).
Proof. unfold i64. pose proof (Z.mod_pos_bound (z + 2 ^ 63) (2 ^ 64) ltac:(lia)). mach. lia. Qed.

Lemma i32_range (z : Z) : is_i32 (i32 z).
Proof. unfold i32. pose proof (Z.mod_pos_bound (z + 2 ^ 31) (2 ^ 32) ltac:(lia)). mach. lia. Qed.

Lemma i64_u64 (z : Z) : i64 (u64 z) = i64 z.
Proof. unfold i64, u64. by rewrite Zplus_mod_idemp_l. Qed.

(** A wrapped value differs from the exact one by a multiple of the modulus. *)
Lemma i64_spec (z : Z) : exists q, i64 z = z + q * 2 ^ 64.
Proof.
  exists (- ((z + 2 ^ 63) / 2 ^ 64)). unfold i64.
  pose proof (Z.div_mod (z + 2 ^ 63) (2 ^ 64) ltac:(lia)). lia.
Qed.

Lemma i64_add_mult (z q : Z) : i64 (z + q * 2 ^ 64) = i64 z.
Proof.
  unfold i64. replace (z + q * 2 ^ 64 + 2 ^ 63) with (z + 2 ^ 63 + q * 2 ^ 64) by lia.
  by rewrite Z.mod_add by lia.
Qed.

Lemma u64_add_l (a b : Z) : u64 (u64 a + b) = u64 (a + b).
Proof. apply Zplus_mod_idemp_l. Qed.

Lemma u64_add_r (a b : Z) : u64 (a + u64 b) = u64 (a + b).
Proof. apply Zplus_mod_idemp_r. Qed.

Lemma u64_sub_l (a b : Z) : u64 (u64 a - b) = u64 (a - b).
Proof. apply Zminus_mod_idemp_l. Qed.

Lemma u64_sub_r (a b : Z) : u64 (a - u64 b) = u64 (a - b).
Proof. apply Zminus_mod_idemp_r. Qed.

Lemma u64_u64 (a : Z) : u64 (u64 a) = u64 a.
Proof. apply Z.mod_mod. lia. Qed.

Lemma u64_add_add_l (a b c : Z) : u64 (u64 a + b + c) = u64 (a + b + c).
Proof. by rewrite <-!Z.add_assoc, u64_add_l. Qed.

Lemma u64_add_sub_l (a b c : Z) : u64 (u64 a + b - c) = u64 (a + b - c).
Proof. by rewrite <-!Z.add_sub_assoc, u64_add_l. Qed.

Lemma u64_i64_add_r (a b : Z) : u64 (a + i64 b) = u64 (a + b).
Proof.
  destruct (i64_spec b) as [q ->]. unfold u64. rewrite Z.add_assoc. by rewrite Z.mod_add by lia.
Qed.

Lemma u64_i64 (a : Z) : u64 (i64 a) = u64 a.
Proof. apply (u64_i64_add_r 0). Qed.

(** The rewriting base that pulls every inner 64-bit wrap outwards. *)
Create Rewrite HintDb wrap64.
#[export] Hint Rewrite u64_add_l u64_add_r u64_sub_l u64_sub_r u64_u64
  u64_add_add_l u64_add_sub_l u64_i64 u64_i64_add_r : wrap64.

Ltac wrap64 := autorewrite with wrap64.

(** ** Lists with [Z] lengths *)

Definition zlen {A} (l : list A) : Z := Z.of_nat (length l).

Lemma zlen_nil {A} : zlen (@nil A) = 0.
Proof. done. Qed.

Lemma zlen_cons {A} (x : A) l : zlen (x :: l) = 1 + zlen l.
Proof. unfold zlen. cbn [length]. lia. Qed.

Lemma zlen_app {A} (l k : list A) : zlen (l ++ k) = zlen l + zlen k.
Proof. unfold zlen. rewrite length_app. lia. Qed.

Lemma zlen_nonneg {A} (l : list A) : 0 <= zlen l.
Proof. unfold zlen. lia. Qed.

Lemma zlen_zero {A} (l : list A) : zlen l = 0 <-> l = [].
Proof. unfold zlen. destruct l; cbn [length]; split; (done || lia). Qed.

Lemma length_of_zlen {A} (l : list A) n : zlen l = n -> Z.to_nat n = length l.
Proof. intros <-. unfold zlen. lia. Qed.

Lemma zlen_fmap {A B} (f : A -> B) l : zlen (f <$> l) = zlen l.
Proof. unfold zlen. by rewrite length_fmap. Qed.

Lemma zlen_reverse {A} (l : list A) : zlen (reverse l) = zlen l.
Proof. unfold zlen. by rewrite length_reverse. Qed.

Create Rewrite HintDb zlen.
#[export] Hint Rewrite @zlen_nil @zlen_cons @zlen_app @zlen_fmap @zlen_reverse : zlen.
Ltac zlen := autorewrite with zlen in *.

(** The sum of a [Z]-valued measure over a list. *)
Fixpoint zsum {A} (f : A -> Z) (l : list A) : Z :=
  match l with
  | [] => 0
  | x :: l' => f x + zsum f l'
  end.

Lemma zsum_app {A} (f : A -> Z) l k : zsum f (l ++ k) = zsum f l + zsum f k.
Proof. induction l as [|x l IH]; cbn; lia. Qed.

Lemma zsum_nonneg {A} (f : A -> Z) l :
  (forall x, 0 <= f x) -> 0 <= zsum f l.
Proof. intros H. induction l as [|x l IH]; cbn; [lia|]. specialize (H x). lia. Qed.

Lemma zsum_perm {A} (f : A -> Z) l k : l ≡ₚ k -> zsum f l = zsum f k.
Proof. induction 1; cbn; lia. Qed.

Lemma zsum_reverse {A} (f : A -> Z) l : zsum f (reverse l) = zsum f l.
Proof. apply zsum_perm, reverse_Permutation. Qed.

Lemma zsum_take_drop {A} (f : A -> Z) n l :
  zsum f l = zsum f (take n l) + zsum f (drop n l).
Proof. by rewrite <-zsum_app, take_drop. Qed.

Lemma zsum_elem_le {A} (f : A -> Z) l x :
  (forall y, 0 <= f y) -> x ∈ l -> f x <= zsum f l.
Proof.
  intros Hf. induction 1 as [y l|x y l Hin IH]; cbn.
  - pose proof (zsum_nonneg f l Hf). lia.
  - specialize (Hf y). lia.
Qed.

Lemma zsum_ext {A} (f g : A -> Z) l :
  (forall x, x ∈ l -> f x = g x) -> zsum f l = zsum g l.
Proof.
  intros H. induction l as [|x l IH]; cbn; [done|].
  rewrite H by left. rewrite IH; [done|]. intros y Hy. apply H. by right.
Qed.

Lemma zsum_fmap {A B} (f : B -> Z) (g : A -> B) l :
  zsum f (g <$> l) = zsum (f ∘ g) l.
Proof. induction l as [|x l IH]; cbn; [done|]. by rewrite IH. Qed.

Lemma take_zlen {A} (l : list A) : take (Z.to_nat (zlen l)) l = l.
Proof. unfold zlen. by rewrite Nat2Z.id, take_ge. Qed.

(** ** Sublists: what a removal leaves *)

Lemma sublist_eq_length {A} (l k : list A) : l `sublist_of` k -> (length k <= length l)%nat -> l = k.
Proof.
  induction 1 as [|x l k H IH|x l k H IH]; cbn; intros Hl; [done|f_equal; apply IH; lia|].
  apply sublist_length in H. lia.
Qed.

Lemma sublist_reverse {A} (l k : list A) : l `sublist_of` k -> reverse l `sublist_of` reverse k.
Proof.
  induction 1 as [|x l k _ IH|x l k _ IH]; [done|rewrite !reverse_cons..].
  - by apply sublist_app.
  - by apply sublist_inserts_r.
Qed.

Lemma zsum_sublist {A} (f : A -> Z) l k :
  (forall x, 0 <= f x) -> l `sublist_of` k -> zsum f l <= zsum f k.
Proof.
  intros Hf. induction 1 as [|x l k _ IH|x l k _ IH]; cbn; [lia|lia|]. pose proof (Hf x). lia.
Qed.

(** Closed side conditions of concrete inputs, by evaluation. *)
Ltac concrete :=
  repeat (first [ done | split | constructor
                | (vm_compute; solve [congruence | repeat split; congruence | tauto]) ]).

Lemma filter_all {A : Type} (P : A -> Prop) `{!forall x, Decision (P x)} (l : list A) : (forall x, x ∈ l -> P x) -> filter P l = l.
Proof.
  induction l as [|x l IH]; intros Hl; [done|]. rewrite filter_cons, decide_True by (apply Hl; set_solver).
  f_equal. apply IH. set_solver.
Qed.

Lemma filter_none {A : Type} (P : A -> Prop) `{!forall x, Decision (P x)} (l : list A) : (forall x, x ∈ l -> ~ P x) -> filter P l = [].
Proof.
  induction l as [|x l IH]; intros Hl; [done|]. rewrite filter_cons, decide_False by (apply Hl; set_solver).
  apply IH. set_solver.
Qed.

Lemma filter_ext_in {A : Type} (P Q : A -> Prop) `{!forall x, Decision (P x), !forall x, Decision (Q x)} (l : list A) :
  (forall x, x ∈ l -> P x <-> Q x) -> filter P l = filter Q l.
Proof.
  induction l as [|x l IH]; intros HPQ; [done|]. rewrite !filter_cons, IH by (intros y Hy; apply HPQ; by right).
  assert (P x <-> Q x) as Hx by (apply HPQ; left). by case_decide; case_decide; try tauto.
Qed.
