(* ===== verification/Sampling.v ===== *)
(** * GenRandMap: random positions with or without repetition

    src/eloq_algorithm.cpp: [count] draws of [std::rand() % size], kept in a
    multimap from the drawn position to the number of the draw.  Without
    repetition a draw that was already made moves on to the next free position.
    The numbers [std::rand()] returns are an argument, so that the theorems hold
    for every sequence of them.  SPOP, SRANDMEMBER, ZRANDMEMBER and HRANDFIELD use
    it, and share the loops that read the members at the drawn positions. *)

From Stdlib Require Import Sorting.Sorted.
From S2P Require Import Prelude.

(** A [std::multimap] in iteration order: keys ascending, equal keys in the
    order they were inserted. *)
Abbreviation MultiMap := (list (Z * Z)).

Fixpoint mm_emplace (k v : Z) (m : MultiMap) : MultiMap :=
  match m with
  | [] => [(k, v)]
  | (k', v') :: m' => if k <? k' then (k, v) :: m else (k', v') :: mm_emplace k v m'
  end.

(** The position of the first entry with the key, counted from [begin()]. *)
Fixpoint mm_find (k : Z) (m : MultiMap) : option nat :=
  match m with
  | [] => None
  | (k', _) :: m' => if k =? k' then Some O else S <$> mm_find k m'
  end.

(** [while (true)]: both the iterator and the position step on, each around its
    end, until they disagree.  [None] when the fuel runs out or the iterator is
    dereferenced at [end()]. *)
Fixpoint probe (fuel : nat) (m : MultiMap) (size : Z) (iter : nat) (ran : Z) : option Z :=
  match fuel with
  | O => None
  | S fuel' =>
      let iter := S iter in
      let ran := ran + 1 in
      let iter := if decide (iter = length m) then O else iter in
      let ran := if ran =? size then 0 else ran in
      match m !! iter with
      | None => None
      | Some (k, _) => if ran =? k then probe fuel' m size iter ran else Some ran
      end
  end.

(** The loop over [i], [n] draws left; [None] when [rands] is too short or
    [size] is 0. *)
Fixpoint gen_loop (n : nat) (i size : Z) (repeat : bool) (rands : list Z) (map : MultiMap)
    : option MultiMap :=
  match n with
  | O => Some map
  | S n' =>
      match rands with
      | [] => None
      | r :: rands' =>
          if size =? 0 then None
          else
            let ran := Z.rem r size in
            if repeat then gen_loop n' (i + 1) size repeat rands' (mm_emplace ran i map)
            else
              match mm_find ran map with
              | None => gen_loop n' (i + 1) size repeat rands' (mm_emplace ran i map)
              | Some iter =>
                  match probe (length map) map size iter ran with
                  | Some ran => gen_loop n' (i + 1) size repeat rands' (mm_emplace ran i map)
                  | None => None
                  end
              end
      end
  end.

Definition GenRandMap (size count : Z) (repeat : bool) (rands : list Z) : option MultiMap :=
  gen_loop (Z.to_nat count) 0 size repeat rands [].

(** ** Reading the positions

    A member [a] is written to its slot of the result as [f a]. *)

Section Slots.

Context {A B : Type} (f : A -> B).

(** The first [n] members in iteration order, around the end.  [None] is an
    access outside the container or the result. *)
Fixpoint walk_loop (n cnt : nat) (it hiter : list A) (out : list B) : option (list B) :=
  match n with
  | O => Some out
  | S n' =>
      match hiter with
      | [] => None
      | e :: hiter' =>
          if decide (cnt < length out)%nat then
            walk_loop n' (S cnt) it (match hiter' with [] => it | _ => hiter' end) (<[cnt := f e]> out)
          else None
      end
  end.

(** The members at the drawn positions, in the order of the draws; the iterator
    only moves forward because the map is sorted by position. *)
Fixpoint pick_loop (hiter : list A) (cnt : Z) (map : MultiMap) (out : list B) : option (list B) :=
  match map with
  | [] => Some out
  | (k, v) :: map' =>
      let hiter := drop (Z.to_nat (k - cnt)) hiter in
      let cnt := Z.max cnt k in
      match hiter with
      | [] => None
      | e :: _ =>
          if decide (Z.to_nat v < length out)%nat
          then pick_loop hiter cnt map' (<[Z.to_nat v := f e]> out)
          else None
      end
  end.

End Slots.

(** Few out of many: [sz / count > 100 && bucket_count > count]. *)
Definition take_shortcut (sz count bucket_count : Z) : bool :=
  (0 <? sz) && (0 <? count) && (100 <? Z.quot sz count) && (count <? bucket_count).

(** ** Correctness *)

(** The numbers [std::rand()] returns. *)
Definition rands_ok (count : Z) (rands : list Z) : Prop :=
  count <= zlen rands /\ Forall (fun r => 0 <= r) rands.

(** Distinct keys below [size], in ascending order. *)
Definition positions (size : Z) (m : MultiMap) : Prop :=
  StronglySorted Z.lt m.*1 /\ Forall (fun k => 0 <= k < size) m.*1.

Lemma mm_emplace_perm k v m : mm_emplace k v m ≡ₚ (k, v) :: m.
Proof.
  induction m as [|[k' v'] m IH]; cbn; [done|]. destruct (k <? k'); [done|].
  rewrite IH. constructor.
Qed.

Lemma mm_emplace_keys k v m : (mm_emplace k v m).*1 ≡ₚ k :: m.*1.
Proof. by rewrite mm_emplace_perm. Qed.

Lemma mm_emplace_sorted k v m :
  StronglySorted Z.lt m.*1 -> k ∉ m.*1 -> StronglySorted Z.lt (mm_emplace k v m).*1.
Proof.
  induction m as [|[k' v'] m IH]; cbn; intros Hs Hk; [by repeat constructor|].
  apply StronglySorted_inv in Hs as [Hs Hf]. apply not_elem_of_cons in Hk as [Hne Hk].
  destruct (Z.ltb_spec k k') as [Hl|Hl]; cbn.
  - constructor; [by constructor|]. constructor; [done|].
    eapply list.Forall_impl; [exact Hf|]. cbn. intros; lia.
  - constructor; [by apply IH|]. rewrite mm_emplace_keys. constructor; [lia|done].
Qed.

Lemma mm_emplace_le_sorted k v m :
  StronglySorted Z.le m.*1 -> StronglySorted Z.le (mm_emplace k v m).*1.
Proof.
  induction m as [|[k' v'] m IH]; cbn; intros Hs; [by repeat constructor|].
  apply StronglySorted_inv in Hs as [Hs Hf]. destruct (Z.ltb_spec k k') as [Hl|Hl]; cbn.
  - constructor; [by constructor|]. constructor; [lia|].
    eapply list.Forall_impl; [exact Hf|]. cbn. intros; lia.
  - constructor; [by apply IH|]. rewrite mm_emplace_keys. constructor; [lia|done].
Qed.

Lemma mm_find_none k m : mm_find k m = None -> k ∉ m.*1.
Proof.
  induction m as [|[k' v'] m IH]; cbn; [intros _; apply not_elem_of_nil|].
  destruct (Z.eqb_spec k k'); [done|]. intros H%fmap_None. apply not_elem_of_cons. auto.
Qed.

Lemma mm_find_some k m i : mm_find k m = Some i -> m.*1 !! i = Some k.
Proof.
  revert i. induction m as [|[k' v'] m IH]; cbn; intros i; [done|].
  destruct (Z.eqb_spec k k') as [->|]; [by intros [= <-]|].
  intros (j & Hj & ->)%fmap_Some. cbn. auto.
Qed.

Lemma sorted_lookup_lt (l : list Z) i j a b :
  StronglySorted Z.lt l -> (i < j)%nat -> l !! i = Some a -> l !! j = Some b -> a < b.
Proof.
  intros Hs. revert i j. induction Hs as [|x l Hs IH Hf]; intros i j Hij Hi Hj; [done|].
  destruct j as [|j]; [lia|]. cbn in Hj. destruct i as [|i]; cbn in Hi.
  - simplify_eq. rewrite list.Forall_forall in Hf. by eapply Hf, list_elem_of_lookup_2.
  - apply (IH i j); [lia|done..].
Qed.

(** In a sorted list of positions, the next position is taken exactly when the
    next entry, around the end, holds it. *)
Lemma next_position (l : list Z) size i a b :
  StronglySorted Z.lt l -> Forall (fun k => 0 <= k < size) l -> l !! i = Some a ->
  l !! (if decide (S i = length l) then O else S i) = Some b ->
  let a' := if a + 1 =? size then 0 else a + 1 in
  0 <= a' < size /\ (a' = b \/ a' ∉ l).
Proof.
  intros Hs Hf Hi Hb a'. pose proof (Forall_lookup_1 _ _ _ _ Hf Hi) as Ha. cbn in Ha.
  pose proof (Forall_lookup_1 _ _ _ _ Hf Hb) as Hb'. cbn in Hb'.
  split; [unfold a'; destruct (Z.eqb_spec (a + 1) size); lia|].
  destruct (decide (a' = b)) as [|Hne]; [by left|right].
  intros [j Hj]%list_elem_of_lookup. pose proof (lookup_lt_Some _ _ _ Hj) as Hjl.
  pose proof (lookup_lt_Some _ _ _ Hi) as Hil.
  unfold a' in *. case_decide as Hd.
  - destruct (Z.eqb_spec (a + 1) size) as [E|E].
    + destruct (decide (j = O)) as [->|]; [simplify_eq; done|].
      pose proof (sorted_lookup_lt l 0 j b 0 Hs ltac:(lia) Hb Hj). lia.
    + destruct (Nat.lt_trichotomy j i) as [H|[->|H]]; [|simplify_eq; lia|lia].
      pose proof (sorted_lookup_lt l j i _ _ Hs H Hj Hi). lia.
  - pose proof (sorted_lookup_lt l i (S i) _ _ Hs ltac:(lia) Hi Hb) as Hab.
    destruct (Z.eqb_spec (a + 1) size); [lia|].
    destruct (Nat.lt_trichotomy j i) as [H|[->|H]]; [|simplify_eq; lia|].
    + pose proof (sorted_lookup_lt l j i _ _ Hs H Hj Hi). lia.
    + destruct (decide (j = S i)) as [->|]; [simplify_eq; done|].
      pose proof (sorted_lookup_lt l (S i) j _ _ Hs ltac:(lia) Hb Hj). lia.
Qed.

(** After [j] collisions both the iterator and the position have gone [j] steps
    around; a full round of the iterator would bring it back to its start with
    another position. *)
Lemma probe_of m size i0 a0 :
  positions size m -> m.*1 !! i0 = Some a0 -> zlen m < size ->
  forall f j i a, (j + f = length m)%nat ->
  ((i0 + j < length m /\ i = i0 + j) \/ (length m <= i0 + j /\ i + length m = i0 + j))%nat ->
  (a0 + Z.of_nat j < size /\ a = a0 + Z.of_nat j) \/ (size <= a0 + Z.of_nat j /\ a = a0 + Z.of_nat j - size) ->
  m.*1 !! i = Some a ->
  exists b, probe f m size i a = Some b /\ 0 <= b < size /\ b ∉ m.*1.
Proof.
  intros [Hs Hf] H0 Hlt. pose proof (lookup_lt_Some _ _ _ H0) as Hi0. rewrite length_fmap in Hi0.
  pose proof (Forall_lookup_1 _ _ _ _ Hf H0) as Ha0. cbn in Ha0.
  induction f as [|f IH]; intros j i a Hjf Hi Ha Hl.
  - assert (i = i0) as -> by lia. rewrite H0 in Hl. simplify_eq. unfold zlen in Hlt. lia.
  - pose proof (lookup_lt_Some _ _ _ Hl) as Hil. rewrite length_fmap in Hil. cbn [probe].
    set (i' := if decide (S i = length m) then O else S i).
    destruct (lookup_lt_is_Some_2 m.*1 i') as [b Hb].
    { rewrite length_fmap. unfold i'. case_decide; lia. }
    assert (Hb2 := Hb). rewrite list_lookup_fmap in Hb2. apply fmap_Some in Hb2 as ([k v] & Hkv & Eb).
    cbn in Eb. subst k. rewrite Hkv.
    pose proof (next_position m.*1 size i a b Hs Hf Hl) as Hn. rewrite length_fmap in Hn.
    specialize (Hn Hb). cbn zeta in Hn. destruct Hn as [Hr Hn].
    remember (if a + 1 =? size then 0 else a + 1) as a' eqn:Ea.
    destruct (Z.eqb_spec a' b) as [->|Hne]; [|exists a'; destruct Hn; done].
    apply (IH (S j) i' b); [lia| | |done].
    + unfold i'. case_decide; lia.
    + unfold zlen in Hlt. destruct (Z.eqb_spec (a + 1) size); lia.
Qed.

Lemma probe_free m size i a :
  positions size m -> m.*1 !! i = Some a -> zlen m < size ->
  exists b, probe (length m) m size i a = Some b /\ 0 <= b < size /\ b ∉ m.*1.
Proof.
  intros Hp Hi Hlt. pose proof (lookup_lt_Some _ _ _ Hi) as Hl. rewrite length_fmap in Hl.
  destruct Hp as [Hs Hf]. pose proof (Forall_lookup_1 _ _ _ _ Hf Hi) as Ha. cbn in Ha.
  apply (probe_of m size i a (conj Hs Hf) Hi Hlt (length m) 0 i a); [lia|left; lia|left; lia|done].
Qed.

Lemma positions_emplace size m k v :
  positions size m -> 0 <= k < size -> k ∉ m.*1 -> positions size (mm_emplace k v m).
Proof.
  intros [Hs Hf] Hk Hn. split; [by apply mm_emplace_sorted|]. rewrite mm_emplace_keys. by constructor.
Qed.

Lemma seqZ_snoc n : 0 <= n -> seqZ 0 (n + 1) ≡ₚ n :: seqZ 0 n.
Proof.
  intros H. rewrite seqZ_app by lia. rewrite (seqZ_cons (0 + n)), (seqZ_nil _ (Z.pred 1)) by lia.
  rewrite Z.add_0_l. by rewrite <-Permutation_cons_append.
Qed.

Lemma gen_loop_distinct n size rands m :
  0 < size -> positions size m -> m.*2 ≡ₚ seqZ 0 (zlen m) ->
  zlen m + Z.of_nat n <= size -> rands_ok (Z.of_nat n) rands ->
  exists m', gen_loop n (zlen m) size false rands m = Some m'
  /\ positions size m' /\ zlen m' = zlen m + Z.of_nat n /\ m'.*2 ≡ₚ seqZ 0 (zlen m').
Proof.
  intros H0. revert rands m. induction n as [|n IH]; intros rands m Hp Hv Hn [Hlen Hr].
  { exists m. split_and!; [done|done|lia|done]. }
  destruct rands as [|r rands]; [zlen; lia|]. cbn [gen_loop].
  rewrite (proj2 (Z.eqb_neq size 0)) by lia.
  apply Forall_cons_1 in Hr as [Hr0 Hr]. pose proof (Z.rem_bound_pos r size Hr0 H0) as Hrem.
  assert (forall k, 0 <= k < size -> k ∉ m.*1 ->
    exists m', gen_loop n (zlen m + 1) size false rands (mm_emplace k (zlen m) m) = Some m'
    /\ positions size m' /\ zlen m' = zlen m + Z.of_nat (S n) /\ m'.*2 ≡ₚ seqZ 0 (zlen m')) as Hstep.
  { intros k Hk Hnk. assert (zlen (mm_emplace k (zlen m) m) = zlen m + 1) as Hz.
    { unfold zlen. rewrite mm_emplace_perm. cbn. lia. }
    destruct (IH rands (mm_emplace k (zlen m) m)) as (m' & E & Hp' & Hl' & Hv').
    - by apply positions_emplace.
    - rewrite Hz, mm_emplace_perm, seqZ_snoc by apply zlen_nonneg. cbn. by rewrite Hv.
    - lia.
    - split; [zlen; lia|done].
    - rewrite Hz in E. exists m'. split_and!; [done|done|lia|done]. }
  destruct (mm_find (Z.rem r size) m) as [i|] eqn:Ef.
  - destruct (probe_free m size i (Z.rem r size)) as (b & -> & Hb & Hnb);
      [done|by apply mm_find_some|lia|]. by apply Hstep.
  - apply mm_find_none in Ef. by apply Hstep.
Qed.

Lemma gen_loop_repeat n i size rands m :
  0 < size -> rands_ok (Z.of_nat n) rands ->
  StronglySorted Z.le m.*1 -> Forall (fun k => 0 <= k < size) m.*1 -> m.*2 ≡ₚ seqZ 0 i -> 0 <= i ->
  exists m', gen_loop n i size true rands m = Some m'
  /\ StronglySorted Z.le m'.*1 /\ Forall (fun k => 0 <= k < size) m'.*1
  /\ m'.*2 ≡ₚ seqZ 0 (i + Z.of_nat n).
Proof.
  intros H0. revert i rands m. induction n as [|n IH]; intros i rands m [Hlen Hr] Hs Hf Hv Hi.
  { exists m. split_and!; [done..|by rewrite Z.add_0_r]. }
  destruct rands as [|r rands]; [zlen; lia|]. cbn [gen_loop].
  rewrite (proj2 (Z.eqb_neq size 0)) by lia.
  apply Forall_cons_1 in Hr as [Hr0 Hr]. pose proof (Z.rem_bound_pos r size Hr0 H0) as Hrem.
  replace (i + Z.of_nat (S n)) with (i + 1 + Z.of_nat n) by lia. apply IH.
  - split; [zlen; lia|done].
  - by apply mm_emplace_le_sorted.
  - rewrite mm_emplace_keys. by constructor.
  - rewrite mm_emplace_perm, seqZ_snoc by done. cbn. by rewrite Hv.
  - lia.
Qed.

(** Without repetition. *)
Lemma GenRandMap_distinct size count rands :
  0 < size -> 0 <= count <= size -> rands_ok count rands ->
  exists m, GenRandMap size count false rands = Some m /\ positions size m
  /\ zlen m = count /\ m.*2 ≡ₚ seqZ 0 count.
Proof.
  intros H0 Hc Hr. destruct (gen_loop_distinct (Z.to_nat count) size rands []) as (m & E & Hp & Hl & Hv).
  - done.
  - by split; constructor.
  - done.
  - zlen. lia.
  - by rewrite Z2Nat.id by lia.
  - exists m. zlen. rewrite Z2Nat.id in Hl by lia. split_and!; [done|done|lia|].
    by rewrite Hv, Hl.
Qed.

(** With repetition. *)
Lemma GenRandMap_repeat size count rands :
  0 < size -> 0 <= count -> rands_ok count rands ->
  exists m, GenRandMap size count true rands = Some m
  /\ StronglySorted Z.le m.*1 /\ Forall (fun k => 0 <= k < size) m.*1 /\ m.*2 ≡ₚ seqZ 0 count.
Proof.
  intros H0 Hc Hr.
  destruct (gen_loop_repeat (Z.to_nat count) 0 size rands []) as (m & E & Hs & Hf & Hv);
    [done|by rewrite Z2Nat.id by lia|constructor|constructor|done|lia|].
  exists m. rewrite Z.add_0_l, Z2Nat.id in Hv by lia. done.
Qed.

(** *** The slots *)

Lemma walk_loop_fmap {A A' B : Type} (f : A -> B) (g : A' -> A) (h : A' -> B) n : forall cnt (it hiter : list A') out,
  (forall x, x ∈ it \/ x ∈ hiter -> f (g x) = h x) ->
  walk_loop f n cnt (g <$> it) (g <$> hiter) out = walk_loop h n cnt it hiter out.
Proof.
  induction n as [|n IH]; intros cnt it hiter out H; [done|]. destruct hiter as [|e hiter]; [done|]. cbn [walk_loop fmap list_fmap].
  rewrite (H e) by (right; left). case_decide; [|done].
  replace (match g <$> hiter with [] => g <$> it | _ => g <$> hiter end)
    with (g <$> match hiter with [] => it | _ => hiter end) by (by destruct hiter).
  apply IH. intros x [Hx|Hx]; apply H; [by left|]. destruct hiter; [by left|]. right. by right.
Qed.

Lemma pick_loop_fmap {A A' B : Type} (f : A -> B) (g : A' -> A) (h : A' -> B) m : forall (hiter : list A') cnt out,
  (forall x, x ∈ hiter -> f (g x) = h x) -> pick_loop f (g <$> hiter) cnt m out = pick_loop h hiter cnt m out.
Proof.
  induction m as [|[k v] m IH]; intros hiter cnt out H; [done|]. cbn [pick_loop]. rewrite <- fmap_drop.
  assert (forall x, x ∈ drop (Z.to_nat (k - cnt)) hiter -> f (g x) = h x) as H'.
  { intros x Hx. apply H. rewrite <- (take_drop (Z.to_nat (k - cnt)) hiter). apply elem_of_app. by right. }
  destruct (drop (Z.to_nat (k - cnt)) hiter) as [|e r] eqn:E; [done|]. cbn [fmap list_fmap]. rewrite (H' e) by left.
  case_decide; [|done]. rewrite <- (IH (e :: r)) by done. done.
Qed.

(** The iterator stands at position [cnt] of the members [l]. *)
Lemma pick_loop_of {A B : Type} (f : A -> B) l m : forall cnt out, 0 <= cnt ->
  StronglySorted Z.le m.*1 -> Forall (fun k => cnt <= k < zlen l) m.*1 ->
  NoDup m.*2 -> Forall (fun v => 0 <= v < zlen out) m.*2 ->
  exists out', pick_loop f (drop (Z.to_nat cnt) l) cnt m out = Some out'
  /\ length out' = length out
  /\ (forall k v, (k, v) ∈ m -> out' !! Z.to_nat v = f <$> l !! Z.to_nat k)
  /\ (forall j, Z.of_nat j ∉ m.*2 -> out' !! j = out !! j).
Proof.
  induction m as [|[k v] m IH]; intros cnt out Hc Hs Hk Hv Hr; cbn [pick_loop].
  { exists out. split_and!; [done|done| |done]. intros k v H. by apply not_elem_of_nil in H. }
  cbn [fmap list_fmap fst snd] in *.
  apply StronglySorted_inv in Hs as [Hs Hle]. apply Forall_cons_1 in Hk as [Hk Hks].
  apply list.NoDup_cons in Hv as [Hvn Hv]. apply Forall_cons_1 in Hr as [Hr Hrs].
  rewrite drop_drop. replace (Z.to_nat cnt + Z.to_nat (k - cnt))%nat with (Z.to_nat k) by lia.
  rewrite Z.max_r by lia.
  destruct (lookup_lt_is_Some_2 l (Z.to_nat k)) as [c Hcl]; [unfold zlen in Hk; lia|].
  assert (drop (Z.to_nat k) l = c :: drop (S (Z.to_nat k)) l) as Ed by (by apply drop_S).
  rewrite Ed, decide_True by (unfold zlen in Hr; lia). rewrite <-Ed.
  destruct (IH k (<[Z.to_nat v := f c]> out)) as (out' & E & Hlen & Hin & Hout).
  - lia.
  - done.
  - rewrite list.Forall_forall in *. intros x Hx. split; [by apply Hle|]. by apply Hks.
  - done.
  - unfold zlen. by rewrite length_insert.
  - exists out'. rewrite length_insert in Hlen. split_and!; [done|done| |].
    + intros k' v' [[= -> ->]|Hkv]%elem_of_cons; [|by apply Hin].
      rewrite Hout by (rewrite Z2Nat.id by lia; done).
      rewrite list_lookup_insert_eq by (unfold zlen in Hr; lia). by rewrite Hcl.
    + intros j [Hjv Hj]%not_elem_of_cons. rewrite Hout by done.
      apply list_lookup_insert_ne. intros <-. apply Hjv. lia.
Qed.

(** All slots are filled, with the members at the drawn positions. *)
Lemma pick_all `{Inhabited A} {B : Type} (f : A -> B) l m out :
  StronglySorted Z.le m.*1 -> Forall (fun k => 0 <= k < zlen l) m.*1 -> m.*2 ≡ₚ seqZ 0 (zlen out) ->
  exists picked, pick_loop f l 0 m out = Some (f <$> picked)
  /\ zlen picked = zlen out /\ picked ≡ₚ (fun kv => l !!! Z.to_nat kv.1) <$> m.
Proof.
  intros Hs Hk Hv. pose proof (zlen_nonneg out). assert (NoDup m.*2) as Hnd by (rewrite Hv; apply NoDup_seqZ).
  destruct (pick_loop_of f l m 0 out) as (out' & E & Hlen & Hin & _); [done|done|done|done| |].
  { rewrite Hv, list.Forall_forall. intros x Hx%elem_of_seqZ. lia. }
  set (at_slot v := l !!! Z.to_nat (default 0 ((list_to_map ((fun kv => (kv.2, kv.1)) <$> m) : gmap Z Z) !! v))).
  assert (forall k v, (k, v) ∈ m -> at_slot v = l !!! Z.to_nat k) as Hat.
  { intros k v Hkv. unfold at_slot. erewrite elem_of_list_to_map_1; [done| |].
    - rewrite <- list_fmap_compose. exact Hnd.
    - apply list_elem_of_fmap. by exists (k, v). }
  exists (at_slot <$> seqZ 0 (zlen out)). split_and!.
  - change (drop (Z.to_nat 0) l) with l in E. rewrite E. f_equal. apply list_eq. intros i.
    rewrite <- list_fmap_compose, list_lookup_fmap. destruct (decide (i < length out)%nat) as [Hi|Hi].
    + rewrite (lookup_seqZ_lt 0 (zlen out) i) by (unfold zlen; lia). cbn. rewrite Z.add_0_l.
      assert (Z.of_nat i ∈ m.*2) as Him by (rewrite Hv; apply elem_of_seqZ; unfold zlen; lia).
      apply list_elem_of_fmap in Him as ([k v] & Ev & Hkv). cbn in Ev. subst v. specialize (Hin k _ Hkv).
      rewrite Nat2Z.id in Hin. rewrite Hin, (Hat k _ Hkv). rewrite list.Forall_forall in Hk.
      rewrite list_lookup_lookup_total_lt; [done|].
      assert (0 <= k < zlen l) by (apply Hk, list_elem_of_fmap; by exists (k, Z.of_nat i)). unfold zlen in *. lia.
    + rewrite (lookup_ge_None_2 out') by lia. rewrite (lookup_seqZ_ge 0 (zlen out) i) by (unfold zlen; lia). done.
  - unfold zlen. rewrite length_fmap, length_seqZ. unfold zlen. lia.
  - rewrite <- Hv, <- list_fmap_compose. erewrite list_fmap_ext; [reflexivity|].
    intros i [k v] Hi. cbn. apply list_elem_of_lookup_2 in Hi. by rewrite (Hat k v Hi).
Qed.

Lemma walk_loop_of {A B : Type} (f : A -> B) l n : forall cnt out, (cnt + n <= length l)%nat -> length out = (cnt + n)%nat ->
  forall hiter, (n <> 0%nat -> hiter = drop cnt l) ->
  walk_loop f n cnt l hiter out = Some (take cnt out ++ (f <$> take n (drop cnt l))).
Proof.
  induction n as [|n IH]; intros cnt out Hn Hout hiter Hh; cbn [walk_loop].
  { rewrite take_ge by lia. by rewrite take_0, app_nil_r. }
  rewrite Hh by lia. destruct (lookup_lt_is_Some_2 l cnt) as [c Hc]; [lia|].
  rewrite (drop_S l c) by done. rewrite decide_True by lia.
  rewrite IH; [|lia|rewrite length_insert; lia|].
  - f_equal. cbn [take fmap list_fmap].
    rewrite (take_S_r _ _ (f c)) by (apply list_lookup_insert_eq; lia).
    rewrite take_insert_ge by lia. by rewrite <-app_assoc.
  - intros Hn0. destruct (drop (S cnt) l) as [|e h] eqn:E; [|done].
    apply (f_equal length) in E. rewrite length_drop in E. cbn in E. lia.
Qed.

(** The shortcut draws far fewer members than there are. *)
Lemma take_shortcut_le sz count bucket_count :
  take_shortcut sz count bucket_count = true -> 0 <= count <= sz.
Proof.
  unfold take_shortcut. rewrite !andb_true_iff, !Z.ltb_lt. intros (((H0 & H1) & H2) & _).
  rewrite Z.quot_div_nonneg in H2 by lia. pose proof (Z.mul_div_le sz count H1). nia.
Qed.

Lemma lt_le_sorted (l : list Z) : StronglySorted Z.lt l -> StronglySorted Z.le l /\ NoDup l.
Proof.
  induction 1 as [|x l _ [IHs IHn] Hf]; [split; constructor|]. split.
  - constructor; [done|]. eapply list.Forall_impl; [exact Hf|]. cbn. intros; lia.
  - apply list.NoDup_cons. split; [|done]. intros Hx. rewrite list.Forall_forall in Hf.
    specialize (Hf x Hx). lia.
Qed.

(** What SRANDMEMBER, ZRANDMEMBER and HRANDFIELD have in common: for every draw,
    [n] members, distinct when they should be. *)
Lemma drawn {A B : Type} `{Inhabited A} (f : A -> B) (l : list A) n (distinct : bool) bucket_count rands out :
  NoDup l -> l <> [] -> 0 <= n -> (distinct = true -> n <= zlen l) -> zlen out = n -> rands_ok n rands ->
  exists picked,
    (if take_shortcut (zlen l) n bucket_count then walk_loop f (Z.to_nat n) 0 l l out
     else map ← GenRandMap (zlen l) n (negb distinct) rands; pick_loop f l 0 map out) = Some (f <$> picked)
    /\ zlen picked = n /\ (forall x, x ∈ picked -> x ∈ l) /\ (distinct = true -> NoDup picked).
Proof.
  intros Hnd Hne Hn Hd Hout Hr. assert (0 < zlen l) as Hpos by (destruct l; [done|]; rewrite zlen_cons; pose proof (zlen_nonneg l); lia).
  destruct (take_shortcut (zlen l) n bucket_count) eqn:Et.
  { apply take_shortcut_le in Et. exists (take (Z.to_nat n) l). unfold zlen in *.
    rewrite walk_loop_of by (done || lia). rewrite take_0, drop_0, length_take. split_and!; [done|lia| |].
    - intros x Hx. rewrite <- (take_drop (Z.to_nat n) l). apply elem_of_app. by left.
    - intros _. eapply sublist_NoDup; [exact Hnd|apply sublist_take]. }
  assert (forall m, StronglySorted Z.le m.*1 -> Forall (fun k => 0 <= k < zlen l) m.*1 -> m.*2 ≡ₚ seqZ 0 n ->
    exists picked, pick_loop f l 0 m out = Some (f <$> picked) /\ zlen picked = n /\ (forall x, x ∈ picked -> x ∈ l)
      /\ (NoDup m.*1 -> NoDup picked)) as Hpick.
  { intros m Hs Hk Hv. rewrite <- Hout in Hv. destruct (pick_all f l m out Hs Hk Hv) as (picked & E & Hz & Hp).
    assert (forall k, k ∈ m.*1 -> l !! Z.to_nat k = Some (l !!! Z.to_nat k)) as Hlook.
    { intros k Hkm. rewrite list.Forall_forall in Hk. specialize (Hk k Hkm). apply list_lookup_lookup_total_lt. unfold zlen in Hk. lia. }
    exists picked. split_and!; [done|lia| |].
    - intros x. rewrite Hp. intros ([k v] & -> & Hkv)%list_elem_of_fmap.
      eapply list_elem_of_lookup_2, Hlook, list_elem_of_fmap. by exists (k, v).
    - intros Hm. rewrite Hp. change ((fun kv : Z * Z => l !!! Z.to_nat kv.1) <$> m)
        with (((fun k => l !!! Z.to_nat k) ∘ fst) <$> m). rewrite list_fmap_compose.
      apply NoDup_fmap_2_strong; [|done]. intros x y Hx Hy Exy.
      pose proof (NoDup_lookup l (Z.to_nat x) (Z.to_nat y) (l !!! Z.to_nat x) Hnd (Hlook x Hx)) as Hxy.
      rewrite Exy in Hxy. specialize (Hxy (Hlook y Hy)). rewrite list.Forall_forall in Hk.
      pose proof (Hk x Hx). pose proof (Hk y Hy). lia. }
  destruct distinct; cbn [negb].
  - destruct (GenRandMap_distinct (zlen l) n rands) as (m & -> & [Hs Hk] & _ & Hv); [done|auto|done|].
    destruct (lt_le_sorted _ Hs) as [Hle Hkn]. destruct (Hpick m Hle Hk Hv) as (picked & E & Hz & Hin & Hnp). exists picked. auto.
  - destruct (GenRandMap_repeat (zlen l) n rands) as (m & -> & Hs & Hk & Hv); [done|done|done|].
    destruct (Hpick m Hs Hk Hv) as (picked & E & Hz & Hin & _). by exists picked.
Qed.
