(* ===== verification/Codec.v ===== *)
(** * Byte buffers: the encodings shared by objects and command images

    The C++ code reads and writes fixed-width integers in host order
    (little-endian) through [reinterpret_cast], appends to a [std::string],
    or copies into a [std::vector<char>] that was resized first.  This file
    models the three idioms: little-endian integers, a [Reader] over the bytes
    that remain after [offset], and an in-place [VWriter]. *)

From S2P Require Import Prelude.

Declare Scope codec_scope.
Delimit Scope codec_scope with codec.

(** ** Little-endian integers *)

(** The [n] bytes of the integer [z], least significant first. *)
Fixpoint le_bytes (n : nat) (z : Z) : bytes :=
  match n with
  | O => []
  | S n' => z2b z :: le_bytes n' (z / 256)
  end.

(** The unsigned integer whose little-endian bytes are [l]. *)
Fixpoint le_Z (l : bytes) : Z :=
  match l with
  | [] => 0
  | b :: l' => b2z b + 256 * le_Z l'
  end.

Lemma le_bytes_length n z : length (le_bytes n z) = n.
Proof. revert z. induction n as [|n IH]; intros z; cbn; [done|]. by rewrite IH. Qed.

Lemma zlen_le_bytes n z : zlen (le_bytes n z) = Z.of_nat n.
Proof. unfold zlen. by rewrite le_bytes_length. Qed.
#[export] Hint Rewrite zlen_le_bytes : zlen.

Lemma le_Z_le_bytes n z : le_Z (le_bytes n z) = z mod 256 ^ Z.of_nat n.
Proof.
  revert z. induction n as [|n IH]; intros z; cbn [le_bytes le_Z].
  - by rewrite Z.mod_1_r.
  - rewrite b2z_z2b, IH, Nat2Z.inj_succ, Z.pow_succ_r by lia.
    rewrite Z.rem_mul_r by lia. lia.
Qed.

Lemma le_Z_range l : 0 <= le_Z l < 256 ^ zlen l.
Proof.
  induction l as [|b l IH]; cbn [le_Z]; zlen.
  - cbn. lia.
  - rewrite Z.pow_add_r by (pose proof (zlen_nonneg l); lia).
    pose proof (b2z_range b). lia.
Qed.

(** ** Reading *)

(** A reader consumes a prefix of the bytes at [offset] and returns a value
    and the rest; [None] is a read past the end of the buffer. *)
Definition Reader (A : Type) : Type := bytes -> option (A * bytes).

Definition rret {A} (a : A) : Reader A := fun buf => Some (a, buf).

Definition rbind {A B} (r : Reader A) (k : A -> Reader B) : Reader B :=
  fun buf => match r buf with
             | Some (a, rest) => k a rest
             | None => None
             end.

Notation "x <-- r ; k" := (rbind r (fun x => k))
  (at level 100, r at next level, right associativity) : codec_scope.
Open Scope codec_scope.

(** [n] raw bytes. *)
Definition read_bytes (n : Z) : Reader bytes := fun buf =>
  if decide (n <= zlen buf)
  then Some (take (Z.to_nat n) buf, drop (Z.to_nat n) buf)
  else None.

Definition read_le (n : nat) : Reader Z :=
  l <-- read_bytes (Z.of_nat n); rret (le_Z l).

Definition read_u8 : Reader Z := read_le 1.
Definition read_u32 : Reader Z := read_le 4.
Definition read_u64 : Reader Z := read_le 8.
Definition read_i64 : Reader Z := v <-- read_le 8; rret (i64 v).
Definition read_i32 : Reader Z := v <-- read_le 4; rret (i32 v).

(** [r] reads back [a] from the bytes [w], whatever follows them. *)
Definition Reads {A} (r : Reader A) (w : bytes) (a : A) : Prop :=
  forall rest, r (w ++ rest) = Some (a, rest).

Lemma Reads_ret {A} (a : A) : Reads (rret a) [] a.
Proof. intros rest. done. Qed.

Lemma Reads_bind {A B} (r : Reader A) (k : A -> Reader B) w1 w2 a b :
  Reads r w1 a -> Reads (k a) w2 b -> Reads (rbind r k) (w1 ++ w2) b.
Proof. intros H1 H2 rest. unfold rbind. by rewrite <-app_assoc, H1, H2. Qed.

Lemma Reads_bind_ret {A B} (r : Reader A) (k : A -> Reader B) w a b :
  Reads r w a -> k a = rret b -> Reads (rbind r k) w b.
Proof. intros H1 H2 rest. unfold rbind. by rewrite H1, H2. Qed.

Lemma Reads_bytes n w : n = zlen w -> Reads (read_bytes n) w w.
Proof.
  intros -> rest. unfold read_bytes.
  rewrite decide_True by (zlen; pose proof (zlen_nonneg rest); lia).
  unfold zlen. by rewrite Nat2Z.id, take_app_length, drop_app_length.
Qed.

Lemma Reads_le n z v : z mod 256 ^ Z.of_nat n = v -> Reads (read_le n) (le_bytes n z) v.
Proof.
  intros <-. eapply Reads_bind_ret; [apply Reads_bytes; by zlen|].
  by rewrite le_Z_le_bytes.
Qed.

Lemma Reads_u8 z : is_u8 z -> Reads read_u8 (le_bytes 1 z) z.
Proof. intros H. apply Reads_le, Z.mod_small, H. Qed.

Lemma Reads_u32 z : is_u32 z -> Reads read_u32 (le_bytes 4 z) z.
Proof. intros H. apply Reads_le, Z.mod_small, H. Qed.

Lemma Reads_u64 z : is_u64 z -> Reads read_u64 (le_bytes 8 z) z.
Proof. intros H. apply Reads_le, Z.mod_small, H. Qed.

Lemma Reads_i64 z : is_i64 z -> Reads read_i64 (le_bytes 8 z) z.
Proof.
  intros H. eapply Reads_bind_ret; [by apply Reads_le|].
  change (256 ^ Z.of_nat 8) with (2 ^ 64). change (z mod 2 ^ 64) with (u64 z).
  by rewrite i64_u64, i64_id.
Qed.

Lemma Reads_i32 z : is_i32 z -> Reads read_i32 (le_bytes 4 z) z.
Proof.
  intros H. eapply Reads_bind_ret; [by apply Reads_le|].
  change (256 ^ Z.of_nat 4) with (2 ^ 32). unfold i32 in *.
  rewrite Zplus_mod_idemp_l. fold (i32 z). by rewrite i32_id.
Qed.

(** [offset] after a read minus [offset] before it. *)
Definition read_consumed {A} (r : Reader A) : Reader (A * Z) := fun buf =>
  match r buf with
  | Some (a, rest) => Some ((a, zlen buf - zlen rest), rest)
  | None => None
  end.

Lemma Reads_consumed {A} (r : Reader A) w a :
  Reads r w a -> Reads (read_consumed r) w (a, zlen w).
Proof.
  intros H rest. unfold read_consumed. rewrite H. do 3 f_equal. zlen. lia.
Qed.

Create HintDb codec.
#[export] Hint Resolve Reads_ret Reads_bytes Reads_u8 Reads_u32 Reads_u64 Reads_i64 Reads_i32 : codec.

(** The loop [for (i = 0; i < cnt; i++) { ... emplace_back(...); }]. *)
Fixpoint read_times {A} (cnt : nat) (r : Reader A) : Reader (list A) :=
  match cnt with
  | O => rret []
  | S cnt' => a <-- r; l <-- read_times cnt' r; rret (a :: l)
  end.

Lemma Reads_times {A B} (r : Reader A) (enc : B -> bytes) (dec : B -> A) l :
  (forall x, x ∈ l -> Reads r (enc x) (dec x)) ->
  Reads (read_times (length l) r) (concat (enc <$> l)) (dec <$> l).
Proof.
  induction l as [|x l IH]; intros H; cbn; [apply Reads_ret|].
  eapply Reads_bind; [apply H; left|].
  eapply Reads_bind_ret; [apply IH|done].
  intros y Hy. apply H. by right.
Qed.

(** A [uint32_t] length followed by that many bytes. *)
Definition lp_string (s : bytes) : bytes := le_bytes 4 (zlen s) ++ take (Z.to_nat (u32 (zlen s))) s.

Definition read_lp_string : Reader bytes :=
  len <-- read_u32; read_bytes len.

Lemma lp_string_small s : is_u32 (zlen s) -> lp_string s = le_bytes 4 (zlen s) ++ s.
Proof.
  intros H. unfold lp_string. rewrite u32_id by done. unfold zlen.
  by rewrite Nat2Z.id, take_ge by done.
Qed.

Lemma zlen_lp_string s : is_u32 (zlen s) -> zlen (lp_string s) = 4 + zlen s.
Proof. intros H. rewrite lp_string_small by done. zlen. lia. Qed.

Lemma Reads_lp_string s : is_u32 (zlen s) -> Reads read_lp_string (lp_string s) s.
Proof. intros H. rewrite lp_string_small by done. eapply Reads_bind; eauto with codec. Qed.
#[export] Hint Resolve Reads_lp_string : codec.

(** ** Writing into a resized [std::vector<char>] *)

(** [buf.resize(n)]. *)
Definition vresize (n : nat) (buf : bytes) : bytes :=
  take n buf ++ replicate (n - length buf) Init.Byte.x00.

(** [std::copy(src.begin(), src.end(), buf.begin() + off)]; [None] when the
    copy would run past the end of the vector. *)
Definition vcopy (src : bytes) (buf : bytes) (off : nat) : option bytes :=
  if decide (off + length src <= length buf)%nat
  then Some (take off buf ++ src ++ drop (off + length src) buf)
  else None.

(** A writer advances [offset] over the bytes it copies. *)
Definition VWriter : Type := bytes * nat -> option (bytes * nat).

Definition vskip : VWriter := fun st => Some st.

Definition vput (src : bytes) : VWriter := fun st =>
  let '(buf, off) := st in
  match vcopy src buf off with
  | Some buf' => Some (buf', (off + length src)%nat)
  | None => None
  end.

Definition vseq (w1 w2 : VWriter) : VWriter := fun st =>
  match w1 st with
  | Some st' => w2 st'
  | None => None
  end.

Notation "w1 ;;w w2" := (vseq w1 w2) (at level 100, right associativity) : codec_scope.

(** [for (x : l) { w(x) }]. *)
Fixpoint vfor {A} (w : A -> VWriter) (l : list A) : VWriter :=
  match l with
  | [] => vskip
  | x :: l' => w x ;;w vfor w l'
  end.

(** [w] writes exactly [bs] at the offset and nothing else before it. *)
Definition Writes (w : VWriter) (bs : bytes) : Prop :=
  forall buf off, (off + length bs <= length buf)%nat ->
  exists buf', w (buf, off) = Some (buf', (off + length bs)%nat)
    /\ length buf' = length buf
    /\ take (off + length bs) buf' = take off buf ++ bs.

Lemma Writes_skip : Writes vskip [].
Proof.
  intros buf off H. exists buf. cbn. rewrite Nat.add_0_r, app_nil_r. done.
Qed.

Lemma Writes_put bs : Writes (vput bs) bs.
Proof.
  intros buf off H. unfold vput, vcopy. rewrite decide_True by done.
  eexists; split; [done|]. split.
  - rewrite !length_app, length_take, length_drop. lia.
  - rewrite app_assoc.
    assert (length (take off buf ++ bs) = off + length bs)%nat as <-.
    { rewrite length_app, length_take. lia. }
    by rewrite take_app_length.
Qed.

Lemma Writes_seq w1 w2 b1 b2 :
  Writes w1 b1 -> Writes w2 b2 -> Writes (w1 ;;w w2) (b1 ++ b2).
Proof.
  intros H1 H2 buf off Hle. rewrite length_app in *.
  destruct (H1 buf off ltac:(lia)) as (buf1 & E1 & L1 & T1).
  destruct (H2 buf1 (off + length b1)%nat ltac:(lia)) as (buf2 & E2 & L2 & T2).
  exists buf2. unfold vseq. rewrite E1, E2. split; [f_equal; f_equal; lia|].
  split; [lia|]. rewrite Nat.add_assoc, T2, T1. by rewrite app_assoc.
Qed.

Lemma Writes_for {A} (w : A -> VWriter) (enc : A -> bytes) l :
  (forall x, x ∈ l -> Writes (w x) (enc x)) -> Writes (vfor w l) (concat (enc <$> l)).
Proof.
  induction l as [|x l IH]; intros H; cbn; [apply Writes_skip|].
  apply Writes_seq; [apply H; left|]. apply IH. intros y Hy. apply H. by right.
Qed.
#[export] Hint Resolve Writes_skip Writes_put Writes_seq : codec.

(** A serializer that resizes the vector to [offset + len] and then writes
    [bs] leaves the [offset] first bytes in place, followed by [bs]. *)
Lemma length_vresize n buf : length (vresize n buf) = n.
Proof. unfold vresize. rewrite length_app, length_take, length_replicate. lia. Qed.

Lemma vresize_write w bs buf off :
  Writes w bs ->
  (off <= length buf)%nat ->
  w (vresize (off + length bs) buf, off) = Some (take off buf ++ bs, (off + length bs)%nat).
Proof.
  intros Hw Hoff. set (n := (off + length bs)%nat).
  pose proof (length_vresize n buf) as Hn.
  destruct (Hw (vresize n buf) off ltac:(lia)) as (buf' & E & L & T).
  rewrite E. f_equal. f_equal. unfold n in *.
  rewrite take_ge in T by lia. rewrite T. f_equal.
  unfold vresize. rewrite take_app_le by (rewrite length_take; lia).
  rewrite take_take. f_equal. lia.
Qed.

(** ** The contract of a stored object

    [image] is [len] bytes long and reads back as [a] whatever follows it, and
    writing into a vector at an offset gives the same bytes there. *)
Record image_law {A} (len : Z) (image : bytes) (vec : bytes -> nat -> option (bytes * nat))
    (read : Reader A) (a : A) : Prop := {
  il_len : zlen image = len;
  il_read : Reads read image a;
  il_vec : forall buf off, (off <= length buf)%nat ->
             vec buf off = Some (take off buf ++ image, (off + length image)%nat)
}.
