(* ===== verification/EloqString.v ===== *)
(** * EloqString: the value model of the string type of every object

    An [EloqString] is either an owned string (short ones inside the object,
    longer ones in a heap block) or a view of bytes owned by somebody else
    (include/eloq_string.h).  This file gives the value semantics the objects
    are written against: the storage class and the bytes [StringView()] shows.
    The union layout, the heap capacity and defragmentation are below this
    level and are not modelled. *)

From S2P Require Import Prelude Codec.

Inductive StorageType := Stack | Heap | View.

#[global] Instance StorageType_eq_dec : EqDecision StorageType.
Proof. solve_decision. Defined.

Record EloqString := ES { es_type : StorageType; es_view : bytes }.

#[global] Instance EloqString_eq_dec : EqDecision EloqString.
Proof. solve_decision. Defined.

(** Bytes that fit in [std::array<char, 23>] live in the object. *)
Definition owned_type (d : bytes) : StorageType :=
  if decide (length d <= 23)%nat then Stack else Heap.

(** [EloqString(const char *ptr, uint32_t length)]: an owned copy. *)
Definition es_own (d : bytes) : EloqString := ES (owned_type d) d.

(** [EloqString(std::string_view)]: a view. *)
Definition es_of_view (d : bytes) : EloqString := ES View d.

(** [EloqString(str.c_str(), str.size())]: the length parameter is a
    [uint32_t]. *)
Definition es_of_data (d : bytes) : EloqString := es_own (take (Z.to_nat (u32 (zlen d))) d).

(** [Length()] returns a [uint32_t]. *)
Definition es_length (s : EloqString) : Z := u32 (zlen (es_view s)).

(** The [Length()] first bytes at [Data()]. *)
Definition es_data (s : EloqString) : bytes := take (Z.to_nat (es_length s)) (es_view s).

(** [Clone()] copies [sv.size()], narrowed to [uint32_t], bytes. *)
Definition es_clone (s : EloqString) : EloqString :=
  es_own (take (Z.to_nat (es_length s)) (es_view s)).

(** The default constructor: a view of [nullptr], which is not the string of
    length zero.  No other view that an object holds is empty. *)
Definition es_null : EloqString := ES View [].

(** [StringView().data() == nullptr]. *)
Definition es_is_null (s : EloqString) : bool := bool_decide (s = es_null).

(** [Clear()]. *)
Definition es_clear : EloqString := ES Stack [].

(** The move constructor and move assignment: the new string, and what is
    left in the source. *)
Definition es_move (rhs : EloqString) : EloqString * EloqString :=
  (match es_type rhs with
   | View => es_of_view (es_view rhs)
   | _ => es_own (es_view rhs)
   end, es_clear).

(** The copy constructor and copy assignment keep a view a view. *)
Definition es_copy (rhs : EloqString) : EloqString :=
  match es_type rhs with
  | View => es_of_view (es_view rhs)
  | _ => es_own (es_view rhs)
  end.

Definition es_is_view (s : EloqString) : bool :=
  match es_type s with View => true | _ => false end.

(** [operator==] compares what the views show. *)
Definition es_eqb (a b : EloqString) : bool := bool_decide (es_view a = es_view b).

(** [std::string_view] compares unsigned bytes, then lengths. *)
Fixpoint bytes_ltb (a b : bytes) : bool :=
  match a, b with
  | _, [] => false
  | [], _ :: _ => true
  | x :: a', y :: b' =>
      if b2z x <? b2z y then true else if b2z y <? b2z x then false else bytes_ltb a' b'
  end.

(** [operator<]. *)
Definition es_ltb (a b : EloqString) : bool := bytes_ltb (es_view a) (es_view b).

(** How a commit stores a command's string: a view (or a string that other
    users of the command still need) is cloned, an owned one is moved. *)
Definition es_take (should_not_move : bool) (e : EloqString) : EloqString * EloqString :=
  if es_is_view e || should_not_move then (es_clone e, e) else es_move e.

(** One element copied into the vector: its [uint32_t] length, then its bytes. *)
Definition vput_lp (e : EloqString) : VWriter :=
  vput (le_bytes 4 (es_length e)) ;;w vput (take (Z.to_nat (es_length e)) (es_view e)).

(** ** Facts *)

(** A string whose bytes nobody else owns. *)
Definition es_owned (s : EloqString) : Prop := es_type s = owned_type (es_view s).

(** Bytes, and a string, short enough for every length field in the code. *)
Definition fits (c : bytes) : Prop := is_u32 (zlen c).
Definition es_fits (s : EloqString) : Prop := is_u32 (zlen (es_view s)).

Lemma es_length_fits s : es_fits s -> es_length s = zlen (es_view s).
Proof. apply u32_id. Qed.

Lemma es_length_own c : fits c -> es_length (es_own c) = zlen c.
Proof. intros H. by apply (es_length_fits (es_own c)). Qed.

Lemma es_of_data_own d : is_u32 (zlen d) -> es_of_data d = es_own d.
Proof. intros H. unfold es_of_data. by rewrite u32_id, take_zlen. Qed.

Lemma es_data_fits s : es_fits s -> es_data s = es_view s.
Proof. intros H. unfold es_data. by rewrite es_length_fits, take_zlen. Qed.

Lemma Writes_vput_lp c : fits c -> Writes (vput_lp (es_own c)) (lp_string c).
Proof.
  intros H. unfold vput_lp, lp_string. rewrite es_length_own by done. cbn [es_view es_own].
  rewrite u32_id by done. auto with codec.
Qed.

Lemma es_length_range s : is_u32 (es_length s).
Proof. apply u32_range. Qed.

Lemma es_length_nonneg s : 0 <= es_length s.
Proof. apply es_length_range. Qed.

Lemma es_own_owned d : es_owned (es_own d).
Proof. done. Qed.

Lemma owned_type_not_view d : owned_type d <> View.
Proof. unfold owned_type. by case_decide. Qed.

Lemma es_owned_not_view s : es_owned s -> es_type s <> View.
Proof. intros ->. apply owned_type_not_view. Qed.

Lemma es_owned_eta s : es_owned s -> s = es_own (es_view s).
Proof. destruct s. unfold es_owned, es_own. cbn. by intros ->. Qed.

Lemma es_clone_view s : es_fits s -> es_view (es_clone s) = es_view s.
Proof.
  intros H. unfold es_clone. cbn. rewrite es_length_fits by done.
  unfold zlen. by rewrite Nat2Z.id, take_ge.
Qed.

Lemma es_clone_owned s : es_owned (es_clone s).
Proof. done. Qed.

Lemma es_clone_own c : fits c -> es_clone (es_own c) = es_own c.
Proof.
  intros H. rewrite (es_owned_eta _ (es_clone_owned (es_own c))). by rewrite es_clone_view.
Qed.

Lemma es_eqb_eq a b : es_eqb a b = true <-> es_view a = es_view b.
Proof. unfold es_eqb. by rewrite bool_decide_eq_true. Qed.

(** Whatever storage class a command's string has, what a commit stores shows
    the same bytes and is owned by the object. *)
Lemma es_take_view keep e : es_fits e -> es_view (es_take keep e).1 = es_view e.
Proof.
  intros H. unfold es_take, es_move.
  destruct (es_is_view e || keep); cbn; [by apply es_clone_view|].
  by destruct (es_type e).
Qed.

Lemma es_take_owned keep e : es_owned (es_take keep e).1.
Proof.
  unfold es_take, es_move, es_is_view.
  destruct (es_type e); cbn; try done; destruct keep; done.
Qed.

Lemma es_take_own keep e : es_fits e -> (es_take keep e).1 = es_own (es_view e).
Proof.
  intros H. rewrite (es_owned_eta (es_take keep e).1) by apply es_take_owned.
  by rewrite es_take_view.
Qed.

Lemma bytes_ltb_irrefl a : bytes_ltb a a = false.
Proof. induction a as [|x a IH]; cbn; [done|]. by rewrite Z.ltb_irrefl. Qed.

Lemma bytes_ltb_trans a b c : bytes_ltb a b = true -> bytes_ltb b c = true -> bytes_ltb a c = true.
Proof.
  revert b c. induction a as [|x a IH]; intros [|y b] [|z c]; cbn; try done.
  destruct (Z.ltb_spec (b2z x) (b2z y)), (Z.ltb_spec (b2z y) (b2z x)), (Z.ltb_spec (b2z y) (b2z z)),
    (Z.ltb_spec (b2z z) (b2z y)), (Z.ltb_spec (b2z x) (b2z z)), (Z.ltb_spec (b2z z) (b2z x));
    try done; try lia. apply IH.
Qed.

Lemma bytes_ltb_total a b : bytes_ltb a b = false -> bytes_ltb b a = false -> a = b.
Proof.
  revert b. induction a as [|x a IH]; intros [|y b]; cbn; try done.
  destruct (Z.ltb_spec (b2z x) (b2z y)), (Z.ltb_spec (b2z y) (b2z x)); try done.
  intros H1 H2. f_equal; [apply b2z_inj; lia|auto].
Qed.

Create HintDb estr.
#[export] Hint Resolve es_own_owned es_clone_owned es_take_owned es_length_nonneg
  es_length_range es_owned_not_view : estr.
