(* ===== verification/RedisTypes.v ===== *)
(** * Types shared by the Redis objects and commands

    The enumerations, error codes and result structures that the object files
    and the command files exchange (include/redis_object.h,
    include/redis_errors.h, include/redis_command.h). *)

From S2P Require Import Prelude Codec EloqString.

(** [MAX_OBJECT_SIZE], 256 MB. *)
Definition MAX_OBJECT_SIZE : Z := 256 * 1024 * 1024.

(** What a commit will do to the object. *)
Inductive CommandExecuteState := NoChange | Modified | ModifiedToEmpty.

(** The engine's verdicts that the commands return (txservice::ExecResult). *)
Inductive ExecResult :=
| ExecFail | ExecRead | ExecWrite | ExecDelete | ExecBlock | ExecUnlock.

(** The concrete object classes; the numbers are written to storage. *)
Inductive RedisObjectType :=
| TyUnknown | TyString | TyList | TyHash | TyDel | TyZset | TySet
| TyTTLString | TyTTLList | TyTTLHash | TyTTLZset | TyTTLSet.

Definition object_type_int (t : RedisObjectType) : Z :=
  match t with
  | TyUnknown => -1
  | TyString => 0
  | TyList => 1
  | TyHash => 2
  | TyDel => 3
  | TyZset => 4
  | TySet => 5
  | TyTTLString => 6
  | TyTTLList => 7
  | TyTTLHash => 8
  | TyTTLZset => 10
  | TyTTLSet => 11
  end.

#[global] Instance RedisObjectType_eq_dec : EqDecision RedisObjectType.
Proof. solve_decision. Defined.
#[global] Instance ExecResult_eq_dec : EqDecision ExecResult.
Proof. solve_decision. Defined.
#[global] Instance CommandExecuteState_eq_dec : EqDecision CommandExecuteState.
Proof. solve_decision. Defined.

(** The byte [int8_t obj_type] written first in every object image. *)
Definition type_byte (t : RedisObjectType) : bytes := [z2b (object_type_int t)].

(** ** Error codes *)

Definition RD_OK : Z := 0.
Definition RD_NIL : Z := 1.
Definition RD_ERR_WRONG_TYPE : Z := 2.
Definition RD_ERR_DIGITAL_INVALID : Z := 3.
Definition RD_ERR_POSITIVE_INVALID : Z := 4.
Definition RD_ERR_SYNTAX : Z := 5.
Definition RD_ERR_LT_GT_NX : Z := 6.
Definition RD_ERR_XX_NX : Z := 7.
Definition RD_ERR_LIMIT : Z := 8.
Definition RD_ERR_WITHSCORE_BYLEX : Z := 9.
Definition RD_ERR_MIN_MAX_NOT_FLOAT : Z := 11.
Definition RD_ERR_MIN_MAX_NOT_STRING : Z := 12.
Definition RD_ERR_SCORE_NAN : Z := 13.
Definition RD_ERR_HASH_VAL_ERROR : Z := 14.
Definition RD_ERR_INCR_OVERFLOW : Z := 16.
Definition RD_ERR_FLOAT_VALUE : Z := 17.
Definition RD_ERR_INCR_NAN_OR_INFINITY : Z := 18.
Definition RD_ERR_NO_SUCH_KEY : Z := 24.
Definition RD_ERR_INDEX_OUT_OF_RANGE : Z := 25.
Definition RD_ERR_OBJECT_TOO_BIG : Z := 35.

(** ** Results *)

(** The variant held by a [RedisListResult]. *)
Inductive ListResultValue :=
| LRInt64s (l : list Z)
| LRStrings (l : list bytes)
| LRString (s : bytes)
| LREloq (s : EloqString).

Record RedisListResult := mkListResult {
  lr_err_code_ : Z;
  lr_result_ : ListResultValue;
  lr_ret_ : Z
}.

(** A fresh result: [err_code_{RD_NIL}], the first alternative, [ret_{0}]. *)
Definition list_result0 : RedisListResult := mkListResult RD_NIL (LRInt64s []) 0.

Definition lr_set_err (e : Z) (r : RedisListResult) : RedisListResult :=
  mkListResult e (lr_result_ r) (lr_ret_ r).
Definition lr_set_ret (n : Z) (r : RedisListResult) : RedisListResult :=
  mkListResult (lr_err_code_ r) (lr_result_ r) n.
Definition lr_set_result (v : ListResultValue) (r : RedisListResult) : RedisListResult :=
  mkListResult (lr_err_code_ r) v (lr_ret_ r).

(** [RedisStringResult] and [RedisIntResult]. *)
Record RedisStringResult := mkStringResult {
  sr_err_code_ : Z;
  sr_str_ : bytes;
  sr_int_ret_ : Z;
  sr_vct_int_ : list (bool * Z)
}.

Definition string_result0 : RedisStringResult := mkStringResult RD_NIL [] 0 [].

Definition sr_set_err (e : Z) (r : RedisStringResult) : RedisStringResult :=
  mkStringResult e (sr_str_ r) (sr_int_ret_ r) (sr_vct_int_ r).
Definition sr_set_str (s : bytes) (r : RedisStringResult) : RedisStringResult :=
  mkStringResult (sr_err_code_ r) s (sr_int_ret_ r) (sr_vct_int_ r).
Definition sr_set_int (n : Z) (r : RedisStringResult) : RedisStringResult :=
  mkStringResult (sr_err_code_ r) (sr_str_ r) n (sr_vct_int_ r).
Definition sr_set_vct (l : list (bool * Z)) (r : RedisStringResult) : RedisStringResult :=
  mkStringResult (sr_err_code_ r) (sr_str_ r) (sr_int_ret_ r) l.

Record RedisIntResult := mkIntResult { ir_err_code_ : Z; ir_int_val_ : Z }.

Definition int_result0 : RedisIntResult := mkIntResult RD_NIL 0.

(** The variant held by a [RedisHashResult]. *)
Inductive HashResultValue :=
| HRInt (n : Z)
| HRString (s : bytes)
| HRStrings (l : list bytes)
| HRNilable (l : list (option bytes)).

Record RedisHashResult := mkHashResult { hr_err_code_ : Z; hr_result_ : HashResultValue }.

Definition hash_result0 : RedisHashResult := mkHashResult RD_NIL (HRInt 0).

Definition hr_set_err (e : Z) (r : RedisHashResult) : RedisHashResult :=
  mkHashResult e (hr_result_ r).
Definition hr_set_result (v : HashResultValue) (r : RedisHashResult) : RedisHashResult :=
  mkHashResult (hr_err_code_ r) v.

(** [RedisHashSetResult]. *)
Record RedisHashSetResult := mkSetResult {
  ss_err_code_ : Z;
  ss_string_list_ : list EloqString;
  ss_ret_ : Z
}.

Definition set_result0 : RedisHashSetResult := mkSetResult RD_NIL [] 0.

Definition ss_set_err (e : Z) (r : RedisHashSetResult) : RedisHashSetResult :=
  mkSetResult e (ss_string_list_ r) (ss_ret_ r).
Definition ss_set_list (l : list EloqString) (r : RedisHashSetResult) : RedisHashSetResult :=
  mkSetResult (ss_err_code_ r) l (ss_ret_ r).
Definition ss_set_ret (n : Z) (r : RedisHashSetResult) : RedisHashSetResult :=
  mkSetResult (ss_err_code_ r) (ss_string_list_ r) n.

(** The variant held by a [RedisZsetResult]; a double is its bits. *)
Inductive ZsetResultValue :=
| ZRString (s : EloqString)
| ZRDouble (d : Z)
| ZRInt (n : Z)
| ZRStrings (l : list EloqString)
| ZRPair (n : Z) (s : bytes).

Record RedisZsetResult := mkZsetResult { zr_err_code_ : Z; zr_result_ : ZsetResultValue }.

(** The first alternative is a null string. *)
Definition zset_result0 : RedisZsetResult := mkZsetResult RD_NIL (ZRString (es_of_view [])).

Definition zr_set_err (e : Z) (r : RedisZsetResult) : RedisZsetResult := mkZsetResult e (zr_result_ r).
Definition zr_set_result (v : ZsetResultValue) (r : RedisZsetResult) : RedisZsetResult :=
  mkZsetResult (zr_err_code_ r) v.

Lemma zlen_type_byte t : zlen (type_byte t) = 1.
Proof. done. Qed.
#[export] Hint Rewrite zlen_type_byte : zlen.
