(* ===== verification/StringNum.v ===== *)
(** * Integers and their decimal strings

    [string2ll], the strict parser every integer argument and every counter
    goes through, and the overflow tests (include/redis_string_num.h), together
    with [std::to_string] on 64-bit integers, which writes counters back. *)

From S2P Require Import Prelude.

Definition LONG_STR_SIZE : Z := 21.

(** A decimal digit as [char], and the [char] literals of the source. *)
Definition digit_byte (d : Z) : byte := z2b (48 + d).
Definition chr_minus : byte := z2b 45.
Definition chr_zero : byte := z2b 48.

Definition is_digit (lo : Z) (c : byte) : bool := (lo <=? c2z c) && (c2z c <=? 57).

(** The loop over the remaining digits; [None] is its early [return 0],
    otherwise the accumulated [uint64_t] and the bytes not consumed. *)
Fixpoint string2ll_digits (v : Z) (p : bytes) : option (Z * bytes) :=
  match p with
  | [] => Some (v, [])
  | c :: p' =>
      if is_digit 48 c then
        if UINT64_MAX / 10 <? v then None
        else
          let v := u64 (v * 10) in
          if u64 (UINT64_MAX - (c2z c - 48)) <? v then None
          else string2ll_digits (u64 (v + (c2z c - 48))) p'
      else Some (v, p)
  end.

Definition string2ll (s : bytes) : option Z :=
  if (zlen s =? 0) || (LONG_STR_SIZE <=? zlen s) then None
  else if bool_decide (s = [chr_zero]) then Some 0
  else
    let '(negative, p) :=
      match s with
      | c :: p => if bool_decide (c = chr_minus) then (true, p) else (false, s)
      | [] => (false, s)
      end in
    match p with
    | [] => None
    | c :: p' =>
        if is_digit 49 c then
          match string2ll_digits (c2z c - 48) p' with
          | Some (v, []) =>
              if negative : bool then
                if u64 (- (INT64_MIN + 1)) + 1 <? v then None else Some (i64 (u64 (- v)))
              else if INT64_MAX <? v then None else Some (i64 v)
          | _ => None
          end
        else None
    end.

(** [std::to_string(int64_t)]. *)
Fixpoint dec_digits (fuel : nat) (n : Z) : bytes :=
  match fuel with
  | O => []
  | S fuel' =>
      if n <? 10 then [digit_byte n]
      else dec_digits fuel' (n / 10) ++ [digit_byte (n mod 10)]
  end.

(** Twenty digits are enough for every 64-bit magnitude. *)
Definition to_string (z : Z) : bytes :=
  if z <? 0 then chr_minus :: dec_digits 20 (- z) else dec_digits 20 z.

(** [std::stoull] in base ten: leading white space, a sign, and the digits up
    to the first other character; [None] when it throws. *)
Definition is_space (c : byte) : bool := ((9 <=? c2z c) && (c2z c <=? 13)) || (c2z c =? 32).

Fixpoint skip_spaces (s : bytes) : bytes :=
  match s with
  | c :: s' => if is_space c then skip_spaces s' else s
  | [] => []
  end.

Fixpoint stoull_digits (v : Z) (p : bytes) : Z :=
  match p with
  | c :: p' => if is_digit 48 c then stoull_digits (v * 10 + (c2z c - 48)) p' else v
  | [] => v
  end.

Definition stoull (s : bytes) : option Z :=
  let s := skip_spaces s in
  let '(negative, p) :=
    match s with
    | c :: p => if c2z c =? 45 then (true, p) else if c2z c =? 43 then (false, p) else (false, s)
    | [] => (false, s)
    end in
  match p with
  | [] => None
  | c :: _ =>
      if is_digit 48 c then
        let v := stoull_digits 0 p in
        if UINT64_MAX <? v then None else Some (if negative : bool then u64 (- v) else v)
      else None
  end.

(** The [int64_t] and [uint64_t] overloads; division truncates. *)
Definition will_addition_overflow (a b : Z) : bool :=
  if (0 <? a) && (0 <? b) && (INT64_MAX - b <? a) then true
  else if (a <? 0) && (b <? 0) && (a <? INT64_MIN - b) then true
  else false.

Definition will_addition_overflow_u64 (a b : Z) : bool :=
  if (0 <? a) && (0 <? b) && (UINT64_MAX - b <? a) then true else false.

Definition will_multiplication_overflow (a b : Z) : bool :=
  if (a =? 0) || (b =? 0) then false
  else if (0 <? a) && (0 <? b) then Z.quot INT64_MAX b <? a
  else if (0 <? a) && (b <? 0) then b <? Z.quot INT64_MIN a
  else if (a <? 0) && (0 <? b) then a <? Z.quot INT64_MIN b
  else if (a <? 0) && (b <? 0) then a <? Z.quot INT64_MAX b
  else false.

Definition will_multiplication_overflow_u64 (a b : Z) : bool :=
  if (a =? 0) || (b =? 0) then false else UINT64_MAX / b <? a.

(** ** Digits *)

Lemma c2z_digit_byte d : 0 <= d <= 9 -> c2z (digit_byte d) = 48 + d.
Proof.
  intros H. unfold c2z, digit_byte. rewrite b2z_z2b, Z.mod_small by lia.
  destruct (Z.ltb_spec (48 + d) 128); lia.
Qed.

Lemma c2z_inj a b : c2z a = c2z b -> a = b.
Proof.
  unfold c2z. intros H. apply b2z_inj. pose proof (b2z_range a). pose proof (b2z_range b).
  destruct (Z.ltb_spec (b2z a) 128), (Z.ltb_spec (b2z b) 128); lia.
Qed.

Lemma is_digit_true lo c :
  48 <= lo -> is_digit lo c = true ->
  lo - 48 <= c2z c - 48 <= 9 /\ c = digit_byte (c2z c - 48).
Proof.
  unfold is_digit. intros Hlo H. split; [lia|].
  apply c2z_inj. rewrite c2z_digit_byte; lia.
Qed.

Lemma is_digit_byte lo d : lo - 48 <= d -> 0 <= d <= 9 -> is_digit lo (digit_byte d) = true.
Proof. intros. unfold is_digit. rewrite c2z_digit_byte by done. lia. Qed.

(** Printing does not depend on spare fuel, and appending a digit multiplies
    by ten. *)
Lemma dec_digits_fuel f g n :
  0 < n < 10 ^ Z.of_nat f -> (f <= g)%nat -> dec_digits g n = dec_digits f n.
Proof.
  revert g n. induction f as [|f IH]; intros g n Hn Hg.
  - change (10 ^ Z.of_nat 0) with 1 in Hn. lia.
  - destruct g as [|g]; [lia|]. cbn [dec_digits]. destruct (Z.ltb_spec n 10); [done|].
    rewrite Nat2Z.inj_succ, Z.pow_succ_r in Hn by lia. rewrite IH; [done| |lia].
    split; [apply Z.div_str_pos; lia|]. apply Z.div_lt_upper_bound; lia.
Qed.

Lemma dec_digits_snoc v d :
  0 < v < 10 ^ 19 -> 0 <= d <= 9 ->
  dec_digits 20 (v * 10 + d) = dec_digits 20 v ++ [digit_byte d].
Proof.
  intros Hv Hd. rewrite (dec_digits_fuel 19 20 v) by (change (Z.of_nat 19) with 19; lia).
  change (dec_digits 20 (v * 10 + d)) with
    (if v * 10 + d <? 10 then [digit_byte (v * 10 + d)]
     else dec_digits 19 ((v * 10 + d) / 10) ++ [digit_byte ((v * 10 + d) mod 10)]).
  destruct (Z.ltb_spec (v * 10 + d) 10); [lia|].
  rewrite Z.div_add_l, Z.div_small, Z.add_0_r by lia.
  rewrite Z.add_comm, Z.mod_add, Z.mod_small by lia. done.
Qed.

Lemma dec_digits_one d : 0 <= d <= 9 -> dec_digits 20 d = [digit_byte d].
Proof. intros H. cbn [dec_digits]. by destruct (Z.ltb_spec d 10); [|lia]. Qed.

(** ** The digit loop reads exactly what printing wrote *)

Lemma string2ll_digits_print v p n rest :
  0 < v -> string2ll_digits v p = Some (n, rest) ->
  v <= n /\ (is_u64 v -> is_u64 n)
  /\ (rest = [] -> is_u64 v -> dec_digits 20 n = dec_digits 20 v ++ p).
Proof.
  revert v. induction p as [|c p IH]; intros v Hv; cbn [string2ll_digits].
  - intros [= <- <-]. rewrite app_nil_r. split; [lia|done].
  - destruct (is_digit 48 c) eqn:Ec.
    + apply is_digit_true in Ec as [Hc Ec]; [|lia].
      destruct (Z.ltb_spec (UINT64_MAX / 10) v) as [|Hv10]; [done|].
      change (UINT64_MAX / 10) with 1844674407370955161 in Hv10.
      rewrite (u64_id (v * 10)) by (mach; lia).
      rewrite (u64_id (UINT64_MAX - _)) by (mach; lia).
      destruct (Z.ltb_spec (UINT64_MAX - (c2z c - 48)) (v * 10)) as [|Hb]; [done|].
      rewrite u64_id by (mach; lia). intros H.
      destruct (IH (v * 10 + (c2z c - 48)) ltac:(lia) H) as (Hle & Hu & Hp).
      split; [lia|]. assert (is_u64 (v * 10 + (c2z c - 48))) by (mach; lia).
      split; [tauto|]. intros Hr _. rewrite Hp, dec_digits_snoc by (done || lia).
      rewrite <-app_assoc. cbn [app]. by rewrite <-Ec.
    + intros [= <- <-]. split; [lia|]. split; done.
Qed.

Lemma string2ll_digits_app v p q :
  string2ll_digits v (p ++ q) =
  match string2ll_digits v p with
  | Some (n, []) => string2ll_digits n q
  | Some (n, r) => Some (n, r ++ q)
  | None => None
  end.
Proof.
  revert v. induction p as [|c p IH]; intros v; cbn [app string2ll_digits]; [done|].
  destruct (is_digit 48 c); [|done]. destruct (_ <? v); [done|].
  destruct (_ <? _); [done|]. apply IH.
Qed.

Lemma dec_digits_parse f n :
  (f <= 20)%nat -> 0 < n < 10 ^ Z.of_nat f -> is_u64 n ->
  exists c p, dec_digits f n = digit_byte c :: p /\ 1 <= c <= 9
    /\ string2ll_digits c p = Some (n, []).
Proof.
  revert n. induction f as [|f IH]; intros n Hf Hn Hu; [change (10 ^ Z.of_nat 0) with 1 in Hn; lia|]. cbn [dec_digits].
  destruct (Z.ltb_spec n 10); [by exists n, []; repeat split; try lia|].
  rewrite Nat2Z.inj_succ, Z.pow_succ_r in Hn by lia.
  pose proof (Z.div_mod n 10 ltac:(lia)). pose proof (Z.mod_pos_bound n 10 ltac:(lia)).
  assert (0 < n / 10) by (apply Z.div_str_pos; lia).
  destruct (IH (n / 10)) as (c & p & -> & Hc & E); [lia| |mach; lia|].
  { split; [lia|]. apply Z.div_lt_upper_bound; lia. }
  exists c, (p ++ [digit_byte (n mod 10)]). split; [done|]. split; [done|].
  rewrite string2ll_digits_app, E. cbn [string2ll_digits].
  rewrite is_digit_byte by lia. change (UINT64_MAX / 10) with 1844674407370955161.
  mach. destruct (Z.ltb_spec 1844674407370955161 (n / 10)); [lia|].
  rewrite c2z_digit_byte, (u64_id (_ * 10)), (u64_id (_ - _)) by (mach; lia).
  destruct (Z.ltb_spec (2 ^ 64 - 1 - (48 + n mod 10 - 48)) (n / 10 * 10)); [lia|].
  rewrite u64_id by (mach; lia). do 2 f_equal. lia.
Qed.

(** Printed magnitudes have no more than twenty digits, and at most nineteen
    when they fit in 63 bits. *)
Lemma dec_digits_length f n : (f <= 20)%nat -> (length (dec_digits f n) <= f)%nat.
Proof.
  revert n. induction f as [|f IH]; intros n Hf; cbn [dec_digits]; [done|].
  destruct (n <? 10); cbn [length]; [lia|]. rewrite length_app. cbn [length].
  specialize (IH (n / 10) ltac:(lia)). lia.
Qed.

Lemma dec_digits_length_i64 n : 0 <= n <= 2 ^ 63 -> (length (dec_digits 20 n) <= 19)%nat.
Proof.
  intros H. destruct (decide (n = 0)) as [->|]; [cbn; lia|].
  rewrite (dec_digits_fuel 19 20) by (change (Z.of_nat 19) with 19; lia).
  apply dec_digits_length. lia.
Qed.

Lemma string2ll_print z : is_i64 z -> string2ll (to_string z) = Some z.
Proof.
  intros Hz. destruct (decide (z = 0)) as [->|Hnz]; [done|].
  remember (Z.abs z) as m eqn:Hm.
  destruct (dec_digits_parse 20 m) as (c & p & E & Hc & Ep);
    [lia|change (Z.of_nat 20) with 20; mach; lia|mach; lia|].
  pose proof (dec_digits_length_i64 m ltac:(mach; lia)) as Hl. rewrite E in Hl.
  assert (1 <= zlen (digit_byte c :: p) <= 19) as Hlen by (unfold zlen; cbn [length] in *; lia).
  assert (c2z (digit_byte c) = 48 + c) as Ec by (apply c2z_digit_byte; lia).
  assert (digit_byte c <> chr_zero) as Hc0.
  { intros H%(f_equal c2z). rewrite Ec in H. change (c2z chr_zero) with 48 in H. lia. }
  assert (digit_byte c <> chr_minus) as Hcm.
  { intros H%(f_equal c2z). rewrite Ec in H. change (c2z chr_minus) with 45 in H. lia. }
  unfold to_string, string2ll, LONG_STR_SIZE. destruct (Z.ltb_spec z 0).
  - replace (- z) with m by lia. rewrite E.
    destruct (_ || _) eqn:El; [zlen; lia|].
    rewrite bool_decide_eq_false_2 by done. rewrite bool_decide_eq_true_2 by done.
    rewrite is_digit_byte, Ec by lia. replace (48 + c - 48) with c by lia. rewrite Ep.
    change (u64 (- (INT64_MIN + 1)) + 1) with (2 ^ 63).
    destruct (Z.ltb_spec (2 ^ 63) m); [mach; lia|].
    rewrite i64_u64, i64_id by (mach; lia). f_equal. lia.
  - replace z with m in * by lia. rewrite E.
    destruct (_ || _) eqn:El; [zlen; lia|].
    rewrite bool_decide_eq_false_2 by congruence. rewrite bool_decide_eq_false_2 by done.
    rewrite is_digit_byte, Ec by lia. replace (48 + c - 48) with c by lia. rewrite Ep.
    destruct (Z.ltb_spec INT64_MAX m); [mach; lia|]. rewrite i64_id by done. done.
Qed.

(** The magnitude a non-zero string denotes. *)
Lemma string2ll_magnitude c p n :
  is_digit 49 c = true -> string2ll_digits (c2z c - 48) p = Some (n, []) ->
  0 < n /\ dec_digits 20 n = c :: p.
Proof.
  intros Hc H. apply is_digit_true in Hc as [Hc Ec]; [|lia].
  destruct (string2ll_digits_print (c2z c - 48) p n []) as (Hle & _ & Hp); [lia|done|].
  split; [lia|]. rewrite Hp, dec_digits_one by (done || (mach; lia)). cbn. by rewrite <-Ec.
Qed.

Lemma print_string2ll s z : string2ll s = Some z -> is_i64 z /\ s = to_string z.
Proof.
  unfold string2ll. destruct (_ || _); [done|]. case_bool_decide as H0.
  { intros [= <-]. by subst. }
  destruct s as [|a s]; [done|]. case_bool_decide as Ha.
  - destruct s as [|c p]; [done|]. destruct (is_digit 49 c) eqn:Ec; [|done].
    destruct (string2ll_digits _ _) as [[v [|]]|] eqn:E; [|done..].
    apply string2ll_magnitude in E as [Hv E]; [|done].
    change (u64 (- (INT64_MIN + 1)) + 1) with (2 ^ 63).
    destruct (Z.ltb_spec (2 ^ 63) v); [done|].
    rewrite i64_u64, i64_id by (mach; lia). intros [= <-]. split; [mach; lia|].
    unfold to_string. destruct (Z.ltb_spec (- v) 0); [|lia].
    rewrite Z.opp_involutive, E. by subst.
  - destruct (is_digit 49 a) eqn:Ec; [|done].
    destruct (string2ll_digits _ _) as [[v [|]]|] eqn:E; [|done..].
    apply string2ll_magnitude in E as [Hv E]; [|done].
    destruct (Z.ltb_spec INT64_MAX v); [done|].
    rewrite i64_id by (mach; lia). intros [= <-]. split; [mach; lia|].
    unfold to_string. destruct (Z.ltb_spec v 0); [lia|]. done.
Qed.

Lemma string2ll_iff s z : string2ll s = Some z <-> is_i64 z /\ s = to_string z.
Proof. split; [apply print_string2ll|]. intros [H ->]. by apply string2ll_print. Qed.

Lemma to_string_nonempty z : is_i64 z -> to_string z <> [].
Proof. intros H E. pose proof (string2ll_print z H) as P. by rewrite E in P. Qed.

Lemma to_string_short z : is_i64 z -> zlen (to_string z) <= 20.
Proof.
  intros H. pose proof (string2ll_print z H) as P. unfold string2ll, LONG_STR_SIZE in P.
  destruct (_ || _) eqn:E; [done|lia].
Qed.

(** ** Overflow tests *)

Lemma quot_pos a b : 0 <= a -> 0 < b -> Z.quot a b = a / b.
Proof. intros. apply Z.quot_div_nonneg; lia. Qed.

Lemma mul_gt_iff m a b : 0 < b -> m / b < a <-> m < a * b.
Proof.
  intros Hb. pose proof (Z.div_mod m b ltac:(lia)). pose proof (Z.mod_pos_bound m b Hb). nia.
Qed.

Lemma will_addition_overflow_iff a b :
  is_i64 a -> is_i64 b -> will_addition_overflow a b = true <-> ~ is_i64 (a + b).
Proof. unfold will_addition_overflow. mach. intros. repeat case_match; lia. Qed.

Lemma will_multiplication_overflow_iff a b :
  is_i64 a -> is_i64 b -> will_multiplication_overflow a b = true <-> ~ is_i64 (a * b).
Proof.
  intros Ha Hb. unfold will_multiplication_overflow.
  destruct (Z.eqb_spec a 0) as [->|Ha0]; [cbn; mach; lia|].
  destruct (Z.eqb_spec b 0) as [->|Hb0]; [rewrite Z.mul_0_r; cbn; mach; lia|]. cbn [orb].
  destruct (Z.ltb_spec 0 a), (Z.ltb_spec 0 b); cbn [andb].
  - rewrite Z.ltb_lt, quot_pos by (mach; lia). rewrite mul_gt_iff by lia. mach. nia.
  - destruct (Z.ltb_spec b 0); [|lia]. rewrite Z.ltb_lt.
    change INT64_MIN with (- 2 ^ 63). rewrite Z.quot_opp_l, quot_pos by lia.
    assert (b < - (2 ^ 63 / a) <-> 2 ^ 63 / a < - b) as -> by lia.
    rewrite mul_gt_iff by lia. mach. nia.
  - destruct (Z.ltb_spec a 0); [|lia]. cbn [andb]. rewrite Z.ltb_lt.
    change INT64_MIN with (- 2 ^ 63). rewrite Z.quot_opp_l, quot_pos by lia.
    assert (a < - (2 ^ 63 / b) <-> 2 ^ 63 / b < - a) as -> by lia.
    rewrite mul_gt_iff by lia. mach. nia.
  - destruct (Z.ltb_spec a 0), (Z.ltb_spec b 0); [|lia..]. cbn [andb]. rewrite Z.ltb_lt.
    rewrite <-(Z.opp_involutive b) at 1. rewrite Z.quot_opp_r, quot_pos by (mach; lia).
    assert (a < - (INT64_MAX / - b) <-> INT64_MAX / - b < - a) as -> by lia.
    rewrite mul_gt_iff by lia. mach. nia.
Qed.

Lemma will_multiplication_overflow_u64_iff a b :
  is_u64 a -> is_u64 b -> will_multiplication_overflow_u64 a b = true <-> ~ is_u64 (a * b).
Proof.
  intros Ha Hb. unfold will_multiplication_overflow_u64.
  destruct (Z.eqb_spec a 0) as [->|Ha0]; [cbn; mach; lia|].
  destruct (Z.eqb_spec b 0) as [->|Hb0]; [rewrite Z.mul_0_r; cbn; mach; lia|]. cbn [orb].
  rewrite Z.ltb_lt, mul_gt_iff by (mach; lia). mach. nia.
Qed.

Lemma will_addition_overflow_u64_iff a b :
  is_u64 a -> is_u64 b -> will_addition_overflow_u64 a b = true <-> ~ is_u64 (a + b).
Proof. unfold will_addition_overflow_u64. mach. intros. case_match; lia. Qed.

(** ** Counters *)

(** The integer a string stands for as a counter. *)
Definition counter (c : bytes) : option Z := if zlen c =? 0 then Some 0 else string2ll c.

Lemma counter_range c old : counter c = Some old -> is_i64 old.
Proof.
  unfold counter. destruct (_ =? 0).
  - intros [= <-]. mach. lia.
  - intros H. by apply string2ll_iff in H as [? _].
Qed.

(** The sums INCR refuses: those that leave the open interval. *)
Definition incr_refused (old incr : Z) : Prop :=
  (incr < 0 /\ old <= 0 /\ old + incr <= INT64_MIN)
  \/ (0 < incr /\ 0 <= old /\ INT64_MAX <= old + incr).

#[global] Instance incr_refused_dec old incr : Decision (incr_refused old incr).
Proof. unfold incr_refused. apply _. Defined.

Lemma incr_accepted_range old incr :
  is_i64 old -> is_i64 incr -> ~ incr_refused old incr -> is_i64 (old + incr).
Proof. unfold incr_refused. mach. lia. Qed.

(** ** What [std::to_string] prints is read by [std::stoull] *)

Lemma stoull_digits_app v p q :
  forallb (is_digit 48) p = true -> stoull_digits v (p ++ q) = stoull_digits (stoull_digits v p) q.
Proof.
  revert v. induction p as [|c p IH]; intros v; cbn; [done|].
  rewrite andb_true_iff. intros [-> H]. by apply IH.
Qed.

Lemma dec_digits_value f n :
  0 <= n < 10 ^ Z.of_nat f -> (0 < f)%nat ->
  forallb (is_digit 48) (dec_digits f n) = true /\ stoull_digits 0 (dec_digits f n) = n
  /\ dec_digits f n <> [].
Proof.
  revert n. induction f as [|f IH]; intros n Hn Hf; [lia|]. cbn [dec_digits].
  destruct (Z.ltb_spec n 10) as [Hs|Hs].
  { cbn. rewrite is_digit_byte, c2z_digit_byte by lia. split_and!; [done|lia|done]. }
  rewrite Nat2Z.inj_succ, Z.pow_succ_r in Hn by lia.
  pose proof (Z.mod_pos_bound n 10 ltac:(lia)). pose proof (Z.div_mod n 10 ltac:(lia)).
  destruct (IH (n / 10)) as (H1 & H2 & H3).
  { split; [apply Z.div_pos; lia|]. apply Z.div_lt_upper_bound; lia. }
  { destruct f; [change (10 ^ Z.of_nat 0) with 1 in Hn; lia|lia]. }
  split_and!.
  - rewrite forallb_app, H1. cbn. by rewrite is_digit_byte by lia.
  - rewrite stoull_digits_app, H2 by done. cbn. rewrite is_digit_byte, c2z_digit_byte by lia. lia.
  - by destruct (dec_digits f (n / 10)).
Qed.

Lemma stoull_to_string n : is_u64 n -> stoull (to_string n) = Some n.
Proof.
  intros H. mach. unfold to_string. rewrite (proj2 (Z.ltb_ge n 0)) by lia.
  destruct (dec_digits_value 20 n) as (Hd & Hv & Hne); [change (Z.of_nat 20) with 20; lia|lia|].
  unfold stoull. destruct (dec_digits 20 n) as [|c p] eqn:E; [done|].
  cbn [forallb] in Hd. apply andb_true_iff in Hd as [Hc _].
  pose proof (is_digit_true 48 c ltac:(lia) Hc) as [Hr _].
  assert (skip_spaces (c :: p) = c :: p) as ->.
  { cbn. unfold is_space. rewrite (proj2 (Z.leb_gt (c2z c) 13)), (proj2 (Z.eqb_neq (c2z c) 32)) by lia.
    by rewrite andb_false_r. }
  rewrite (proj2 (Z.eqb_neq (c2z c) 45)), (proj2 (Z.eqb_neq (c2z c) 43)) by lia.
  rewrite Hc, Hv. mach. by rewrite (proj2 (Z.ltb_ge _ _)) by lia.
Qed.

Lemma to_string_digits n : is_u64 n -> forallb (is_digit 48) (to_string n) = true.
Proof.
  intros H. mach. unfold to_string. rewrite (proj2 (Z.ltb_ge n 0)) by lia.
  apply dec_digits_value; [change (Z.of_nat 20) with 20; lia|lia].
Qed.

Lemma to_string_inj a b : is_u64 a -> is_u64 b -> to_string a = to_string b -> a = b.
Proof. intros Ha Hb E. apply Some_inj. by rewrite <-(stoull_to_string a), <-(stoull_to_string b), E. Qed.

(** ** Properties *)

(** [string2ll] accepts exactly the canonical decimal spellings of the
    64-bit integers, and returns the integer spelled. *)
Theorem string2ll_exact s z : string2ll s = Some z <-> is_i64 z /\ s = to_string z.
Proof. apply string2ll_iff. Qed.

(** the overflow tests are true exactly when the sum or the product does
    not fit, for signed and unsigned operands. *)
Theorem overflow_tests_exact a b :
  (is_i64 a -> is_i64 b ->
     (will_addition_overflow a b = true <-> ~ is_i64 (a + b))
     /\ (will_multiplication_overflow a b = true <-> ~ is_i64 (a * b)))
  /\ (is_u64 a -> is_u64 b ->
     (will_addition_overflow_u64 a b = true <-> ~ is_u64 (a + b))
     /\ (will_multiplication_overflow_u64 a b = true <-> ~ is_u64 (a * b))).
Proof.
  split; intros Ha Hb; split.
  - by apply will_addition_overflow_iff.
  - by apply will_multiplication_overflow_iff.
  - by apply will_addition_overflow_u64_iff.
  - by apply will_multiplication_overflow_u64_iff.
Qed.

Lemma overflow_tests_exact_witness :
  (will_addition_overflow INT64_MIN (-1) = true <-> ~ is_i64 (INT64_MIN + -1))
  /\ (will_multiplication_overflow INT64_MIN (-1) = true <-> ~ is_i64 (INT64_MIN * -1)).
Proof. apply (proj1 (overflow_tests_exact INT64_MIN (-1))); concrete. Defined.
