(* ===== verification/StringMatch.v ===== *)
(** * Glob patterns and keyword comparison

    [stringmatchlen] matches a Redis glob pattern by backtracking, with an
    early exit when the rest of the pattern matches nowhere; [stringcomp]
    compares keywords (src/redis_string_match.cpp).  The pattern is a pointer
    and a length: the model keeps the bytes that follow the pattern in memory,
    because the code looks at the first of them. *)

From S2P Require Import Prelude.

(** [char] literals. *)
Definition ch_star : byte := z2b 42.
Definition ch_any : byte := z2b 63.
Definition ch_open : byte := z2b 91.
Definition ch_close : byte := z2b 93.
Definition ch_caret : byte := z2b 94.
Definition ch_escape : byte := z2b 92.
Definition ch_dash : byte := z2b 45.

(** [tolower] in the C locale. *)
Definition tolower (c : Z) : Z := if (65 <=? c) && (c <=? 90) then c + 32 else c.

Section Match.

Variable nocase : bool.

Definition char_eq (a b : byte) : bool :=
  if nocase then tolower (c2z a) =? tolower (c2z b) else bool_decide (a = b).

(** The test of [a-b] against [sc]. *)
Definition in_range (a b sc : byte) : bool :=
  let start := c2z a in
  let end_ := c2z b in
  let c := c2z sc in
  let '(start, end_) := if end_ <? start then (end_, start) else (start, end_) in
  let '(start, end_, c) :=
    if nocase then (tolower start, tolower end_, tolower c) else (start, end_, c) in
  (start <=? c) && (c <=? end_).

(** The loop over a bracket class.  [pm] is the memory at [pattern].  It
    returns [match] and the pattern after the closing bracket; when the pattern
    ends first, [pattern--] and the [pattern++] after the switch cancel out. *)
Fixpoint class_loop (pm : bytes) (patternLen : Z) (sc : byte) (mt : bool)
    : option (bool * (bytes * Z)) :=
  match pm with
  | [] => None
  | a :: pm1 =>
      if bool_decide (a = ch_escape) && (2 <=? patternLen) then
        match pm1 with
        | b :: pm2 => class_loop pm2 (patternLen - 2) sc (mt || bool_decide (b = sc))
        | [] => None
        end
      else if bool_decide (a = ch_close) then Some (mt, (pm1, patternLen - 1))
      else if patternLen =? 0 then Some (mt, (pm, patternLen))
      else
        match pm1 with
        | b :: c :: pm3 =>
            if (3 <=? patternLen) && bool_decide (b = ch_dash)
            then class_loop pm3 (patternLen - 3) sc (mt || in_range a c sc)
            else class_loop pm1 (patternLen - 1) sc (mt || char_eq a sc)
        | _ => class_loop pm1 (patternLen - 1) sc (mt || char_eq a sc)
        end
  end.

(** [while (patternLen && pattern[1] == '*')]. *)
Fixpoint skip_stars (pm : bytes) (patternLen : Z) : option (bytes * Z) :=
  if patternLen =? 0 then Some (pm, patternLen)
  else
    match pm with
    | a :: pm1 =>
        match pm1 with
        | b :: _ =>
            if bool_decide (b = ch_star) then skip_stars pm1 (patternLen - 1)
            else Some (pm, patternLen)
        | [] => None
        end
    | [] => None
    end.

(** [while ( *pattern == '*')], without a length test. *)
Fixpoint trailing_stars (pm : bytes) (patternLen : Z) : option Z :=
  match pm with
  | a :: pm1 =>
      if bool_decide (a = ch_star) then trailing_stars pm1 (patternLen - 1) else Some patternLen
  | [] => None
  end.

Definition all_star (pm : bytes) (patternLen : Z) : bool :=
  forallb (fun c => bool_decide (c = ch_star)) (take (Z.to_nat patternLen) pm).

(** What one iteration of the main loop does with a pattern element other than
    a star: [Some None] is [return 0]. *)
Definition match_one (pm : bytes) (patternLen : Z) (sc : byte) : option (option (bytes * Z)) :=
  match pm with
  | [] => None
  | a :: pm1 =>
      if bool_decide (a = ch_any) then Some (Some (pm1, patternLen - 1))
      else if bool_decide (a = ch_open) then
        match pm1 with
        | [] => None
        | n :: pm2 =>
            let not_ := bool_decide (n = ch_caret) in
            match (if not_ then class_loop pm2 (patternLen - 2) sc false
                   else class_loop pm1 (patternLen - 1) sc false) with
            | None => None
            | Some (mt, next) => Some (if xorb not_ mt then Some next else None)
            end
        end
      else if bool_decide (a = ch_escape) && (2 <=? patternLen) then
        match pm1 with
        | [] => None
        | b :: pm2 => Some (if char_eq b sc then Some (pm2, patternLen - 2) else None)
        end
      else Some (if char_eq a sc then Some (pm1, patternLen - 1) else None)
  end.

(** [stringmatchlen_impl], its main loop and the loop of the star case.  The
    result is the return value and [*skipLongerMatches]; the string is a list
    because [stringLen] bounds every access to it. *)
Fixpoint stringmatchlen_impl (fuel : nat) (pm : bytes) (patternLen : Z) (str : bytes)
    (skip : bool) : option (bool * bool) :=
  match fuel with
  | O => None
  | S fuel' =>
      if all_star pm patternLen then Some (true, skip)
      else main_loop fuel' pm patternLen str skip
  end
with main_loop (fuel : nat) (pm : bytes) (patternLen : Z) (str : bytes)
    (skip : bool) : option (bool * bool) :=
  match fuel with
  | O => None
  | S fuel' =>
      match str with
      | [] => Some (patternLen =? 0, skip)
      | sc :: str' =>
          if patternLen =? 0 then Some (false, skip)
          else
            match pm with
            | [] => None
            | a :: _ =>
                if bool_decide (a = ch_star) then
                  match skip_stars pm patternLen with
                  | None => None
                  | Some (pm, patternLen) =>
                      if patternLen =? 1 then Some (true, skip)
                      else star_loop fuel' (drop 1 pm) (patternLen - 1) str skip
                  end
                else
                  match match_one pm patternLen sc with
                  | None => None
                  | Some None => Some (false, skip)
                  | Some (Some (pm, patternLen)) =>
                      match str' with
                      | [] =>
                          match trailing_stars pm patternLen with
                          | Some patternLen => Some (patternLen =? 0, skip)
                          | None => None
                          end
                      | _ => main_loop fuel' pm patternLen str' skip
                      end
                  end
            end
      end
  end
with star_loop (fuel : nat) (pm : bytes) (patternLen : Z) (str : bytes)
    (skip : bool) : option (bool * bool) :=
  match fuel with
  | O => None
  | S fuel' =>
      match str with
      | [] => Some (false, true)
      | _ :: str' =>
          match stringmatchlen_impl fuel' pm patternLen str skip with
          | None => None
          | Some (true, skip) => Some (true, skip)
          | Some (false, skip) =>
              if skip then Some (false, skip) else star_loop fuel' pm patternLen str' skip
          end
      end
  end.

End Match.

(** Every loop consumes a pattern or a string byte between two unfoldings. *)
Definition match_fuel (pat str : bytes) : nat := (3 * length pat + length str + 2)%nat.

(** [stringmatchlen(pattern, patternLen, string, stringLen, nocase)], with
    [after] the memory behind the pattern. *)
Definition stringmatchlen (pat after str : bytes) (nocase : bool) : option bool :=
  match stringmatchlen_impl nocase (match_fuel pat str) (pat ++ after) (zlen pat) str false with
  | Some (b, _) => Some b
  | None => None
  end.

(** [stringcomp]. *)
Fixpoint stringcomp_loop (nocase : bool) (pattern string : bytes) : bool :=
  match pattern, string with
  | p :: pattern', s :: string' =>
      if nocase then
        if tolower (c2z p) =? tolower (c2z s) then stringcomp_loop nocase pattern' string' else false
      else if bool_decide (p = s) then stringcomp_loop nocase pattern' string' else false
  | _, _ => true
  end.

Definition stringcomp (string pattern : bytes) (nocase : bool) : bool :=
  if negb (zlen pattern =? zlen string) then false
  else stringcomp_loop nocase pattern string.

(** ** Reference semantics *)

Inductive ClassItem :=
| CEscaped (c : byte)
| CChar (c : byte)
| CRange (a b : byte).

Inductive Tok :=
| TStar
| TAny
| TClass (neg : bool) (items : list ClassItem)
| TChar (c : byte).

(** The items of a class, and the pattern after it; a class that is not closed
    ends with the pattern. *)
Fixpoint class_items (l : bytes) : list ClassItem * bytes :=
  match l with
  | [] => ([], [])
  | a :: l1 =>
      match decide (a = ch_escape), l1 with
      | left _, b :: l2 => let '(its, r) := class_items l2 in (CEscaped b :: its, r)
      | _, _ =>
          if decide (a = ch_close) then ([], l1)
          else
            match l1 with
            | b :: c :: l3 =>
                if decide (b = ch_dash)
                then let '(its, r) := class_items l3 in (CRange a c :: its, r)
                else let '(its, r) := class_items l1 in (CChar a :: its, r)
            | _ => let '(its, r) := class_items l1 in (CChar a :: its, r)
            end
      end
  end.

(** The first token of a non-empty pattern, and the rest. *)
Definition next_tok (a : byte) (l : bytes) : Tok * bytes :=
  if decide (a = ch_star) then (TStar, l)
  else if decide (a = ch_any) then (TAny, l)
  else if decide (a = ch_open) then
    match l with
    | n :: l' =>
        if decide (n = ch_caret)
        then let '(its, r) := class_items l' in (TClass true its, r)
        else let '(its, r) := class_items l in (TClass false its, r)
    | [] => (TClass false [], [])
    end
  else match decide (a = ch_escape), l with
       | left _, b :: l' => (TChar b, l')
       | _, _ => (TChar a, l)
       end.

Fixpoint tokens (fuel : nat) (l : bytes) : list Tok :=
  match fuel, l with
  | S fuel', a :: l' => let '(t, r) := next_tok a l' in t :: tokens fuel' r
  | _, _ => []
  end.

Definition tokenize (l : bytes) : list Tok := tokens (length l) l.

Definition item_match (nocase : bool) (sc : byte) (i : ClassItem) : bool :=
  match i with
  | CEscaped c => bool_decide (c = sc)
  | CChar c => char_eq nocase c sc
  | CRange a b => in_range nocase a b sc
  end.

Definition tok_match (nocase : bool) (sc : byte) (t : Tok) : bool :=
  match t with
  | TStar => false
  | TAny => true
  | TClass neg its => xorb neg (existsb (item_match nocase sc) its)
  | TChar c => char_eq nocase c sc
  end.

(** The non-empty and empty suffixes of a string. *)
Fixpoint suffixes (s : bytes) : list bytes :=
  s :: match s with [] => [] | _ :: s' => suffixes s' end.

(** A star stands for any string, every other token for one character. *)
Fixpoint glob (nocase : bool) (ts : list Tok) (s : bytes) : bool :=
  match ts with
  | [] => bool_decide (s = [])
  | TStar :: ts' => existsb (glob nocase ts') (suffixes s)
  | t :: ts' =>
      match s with
      | sc :: s' => tok_match nocase sc t && glob nocase ts' s'
      | [] => false
      end
  end.

(** ** Tokens *)

(** Induction on the length of a list. *)
Lemma list_len_ind {A} (P : list A -> Prop) :
  (forall l, (forall k, (length k < length l)%nat -> P k) -> P l) -> forall l, P l.
Proof.
  intros H l. assert (forall n k, (length k <= n)%nat -> P k) as G.
  { induction n as [|n IH]; intros k Hk; apply H; intros k' Hk'; [lia|]. apply IH. lia. }
  by apply (G (length l)).
Qed.

Lemma class_items_length l : (length (class_items l).2 <= length l)%nat.
Proof.
  induction l as [l IH] using list_len_ind. destruct l as [|a l1]; [done|]. cbn [class_items].
  assert (forall k i, (length k < length (a :: l1))%nat ->
            (length (let '(its, r) := class_items k in (i :: its, r)).2 <= length (a :: l1))%nat) as G.
  { intros k i Hk. specialize (IH k Hk). destruct (class_items k). cbn [snd] in *. lia. }
  destruct l1 as [|b [|c l3]];
    repeat match goal with |- context [decide ?P] => destruct (decide P) end;
    try (apply G; cbn [length]; lia); cbn [snd length]; lia.
Qed.

Lemma next_tok_length a l : (length (next_tok a l).2 <= length l)%nat.
Proof.
  unfold next_tok. destruct l as [|n l].
  - repeat case_decide; cbn; lia.
  - pose proof (class_items_length l). pose proof (class_items_length (n :: l)).
    destruct (class_items l), (class_items (n :: l)).
    repeat match goal with |- context [decide ?P] => destruct (decide P) end;
      cbn [snd length] in *; lia.
Qed.

Lemma tokens_fuel f g l : (length l <= f)%nat -> (length l <= g)%nat -> tokens f l = tokens g l.
Proof.
  revert g l. induction f as [|f IH]; intros g [|a l] Hf Hg; cbn [length] in *; try lia.
  - by destruct g.
  - by destruct g.
  - destruct g as [|g]; [lia|]. cbn [tokens]. pose proof (next_tok_length a l).
    destruct (next_tok a l) as [t r]. cbn [snd] in *. f_equal. apply IH; lia.
Qed.

Lemma tokenize_cons a l :
  tokenize (a :: l) = (next_tok a l).1 :: tokenize (next_tok a l).2.
Proof.
  unfold tokenize. cbn [length tokens]. pose proof (next_tok_length a l).
  destruct (next_tok a l) as [t r]. cbn [fst snd] in *. f_equal. apply tokens_fuel; lia.
Qed.

Lemma next_tok_star l : next_tok ch_star l = (TStar, l).
Proof. done. Qed.

Lemma next_tok_not_star a l : a <> ch_star -> (next_tok a l).1 <> TStar.
Proof.
  intros H. unfold next_tok. destruct l as [|n l].
  - repeat case_decide; done.
  - destruct (class_items l), (class_items (n :: l)).
    by repeat match goal with |- context [decide ?P] => destruct (decide P) end.
Qed.

(** ** Reference facts *)

Definition is_star (t : Tok) : bool := match t with TStar => true | _ => false end.

Lemma glob_nil_str nc ts : glob nc ts [] = forallb is_star ts.
Proof.
  induction ts as [|t ts IH]; [done|]. destruct t; try done.
  cbn. by rewrite IH, orb_false_r.
Qed.

Lemma suffixes_nil_in s : [] ∈ suffixes s.
Proof. induction s as [|c s IH]; [by left|by right]. Qed.

Lemma suffixes_trans s t u : t ∈ suffixes s -> u ∈ suffixes t -> u ∈ suffixes s.
Proof.
  induction s as [|c s IH]; cbn [suffixes]; intros Ht Hu.
  - apply list_elem_of_singleton in Ht as ->. done.
  - apply elem_of_cons in Ht as [-> | Ht]; [done|]. right. by apply IH.
Qed.

Lemma existsb_suffixes nc ts s :
  existsb (glob nc ts) (suffixes s) = true <-> exists u, u ∈ suffixes s /\ glob nc ts u = true.
Proof.
  rewrite existsb_exists. split; intros (u & Hu & H); exists u; split; try done;
    by apply list_elem_of_In.
Qed.

Lemma glob_all_star nc ts s : ts <> [] -> forallb is_star ts = true -> glob nc ts s = true.
Proof.
  destruct ts as [|t ts]; [done|]. destruct t; try done. cbn. intros _ H.
  apply existsb_suffixes. exists []. split; [apply suffixes_nil_in|]. by rewrite glob_nil_str.
Qed.

(** No suffix matches. *)
Definition nowhere (nc : bool) (ts : list Tok) (s : bytes) : Prop :=
  forall u, u ∈ suffixes s -> glob nc ts u = false.

Lemma nowhere_star nc ts s : nowhere nc ts s <-> glob nc (TStar :: ts) s = false.
Proof.
  cbn [glob]. rewrite <-not_true_iff_false, existsb_suffixes. split.
  - intros H (u & Hu & E). by rewrite H in E.
  - intros H u Hu. apply not_true_iff_false. intros E. apply H. by exists u.
Qed.

(** If the rest matches nowhere in the rest of the string, a pattern with one
    more token matches nowhere in the string. *)
Lemma nowhere_cons nc t ts c s :
  t <> TStar -> nowhere nc ts s -> nowhere nc (t :: ts) (c :: s).
Proof.
  intros Ht H.
  assert (forall u, u ∈ suffixes s -> glob nc (t :: ts) u = false) as G.
  { intros u Hu. destruct u as [|d u]; [by destruct t|].
    replace (glob nc (t :: ts) (d :: u)) with (tok_match nc d t && glob nc ts u) by (by destruct t).
    rewrite H; [by rewrite andb_false_r|]. apply (suffixes_trans _ _ _ Hu).
    cbn. right. destruct u; by left. }
  intros u Hu. cbn [suffixes] in Hu. apply elem_of_cons in Hu as [-> | Hu]; [|by apply G].
  replace (glob nc (t :: ts) (c :: s)) with (tok_match nc c t && glob nc ts s) by (by destruct t).
  rewrite H; [by rewrite andb_false_r|]. destruct s; by left.
Qed.

Lemma nowhere_star_star nc ts s : nowhere nc (TStar :: ts) s <-> nowhere nc ts s.
Proof.
  split.
  - intros H. apply nowhere_star. apply H. destruct s; by left.
  - intros H u Hu. apply nowhere_star. intros v Hv. apply H. by eapply suffixes_trans.
Qed.

Lemma glob_star_star nc ts s : glob nc (TStar :: TStar :: ts) s = glob nc (TStar :: ts) s.
Proof.
  apply eq_true_iff_eq. rewrite <-!not_false_iff_true, <-!nowhere_star.
  by rewrite nowhere_star_star.
Qed.

(** ** The routine computes the reference semantics *)

Section Correct.

Context (nc : bool) (x : byte) (more : bytes).
Context (Hstar : x <> ch_star) (Hclose : x <> ch_close) (Hcaret : x <> ch_caret).

Let after : bytes := x :: more.

Lemma class_loop_of l sc mt :
  class_loop nc (l ++ after) (zlen l) sc mt
  = Some (mt || existsb (item_match nc sc) (class_items l).1,
          ((class_items l).2 ++ after, zlen (class_items l).2)).
Proof.
  revert mt. induction l as [l IH] using list_len_ind. intros mt.
  destruct l as [|a l1].
  { unfold after. cbn [app class_loop]. change (2 <=? zlen (@nil byte)) with false.
    rewrite andb_false_r, (bool_decide_eq_false_2 (x = ch_close)) by done.
    cbn. by rewrite orb_false_r. }
  pose proof (zlen_nonneg l1).
  assert (forall k i b, (length k < length (a :: l1))%nat -> item_match nc sc i = b ->
     class_loop nc (k ++ after) (zlen k) sc (mt || b)
     = Some (mt || existsb (item_match nc sc) (let '(its, r) := class_items k in (i :: its, r)).1,
             ((let '(its, r) := class_items k in (i :: its, r)).2 ++ after,
              zlen (let '(its, r) := class_items k in (i :: its, r)).2))) as G.
  { intros k i b Hk <-. rewrite IH by done. destruct (class_items k). cbn.
    by rewrite orb_assoc. }
  cbn [app class_loop class_items]. rewrite zlen_cons.
  destruct (decide (a = ch_escape)) as [Ea|Ea].
  - rewrite bool_decide_eq_true_2 by done. destruct l1 as [|b l2].
    + destruct (Z.leb_spec 2 (1 + zlen (@nil byte))) as [Hl|_]; [zlen; lia|]. cbn [andb].
      rewrite decide_False by (by subst). rewrite bool_decide_eq_false_2 by (by subst).
      destruct (Z.eqb_spec (1 + zlen (@nil byte)) 0) as [Hl|_]; [zlen; lia|].
      cbn [app]. change (x :: more) with ([] ++ after).
      replace (1 + zlen (@nil byte) - 1) with (zlen (@nil byte)) by lia.
      rewrite <-(G [] (CChar a) (char_eq nc a sc)) by (done || (cbn; lia)).
      unfold after. destruct more as [|y more']; [done|].
      by destruct (Z.leb_spec 3 (1 + zlen (@nil byte))) as [Hl|_]; [zlen; lia|].
    + rewrite zlen_cons in *. pose proof (zlen_nonneg l2).
      destruct (Z.leb_spec 2 (1 + (1 + zlen l2))); [|lia]. cbn [andb app].
      replace (1 + (1 + zlen l2) - 2) with (zlen l2) by lia.
      apply (G l2 (CEscaped b)); [cbn; lia|done].
  - rewrite bool_decide_eq_false_2 by done. cbn [andb].
    destruct (decide (a = ch_close)) as [Ec|Ec].
    { rewrite bool_decide_eq_true_2 by done. cbn. rewrite orb_false_r. do 4 f_equal. lia. }
    rewrite bool_decide_eq_false_2 by done.
    destruct (Z.eqb_spec (1 + zlen l1) 0) as [Hl|_]; [lia|].
    replace (1 + zlen l1 - 1) with (zlen l1) by lia.
    destruct l1 as [|b [|c l3]].
    + rewrite <-(G [] (CChar a) (char_eq nc a sc)) by (done || (cbn; lia)). cbn [app]. unfold after.
      destruct more as [|y more']; [done|].
      by destruct (Z.leb_spec 3 (1 + zlen (@nil byte))) as [Hl|_]; [zlen; lia|].
    + rewrite <-(G [b] (CChar a) (char_eq nc a sc)) by (done || (cbn; lia)). cbn [app]. unfold after.
      by destruct (Z.leb_spec 3 (1 + zlen [b])) as [Hl|_]; [zlen; lia|].
    + cbn [app]. pose proof (zlen_nonneg l3).
      destruct (Z.leb_spec 3 (1 + zlen (b :: c :: l3))) as [_|Hl]; [|zlen; lia]. cbn [andb].
      destruct (decide (b = ch_dash)) as [Eb|Eb].
      * rewrite bool_decide_eq_true_2 by done.
        replace (1 + zlen (b :: c :: l3) - 3) with (zlen l3) by (zlen; lia).
        apply (G l3 (CRange a c)); [cbn; lia|done].
      * rewrite bool_decide_eq_false_2 by done.
        apply (G (b :: c :: l3) (CChar a)); [cbn; lia|done].
Qed.

Lemma match_one_of a l sc :
  a <> ch_star ->
  match_one nc (a :: l ++ after) (zlen (a :: l)) sc
  = Some (if tok_match nc sc (next_tok a l).1
          then Some ((next_tok a l).2 ++ after, zlen (next_tok a l).2) else None).
Proof.
  intros Ha. unfold match_one, next_tok. rewrite (decide_False (P := a = ch_star)) by done.
  pose proof (zlen_nonneg l). rewrite zlen_cons.
  destruct (decide (a = ch_any)) as [E|E].
  { rewrite bool_decide_eq_true_2 by done. cbn. do 4 f_equal. lia. }
  rewrite bool_decide_eq_false_2 by done. clear E.
  destruct (decide (a = ch_open)) as [E|E].
  - rewrite bool_decide_eq_true_2 by done. clear E. destruct l as [|n l].
    + cbn [app]. unfold after. rewrite bool_decide_eq_false_2 by done.
      replace (1 + zlen (@nil byte) - 1) with (zlen (@nil byte)) by lia.
      by rewrite (class_loop_of []).
    + cbn [app]. destruct (decide (n = ch_caret)) as [En|En].
      * rewrite bool_decide_eq_true_2 by done.
        replace (1 + zlen (n :: l) - 2) with (zlen l) by (zlen; lia).
        rewrite class_loop_of. destruct (class_items l). done.
      * rewrite bool_decide_eq_false_2 by done.
        replace (1 + zlen (n :: l) - 1) with (zlen (n :: l)) by lia.
        change (n :: l ++ after) with ((n :: l) ++ after).
        rewrite class_loop_of. destruct (class_items (n :: l)). done.
  - rewrite bool_decide_eq_false_2 by done. clear E.
    destruct (decide (a = ch_escape)) as [E|E].
    + rewrite bool_decide_eq_true_2 by done. destruct l as [|b l].
      * cbn. by destruct (char_eq nc a sc).
      * rewrite zlen_cons in *. pose proof (zlen_nonneg l).
        destruct (Z.leb_spec 2 (1 + (1 + zlen l))); [|lia]. cbn.
        by replace (1 + (1 + zlen l) - 2) with (zlen l) by lia.
    + rewrite bool_decide_eq_false_2 by done. cbn [andb fst snd tok_match].
      by replace (1 + zlen l - 1) with (zlen l) by lia.
Qed.

(** The pattern without its leading stars. *)
Fixpoint drop_stars (l : bytes) : bytes :=
  match l with
  | a :: l' => if decide (a = ch_star) then drop_stars l' else l
  | [] => []
  end.

Lemma drop_stars_length l : (length (drop_stars l) <= length l)%nat.
Proof. induction l as [|a l IH]; cbn; [lia|]. case_decide; cbn; lia. Qed.

Lemma drop_stars_head l : match drop_stars l with a :: _ => a <> ch_star | [] => True end.
Proof. induction l as [|a l IH]; cbn; [done|]. by case_decide. Qed.

Lemma skip_stars_of l :
  skip_stars (ch_star :: l ++ after) (zlen (ch_star :: l))
  = Some (ch_star :: drop_stars l ++ after, zlen (ch_star :: drop_stars l)).
Proof.
  induction l as [|a l IH].
  - unfold after. cbn. by rewrite bool_decide_eq_false_2 by done.
  - rewrite zlen_cons. pose proof (zlen_nonneg (a :: l)). cbn [app skip_stars drop_stars].
    destruct (Z.eqb_spec (1 + zlen (a :: l)) 0); [lia|].
    destruct (decide (a = ch_star)) as [->|Ha].
    + rewrite bool_decide_eq_true_2 by done.
      by replace (1 + zlen (ch_star :: l) - 1) with (zlen (ch_star :: l)) by lia.
    + rewrite bool_decide_eq_false_2 by done. by rewrite (zlen_cons ch_star).
Qed.

Lemma trailing_stars_of l :
  trailing_stars (l ++ after) (zlen l) = Some (zlen (drop_stars l)).
Proof.
  induction l as [|a l IH].
  - unfold after. cbn. by rewrite bool_decide_eq_false_2 by done.
  - cbn [app trailing_stars drop_stars]. case_decide as Ha.
    + rewrite bool_decide_eq_true_2, zlen_cons by done.
      by replace (1 + zlen l - 1) with (zlen l) by lia.
    + by rewrite bool_decide_eq_false_2 by done.
Qed.

Lemma glob_drop_stars l s :
  glob nc (TStar :: tokenize l) s = glob nc (TStar :: tokenize (drop_stars l)) s.
Proof.
  induction l as [|a l IH]; [done|]. cbn [drop_stars]. case_decide as Ha; [|done].
  subst. by rewrite <-IH, tokenize_cons, next_tok_star, glob_star_star.
Qed.

Lemma stars_only l : forallb is_star (tokenize l) = bool_decide (drop_stars l = []).
Proof.
  induction l as [|a l IH]; [done|]. rewrite tokenize_cons. cbn [drop_stars forallb].
  case_decide as Ha; [by subst|]. rewrite bool_decide_eq_false_2 by done.
  pose proof (next_tok_not_star a l Ha). by destruct (next_tok a l).1.
Qed.

Lemma all_star_of l : all_star (l ++ after) (zlen l) = bool_decide (drop_stars l = []).
Proof.
  unfold all_star, zlen. rewrite Nat2Z.id, take_app_length.
  induction l as [|a l IH]; [done|]. cbn [forallb drop_stars]. case_decide as Ha.
  - by rewrite bool_decide_eq_true_2.
  - rewrite (bool_decide_eq_false_2 (a = ch_star)) by done. by rewrite bool_decide_eq_false_2.
Qed.

(** What a call with [skip = false] returns: the reference verdict, and a set
    flag only when the tokens match at no later position either. *)
Definition verdict (ts : list Tok) (s : bytes) (res : option (bool * bool)) : Prop :=
  exists sk, res = Some (glob nc ts s, sk) /\ (sk = true -> nowhere nc ts s).

Definition impl_ok (fuel : nat) : Prop := forall l s,
  l <> [] -> (3 * length l + length s + 2 <= fuel)%nat ->
  verdict (tokenize l) s (stringmatchlen_impl nc fuel (l ++ after) (zlen l) s false).

Definition main_ok (fuel : nat) : Prop := forall l s,
  s <> [] \/ drop_stars l <> [] -> (3 * length l + length s + 1 <= fuel)%nat ->
  verdict (tokenize l) s (main_loop nc fuel (l ++ after) (zlen l) s false).

Definition star_ok (fuel : nat) : Prop := forall l s,
  l <> [] -> drop_stars l = l -> (3 * length l + length s + 3 <= fuel)%nat ->
  verdict (TStar :: tokenize l) s (star_loop nc fuel (l ++ after) (zlen l) s false).

Lemma impl_step fuel : main_ok fuel -> impl_ok (S fuel).
Proof.
  intros IHm l s Hl Hf.
  cbn [stringmatchlen_impl]. rewrite all_star_of. case_bool_decide as Ed.
  + exists false. split; [|done]. do 2 f_equal. symmetry. apply glob_all_star.
    * destruct l; [done|]. by rewrite tokenize_cons.
    * by rewrite stars_only, bool_decide_eq_true_2.
  + apply IHm; [by right|lia].
Qed.

Lemma main_step fuel : main_ok fuel -> star_ok fuel -> main_ok (S fuel).
Proof.
  intros IHm IHs l s Hl Hf.
  cbn [main_loop]. destruct s as [|sc s].
  { destruct Hl as [|Hl]; [done|]. exists false. split; [|done]. do 2 f_equal.
    rewrite glob_nil_str, stars_only, bool_decide_eq_false_2 by done.
    apply Z.eqb_neq. rewrite zlen_zero. by intros ->. }
  destruct l as [|a l].
  { exists false. done. }
  destruct (Z.eqb_spec (zlen (a :: l)) 0) as [E|_]; [by apply zlen_zero in E|]. cbn [app].
  cbn [length] in Hf. destruct (decide (a = ch_star)) as [->|Ha].
  + rewrite bool_decide_eq_true_2, skip_stars_of by done. cbn [drop].
    rewrite tokenize_cons, next_tok_star. cbn [fst snd].
    pose proof (drop_stars_length l). pose proof (drop_stars_head l) as Hh.
    destruct (drop_stars l) as [|b k] eqn:Ek.
    * exists false. split; [|done]. transitivity (Some (true, false)); [done|].
      do 2 f_equal. symmetry. rewrite glob_drop_stars, Ek. by apply glob_all_star.
    * destruct (Z.eqb_spec (zlen (ch_star :: b :: k)) 1) as [E|_]; [zlen; pose proof (zlen_nonneg k); lia|].
      replace (zlen (ch_star :: b :: k) - 1) with (zlen (b :: k)) by (zlen; lia).
      destruct (IHs (b :: k) (sc :: s)) as (sk & E & Hsk); [done| |cbn [length] in *; lia|].
      { cbn. by rewrite decide_False. }
      exists sk. rewrite drop_0, E, (glob_drop_stars l), Ek. split; [done|]. intros Ht u Hu.
      rewrite (glob_drop_stars l), Ek. by apply Hsk.
  + rewrite bool_decide_eq_false_2, match_one_of by done. rewrite tokenize_cons.
    pose proof (next_tok_not_star a l Ha) as Ht. pose proof (next_tok_length a l).
    destruct (next_tok a l) as [t r]. cbn [fst snd] in *.
    assert (glob nc (t :: tokenize r) (sc :: s) = tok_match nc sc t && glob nc (tokenize r) s) as Eg
      by (by destruct t).
    destruct (tok_match nc sc t); [|exists false; by rewrite Eg]. cbn [andb] in Eg.
    destruct s as [|sc' s].
    * rewrite trailing_stars_of. exists false. split; [|done]. rewrite Eg.
      rewrite glob_nil_str, stars_only. do 2 f_equal.
      case_bool_decide as Ed; [by rewrite Ed|]. apply Z.eqb_neq. by rewrite zlen_zero.
    * destruct (IHm r (sc' :: s)) as (sk & E & Hsk); [by left|cbn [length] in *; lia|].
      exists sk. rewrite E, Eg. split; [done|]. intros Hs. apply nowhere_cons; auto.
Qed.

Lemma star_step fuel : impl_ok fuel -> star_ok fuel -> star_ok (S fuel).
Proof.
  intros IHi IHs l s Hl Hd Hf.
  cbn [star_loop]. destruct s as [|sc s].
  { exists true. assert (glob nc (TStar :: tokenize l) [] = false) as E.
    { rewrite glob_nil_str. cbn. rewrite stars_only. by rewrite bool_decide_eq_false_2 by congruence. }
    rewrite E. split; [done|]. intros _. by apply nowhere_star_star, nowhere_star. }
  destruct (IHi l (sc :: s)) as (sk & -> & Hsk); [done|lia|].
  assert (glob nc (TStar :: tokenize l) (sc :: s)
          = glob nc (tokenize l) (sc :: s) || glob nc (TStar :: tokenize l) s) as Eg by done.
  destruct (glob nc (tokenize l) (sc :: s)) eqn:E1.
  { exists sk. rewrite Eg. split; [done|]. intros Hs. specialize (Hsk Hs (sc :: s)).
    rewrite E1 in Hsk. discriminate Hsk. by left. }
  cbn [orb] in Eg. destruct sk.
  { exists true. assert (glob nc (TStar :: tokenize l) (sc :: s) = false) as E
      by (by apply nowhere_star, Hsk). rewrite E. split; [done|]. intros _.
    by apply nowhere_star_star, Hsk. }
  destruct (IHs l s) as (sk & E & Hs); [done|done|cbn [length] in *; lia|].
  exists sk. rewrite E, Eg. split; [done|]. intros Ht. apply nowhere_star_star, nowhere_star.
  rewrite Eg. apply nowhere_star, nowhere_star_star, Hs, Ht.
Qed.

Lemma stringmatchlen_impl_of fuel : impl_ok fuel /\ main_ok fuel /\ star_ok fuel.
Proof.
  induction fuel as [|fuel (IHi & IHm & IHs)].
  - split_and!; intros l s; intros; lia.
  - auto using impl_step, main_step, star_step.
Qed.

Lemma stringmatchlen_glob pat s :
  pat <> [] -> stringmatchlen pat after s nc = Some (glob nc (tokenize pat) s).
Proof.
  intros Hp. unfold stringmatchlen.
  destruct (proj1 (stringmatchlen_impl_of (match_fuel pat s)) pat s Hp) as (sk & -> & _);
    [unfold match_fuel; lia|done].
Qed.

End Correct.

(** ** Properties *)

(** C7: the matcher, with its skipping of star runs, its backtracking loop, its
    [skip_longer_matches] cut-off and its in-place class scanner, terminates.  As
    long as the byte stored after the pattern is not a star, a closing bracket
    or a caret, which the scanners would run on into, a pattern that is not
    empty matches exactly the strings of the glob language of its tokens; the
    empty pattern matches every string, not only the empty one. *)
Theorem stringmatchlen_correct nocase x more pat s :
  x <> ch_star -> x <> ch_close -> x <> ch_caret ->
  stringmatchlen pat (x :: more) s nocase = Some (bool_decide (pat = []) || glob nocase (tokenize pat) s).
Proof. intros. destruct pat; [by destruct s|]. rewrite bool_decide_false by done. by apply stringmatchlen_glob. Qed.

(** The pattern [h*[^b-d]?] followed by a terminating zero, and "HeLLo". *)
Lemma stringmatchlen_correct_witness :
  stringmatchlen [Init.Byte.x68; ch_star; Init.Byte.x5b; ch_caret; Init.Byte.x62; Init.Byte.x2d; Init.Byte.x64; ch_close; Init.Byte.x3f]
    [Init.Byte.x00] [Init.Byte.x48; Init.Byte.x65; Init.Byte.x4c; Init.Byte.x4c; Init.Byte.x6f] true
  = Some (glob true (tokenize [Init.Byte.x68; ch_star; Init.Byte.x5b; ch_caret; Init.Byte.x62; Init.Byte.x2d; Init.Byte.x64; ch_close; Init.Byte.x3f])
            [Init.Byte.x48; Init.Byte.x65; Init.Byte.x4c; Init.Byte.x4c; Init.Byte.x6f])
  /\ stringmatchlen [Init.Byte.x68; ch_star; Init.Byte.x5b; ch_caret; Init.Byte.x62; Init.Byte.x2d; Init.Byte.x64; ch_close; Init.Byte.x3f]
    [Init.Byte.x00] [Init.Byte.x48; Init.Byte.x65; Init.Byte.x4c; Init.Byte.x4c; Init.Byte.x6f] true = Some true.
Proof. split; [apply stringmatchlen_correct; discriminate|reflexivity]. Defined.

(** an empty pattern matches every string, although only the empty string
    is in the language of the empty token list. *)
Theorem empty_pattern_matches_all nocase after c s :
  stringmatchlen [] after (c :: s) nocase = Some true /\ glob nocase (tokenize []) (c :: s) = false.
Proof. by destruct after. Qed.
