(* ===== verification/Encoding.v ===== *)
(** * Text encodings

    The base-255 spelling of namespace identifiers and epochs (src/b255.cpp),
    which never contains the delimiter, and the URL-safe base64 spelling of
    tokens (include/base64url.h). *)

From Stdlib Require Strings.String.
From S2P Require Import Prelude.

(** The bytes of a string literal of the source. *)
Definition lit (s : String.string) : bytes := String.list_byte_of_string s.

Definition B255_DELIMITER : byte := Init.Byte.x3a.

(** ** Base 255 *)

(** Digits skip the code of the delimiter. *)
Definition b255_char (digit : Z) : byte :=
  z2b (if digit <? b2z B255_DELIMITER then digit else digit + 1).

(** The loop that fills [buf] from its end; [pos] bytes of the buffer are still
    free, and [None] is a write before its beginning. *)
Fixpoint b255e_loop (pos : nat) (temp : Z) (filled : bytes) : option bytes :=
  if 0 <? temp then
    match pos with
    | O => None
    | S pos' => b255e_loop pos' (temp / 255) (b255_char (temp mod 255) :: filled)
    end
  else Some filled.

(** [b255e_in_buffer] shows that the loop stays within the buffer. *)
Definition b255e (id : Z) : bytes :=
  if id =? 0 then [Init.Byte.x00] else default [] (b255e_loop 9 id []).

Definition b255prefix (id : Z) : bytes := b255e id ++ [B255_DELIMITER].

Fixpoint b255d_loop (s : bytes) (id : Z) : option Z :=
  match s with
  | [] => Some id
  | uc :: s' =>
      if bool_decide (uc = B255_DELIMITER) then None
      else
        let digit := if b2z uc <? b2z B255_DELIMITER then b2z uc else b2z uc - 1 in
        if (UINT64_MAX - digit) / 255 <? id then None
        else b255d_loop s' (u64 (u64 (id * 255) + digit))
  end.

Definition b255d (s : bytes) : option Z :=
  if (length s =? 0)%nat || (9 <? zlen s) then None else b255d_loop s 0.

(** ** Base64 for URLs *)

Definition base64_lookup : bytes :=
  lit "ABCDEFGHIJKLMNOPQRSTUVWXYZabcdefghijklmnopqrstuvwxyz0123456789-_".

(** [lookup[i]] for an index below 64. *)
Definition base64_char (i : Z) : byte := nth (Z.to_nat i) base64_lookup Init.Byte.x00.

Definition char_to_val (c : byte) : Z :=
  let c := c2z c in
  if (65 <=? c) && (c <=? 90) then c - 65
  else if (97 <=? c) && (c <=? 122) then c - 97 + 26
  else if (48 <=? c) && (c <=? 57) then c - 48 + 52
  else if c =? 45 then 62
  else if c =? 95 then 63
  else -1.

(** The loop over the characters: the accumulator, the bits of it not yet
    written, and the bytes written so far to a destination of [dst_len] bytes.
    The flag is false at the early [return false]. *)
Fixpoint base64_decode_loop (src : bytes) (dst_len : nat) (val bits : Z) (out : bytes)
    : bool * Z * Z * bytes :=
  match src with
  | [] => (true, val, bits, out)
  | c :: src' =>
      let code := char_to_val c in
      if code <? 0 then (false, val, bits, out)
      else
        let val := Z.lor (u32 (Z.shiftl val 6)) code in
        let bits := bits + 6 in
        if 8 <=? bits then
          let bits := bits - 8 in
          if (dst_len <=? length out)%nat then (false, val, bits, out)
          else base64_decode_loop src' dst_len val bits
                 (out ++ [z2b (Z.land (Z.shiftr val bits) 255)])
        else base64_decode_loop src' dst_len val bits out
  end.

(** The result and the destination, of which only a beginning may be written. *)
Definition Base64UrlDecode (src : bytes) (dst : bytes) : bool * bytes :=
  if zlen src mod 4 =? 1 then (false, dst)
  else
    let '(ok, val, bits, out) := base64_decode_loop src (length dst) 0 0 [] in
    let dst' := out ++ drop (length out) dst in
    if negb ok then (false, dst')
    else if (0 <? bits) && negb (Z.land val (Z.shiftl 1 bits - 1) =? 0) then (false, dst')
    else (bool_decide (length out = length dst), dst').

Fixpoint Base64UrlEncode (data : bytes) : bytes :=
  match data with
  | [] => []
  | [a] =>
      let val := Z.shiftl (b2z a) 16 in
      [base64_char (Z.land (Z.shiftr val 18) 63); base64_char (Z.land (Z.shiftr val 12) 63)]
  | [a; b] =>
      let val := Z.lor (Z.shiftl (b2z a) 16) (Z.shiftl (b2z b) 8) in
      [base64_char (Z.land (Z.shiftr val 18) 63); base64_char (Z.land (Z.shiftr val 12) 63);
       base64_char (Z.land (Z.shiftr val 6) 63)]
  | a :: b :: c :: rest =>
      let val := Z.lor (Z.lor (Z.shiftl (b2z a) 16) (Z.shiftl (b2z b) 8)) (b2z c) in
      base64_char (Z.land (Z.shiftr val 18) 63) :: base64_char (Z.land (Z.shiftr val 12) 63)
      :: base64_char (Z.land (Z.shiftr val 6) 63) :: base64_char (Z.land val 63)
      :: Base64UrlEncode rest
  end.

(** ** Base 255 is read back *)

(** The value of a string of base-255 characters. *)
Definition b255_val (c : byte) : Z := if b2z c <? 58 then b2z c else b2z c - 1.
Definition b255_fold (s : bytes) (id : Z) : Z := foldl (fun v c => v * 255 + b255_val c) id s.

Lemma b255_char_val d : 0 <= d < 255 -> b255_val (b255_char d) = d.
Proof.
  intros H. unfold b255_val, b255_char. change (b2z B255_DELIMITER) with 58.
  rewrite b2z_z2b. destruct (Z.ltb_spec d 58); rewrite Z.mod_small by lia.
  - by rewrite (proj2 (Z.ltb_lt d 58)).
  - destruct (Z.ltb_spec (d + 1) 58); lia.
Qed.

Lemma b255_char_delim d : 0 <= d < 255 -> b255_char d <> B255_DELIMITER.
Proof.
  intros H E%(f_equal b2z). unfold b255_char in E. change (b2z B255_DELIMITER) with 58 in E.
  rewrite b2z_z2b in E. destruct (Z.ltb_spec d 58); rewrite Z.mod_small in E; lia.
Qed.

Lemma b255_val_range c : c <> B255_DELIMITER -> 0 <= b255_val c < 255.
Proof.
  intros H. unfold b255_val. pose proof (b2z_range c). destruct (Z.ltb_spec (b2z c) 58); [lia|].
  assert (b2z c <> 58); [|lia]. intros E. apply H, b2z_inj. done.
Qed.

Lemma b255_fold_app s t id : b255_fold (s ++ t) id = b255_fold t (b255_fold s id).
Proof. apply foldl_app. Qed.

(** The value grows along a string. *)
Lemma b255_fold_ge s id : 0 <= id -> Forall (fun c => c <> B255_DELIMITER) s -> id <= b255_fold s id.
Proof.
  intros H Hs. revert id H. induction Hs as [|c s Hc _ IH]; intros id H; cbn; [lia|].
  pose proof (b255_val_range c Hc). specialize (IH (id * 255 + b255_val c) ltac:(lia)).
  unfold b255_fold in IH. lia.
Qed.

(** The loop adds the digits of [temp] in front, at most [pos] of them. *)
Lemma b255e_loop_spec pos temp filled :
  0 <= temp < 255 ^ Z.of_nat pos ->
  exists ds, b255e_loop pos temp filled = Some (ds ++ filled)
  /\ b255_fold ds 0 = temp /\ (length ds <= pos)%nat
  /\ Forall (fun c => c <> B255_DELIMITER) ds /\ (0 < temp -> ds <> []).
Proof.
  revert temp filled. induction pos as [|pos IH]; intros temp filled H; cbn [b255e_loop].
  { change (255 ^ Z.of_nat 0) with 1 in H. destruct (Z.ltb_spec 0 temp); [lia|].
    exists []. split_and!; [done|cbn; lia|done|done|lia]. }
  destruct (Z.ltb_spec 0 temp).
  - rewrite Nat2Z.inj_succ, Z.pow_succ_r in H by lia.
    destruct (IH (temp / 255) (b255_char (temp mod 255) :: filled)) as (ds & -> & Hv & Hl & Hf & _).
    { split; [apply Z.div_pos; lia|]. apply Z.div_lt_upper_bound; lia. }
    pose proof (Z.mod_pos_bound temp 255 ltac:(lia)).
    exists (ds ++ [b255_char (temp mod 255)]). split_and!.
    + by rewrite <-app_assoc.
    + rewrite b255_fold_app, Hv. cbn. rewrite b255_char_val by done.
      pose proof (Z.div_mod temp 255 ltac:(lia)). lia.
    + rewrite length_app. cbn. lia.
    + apply Forall_app. split; [done|]. constructor; [|done]. by apply b255_char_delim.
    + by destruct ds.
  - exists []. split_and!; [done|cbn; lia|cbn; lia|done|lia].
Qed.

Lemma nine_digits : 2 ^ 64 <= 255 ^ Z.of_nat 9.
Proof. by apply Z.leb_le. Qed.

Lemma b255e_spec id :
  is_u64 id ->
  b255_fold (b255e id) 0 = id /\ (1 <= length (b255e id) <= 9)%nat
  /\ Forall (fun c => c <> B255_DELIMITER) (b255e id).
Proof.
  intros H. unfold b255e. destruct (Z.eqb_spec id 0) as [-> | Hn].
  { split_and!; [done|cbn; lia..|]. by repeat constructor. }
  mach. destruct (b255e_loop_spec 9 id []) as (ds & -> & Hv & Hl & Hf & Hne).
  { pose proof nine_digits. lia. }
  cbn [default]. rewrite app_nil_r. specialize (Hne ltac:(lia)).
  split_and!; [done| |done|done]. destruct ds; [done|cbn; lia].
Qed.

(** Nothing is written before the beginning of the nine-byte buffer. *)
Lemma b255e_in_buffer id : is_u64 id -> exists s, b255e_loop 9 id [] = Some s.
Proof.
  intros H. mach. destruct (b255e_loop_spec 9 id []) as (ds & E & _); [|by eexists].
  pose proof nine_digits. lia.
Qed.

Lemma b255d_loop_spec s id :
  is_u64 id ->
  b255d_loop s id
  = if decide (Forall (fun c => c <> B255_DELIMITER) s /\ b255_fold s id < 2 ^ 64)
    then Some (b255_fold s id) else None.
Proof.
  revert id. induction s as [|c s IH]; intros id H; cbn [b255d_loop].
  { rewrite decide_True; [done|]. split; [done|]. apply H. }
  case_bool_decide as Hc.
  { rewrite decide_False; [done|]. intros [Hf _]. by apply list.Forall_cons in Hf as [Hf _]. }
  change (if b2z c <? b2z B255_DELIMITER then b2z c else b2z c - 1) with (b255_val c).
  pose proof (b255_val_range c Hc) as Hr. unfold UINT64_MAX.
  assert ((2 ^ 64 - 1 - b255_val c) / 255 < id <-> 2 ^ 64 <= id * 255 + b255_val c) as Hiff.
  { pose proof (Z.div_mod (2 ^ 64 - 1 - b255_val c) 255 ltac:(lia)).
    pose proof (Z.mod_pos_bound (2 ^ 64 - 1 - b255_val c) 255 ltac:(lia)). lia. }
  destruct (Z.ltb_spec ((2 ^ 64 - 1 - b255_val c) / 255) id) as [Hlt|Hge].
  - rewrite decide_False; [done|]. intros [Hf Hb]. apply list.Forall_cons in Hf as [_ Hf].
    cbn in Hb. apply Hiff in Hlt. mach.
    pose proof (b255_fold_ge s (id * 255 + b255_val c) ltac:(lia) Hf) as Hge.
    unfold b255_fold in Hge. lia.
  - rewrite u64_add_l, u64_id by (mach; lia). rewrite IH by (mach; lia).
    apply decide_ext. rewrite list.Forall_cons. cbn. tauto.
Qed.

Lemma b255d_b255e id : is_u64 id -> b255d (b255e id) = Some id.
Proof.
  intros H. destruct (b255e_spec id H) as (Hv & Hl & Hf). unfold b255d.
  rewrite (proj2 (Nat.eqb_neq _ _)) by lia. rewrite (proj2 (Z.ltb_ge _ _)) by (unfold zlen; lia).
  cbn [orb]. rewrite b255d_loop_spec by (mach; lia). rewrite Hv, decide_True; [done|]. split; [done|apply H].
Qed.

Lemma b255d_some s id : b255d s = Some id -> is_u64 id /\ s <> [] /\ Forall (fun c => c <> B255_DELIMITER) s.
Proof.
  unfold b255d. destruct ((length s =? 0)%nat || (9 <? zlen s)) eqn:E; [done|].
  rewrite b255d_loop_spec by (mach; lia). case_decide as Hd; [|done]. intros [= <-].
  destruct Hd as [Hf Hb]. split_and!; [|by destruct s|done].
  pose proof (b255_fold_ge s 0 ltac:(lia) Hf). mach. lia.
Qed.

Lemma b255e_nonempty id : is_u64 id -> b255e id <> [].
Proof. intros H E. destruct (b255e_spec id H) as (_ & Hl & _). rewrite E in Hl. cbn in Hl. lia. Qed.

Lemma b255e_inj a b : is_u64 a -> is_u64 b -> b255e a = b255e b -> a = b.
Proof. intros Ha Hb E. apply Some_inj. by rewrite <-(b255d_b255e a), <-(b255d_b255e b), E. Qed.

(** ** Base64 is a bijection *)

Lemma char_to_val_base64 i : 0 <= i < 64 -> char_to_val (base64_char i) = i.
Proof.
  intros H.
  assert (forallb (fun n => char_to_val (base64_char (Z.of_nat n)) =? Z.of_nat n) (seq 0 64) = true) as E
    by (vm_compute; reflexivity).
  rewrite forallb_forall in E. specialize (E (Z.to_nat i)). rewrite Z2Nat.id in E by lia.
  apply Z.eqb_eq, E, in_seq. lia.
Qed.

Lemma base64_char_val c : 0 <= char_to_val c -> char_to_val c < 64 /\ base64_char (char_to_val c) = c.
Proof.
  intros H. assert ((char_to_val c <? 0) || ((char_to_val c <? 64)
    && bool_decide (base64_char (char_to_val c) = c)) = true) as E by (destruct c; reflexivity).
  rewrite orb_true_iff, andb_true_iff, !Z.ltb_lt, bool_decide_eq_true in E. destruct E as [E|E]; [lia|done].
Qed.

(** The loop on the bits that matter: [r] is the value of the [bits] low bits. *)
Fixpoint base64_bits (src : bytes) (bits r : Z) : option (bytes * Z * Z) :=
  match src with
  | [] => Some ([], bits, r)
  | c :: src' =>
      let code := char_to_val c in
      if code <? 0 then None
      else if 8 <=? bits + 6 then
        match base64_bits src' (bits - 2) ((r * 64 + code) mod 2 ^ (bits - 2)) with
        | Some (o, b, r') => Some (z2b ((r * 64 + code) / 2 ^ (bits - 2)) :: o, b, r')
        | None => None
        end
      else base64_bits src' (bits + 6) (r * 64 + code)
  end.

Lemma lor_disjoint x y n : 0 <= n -> 0 <= y < 2 ^ n -> Z.lor (x * 2 ^ n) y = x * 2 ^ n + y.
Proof.
  intros Hn Hy. destruct (Z.eq_dec y 0) as [-> | Hy0]; [rewrite Z.lor_0_r; lia|].
  pose proof (Z.add_lor_land (x * 2 ^ n) y) as E.
  assert (Z.land (x * 2 ^ n) y = 0) as E0; [|lia].
  apply Z.bits_inj_0. intros i. rewrite Z.land_spec, <-Z.shiftl_mul_pow2 by lia.
  destruct (Z.lt_ge_cases i n); [by rewrite Z.shiftl_spec_low|].
  rewrite (Z.bits_above_log2 y i); [apply andb_false_r|lia|].
  apply Z.log2_lt_pow2; [lia|]. apply Z.lt_le_trans with (2 ^ n); [lia|]. apply Z.pow_le_mono_r; lia.
Qed.

(** Appending a code shifts the low bits, whatever the 32-bit wrap drops. *)
Lemma base64_push val k n :
  0 <= k < 64 -> 0 <= n <= 26 ->
  Z.lor (u32 (Z.shiftl val 6)) k mod 2 ^ (n + 6) = (val mod 2 ^ n) * 64 + k.
Proof.
  intros Hk Hn. rewrite Z.shiftl_mul_pow2 by lia. change (2 ^ 6) with 64.
  assert (u32 (val * 64) = (val mod 2 ^ 26) * 2 ^ 6) as ->.
  { unfold u32. change (2 ^ 32) with (2 ^ 26 * 64). by rewrite Zmult_mod_distr_r. }
  rewrite (lor_disjoint _ k 6) by lia. change (2 ^ 6) with 64.
  replace (val mod 2 ^ 26 * 64 + k) with (k + val mod 2 ^ 26 * 64) by lia.
  rewrite Z.pow_add_r by lia. change (2 ^ 6) with 64.
  rewrite (Z.mul_comm (2 ^ n) 64), Z.rem_mul_r by lia.
  rewrite Z.mod_add, Z.div_add, (Z.mod_small k), (Z.div_small k) by lia. rewrite Z.add_0_l.
  assert (2 ^ 26 = 2 ^ n * 2 ^ (26 - n)) as E by (rewrite <-Z.pow_add_r by lia; f_equal; lia).
  rewrite E, Z.rem_mul_r by lia.
  rewrite (Z.mul_comm (2 ^ n)), Z.mod_add, Z.mod_mod by lia. lia.
Qed.

Lemma base64_byte val b : 0 <= b -> Z.land (Z.shiftr val b) 255 = val mod 2 ^ (b + 8) / 2 ^ b.
Proof.
  intros H. rewrite Z.shiftr_div_pow2 by lia. change 255 with (Z.ones 8).
  rewrite Z.land_ones by lia. rewrite Z.pow_add_r by lia.
  rewrite Z.rem_mul_r by lia. rewrite (Z.mul_comm (2 ^ b)), Z.div_add by lia.
  rewrite (Z.div_small (val mod 2 ^ b)); [done|]. apply Z.mod_pos_bound. lia.
Qed.

Lemma mod_mod_pow val a b : 0 <= a <= b -> (val mod 2 ^ b) mod 2 ^ a = val mod 2 ^ a.
Proof.
  intros H. assert (2 ^ b = 2 ^ a * 2 ^ (b - a)) as -> by (rewrite <-Z.pow_add_r by lia; f_equal; lia).
  rewrite Z.rem_mul_r by lia. rewrite (Z.mul_comm (2 ^ a)), Z.mod_add, Z.mod_mod by lia. done.
Qed.

Lemma base64_loop_bits src n val bits out :
  (bits = 0 \/ bits = 2 \/ bits = 4 \/ bits = 6) -> (length out <= n)%nat ->
  match base64_bits src bits (val mod 2 ^ bits) with
  | Some (o, b, r) =>
      if decide (length out + length o <= n)%nat
      then exists val', base64_decode_loop src n val bits out = (true, val', b, out ++ o) /\ val' mod 2 ^ b = r
      else (base64_decode_loop src n val bits out).1.1.1 = false
  | None => (base64_decode_loop src n val bits out).1.1.1 = false
  end.
Proof.
  revert val bits out. induction src as [|c src IH]; intros val bits out Hb Hn; cbn [base64_bits base64_decode_loop].
  { cbn [length]. rewrite decide_True by lia. exists val. by rewrite app_nil_r. }
  destruct (Z.ltb_spec (char_to_val c) 0) as [|Hc]; [done|].
  destruct (base64_char_val c Hc) as [Hc64 _].
  set (v := Z.lor _ _).
  assert (v mod 2 ^ (bits + 6) = val mod 2 ^ bits * 64 + char_to_val c) as Ev
    by (apply base64_push; lia).
  destruct (Z.leb_spec 8 (bits + 6)).
  - replace (bits + 6 - 8) with (bits - 2) by lia.
    assert ((val mod 2 ^ bits * 64 + char_to_val c) mod 2 ^ (bits - 2) = v mod 2 ^ (bits - 2)) as ->
      by (rewrite <-Ev; apply mod_mod_pow; lia).
    assert ((val mod 2 ^ bits * 64 + char_to_val c) / 2 ^ (bits - 2) = Z.land (Z.shiftr v (bits - 2)) 255) as ->.
    { rewrite <-Ev, base64_byte by lia. do 3 f_equal. lia. }
    destruct (Nat.leb_spec n (length out)) as [Hle|Hlt].
    { destruct (base64_bits src _ _) as [[[o b] r]|]; [|done]. rewrite decide_False; [done|]. cbn [length]. lia. }
    specialize (IH v (bits - 2) (out ++ [z2b (Z.land (Z.shiftr v (bits - 2)) 255)]) ltac:(lia)).
    rewrite length_app in IH. cbn [length] in IH. specialize (IH ltac:(lia)).
    destruct (base64_bits src _ _) as [[[o b] r]|]; [|done]. cbn [length].
    rewrite <-app_assoc in IH. replace (length out + S (length o))%nat with (length out + 1 + length o)%nat by lia.
    done.
  - rewrite <-Ev. apply IH; [lia|done].
Qed.

Lemma base64_bits_state src bits r o b r' :
  (bits = 0 \/ bits = 2 \/ bits = 4 \/ bits = 6) ->
  base64_bits src bits r = Some (o, b, r') -> 0 <= b.
Proof.
  revert bits r o. induction src as [|c src IH]; intros bits r o Hb; cbn [base64_bits].
  { intros [= <- <- <-]. lia. }
  destruct (char_to_val c <? 0); [done|]. destruct (Z.leb_spec 8 (bits + 6)).
  - destruct (base64_bits src _ _) as [[[o' b'] r0]|] eqn:E; [|done]. intros [= <- <- <-].
    eapply (IH (bits - 2)); [lia|exact E].
  - apply IH. lia.
Qed.

(** What the decoder accepts, on the bits. *)
Lemma Base64UrlDecode_bits src dst d :
  Base64UrlDecode src dst = (true, d)
  <-> zlen src mod 4 <> 1 /\ length d = length dst /\ exists b, base64_bits src 0 0 = Some (d, b, 0).
Proof.
  unfold Base64UrlDecode. destruct (Z.eqb_spec (zlen src mod 4) 1) as [E|E]; [split; [done|by intros [? _]]|].
  pose proof (base64_loop_bits src (length dst) 0 0 [] ltac:(tauto) ltac:(cbn; lia)) as H.
  change (0 mod 2 ^ 0) with 0 in H.
  destruct (base64_bits src 0 0) as [[[o b] r]|] eqn:Eb; last first.
  { destruct (base64_decode_loop _ _ _ _ _) as [[[ok v] b'] o']. cbn in H. subst ok. cbn [negb].
    split; [done|]. by intros (_ & _ & b & ?). }
  cbn [length] in H. rewrite Nat.add_0_l in H. case_decide as Hd; last first.
  { destruct (base64_decode_loop _ _ _ _ _) as [[[ok v] b'] o']. cbn in H. subst ok. cbn [negb].
    split; [done|]. intros (_ & Hl & b'' & [= -> _ _]). lia. }
  destruct H as (v & -> & Hv). cbn [negb]. rewrite app_nil_l.
  apply base64_bits_state in Eb; [|tauto].
  assert (Z.land v (Z.shiftl 1 b - 1) = r) as ->.
  { rewrite <-Hv, <-Z.land_ones by done. unfold Z.ones. by rewrite Z.sub_1_r. }
  assert ((0 <? b) && negb (r =? 0) = negb (r =? 0)) as ->.
  { destruct (Z.ltb_spec 0 b); [done|]. assert (b = 0) as -> by lia.
    rewrite Z.mod_1_r in Hv. by subst r. }
  destruct (Z.eqb_spec r 0) as [-> | Hr]; cbn [negb].
  - split.
    + intros [= Hl <-]. apply bool_decide_eq_true in Hl. rewrite Hl, drop_all, app_nil_r. eauto.
    + intros (_ & Hl & b' & [= -> ->]). by rewrite bool_decide_true, Hl, drop_all, app_nil_r.
  - split; [done|]. intros (_ & _ & b' & [= _ _ ?]). done.
Qed.

Lemma base64_bits_step c src bits r :
  0 <= char_to_val c ->
  base64_bits (c :: src) bits r
  = if 8 <=? bits + 6 then
      match base64_bits src (bits - 2) ((r * 64 + char_to_val c) mod 2 ^ (bits - 2)) with
      | Some (o, b, r') => Some (z2b ((r * 64 + char_to_val c) / 2 ^ (bits - 2)) :: o, b, r')
      | None => None
      end
    else base64_bits src (bits + 6) (r * 64 + char_to_val c).
Proof. intros H. cbn [base64_bits]. by rewrite (proj2 (Z.ltb_ge _ _)). Qed.

(** The six-bit groups of three bytes. *)
Lemma base64_groups a b c :
  0 <= a < 256 -> 0 <= b < 256 -> 0 <= c < 256 ->
  let val := Z.lor (Z.lor (Z.shiftl a 16) (Z.shiftl b 8)) c in
  Z.land (Z.shiftr val 18) 63 = a / 4 /\ Z.land (Z.shiftr val 12) 63 = a mod 4 * 16 + b / 16
  /\ Z.land (Z.shiftr val 6) 63 = b mod 16 * 4 + c / 64 /\ Z.land val 63 = c mod 64.
Proof.
  intros Ha Hb Hc val.
  assert (val = a * 65536 + b * 256 + c) as ->.
  { unfold val. rewrite !Z.shiftl_mul_pow2 by lia.
    rewrite (lor_disjoint a (b * 2 ^ 8) 16) by lia.
    replace (a * 2 ^ 16 + b * 2 ^ 8) with ((a * 256 + b) * 2 ^ 8) by lia.
    rewrite lor_disjoint by lia. lia. }
  change 63 with (Z.ones 6). rewrite !Z.land_ones, !Z.shiftr_div_pow2 by lia.
  change (2 ^ 18) with 262144. change (2 ^ 12) with 4096. change (2 ^ 6) with 64.
  split_and!; Z.to_euclidean_division_equations; lia.
Qed.

(** The byte in front of what follows. *)
Definition base64_cons (x : Z) (rest : option (bytes * Z * Z)) : option (bytes * Z * Z) :=
  match rest with Some (o, b, r) => Some (z2b x :: o, b, r) | None => None end.

Lemma base64_step0 c src : 0 <= char_to_val c -> base64_bits (c :: src) 0 0 = base64_bits src 6 (char_to_val c).
Proof. intros H. rewrite base64_bits_step by done. done. Qed.

Lemma base64_step6 c src r :
  0 <= char_to_val c ->
  base64_bits (c :: src) 6 r
  = base64_cons (r * 4 + char_to_val c / 16) (base64_bits src 4 (char_to_val c mod 16)).
Proof.
  intros H. rewrite base64_bits_step by done. change (8 <=? 6 + 6) with true. change (6 - 2) with 4.
  change (2 ^ 4) with 16. replace (r * 64) with (r * 4 * 16) by lia.
  rewrite Z.add_comm, Z.mod_add, Z.div_add, Z.add_comm by lia. done.
Qed.

Lemma base64_step4 c src r :
  0 <= char_to_val c ->
  base64_bits (c :: src) 4 r
  = base64_cons (r * 16 + char_to_val c / 4) (base64_bits src 2 (char_to_val c mod 4)).
Proof.
  intros H. rewrite base64_bits_step by done. change (8 <=? 4 + 6) with true. change (4 - 2) with 2.
  change (2 ^ 2) with 4. replace (r * 64) with (r * 16 * 4) by lia.
  rewrite Z.add_comm, Z.mod_add, Z.div_add, Z.add_comm by lia. done.
Qed.

Lemma base64_step2 c src r :
  0 <= char_to_val c ->
  base64_bits (c :: src) 2 r = base64_cons (r * 64 + char_to_val c) (base64_bits src 0 0).
Proof.
  intros H. rewrite base64_bits_step by done. change (8 <=? 2 + 6) with true. change (2 - 2) with 0.
  change (2 ^ 0) with 1. by rewrite Z.mod_1_r, Z.div_1_r.
Qed.

Lemma base64_bits_neg c src bits r : char_to_val c < 0 -> base64_bits (c :: src) bits r = None.
Proof. intros H. cbn [base64_bits]. by rewrite (proj2 (Z.ltb_lt _ _)). Qed.

Ltac div_mod_lia := Z.to_euclidean_division_equations; lia.

(** The first byte built in the goal is [a]. *)
Ltac as_byte a :=
  match goal with |- context [z2b ?x] => replace x with (b2z a) by div_mod_lia; rewrite z2b_b2z end.

Lemma base64_bits_encode n bs :
  (length bs <= n)%nat ->
  zlen (Base64UrlEncode bs) mod 4 <> 1 /\ exists b, base64_bits (Base64UrlEncode bs) 0 0 = Some (bs, b, 0).
Proof.
  revert bs. induction n as [|n IH]; intros bs Hn.
  { destruct bs; [|cbn in Hn; lia]. split; [done|by exists 0]. }
  destruct bs as [|a [|b [|c rest]]].
  - split; [done|by exists 0].
  - pose proof (b2z_range a).
    destruct (base64_groups (b2z a) 0 0) as (G0 & G1 & _); [lia..|].
    change (Z.shiftl 0 8) with 0 in G0, G1. rewrite !Z.lor_0_r in G0, G1.
    split; [done|]. exists 4. cbn [Base64UrlEncode]. rewrite G0, G1.
    rewrite base64_step0, base64_step6 by (rewrite char_to_val_base64; div_mod_lia).
    rewrite !char_to_val_base64 by div_mod_lia. cbn [base64_bits base64_cons].
    as_byte a. do 2 f_equal. div_mod_lia.
  - pose proof (b2z_range a). pose proof (b2z_range b).
    destruct (base64_groups (b2z a) (b2z b) 0) as (G0 & G1 & G2 & _); [lia..|].
    rewrite !Z.lor_0_r in G0, G1, G2.
    split; [done|]. exists 2. cbn [Base64UrlEncode]. rewrite G0, G1, G2.
    rewrite base64_step0, base64_step6, base64_step4 by (rewrite char_to_val_base64; div_mod_lia).
    rewrite !char_to_val_base64 by div_mod_lia. cbn [base64_bits base64_cons].
    as_byte b. as_byte a. do 2 f_equal. div_mod_lia.
  - pose proof (b2z_range a). pose proof (b2z_range b). pose proof (b2z_range c).
    destruct (base64_groups (b2z a) (b2z b) (b2z c)) as (G0 & G1 & G2 & G3); [lia..|].
    destruct (IH rest) as (Hm & t & E); [cbn in Hn; lia|].
    cbn [Base64UrlEncode]. rewrite G0, G1, G2, G3. split.
    { rewrite !zlen_cons. replace (1 + (1 + (1 + (1 + zlen (Base64UrlEncode rest)))))
        with (zlen (Base64UrlEncode rest) + 1 * 4) by lia. by rewrite Z.mod_add by lia. }
    exists t. rewrite base64_step0, base64_step6, base64_step4, base64_step2
      by (rewrite char_to_val_base64; div_mod_lia).
    rewrite E, !char_to_val_base64 by div_mod_lia. cbn [base64_cons].
    as_byte c. as_byte b. by as_byte a.
Qed.

Lemma base64_cons_some x rest d b r :
  base64_cons x rest = Some (d, b, r) -> exists o, rest = Some (o, b, r) /\ d = z2b x :: o.
Proof. destruct rest as [[[o b'] r']|]; [|done]. intros [= <- <- <-]. by exists o. Qed.

Lemma base64_bits_pos c src bits r x : base64_bits (c :: src) bits r = Some x -> 0 <= char_to_val c < 64.
Proof.
  intros H. destruct (Z.lt_ge_cases (char_to_val c) 0) as [Hn|Hp]; [by rewrite base64_bits_neg in H|].
  by destruct (base64_char_val c).
Qed.

(** A group of the encoded bytes is the character it came from. *)
Lemma base64_char_eq c k : 0 <= char_to_val c -> k = char_to_val c -> base64_char k = c.
Proof. intros H ->. by apply base64_char_val. Qed.

Ltac b2z_small := rewrite ?b2z_z2b, ?Z.mod_small by div_mod_lia.

Lemma base64_encode_bits n src d b :
  (length src <= n)%nat -> zlen src mod 4 <> 1 -> base64_bits src 0 0 = Some (d, b, 0) ->
  src = Base64UrlEncode d.
Proof.
  revert src d. induction n as [|n IH]; intros src d Hn Hm E.
  { destruct src; [|cbn in Hn; lia]. by injection E as <- <-. }
  destruct src as [|c0 [|c1 src]]; [by injection E as <- <-|done|].
  pose proof (base64_bits_pos _ _ _ _ _ E) as H0. rewrite base64_step0 in E by lia.
  pose proof (base64_bits_pos _ _ _ _ _ E) as H1. rewrite base64_step6 in E by lia.
  apply base64_cons_some in E as (d1 & E & ->).
  destruct src as [|c2 src].
  { injection E as <- _ Er. cbn [Base64UrlEncode]. set (x := z2b _).
    assert (b2z x = char_to_val c0 * 4 + char_to_val c1 / 16) as Ex by (unfold x; b2z_small; done).
    destruct (base64_groups (b2z x) 0 0) as (G0 & G1 & _); [apply b2z_range|lia..|].
    change (Z.shiftl 0 8) with 0 in G0, G1. rewrite !Z.lor_0_r in G0, G1. rewrite G0, G1, Ex.
    f_equal; [|f_equal]; symmetry; apply base64_char_eq; div_mod_lia. }
  pose proof (base64_bits_pos _ _ _ _ _ E) as H2. rewrite base64_step4 in E by lia.
  apply base64_cons_some in E as (d2 & E & ->).
  destruct src as [|c3 src].
  { injection E as <- _ Er. cbn [Base64UrlEncode]. set (x := z2b _). set (y := z2b _).
    assert (b2z x = char_to_val c0 * 4 + char_to_val c1 / 16) as Ex by (unfold x; b2z_small; done).
    assert (b2z y = char_to_val c1 mod 16 * 16 + char_to_val c2 / 4) as Ey by (unfold y; b2z_small; done).
    destruct (base64_groups (b2z x) (b2z y) 0) as (G0 & G1 & G2 & _); [apply b2z_range..|lia|].
    rewrite !Z.lor_0_r in G0, G1, G2. rewrite G0, G1, G2, Ex, Ey.
    f_equal; [|f_equal; [|f_equal]]; symmetry; apply base64_char_eq; div_mod_lia. }
  pose proof (base64_bits_pos _ _ _ _ _ E) as H3. rewrite base64_step2 in E by lia.
  apply base64_cons_some in E as (d3 & E & ->).
  apply IH in E; [|cbn in Hn; lia|]; last first.
  { rewrite !zlen_cons in Hm. replace (1 + (1 + (1 + (1 + zlen src)))) with (zlen src + 1 * 4) in Hm by lia.
    by rewrite Z.mod_add in Hm by lia. }
  subst src. cbn [Base64UrlEncode]. set (x := z2b _). set (y := z2b _). set (z := z2b _).
  assert (b2z x = char_to_val c0 * 4 + char_to_val c1 / 16) as Ex by (unfold x; b2z_small; done).
  assert (b2z y = char_to_val c1 mod 16 * 16 + char_to_val c2 / 4) as Ey by (unfold y; b2z_small; done).
  assert (b2z z = char_to_val c2 mod 4 * 64 + char_to_val c3) as Ez by (unfold z; b2z_small; done).
  destruct (base64_groups (b2z x) (b2z y) (b2z z)) as (G0 & G1 & G2 & G3); [apply b2z_range..|].
  rewrite G0, G1, G2, G3, Ex, Ey, Ez.
  f_equal; [|f_equal; [|f_equal; [|f_equal]]]; symmetry; apply base64_char_eq; div_mod_lia.
Qed.

Lemma Base64UrlDecode_iff src dst d :
  Base64UrlDecode src dst = (true, d) <-> length d = length dst /\ src = Base64UrlEncode d.
Proof.
  rewrite Base64UrlDecode_bits. split.
  - intros (Hm & Hl & b & E). split; [done|]. by eapply base64_encode_bits.
  - intros [Hl ->]. destruct (base64_bits_encode (length d) d) as (Hm & b & E); [done|]. eauto.
Qed.

Lemma zlen_Base64UrlEncode n bs :
  (length bs <= n)%nat -> zlen (Base64UrlEncode bs) = (zlen bs * 4 + 2) / 3.
Proof.
  revert bs. induction n as [|n IH]; intros bs Hn.
  { destruct bs; [done|cbn in Hn; lia]. }
  destruct bs as [|a [|b [|c rest]]]; [done..|].
  cbn [Base64UrlEncode]. rewrite !zlen_cons, IH by (cbn in Hn; lia). div_mod_lia.
Qed.

(** ** Properties *)

(** decoding accepts exactly the encodings of [length dst] bytes and
    returns those bytes: padding bits, other characters and other lengths are
    refused, so that every token has one spelling. *)
Theorem base64_bijection src dst d :
  Base64UrlDecode src dst = (true, d) <-> length d = length dst /\ src = Base64UrlEncode d.
Proof. apply Base64UrlDecode_iff. Qed.
