(* ===== verification/EloqKey.v ===== *)
(** * Keys

    The physical key of an object (include/eloqkv_key.h, src/eloqkv_key.cpp):
    comparison with its two infinities, the cluster hash slot, and the image
    written to logs and messages; the namespace prefix in front of user keys
    (include/namespace/prefix.h, context.h); and the range of keys SCAN and KEYS
    ask the engine for (src/redis_service.cpp). *)

From S2P Require Import Prelude Codec EloqString Encoding StringMatch.

(* [set_solver] clears hypotheses by name. *)
Set Warnings "-clear-no-such-hyp".

(** ** The hash slot *)

Definition crc16_table : list Z :=
  [0x0000; 0x1021; 0x2042; 0x3063; 0x4084; 0x50a5; 0x60c6; 0x70e7; 0x8108; 0x9129;
   0xa14a; 0xb16b; 0xc18c; 0xd1ad; 0xe1ce; 0xf1ef; 0x1231; 0x0210; 0x3273; 0x2252;
   0x52b5; 0x4294; 0x72f7; 0x62d6; 0x9339; 0x8318; 0xb37b; 0xa35a; 0xd3bd; 0xc39c;
   0xf3ff; 0xe3de; 0x2462; 0x3443; 0x0420; 0x1401; 0x64e6; 0x74c7; 0x44a4; 0x5485;
   0xa56a; 0xb54b; 0x8528; 0x9509; 0xe5ee; 0xf5cf; 0xc5ac; 0xd58d; 0x3653; 0x2672;
   0x1611; 0x0630; 0x76d7; 0x66f6; 0x5695; 0x46b4; 0xb75b; 0xa77a; 0x9719; 0x8738;
   0xf7df; 0xe7fe; 0xd79d; 0xc7bc; 0x48c4; 0x58e5; 0x6886; 0x78a7; 0x0840; 0x1861;
   0x2802; 0x3823; 0xc9cc; 0xd9ed; 0xe98e; 0xf9af; 0x8948; 0x9969; 0xa90a; 0xb92b;
   0x5af5; 0x4ad4; 0x7ab7; 0x6a96; 0x1a71; 0x0a50; 0x3a33; 0x2a12; 0xdbfd; 0xcbdc;
   0xfbbf; 0xeb9e; 0x9b79; 0x8b58; 0xbb3b; 0xab1a; 0x6ca6; 0x7c87; 0x4ce4; 0x5cc5;
   0x2c22; 0x3c03; 0x0c60; 0x1c41; 0xedae; 0xfd8f; 0xcdec; 0xddcd; 0xad2a; 0xbd0b;
   0x8d68; 0x9d49; 0x7e97; 0x6eb6; 0x5ed5; 0x4ef4; 0x3e13; 0x2e32; 0x1e51; 0x0e70;
   0xff9f; 0xefbe; 0xdfdd; 0xcffc; 0xbf1b; 0xaf3a; 0x9f59; 0x8f78; 0x9188; 0x81a9;
   0xb1ca; 0xa1eb; 0xd10c; 0xc12d; 0xf14e; 0xe16f; 0x1080; 0x00a1; 0x30c2; 0x20e3;
   0x5004; 0x4025; 0x7046; 0x6067; 0x83b9; 0x9398; 0xa3fb; 0xb3da; 0xc33d; 0xd31c;
   0xe37f; 0xf35e; 0x02b1; 0x1290; 0x22f3; 0x32d2; 0x4235; 0x5214; 0x6277; 0x7256;
   0xb5ea; 0xa5cb; 0x95a8; 0x8589; 0xf56e; 0xe54f; 0xd52c; 0xc50d; 0x34e2; 0x24c3;
   0x14a0; 0x0481; 0x7466; 0x6447; 0x5424; 0x4405; 0xa7db; 0xb7fa; 0x8799; 0x97b8;
   0xe75f; 0xf77e; 0xc71d; 0xd73c; 0x26d3; 0x36f2; 0x0691; 0x16b0; 0x6657; 0x7676;
   0x4615; 0x5634; 0xd94c; 0xc96d; 0xf90e; 0xe92f; 0x99c8; 0x89e9; 0xb98a; 0xa9ab;
   0x5844; 0x4865; 0x7806; 0x6827; 0x18c0; 0x08e1; 0x3882; 0x28a3; 0xcb7d; 0xdb5c;
   0xeb3f; 0xfb1e; 0x8bf9; 0x9bd8; 0xabbb; 0xbb9a; 0x4a75; 0x5a54; 0x6a37; 0x7a16;
   0x0af1; 0x1ad0; 0x2ab3; 0x3a92; 0xfd2e; 0xed0f; 0xdd6c; 0xcd4d; 0xbdaa; 0xad8b;
   0x9de8; 0x8dc9; 0x7c26; 0x6c07; 0x5c64; 0x4c45; 0x3ca2; 0x2c83; 0x1ce0; 0x0cc1;
   0xef1f; 0xff3e; 0xcf5d; 0xdf7c; 0xaf9b; 0xbfba; 0x8fd9; 0x9ff8; 0x6e17; 0x7e36;
   0x4e55; 0x5e74; 0x2e93; 0x3eb2; 0x0ed1; 0x1ef0].

Definition crc16_byte (crc : Z) (c : byte) : Z :=
  u16 (Z.lxor (Z.shiftl crc 8)
         (nth (Z.to_nat (Z.land (Z.lxor (Z.shiftr crc 8) (c2z c)) 0xff)) crc16_table 0)).

Definition CRC16_XMODEM (buf : bytes) : Z := foldl crc16_byte 0 buf.

Definition ch_lbrace : byte := Init.Byte.x7b.
Definition ch_rbrace : byte := Init.Byte.x7d.

(** The loops that look for a character: the index, or the length. *)
Fixpoint find_char (c : byte) (buf : bytes) : nat :=
  match buf with
  | [] => 0
  | x :: buf' => if bool_decide (x = c) then 0 else S (find_char c buf')
  end.

Definition key_Hash (buf : bytes) : Z :=
  let keylen := length buf in
  let s := find_char ch_lbrace buf in
  if decide (s = keylen) then CRC16_XMODEM buf
  else
    let e := (s + 1 + find_char ch_rbrace (drop (s + 1) buf))%nat in
    if decide (e = keylen \/ e = s + 1)%nat then CRC16_XMODEM buf
    else CRC16_XMODEM (take (e - s - 1) (drop (s + 1) buf)).

(** ** Order *)

(** A key is one of the two static objects, known by their addresses, or holds
    a string. *)
Inductive EloqKey :=
| NegativeInfinity
| PositiveInfinity
| Key (key_ : EloqString).

Definition key_eq (lhs rhs : EloqKey) : bool :=
  match lhs, rhs with
  | NegativeInfinity, NegativeInfinity | PositiveInfinity, PositiveInfinity => true
  | Key a, Key b => es_eqb a b
  | _, _ => false
  end.

Definition key_lt (lhs rhs : EloqKey) : bool :=
  match lhs, rhs with
  | NegativeInfinity, _ => negb (key_eq rhs NegativeInfinity)
  | PositiveInfinity, _ | _, NegativeInfinity => false
  | _, PositiveInfinity => true
  | Key a, Key b => bytes_ltb (es_view a) (es_view b)
  end.

Definition key_le (lhs rhs : EloqKey) : bool := key_lt lhs rhs || key_eq lhs rhs.

(** [EloqKey::Raw]: the bytes are physical already. *)
Definition key_Raw (d : bytes) : EloqKey := Key (es_of_data d).

(** ** The image *)

Definition key_Serialize_str (key_view str : bytes) : bytes :=
  let len_val := u16 (zlen key_view) in
  str ++ le_bytes 2 len_val ++ take (Z.to_nat len_val) key_view.

(** The buffer is sized by the narrowed length, the key is copied whole. *)
Definition key_Serialize_vec (key_view buf : bytes) (offset : nat) : option (bytes * nat) :=
  let len_val := u16 (zlen key_view) in
  let buf := vresize (offset + 2 + Z.to_nat len_val) buf in
  (vput (le_bytes 2 len_val) ;;w vput key_view) (buf, offset).

Definition key_Deserialize : Reader EloqString :=
  len_val <-- read_le 2; d <-- read_bytes len_val; rret (es_own d).

(** The slot of a key, from its image. *)
Definition HashFromSerializedKey : Reader Z :=
  len_val <-- read_le 2; d <-- read_bytes len_val; rret (key_Hash d).

(** [after] is the memory behind the pattern. *)
Definition key_IsMatch (key pattern after : bytes) : option bool :=
  if (length pattern =? 0)%nat then Some true else stringmatchlen pattern after key false.

(** ** Namespaces *)

Definition kDefaultNamespace : bytes := lit "default".

Definition MakePrefix (encoded_ns_id : bytes) (epoch : Z) : bytes :=
  encoded_ns_id ++ [B255_DELIMITER] ++ b255e epoch ++ [B255_DELIMITER].

(** The namespace, the epoch and the user's key; [None] is [false]. *)
Definition Parse (full_key : bytes) : option (bytes * Z * bytes) :=
  let delim1 := find_char B255_DELIMITER full_key in
  if decide (delim1 = length full_key \/ delim1 <= 0)%nat then None
  else
    let rest := drop (delim1 + 1) full_key in
    let len2 := find_char B255_DELIMITER rest in
    if decide (len2 = length rest \/ len2 <= 0)%nat then None
    else
      match b255d (take len2 rest) with
      | Some epoch => Some (take delim1 full_key, epoch, drop (len2 + 1) rest)
      | None => None
      end.

(** The loop that increases the last byte below 0xFF and drops what follows it;
    [None] when there is none. *)
Fixpoint increase_rev (r : bytes) : option bytes :=
  match r with
  | [] => None
  | c :: r' => if b2z c =? 255 then increase_rev r' else Some (z2b (b2z c + 1) :: r')
  end.

Definition increase (prefix : bytes) : option bytes :=
  match increase_rev (reverse prefix) with Some r => Some (reverse r) | None => None end.

Definition MakePrefixNext (prefix : bytes) : bytes :=
  if (length prefix =? 0)%nat then [] else default [] (increase prefix).

Definition no_namespace (ns : bytes) : bool := (length ns =? 0)%nat || bool_decide (ns = kDefaultNamespace).

Definition ComposeNamespaceKey (ns key : bytes) : bytes := if no_namespace ns then key else ns ++ key.

Definition ComposeNamespaceKeyNext (ns : bytes) : bytes := if no_namespace ns then [] else MakePrefixNext ns.

(** A key built from a user's key under the namespace of the request. *)
Definition key_of_user (current_namespace key : bytes) : EloqKey :=
  Key (es_of_data (ComposeNamespaceKey current_namespace key)).

(** ** The range of a scan *)

(** What the pattern has in front of its first star, unless that is nothing. *)
Definition scan_prefix (pattern : bytes) : option bytes :=
  let pos := find_char ch_star pattern in
  if decide (pos <> length pattern /\ pos <> 0)%nat then Some (take pos pattern) else None.

(** The start key, whether it is inclusive, and the exclusive end key. *)
Definition scan_range (ns pattern : bytes) : EloqKey * bool * EloqKey :=
  if negb (length ns =? 0)%nat then
    match scan_prefix pattern with
    | Some prefix =>
        (key_Raw (ComposeNamespaceKey ns prefix), true,
         match increase prefix with
         | Some prefix_next => key_Raw (ComposeNamespaceKey ns prefix_next)
         | None => key_Raw (ComposeNamespaceKeyNext ns)
         end)
    | None => (key_Raw (ComposeNamespaceKey ns []), true, key_Raw (ComposeNamespaceKeyNext ns))
    end
  else
    match scan_prefix pattern with
    | Some prefix =>
        (key_Raw prefix, true,
         match increase prefix with
         | Some prefix_next => key_Raw prefix_next
         | None => PositiveInfinity
         end)
    | None => (NegativeInfinity, false, PositiveInfinity)
    end.

Definition range_has (range : EloqKey * bool * EloqKey) (k : EloqKey) : bool :=
  let '(start, start_inclusive, stop) := range in
  (if start_inclusive : bool then key_le start k else key_lt start k) && key_lt k stop.

(** The key shown to the user. *)
Definition user_key (ns sv : bytes) : bytes :=
  if negb (length ns =? 0)%nat && (length ns <=? length sv)%nat && bool_decide (take (length ns) sv = ns)
  then drop (length ns) sv else sv.

(** ** The table computes the CRC *)

(** One bit of the division by the polynomial x^16 + x^12 + x^5 + 1. *)
Definition crc16_bit (crc : Z) : Z :=
  u16 (Z.lxor (Z.shiftl crc 1) (if Z.testbit crc 15 then 0x1021 else 0)).

Fixpoint crc16_bits (n : nat) (crc : Z) : Z :=
  match n with O => crc | S n' => crc16_bit (crc16_bits n' crc) end.

(** CRC-16/XMODEM bit by bit. *)
Definition crc16_ref_byte (crc : Z) (c : byte) : Z :=
  crc16_bits 8 (Z.lxor crc (Z.shiftl (b2z c) 8)).
Definition crc16_ref (buf : bytes) : Z := foldl crc16_ref_byte 0 buf.

Lemma u16_lxor a b : u16 (Z.lxor a b) = Z.lxor (u16 a) (u16 b).
Proof.
  unfold u16. rewrite <-!Z.land_ones by lia. apply Z.bits_inj'. intros i _.
  rewrite Z.land_spec, !Z.lxor_spec, !Z.land_spec.
  by destruct (Z.testbit a i), (Z.testbit b i), (Z.testbit (Z.ones 16) i).
Qed.

Lemma u16_range z : is_u16 (u16 z).
Proof. apply Z.mod_pos_bound. lia. Qed.

Lemma u16_id z : is_u16 z -> u16 z = z.
Proof. apply Z.mod_small. Qed.

Lemma crc16_bit_lxor a b : crc16_bit (Z.lxor a b) = Z.lxor (crc16_bit a) (crc16_bit b).
Proof.
  unfold crc16_bit. rewrite Z.lxor_spec, Z.shiftl_lxor, <-u16_lxor. f_equal.
  destruct (Z.testbit a 15), (Z.testbit b 15); cbn [xorb]; rewrite ?Z.lxor_0_r.
  - rewrite (Z.lxor_comm (Z.shiftl b 1)), Z.lxor_assoc, <-(Z.lxor_assoc 0x1021), Z.lxor_nilpotent.
    by rewrite Z.lxor_0_l.
  - by rewrite !Z.lxor_assoc, (Z.lxor_comm 0x1021).
  - by rewrite Z.lxor_assoc.
  - done.
Qed.

Lemma crc16_bits_lxor n a b :
  crc16_bits n (Z.lxor a b) = Z.lxor (crc16_bits n a) (crc16_bits n b).
Proof. induction n as [|n IH]; cbn [crc16_bits]; [done|]. by rewrite IH, crc16_bit_lxor. Qed.

Lemma crc16_table_ok i :
  0 <= i < 256 ->
  crc16_bits 8 (Z.shiftl i 8) = nth (Z.to_nat i) crc16_table 0
  /\ crc16_bits 8 i = Z.shiftl i 8.
Proof.
  intros H.
  assert (forallb (fun n => let i := Z.of_nat n in
    (crc16_bits 8 (Z.shiftl i 8) =? nth n crc16_table 0)
    && (crc16_bits 8 i =? Z.shiftl i 8)) (seq 0 256) = true) as E by (vm_compute; reflexivity).
  rewrite forallb_forall in E. specialize (E (Z.to_nat i)). cbn zeta in E. rewrite Z2Nat.id in E by lia.
  rewrite andb_true_iff, !Z.eqb_eq in E. apply E, in_seq. lia.
Qed.

Lemma crc16_bit_range z : is_u16 (crc16_bit z).
Proof. apply u16_range. Qed.

Lemma lxor_byte a b : 0 <= a < 256 -> 0 <= b < 256 -> 0 <= Z.lxor a b < 256.
Proof.
  intros Ha Hb. assert (Z.lxor a b = Z.land (Z.lxor a b) (Z.ones 8)) as E.
  { apply Z.bits_inj'. intros i Hi. rewrite Z.land_spec, Z.lxor_spec.
    destruct (Z.lt_ge_cases i 8); [by rewrite Z.ones_spec_low, andb_true_r by lia|].
    rewrite <-(Z.mod_small a (2 ^ 8)), <-(Z.mod_small b (2 ^ 8)) by lia.
    by rewrite !Z.mod_pow2_bits_high by lia. }
  rewrite E, Z.land_ones by lia. apply Z.mod_pos_bound. lia.
Qed.

Lemma lxor_disjoint h l : 0 <= l < 256 -> Z.lxor (Z.shiftl h 8) l = Z.shiftl h 8 + l.
Proof.
  intros Hl. rewrite Z.shiftl_mul_pow2 by lia. rewrite <-(lor_disjoint h l 8) by lia.
  apply Z.bits_inj'. intros i Hi. rewrite Z.lxor_spec, Z.lor_spec. rewrite <-Z.shiftl_mul_pow2 by lia.
  destruct (Z.lt_ge_cases i 8); [by rewrite Z.shiftl_spec_low by lia; destruct (Z.testbit l i)|].
  rewrite <-(Z.mod_small l (2 ^ 8)), Z.mod_pow2_bits_high by lia. by destruct (Z.testbit (Z.shiftl h 8) i).
Qed.

Lemma c2z_low c x : Z.land (Z.lxor x (c2z c)) 255 = Z.land (Z.lxor x (b2z c)) 255.
Proof.
  unfold c2z. destruct (b2z c <? 128); [done|].
  apply Z.bits_inj'. intros i Hi. rewrite !Z.land_spec, !Z.lxor_spec. change 255 with (Z.ones 8).
  destruct (Z.lt_ge_cases i 8) as [Hlt|Hge].
  - rewrite Z.ones_spec_low, !andb_true_r by lia. f_equal.
    rewrite <-(Z.mod_pow2_bits_low (b2z c - 256) 8 i), <-(Z.mod_pow2_bits_low (b2z c) 8 i) by lia.
    change (b2z c - 256) with (b2z c - 1 * 2 ^ 8). by rewrite <-Zminus_mod_idemp_r, Z_mod_mult, Z.sub_0_r.
  - by rewrite Z.ones_spec_high, !andb_false_r by lia.
Qed.

Lemma crc16_byte_ref crc c : is_u16 crc -> crc16_byte crc c = crc16_ref_byte crc c.
Proof.
  intros H. unfold crc16_byte, crc16_ref_byte. rewrite c2z_low. pose proof (b2z_range c) as Hc. mach.
  set (h := crc / 256). set (l := crc mod 256).
  assert (0 <= h < 256) as Hh by (unfold h; div_mod_lia).
  assert (0 <= l < 256) as Hl by (unfold l; div_mod_lia).
  rewrite Z.shiftr_div_pow2 by lia. change (crc / 2 ^ 8) with h.
  assert (0 <= Z.lxor h (b2z c) < 256) as Hi by (apply lxor_byte; lia).
  change 255 with (Z.ones 8). rewrite Z.land_ones, Z.mod_small by lia.
  assert (crc = Z.lxor (Z.shiftl h 8) l) as E.
  { rewrite lxor_disjoint by lia. rewrite Z.shiftl_mul_pow2 by lia. unfold h, l. div_mod_lia. }
  assert (Z.lxor crc (Z.shiftl (b2z c) 8) = Z.lxor (Z.shiftl (Z.lxor h (b2z c)) 8) l) as ->.
  { rewrite E, Z.shiftl_lxor, !Z.lxor_assoc. f_equal. apply Z.lxor_comm. }
  rewrite crc16_bits_lxor. destruct (crc16_table_ok _ Hi) as [<- _]. destruct (crc16_table_ok l Hl) as [_ ->].
  rewrite u16_lxor, Z.lxor_comm. f_equal.
  - rewrite u16_id; [done|]. apply crc16_bit_range.
  - rewrite !Z.shiftl_mul_pow2 by lia. unfold u16, l. change (2 ^ 16) with (256 * 2 ^ 8).
    by rewrite Zmult_mod_distr_r.
Qed.

Lemma CRC16_XMODEM_ref buf : CRC16_XMODEM buf = crc16_ref buf.
Proof.
  unfold CRC16_XMODEM, crc16_ref. assert (is_u16 0) as H by (mach; lia). revert H. generalize 0.
  induction buf as [|c buf IH]; intros crc H; cbn [foldl]; [done|].
  rewrite crc16_byte_ref by done. apply IH. apply crc16_bit_range.
Qed.

(** ** Hash tags *)

Lemma find_char_app c a b : c ∉ a -> find_char c (a ++ c :: b) = length a.
Proof.
  induction a as [|x a IH]; intros H; cbn.
  - by rewrite bool_decide_true.
  - apply not_elem_of_cons in H as [Hx Ha]. rewrite bool_decide_false by congruence. f_equal. by apply IH.
Qed.

Lemma find_char_cases c l :
  ((c ∉ l) /\ find_char c l = length l) \/ exists a b, l = a ++ c :: b /\ (c ∉ a) /\ find_char c l = length a.
Proof.
  induction l as [|x l IH]; cbn; [left; split; [set_solver|done]|].
  case_bool_decide as Hx.
  - subst x. right. exists [], l. split_and!; [done|set_solver|done].
  - destruct IH as [[Hn ->]|(a & b & -> & Hn & ->)].
    + left. split; [|done]. rewrite not_elem_of_cons. split; [congruence|done].
    + right. exists (x :: a), b. split_and!; [done| |done]. rewrite not_elem_of_cons. split; [congruence|done].
Qed.

Lemma drop_mid {A} (a b : list A) x : drop (length a + 1) (a ++ x :: b) = b.
Proof. by rewrite drop_app_add. Qed.

(** The text between the first brace and the next closing one. *)
Definition has_tag (key tag : bytes) : Prop :=
  exists a b, key = a ++ ch_lbrace :: tag ++ ch_rbrace :: b
              /\ (ch_lbrace ∉ a) /\ (ch_rbrace ∉ tag) /\ tag <> [].

Lemma key_Hash_tag key tag : has_tag key tag -> key_Hash key = CRC16_XMODEM tag.
Proof.
  intros (a & b & -> & Ha & Ht & Hne). unfold key_Hash. rewrite find_char_app by done.
  rewrite drop_mid, find_char_app by done.
  rewrite decide_False by (rewrite length_app; cbn; lia).
  rewrite decide_False by (rewrite !length_app; cbn; rewrite length_app; cbn; destruct tag; [done|cbn; lia]).
  replace (length a + 1 + length tag - length a - 1)%nat with (length tag) by lia.
  by rewrite take_app_length.
Qed.

Lemma key_Hash_whole key : (forall tag, ~ has_tag key tag) -> key_Hash key = CRC16_XMODEM key.
Proof.
  intros H. unfold key_Hash. case_decide as Hs; [done|].
  destruct (find_char_cases ch_lbrace key) as [[_ E]|(a & b & -> & Ha & E)]; [done|].
  rewrite E, drop_mid in *.
  destruct (find_char_cases ch_rbrace b) as [[_ Eb]|(tag & b' & -> & Ht & Eb)]; rewrite Eb.
  - rewrite decide_True; [done|]. left. rewrite length_app. cbn. lia.
  - destruct tag as [|x tag].
    + rewrite decide_True; [done|]. right. cbn. lia.
    + exfalso. apply (H (x :: tag)). exists a, b'. done.
Qed.

(** ** Order *)

Lemma key_lt_irrefl a : key_lt a a = false.
Proof. destruct a; cbn; [done..|]. apply bytes_ltb_irrefl. Qed.

Lemma key_lt_trans a b c : key_lt a b = true -> key_lt b c = true -> key_lt a c = true.
Proof. destruct a, b, c; cbn; try done. apply bytes_ltb_trans. Qed.

Lemma key_lt_total a b : key_eq a b = negb (key_lt a b) && negb (key_lt b a).
Proof.
  destruct a as [| |a], b as [| |b]; cbn; try done. unfold es_eqb. case_bool_decide as E.
  - by rewrite E, bytes_ltb_irrefl.
  - destruct (bytes_ltb (es_view a) (es_view b)) eqn:E1; [done|].
    destruct (bytes_ltb (es_view b) (es_view a)) eqn:E2; [done|]. by apply bytes_ltb_total in E1.
Qed.

(** ** Prefix ranges *)

Lemma increase_cons x p :
  increase (x :: p) = match increase p with
                      | Some n => Some (x :: n)
                      | None => if b2z x =? 255 then None else Some [z2b (b2z x + 1)]
                      end.
Proof.
  unfold increase. rewrite reverse_cons. generalize (reverse p). intros r.
  assert (increase_rev (r ++ [x]) = match increase_rev r with
    | Some n => Some (n ++ [x]) | None => if b2z x =? 255 then None else Some [z2b (b2z x + 1)] end) as ->.
  { induction r as [|c r IH]; cbn; [by destruct (b2z x =? 255)|]. by destruct (b2z c =? 255). }
  destruct (increase_rev r) as [n|]; [by rewrite reverse_snoc|]. by destruct (b2z x =? 255).
Qed.

(** From the prefix on and before the increased one lie exactly the strings
    that begin with the prefix. *)
Lemma increase_range p k :
  negb (bytes_ltb k p) && match increase p with Some n => bytes_ltb k n | None => true end
  = bool_decide (p `prefix_of` k).
Proof.
  revert k. induction p as [|x p IH]; intros k.
  { rewrite bool_decide_true by apply prefix_nil. by destruct k. }
  destruct k as [|y k]; [cbn [bytes_ltb negb andb]; by rewrite bool_decide_false by apply prefix_nil_not|].
  rewrite increase_cons. pose proof (b2z_range x). pose proof (b2z_range y).
  destruct (decide (x = y)) as [<-|Hne].
  - cbn [bytes_ltb]. rewrite Z.ltb_irrefl.
    assert (bool_decide (x :: p `prefix_of` x :: k) = bool_decide (p `prefix_of` k)) as ->
      by (apply bool_decide_ext; split; [apply prefix_cons_inv_2|apply prefix_cons]).
    rewrite <-IH. f_equal. destruct (increase p) as [n|]; cbn [bytes_ltb]; [by rewrite Z.ltb_irrefl|].
    destruct (Z.eqb_spec (b2z x) 255); [done|]. cbn [bytes_ltb]. rewrite b2z_z2b, Z.mod_small by lia.
    by rewrite (proj2 (Z.ltb_lt _ _)) by lia.
  - rewrite (bool_decide_false (x :: p `prefix_of` y :: k)) by (intros E%prefix_cons_inv_1; done).
    assert (b2z x <> b2z y) by (intros E%b2z_inj; done). cbn [bytes_ltb].
    destruct (Z.ltb_spec (b2z y) (b2z x)); [done|]. rewrite (proj2 (Z.ltb_lt (b2z x) (b2z y))) by lia. cbn [negb andb].
    destruct (increase p) as [n|]; cbn [bytes_ltb].
    + by rewrite (proj2 (Z.ltb_ge (b2z y) (b2z x))), (proj2 (Z.ltb_lt (b2z x) (b2z y))) by lia.
    + destruct (Z.eqb_spec (b2z x) 255); [lia|]. cbn [bytes_ltb]. rewrite b2z_z2b, Z.mod_small by lia.
      rewrite (proj2 (Z.ltb_ge (b2z y) (b2z x + 1))) by lia. destruct (b2z x + 1 <? b2z y); [done|]. by destruct k.
Qed.

Lemma increase_some p x : x ∈ p -> b2z x <> 255 -> is_Some (increase p).
Proof.
  intros Hin Hx. induction p as [|y p IH]; [set_solver|]. rewrite increase_cons.
  destruct (increase p) as [n|] eqn:E; [by eexists|]. apply elem_of_cons in Hin as [-> | Hin].
  - rewrite (proj2 (Z.eqb_neq _ _)) by done. by eexists.
  - destruct (IH Hin). done.
Qed.

(** ** Namespaces *)

Definition ns_id_ok (id : bytes) : Prop := id <> [] /\ B255_DELIMITER ∉ id.

Lemma b255e_ns_id id : is_u64 id -> ns_id_ok (b255e id).
Proof.
  intros H. split; [by apply b255e_nonempty|]. destruct (b255e_spec id H) as (_ & _ & Hf).
  rewrite list.Forall_forall in Hf. intros Hin. by apply (Hf _ Hin).
Qed.

Lemma Parse_prefix id epoch key :
  ns_id_ok id -> is_u64 epoch -> Parse (MakePrefix id epoch ++ key) = Some (id, epoch, key).
Proof.
  intros [Hne Hid] He. unfold MakePrefix. rewrite <-!app_assoc. cbn [app].
  destruct (b255e_ns_id epoch He) as [Hen Hed]. unfold Parse.
  rewrite find_char_app by done. rewrite drop_mid, find_char_app by done.
  rewrite decide_False by (rewrite length_app; destruct id; [done|cbn; lia]).
  rewrite decide_False by (rewrite length_app; destruct (b255e epoch); [done|cbn; lia]).
  by rewrite take_app_length, b255d_b255e, drop_mid, take_app_length.
Qed.

Lemma MakePrefix_inj id1 e1 k1 id2 e2 k2 :
  ns_id_ok id1 -> is_u64 e1 -> ns_id_ok id2 -> is_u64 e2 ->
  MakePrefix id1 e1 ++ k1 = MakePrefix id2 e2 ++ k2 -> id1 = id2 /\ e1 = e2 /\ k1 = k2.
Proof.
  intros H1 He1 H2 He2 E%(f_equal Parse). rewrite !Parse_prefix in E by done. by injection E.
Qed.

Lemma MakePrefix_not_default id epoch : no_namespace (MakePrefix id epoch) = false.
Proof.
  unfold no_namespace, MakePrefix. apply orb_false_iff. split.
  - apply Nat.eqb_neq. rewrite length_app. cbn. lia.
  - apply bool_decide_eq_false. intros E%(f_equal reverse). rewrite !app_assoc, reverse_snoc in E. done.
Qed.

Lemma MakePrefixNext_some id epoch : increase (MakePrefix id epoch) = Some (MakePrefixNext (MakePrefix id epoch)).
Proof.
  destruct (increase_some (MakePrefix id epoch) B255_DELIMITER) as [n E].
  - unfold MakePrefix. rewrite !elem_of_app. set_solver.
  - done.
  - unfold MakePrefixNext. rewrite E. cbn [default].
    rewrite (proj2 (Nat.eqb_neq _ _)); [done|]. unfold MakePrefix. rewrite length_app. cbn. lia.
Qed.

(** Keys short enough for the length field of a string. *)
Lemma key_Raw_small d : fits d -> key_Raw d = Key (es_own d).
Proof. intros H. unfold key_Raw. by rewrite es_of_data_own. Qed.

(** The scan from a prefix to its successor returns the keys under it. *)
Lemma prefix_scan id epoch k :
  fits (MakePrefix id epoch) -> fits (MakePrefixNext (MakePrefix id epoch)) ->
  range_has (key_Raw (MakePrefix id epoch), true, key_Raw (MakePrefixNext (MakePrefix id epoch))) (Key (es_own k))
  = bool_decide (MakePrefix id epoch `prefix_of` k).
Proof.
  intros H1 H2. rewrite <-increase_range, MakePrefixNext_some. cbn [range_has].
  rewrite !key_Raw_small by done. unfold key_le. rewrite key_lt_total. cbn [key_lt es_view es_own].
  destruct (bytes_ltb (MakePrefix id epoch) k) eqn:E; cbn [orb andb negb]; [|done].
  destruct (bytes_ltb k (MakePrefix id epoch)) eqn:E2; [|done].
  by pose proof (bytes_ltb_trans _ _ _ E E2) as E3; rewrite bytes_ltb_irrefl in E3.
Qed.

(** ** Scans *)

(** A character that stands for itself in a pattern. *)
Definition plain (c : byte) : Prop :=
  c <> ch_star /\ c <> ch_any /\ c <> ch_open /\ c <> ch_escape.

Lemma tokenize_plain p l : Forall plain p -> tokenize (p ++ l) = (TChar <$> p) ++ tokenize l.
Proof.
  induction 1 as [|c p (H1 & H2 & H3 & H4) _ IH]; [done|].
  cbn [app fmap list_fmap]. rewrite tokenize_cons. unfold next_tok.
  rewrite !decide_False by done. destruct (decide (c = ch_escape)); [done|]. cbn [fst snd]. by rewrite IH.
Qed.

Lemma glob_plain p ts s : glob false ((TChar <$> p) ++ ts) s = true -> p `prefix_of` s.
Proof.
  revert s. induction p as [|c p IH]; intros s; [intros _; apply prefix_nil|].
  cbn [app fmap list_fmap glob]. destruct s as [|x s]; [done|]. rewrite andb_true_iff.
  cbn [tok_match]. unfold char_eq. rewrite bool_decide_eq_true. intros [-> H]. by apply prefix_cons, IH.
Qed.

Lemma scan_prefix_spec pattern p :
  scan_prefix pattern = Some p -> exists l, pattern = p ++ ch_star :: l /\ p <> [].
Proof.
  unfold scan_prefix. case_decide as Hd; [|done]. intros [= <-].
  destruct (find_char_cases ch_star pattern) as [[_ E]|(a & b & -> & Ha & E)]; [tauto|].
  rewrite E in *. exists b. rewrite take_app_length. split; [done|]. intros ->. by destruct Hd.
Qed.

Lemma increase_app p q n : increase q = Some n -> increase (p ++ q) = Some (p ++ n).
Proof. intros H. induction p as [|x p IH]; cbn [app]; [done|]. by rewrite increase_cons, IH. Qed.

Lemma bytes_le_prefix p k : p `prefix_of` k -> bytes_ltb k p = false.
Proof.
  intros H. pose proof (increase_range p k) as E. rewrite bool_decide_true in E by done.
  by destruct (bytes_ltb k p).
Qed.

(** Membership in a range with byte-string bounds. *)
Lemma range_has_raw a b k :
  fits a -> fits b ->
  range_has (key_Raw a, true, key_Raw b) (Key (es_own k)) = negb (bytes_ltb k a) && bytes_ltb k b.
Proof.
  intros Ha Hb. cbn [range_has]. rewrite !key_Raw_small by done. unfold key_le.
  rewrite key_lt_total. cbn [key_lt es_view es_own].
  destruct (bytes_ltb a k) eqn:E; cbn [orb andb negb]; [|done].
  destruct (bytes_ltb k a) eqn:E2; [|done].
  by pose proof (bytes_ltb_trans _ _ _ E E2) as E3; rewrite bytes_ltb_irrefl in E3.
Qed.

Lemma fits_app a b : fits (a ++ b) -> fits a.
Proof. unfold fits. rewrite zlen_app. pose proof (zlen_nonneg a). pose proof (zlen_nonneg b). mach. lia. Qed.

Lemma increase_length p n : increase p = Some n -> (length n <= length p)%nat.
Proof.
  revert n. induction p as [|x p IH]; intros n; [done|]. rewrite increase_cons.
  destruct (increase p) as [m|]; [intros [= <-]; specialize (IH m eq_refl); cbn; lia|].
  destruct (b2z x =? 255); [done|]. intros [= <-]. cbn. lia.
Qed.

Lemma fits_increase a p n : increase p = Some n -> fits (a ++ p) -> fits (a ++ n).
Proof.
  intros H%increase_length. unfold fits. rewrite !zlen_app. unfold zlen. mach. lia.
Qed.

(** The bounds of a scan inside a namespace. *)
Lemma scan_range_ns id epoch pattern :
  let ns := MakePrefix id epoch in
  scan_range ns pattern
  = match scan_prefix pattern with
    | Some p => (key_Raw (ns ++ p), true,
                 key_Raw (match increase p with Some n => ns ++ n | None => MakePrefixNext ns end))
    | None => (key_Raw ns, true, key_Raw (MakePrefixNext ns))
    end.
Proof.
  intros ns. unfold scan_range, ComposeNamespaceKey, ComposeNamespaceKeyNext.
  rewrite (proj2 (Nat.eqb_neq _ _)) by (unfold ns, MakePrefix; rewrite length_app; cbn; lia).
  unfold ns. rewrite MakePrefix_not_default. cbn [negb]. rewrite app_nil_r.
  destruct (scan_prefix pattern) as [p|]; [|done]. by destruct (increase p).
Qed.

Lemma fits_next id epoch : fits (MakePrefix id epoch) -> fits (MakePrefixNext (MakePrefix id epoch)).
Proof.
  intros H. apply (fits_increase [] (MakePrefix id epoch)); [apply MakePrefixNext_some|done].
Qed.

Lemma bytes_lt_le_trans a b c : bytes_ltb a b = true -> bytes_ltb c b = false -> bytes_ltb a c = true.
Proof.
  intros H1 H2. destruct (bytes_ltb b c) eqn:E; [by eapply bytes_ltb_trans|].
  by rewrite (bytes_ltb_total c b) by done.
Qed.

(** A scan never leaves the namespace. *)
Lemma scan_range_isolated id epoch pattern k :
  let ns := MakePrefix id epoch in
  fits (ns ++ pattern) ->
  range_has (scan_range ns pattern) (Key (es_own k)) = true -> ns `prefix_of` k.
Proof.
  intros ns Hf. unfold ns. rewrite scan_range_ns. fold ns. pose proof (fits_app _ _ Hf) as Hns.
  pose proof (fits_next id epoch Hns) as Hnx. fold ns in Hnx.
  pose proof (MakePrefixNext_some id epoch) as Hinc. fold ns in Hinc.
  pose proof (increase_range ns k) as Hr. rewrite Hinc in Hr.
  destruct (scan_prefix pattern) as [p|] eqn:Ep; last first.
  { rewrite range_has_raw, Hr by done. apply bool_decide_eq_true. }
  destruct (scan_prefix_spec _ _ Ep) as (l & -> & _). rewrite app_assoc in Hf. pose proof (fits_app _ _ Hf) as Hp.
  destruct (increase p) as [n|] eqn:Ei.
  - rewrite range_has_raw; [|done|by eapply fits_increase].
    pose proof (increase_range (ns ++ p) k) as Hr2. rewrite (increase_app ns p n Ei) in Hr2.
    rewrite Hr2, bool_decide_eq_true. intros [t ->]. exists (p ++ t). by rewrite app_assoc.
  - rewrite range_has_raw, andb_true_iff, negb_true_iff by done. intros [H1 H2].
    rewrite H2, andb_true_r in Hr. symmetry in Hr.
    destruct (bytes_ltb k ns) eqn:E; [|by apply bool_decide_eq_true in Hr].
    assert (bytes_ltb (ns ++ p) ns = false) as E2 by (apply bytes_le_prefix, prefix_app_r; done).
    by rewrite (bytes_lt_le_trans k ns (ns ++ p)) in H1.
Qed.

(** A scan reaches every key the pattern matches, when the pattern has only
    plain characters in front of its first star. *)
Lemma scan_range_complete id epoch pattern k :
  let ns := MakePrefix id epoch in
  fits (ns ++ pattern) ->
  (forall p, scan_prefix pattern = Some p -> Forall plain p) ->
  glob false (tokenize pattern) k = true ->
  range_has (scan_range ns pattern) (Key (es_own (ns ++ k))) = true.
Proof.
  intros ns Hf Hpl Hm. unfold ns. rewrite scan_range_ns. fold ns. pose proof (fits_app _ _ Hf) as Hns.
  pose proof (fits_next id epoch Hns) as Hnx. fold ns in Hnx.
  pose proof (MakePrefixNext_some id epoch) as Hinc. fold ns in Hinc.
  assert (ns `prefix_of` ns ++ k) as Hpre by (by apply prefix_app_r).
  pose proof (increase_range ns (ns ++ k)) as Hr. rewrite Hinc, bool_decide_true in Hr by done.
  destruct (scan_prefix pattern) as [p|] eqn:Ep; [|by rewrite range_has_raw].
  destruct (scan_prefix_spec _ _ Ep) as (l & -> & _). specialize (Hpl p eq_refl).
  rewrite tokenize_plain in Hm by done. apply glob_plain in Hm.
  assert (ns ++ p `prefix_of` ns ++ k) as Hpk by (by apply prefix_app).
  rewrite app_assoc in Hf. pose proof (fits_app _ _ Hf) as Hp.
  destruct (increase p) as [n|] eqn:Ei.
  - rewrite range_has_raw; [|done|by eapply fits_increase].
    pose proof (increase_range (ns ++ p) (ns ++ k)) as Hr2. rewrite (increase_app ns p n Ei) in Hr2.
    by rewrite Hr2, bool_decide_true.
  - rewrite range_has_raw, (bytes_le_prefix _ _ Hpk) by done. by apply andb_true_iff in Hr as [_ ->].
Qed.

(** ** Images *)

Lemma key_Serialize_small key : zlen key < 2 ^ 16 -> key_Serialize_str key [] = le_bytes 2 (zlen key) ++ key.
Proof.
  intros H. unfold key_Serialize_str. rewrite u16_id by (pose proof (zlen_nonneg key); mach; lia).
  by rewrite take_zlen.
Qed.

Lemma Reads_key {A} (f : bytes -> A) key :
  zlen key < 2 ^ 16 ->
  Reads (len_val <-- read_le 2; d <-- read_bytes len_val; rret (f d)) (le_bytes 2 (zlen key) ++ key) (f key).
Proof.
  intros H. pose proof (zlen_nonneg key).
  eapply Reads_bind; [apply Reads_le; apply Z.mod_small; change (256 ^ Z.of_nat 2) with (2 ^ 16); lia|].
  eapply Reads_bind_ret; [by apply Reads_bytes|done].
Qed.

(** ** Properties *)

(** C30: the table-driven routine computes CRC-16/XMODEM, of the first non-empty
    hash tag of a key that has one and of the whole key otherwise, so that keys
    with the same tag share their slot. *)
Theorem key_slot key :
  (forall tag, has_tag key tag -> key_Hash key = crc16_ref tag)
  /\ ((forall tag, ~ has_tag key tag) -> key_Hash key = crc16_ref key).
Proof.
  rewrite <-CRC16_XMODEM_ref. split; [|apply key_Hash_whole].
  intros tag H. rewrite <-CRC16_XMODEM_ref. by apply key_Hash_tag.
Qed.

Lemma key_slot_witness : key_Hash (lit "{user1000}.following") = crc16_ref (lit "user1000").
Proof.
  apply (proj1 (key_slot (lit "{user1000}.following")) (lit "user1000")).
  exists [], (lit ".following"). split_and!; [reflexivity| | |discriminate];
    by apply (bool_decide_unpack _); vm_compute.
Defined.

(** [operator<] orders the keys, the two infinities included, strictly and
    totally, and [operator==] holds exactly when neither key is smaller. *)
Theorem key_order a b c :
  key_lt a a = false
  /\ (key_lt a b = true -> key_lt b c = true -> key_lt a c = true)
  /\ key_eq a b = negb (key_lt a b) && negb (key_lt b a).
Proof. split_and!; [apply key_lt_irrefl|apply key_lt_trans|apply key_lt_total]. Qed.

Lemma key_order_witness : key_lt NegativeInfinity (key_Raw (lit "b")) = true.
Proof.
  exact (proj1 (proj2 (key_order NegativeInfinity (key_Raw (lit "a")) (key_Raw (lit "b")))) eq_refl eq_refl).
Defined.

(** a key of at most 65535 bytes is read back from its image, by both
    serializers, and its slot is computed from the image. *)
Theorem key_image_roundtrip key :
  zlen key < 2 ^ 16 ->
  image_law (2 + zlen key) (key_Serialize_str key []) (key_Serialize_vec key) key_Deserialize (es_own key)
  /\ Reads HashFromSerializedKey (key_Serialize_str key []) (key_Hash key).
Proof.
  intros H. rewrite key_Serialize_small by done. split; [split|].
  - zlen. lia.
  - by apply Reads_key.
  - intros buf off Hoff. unfold key_Serialize_vec. rewrite u16_id by (pose proof (zlen_nonneg key); mach; lia).
    replace (off + 2 + Z.to_nat (zlen key))%nat with (off + length (le_bytes 2 (zlen key) ++ key))%nat
      by (rewrite length_app, le_bytes_length; unfold zlen; lia).
    apply vresize_write; [|done]. apply Writes_seq; apply Writes_put.
  - by apply (Reads_key key_Hash).
Qed.

Lemma key_image_roundtrip_witness :
  image_law 5 (key_Serialize_str (lit "abc") []) (key_Serialize_vec (lit "abc")) key_Deserialize (es_own (lit "abc"))
  /\ Reads HashFromSerializedKey (key_Serialize_str (lit "abc") []) (key_Hash (lit "abc")).
Proof. exact (key_image_roundtrip (lit "abc") ltac:(concrete)). Defined.

(** the length field is 16 bits wide while keys of up to 32 MB are
    accepted: appending to a key any multiple of 65536 bytes leaves its
    serialized image unchanged, and writing the longer key into a vector runs
    past the end of the vector. *)
Theorem key_image_collision key more :
  zlen key < 2 ^ 16 -> zlen more mod 2 ^ 16 = 0 -> more <> [] ->
  key_Serialize_str (key ++ more) [] = key_Serialize_str key []
  /\ key_Serialize_vec (key ++ more) [] 0 = None.
Proof.
  intros H Hm Hne. pose proof (zlen_nonneg key).
  assert (u16 (zlen (key ++ more)) = zlen key) as E.
  { unfold u16. rewrite zlen_app, Z.add_mod, Hm, Z.add_0_r, Z.mod_mod by lia. apply Z.mod_small. lia. }
  split.
  - rewrite (key_Serialize_small key) by done. unfold key_Serialize_str. rewrite E.
    unfold zlen at 2. rewrite Nat2Z.id, take_app_length. done.
  - unfold key_Serialize_vec. rewrite E. unfold vseq.
    destruct (Writes_put (le_bytes 2 (zlen key)) (vresize (0 + 2 + Z.to_nat (zlen key)) []) 0%nat)
      as (buf' & -> & Hb & _); [rewrite le_bytes_length, length_vresize; lia|].
    unfold vput, vcopy. rewrite decide_False; [done|]. rewrite Hb, length_vresize, le_bytes_length, length_app.
    unfold zlen. destruct more; [done|cbn; lia].
Qed.

Lemma key_image_collision_witness :
  let more := replicate (Z.to_nat (2 ^ 16)) Init.Byte.x00 in
  key_Serialize_str (lit "k" ++ more) [] = key_Serialize_str (lit "k") []
  /\ key_Serialize_vec (lit "k" ++ more) [] 0 = None.
Proof.
  apply (key_image_collision (lit "k") (replicate (Z.to_nat (2 ^ 16)) Init.Byte.x00)).
  - reflexivity.
  - unfold zlen. rewrite length_replicate. reflexivity.
  - intros E%(f_equal length). rewrite length_replicate in E. discriminate E.
Defined.

(** C32: the prefix of a namespace and an epoch is read back in front of any
    user key, so that keys of different namespaces or epochs never meet, and
    the keys between the prefix and its successor are exactly those under it. *)
Theorem namespace_prefix_sound id epoch key k :
  is_u64 id -> is_u64 epoch ->
  let ns := MakePrefix (b255e id) epoch in
  Parse (ComposeNamespaceKey ns key) = Some (b255e id, epoch, key)
  /\ (forall id' epoch' key', is_u64 id' -> is_u64 epoch' ->
        ComposeNamespaceKey ns key = ComposeNamespaceKey (MakePrefix (b255e id') epoch') key' ->
        id = id' /\ epoch = epoch' /\ key = key')
  /\ range_has (key_Raw ns, true, key_Raw (ComposeNamespaceKeyNext ns)) (Key (es_own k))
     = bool_decide (ns `prefix_of` k).
Proof.
  intros Hid He ns. unfold ComposeNamespaceKey, ComposeNamespaceKeyNext, ns.
  rewrite MakePrefix_not_default. pose proof (b255e_ns_id id Hid) as Hok.
  assert (fits (MakePrefix (b255e id) epoch)) as Hf.
  { destruct (b255e_spec id Hid) as (_ & Hl & _). destruct (b255e_spec epoch He) as (_ & Hl2 & _).
    unfold fits, MakePrefix, zlen. rewrite !length_app. cbn. mach. lia. }
  split_and!; [by apply Parse_prefix| |by apply prefix_scan, fits_next].
  intros id' epoch' key' Hid' He'. rewrite MakePrefix_not_default. intros E.
  apply MakePrefix_inj in E as (E1 & -> & ->); auto using b255e_ns_id.
  by apply b255e_inj in E1 as ->.
Qed.

Lemma namespace_prefix_sound_witness :
  let ns := MakePrefix (b255e 300) 2 in
  Parse (ComposeNamespaceKey ns (lit "k")) = Some (b255e 300, 2, lit "k")
  /\ range_has (key_Raw ns, true, key_Raw (ComposeNamespaceKeyNext ns)) (Key (es_own (ns ++ lit "a")))
     = bool_decide (ns `prefix_of` ns ++ lit "a").
Proof.
  destruct (namespace_prefix_sound 300 2 (lit "k") (MakePrefix (b255e 300) 2 ++ lit "a")
    ltac:(concrete) ltac:(concrete)) as (H1 & _ & H3).
  split; [exact H1|exact H3].
Defined.

(** C31: the range that SCAN and KEYS ask for inside a namespace never leaves
    it, and reaches every key that the pattern matches when only plain
    characters stand in front of the pattern's first star. *)
Theorem scan_range_sound id epoch pattern x more k :
  let ns := MakePrefix id epoch in
  fits (ns ++ pattern) -> pattern <> [] -> x <> ch_star -> x <> ch_close -> x <> ch_caret ->
  (range_has (scan_range ns pattern) (Key (es_own k)) = true ->
     ns `prefix_of` k /\ ns ++ user_key ns k = k)
  /\ ((forall p, scan_prefix pattern = Some p -> Forall plain p) ->
      stringmatchlen pattern (x :: more) k false = Some true ->
      range_has (scan_range ns pattern) (Key (es_own (ns ++ k))) = true).
Proof.
  intros ns Hf Hp Hx1 Hx2 Hx3. split.
  - intros H. pose proof (scan_range_isolated id epoch pattern k Hf H) as [t ->]. fold ns. split; [by exists t|].
    unfold user_key. rewrite take_app_length, drop_app_length, bool_decide_true by done.
    rewrite (proj2 (Nat.eqb_neq _ _)) by (unfold ns, MakePrefix; rewrite length_app; cbn; lia).
    by rewrite (proj2 (Nat.leb_le _ _)) by (rewrite length_app; lia).
  - intros Hpl. rewrite stringmatchlen_glob by done. intros [= Hm]. by apply scan_range_complete.
Qed.

Lemma scan_range_sound_witness :
  let ns := MakePrefix (b255e 3) 1 in
  stringmatchlen (lit "us*") [Init.Byte.x00] (lit "user") false = Some true
  /\ range_has (scan_range ns (lit "us*")) (Key (es_own (ns ++ lit "user"))) = true.
Proof.
  split; [reflexivity|].
  apply (scan_range_sound (b255e 3) 1 (lit "us*") Init.Byte.x00 [] (lit "user")); try concrete.
  intros p [= <-]. concrete.
Defined.

(** the part of the pattern before its first star bounds the range even
    when it is not literal: KEYS h?llo* matches "hello" but its range does not
    contain it. *)
Theorem scan_range_misses_matches :
  stringmatchlen (lit "h?llo*") [Init.Byte.x00] (lit "hello") false = Some true
  /\ range_has (scan_range [] (lit "h?llo*")) (Key (es_own (lit "hello"))) = false
  /\ stringmatchlen (lit "h[ae]llo*") [Init.Byte.x00] (lit "hello") false = Some true
  /\ range_has (scan_range [] (lit "h[ae]llo*")) (Key (es_own (lit "hello"))) = false.
Proof. vm_compute. auto. Qed.

(** KEYS puts the namespace prefix, unescaped, in front of the pattern: in
    the namespace with number 90, whose spelling is an opening bracket, the
    pattern that matches everything matches no key. *)
Theorem keys_prefix_unescaped key :
  let ns := MakePrefix (b255e 90) 1 in
  key_IsMatch (ComposeNamespaceKey ns key) (ComposeNamespaceKey ns [ch_star]) [Init.Byte.x00] = Some false.
Proof.
  intros ns. unfold ComposeNamespaceKey, ns. rewrite MakePrefix_not_default. unfold key_IsMatch.
  rewrite (proj2 (Nat.eqb_neq _ _)) by done. by rewrite stringmatchlen_glob.
Qed.
