(* ===== verification/Double.v ===== *)
(** * Doubles

    A [double] is its 64 bits.  Comparison and addition are those of IEEE 754
    binary64 as specified by the Standard Library's [SpecFloat]; the bits are
    taken apart and put together around them.  On bits that are no NaN the
    comparisons are those of the integers [dkey], which is what the order of
    sorted sets rests on.  [d2string] of include/redis_string_num.h is here too;
    the digits of finite numbers come from the vendored fpconv, an argument. *)

From Stdlib Require Import Floats.SpecFloat.
From S2P Require Import Prelude Codec Encoding.

(** ** Bits *)

Definition dbl_sign (b : Z) : bool := Z.testbit b 63.
Definition dbl_exponent (b : Z) : Z := Z.shiftr b 52 mod 2 ^ 11.
Definition dbl_fraction (b : Z) : Z := b mod 2 ^ 52.

Definition dbl_sf (b : Z) : spec_float :=
  let s := dbl_sign b in
  let e := dbl_exponent b in
  let f := dbl_fraction b in
  if e =? 2047 then (if f =? 0 then S754_infinity s else S754_nan)
  else match if e =? 0 then f else 2 ^ 52 + f with
       | Zpos m => S754_finite s m (Z.max e 1 - 1075)
       | _ => S754_zero s
       end.

Definition sign_bit (s : bool) : Z := if s then 2 ^ 63 else 0.

(** The NaN of an x86 processor. *)
Definition dbl_nan : Z := 0xFFF8000000000000.
Definition dbl_inf : Z := 0x7FF0000000000000.
Definition dbl_ninf : Z := 0xFFF0000000000000.

Definition sf_dbl (f : spec_float) : Z :=
  match f with
  | S754_zero s => sign_bit s
  | S754_infinity s => sign_bit s + dbl_inf
  | S754_nan => dbl_nan
  | S754_finite s m e =>
      sign_bit s + (if Zpos m <? 2 ^ 52 then Zpos m else (e + 1075) * 2 ^ 52 + (Zpos m - 2 ^ 52))
  end.

Definition dbl_isnan (b : Z) : bool := match dbl_sf b with S754_nan => true | _ => false end.
Definition dbl_isinf (b : Z) : bool := match dbl_sf b with S754_infinity _ => true | _ => false end.
Definition dbl_ltb (a b : Z) : bool := SFltb (dbl_sf a) (dbl_sf b).
Definition dbl_leb (a b : Z) : bool := SFleb (dbl_sf a) (dbl_sf b).
Definition dbl_eqb (a b : Z) : bool := SFeqb (dbl_sf a) (dbl_sf b).
Definition dbl_add (a b : Z) : Z := sf_dbl (SFadd 53 1024 (dbl_sf a) (dbl_sf b)).

(** [d2string], with the decimal digits of finite numbers as an argument. *)
Definition d2string (fpconv_dtoa : Z -> bytes) (value : Z) : bytes :=
  if dbl_isnan value then lit "nan"
  else if dbl_isinf value then (if dbl_ltb value 0 then lit "-inf" else lit "inf")
  else if dbl_eqb value 0 then lit "0"
  else fpconv_dtoa value.

(** ** The order *)

(** A number that is no NaN. *)
Definition is_num (b : Z) : Prop := is_u64 b /\ dbl_isnan b = false.

#[global] Instance is_num_dec b : Decision (is_num b).
Proof. apply and_dec; [apply and_dec; apply Z_le_dec || apply Z_lt_dec|apply bool_eq_dec]. Defined.

Definition dkey (b : Z) : Z := if dbl_sign b then - (b mod 2 ^ 63) else b mod 2 ^ 63.

Lemma dbl_parts b : is_u64 b ->
  b = sign_bit (dbl_sign b) + (dbl_exponent b * 2 ^ 52 + dbl_fraction b)
  /\ 0 <= dbl_exponent b < 2048 /\ 0 <= dbl_fraction b < 2 ^ 52.
Proof.
  intros Hb. unfold is_u64 in Hb. unfold dbl_sign, dbl_exponent, dbl_fraction, sign_bit.
  rewrite Z.shiftr_div_pow2 by lia.
  pose proof (Z.mod_pos_bound (b / 2 ^ 52) (2 ^ 11) ltac:(lia)). pose proof (Z.mod_pos_bound b (2 ^ 52) ltac:(lia)).
  split_and!; try lia.
  rewrite Z.testbit_eqb by lia. replace (b / 2 ^ 63) with (b / 2 ^ 52 / 2 ^ 11) by (rewrite Z.div_div by lia; done).
  pose proof (Z.div_mod b (2 ^ 52) ltac:(lia)). pose proof (Z.div_mod (b / 2 ^ 52) (2 ^ 11) ltac:(lia)).
  assert (0 <= b / 2 ^ 52 / 2 ^ 11 < 2)
    by (rewrite Z.div_div by lia; split; [apply Z.div_pos; lia|apply Z.div_lt_upper_bound; lia]).
  rewrite (Z.mod_small (b / 2 ^ 52 / 2 ^ 11)) by lia.
  destruct (b / 2 ^ 52 / 2 ^ 11 =? 1) eqn:E; [apply Z.eqb_eq in E|apply Z.eqb_neq in E]; lia.
Qed.

Lemma dkey_parts b : is_u64 b ->
  dkey b = let M := dbl_exponent b * 2 ^ 52 + dbl_fraction b in if dbl_sign b then - M else M.
Proof.
  intros Hb. destruct (dbl_parts b Hb) as (E & He & Hf). unfold dkey. cbn zeta.
  assert (b mod 2 ^ 63 = dbl_exponent b * 2 ^ 52 + dbl_fraction b) as ->; [|done].
  rewrite E at 1. unfold sign_bit. destruct (dbl_sign b).
  - rewrite Z.add_comm, <-(Z.mul_1_l (2 ^ 63)) at 1. rewrite Z.mod_add by lia. apply Z.mod_small. lia.
  - rewrite Z.add_0_l. apply Z.mod_small. lia.
Qed.

(** The magnitude of a number, as an integer and as a float. *)
Definition mag_sf (s : bool) (e f : Z) : spec_float :=
  if e =? 2047 then S754_infinity s
  else match if e =? 0 then f else 2 ^ 52 + f with
       | Zpos m => S754_finite s m (Z.max e 1 - 1075)
       | _ => S754_zero s
       end.

Lemma dbl_sf_num b : is_num b -> dbl_sf b = mag_sf (dbl_sign b) (dbl_exponent b) (dbl_fraction b)
  /\ (dbl_exponent b = 2047 -> dbl_fraction b = 0).
Proof.
  intros [_ Hn]. unfold dbl_isnan, dbl_sf, mag_sf in *. destruct (dbl_exponent b =? 2047) eqn:E.
  - destruct (dbl_fraction b =? 0) eqn:F; [|done]. split; [done|]. intros _. by apply Z.eqb_eq.
  - split; [done|]. intros H. by apply Z.eqb_neq in E.
Qed.

Lemma mag_compare e1 f1 e2 f2 m1 m2 :
  0 <= e1 -> 0 <= f1 < 2 ^ 52 -> 0 <= e2 -> 0 <= f2 < 2 ^ 52 ->
  (if e1 =? 0 then f1 else 2 ^ 52 + f1) = Zpos m1 -> (if e2 =? 0 then f2 else 2 ^ 52 + f2) = Zpos m2 ->
  match Z.max e1 1 - 1075 ?= Z.max e2 1 - 1075 with Lt => Lt | Gt => Gt | Eq => Pos.compare_cont Eq m1 m2 end
  = (e1 * 2 ^ 52 + f1 ?= e2 * 2 ^ 52 + f2).
Proof.
  intros He1 Hf1 He2 Hf2 E1 E2. change (Pos.compare_cont Eq m1 m2) with (Zpos m1 ?= Zpos m2).
  rewrite <- E1, <- E2. symmetry.
  destruct (Z.compare_spec (Z.max e1 1 - 1075) (Z.max e2 1 - 1075));
    destruct (e1 =? 0) eqn:Z1; destruct (e2 =? 0) eqn:Z2;
    rewrite ?Z.eqb_eq, ?Z.eqb_neq in Z1, Z2; subst;
    try (apply Z.compare_lt_iff; lia); try (apply Z.compare_gt_iff; lia); try lia;
    match goal with |- _ = (?a ?= ?b) => destruct (Z.compare_spec a b) end;
    try (apply Z.compare_eq_iff; lia); try (apply Z.compare_lt_iff; lia); try (apply Z.compare_gt_iff; lia).
Qed.

(** The three shapes of a number. *)
Lemma mag_sf_cases s e f : 0 <= e < 2048 -> 0 <= f < 2 ^ 52 -> (e = 2047 -> f = 0) ->
  (mag_sf s e f = S754_infinity s /\ e * 2 ^ 52 + f = 2047 * 2 ^ 52)
  \/ (mag_sf s e f = S754_zero s /\ e * 2 ^ 52 + f = 0)
  \/ exists m, mag_sf s e f = S754_finite s m (Z.max e 1 - 1075) /\ (if e =? 0 then f else 2 ^ 52 + f) = Zpos m
       /\ 0 < e * 2 ^ 52 + f < 2047 * 2 ^ 52.
Proof.
  intros He Hf Hi. unfold mag_sf. destruct (e =? 2047) eqn:E; [left; apply Z.eqb_eq in E; split; [done|rewrite Hi; lia]|].
  right. apply Z.eqb_neq in E. destruct (e =? 0) eqn:E0; [apply Z.eqb_eq in E0|apply Z.eqb_neq in E0].
  - subst. destruct f as [|m|m]; [by left|right; exists m; split_and!; [done..|lia|lia]|lia].
  - right. destruct (2 ^ 52 + f) as [|m|m] eqn:Em; [lia| |lia]. exists m. split_and!; [done..|lia|lia].
Qed.

Lemma dbl_compare a b : is_num a -> is_num b -> SFcompare (dbl_sf a) (dbl_sf b) = Some (dkey a ?= dkey b).
Proof.
  intros Ha Hb. destruct (dbl_sf_num a Ha) as [-> Ia], (dbl_sf_num b Hb) as [-> Ib]. destruct Ha as [Ha _], Hb as [Hb _].
  rewrite !dkey_parts by done. destruct (dbl_parts a Ha) as (_ & Hea & Hfa), (dbl_parts b Hb) as (_ & Heb & Hfb).
  revert Ia Ib Hea Hfa Heb Hfb. cbn zeta.
  generalize (dbl_exponent a) (dbl_fraction a) (dbl_exponent b) (dbl_fraction b). intros e1 f1 e2 f2 I1 I2 He1 Hf1 He2 Hf2.
  destruct (mag_sf_cases (dbl_sign a) e1 f1 He1 Hf1 I1) as [[-> ->]|[[-> ->]|(m1 & -> & E1 & H1)]];
    destruct (mag_sf_cases (dbl_sign b) e2 f2 He2 Hf2 I2) as [[-> ->]|[[-> ->]|(m2 & -> & E2 & H2)]];
    destruct (dbl_sign a), (dbl_sign b); cbn [SFcompare]; f_equal; symmetry;
    try (apply Z.compare_lt_iff; lia); try (apply Z.compare_gt_iff; lia); try (apply Z.compare_eq_iff; lia);
    pose proof (mag_compare e1 f1 e2 f2 m1 m2 ltac:(lia) Hf1 ltac:(lia) Hf2 E1 E2) as H; cbn -[Z.compare Z.mul Z.add Z.pow Z.max Z.sub].
  - rewrite Z.compare_opp, (Z.compare_antisym (e1 * 2 ^ 52 + f1)), <- H. by destruct (_ ?= _).
  - done.
Qed.

Lemma dbl_ltb_key a b : is_num a -> is_num b -> dbl_ltb a b = (dkey a <? dkey b).
Proof. intros Ha Hb. unfold dbl_ltb, SFltb, Z.ltb. by rewrite dbl_compare. Qed.
Lemma dbl_leb_key a b : is_num a -> is_num b -> dbl_leb a b = (dkey a <=? dkey b).
Proof. intros Ha Hb. unfold dbl_leb, SFleb, Z.leb. rewrite dbl_compare by done. by destruct (_ ?= _). Qed.
Lemma dbl_eqb_key a b : is_num a -> is_num b -> dbl_eqb a b = (dkey a =? dkey b).
Proof.
  intros Ha Hb. unfold dbl_eqb, SFeqb. rewrite dbl_compare by done.
  destruct (Z.compare_spec (dkey a) (dkey b)); symmetry; [by apply Z.eqb_eq|apply Z.eqb_neq; lia..].
Qed.

(** ** Sums of numbers are numbers *)

(** A float with a bit pattern. *)
Definition sf_ok (f : spec_float) : Prop :=
  match f with
  | S754_nan => False
  | S754_finite _ m e => Zpos m < 2 ^ 53 /\ -1074 <= e <= 971
  | _ => True
  end.

Lemma sf_ok_num f : sf_ok f -> is_num (sf_dbl f).
Proof.
  assert (forall s M, 0 <= M <= 2047 * 2 ^ 52 -> is_num (sign_bit s + M)) as H.
  { intros s M HM. assert (is_u64 (sign_bit s + M)) as Hu by (unfold is_u64, sign_bit; destruct s; lia).
    split; [done|]. destruct (dbl_parts _ Hu) as (E & He & Hf). unfold dbl_isnan, dbl_sf.
    destruct (_ =? 2047) eqn:Ee; [|by destruct (if _ =? 0 then _ else _)]. apply Z.eqb_eq in Ee.
    destruct (_ =? 0) eqn:Ef; [done|]. apply Z.eqb_neq in Ef.
    assert (dbl_sign (sign_bit s + M) = s) as Es; [|rewrite Es in E; lia].
    clear -HM Hu. unfold dbl_sign. rewrite Z.testbit_eqb by lia. unfold sign_bit. destruct s.
    - rewrite <- (Z.mul_1_l (2 ^ 63)), Z.div_add_l, Z.div_small by lia. done.
    - rewrite Z.div_small by lia. done. }
  destruct f as [s|s| |s m e]; cbn [sf_ok sf_dbl]; intros Hf; [|by apply H|done|].
  - rewrite <- (Z.add_0_r (sign_bit s)). by apply H.
  - apply H. destruct (_ <? _) eqn:E; [apply Z.ltb_lt in E; lia|]. apply Z.ltb_ge in E. nia.
Qed.

Lemma dbl_sf_ok b : is_num b -> sf_ok (dbl_sf b).
Proof.
  intros Hb. destruct (dbl_sf_num b Hb) as [-> Hi]. destruct (dbl_parts b (proj1 Hb)) as (_ & He & Hf).
  destruct (mag_sf_cases (dbl_sign b) _ _ He Hf Hi) as [[-> _]|[[-> _]|(m & -> & Hm & Hr)]]; [done..|].
  cbn. destruct (_ =? 0) eqn:E; [apply Z.eqb_eq in E|apply Z.eqb_neq in E]; lia.
Qed.

Lemma shr_m_iter (p : positive) : forall r, 0 <= shr_m r -> shr_m (SpecFloat.iter_pos shr_1 p r) = shr_m r / 2 ^ Zpos p.
Proof.
  assert (forall r, 0 <= shr_m r -> shr_m (shr_1 r) = shr_m r / 2 ^ 1) as H1.
  { intros [m r s] Hm. cbn [shr_m] in *. destruct m as [|[m|m|]|m]; cbn [shr_1 shr_m]; [done| | |done|lia].
    - rewrite Pos2Z.inj_xI. apply (Z.div_unique _ _ _ 1); lia.
    - rewrite Pos2Z.inj_xO. apply (Z.div_unique _ _ _ 0); lia. }
  induction p as [p IH|p IH|]; intros r Hr; cbn [SpecFloat.iter_pos]; [| |by apply H1];
    pose proof (Z.pow_pos_nonneg 2 (Zpos p) ltac:(lia) ltac:(lia)) as Hp.
  - assert (shr_m (SpecFloat.iter_pos shr_1 p (shr_1 r)) = shr_m r / 2 ^ 1 / 2 ^ Zpos p) as Hi
      by (rewrite IH, H1 by (rewrite ?H1 by done; try (apply Z.div_pos; lia); done); done).
    rewrite IH, Hi by (rewrite Hi; repeat apply Z.div_pos; lia).
    rewrite !Z.div_div, <- !Z.pow_add_r by lia. f_equal. f_equal. lia.
  - rewrite IH, IH by (rewrite ?IH by done; try (apply Z.div_pos; lia); done).
    rewrite Z.div_div, <- Z.pow_add_r by lia. f_equal. f_equal. lia.
Qed.

Lemma digits2_pos_lt m : Zpos m < 2 ^ Zpos (digits2_pos m).
Proof.
  induction m as [m IH|m IH|]; cbn [digits2_pos]; [| |done];
    rewrite Pos2Z.inj_succ, Z.pow_succ_r by lia; first [rewrite (Pos2Z.inj_xI m)|rewrite (Pos2Z.inj_xO m)]; lia.
Qed.

Lemma shr_fexp_spec m e l : 0 <= m ->
  exists k, 0 <= k /\ shr_m (shr_fexp 53 1024 m e l).1 = m / 2 ^ k /\ (shr_fexp 53 1024 m e l).2 = e + k
    /\ fexp 53 1024 (Zdigits2 m + e) <= e + k.
Proof.
  intros Hm. unfold shr_fexp. assert (shr_m (shr_record_of_loc m l) = m) as El by (by destruct l as [|[]]).
  destruct (fexp 53 1024 (Zdigits2 m + e) - e) as [|p|p] eqn:E; cbn [shr].
  - exists 0. rewrite Z.div_1_r. cbn [fst snd]. split_and!; [lia|done|lia..].
  - exists (Zpos p). cbn [fst snd]. rewrite shr_m_iter, El by lia. split_and!; [lia|done|done|lia].
  - exists 0. rewrite Z.div_1_r. cbn [fst snd]. split_and!; [lia|done|lia..].
Qed.

Lemma binary_round_aux_ok s m e l : 0 <= m -> sf_ok (binary_round_aux 53 1024 s m e l).
Proof.
  intros Hm. unfold binary_round_aux.
  destruct (shr_fexp_spec m e l Hm) as (k & Hk & E1 & E2 & Hf). destruct (shr_fexp 53 1024 m e l) as [r1 e1].
  cbn [fst snd] in *. set (m1 := round_nearest_even (shr_m r1) (loc_of_shr_record r1)).
  assert (0 <= shr_m r1) by (rewrite E1; apply Z.div_pos; [done|apply Z.pow_pos_nonneg; lia]).
  assert (0 <= m1) as Hm1 by (unfold m1; destruct (loc_of_shr_record r1) as [|[]]; cbn; try destruct (Z.even _); lia).
  destruct (shr_fexp_spec m1 e1 loc_Exact Hm1) as (k2 & Hk2 & E3 & E4 & Hf2).
  destruct (shr_fexp 53 1024 m1 e1 loc_Exact) as [r2 e2]. cbn [fst snd] in *.
  assert (0 <= shr_m r2) by (rewrite E3; apply Z.div_pos; [done|apply Z.pow_pos_nonneg; lia]).
  destruct (shr_m r2) as [|m2|m2] eqn:E5; [done| |lia]. destruct (e2 <=? 1024 - 53) eqn:E6; [|done].
  apply Z.leb_le in E6. cbn [sf_ok]. unfold fexp, emin in Hf, Hf2. split; [|lia]. rewrite E3. clear E5.
  destruct m1 as [|p|p] eqn:Ep; [done| |lia]. cbn [Zdigits2] in Hf2. pose proof (digits2_pos_lt p) as Hd.
  apply Z.div_lt_upper_bound; [apply Z.pow_pos_nonneg; lia|]. rewrite <- Z.pow_add_r by lia.
  eapply Z.lt_le_trans; [exact Hd|]. apply Z.pow_le_mono_r; lia.
Qed.

Lemma binary_normalize_ok m e z : sf_ok (binary_normalize 53 1024 m e z).
Proof.
  destruct m as [|m|m]; cbn [binary_normalize]; [done|..]; unfold binary_round;
    destruct (shl_align _ _ _); by apply binary_round_aux_ok.
Qed.

Lemma dbl_sign_inf b s : dbl_sf b = S754_infinity s -> is_num b -> dbl_sign b = s.
Proof.
  intros E Hb. destruct (dbl_sf_num b Hb) as [E' _]. rewrite E' in E. unfold mag_sf in E.
  destruct (_ =? 2047); [by inversion E|]. destruct (if _ =? 0 then _ else _); discriminate E.
Qed.

Lemma SFadd_ok x y : sf_ok x -> sf_ok y ->
  (forall s s', x = S754_infinity s -> y = S754_infinity s' -> s = s') -> sf_ok (SFadd 53 1024 x y).
Proof.
  intros Hx Hy Hi. destruct x as [s|s| |s m e], y as [s'|s'| |s' m' e']; cbn [SFadd];
    first [apply binary_normalize_ok|exact Hx|exact Hy|idtac].
  - by destruct s, s'.
  - rewrite (Hi s s') by done. by destruct s'.
Qed.

Lemma dbl_add_num a b :
  is_num a -> is_num b -> ~ (dbl_isinf a = true /\ dbl_isinf b = true /\ dbl_sign a <> dbl_sign b) ->
  is_num (dbl_add a b).
Proof.
  intros Ha Hb Hi. apply sf_ok_num, SFadd_ok; [by apply dbl_sf_ok..|]. intros s s' Ea Eb.
  destruct (decide (s = s')) as [|Hs]; [done|]. destruct Hi. unfold dbl_isinf. rewrite Ea, Eb.
  by rewrite (dbl_sign_inf a s), (dbl_sign_inf b s').
Qed.

(** ** Round trips *)

Lemma sf_dbl_sf b : is_num b -> sf_dbl (dbl_sf b) = b.
Proof.
  intros Hb. destruct (dbl_sf_num b Hb) as [-> Hi]. destruct (dbl_parts b (proj1 Hb)) as (E & He & Hf). rewrite E at 4. clear E.
  revert He Hf Hi. generalize (dbl_sign b) (dbl_exponent b) (dbl_fraction b). intros s e f He Hf Hi.
  destruct (mag_sf_cases s e f He Hf Hi) as [[-> ->]|[[-> ->]|(m & -> & Hm & Hr)]]; cbn [sf_dbl]; [done|lia|].
  rewrite <- Hm. destruct (Z.eqb_spec e 0) as [->|Hz]; destruct (_ <? _) eqn:E; rewrite ?Z.ltb_lt, ?Z.ltb_ge in E; lia.
Qed.

(** Adding nothing only takes the sign of zero away. *)
Lemma dbl_add_0 b : is_num b -> dbl_add b 0 = b \/ dbl_add b 0 = 0 /\ dbl_sf b = S754_zero true.
Proof.
  intros Hb. unfold dbl_add. change (dbl_sf 0) with (S754_zero false). pose proof (sf_dbl_sf b Hb) as E.
  destruct (dbl_sf b) as [[]|s| |s m e]; cbn [SFadd]; [by right|by left..].
Qed.

Lemma dbl_add_0_num b : is_num b -> is_num (dbl_add b 0).
Proof. intros Hb. destruct (dbl_add_0 b Hb) as [-> |[-> _]]; [done|]. split; [|done]. unfold is_u64. lia. Qed.

Lemma d2string_add_0 fp b : is_num b -> d2string fp (dbl_add b 0) = d2string fp b.
Proof.
  intros Hb. destruct (dbl_add_0 b Hb) as [-> |[-> E]]; [done|]. unfold d2string, dbl_isnan, dbl_isinf, dbl_eqb. by rewrite E.
Qed.

Lemma dbl_eqb_inf b : is_num b -> dbl_eqb b dbl_inf = dbl_isinf b && negb (dbl_sign b)
  /\ dbl_eqb b dbl_ninf = dbl_isinf b && dbl_sign b.
Proof.
  intros Hb. unfold dbl_eqb, dbl_isinf. change (dbl_sf dbl_inf) with (S754_infinity false).
  change (dbl_sf dbl_ninf) with (S754_infinity true).
  destruct (dbl_sf b) as [s|s| |s m e] eqn:E; [by destruct s| |done|by destruct s]. rewrite (dbl_sign_inf b s E Hb). by destruct s.
Qed.

Lemma SFadd_comm_sf x y : SFadd 53 1024 x y = SFadd 53 1024 y x.
Proof.
  destruct x as [s|s| |s m e], y as [s'|s'| |s' m' e']; cbn [SFadd]; try done; try (by destruct s, s').
  rewrite (Z.min_comm e e'), Z.add_comm. done.
Qed.

Lemma dbl_add_comm a b : dbl_add a b = dbl_add b a.
Proof. unfold dbl_add. by rewrite SFadd_comm_sf. Qed.

Lemma opposite_nan a b : is_num a -> is_num b ->
  (dbl_eqb a dbl_ninf || dbl_eqb b dbl_ninf) && (dbl_eqb a dbl_inf || dbl_eqb b dbl_inf) = dbl_isnan (dbl_add a b).
Proof.
  intros Ha Hb. destruct (dbl_eqb_inf a Ha) as [-> ->], (dbl_eqb_inf b Hb) as [-> ->].
  destruct (dbl_isinf a) eqn:Ia, (dbl_isinf b) eqn:Ib; cbn [andb orb].
  - assert (forall c, is_num c -> dbl_isinf c = true -> dbl_sf c = S754_infinity (dbl_sign c)) as Hs.
    { intros c Hc Hi. unfold dbl_isinf in Hi. destruct (dbl_sf c) as [|s| |] eqn:E; try done. by rewrite (dbl_sign_inf c s E Hc). }
    unfold dbl_add. rewrite (Hs a), (Hs b) by done. by destruct (dbl_sign a), (dbl_sign b).
  - rewrite !orb_false_r, andb_negb_r. symmetry. apply dbl_add_num; [done..|]. intros (_ & ? & _). congruence.
  - rewrite andb_negb_r. symmetry. apply dbl_add_num; [done..|]. intros (? & _ & _). congruence.
  - symmetry. apply dbl_add_num; [done..|]. intros (? & _ & _). congruence.
Qed.

Lemma dbl_add_num_iff a b : is_num a -> is_num b -> dbl_isnan (dbl_add a b) = false -> is_num (dbl_add a b).
Proof.
  intros Ha Hb H. apply dbl_add_num; [done..|]. intros (Ia & Ib & Hd). rewrite <- opposite_nan in H by done.
  destruct (dbl_eqb_inf a Ha) as [E1 E2], (dbl_eqb_inf b Hb) as [E3 E4]. rewrite E1, E2, E3, E4, Ia, Ib in H.
  by destruct (dbl_sign a), (dbl_sign b).
Qed.

Lemma dbl_leb_nan a b : dbl_isnan a = true -> dbl_leb a b = false /\ dbl_leb b a = false.
Proof.
  unfold dbl_isnan, dbl_leb, SFleb. intros H. destruct (dbl_sf a); try done. by destruct (dbl_sf b) as [[]|[]| |[] ? ?].
Qed.
