(* ===== verification/NamespaceStorage.v ===== *)
(** * Namespace metadata in the engine

    [NamespaceStorage] (src/namespace/storage.cpp) keeps the namespaces in an
    engine table, one record per direction of lookup, changed in transactions.
    The engine is not part of the repository: a transaction works on a copy of
    the table that a successful commit installs, and whether each call into the
    engine succeeds is an argument, a list of outcomes consumed call by call.
    The theorems hold for every list of outcomes. *)

From S2P Require Import Prelude Encoding StringNum EloqKey.

(** ** Transactions *)

Abbreviation Table := (gmap bytes bytes).

(** The committed table, the transaction's copy, the outcomes to come (success
    when none is left). *)
Record Engine := mkEngine { eng_table : Table; eng_tx : Table; eng_ok : list bool }.

(** A routine that returns early with an [R] or goes on with an [A]. *)
Definition Tx (R A : Type) : Type := Engine -> Engine * (R + A).

Definition tx_ret {R A} (a : A) : Tx R A := fun e => (e, inr a).
Definition tx_return {R A} (r : R) : Tx R A := fun e => (e, inl r).
Definition tx_bind {R A B} (m : Tx R A) (k : A -> Tx R B) : Tx R B := fun e =>
  match m e with
  | (e', inl r) => (e', inl r)
  | (e', inr a) => k a e'
  end.

Declare Scope tx_scope.
Notation "x <-t m ; k" := (tx_bind m (fun x => k)) (at level 100, m at next level, right associativity) : tx_scope.
Notation "m ;;t k" := (tx_bind m (fun _ => k)) (at level 100, right associativity) : tx_scope.
#[local] Open Scope tx_scope.

Definition outcome {R} : Tx R bool := fun e =>
  (mkEngine (eng_table e) (eng_tx e) (tail (eng_ok e)), inr (hd true (eng_ok e))).

(** [NewTxm], null on failure. *)
Definition NewTxm {R} : Tx R bool := fun e =>
  outcome (mkEngine (eng_table e) (eng_table e) (eng_ok e)).

(** The object commands GET, SET and DEL sent as requests: success, and for GET
    the value when the key is there. *)
Definition TxGet {R} (k : bytes) : Tx R (bool * option bytes) :=
  success <-t outcome;
  fun e => (e, inr (success, if success : bool then eng_tx e !! k else None)).

Definition TxSet {R} (k v : bytes) : Tx R bool :=
  success <-t outcome;
  fun e => (mkEngine (eng_table e) (if success : bool then <[k := v]> (eng_tx e) else eng_tx e) (eng_ok e),
            inr success).

Definition TxDel {R} (k : bytes) : Tx R bool :=
  success <-t outcome;
  fun e => (mkEngine (eng_table e) (if success : bool then delete k (eng_tx e) else eng_tx e) (eng_ok e),
            inr success).

Definition AbortTx {R} : Tx R unit := fun e =>
  (mkEngine (eng_table e) (eng_table e) (eng_ok e), inr tt).

Definition CommitTx {R} : Tx R bool :=
  success <-t outcome;
  fun e => (mkEngine (if success : bool then eng_tx e else eng_table e) (eng_tx e) (eng_ok e), inr success).

Definition tx_run {R} (m : Tx R R) (e : Engine) : Engine * R :=
  match m e with (e', inl r) => (e', r) | (e', inr r) => (e', r) end.

(** [if (!success) { AbortTx(txm); return r; }]. *)
Definition or_abort {R} (r : R) (success : bool) : Tx R unit :=
  if success then tx_ret tt else AbortTx ;;t tx_return r.

(** ** Tokens *)

Record NamespaceToken := mkToken { tok_bytes : bytes; tok_valid : bool }.

Definition no_token : NamespaceToken := mkToken (replicate 16 Init.Byte.x00) false.

Definition token_of_raw (raw_bytes : bytes) : NamespaceToken :=
  if (length raw_bytes =? 16)%nat then mkToken raw_bytes true else no_token.

Definition FromBase64Url (b64_str : bytes) : NamespaceToken :=
  if (length b64_str =? 22)%nat then
    let '(ok, dst) := Base64UrlDecode b64_str (replicate 16 Init.Byte.x00) in mkToken dst ok
  else no_token.

Definition token_ToString (t : NamespaceToken) : bytes :=
  if tok_valid t then Base64UrlEncode (tok_bytes t) else [].

Definition token_eqb (a b : NamespaceToken) : bool := bool_decide (tok_bytes a = tok_bytes b).

(** The sixteen random bytes, marked as a version 4 UUID. *)
Definition GenerateRandomToken (rand : bytes) : NamespaceToken :=
  let at_ i f l := match l !! i with Some b => <[i := z2b (f (b2z b))]> l | None => l end in
  mkToken (at_ 8%nat (fun x => Z.lor (Z.land x 0x3f) 0x80)
             (at_ 6%nat (fun x => Z.lor (Z.land x 0x0f) 0x40) rand)) true.

(** ** Records *)

Definition kNamespacePrefix : bytes := lit "n:".
Definition kTokenPrefix : bytes := lit "t:".
Definition kIdToNamePrefix : bytes := lit "i:".
Definition kEpochPrefix : bytes := lit "e:".
Definition kGcPrefix : bytes := lit "g:".
Definition kNextIdKey : bytes := lit "next_id".

Definition n_key (ns : bytes) : bytes := kNamespacePrefix ++ ns.
Definition t_key (token : bytes) : bytes := kTokenPrefix ++ token.
Definition i_key (encoded_id : bytes) : bytes := kIdToNamePrefix ++ encoded_id.
Definition e_key (encoded_id : bytes) : bytes := kEpochPrefix ++ encoded_id.
Definition g_key (encoded_id : bytes) (epoch : Z) : bytes :=
  kGcPrefix ++ encoded_id ++ lit ":" ++ to_string epoch.

(** [try { x = std::stoull(str); } catch (...) { x = 1; }]. *)
Definition stoull_or_1 (s : bytes) : Z := default 1 (stoull s).

(** ** The operations *)

Section Storage.

(** The administrator's password. *)
Variable requirepass : bytes.

Definition is_requirepass (token : NamespaceToken) : bool :=
  bool_decide (token_ToString token = requirepass) && negb (length requirepass =? 0)%nat.

Definition GetToken (ns : bytes) : Tx NamespaceToken NamespaceToken :=
  txm <-t NewTxm;
  if negb txm then tx_return no_token
  else
    cmd <-t TxGet (n_key ns);
    or_abort no_token cmd.1 ;;t
    commit_success <-t CommitTx;
    match cmd.2 with
    | Some s => if commit_success : bool then tx_return (token_of_raw s) else tx_return no_token
    | None => tx_return no_token
    end.

(** The name, the encoded identifier and the epoch. *)
Definition ByToken (token : NamespaceToken) : Tx (bytes * bytes * Z) (bytes * bytes * Z) :=
  if negb (tok_valid token) then tx_return ([], [], 1)
  else if is_requirepass token then tx_return ([], [], 1)
  else
    txm <-t NewTxm;
    if negb txm then tx_return ([], [], 1)
    else
      cmd <-t TxGet (t_key (tok_bytes token));
      match cmd.2 with
      | Some encoded_id =>
          cmd_i <-t TxGet (i_key encoded_id);
          cmd_e <-t TxGet (e_key encoded_id);
          CommitTx ;;t
          tx_return (default [] cmd_i.2, encoded_id,
                     match cmd_e.2 with Some s => stoull_or_1 s | None => 1 end)
      | None => CommitTx ;;t tx_return ([], [], 1)
      end.

Definition Add (ns : bytes) (token : NamespaceToken) : Tx bool bool :=
  if negb (tok_valid token) then tx_return false
  else if is_requirepass token then tx_return false
  else
    txm <-t NewTxm;
    if negb txm then tx_return false
    else
      cmd_ns <-t TxGet (n_key ns);
      or_abort false cmd_ns.1 ;;t
      match cmd_ns.2 with
      | Some str => CommitTx ;;t tx_return (bool_decide (str = tok_bytes token))
      | None =>
          cmd_token <-t TxGet (t_key (tok_bytes token));
          or_abort false cmd_token.1 ;;t
          match cmd_token.2 with
          | Some _ => AbortTx ;;t tx_return false
          | None =>
              cmd_id <-t TxGet kNextIdKey;
              or_abort false cmd_id.1 ;;t
              let next_id := match cmd_id.2 with Some s => stoull_or_1 s | None => 1 end in
              let encoded_id := b255e next_id in
              success <-t TxSet kNextIdKey (to_string (u64 (next_id + 1)));
              or_abort false success ;;t
              success <-t TxSet (n_key ns) (tok_bytes token);
              or_abort false success ;;t
              success <-t TxSet (t_key (tok_bytes token)) encoded_id;
              or_abort false success ;;t
              success <-t TxSet (i_key encoded_id) ns;
              or_abort false success ;;t
              success <-t TxSet (e_key encoded_id) (lit "1");
              or_abort false success ;;t
              CommitTx
          end
      end.

(** The writes at the end of [Set]. *)
Definition Set_write (ns : bytes) (token : NamespaceToken) (encoded_id : bytes) : Tx bool bool :=
  success <-t TxSet (n_key ns) (tok_bytes token);
  or_abort false success ;;t
  success <-t TxSet (t_key (tok_bytes token)) encoded_id;
  or_abort false success ;;t
  success <-t TxSet (i_key encoded_id) ns;
  or_abort false success ;;t
  CommitTx.

Definition Set_ (ns : bytes) (token : NamespaceToken) : Tx bool bool :=
  if negb (tok_valid token) then tx_return false
  else if is_requirepass token then tx_return false
  else
    txm <-t NewTxm;
    if negb txm then tx_return false
    else
      cmd_token <-t TxGet (t_key (tok_bytes token));
      or_abort false cmd_token.1 ;;t
      match cmd_token.2 with
      | Some existing_encoded_id =>
          cmd_owner <-t TxGet (i_key existing_encoded_id);
          match cmd_owner.2 with
          | Some owner => or_abort false (bool_decide (owner = ns))
          | None => or_abort false false
          end
      | None => tx_ret tt
      end ;;t
      cmd_ns <-t TxGet (n_key ns);
      or_abort false cmd_ns.1 ;;t
      match cmd_ns.2 with
      | Some old_token =>
          if bool_decide (old_token = tok_bytes token) then CommitTx ;;t tx_return true
          else
            cmd_old_t <-t TxGet (t_key old_token);
            let encoded_id := default [] cmd_old_t.2 in
            success <-t TxDel (t_key old_token);
            or_abort false success ;;t
            or_abort false (negb (length encoded_id =? 0)%nat) ;;t
            Set_write ns token encoded_id
      | None =>
          cmd_id <-t TxGet kNextIdKey;
          or_abort false cmd_id.1 ;;t
          let next_id := match cmd_id.2 with Some s => stoull_or_1 s | None => 1 end in
          success <-t TxSet kNextIdKey (to_string (u64 (next_id + 1)));
          or_abort false success ;;t
          Set_write ns token (b255e next_id)
      end.

Definition Del (ns : bytes) : Tx bool bool :=
  txm <-t NewTxm;
  if negb txm then tx_return false
  else
    cmd_ns <-t TxGet (n_key ns);
    match cmd_ns.2 with
    | None => AbortTx ;;t tx_return false
    | Some token =>
        cmd_t <-t TxGet (t_key token);
        let encoded_id := default [] cmd_t.2 in
        let has_id := negb (length encoded_id =? 0)%nat in
        (if has_id then
           cmd_e <-t TxGet (e_key encoded_id);
           let epoch := match cmd_e.2 with Some s => stoull_or_1 s | None => 1 end in
           success <-t TxSet (g_key encoded_id epoch) (lit "1");
           or_abort false success
         else tx_ret tt) ;;t
        success <-t TxDel (n_key ns);
        or_abort false success ;;t
        success <-t TxDel (t_key token);
        or_abort false success ;;t
        (if has_id then
           success <-t TxDel (i_key encoded_id);
           or_abort false success ;;t
           success <-t TxDel (e_key encoded_id);
           or_abort false success
         else tx_ret tt) ;;t
        CommitTx
    end.

End Storage.

(** ** Running transactions *)

Section Steps.

Context {R B : Type} (t w : Table) (ok : list bool).

Lemma bind_new (f : bool -> Tx R B) :
  tx_bind NewTxm f (mkEngine t w ok) = f (hd true ok) (mkEngine t t (tail ok)).
Proof. done. Qed.

Lemma bind_get k (f : bool * option bytes -> Tx R B) :
  tx_bind (TxGet k) f (mkEngine t w ok)
  = f (hd true ok, if hd true ok then w !! k else None) (mkEngine t w (tail ok)).
Proof. done. Qed.

Lemma bind_set k v (f : bool -> Tx R B) :
  tx_bind (TxSet k v) f (mkEngine t w ok)
  = f (hd true ok) (mkEngine t (if hd true ok then <[k := v]> w else w) (tail ok)).
Proof. done. Qed.

Lemma bind_del k (f : bool -> Tx R B) :
  tx_bind (TxDel k) f (mkEngine t w ok)
  = f (hd true ok) (mkEngine t (if hd true ok then delete k w else w) (tail ok)).
Proof. done. Qed.

Lemma bind_commit (f : bool -> Tx R B) :
  tx_bind CommitTx f (mkEngine t w ok)
  = f (hd true ok) (mkEngine (if hd true ok then w else t) w (tail ok)).
Proof. done. Qed.

Lemma bind_abort (f : unit -> Tx R B) : tx_bind AbortTx f (mkEngine t w ok) = f tt (mkEngine t t ok).
Proof. done. Qed.

Lemma bind_check_true r (f : unit -> Tx R B) : tx_bind (or_abort r true) f (mkEngine t w ok) = f tt (mkEngine t w ok).
Proof. done. Qed.

Lemma bind_check_false r (f : unit -> Tx R B) :
  tx_bind (or_abort r false) f (mkEngine t w ok) = (mkEngine t t ok, inl r).
Proof. done. Qed.

Lemma bind_assoc {A C} (m : Tx R A) (f : A -> Tx R C) (g : C -> Tx R B) e :
  tx_bind (tx_bind m f) g e = tx_bind m (fun a => tx_bind (f a) g) e.
Proof. unfold tx_bind. by destruct (m e) as [e' [r|a]]. Qed.

Lemma bind_ret {A} (a : A) (f : A -> Tx R B) e : tx_bind (tx_ret a) f e = f a e.
Proof. done. Qed.

End Steps.

Lemma commit_run (t w : Table) ok :
  tx_run (R := bool) CommitTx (mkEngine t w ok)
  = (mkEngine (if hd true ok then w else t) w (tail ok), hd true ok).
Proof. done. Qed.

Lemma failed_here ok : hd true ok = false -> false ∈ ok.
Proof. destruct ok as [|[] ok]; cbn; [done..|]. intros _. left. Qed.

Lemma failed_later (b : bool) ok : b ∈ tail ok -> b ∈ ok.
Proof. destruct ok as [|c ok]; cbn; [done|]. intros H. by right. Qed.

(** ** The abstract state *)

(** The live namespaces with their tokens and identifiers, the epochs that
    were set, the prefixes waiting to be collected, and the next identifier. *)
Record NsState := mkNs {
  live : gmap bytes (bytes * Z);
  epochs : gmap Z Z;
  retired : gset (Z * Z);
  next_id : Z
}.

Definition epoch_of (s : NsState) (id : Z) : Z := default 1 (epochs s !! id).

Definition token_used (s : NsState) (token : bytes) : Prop :=
  map_Exists (fun _ e => e.1 = token) (live s).

Definition ns_empty : NsState := mkNs ∅ ∅ ∅ 1.

Definition spec_add (ns token : bytes) (s : NsState) : NsState * bool :=
  match live s !! ns with
  | Some (tok, _) => (s, bool_decide (tok = token))
  | None =>
      if decide (token_used s token) then (s, false)
      else (mkNs (<[ns := (token, next_id s)]> (live s)) (<[next_id s := 1]> (epochs s))
              (retired s) (next_id s + 1), true)
  end.

Definition spec_set (ns token : bytes) (s : NsState) : NsState * bool :=
  match live s !! ns with
  | Some (tok, id) =>
      if decide (tok = token) then (s, true)
      else if decide (token_used s token) then (s, false)
      else (mkNs (<[ns := (token, id)]> (live s)) (epochs s) (retired s) (next_id s), true)
  | None =>
      if decide (token_used s token) then (s, false)
      else (mkNs (<[ns := (token, next_id s)]> (live s)) (epochs s) (retired s) (next_id s + 1), true)
  end.

Definition spec_del (ns : bytes) (s : NsState) : NsState * bool :=
  match live s !! ns with
  | Some (_, id) =>
      (mkNs (delete ns (live s)) (delete id (epochs s)) ({[(id, epoch_of s id)]} ∪ retired s) (next_id s), true)
  | None => (s, false)
  end.

(** Tokens and identifiers belong to one namespace each; identifiers and the
    identifiers of retired prefixes have been handed out; a retired prefix is
    never the current prefix of a live namespace. *)
Record ns_inv (s : NsState) : Prop := {
  inv_token : forall ns1 ns2 tok id1 id2,
    live s !! ns1 = Some (tok, id1) -> live s !! ns2 = Some (tok, id2) -> ns1 = ns2;
  inv_id : forall ns1 ns2 tok1 tok2 id,
    live s !! ns1 = Some (tok1, id) -> live s !! ns2 = Some (tok2, id) -> ns1 = ns2;
  inv_range : forall ns tok id, live s !! ns = Some (tok, id) -> 1 <= id < next_id s /\ length tok = 16%nat;
  inv_epoch : forall id ep, epochs s !! id = Some ep -> 1 <= ep < 2 ^ 64 /\ 1 <= id < next_id s;
  inv_retired : forall id ep, (id, ep) ∈ retired s ->
    1 <= id < next_id s /\ 1 <= ep < 2 ^ 64
    /\ forall ns tok, live s !! ns = Some (tok, id) -> ep < epoch_of s id;
  inv_next : 1 <= next_id s < 2 ^ 64
}.

(** The table shows the state. *)
Record ns_repr (t : Table) (s : NsState) : Prop := {
  repr_n : forall ns, t !! n_key ns = fst <$> live s !! ns;
  repr_t : forall tok e, t !! t_key tok = Some e <-> exists ns id, live s !! ns = Some (tok, id) /\ e = b255e id;
  repr_i : forall x ns, t !! i_key x = Some ns <-> exists tok id, live s !! ns = Some (tok, id) /\ x = b255e id;
  repr_e : forall id, is_u64 id -> from_option stoull_or_1 1 (t !! e_key (b255e id)) = epoch_of s id;
  repr_g : forall id ep, is_u64 id -> is_u64 ep ->
    is_Some (t !! g_key (b255e id) ep) <-> (id, ep) ∈ retired s;
  repr_g_only : forall x v, t !! (kGcPrefix ++ x) = Some v ->
    exists id ep, (id, ep) ∈ retired s /\ kGcPrefix ++ x = g_key (b255e id) ep;
  repr_next : from_option stoull_or_1 1 (t !! kNextIdKey) = next_id s
}.

(** ** Keys of different families differ *)

Ltac key_ne :=
  let E := fresh in intros E; apply (f_equal (take 2)) in E; vm_compute in E; discriminate E.

(** Look past writes to other families, and at the key just written. *)
Ltac tbl :=
  repeat first
    [ rewrite lookup_insert_ne by key_ne | rewrite lookup_delete_ne by key_ne
    | rewrite lookup_insert_eq | rewrite lookup_delete_eq ].

Lemma n_key_inj a b : n_key a = n_key b -> a = b.
Proof. apply app_inv_head. Qed.
Lemma t_key_inj a b : t_key a = t_key b -> a = b.
Proof. apply app_inv_head. Qed.
Lemma i_key_inj a b : i_key a = i_key b -> a = b.
Proof. apply app_inv_head. Qed.
Lemma e_key_inj a b : e_key a = e_key b -> a = b.
Proof. apply app_inv_head. Qed.

(** A collector's key is split at its first colon. *)
Lemma g_key_inj id1 ep1 id2 ep2 :
  is_u64 id1 -> is_u64 ep1 -> is_u64 id2 -> is_u64 ep2 ->
  g_key (b255e id1) ep1 = g_key (b255e id2) ep2 -> id1 = id2 /\ ep1 = ep2.
Proof.
  intros H1 He1 H2 He2 E%app_inv_head.
  destruct (b255e_ns_id id1 H1) as [_ D1]. destruct (b255e_ns_id id2 H2) as [_ D2].
  pose proof (f_equal (find_char B255_DELIMITER) E) as Hl. cbn [app lit] in Hl.
  change (lit ":" ++ to_string ep1) with (B255_DELIMITER :: to_string ep1) in *.
  change (lit ":" ++ to_string ep2) with (B255_DELIMITER :: to_string ep2) in *.
  rewrite !find_char_app in Hl by done. apply app_inj_1 in E as [E1 [= E2]]; [|done].
  split; [by apply b255e_inj|by apply to_string_inj].
Qed.

Lemma ns_empty_repr : ns_repr ∅ ns_empty.
Proof.
  constructor; try done.
  - intros tok e. split; [done|]. by intros (? & ? & ? & _).
  - intros x ns. split; [done|]. by intros (? & ? & ? & _).
  - intros id ep _ _. split; [by intros []|set_solver].
Qed.

Lemma ns_empty_inv : ns_inv ns_empty.
Proof. by constructor. Qed.

(** ** The abstract operations keep the invariant *)

Lemma token_unused s tok ns id : ~ token_used s tok -> live s !! ns = Some (tok, id) -> False.
Proof. intros H E. apply H. exists ns, (tok, id). done. Qed.

(** A namespace gets a fresh identifier. *)
Lemma inv_alloc s ns tok eps :
  ns_inv s -> ~ token_used s tok -> length tok = 16%nat -> next_id s < 2 ^ 64 - 1 ->
  (eps = epochs s \/ eps = <[next_id s := 1]> (epochs s)) -> live s !! ns = None ->
  ns_inv (mkNs (<[ns := (tok, next_id s)]> (live s)) eps (retired s) (next_id s + 1)).
Proof.
  intros [It Ii Ir Ie Ig In] Hu Hl Hn Heps Hnone. constructor; cbn.
  - intros ns1 ns2 tok' id1 id2. rewrite !lookup_insert. repeat case_decide; try congruence.
    + intros [= -> <-] E. by exfalso; eapply token_unused.
    + intros E [= -> <-]. by exfalso; eapply token_unused.
    + apply It.
  - intros ns1 ns2 t1 t2 id. rewrite !lookup_insert. repeat case_decide; try congruence.
    + intros [= <- <-] E. apply Ir in E. lia.
    + intros E [= <- <-]. apply Ir in E. lia.
    + apply Ii.
  - intros ns' tok' id. rewrite lookup_insert. case_decide.
    + intros [= <- <-]. split; [lia|done].
    + intros E%Ir. split; [lia|tauto].
  - intros id ep H. destruct Heps as [-> | ->]; [apply Ie in H; lia|].
    rewrite lookup_insert in H. case_decide; [injection H as <-; lia|]. apply Ie in H. lia.
  - intros id ep H. destruct (Ig id ep H) as (H1 & H2 & H3). split_and!; [lia..|].
    intros ns' tok'. rewrite lookup_insert. case_decide.
    + intros [= _ <-]. lia.
    + intros E%H3. unfold epoch_of in *. cbn. destruct Heps as [-> | ->]; [done|].
      rewrite lookup_insert_ne by lia. done.
  - lia.
Qed.

Lemma inv_rotate s ns old tok id :
  ns_inv s -> ~ token_used s tok -> length tok = 16%nat -> live s !! ns = Some (old, id) ->
  ns_inv (mkNs (<[ns := (tok, id)]> (live s)) (epochs s) (retired s) (next_id s)).
Proof.
  intros [It Ii Ir Ie Ig In] Hu Hl Hns. constructor; cbn; [..|done|idtac|done].
  - intros ns1 ns2 tok' id1 id2. rewrite !lookup_insert. repeat case_decide; try congruence.
    + intros [= -> <-] E. by exfalso; eapply token_unused.
    + intros E [= -> <-]. by exfalso; eapply token_unused.
    + apply It.
  - intros ns1 ns2 t1 t2 id'. rewrite !lookup_insert. repeat case_decide; try congruence.
    + intros [= <- <-] E. subst. by eapply Ii.
    + intros E [= <- <-]. subst. by eapply Ii.
    + apply Ii.
  - intros ns' tok' id'. rewrite lookup_insert. case_decide; [|apply Ir].
    intros [= <- <-]. split; [by eapply Ir|done].
  - intros id' ep H. destruct (Ig id' ep H) as (H1 & H2 & H3). split_and!; [lia..|].
    intros ns' tok'. rewrite lookup_insert. case_decide; [|apply H3]. intros [= _ <-]. by eapply H3.
Qed.

Lemma spec_add_inv ns tok s :
  ns_inv s -> length tok = 16%nat -> next_id s < 2 ^ 64 - 1 -> ns_inv (spec_add ns tok s).1.
Proof.
  intros H Hl Hn. unfold spec_add. destruct (live s !! ns) as [[? ?]|] eqn:E; [done|].
  case_decide; [done|]. apply inv_alloc; auto.
Qed.

Lemma spec_set_inv ns tok s :
  ns_inv s -> length tok = 16%nat -> next_id s < 2 ^ 64 - 1 -> ns_inv (spec_set ns tok s).1.
Proof.
  intros H Hl Hn. unfold spec_set. destruct (live s !! ns) as [[old id]|] eqn:E.
  - case_decide; [done|]. case_decide; [done|]. by eapply inv_rotate.
  - case_decide; [done|]. apply inv_alloc; auto.
Qed.

Lemma epoch_of_range s id : ns_inv s -> 1 <= epoch_of s id < 2 ^ 64.
Proof.
  intros H. unfold epoch_of. destruct (epochs s !! id) eqn:E; cbn; [|lia]. by destruct (inv_epoch _ H _ _ E).
Qed.

Lemma spec_del_inv ns s : ns_inv s -> ns_inv (spec_del ns s).1.
Proof.
  intros H. unfold spec_del. destruct (live s !! ns) as [[tok id]|] eqn:E; [|done].
  pose proof (epoch_of_range s id H) as Hep. destruct H as [It Ii Ir Ie Ig In].
  assert (forall ns' tok' id', delete ns (live s) !! ns' = Some (tok', id') -> live s !! ns' = Some (tok', id')
    /\ id' <> id) as Hd.
  { intros ns' tok' id'. rewrite lookup_delete_Some. intros [Hne E']. split; [done|]. intros ->.
    apply Hne. by eapply Ii. }
  constructor; cbn.
  - intros ns1 ns2 tok' id1 id2 [H1 _]%Hd [H2 _]%Hd. by eapply It.
  - intros ns1 ns2 t1 t2 id' [H1 _]%Hd [H2 _]%Hd. by eapply Ii.
  - intros ns' tok' id' [H1 _]%Hd. by eapply Ir.
  - intros id' ep. rewrite lookup_delete_Some. intros [_ ?]. by eapply Ie.
  - intros id' ep [[= -> ->]%elem_of_singleton|Hin]%elem_of_union.
    + apply Ir in E as [? _]. split_and!; [lia..|].
      by intros ns' tok' [_ ?]%Hd.
    + destruct (Ig id' ep Hin) as (H1 & H2 & H3). split_and!; [lia..|].
      intros ns' tok' [Hl Hne]%Hd. unfold epoch_of. cbn. rewrite lookup_delete_ne by done. by eapply H3.
  - done.
Qed.

(** ** The records written for a namespace *)

Definition bound (ns token x : bytes) (w : Table) : Table :=
  <[i_key x := ns]> (<[t_key token := x]> (<[n_key ns := token]> w)).

Section Bound.

Context (lv : gmap bytes (bytes * Z)) (w : Table) (ns tok : bytes) (id : Z).
Context (Hid : is_u64 id)
  (Htok : forall ns' id', ns' <> ns -> lv !! ns' = Some (tok, id') -> False)
  (Hids : forall ns' tok' id', ns' <> ns -> lv !! ns' = Some (tok', id') -> is_u64 id' /\ id' <> id).

Let lv' := <[ns := (tok, id)]> lv.

Lemma bound_n :
  (forall ns', ns' <> ns -> w !! n_key ns' = fst <$> lv !! ns') ->
  forall ns', bound ns tok (b255e id) w !! n_key ns' = fst <$> lv' !! ns'.
Proof using All.
  intros H ns'. unfold bound, lv'. tbl. destruct (decide (ns' = ns)) as [->|Hne].
  - by rewrite !lookup_insert_eq.
  - rewrite !lookup_insert_ne; [by apply H|done|by intros E%n_key_inj].
Qed.

Lemma bound_t :
  (forall tok' e, tok' <> tok -> w !! t_key tok' = Some e <->
    exists ns' id', ns' <> ns /\ lv !! ns' = Some (tok', id') /\ e = b255e id') ->
  forall tok' e, bound ns tok (b255e id) w !! t_key tok' = Some e <->
    exists ns' id', lv' !! ns' = Some (tok', id') /\ e = b255e id'.
Proof using All.
  intros H tok' e. unfold bound, lv'. tbl. destruct (decide (tok' = tok)) as [->|Hne].
  - rewrite lookup_insert_eq. split.
    + intros [= <-]. exists ns, id. by rewrite lookup_insert_eq.
    + intros (ns' & id' & Hl & ->). rewrite lookup_insert in Hl. case_decide; [congruence|].
      by exfalso; eapply Htok.
  - rewrite lookup_insert_ne by (by intros E%t_key_inj). tbl. rewrite H by done. split.
    + intros (ns' & id' & Hns & Hl & ->). exists ns', id'. by rewrite lookup_insert_ne.
    + intros (ns' & id' & Hl & ->). rewrite lookup_insert in Hl. case_decide; [congruence|]. eauto.
Qed.

Lemma bound_i :
  (forall x ns', x <> b255e id -> w !! i_key x = Some ns' <->
    exists tok' id', ns' <> ns /\ lv !! ns' = Some (tok', id') /\ x = b255e id') ->
  forall x ns', bound ns tok (b255e id) w !! i_key x = Some ns' <->
    exists tok' id', lv' !! ns' = Some (tok', id') /\ x = b255e id'.
Proof using All.
  intros H x ns'. unfold bound, lv'. destruct (decide (x = b255e id)) as [->|Hne].
  - rewrite lookup_insert_eq. split.
    + intros [= <-]. exists tok, id. by rewrite lookup_insert_eq.
    + intros (tok' & id' & Hl & E). rewrite lookup_insert in Hl. case_decide; [congruence|].
      destruct (Hids ns' tok' id') as [? Hd]; [done..|]. by apply b255e_inj in E.
  - rewrite lookup_insert_ne by (by intros E%i_key_inj). tbl. rewrite H by done. split.
    + intros (tok' & id' & Hns & Hl & ->). exists tok', id'. by rewrite lookup_insert_ne.
    + intros (tok' & id' & Hl & ->). rewrite lookup_insert in Hl. case_decide; [congruence|].
      by exists tok', id'.
Qed.

End Bound.

Lemma live_u64 s ns tok id : ns_inv s -> live s !! ns = Some (tok, id) -> is_u64 id.
Proof. intros H E. destruct (inv_range _ H _ _ _ E), (inv_next _ H). unfold is_u64. lia. Qed.

Lemma retired_u64 s id ep : ns_inv s -> (id, ep) ∈ retired s -> is_u64 id /\ is_u64 ep.
Proof. intros H E. destruct (inv_retired _ H _ _ E) as (? & ? & _), (inv_next _ H). unfold is_u64. lia. Qed.

(** A new namespace, with or without an epoch record. *)
Lemma repr_alloc t s ns tok (with_epoch : bool) :
  ns_repr t s -> ns_inv s -> live s !! ns = None -> ~ token_used s tok -> next_id s < 2 ^ 64 - 1 ->
  let n := next_id s in
  let w := bound ns tok (b255e n) (<[kNextIdKey := to_string (u64 (n + 1))]> t) in
  ns_repr (if with_epoch then <[e_key (b255e n) := lit "1"]> w else w)
    (mkNs (<[ns := (tok, n)]> (live s)) (if with_epoch then <[n := 1]> (epochs s) else epochs s)
       (retired s) (n + 1)).
Proof.
  intros [Rn Rt Ri Re Rg Rgo Rx] Hinv Hnone Hu Hlt n w.
  pose proof (inv_next _ Hinv). assert (is_u64 n) by (unfold is_u64, n; lia).
  assert (forall ns' id', ns' <> ns -> live s !! ns' = Some (tok, id') -> False) as Htok.
  { intros ns' id' _ E. by eapply token_unused. }
  assert (forall ns' tok' id', ns' <> ns -> live s !! ns' = Some (tok', id') -> is_u64 id' /\ id' <> n) as Hids.
  { intros ns' tok' id' _ E. destruct (inv_range _ Hinv _ _ _ E). split; [by eapply live_u64|unfold n; lia]. }
  assert (forall ns' x, live s !! ns' = Some x -> ns' <> ns) as Hns by (intros ns' x E ->; congruence).
  assert (forall k, take 2 k <> lit "e:" -> (if with_epoch then <[e_key (b255e n) := lit "1"]> w else w) !! k = w !! k)
    as He.
  { intros k Hk. destruct with_epoch; [|done]. rewrite lookup_insert_ne; [done|]. by intros <-. }
  constructor; cbn [live epochs retired next_id].
  - intros ns'. rewrite He by done. apply bound_n; [done..|]. intros ns'' _. tbl. apply Rn.
  - intros tok' e. rewrite He by done. apply bound_t; [done..|]. intros tok'' e' _. tbl. rewrite Rt.
    split; [intros (? & ? & ? & ->); eauto 8|intros (? & ? & _ & ?); eauto].
  - intros x ns'. rewrite He by done. apply bound_i; [done..|]. intros x' ns'' _. tbl. rewrite Ri.
    split; [intros (? & ? & ? & ->); eauto 8|intros (? & ? & _ & ?); eauto].
  - intros id Hid. unfold epoch_of. cbn. destruct with_epoch; unfold w, bound; [|tbl; by apply Re].
    destruct (decide (id = n)) as [->|Hne].
    + by rewrite !lookup_insert_eq.
    + rewrite lookup_insert_ne by (by intros E%e_key_inj; apply b255e_inj in E).
      rewrite (lookup_insert_ne (epochs s)) by done. tbl. by apply Re.
  - intros id ep Hid Hep. rewrite He by done. unfold w, bound. tbl. by apply Rg.
  - intros x v. rewrite He by done. unfold w, bound. tbl. apply Rgo.
  - rewrite He by done. unfold w, bound. tbl. cbn. unfold stoull_or_1, u64.
    rewrite Z.mod_small by (unfold n; lia). rewrite stoull_to_string by (unfold is_u64, n; lia). done.
Qed.

(** The token of a namespace is replaced. *)
Lemma repr_rotate t s ns old tok id :
  ns_repr t s -> ns_inv s -> live s !! ns = Some (old, id) -> ~ token_used s tok -> old <> tok ->
  ns_repr (bound ns tok (b255e id) (delete (t_key old) t))
    (mkNs (<[ns := (tok, id)]> (live s)) (epochs s) (retired s) (next_id s)).
Proof.
  intros [Rn Rt Ri Re Rg Rgo Rx] Hinv Hns Hu Hne.
  assert (is_u64 id) by (by eapply live_u64).
  assert (forall ns' id', ns' <> ns -> live s !! ns' = Some (tok, id') -> False) as Htok.
  { intros ns' id' _ E. by eapply token_unused. }
  assert (forall ns' tok' id', ns' <> ns -> live s !! ns' = Some (tok', id') -> is_u64 id' /\ id' <> id) as Hids.
  { intros ns' tok' id' Hd E. split; [by eapply live_u64|]. intros ->. apply Hd. by eapply inv_id. }
  constructor; cbn [live epochs retired next_id].
  - apply bound_n; [done..|]. intros ns' _. tbl. apply Rn.
  - apply bound_t; [done..|]. intros tok' e _. destruct (decide (tok' = old)) as [->|Hd].
    + rewrite lookup_delete_eq. split; [done|]. intros (ns' & id' & Hd & E & _). exfalso. apply Hd.
      by eapply inv_token.
    + rewrite lookup_delete_ne by (by intros E%t_key_inj). rewrite Rt.
      split; intros (ns' & id' & E); exists ns', id'; [|tauto]. split; [|tauto]. intros ->.
      destruct E as [E _]. congruence.
  - apply bound_i; [done..|]. intros x ns' Hx. tbl. rewrite Ri. split; intros (tok' & id' & E); exists tok', id'; [|tauto].
    split; [|tauto]. intros ->. destruct E as [E ->]. congruence.
  - intros id' Hid'. unfold bound. tbl. by apply Re.
  - intros id' ep Hid' Hep. unfold bound. tbl. by apply Rg.
  - intros x v. unfold bound. tbl. apply Rgo.
  - unfold bound. tbl. done.
Qed.

(** The records of a namespace are removed and its prefix is marked. *)
Lemma repr_del t s ns tok id :
  ns_repr t s -> ns_inv s -> live s !! ns = Some (tok, id) ->
  ns_repr (delete (e_key (b255e id)) (delete (i_key (b255e id)) (delete (t_key tok) (delete (n_key ns)
             (<[g_key (b255e id) (epoch_of s id) := lit "1"]> t)))))
    (spec_del ns s).1.
Proof.
  intros [Rn Rt Ri Re Rg Rgo Rx] Hinv Hns. unfold spec_del. rewrite Hns.
  assert (is_u64 id) as Hid by (by eapply live_u64).
  assert (is_u64 (epoch_of s id)) as Hep by (pose proof (epoch_of_range s id Hinv); unfold is_u64; lia).
  constructor; cbn [live epochs retired next_id fst].
  - intros ns'. tbl. destruct (decide (ns' = ns)) as [->|Hne].
    + by rewrite !lookup_delete_eq.
    + rewrite !lookup_delete_ne; [|done|by intros E%n_key_inj]. tbl. apply Rn.
  - intros tok' e. tbl. destruct (decide (tok' = tok)) as [->|Hne].
    + rewrite lookup_delete_eq. split; [done|]. intros (ns' & id' & [Hne E]%lookup_delete_Some & _).
      exfalso. apply Hne. by eapply inv_token.
    + rewrite lookup_delete_ne by (by intros E%t_key_inj). tbl. rewrite Rt.
      split; intros (ns' & id' & E & ->); exists ns', id'.
      * split; [|done]. rewrite lookup_delete_ne; [done|]. intros ->. congruence.
      * by apply lookup_delete_Some in E as [_ E].
  - intros x ns'. tbl. destruct (decide (x = b255e id)) as [->|Hne].
    + rewrite lookup_delete_eq. split; [done|]. intros (tok' & id' & [Hne E]%lookup_delete_Some & Eid).
      apply b255e_inj in Eid as <-; [|done|by eapply live_u64]. exfalso. apply Hne. by eapply inv_id.
    + rewrite lookup_delete_ne by (by intros E%i_key_inj). tbl. rewrite Ri.
      split; intros (tok' & id' & E & ->); exists tok', id'.
      * split; [|done]. rewrite lookup_delete_ne; [done|]. intros ->. congruence.
      * by apply lookup_delete_Some in E as [_ E].
  - intros id' Hid'. unfold epoch_of. cbn. destruct (decide (id' = id)) as [->|Hne].
    + by rewrite !lookup_delete_eq.
    + rewrite lookup_delete_ne by (by intros E%e_key_inj; apply b255e_inj in E).
      rewrite (lookup_delete_ne (epochs s)) by done. tbl. by apply Re.
  - intros id' ep Hid' Hep'. tbl. rewrite elem_of_union, elem_of_singleton.
    destruct (decide ((id', ep) = (id, epoch_of s id))) as [[= -> ->]|Hne].
    + rewrite lookup_insert_eq. split; [by left|by eexists].
    + rewrite lookup_insert_ne by (intros E%g_key_inj; [|done..]; by destruct E; subst). rewrite Rg by done. tauto.
  - intros x v. tbl. rewrite lookup_insert. case_decide as E.
    + intros _. exists id, (epoch_of s id). split; [|done]. by apply elem_of_union_l, elem_of_singleton.
    + intros (id' & ep & Hin & Ek)%Rgo. exists id', ep. split; [|done]. by apply elem_of_union_r.
  - tbl. done.
Qed.

(** ** Refinement of the operations *)

(** The transaction commits what the specification says and returns its
    answer, or an engine call failed, the table is as it was and the answer
    is false. *)
Definition refined (t : Table) (spec : NsState * bool) (ok : list bool) (out : Engine * bool) : Prop :=
  (ns_repr (eng_table out.1) spec.1 /\ out.2 = spec.2)
  \/ (eng_table out.1 = t /\ out.2 = false /\ false ∈ ok).

Lemma refined_ok t spec ok e r : ns_repr (eng_table e) spec.1 -> r = spec.2 -> refined t spec ok (e, r).
Proof. by left. Qed.

Lemma refined_failed t spec ok w ok' : false ∈ ok -> refined t spec ok (mkEngine t w ok', false).
Proof. by right. Qed.

Lemma commit_eq {R : Type} (t w : Table) (ok : list bool) :
  CommitTx (R := R) (mkEngine t w ok) = (mkEngine (if hd true ok then w else t) w (tail ok), inr (hd true ok)).
Proof. done. Qed.

(** Run a transaction up to the next choice of the engine or of the data. *)
Ltac tx_step :=
  match goal with
  | |- context [tx_bind (tx_bind ?m ?f) ?g ?e] => rewrite (bind_assoc m f g e)
  | |- context [tx_bind (tx_ret ?a) ?f ?e] => rewrite (bind_ret a f e)
  | |- context [tx_bind NewTxm ?f (mkEngine ?t ?w ?o)] => rewrite (bind_new t w o f)
  | |- context [tx_bind (TxGet ?k) ?f (mkEngine ?t ?w ?o)] => rewrite (bind_get t w o k f)
  | |- context [tx_bind (TxSet ?k ?v) ?f (mkEngine ?t ?w ?o)] => rewrite (bind_set t w o k v f)
  | |- context [tx_bind (TxDel ?k) ?f (mkEngine ?t ?w ?o)] => rewrite (bind_del t w o k f)
  | |- context [tx_bind AbortTx ?f (mkEngine ?t ?w ?o)] => rewrite (bind_abort t w o f)
  | |- context [tx_bind (or_abort ?r true) ?f (mkEngine ?t ?w ?o)] => rewrite (bind_check_true t w o r f)
  | |- context [tx_bind (or_abort ?r false) ?f (mkEngine ?t ?w ?o)] => rewrite (bind_check_false t w o r f)
  | |- context [tx_bind CommitTx ?f (mkEngine ?t ?w ?o)] => rewrite (bind_commit t w o f)
  | |- context [CommitTx (mkEngine ?t ?w ?o)] => rewrite (commit_eq t w o)
  end;
  cbn [fst snd negb tx_return].
Ltac tx_fail := apply refined_failed; repeat first [apply failed_here; assumption | apply failed_later].
Ltac tx_engine :=
  match goal with
  | |- context [hd true ?o] => destruct (hd true o) eqn:?; cbn [fst snd negb]
  end.
Ltac tx_either :=
  match goal with |- context [hd true ?o] => destruct (hd true o) eqn:?; repeat tx_step end.
Ltac tx := repeat first [progress tx_step | tx_engine; [| solve [repeat tx_step; tx_fail]]].

Lemma repr_t_none t s tok : ns_repr t s -> ~ token_used s tok -> t !! t_key tok = None.
Proof.
  intros H Hu. destruct (t !! t_key tok) eqn:E; [|done].
  apply H in E as (ns & id & E & _). by exfalso; eapply token_unused.
Qed.

Lemma repr_t_some t s tok :
  ns_repr t s -> token_used s tok ->
  exists ns id, live s !! ns = Some (tok, id) /\ t !! t_key tok = Some (b255e id) /\ t !! i_key (b255e id) = Some ns.
Proof.
  intros H (ns & [? id] & E & <-). cbn. exists ns, id. split_and!; [done|..]; apply H; eauto.
Qed.

Lemma next_id_read t s :
  ns_repr t s -> match t !! kNextIdKey with Some x => stoull_or_1 x | None => 1 end = next_id s.
Proof. intros H. rewrite <- (repr_next _ _ H). by destruct (t !! kNextIdKey). Qed.

Lemma b255e_has_id id : is_u64 id -> (length (b255e id) =? 0)%nat = false.
Proof. intros H%b255e_nonempty. by destruct (b255e id). Qed.

Lemma nth_2_tail (ok : list bool) : nth 2 ok true = hd true (tail (tail ok)).
Proof. by destruct ok as [|? [|? [|]]]. Qed.

Lemma nth_3_tail (ok : list bool) : nth 3 ok true = hd true (tail (tail (tail ok))).
Proof. by destruct ok as [|? [|? [|? [|]]]]. Qed.

Section Refinement.

Context (requirepass : bytes) (t w : Table) (s : NsState) (ok : list bool).
Context (Hr : ns_repr t s) (Hi : ns_inv s).

Lemma Add_refined ns token :
  tok_valid token = true -> is_requirepass requirepass token = false -> next_id s < 2 ^ 64 - 1 ->
  refined t (spec_add ns (tok_bytes token) s) ok (tx_run (Add requirepass ns token) (mkEngine t w ok)).
Proof using Hr Hi.
  intros Hv Hp Hn. unfold Add, tx_run, spec_add. rewrite Hv, Hp. cbn [negb]. tx.
  rewrite (repr_n _ _ Hr). destruct (live s !! ns) as [[tok id]|] eqn:E; cbn [fmap option_fmap option_map fst].
  { tx_step. tx_either; by apply refined_ok. }
  tx. case_decide as Hu.
  { destruct (repr_t_some t s _ Hr Hu) as (ns' & id & _ & -> & _). tx. by apply refined_ok. }
  rewrite (repr_t_none t s _ Hr Hu). tx. rewrite (next_id_read t s Hr). tx.
  apply refined_ok; [|done]. by apply (repr_alloc t s ns (tok_bytes token) true).
Qed.

Lemma Set_refined ns token :
  tok_valid token = true -> is_requirepass requirepass token = false -> next_id s < 2 ^ 64 - 1 ->
  refined t (spec_set ns (tok_bytes token) s) ok (tx_run (Set_ requirepass ns token) (mkEngine t w ok)).
Proof using Hr Hi.
  intros Hv Hp Hn. unfold Set_, Set_write, tx_run, spec_set. rewrite Hv, Hp. cbn [negb]. tx.
  destruct (decide (token_used s (tok_bytes token))) as [Hu|Hu].
  - destruct (repr_t_some t s _ Hr Hu) as (ns' & id & El & -> & Eo). tx. rewrite Eo.
    destruct (decide (ns' = ns)) as [->|Hne].
    + rewrite bool_decide_true by done. tx. rewrite (repr_n _ _ Hr), El. cbn [fmap option_fmap option_map fst].
      rewrite bool_decide_true, decide_True by done. tx_step. tx_either; by apply refined_ok.
    + rewrite bool_decide_false by done. tx. destruct (live s !! ns) as [[tok id']|] eqn:E; [|by apply refined_ok].
      rewrite decide_False; [by apply refined_ok|]. intros ->. apply Hne. by eapply inv_token.
  - rewrite (repr_t_none t s _ Hr Hu). tx. rewrite (repr_n _ _ Hr).
    destruct (live s !! ns) as [[tok id]|] eqn:E; cbn [fmap option_fmap option_map fst].
    + assert (tok <> tok_bytes token) as Hne by (intros ->; by eapply token_unused).
      rewrite bool_decide_false, decide_False by done.
      assert (t !! t_key tok = Some (b255e id)) as Et by (apply Hr; eauto).
      tx_step. tx_engine; [|cbn; repeat tx_either; tx_fail]. rewrite Et. cbn [default Datatypes.id]. tx. rewrite b255e_has_id by (by eapply live_u64). cbn [negb]. tx. apply refined_ok; [|done]. by eapply repr_rotate.
    + tx. rewrite (next_id_read t s Hr). tx.
      apply refined_ok; [|done]. by apply (repr_alloc t s ns (tok_bytes token) false).
Qed.

Lemma Del_refined ns :
  nth 2 ok true = true -> nth 3 ok true = true ->
  refined t (spec_del ns s) ok (tx_run (Del ns) (mkEngine t w ok)).
Proof using Hr Hi.
  intros H2 H3. rewrite nth_2_tail in H2. rewrite nth_3_tail in H3. unfold Del, tx_run. tx. rewrite (repr_n _ _ Hr).
  destruct (live s !! ns) as [[tok id]|] eqn:E; cbn [fmap option_fmap option_map fst].
  - pose proof (repr_del t s ns tok id Hr Hi E) as Hd. assert (is_u64 id) as Hid by (by eapply live_u64).
    assert (t !! t_key tok = Some (b255e id)) as Et by (apply Hr; eauto).
    tx_step. rewrite H2, Et. cbn [default Datatypes.id]. rewrite b255e_has_id by done. cbn [negb].
    tx_step. tx_step. rewrite H3. replace (match t !! e_key (b255e id) with Some x => stoull_or_1 x | None => 1 end)
      with (epoch_of s id) by (rewrite <- (repr_e _ _ Hr) by done; by destruct (t !! e_key _)).
    tx. apply refined_ok; [done|]. unfold spec_del. by rewrite E.
  - tx. unfold spec_del. rewrite E. by apply refined_ok.
Qed.

End Refinement.

(** ** Reading the bindings *)

(** The third and fourth requests of a transaction succeed.  In [ByToken] and
    in [Del] they are reads whose failure the code takes for an absent record. *)
Definition reads_ok (ok : list bool) : Prop := nth 2 ok true = true /\ nth 3 ok true = true.

Lemma epoch_read t s id :
  ns_repr t s -> is_u64 id ->
  match t !! e_key (b255e id) with Some x => stoull_or_1 x | None => 1 end = epoch_of s id.
Proof. intros H Hid. rewrite <- (repr_e _ _ H) by done. by destruct (t !! e_key _). Qed.

(** What a lookup of a token gives: a name that could not be read is empty, and
    an epoch that could not be read is 1. *)
Lemma ByToken_any requirepass t w s ok token :
  ns_repr t s -> ns_inv s ->
  let out := tx_run (ByToken requirepass token) (mkEngine t w ok) in
  eng_table out.1 = t
  /\ ((exists ns id, live s !! ns = Some (tok_bytes token, id) /\ tok_valid token = true
         /\ out.2 = (if nth 2 ok true then ns else [], b255e id, if nth 3 ok true then epoch_of s id else 1))
      \/ out.2 = ([], [], 1)).
Proof.
  intros Hr Hi. rewrite nth_2_tail, nth_3_tail. unfold ByToken, tx_run.
  destruct (tok_valid token); cbn [negb]; [|by split; [|right]].
  destruct (is_requirepass requirepass token); [by split; [|right]|].
  tx_step. tx_engine; [|by split; [|right]]. tx_step. tx_engine; [|tx_step; tx_either; by split; [|right]].
  destruct (decide (token_used s (tok_bytes token))) as [Hu|Hu].
  - destruct (repr_t_some t s _ Hr Hu) as (ns & id & El & -> & Ei). repeat tx_step.
    split; [by tx_either|]. left. exists ns, id. split_and!; [done..|]. cbn [snd].
    destruct (hd true (tail (tail ok))); rewrite ?Ei; (destruct (hd true (tail (tail (tail ok)))); [|done]);
      by rewrite (epoch_read t s id Hr) by (by eapply live_u64).
  - rewrite (repr_t_none t s _ Hr Hu). repeat tx_step. tx_either; by split; [|right].
Qed.

Lemma ByToken_run requirepass t w s ok token :
  ns_repr t s -> ns_inv s -> reads_ok ok ->
  let out := tx_run (ByToken requirepass token) (mkEngine t w ok) in
  eng_table out.1 = t
  /\ ((exists ns id, live s !! ns = Some (tok_bytes token, id) /\ out.2 = (ns, b255e id, epoch_of s id)
         /\ tok_valid token = true)
      \/ out.2 = ([], [], 1)).
Proof.
  intros Hr Hi [H2 H3]. pose proof (ByToken_any requirepass t w s ok token Hr Hi) as Hb. cbn zeta in *. rewrite H2, H3 in Hb.
  destruct Hb as [Ht [(ns & id & Hl & Hv & ->)| ->]]; (split; [done|]); [left; eauto|by right].
Qed.

(** With no failing request the token of a live namespace is found. *)
Lemma ByToken_live requirepass t w s ok token ns id :
  ns_repr t s -> ns_inv s -> false ∉ ok -> tok_valid token = true -> is_requirepass requirepass token = false ->
  live s !! ns = Some (tok_bytes token, id) ->
  (tx_run (ByToken requirepass token) (mkEngine t w ok)).2 = (ns, b255e id, epoch_of s id).
Proof.
  intros Hr Hi Hok Hv Hp El. unfold ByToken, tx_run. rewrite Hv, Hp. cbn [negb].
  assert (forall o : list bool, (false ∉ o) -> hd true o = true /\ (false ∉ tail o)) as Hhd.
  { intros [|[] o] Ho; cbn; [set_solver..|]. exfalso. apply Ho. left. }
  destruct (Hhd _ Hok) as [E0 Hok1]. destruct (Hhd _ Hok1) as [E1 Hok2].
  destruct (Hhd _ Hok2) as [E2 Hok3]. destruct (Hhd _ Hok3) as [E3 _].
  assert (t !! t_key (tok_bytes token) = Some (b255e id)) as Et by (apply Hr; eauto).
  assert (t !! i_key (b255e id) = Some ns) as Ei by (apply Hr; eauto).
  tx_step. rewrite E0. cbn [negb]. tx_step. rewrite E1, Et. cbn [snd]. repeat tx_step. rewrite E2, E3, Ei. cbn [default Datatypes.id].
  by rewrite (epoch_read t s id Hr) by (by eapply live_u64).
Qed.

Lemma GetToken_run t w s ok ns :
  ns_repr t s -> ns_inv s ->
  let out := tx_run (GetToken ns) (mkEngine t w ok) in
  eng_table out.1 = t
  /\ (tok_valid out.2 = true -> exists id, live s !! ns = Some (tok_bytes out.2, id))
  /\ ((false ∉ ok) -> tok_valid out.2 = true <-> is_Some (live s !! ns)).
Proof.
  intros Hr Hi. unfold GetToken, tx_run. tx_step.
  tx_engine; [|cbn; split_and!; [done..|]; intros []; by apply failed_here].
  tx_step. tx_engine; [|cbn; split_and!; [done..|]; intros []; by apply failed_later, failed_here].
  repeat tx_step. rewrite (repr_n _ _ Hr). destruct (live s !! ns) as [[tok id]|] eqn:E; cbn.
  - destruct (inv_range _ Hi _ _ _ E) as [_ Hl]. tx_engine; cbn.
    + unfold token_of_raw. rewrite Hl. cbn. split_and!; eauto. intros _. split; [by eexists|done].
    + split_and!; [done..|]. intros []. by apply failed_later, failed_later, failed_here.
  - split; [by tx_either|]. split; [done|]. intros _. split; [done|by intros []].
Qed.

(** ** Flushing *)

(** The writes of [ExecuteFlushDBCommand] for a namespace, with the error
    message of the failure, inside the caller's transaction. *)
Definition FlushDB_tx (auto_commit : bool) (encoded_id : bytes) (old_epoch : Z) : Tx (option bytes) (option bytes) :=
  let new_epoch := u64 (old_epoch + 1) in
  let failed message : Tx (option bytes) unit :=
    if auto_commit then AbortTx ;;t tx_return (Some message) else tx_return (Some message) in
  success <-t TxSet (e_key encoded_id) (to_string new_epoch);
  (if success : bool then tx_ret tt else failed (lit "Failed to update namespace epoch in DB")) ;;t
  success <-t TxSet (g_key encoded_id old_epoch) (lit "1");
  (if success : bool then tx_ret tt else failed (lit "Failed to register namespace GC record in DB")) ;;t
  if auto_commit then
    commit_success <-t CommitTx;
    if commit_success : bool then tx_return None else tx_return (Some (lit "Commit failed"))
  else tx_return None.

Definition spec_flush (id : Z) (s : NsState) : NsState :=
  mkNs (live s) (<[id := epoch_of s id + 1]> (epochs s)) ({[(id, epoch_of s id)]} ∪ retired s) (next_id s).

Lemma epoch_of_flush id id' s :
  epoch_of (spec_flush id s) id' = if decide (id' = id) then epoch_of s id + 1 else epoch_of s id'.
Proof.
  unfold epoch_of at 1, spec_flush. cbn [epochs]. case_decide as E; [subst; by rewrite lookup_insert_eq|].
  by rewrite lookup_insert_ne.
Qed.

Lemma spec_flush_inv s ns tok id :
  ns_inv s -> live s !! ns = Some (tok, id) -> epoch_of s id < 2 ^ 64 - 1 -> ns_inv (spec_flush id s).
Proof.
  intros H E He. pose proof (epoch_of_range s id H) as Hep. destruct H as [It Ii Ir Ie Ig In].
  assert (1 <= id < next_id s) by (by apply Ir in E as [? _]).
  constructor; cbn [live epochs retired next_id spec_flush]; [done..| | |done].
  - intros id' ep. cbn. rewrite lookup_insert. case_decide; [intros [= <-]; lia|apply Ie].
  - intros id' ep [[= -> ->]%elem_of_singleton|Hin]%elem_of_union.
    + split_and!; [lia..|]. intros ns' tok' _. rewrite epoch_of_flush, decide_True by done. lia.
    + destruct (Ig id' ep Hin) as (H1 & H2 & H3). split_and!; [lia..|]. intros ns' tok' E'%H3.
      rewrite epoch_of_flush. case_decide; [subst; lia|done].
Qed.

Lemma repr_flush t s ns tok id :
  ns_repr t s -> ns_inv s -> live s !! ns = Some (tok, id) -> epoch_of s id < 2 ^ 64 - 1 ->
  ns_repr (<[g_key (b255e id) (epoch_of s id) := lit "1"]>
             (<[e_key (b255e id) := to_string (u64 (epoch_of s id + 1))]> t)) (spec_flush id s).
Proof.
  intros [Rn Rt Ri Re Rg Rgo Rx] Hinv Hns Hlt. pose proof (epoch_of_range s id Hinv).
  assert (is_u64 id) as Hid by (by eapply live_u64). assert (is_u64 (epoch_of s id)) by (unfold is_u64; lia).
  constructor; cbn [live epochs retired next_id spec_flush].
  - intros ns'. tbl. apply Rn.
  - intros tok' e. tbl. apply Rt.
  - intros x ns'. tbl. apply Ri.
  - intros id' Hid'. rewrite lookup_insert_ne by key_ne. rewrite epoch_of_flush.
    destruct (decide (id' = id)) as [->|Hne].
    + rewrite !lookup_insert_eq. cbn. unfold stoull_or_1, u64. rewrite Z.mod_small by lia.
      by rewrite stoull_to_string by (unfold is_u64; lia).
    + rewrite lookup_insert_ne by (by intros E%e_key_inj; apply b255e_inj in E).
      by apply Re.
  - intros id' ep Hid' Hep. rewrite elem_of_union, elem_of_singleton.
    destruct (decide ((id', ep) = (id, epoch_of s id))) as [[= -> ->]|Hne].
    + rewrite lookup_insert_eq. split; [by left|by eexists].
    + rewrite lookup_insert_ne by (intros E%g_key_inj; [|done..]; by destruct E; subst). tbl.
      rewrite Rg by done. tauto.
  - intros x v. rewrite lookup_insert. case_decide as E.
    + intros _. exists id, (epoch_of s id). split; [|done]. by apply elem_of_union_l, elem_of_singleton.
    + tbl. intros (id' & ep & Hin & Ek)%Rgo. exists id', ep. split; [|done]. by apply elem_of_union_r.
  - tbl. done.
Qed.

(** A flush with its own transaction commits the new epoch with the marker of
    the old one, or changes nothing and reports an error. *)
Lemma FlushDB_run t s ns tok id ok :
  ns_repr t s -> ns_inv s -> live s !! ns = Some (tok, id) -> epoch_of s id < 2 ^ 64 - 1 ->
  let out := tx_run (FlushDB_tx true (b255e id) (epoch_of s id)) (mkEngine t t ok) in
  (out.2 = None /\ ns_repr (eng_table out.1) (spec_flush id s))
  \/ (is_Some out.2 /\ eng_table out.1 = t /\ false ∈ ok).
Proof.
  intros Hr Hi Hns Hlt. unfold FlushDB_tx, tx_run. tx_step.
  tx_engine; [|repeat tx_step; right; cbn; split_and!; [done..|by apply failed_here]].
  repeat tx_step. tx_engine; [|repeat tx_step; right; cbn; split_and!; [done..|by apply failed_later, failed_here]].
  repeat tx_step. tx_engine; [|right; cbn; split_and!; [done..|by apply failed_later, failed_later, failed_here]].
  left. split; [done|]. by eapply repr_flush.
Qed.

(** ** A record is collected *)

Definition spec_collect (id ep : Z) (s : NsState) : NsState :=
  mkNs (live s) (epochs s) (retired s ∖ {[(id, ep)]}) (next_id s).

Lemma spec_collect_inv id ep s : ns_inv s -> ns_inv (spec_collect id ep s).
Proof.
  intros [It Ii Ir Ie Ig In]. constructor; cbn; [done..| |done].
  intros id' ep' [Hin _]%elem_of_difference. by apply Ig.
Qed.

Lemma repr_collect t s id ep :
  ns_repr t s -> ns_inv s -> is_u64 id -> is_u64 ep ->
  ns_repr (delete (g_key (b255e id) ep) t) (spec_collect id ep s).
Proof.
  intros [Rn Rt Ri Re Rg Rgo Rx] Hi Hid Hep. constructor; cbn [live epochs retired next_id spec_collect].
  - intros ns. tbl. apply Rn.
  - intros tok e. tbl. apply Rt.
  - intros x ns. tbl. apply Ri.
  - intros id' Hid'. tbl. by apply Re.
  - intros id' ep' Hid' Hep'. rewrite elem_of_difference, elem_of_singleton.
    destruct (decide ((id', ep') = (id, ep))) as [[= -> ->]|Hne].
    + rewrite lookup_delete_eq. split; [by intros []|tauto].
    + rewrite lookup_delete_ne by (intros E%g_key_inj; [|done..]; by destruct E; subst). rewrite Rg by done. tauto.
  - intros x v. rewrite lookup_delete_Some. intros [Hne E]. apply Rgo in E as (id' & ep' & Hin & Ek).
    exists id', ep'. split; [|done]. apply elem_of_difference. split; [done|].
    rewrite elem_of_singleton. intros [= -> ->]. by apply Hne.
  - tbl. done.
Qed.

(** ** Histories *)

Inductive NsOp :=
| OpAdd (ns : bytes) (token : NamespaceToken)
| OpSet (ns : bytes) (token : NamespaceToken)
| OpDel (ns : bytes).

Section History.

Variable requirepass : bytes.

Definition op_tx (op : NsOp) : Tx bool bool :=
  match op with
  | OpAdd ns token => Add requirepass ns token
  | OpSet ns token => Set_ requirepass ns token
  | OpDel ns => Del ns
  end.

(** Each operation with the outcomes of its requests, in turn. *)
Fixpoint run_history (hist : list (NsOp * list bool)) (t : Table) : Table * list bool :=
  match hist with
  | [] => (t, [])
  | (op, ok) :: hist' =>
      let '(e, r) := tx_run (op_tx op) (mkEngine t t ok) in
      let '(t', rs) := run_history hist' (eng_table e) in (t', r :: rs)
  end.

Definition spec_op (op : NsOp) (s : NsState) : NsState * bool :=
  match op with
  | OpAdd ns token =>
      if tok_valid token && negb (is_requirepass requirepass token) then spec_add ns (tok_bytes token) s else (s, false)
  | OpSet ns token =>
      if tok_valid token && negb (is_requirepass requirepass token) then spec_set ns (tok_bytes token) s else (s, false)
  | OpDel ns => spec_del ns s
  end.

(** The operations that are not dropped happen one after the other; a
    dropped one answers false. *)
Fixpoint spec_history (hist : list (NsOp * list bool)) (drops : list bool) (s : NsState) : NsState * list bool :=
  match hist, drops with
  | (op, _) :: hist', dropped :: drops' =>
      let '(s1, r) := if dropped : bool then (s, false) else spec_op op s in
      let '(s2, rs) := spec_history hist' drops' s1 in (s2, r :: rs)
  | _, _ => (s, [])
  end.

Definition op_wf (o : NsOp * list bool) : Prop :=
  match o.1 with
  | OpAdd _ token | OpSet _ token => length (tok_bytes token) = 16%nat
  | OpDel _ => reads_ok o.2
  end.

Lemma spec_op_next op s : next_id s <= next_id (spec_op op s).1 <= next_id s + 1.
Proof.
  destruct op as [ns token|ns token|ns]; cbn; unfold spec_add, spec_set, spec_del;
    repeat case_match; cbn; lia.
Qed.

Lemma spec_op_inv op ok s : ns_inv s -> op_wf (op, ok) -> next_id s < 2 ^ 64 - 1 -> ns_inv (spec_op op s).1.
Proof.
  intros Hi Hw Hn. destruct op as [ns token|ns token|ns]; cbn; [| |by apply spec_del_inv].
  - destruct (_ && _); [by apply spec_add_inv|done].
  - destruct (_ && _); [by apply spec_set_inv|done].
Qed.

Lemma op_refined op ok t w s :
  ns_repr t s -> ns_inv s -> op_wf (op, ok) -> next_id s < 2 ^ 64 - 1 ->
  refined t (spec_op op s) ok (tx_run (op_tx op) (mkEngine t w ok)).
Proof.
  intros Hr Hi Hw Hn. destruct op as [ns token|ns token|ns]; cbn -[tx_run]; [| |destruct Hw; by apply Del_refined].
  - destruct (tok_valid token) eqn:Ev; [destruct (is_requirepass requirepass token) eqn:Ep|]; cbn [negb andb].
    + unfold Add. rewrite Ev, Ep. by apply refined_ok.
    + by apply Add_refined.
    + unfold Add. rewrite Ev. by apply refined_ok.
  - destruct (tok_valid token) eqn:Ev; [destruct (is_requirepass requirepass token) eqn:Ep|]; cbn [negb andb].
    + unfold Set_. rewrite Ev, Ep. by apply refined_ok.
    + by apply Set_refined.
    + unfold Set_. rewrite Ev. by apply refined_ok.
Qed.

Lemma history_refines hist : forall t s,
  ns_repr t s -> ns_inv s -> Forall op_wf hist -> next_id s + zlen hist < 2 ^ 64 ->
  exists drops,
    Forall2 (fun o (d : bool) => d = true -> false ∈ o.2) hist drops
    /\ ns_repr (run_history hist t).1 (spec_history hist drops s).1
    /\ ns_inv (spec_history hist drops s).1
    /\ (run_history hist t).2 = (spec_history hist drops s).2.
Proof.
  induction hist as [|[op ok] hist IH]; intros t s Hr Hi Hw Hn.
  { exists []. by split_and!. }
  inversion_clear Hw. rewrite zlen_cons in Hn. pose proof (zlen_nonneg hist).
  pose proof (op_refined op ok t t s Hr Hi ltac:(done) ltac:(lia)) as Hop. cbn.
  destruct (tx_run _ _) as [e r]. destruct Hop as [[Hr' Er]|(Et & Er & Hf)]; cbn in *; subst r.
  - pose proof (spec_op_next op s).
    destruct (IH (eng_table e) (spec_op op s).1) as (drops & Hd & HA & HB & HC); [done|by eapply spec_op_inv; [| |lia]|done|lia|].
    exists (false :: drops). cbn. destruct (spec_op op s) as [s1 r1]. cbn in *.
    destruct (run_history hist _), (spec_history hist drops s1). cbn in *. subst. split_and!; [|done..].
    by constructor.
  - destruct (IH t s) as (drops & Hd & HA & HB & HC); [done..|lia|].
    exists (true :: drops). cbn. rewrite Et. destruct (run_history hist _), (spec_history hist drops s). cbn in *. subst.
    split_and!; [|done..]. by constructor.
Qed.

End History.

(** ** Properties *)

(** C4: Any history of fewer than 2^64 - 1 NAMESPACE ADD, REFRESH and DEL
    transactions on an empty table, with tokens of 16 bytes, in which neither
    the third nor the fourth request of a DEL (its reads of the token and of the
    epoch) fails and any other engine request may, leaves a table that represents the state reached
    by the abstract operations in the same order.  Each operation either has
    the effect and the answer of the abstract one, or is dropped: it answers
    false and changes nothing.  Only an operation in which some request failed
    can be dropped; one whose failed request carried no change (the commit of
    an ADD or a REFRESH that repeats the namespace's token, whose result the
    code ignores) still has the effect and the answer of the abstract one.  In
    the state no two namespaces share a token or an identifier, and no retired
    prefix is the current prefix of a live namespace. *)
Theorem storage_history (requirepass : bytes) (hist : list (NsOp * list bool)) :
  Forall op_wf hist -> zlen hist < 2 ^ 64 - 1 ->
  exists drops,
    Forall2 (fun o (dropped : bool) => dropped = true -> false ∈ o.2) hist drops
    /\ ns_repr (run_history requirepass hist ∅).1 (spec_history requirepass hist drops ns_empty).1
    /\ ns_inv (spec_history requirepass hist drops ns_empty).1
    /\ (run_history requirepass hist ∅).2 = (spec_history requirepass hist drops ns_empty).2.
Proof.
  intros Hw Hn. apply history_refines; [apply ns_empty_repr|apply ns_empty_inv|done|]. cbn. lia.
Qed.

Definition demo_token (b : byte) : NamespaceToken := mkToken (replicate 16 b) true.

Lemma storage_history_witness :
  let hist := [(OpAdd (lit "a") (demo_token Init.Byte.x78), []);
               (OpSet (lit "a") (demo_token Init.Byte.x79), [true; true; true; true; true; false]);
               (OpAdd (lit "b") (demo_token Init.Byte.x78), []); (OpDel (lit "a"), [])] in
  (run_history (lit "admin") hist ∅).2 = [true; false; false; true]
  /\ exists drops,
    Forall2 (fun o (dropped : bool) => dropped = true -> false ∈ o.2) hist drops
    /\ ns_repr (run_history (lit "admin") hist ∅).1 (spec_history (lit "admin") hist drops ns_empty).1
    /\ ns_inv (spec_history (lit "admin") hist drops ns_empty).1
    /\ (run_history (lit "admin") hist ∅).2 = (spec_history (lit "admin") hist drops ns_empty).2.
Proof.
  split; [vm_compute; reflexivity|]. apply storage_history; [repeat constructor|vm_compute; reflexivity].
Defined.

(** When the read of a namespace's token record fails, NAMESPACE DEL goes
    on as if the record were absent: it commits and reports success, leaves the
    identifier record behind, and writes no marker, so that the data of the
    namespace is never collected. *)
Theorem del_read_failure_leaks (t : Table) (s : NsState) (ns tok : bytes) (id : Z) :
  ns_repr t s -> ns_inv s -> live s !! ns = Some (tok, id) -> (id, epoch_of s id) ∉ retired s ->
  let '(e, r) := tx_run (Del ns) (mkEngine t t [true; true; false]) in
  r = true /\ eng_table e !! n_key ns = None /\ eng_table e !! i_key (b255e id) = Some ns
  /\ eng_table e !! g_key (b255e id) (epoch_of s id) = None.
Proof.
  intros Hr Hi Hns Hret. unfold Del, tx_run.
  repeat (tx_step; cbn [hd tail negb snd]). rewrite (repr_n _ _ Hr), Hns.
  cbn [fmap option_fmap option_map fst]. repeat (tx_step; cbn [hd tail snd default length Nat.eqb negb]). pose proof (epoch_of_range s id Hi).
  assert (is_u64 id) by (by eapply live_u64). assert (is_u64 (epoch_of s id)) by (unfold is_u64; lia).
  split; [done|]. cbn [eng_table]. tbl. split; [done|]. split; [apply Hr; eauto|].
  apply eq_None_not_Some. tbl. by rewrite (repr_g _ _ Hr).
Qed.

Lemma add_one_inv :
  let t := (run_history (lit "admin") [(OpAdd (lit "a") (demo_token Init.Byte.x78), [])] ∅).1 in
  let s := mkNs {[lit "a" := (replicate 16 Init.Byte.x78, 1)]} {[1 := 1]} ∅ 2 in
  ns_repr t s /\ ns_inv s.
Proof.
  cbn zeta. pose proof (Add_refined (lit "admin") ∅ ∅ ns_empty [] ns_empty_repr ns_empty_inv (lit "a") (demo_token Init.Byte.x78)
    eq_refl eq_refl eq_refl) as [[Hr _]|(_ & _ & Hf)]; [|by inversion Hf].
  split; [exact Hr|]. apply (spec_add_inv (lit "a") (replicate 16 Init.Byte.x78) ns_empty ns_empty_inv); done.
Qed.

Lemma del_read_failure_leaks_witness :
  let t := (run_history (lit "admin") [(OpAdd (lit "a") (demo_token Init.Byte.x78), [])] ∅).1 in
  let '(e, r) := tx_run (Del (lit "a")) (mkEngine t t [true; true; false]) in
  r = true /\ eng_table e !! n_key (lit "a") = None /\ eng_table e !! i_key (b255e 1) = Some (lit "a")
  /\ eng_table e !! g_key (b255e 1) 1 = None.
Proof.
  destruct add_one_inv as [Hr Hi].
  apply (del_read_failure_leaks _ _ (lit "a") (replicate 16 Init.Byte.x78) 1 Hr Hi); [vm_compute; reflexivity|].
  apply not_elem_of_empty.
Defined.
