(* ===== verification/NamespaceGc.v ===== *)
(** * The namespace collector

    [NamespaceGc] (src/namespace/gc.cpp) goes through the markers of retired
    prefixes, deletes the keys of each prefix from the tenants' table in
    repeated scan-and-delete rounds, and removes the marker when a scan shows
    no live record.  Of every plan of a scan it reads the first batch only, and
    does not ask whether the plan is exhausted.  What a scan of the engine
    returns is an argument; all that is assumed of it is that the live records
    it returns are in the table and in the range. *)

From S2P Require Import Prelude Codec EloqString Encoding StringNum EloqKey NamespaceStorage.

Set Warnings "-clear-no-such-hyp".
#[local] Open Scope tx_scope.

(** The key range of a scan: lower bound included, upper bound excluded. *)
Definition in_range (lo hi k : bytes) : bool := range_has (key_Raw lo, true, key_Raw hi) (Key (es_own k)).

(** [ScanBatchTuple]: a key and the status of its record, which is [Normal] or,
    as for a record that was deleted, another one. *)
Inductive RecordStatus := Normal | OtherStatus.
#[global] Instance RecordStatus_eq_dec : EqDecision RecordStatus.
Proof. solve_decision. Defined.

Record ScanTuple := mkTuple { tuple_key : bytes; tuple_status : RecordStatus }.

(** A scan of the engine gives plans of batches. *)
Abbreviation Scan := (Table -> bytes -> bytes -> list (list (list ScanTuple))).

(** The keys that a loop over a batch takes. *)
Definition normal_keys (batch : list ScanTuple) : list bytes :=
  tuple_key <$> filter (fun tuple => tuple_status tuple = Normal) batch.

(** The live records a scan returns are in the table and in the range. *)
Class ScanLaws (scan : Scan) : Prop := {
  scan_sound : forall t lo hi plan batch k, plan ∈ scan t lo hi -> batch ∈ plan -> k ∈ normal_keys batch ->
    is_Some (t !! k) /\ in_range lo hi k = true
}.

(** The live records in the first batches of the plans. *)
Definition shown (scan : Scan) (t : Table) (lo hi : bytes) : list bytes :=
  mjoin ((fun plan => normal_keys (hd [] plan)) <$> scan t lo hi).

Definition kGcScanEnd : bytes := lit "g;".

Section Gc.

Context (scan : Scan).

(** The live records of the first batch of every plan; [None] when a request
    fails. *)
Fixpoint first_batches {R} (plans : list (list (list ScanTuple))) (acc : list bytes) : Tx R (option (list bytes)) :=
  match plans with
  | [] => tx_ret (Some acc)
  | plan :: plans' =>
      success <-t outcome;
      if success : bool then first_batches plans' (acc ++ normal_keys (hd [] plan)) else tx_ret None
  end.

Definition open_scan {R} (lo hi : bytes) : Tx R (list (list (list ScanTuple))) :=
  fun e => (e, inr (scan (eng_tx e) lo hi)).

Definition ScanGCRecords : Tx (list bytes) (list bytes) :=
  txm <-t NewTxm;
  if negb txm then tx_return []
  else
    success <-t outcome;
    or_abort [] success ;;t
    success <-t outcome;
    or_abort [] success ;;t
    plans <-t open_scan kGcPrefix kGcScanEnd;
    gc_records <-t first_batches plans [];
    AbortTx ;;t
    match gc_records with
    | None => tx_return []
    | Some gc_records => tx_return gc_records
    end.

Fixpoint delete_keys {R} (keys : list bytes) : Tx R bool :=
  match keys with
  | [] => tx_ret true
  | k :: keys' =>
      success <-t TxDel k;
      if success : bool then delete_keys keys' else tx_ret false
  end.

(** One turn of the loop of [CleanPrefixKeys]: return, or go on.  The first
    outcome says whether the server keeps running. *)
Definition clean_round (old_prefix : bytes) : Tx bool unit :=
  running <-t outcome;
  if negb running then tx_return false
  else
    txm <-t NewTxm;
    if negb txm then tx_ret tt
    else
      success <-t outcome;
      if negb success then AbortTx
      else
        success <-t outcome;
        if negb success then AbortTx
        else
          plans <-t open_scan old_prefix (MakePrefixNext old_prefix);
          keys_to_delete <-t first_batches plans [];
          AbortTx ;;t
          match keys_to_delete with
          | None => tx_return false
          | Some [] => tx_return true
          | Some keys_to_delete =>
              txm_del <-t NewTxm;
              if negb txm_del then tx_ret tt
              else
                delete_success <-t delete_keys keys_to_delete;
                if delete_success : bool then CommitTx ;;t tx_ret tt else AbortTx
          end.

(** The loop, with the rounds it may take; [None] when they are used up. *)
Fixpoint CleanPrefixKeys (fuel : nat) (old_prefix : bytes) (e : Engine) : Engine * option bool :=
  match fuel with
  | O => (e, None)
  | S fuel' =>
      match clean_round old_prefix e with
      | (e', inl r) => (e', Some r)
      | (e', inr _) => CleanPrefixKeys fuel' old_prefix e'
      end
  end.

Definition DeleteGCRecord (gc_key : bytes) : Tx unit unit :=
  txm <-t NewTxm;
  if negb txm then tx_return tt
  else
    success <-t TxDel gc_key;
    if success : bool then CommitTx ;;t tx_return tt else AbortTx ;;t tx_return tt.

(** The prefix a marker stands for. *)
Definition gc_prefix (gc_key : bytes) : option bytes :=
  let rest := drop 2 gc_key in
  let first_colon := find_char (z2b 58) rest in
  if (first_colon =? length rest)%nat then None
  else
    let encoded_ns_id := take first_colon rest in
    let epoch_str := drop (first_colon + 1) rest in
    (fun epoch => MakePrefix encoded_ns_id epoch) <$> stoull epoch_str.

(** The namespace table, the tenants' data, the outcomes of the coming
    transactions, and whether the server is still running at each check. *)
Record GcState := mkGc { gc_table : Table; gc_data : Table; gc_ok : list (list bool); gc_running : list bool }.

Definition gc_drop_record (gc_key : bytes) (g : GcState) : GcState :=
  let '(e, _) := tx_run (DeleteGCRecord gc_key) (mkEngine (gc_table g) (gc_table g) (hd [] (gc_ok g))) in
  mkGc (eng_table e) (gc_data g) (tail (gc_ok g)) (gc_running g).

(** The work of the daemon on one marker; [None] when the rounds are used up. *)
Definition gc_record (fuel : nat) (gc_key : bytes) (g : GcState) : option GcState :=
  match gc_prefix gc_key with
  | None => Some (gc_drop_record gc_key g)
  | Some old_prefix =>
      let '(e, cleanup_complete) := CleanPrefixKeys fuel old_prefix (mkEngine (gc_data g) (gc_data g) (hd [] (gc_ok g))) in
      let g := mkGc (gc_table g) (eng_table e) (tail (gc_ok g)) (gc_running g) in
      match cleanup_complete with
      | None => None
      | Some true => Some (gc_drop_record gc_key g)
      | Some false => Some g
      end
  end.

(** A pass of the daemon over the markers it found, until the server stops. *)
Fixpoint gc_records (fuel : nat) (keys : list bytes) (g : GcState) : option GcState :=
  match keys with
  | [] => Some g
  | k :: keys' =>
      let running := hd true (gc_running g) in
      let g := mkGc (gc_table g) (gc_data g) (gc_ok g) (tail (gc_running g)) in
      if running then gc_record fuel k g ≫= gc_records fuel keys' else Some g
  end.

Definition gc_pass (fuel : nat) (g : GcState) : option GcState :=
  let '(e, keys) := tx_run ScanGCRecords (mkEngine (gc_table g) (gc_table g) (hd [] (gc_ok g))) in
  gc_records fuel keys (mkGc (eng_table e) (gc_data g) (tail (gc_ok g)) (gc_running g)).

End Gc.

(** ** Rounds *)

(** The failures still to come. *)
Definition nfalse (ok : list bool) : nat := length (filter (fun b => b = false) ok).

Lemma nfalse_tail ok : nfalse ok = ((if hd true ok then 0 else 1) + nfalse (tail ok))%nat.
Proof. by destruct ok as [|[] ok]. Qed.

Lemma bind_outcome {R B} t w ok (f : bool -> Tx R B) :
  tx_bind outcome f (mkEngine t w ok) = f (hd true ok) (mkEngine t w (tail ok)).
Proof. done. Qed.

Lemma first_batches_run {R} plans : forall t w ok acc,
  exists ok' r, first_batches (R := R) plans acc (mkEngine t w ok) = (mkEngine t w ok', inr r)
    /\ ((r = Some (acc ++ mjoin ((fun plan => normal_keys (hd [] plan)) <$> plans)) /\ nfalse ok' <= nfalse ok)%nat
        \/ (r = None /\ nfalse ok' < nfalse ok)%nat).
Proof.
  induction plans as [|plan plans IH]; intros t w ok acc; cbn [first_batches fmap list_fmap mjoin list_join].
  { exists ok, (Some acc). split; [done|]. left. by rewrite app_nil_r. }
  rewrite bind_outcome. pose proof (nfalse_tail ok) as Hn. destruct (hd true ok).
  - destruct (IH t w (tail ok) (acc ++ normal_keys (hd [] plan))) as (ok' & r & E & Hr). exists ok', r. split; [done|].
    rewrite app_assoc. destruct Hr as [[-> ?]|[-> ?]]; [left|right]; split; [done|lia|done|lia].
  - exists (tail ok), None. split; [done|]. right. split; [done|lia].
Qed.

Lemma delete_keys_run {R} keys : forall t w ok,
  exists ok' w' r, delete_keys (R := R) keys (mkEngine t w ok) = (mkEngine t w' ok', inr r)
    /\ ((r = true /\ w' = foldl (fun m k => delete k m) w keys /\ nfalse ok' <= nfalse ok)%nat
        \/ (r = false /\ nfalse ok' < nfalse ok)%nat).
Proof.
  induction keys as [|k keys IH]; intros t w ok; cbn [delete_keys foldl].
  { exists ok, w, true. split; [done|]. by left. }
  rewrite bind_del. pose proof (nfalse_tail ok) as Hn. destruct (hd true ok).
  - destruct (IH t (delete k w) (tail ok)) as (ok' & w' & r & E & Hr). exists ok', w', r. split; [done|].
    destruct Hr as [(-> & -> & ?)|[-> ?]]; [left|right]; split_and!; try done; lia.
  - exists (tail ok), w, false. split; [done|]. right. split; [done|lia].
Qed.

Section Rounds.

Context (scan : Scan) {Hscan : ScanLaws scan}.

Lemma shown_sound t lo hi k : k ∈ shown scan t lo hi -> is_Some (t !! k) /\ in_range lo hi k = true.
Proof using Hscan.
  intros Hk. unfold shown in Hk. apply list_elem_of_join in Hk as (keys & Hk & Hb).
  apply list_elem_of_fmap in Hb as (plan & -> & Hp). destruct plan as [|batch plan]; [by apply not_elem_of_nil in Hk|].
  eapply scan_sound; [exact Hp|left|exact Hk].
Qed.

(** What one round does: it finishes with a scan that shows nothing, gives up
    after a failure, goes on after a failure, or has deleted some of the keys
    of the range. *)
Lemma clean_round_run p t w ok :
  let '(e, r) := clean_round scan p (mkEngine t w ok) in
  match r with
  | inl true => eng_table e = t /\ shown scan t p (MakePrefixNext p) = []
  | inl false => eng_table e = t /\ (nfalse (eng_ok e) < nfalse ok)%nat
  | inr _ =>
      (eng_table e = t /\ (nfalse (eng_ok e) < nfalse ok)%nat)
      \/ exists keys, keys <> [] /\ (forall k, k ∈ keys -> is_Some (t !! k) /\ in_range p (MakePrefixNext p) k = true)
           /\ eng_table e = foldl (fun m k => delete k m) t keys /\ (nfalse (eng_ok e) <= nfalse ok)%nat
  end.
Proof using Hscan.
  unfold clean_round. rewrite bind_outcome. pose proof (nfalse_tail ok) as H0.
  destruct (hd true ok); cbn [negb]; [|split; [done|cbn [eng_ok]; lia]].
  rewrite bind_new. pose proof (nfalse_tail (tail ok)) as H1.
  destruct (hd true (tail ok)); cbn [negb]; [|left; split; [done|cbn [eng_ok]; lia]].
  rewrite bind_outcome. pose proof (nfalse_tail (tail (tail ok))) as H2.
  destruct (hd true (tail (tail ok))); cbn [negb]; [|left; split; [done|cbn [eng_ok]; lia]].
  rewrite bind_outcome. pose proof (nfalse_tail (tail (tail (tail ok)))) as H3.
  destruct (hd true (tail (tail (tail ok)))); cbn [negb]; [|left; split; [done|cbn [eng_ok]; lia]].
  unfold open_scan at 1. unfold tx_bind at 1. cbn [eng_tx].
  set (ok4 := tail (tail (tail (tail ok)))) in *. set (plans := scan t p (MakePrefixNext p)).
  unfold tx_bind at 1. destruct (first_batches_run (R := bool) plans t t ok4 []) as (ok' & r & -> & Hr).
  rewrite bind_abort. destruct Hr as [[-> Hn]|[-> Hn]]; cbn [app]; [|split; [done|cbn [eng_ok]; lia]].
  change (mjoin ((fun plan => normal_keys (hd [] plan)) <$> plans)) with (shown scan t p (MakePrefixNext p)).
  destruct (shown scan t p (MakePrefixNext p)) as [|k0 ks] eqn:E; [done|].
  rewrite bind_new. pose proof (nfalse_tail ok') as H5.
  destruct (hd true ok'); cbn [negb]; [|left; split; [done|cbn [eng_ok]; lia]].
  unfold tx_bind at 1. destruct (delete_keys_run (R := bool) (k0 :: ks) t t (tail ok')) as (ok6 & w6 & r & -> & Hr).
  destruct Hr as [(-> & -> & Hd)|[-> Hd]]; [|left; split; [done|cbn [eng_ok]; lia]].
  rewrite bind_commit. pose proof (nfalse_tail ok6) as H7.
  destruct (hd true ok6); [|left; split; [done|cbn [eng_ok]; lia]]. right. exists (k0 :: ks). split; [done|].
  split; [|split; [done|cbn [eng_ok]; lia]]. intros k Hk. rewrite <- E in Hk. by apply shown_sound.
Qed.

(** With no failure and a scan that shows nothing, the first round is the last. *)
Lemma clean_round_quiet p t w ok : nfalse ok = 0%nat -> shown scan t p (MakePrefixNext p) = [] ->
  exists e, clean_round scan p (mkEngine t w ok) = (e, inl true) /\ eng_table e = t.
Proof using Type.
  intros Hz Hsh. unfold clean_round.
  assert (forall o, nfalse o = 0%nat -> hd true o = true /\ nfalse (tail o) = 0%nat) as Hhd.
  { intros o Ho. rewrite nfalse_tail in Ho. destruct (hd true o); [done|lia]. }
  destruct (Hhd _ Hz) as [E0 Hz0]. destruct (Hhd _ Hz0) as [E1 Hz1]. destruct (Hhd _ Hz1) as [E2 Hz2]. destruct (Hhd _ Hz2) as [E3 Hz3].
  rewrite bind_outcome, E0. cbn [negb]. rewrite bind_new, E1. cbn [negb]. rewrite bind_outcome, E2. cbn [negb].
  rewrite bind_outcome, E3. cbn [negb]. unfold open_scan at 1. unfold tx_bind at 1. cbn [eng_tx]. unfold tx_bind at 1.
  destruct (first_batches_run (R := bool) (scan t p (MakePrefixNext p)) t t (tail (tail (tail (tail ok)))) []) as (ok' & r & -> & Hr).
  rewrite bind_abort. destruct Hr as [[-> _]|[_ ?]]; [|lia]. cbn [app].
  change (mjoin ((fun plan => normal_keys (hd [] plan)) <$> scan t p (MakePrefixNext p))) with (shown scan t p (MakePrefixNext p)).
  rewrite Hsh. by eexists.
Qed.

(** The keys of the range. *)
Definition ranged (p : bytes) (t : Table) : Table :=
  filter (fun kv => in_range p (MakePrefixNext p) kv.1 = true) t.

Lemma foldl_delete_lookup (keys : list bytes) : forall (t : Table) k,
  foldl (fun m k => delete k m) t keys !! k = if decide (k ∈ keys) then None else t !! k.
Proof using Type.
  induction keys as [|k0 keys IH]; intros t k; cbn [foldl]; [by rewrite decide_False by apply not_elem_of_nil|].
  rewrite IH. destruct (decide (k = k0)) as [->|Hne].
  - rewrite (decide_True (P := k0 ∈ k0 :: keys)) by left. rewrite lookup_delete_eq. by case_decide.
  - rewrite lookup_delete_ne by done. do 2 case_decide; try done; [by exfalso; eauto using list_elem_of_further|].
    by apply elem_of_cons in H0 as [].
Qed.

Lemma ranged_shrinks (p : bytes) (t : Table) (keys : list bytes) :
  keys <> [] -> (forall k, k ∈ keys -> is_Some (t !! k) /\ in_range p (MakePrefixNext p) k = true) ->
  (size (ranged p (foldl (fun m k => delete k m) t keys)) < size (ranged p t))%nat.
Proof using Type.
  intros Hne Hk. apply map_subset_size. split.
  - apply map_subseteq_spec. intros k v [E Hr]%map_lookup_filter_Some. apply map_lookup_filter_Some. split; [|done].
    rewrite foldl_delete_lookup in E. by case_decide.
  - destruct keys as [|k0 keys]; [done|]. destruct (Hk k0) as [[v Hv] Hr]; [left|]. intros Hsub.
    assert (ranged p t !! k0 = Some v) as H by (by apply map_lookup_filter_Some).
    eapply lookup_weaken in H; [|exact Hsub]. apply map_lookup_filter_Some in H as [E _].
    rewrite foldl_delete_lookup, decide_True in E by left. done.
Qed.

(** The loop of [CleanPrefixKeys] ends, touches no key outside the range, adds
    none, and answers true only when a scan shows nothing any more; it answers
    false only after a failure. *)
Lemma clean_run (p : bytes) fuel : forall (t w : Table) ok,
  (size (ranged p t) + nfalse ok < fuel)%nat ->
  exists e r, CleanPrefixKeys scan fuel p (mkEngine t w ok) = (e, Some r)
    /\ (forall k, eng_table e !! k = t !! k \/ (in_range p (MakePrefixNext p) k = true /\ eng_table e !! k = None))
    /\ (r = true -> shown scan (eng_table e) p (MakePrefixNext p) = [])
    /\ (r = false -> (0 < nfalse ok)%nat).
Proof using Hscan.
  induction fuel as [|fuel IH]; intros t w ok Hf; [lia|]. cbn [CleanPrefixKeys].
  pose proof (clean_round_run p t w ok) as Hr. destruct (clean_round scan p _) as [e [r|[]]].
  - exists e, r. split; [done|]. destruct r; destruct Hr as [-> Hr].
    + by split_and!; auto.
    + split_and!; [by auto|done|lia].
  - destruct e as [t' w' ok']. cbn [eng_table eng_ok] in Hr. destruct Hr as [[-> Hn]|(keys & Hne & Hk & -> & Hn)].
    + destruct (IH t w' ok') as (e & r & E & H1 & H2 & H3); [lia|]. exists e, r. split_and!; auto. intros ->.
      lia.
    + pose proof (ranged_shrinks p t keys Hne Hk) as Hs.
      destruct (IH (foldl (fun m k => delete k m) t keys) w' ok') as (e & r & E & H1 & H2 & H3); [lia|].
      exists e, r. split_and!; auto; [|intros ->; specialize (H3 eq_refl); lia].
      intros k. destruct (H1 k) as [E1|?]; [|by right]. rewrite E1, foldl_delete_lookup.
      case_decide as Hin; [|by left]. right. split; [by apply Hk|done].
Qed.

End Rounds.

(** ** The markers *)

Lemma fits_prefix id ep : is_u64 id -> is_u64 ep -> fits (MakePrefix (b255e id) ep).
Proof.
  intros H1 H2. unfold MakePrefix, fits, is_u32, zlen. rewrite !length_app. cbn [length].
  destruct (b255e_spec id H1) as (_ & ? & _), (b255e_spec ep H2) as (_ & ? & _). lia.
Qed.

Lemma in_range_prefix id ep k :
  is_u64 id -> is_u64 ep ->
  in_range (MakePrefix (b255e id) ep) (MakePrefixNext (MakePrefix (b255e id) ep)) k = true
  <-> MakePrefix (b255e id) ep `prefix_of` k.
Proof.
  intros H1 H2. pose proof (fits_prefix id ep H1 H2). unfold in_range. rewrite prefix_scan by auto using fits_next.
  by rewrite bool_decide_eq_true.
Qed.

Lemma in_range_gc k : in_range kGcPrefix kGcScanEnd k = true <-> kGcPrefix `prefix_of` k.
Proof.
  unfold in_range. rewrite range_has_raw by done.
  pose proof (increase_range kGcPrefix k) as H. change (increase kGcPrefix) with (Some kGcScanEnd) in H.
  rewrite H. by rewrite bool_decide_eq_true.
Qed.

Lemma gc_prefix_marker id ep :
  is_u64 id -> is_u64 ep -> gc_prefix (g_key (b255e id) ep) = Some (MakePrefix (b255e id) ep).
Proof.
  intros H1 H2. unfold gc_prefix, g_key. change (drop 2 (kGcPrefix ++ ?x)) with x.
  change (lit ":" ++ to_string ep) with (B255_DELIMITER :: to_string ep). change (z2b 58) with B255_DELIMITER.
  destruct (b255e_ns_id id H1) as [_ Hd]. rewrite find_char_app by done.
  rewrite (proj2 (Nat.eqb_neq _ _)) by (rewrite length_app; cbn; lia).
  rewrite take_app_length, drop_mid, stoull_to_string by done. done.
Qed.

(** ** The data of the tenants *)

(** A prefix is in use by a live namespace or waits to be collected. *)
Definition current (s : NsState) (id ep : Z) : Prop :=
  exists ns tok, live s !! ns = Some (tok, id) /\ ep = epoch_of s id.

(** Every key of the tenants' table has the current prefix of a live namespace
    or a prefix with a marker. *)
Definition data_inv (s : NsState) (d : Table) : Prop :=
  forall k, is_Some (d !! k) ->
  exists id ep key, is_u64 id /\ is_u64 ep /\ k = MakePrefix (b255e id) ep ++ key
    /\ (current s id ep \/ (id, ep) ∈ retired s).

(** Weaker, and kept by the collector: the prefix of every key has been handed
    out, and is not one that a live namespace will get by a flush. *)
Definition data_ok (s : NsState) (d : Table) : Prop :=
  forall k, is_Some (d !! k) ->
  exists id ep key, is_u64 id /\ is_u64 ep /\ k = MakePrefix (b255e id) ep ++ key
    /\ id < next_id s /\ forall ns tok, live s !! ns = Some (tok, id) -> ep <= epoch_of s id.

Lemma data_inv_ok s d : ns_inv s -> data_inv s d -> data_ok s d.
Proof.
  intros Hi Hd k Hk. destruct (Hd k Hk) as (id & ep & key & H1 & H2 & -> & H). exists id, ep, key. do 3 (split; [done|]).
  destruct H as [(ns & tok & El & ->)|Hret].
  - destruct (inv_range _ Hi _ _ _ El). split; [lia|]. intros ns' tok' _. lia.
  - destruct (inv_retired _ Hi _ _ Hret) as (? & _ & Hlt). split; [lia|]. intros ns tok El. specialize (Hlt _ _ El). lia.
Qed.

Lemma prefix_unique id ep id' ep' k :
  is_u64 id -> is_u64 ep -> is_u64 id' -> is_u64 ep' ->
  MakePrefix (b255e id) ep `prefix_of` k -> MakePrefix (b255e id') ep' `prefix_of` k -> id = id' /\ ep = ep'.
Proof.
  intros H1 H2 H3 H4 [k1 ->] [k2 E]. apply MakePrefix_inj in E as (E & -> & _); auto using b255e_ns_id.
  split; [by apply b255e_inj|done].
Qed.

Lemma current_not_retired s id ep : ns_inv s -> current s id ep -> (id, ep) ∉ retired s.
Proof.
  intros Hi (ns & tok & E & ->) Hin. destruct (inv_retired _ Hi _ _ Hin) as (_ & _ & H).
  specialize (H _ _ E). lia.
Qed.

Lemma current_u64 s id ep : ns_inv s -> current s id ep -> is_u64 id /\ is_u64 ep.
Proof.
  intros Hi (ns & tok & E & ->). split; [by eapply live_u64|]. pose proof (epoch_of_range s id Hi).
  unfold is_u64. lia.
Qed.

(** Deleting keys of a retired prefix leaves the current data as it was. *)
Definition swept (id ep : Z) (d d' : Table) : Prop :=
  forall k, d' !! k = d !! k \/ (MakePrefix (b255e id) ep `prefix_of` k /\ d' !! k = None).

Lemma swept_current s id ep id' ep' d d' key :
  ns_inv s -> is_u64 id -> is_u64 ep -> ~ current s id ep -> current s id' ep' -> swept id ep d d' ->
  d' !! (MakePrefix (b255e id') ep' ++ key) = d !! (MakePrefix (b255e id') ep' ++ key).
Proof.
  intros Hi Hid Hep Hr Hc Hs. destruct (Hs (MakePrefix (b255e id') ep' ++ key)) as [?|[Hp _]]; [done|].
  destruct (current_u64 s id' ep' Hi Hc).
  destruct (prefix_unique id ep id' ep' _ ltac:(done) ltac:(done) ltac:(done) ltac:(done) Hp) as [<- <-]; [|done].
  by apply prefix_app_r.
Qed.

Lemma swept_size id ep d d' : swept id ep d d' -> (size d' <= size d)%nat.
Proof.
  intros Hs. apply map_subseteq_size, map_subseteq_spec. intros k v E. destruct (Hs k) as [<-|[_ ?]]; congruence.
Qed.

(** ** A pass of the daemon *)

Definition gc_good (s : NsState) (g : GcState) : Prop := ns_repr (gc_table g) s /\ ns_inv s.

(** More rounds than keys and failures of any transaction. *)
Definition fuel_enough (fuel : nat) (g : GcState) : Prop :=
  Forall (fun ok => size (gc_data g) + nfalse ok < fuel)%nat ([] :: gc_ok g).

Definition no_failures (g : GcState) : Prop := Forall (fun ok => nfalse ok = 0%nat) (gc_ok g).

(** Same namespaces, no new markers. *)
Definition fewer_markers (s s' : NsState) : Prop :=
  live s' = live s /\ epochs s' = epochs s /\ next_id s' = next_id s /\ retired s' ⊆ retired s.

#[global] Instance fewer_markers_preorder : PreOrder fewer_markers.
Proof.
  split; [by intros s|]. intros s1 s2 s3 (H1 & H2 & H3 & H4) (H5 & H6 & H7 & H8).
  split_and!; [congruence..|]. by etrans.
Qed.

Lemma fewer_current s s' id ep : fewer_markers s s' -> current s id ep <-> current s' id ep.
Proof. intros (H1 & H2 & _). unfold current, epoch_of. by rewrite H1, H2. Qed.

Lemma collect_fewer id ep s : fewer_markers s (spec_collect id ep s).
Proof. split_and!; [done..|]. cbn. set_solver. Qed.

Lemma nfalse_tl ok : nfalse ok = 0%nat -> hd true ok = true /\ nfalse (tail ok) = 0%nat.
Proof. intros H. rewrite nfalse_tail in H. destruct (hd true ok); [done|lia]. Qed.

Lemma Forall_hd_nil {A} (P : list A -> Prop) l : P [] -> Forall P l -> P (hd [] l).
Proof. intros H0 H. by destruct H. Qed.

Lemma Forall_tl {A} (P : A -> Prop) l : Forall P l -> Forall P (tail l).
Proof. intros H. by destruct H. Qed.

Lemma DeleteGCRecord_run k t ok :
  let e := (tx_run (DeleteGCRecord k) (mkEngine t t ok)).1 in
  eng_table e = delete k t \/ (eng_table e = t /\ nfalse ok <> 0%nat).
Proof.
  cbn zeta. unfold DeleteGCRecord, tx_run. pose proof (nfalse_tail ok) as H0.
  rewrite bind_new. destruct (hd true ok); cbn [negb]; [|right; split; [done|lia]].
  rewrite bind_del. pose proof (nfalse_tail (tail ok)) as H1. destruct (hd true (tail ok)); [|right; split; [done|lia]].
  rewrite bind_commit. pose proof (nfalse_tail (tail (tail ok))) as H2.
  destruct (hd true (tail (tail ok))); [by left|right; split; [done|lia]].
Qed.

Section Pass.

Context (scan : Scan) {Hscan : ScanLaws scan}.

Lemma ranged_size p t : (size (ranged p t) <= size t)%nat.
Proof using Type. apply map_subseteq_size, map_filter_subseteq. Qed.

(** The work on one marker. *)
Lemma gc_record_run fuel id ep g s :
  gc_good s g -> is_u64 id -> is_u64 ep -> ~ current s id ep -> fuel_enough fuel g ->
  exists g' s', gc_record scan fuel (g_key (b255e id) ep) g = Some g'
    /\ gc_good s' g' /\ swept id ep (gc_data g) (gc_data g')
    /\ (s' = s \/ (s' = spec_collect id ep s /\ let p := MakePrefix (b255e id) ep in shown scan (gc_data g') p (MakePrefixNext p) = []))
    /\ (forall P, Forall P (gc_ok g) -> Forall P (gc_ok g')) /\ gc_running g' = gc_running g
    /\ (no_failures g -> (id, ep) ∉ retired s').
Proof using Hscan.
  intros (Hr & Hi) Hid Hep Hc Hf. unfold gc_record. rewrite gc_prefix_marker by done.
  set (p := MakePrefix (b255e id) ep). set (ok := hd [] (gc_ok g)).
  assert (size (ranged p (gc_data g)) + nfalse ok < fuel)%nat as Hfu.
  { pose proof (ranged_size p (gc_data g)). inversion_clear Hf.
    assert (size (gc_data g) + nfalse ok < fuel)%nat by (by apply (Forall_hd_nil (fun ok => _ + nfalse ok < _)%nat)). lia. }
  destruct (clean_run scan p fuel (gc_data g) (gc_data g) ok Hfu) as (e & r & -> & H1 & H2 & H3).
  assert (swept id ep (gc_data g) (eng_table e)) as Hs.
  { intros k. destruct (H1 k) as [?|[Hk ?]]; [by left|right]. split; [by apply in_range_prefix|done]. }
  destruct r.
  - unfold gc_drop_record. cbn [gc_table gc_data gc_ok gc_running].
    pose proof (DeleteGCRecord_run (g_key (b255e id) ep) (gc_table g) (hd [] (tail (gc_ok g)))) as Ht.
    destruct (tx_run _ _) as [e' []]. cbn [fst] in *. destruct Ht as [Ht|[Ht Hz]]; rewrite Ht in *.
    + eexists _, (spec_collect id ep s). split; [done|].
      split_and!; [split; [by apply repr_collect|by apply spec_collect_inv]|done|right; split; [done|by apply H2]| |done|].
      * intros P HP. by repeat apply Forall_tl.
      * intros _. cbn. set_solver.
    + eexists _, s. split; [done|]. split_and!; [done|done|by left| |done|].
      * intros P HP. by repeat apply Forall_tl.
      * intros Hnf. destruct Hz. apply (Forall_hd_nil (fun ok => nfalse ok = 0%nat)); [done|by apply Forall_tl].
  - eexists _, s. split; [done|]. split_and!; [done|done|by left| |done|].
    + intros P HP. by apply Forall_tl.
    + intros Hnf. specialize (H3 eq_refl). assert (nfalse ok = 0%nat) by (by apply (Forall_hd_nil (fun ok => nfalse ok = 0%nat))).
      lia.
Qed.

(** A scan of the prefix has shown nothing on the way from [before] to [after]. *)
Definition scanned_out (id ep : Z) (before after : Table) : Prop :=
  let p := MakePrefix (b255e id) ep in
  exists d : Table, after ⊆ d /\ d ⊆ before /\ shown scan d p (MakePrefixNext p) = [].

(** What any part of a pass over [marks] keeps: the invariant with no new
    markers, the data outside of the prefixes of [marks], and what is assumed of
    the engine to come; a marker goes only after a scan that shows nothing. *)
Record gc_kept (marks : list (Z * Z)) (s : NsState) (g : GcState) (s' : NsState) (g' : GcState) : Prop := {
  kept_good : gc_good s' g';
  kept_markers : fewer_markers s s';
  kept_data : forall k, gc_data g' !! k = gc_data g !! k
    \/ (gc_data g' !! k = None /\ exists m, m ∈ marks /\ MakePrefix (b255e m.1) m.2 `prefix_of` k);
  kept_gone : forall id ep, (id, ep) ∈ retired s -> (id, ep) ∉ retired s' -> scanned_out id ep (gc_data g) (gc_data g');
  kept_ok : forall P, Forall P (gc_ok g) -> Forall P (gc_ok g');
  kept_running : forall P, Forall P (gc_running g) -> Forall P (gc_running g')
}.

Lemma kept_sub marks s g s' g' : gc_kept marks s g s' g' -> gc_data g' ⊆ gc_data g.
Proof using Type.
  intros K. apply map_subseteq_spec. intros k v E. destruct (kept_data _ _ _ _ _ K k) as [<-|[? _]]; congruence.
Qed.

Lemma kept_same marks s g g' :
  gc_good s g -> gc_table g' = gc_table g -> gc_data g' = gc_data g ->
  (forall P, Forall P (gc_ok g) -> Forall P (gc_ok g')) -> (forall P, Forall P (gc_running g) -> Forall P (gc_running g')) ->
  gc_kept marks s g s g'.
Proof using Type.
  intros [H1 H2] E1 E2 H3 H4. constructor; [by split; [rewrite E1|]|done|intros k; left; by rewrite E2|done|done|done].
Qed.

Lemma kept_fuel fuel marks s g s' g' : gc_kept marks s g s' g' -> fuel_enough fuel g -> fuel_enough fuel g'.
Proof using Type.
  intros K Hf. pose proof (map_subseteq_size _ _ (kept_sub _ _ _ _ _ K)). inversion_clear Hf as [|? ? H1 H2].
  constructor; [lia|]. apply (kept_ok _ _ _ _ _ K). eapply Forall_impl; [|exact H2]. cbn. lia.
Qed.

Lemma kept_trans marks1 marks2 s1 g1 s2 g2 s3 g3 :
  gc_kept marks1 s1 g1 s2 g2 -> gc_kept marks2 s2 g2 s3 g3 -> gc_kept (marks1 ++ marks2) s1 g1 s3 g3.
Proof using Type.
  intros A B. pose proof (kept_sub _ _ _ _ _ A). pose proof (kept_sub _ _ _ _ _ B).
  constructor; [apply B|by etrans; [apply A|apply B]| | |by intros P ?; apply B, A|by intros P ?; apply B, A].
  - intros k. destruct (kept_data _ _ _ _ _ B k) as [->|[E (m & Hin & Hp)]].
    + destruct (kept_data _ _ _ _ _ A k) as [->|[E (m & Hin & Hp)]]; [by left|right]. split; [done|].
      exists m. split; [|done]. apply elem_of_app. by left.
    + right. split; [done|]. exists m. split; [|done]. apply elem_of_app. by right.
  - intros id ep Hin Hout. destruct (decide ((id, ep) ∈ retired s2)) as [H2|H2].
    + destruct (kept_gone _ _ _ _ _ B id ep H2 Hout) as (d & D1 & D2 & D3). exists d. split_and!; [done|by etrans|done].
    + destruct (kept_gone _ _ _ _ _ A id ep Hin H2) as (d & D1 & D2 & D3). exists d. split_and!; [by etrans|done|done].
Qed.

Lemma gc_records_run fuel marks : forall g s,
  gc_good s g -> Forall (fun m => is_u64 m.1 /\ is_u64 m.2 /\ ~ current s m.1 m.2) marks -> fuel_enough fuel g ->
  exists g' s', gc_records scan fuel ((fun m => g_key (b255e m.1) m.2) <$> marks) g = Some g'
    /\ gc_kept marks s g s' g'
    /\ (no_failures g -> Forall (fun b => b = true) (gc_running g) -> forall m, m ∈ marks -> m ∉ retired s').
Proof using Hscan.
  induction marks as [|[id ep] marks IH]; intros g s Hg Hm Hf.
  { exists g, s. split; [done|]. split; [by apply kept_same|]. intros _ _ m H. by apply not_elem_of_nil in H. }
  inversion_clear Hm as [|? ? (Hid & Hep & Hc) Hms].
  cbn [fmap list_fmap gc_records fst snd] in *.
  set (g1 := mkGc (gc_table g) (gc_data g) (gc_ok g) (tail (gc_running g))).
  destruct (hd true (gc_running g)) eqn:Erun.
  - destruct (gc_record_run fuel id ep g1 s) as (g2 & s2 & E2 & Hg2 & Hsw & Hs2 & Hok2 & Hrun2 & Hz); [done..|].
    rewrite E2. cbn [mbind option_bind].
    assert (gc_kept [(id, ep)] s g s2 g2) as K2.
    { constructor; [done| | | |done|intros P HP; rewrite Hrun2; by apply Forall_tl].
      - destruct Hs2 as [-> |[-> _]]; [done|apply collect_fewer].
      - intros k. destruct (Hsw k) as [?|[Hp ?]]; [by left|right]. split; [done|]. exists (id, ep). split; [left|done].
      - intros i e Hin Hout. destruct Hs2 as [-> |[-> Hsh]]; [done|].
        destruct (decide ((i, e) = (id, ep))) as [[= -> ->]|Hne].
        2: { exfalso. apply Hout, elem_of_difference. by rewrite elem_of_singleton. }
        exists (gc_data g2). split_and!; [done|apply map_subseteq_spec; intros k v E; destruct (Hsw k) as [E0|[_ E0]]; cbn in E0; congruence|done]. }
    destruct (IH g2 s2) as (g3 & s3 & E3 & K3 & Hz3); [done| |by eapply kept_fuel|].
    { eapply Forall_impl; [|exact Hms]. cbn. intros m (? & ? & Hcm). split_and!; [done..|].
      intros Hc2. apply Hcm. by apply (fewer_current s s2); [apply K2|]. }
    exists g3, s3. split; [exact E3|]. split; [exact (kept_trans [(id, ep)] marks _ _ _ _ _ _ K2 K3)|].
    intros Hnf Hr m Hm. destruct (kept_markers _ _ _ _ _ K3) as (_ & _ & _ & Hsub). apply elem_of_cons in Hm as [->|Hm].
    + intros Hin. apply Hsub in Hin. by apply Hz.
    + apply Hz3; [by apply (kept_ok _ _ _ _ _ K2)|by apply (kept_running _ _ _ _ _ K2)|done].
  - exists g1, s. split; [done|]. split; [apply kept_same; try done; intros P; apply Forall_tl|].
    intros _ Hr. destruct Hr; cbn in Erun; congruence.
Qed.

(** The markers a scan finds. *)
Lemma ScanGCRecords_run t ok :
  let '(e, keys) := tx_run (ScanGCRecords scan) (mkEngine t t ok) in
  eng_table e = t /\ (forall k, k ∈ keys -> is_Some (t !! k) /\ kGcPrefix `prefix_of` k)
  /\ (nfalse ok = 0%nat -> keys = shown scan t kGcPrefix kGcScanEnd).
Proof using Hscan.
  assert (forall e (ok' : list bool), eng_table e = t -> (0 < nfalse ok)%nat ->
    eng_table e = t /\ (forall k, k ∈ ([] : list bytes) -> is_Some (t !! k) /\ kGcPrefix `prefix_of` k)
    /\ (nfalse ok = 0%nat -> ([] : list bytes) = shown scan t kGcPrefix kGcScanEnd)) as Hfail.
  { intros e ok' He Hn. split_and!; [done| |lia]. intros k Hk. by apply not_elem_of_nil in Hk. }
  unfold ScanGCRecords, tx_run. rewrite bind_new. pose proof (nfalse_tail ok) as H0.
  destruct (hd true ok); cbn [negb]; [|apply Hfail; [done..|lia]].
  rewrite bind_outcome. pose proof (nfalse_tail (tail ok)) as H1.
  destruct (hd true (tail ok)); [rewrite bind_check_true|rewrite bind_check_false; apply Hfail; [done..|lia]].
  rewrite bind_outcome. pose proof (nfalse_tail (tail (tail ok))) as H2.
  destruct (hd true (tail (tail ok))); [rewrite bind_check_true|rewrite bind_check_false; apply Hfail; [done..|lia]].
  unfold open_scan at 1. unfold tx_bind at 1. cbn [eng_tx]. unfold tx_bind at 1.
  destruct (first_batches_run (R := list bytes) (scan t kGcPrefix kGcScanEnd) t t (tail (tail (tail ok))) [])
    as (ok' & r & -> & Hr).
  rewrite bind_abort. destruct Hr as [[-> Hn]|[-> Hn]]; cbn [app]; [|apply Hfail; [done..|lia]].
  split_and!; [done| |done].
  intros k Hk. apply (shown_sound scan) in Hk as [? Hk]. split; [done|]. by apply in_range_gc.
Qed.

(** A list of markers names retired prefixes. *)
Lemma markers_named t s keys :
  ns_repr t s -> ns_inv s -> (forall k, k ∈ keys -> is_Some (t !! k) /\ kGcPrefix `prefix_of` k) ->
  exists marks, keys = (fun m => g_key (b255e m.1) m.2) <$> marks /\ Forall (fun m => m ∈ retired s) marks.
Proof using Type.
  intros Hr Hi. induction keys as [|k keys IH]; intros Hk; [by exists []|].
  destruct (Hk k) as [[v Hv] [x ->]]; [left|]. destruct (repr_g_only _ _ Hr x v Hv) as (id & ep & Hin & ->).
  destruct IH as (marks & -> & Hm); [intros k' Hk'; apply Hk; by right|].
  exists ((id, ep) :: marks). split; [done|]. by constructor.
Qed.

Lemma gc_pass_run fuel g s :
  gc_good s g -> fuel_enough fuel g ->
  exists marks g' s', gc_pass scan fuel g = Some g' /\ gc_kept marks s g s' g' /\ Forall (fun m => m ∈ retired s) marks
    /\ (no_failures g -> Forall (fun b => b = true) (gc_running g) ->
        shown scan (gc_table g) kGcPrefix kGcScanEnd = (fun m => g_key (b255e m.1) m.2) <$> marks
        /\ forall m, m ∈ marks -> m ∉ retired s').
Proof using Hscan.
  intros Hg Hf. pose proof Hg as (Hr & Hi). unfold gc_pass.
  pose proof (ScanGCRecords_run (gc_table g) (hd [] (gc_ok g))) as Hs. destruct (tx_run _ _) as [e keys].
  destruct Hs as (-> & Hk & Hall). destruct (markers_named _ _ keys Hr Hi Hk) as (marks & -> & Hm).
  set (g1 := mkGc (gc_table g) (gc_data g) (tail (gc_ok g)) (gc_running g)).
  assert (gc_kept [] s g s g1) as K1 by (apply kept_same; try done; intros P; apply Forall_tl).
  destruct (gc_records_run fuel marks g1 s) as (g' & s' & E & K & Hz); [done| |by eapply kept_fuel|].
  { eapply Forall_impl; [|exact Hm]. intros [id ep] Hin. cbn. destruct (retired_u64 s id ep Hi Hin).
    split_and!; [done..|]. intros Hc. by eapply current_not_retired. }
  exists marks, g', s'. split; [exact E|]. split; [exact (kept_trans [] marks _ _ _ _ _ _ K1 K)|]. split; [done|].
  intros Hnf Hrun. split.
  - symmetry. apply Hall. by apply (Forall_hd_nil (fun ok => nfalse ok = 0%nat)).
  - apply Hz; [by apply Forall_tl|done].
Qed.

End Pass.

(** ** Properties *)

(** C5: A pass of the collector, over a table that represents a consistent state
    of the namespaces, ends if finitely many requests fail.  Whatever fails and whenever the server stops, it leaves the metadata of every
    namespace as it was, adds no key and no marker, removes keys under retired
    prefixes only, so that every key under the current prefix of a live namespace
    stays, and drops the marker of a prefix only after a scan whose first batches
    show no live record of it. *)
Theorem gc_pass_safe scan {Hscan : ScanLaws scan} (fuel : nat) (g : GcState) (s : NsState) :
  gc_good s g -> fuel_enough fuel g ->
  exists g' s', gc_pass scan fuel g = Some g' /\ gc_good s' g' /\ fewer_markers s s'
    /\ (forall id ep key, current s id ep ->
          gc_data g' !! (MakePrefix (b255e id) ep ++ key) = gc_data g !! (MakePrefix (b255e id) ep ++ key))
    /\ (forall k, gc_data g' !! k = gc_data g !! k
          \/ (gc_data g' !! k = None /\ exists m, m ∈ retired s /\ MakePrefix (b255e m.1) m.2 `prefix_of` k))
    /\ (forall id ep, (id, ep) ∈ retired s -> (id, ep) ∉ retired s' -> scanned_out scan id ep (gc_data g) (gc_data g')).
Proof.
  intros Hg Hf. destruct (gc_pass_run scan fuel g s Hg Hf) as (marks & g' & s' & E & K & Hm & _).
  rewrite list.Forall_forall in Hm. exists g', s'. split_and!; [done|apply K|apply K| | |apply K].
  - intros id ep key Hc. destruct (kept_data _ _ _ _ _ _ K (MakePrefix (b255e id) ep ++ key)) as [?|[_ ([i e] & Hin & Hp)]]; [done|].
    exfalso. destruct Hg as [_ Hi]. pose proof (Hm _ Hin) as Hret. destruct (retired_u64 s i e Hi Hret), (current_u64 s id ep Hi Hc).
    destruct (prefix_unique i e id ep (MakePrefix (b255e id) ep ++ key)) as [-> ->]; [done..|by apply prefix_app_r|].
    by apply (current_not_retired s id ep Hi Hc).
  - intros k. destruct (kept_data _ _ _ _ _ _ K k) as [?|[? (m & Hin & Hp)]]; [by left|right]. eauto.
Qed.

(** C6: When no request fails and the server goes on running, a pass over a
    table that represents a consistent state of the namespaces drops every marker that the first batches of the scan of the markers show, each
    after a scan whose first batches show no live record of its prefix.  Keys
    that the first batches do not show may be left ([gc_leaks_behind_deleted]). *)
Theorem gc_pass_collects scan {Hscan : ScanLaws scan} (fuel : nat) (g : GcState) (s : NsState) :
  gc_good s g -> fuel_enough fuel g -> no_failures g -> Forall (fun b => b = true) (gc_running g) ->
  exists g', gc_pass scan fuel g = Some g'
    /\ forall k, k ∈ shown scan (gc_table g) kGcPrefix kGcScanEnd ->
       gc_table g' !! k = None
       /\ exists id ep, (id, ep) ∈ retired s /\ k = g_key (b255e id) ep /\ scanned_out scan id ep (gc_data g) (gc_data g').
Proof.
  intros Hg Hf Hnf Hrun. destruct (gc_pass_run scan fuel g s Hg Hf) as (marks & g' & s' & E & K & Hm & Hall).
  destruct (Hall Hnf Hrun) as [-> Hgone]. rewrite list.Forall_forall in Hm. exists g'. split; [done|].
  intros k ([id ep] & -> & Hin)%list_elem_of_fmap. cbn [fst snd]. pose proof (Hm _ Hin) as Hret. pose proof (Hgone _ Hin) as Hout.
  destruct Hg as [_ Hi]. destruct (retired_u64 s id ep Hi Hret). split.
  - apply eq_None_not_Some. intros Hs. apply Hout. by apply (repr_g _ _ (proj1 (kept_good _ _ _ _ _ _ K))).
  - exists id, ep. split_and!; [done..|]. by apply (kept_gone _ _ _ _ _ _ K).
Qed.

(** The collector takes a scan whose first batches show no live record for
    the end of the data.  Where they hold only records that were deleted before,
    the marker goes and the rest of the prefix stays in the table with nothing
    left that leads to it. *)
Theorem gc_leaks_behind_deleted scan (fuel : nat) (g : GcState) (s : NsState) (id ep : Z) :
  gc_good s g -> no_failures g -> (0 < fuel)%nat -> (id, ep) ∈ retired s ->
  shown scan (gc_data g) (MakePrefix (b255e id) ep) (MakePrefixNext (MakePrefix (b255e id) ep)) = [] ->
  exists g', gc_record scan fuel (g_key (b255e id) ep) g = Some g'
    /\ gc_data g' = gc_data g /\ gc_table g' = delete (g_key (b255e id) ep) (gc_table g).
Proof.
  intros [Hr Hi] Hnf Hfuel Hret Hsh. destruct (retired_u64 s id ep Hi Hret). unfold gc_record. rewrite gc_prefix_marker by done.
  destruct fuel as [|fuel]; [lia|]. cbn [CleanPrefixKeys].
  assert (forall o, o = hd [] (gc_ok g) \/ o = hd [] (tail (gc_ok g)) -> nfalse o = 0%nat) as Hz.
  { intros o [-> | ->]; apply (Forall_hd_nil (fun ok => nfalse ok = 0%nat)); try done. by apply Forall_tl. }
  pose proof (clean_round_quiet scan (MakePrefix (b255e id) ep) (gc_data g) (gc_data g) (hd [] (gc_ok g)) (Hz _ (or_introl eq_refl)) Hsh) as (e & -> & He).
  unfold gc_drop_record. cbn [gc_table gc_data gc_ok gc_running].
  pose proof (DeleteGCRecord_run (g_key (b255e id) ep) (gc_table g) (hd [] (tail (gc_ok g)))) as Ht.
  destruct (tx_run _ _) as [e' []]. cbn [fst] in Ht. destruct Ht as [Ht|[_ Hne]]; [|by destruct Hne; apply Hz; right].
  eexists. split; [done|]. cbn. by rewrite He, Ht.
Qed.

(** An engine that answers a scan with one plan, two records to a batch, after a
    batch of the records that were deleted, if there are any. *)
Fixpoint pairs_of (l : list ScanTuple) : list (list ScanTuple) :=
  match l with
  | [] => [[]]
  | [a] => [[a]]
  | a :: b :: l' => [a; b] :: pairs_of l'
  end.
Definition live_tuples (t : Table) (lo hi : bytes) : list ScanTuple :=
  (fun k => mkTuple k Normal) <$> filter (fun k => in_range lo hi k = true) (map_to_list t).*1.
Definition scan_with (gone : list bytes) : Scan := fun t lo hi =>
  [match gone with [] => [] | _ => [(fun k => mkTuple k OtherStatus) <$> gone] end ++ pairs_of (live_tuples t lo hi)].
Definition demo_scan : Scan := scan_with [].

Lemma pairs_of_join l : mjoin (pairs_of l) = l.
Proof.
  induction l as [l IH] using (induction_ltof1 _ length). destruct l as [|a [|b l]]; [done..|].
  cbn. f_equal. f_equal. apply IH. unfold ltof. cbn. lia.
Qed.

#[export] Instance scan_with_laws gone : ScanLaws (scan_with gone).
Proof.
  constructor. intros t lo hi plan batch k Hp Hb Hk. apply list_elem_of_singleton in Hp as ->.
  apply list_elem_of_fmap in Hk as ([k' st] & -> & Hk). apply list_elem_of_filter in Hk as [Hn Hk]. cbn in *. subst st.
  apply elem_of_app in Hb as [Hb|Hb].
  - exfalso. destruct gone as [|g0 gone]; [by apply not_elem_of_nil in Hb|]. apply list_elem_of_singleton in Hb as ->.
    apply list_elem_of_fmap in Hk as (x & [=] & _).
  - assert (mkTuple k' Normal ∈ live_tuples t lo hi) as Hin by (rewrite <- pairs_of_join; apply list_elem_of_join; eauto).
    apply list_elem_of_fmap in Hin as (x & [= ->] & Hx). apply list_elem_of_filter in Hx as [Hr Hx]. split; [|done].
    apply list_elem_of_fmap in Hx as ([k0 v] & -> & Hk0%elem_of_map_to_list). by eexists.
Qed.

#[export] Instance demo_scan_laws : ScanLaws demo_scan.
Proof. apply scan_with_laws. Qed.

(** A server whose namespace was deleted: one marker and three keys to collect. *)
Definition demo_gc : GcState :=
  mkGc (run_history (lit "admin") [(OpAdd (lit "a") (demo_token Init.Byte.x78), []); (OpDel (lit "a"), [])] ∅).1
    (<[MakePrefix (b255e 1) 1 ++ lit "k" := lit "v"]>
       (<[MakePrefix (b255e 1) 1 ++ lit "l" := lit "w"]> (<[MakePrefix (b255e 1) 1 := lit "w"]> ∅))) [] [].
Definition demo_ns : NsState := mkNs ∅ ∅ {[(1, 1)]} 2.

Lemma demo_gc_good : gc_good demo_ns demo_gc.
Proof.
  destruct add_one_inv as [Hr Hi].
  pose proof (Del_refined _ ∅ _ [] Hr Hi (lit "a") eq_refl eq_refl) as [[Hr' _]|(_ & _ & Hf)]; [|by inversion Hf].
  pose proof (spec_del_inv (lit "a") _ Hi) as Hi'. split; [exact Hr'|exact Hi'].
Qed.

Lemma demo_gc_fuel : fuel_enough 5 demo_gc.
Proof. constructor; [vm_compute; lia|constructor]. Qed.

Lemma gc_pass_safe_witness :
  (exists g', gc_pass demo_scan 5 demo_gc = Some g' /\ gc_data g' = ∅)
  /\ exists g' s', gc_pass demo_scan 5 demo_gc = Some g' /\ gc_good s' g' /\ fewer_markers demo_ns s'.
Proof.
  split; [eexists; split; [vm_compute; reflexivity|vm_compute; reflexivity]|].
  destruct (gc_pass_safe demo_scan 5 demo_gc demo_ns demo_gc_good demo_gc_fuel) as (g' & s' & H1 & H2 & H3 & _).
  exists g', s'. split; [exact H1|]. split; [exact H2|exact H3].
Defined.

Lemma gc_pass_collects_witness :
  exists g', gc_pass demo_scan 5 demo_gc = Some g' /\ gc_table g' !! g_key (b255e 1) 1 = None.
Proof.
  destruct (gc_pass_collects demo_scan 5 demo_gc demo_ns demo_gc_good demo_gc_fuel ltac:(constructor) ltac:(constructor)) as (g' & H1 & H2).
  exists g'. split; [exact H1|]. apply (H2 (g_key (b255e 1) 1)). vm_compute. left.
Defined.

Lemma gc_leaks_behind_deleted_witness :
  exists g', gc_record (scan_with [MakePrefix (b255e 1) 1 ++ lit "a"]) 5 (g_key (b255e 1) 1) demo_gc = Some g'
    /\ gc_data g' !! (MakePrefix (b255e 1) 1 ++ lit "k") = Some (lit "v") /\ gc_table g' !! g_key (b255e 1) 1 = None.
Proof.
  destruct (gc_leaks_behind_deleted (scan_with [MakePrefix (b255e 1) 1 ++ lit "a"]) 5 demo_gc demo_ns 1 1 demo_gc_good
    ltac:(constructor) ltac:(lia) ltac:(cbn [retired demo_ns]; by apply elem_of_singleton_2) ltac:(vm_compute; reflexivity)) as (g' & H1 & H2 & H3).
  exists g'. split; [exact H1|]. split; [rewrite H2; vm_compute; reflexivity|rewrite H3; apply lookup_delete_eq].
Defined.
