(* ===== verification/NamespaceServer.v ===== *)
(** * Namespaces in the server

    [NamespaceManager] (src/namespace/manager.cpp) caches the bindings of
    tokens to namespaces; connections are bound by AUTH, rechecked by
    [DispatchCommand] before every command, and managed by NAMESPACE
    (src/redis_command.cpp, src/redis_service.cpp).  The metadata objects are
    shared between the cache and the connections, so they live in a heap and
    are compared by address.  The collector (src/namespace/gc.cpp) removes the
    data of retired prefixes. *)

From stdpp Require Import sorting.
From S2P Require Import Prelude EloqString Encoding StringNum StringMatch EloqKey NamespaceStorage NamespaceGc.

Set Warnings "-clear-no-such-hyp".
#[local] Open Scope tx_scope.

(** ** State *)

Record NamespaceMetadata := mkMeta {
  ns_name : bytes; encoded_id : bytes; meta_token : NamespaceToken; meta_epoch : Z
}.

(** Both maps lead to addresses of the heap. *)
Record CacheState := mkCache { ns_metadata : gmap bytes nat; token_metadata : gmap bytes nat }.

Record ConnCtx := mkConn {
  authenticated : bool; db_id : Z; conn_ns : bytes; conn_ns_id : bytes; conn_meta : option nat
}.

Definition new_conn : ConnCtx := mkConn false 0 kDefaultNamespace [] None.

(** The namespace table, the table of the tenants' data, the tables of the
    databases, the metadata objects, the cache, the outcomes of the coming
    transactions and the coming random bytes. *)
Record Server := mkServer {
  ns_table : Table; ns_data : Table; dbs : gmap Z Table;
  heap : list NamespaceMetadata; cache : CacheState;
  srv_ok : list (list bool); srv_rand : list bytes
}.

Definition set_cache (c : CacheState) (s : Server) : Server :=
  mkServer (ns_table s) (ns_data s) (dbs s) (heap s) c (srv_ok s) (srv_rand s).
Definition set_heap (h : list NamespaceMetadata) (s : Server) : Server :=
  mkServer (ns_table s) (ns_data s) (dbs s) h (cache s) (srv_ok s) (srv_rand s).
Definition set_data (d : Table) (s : Server) : Server :=
  mkServer (ns_table s) d (dbs s) (heap s) (cache s) (srv_ok s) (srv_rand s).
Definition set_dbs (d : gmap Z Table) (s : Server) : Server :=
  mkServer (ns_table s) (ns_data s) d (heap s) (cache s) (srv_ok s) (srv_rand s).
Definition set_rand (r : list bytes) (s : Server) : Server :=
  mkServer (ns_table s) (ns_data s) (dbs s) (heap s) (cache s) (srv_ok s) r.

(** Run a transaction on the namespace table. *)
Definition srv_tx {R} (m : Tx R R) (s : Server) : Server * R :=
  let '(e, r) := tx_run m (mkEngine (ns_table s) (ns_table s) (hd [] (srv_ok s))) in
  (mkServer (eng_table e) (ns_data s) (dbs s) (heap s) (cache s) (tail (srv_ok s)) (srv_rand s), r).

(** The order of [std::map] on the text of the tokens. *)
Definition text_le (a b : bytes * bytes) : Prop := bytes_ltb b.1 a.1 = false.
#[global] Instance text_le_dec : RelDecision text_le.
Proof. intros a b. unfold text_le. apply _. Defined.

Create HintDb quiet.

Section Server.

(** The server's password, its number of databases and whether it runs as a
    cluster; the engine's scan of a key range, as plans of batches of records. *)
Context (requirepass : bytes) (databases : Z) (cluster_mode : bool).
Context (scan : Scan).

(** ** [NamespaceManager] *)

(** The update that publishes metadata read from the storage. *)
Definition publish (token : NamespaceToken) (name ns_id : bytes) (epoch : Z) (s : Server) : Server * nat :=
  match token_metadata (cache s) !! tok_bytes token with
  | Some a => (s, a)
  | None =>
      let a := length (heap s) in
      (set_cache (mkCache (<[name := a]> (ns_metadata (cache s)))
                          (<[tok_bytes token := a]> (token_metadata (cache s))))
         (set_heap (heap s ++ [mkMeta name ns_id token epoch]) s), a)
  end.

Definition GetMetadataByToken (token : NamespaceToken) (s : Server) : Server * option nat :=
  match token_metadata (cache s) !! tok_bytes token with
  | Some a => (s, Some a)
  | None =>
      let '(s, (name, ns_id, epoch)) := srv_tx (ByToken requirepass token) s in
      if (length name =? 0)%nat then (s, None)
      else let '(s, a) := publish token name ns_id epoch s in (s, Some a)
  end.

Definition RemoveMetadata (name : bytes) (s : Server) : Server :=
  match ns_metadata (cache s) !! name with
  | Some a =>
      match heap s !! a with
      | Some m =>
          set_cache (mkCache (delete name (ns_metadata (cache s)))
                             (delete (tok_bytes (meta_token m)) (token_metadata (cache s)))) s
      | None => s
      end
  | None => s
  end.

Definition manager_Add (name : bytes) (token : NamespaceToken) (s : Server) : Server * bool :=
  srv_tx (Add requirepass name token) s.

Definition manager_Set (name : bytes) (token : NamespaceToken) (s : Server) : Server * bool :=
  let '(s, ok) := srv_tx (Set_ requirepass name token) s in
  (if ok : bool then RemoveMetadata name s else s, ok).

Definition manager_Del (name : bytes) (s : Server) : Server * bool :=
  let '(s, ok) := srv_tx (Del name) s in
  (if ok : bool then RemoveMetadata name s else s, ok).

Definition manager_Get (name : bytes) (s : Server) : Server * bytes :=
  let '(s, token) := srv_tx (GetToken name) s in (s, token_ToString token).

(** ** Commands *)

(** An object command names a key and maps the object's image to the new one
    ([None] is no object). *)
Inductive Command :=
| CmdAuth (username password : bytes)
| CmdNamespace (op ns : bytes)
| CmdSelect (db : Z)
| CmdFlushDB
| CmdFlushAll
| CmdObject (words : list bytes) (key : bytes) (effect : option bytes -> option bytes).

Definition to_lower (s : bytes) : bytes := (fun c => z2b (tolower (b2z c))) <$> s.

Definition ParseAuthCommand (args : list bytes) : bytes + Command :=
  if (length args =? 1)%nat then inl (lit "ERR wrong number of arguments for 'auth' command")
  else if (3 <? length args)%nat then inl (lit "ERR syntax error")
  else if (length args =? 2)%nat && (length requirepass =? 0)%nat then
    inl (lit "AUTH <password> called without any password configured for the default user. Are you sure your configuration is correct?")
  else
    let username := if (length args =? 3)%nat then nth 1 args [] else lit "default" in
    inr (CmdAuth username (nth (length args - 1) args [])).

Definition namespace_usage : bytes :=
  lit "ERR NAMESPACE subcommand must be one of GET, DEL, ADD, REFRESH and CURRENT".

Definition ParseNamespaceCommand (args : list bytes) : bytes + Command :=
  match args with
  | [_; sub] =>
      if bool_decide (to_lower sub = lit "current") then inr (CmdNamespace (lit "current") [])
      else inl namespace_usage
  | [_; sub; ns] =>
      let subcommand := to_lower sub in
      if bool_decide (subcommand = lit "get") then inr (CmdNamespace (lit "get") ns)
      else if bool_decide (subcommand = lit "del") then inr (CmdNamespace (lit "del") ns)
      else if bool_decide (subcommand = lit "add") then inr (CmdNamespace (lit "add") ns)
      else if bool_decide (subcommand = lit "refresh") then inr (CmdNamespace (lit "refresh") ns)
      else inl namespace_usage
  | _ => inl namespace_usage
  end.

(** ** AUTH *)

Definition AuthCommand_Execute (password : bytes) (c : ConnCtx) (s : Server) : Server * ConnCtx * bool :=
  let token := FromBase64Url password in
  let '(s, meta) := if tok_valid token then GetMetadataByToken token s else (s, None) in
  match meta ≫= fun a => (pair a) <$> heap s !! a with
  | Some (a, m) =>
      (s, mkConn true (db_id c) (ns_name m) (MakePrefix (encoded_id m) (meta_epoch m)) (Some a), true)
  | None =>
      if bool_decide (password = requirepass) then
        (s, mkConn true (db_id c) kDefaultNamespace [] None, true)
      else (s, c, false)
  end.

(** ** NAMESPACE *)

(** The reply, with the result of [Execute] and [OutputResult] together. *)
Inductive NsReply :=
| NsError (msg : bytes)
| NsString (str : bytes)
| NsList (vals : list bytes)
| NsStatusOk.

(** Draw tokens until one is not refused; [None] when the random bytes given
    to the model run out. *)
Fixpoint draw_token (refused : bytes -> bool) (rand : list bytes) : option (NamespaceToken * list bytes) :=
  match rand with
  | [] => None
  | r :: rand' =>
      let token := GenerateRandomToken r in
      if refused (token_ToString token) then draw_token refused rand' else Some (token, rand')
  end.

(** One batch of [List]: the names and tokens of its keys are added. *)
Fixpoint List_batch (keys : list bytes) (result : gmap bytes (NamespaceToken * bytes))
  : Tx (gmap bytes (NamespaceToken * bytes)) (gmap bytes (NamespaceToken * bytes)) :=
  match keys with
  | [] => tx_ret result
  | full_key :: keys' =>
      if (2 <? length full_key)%nat && bool_decide (take 2 full_key = kNamespacePrefix) then
        let name := drop 2 full_key in
        cmd <-t TxGet full_key;
        List_batch keys'
          match cmd.2 with
          | Some str =>
              let token := token_of_raw str in
              let key := match result !! tok_bytes token with Some (t0, _) => t0 | None => token end in
              <[tok_bytes token := (key, name)]> result
          | None => result
          end
      else List_batch keys' result
  end.

Fixpoint List_batches (batches : list (list ScanTuple)) (result : gmap bytes (NamespaceToken * bytes))
  : Tx (gmap bytes (NamespaceToken * bytes)) (gmap bytes (NamespaceToken * bytes)) :=
  match batches with
  | [] => tx_ret result
  | batch :: batches' =>
      success <-t outcome;
      or_abort ∅ success ;;t
      result <-t List_batch (normal_keys batch) result;
      List_batches batches' result
  end.

Definition kNamespaceScanEnd : bytes := lit "n;".

Definition List_ : Tx (gmap bytes (NamespaceToken * bytes)) (gmap bytes (NamespaceToken * bytes)) :=
  txm <-t NewTxm;
  if negb txm then tx_return ∅
  else
    success <-t outcome;
    or_abort ∅ success ;;t
    success <-t outcome;
    or_abort ∅ success ;;t
    plans <-t (fun e => (e, inr (scan (eng_tx e) kNamespacePrefix kNamespaceScanEnd)));
    result <-t List_batches (mjoin plans) ∅;
    CommitTx ;;t
    tx_return result.

(** [std::map] keyed by the token's text; the first entry of a text stays. *)
Definition manager_List (s : Server) : Server * list (bytes * bytes) :=
  let '(s, result) := srv_tx List_ s in
  let texts := (fun p : bytes * (NamespaceToken * bytes) => (token_ToString p.2.1, p.2.2)) <$> map_to_list result in
  (s, merge_sort text_le (map_to_list (list_to_map texts : gmap bytes bytes))).

Definition ns_name_bad (ns : bytes) : bool := (length ns =? 0)%nat || (255 <? length ns)%nat.
Definition ns_length_error : bytes := lit "ERR namespace length must be between 1 and 255 bytes".

Definition NamespaceCommand_Execute (op ns : bytes) (c : ConnCtx) (s : Server) : Server * option NsReply :=
  let err msg := Some (NsError (lit msg)) in
  if bool_decide (op = lit "current") then (s, Some (NsString (conn_ns c)))
  else if cluster_mode then (s, err "ERR forbidden to manage namespace when cluster mode was enabled"%string)
  else if (length requirepass =? 0)%nat then
    (s, err "ERR forbidden to manage namespace when requirepass was empty"%string)
  else if negb (authenticated c) || negb (bool_decide (conn_ns c = kDefaultNamespace)) then
    (s, err "ERR only requirepass user is allowed to manage namespaces"%string)
  else if bool_decide (op = lit "get") then
    if bool_decide (ns = lit "*") then
      let '(s, list) := manager_List s in (s, Some (NsList (p ← list; [p.2; p.1])))
    else
      let '(s, token) := manager_Get ns s in
      (s, if negb (length token =? 0)%nat then Some (NsString token) else err "ERR namespace not found"%string)
  else if bool_decide (op = lit "add") then
    if bool_decide (ns = kDefaultNamespace) then (s, err "ERR forbidden to add the default namespace"%string)
    else if ns_name_bad ns then (s, Some (NsError ns_length_error))
    else
      match draw_token (fun t => bool_decide (t = requirepass)) (srv_rand s) with
      | Some (token, rand) =>
          let '(s, ok) := manager_Add ns token (set_rand rand s) in
          (s, if ok : bool then Some (NsString (token_ToString token)) else err "ERR the namespace already exists"%string)
      | None => (s, None)
      end
  else if bool_decide (op = lit "refresh") then
    if bool_decide (ns = kDefaultNamespace) then (s, err "ERR forbidden to refresh the default namespace"%string)
    else if ns_name_bad ns then (s, Some (NsError ns_length_error))
    else
      let '(s, old_token) := manager_Get ns s in
      if (length old_token =? 0)%nat then (s, err "ERR namespace not found"%string)
      else
        match draw_token (fun t => bool_decide (t = requirepass) || bool_decide (t = old_token)) (srv_rand s) with
        | Some (token, rand) =>
            let '(s, ok) := manager_Set ns token (set_rand rand s) in
            (s, if ok : bool then Some (NsString (token_ToString token)) else err "ERR failed to refresh namespace token"%string)
        | None => (s, None)
        end
  else if bool_decide (op = lit "del") then
    if bool_decide (ns = kDefaultNamespace) then (s, err "ERR forbidden to delete the default namespace"%string)
    else
      let '(s, ok) := manager_Del ns s in
      (s, if ok : bool then Some NsStatusOk else err "ERR namespace not found"%string)
  else (s, Some (NsError [])).

(** ** SELECT *)

Definition in_namespace (c : ConnCtx) : bool :=
  negb (bool_decide (conn_ns c = kDefaultNamespace)) && negb (length (conn_ns c) =? 0)%nat.

Definition SelectCommand_Execute (db : Z) (c : ConnCtx) : ConnCtx * option bytes :=
  if in_namespace c then (c, Some (lit "ERR SELECT is not allowed in custom namespace"))
  else if (0 <=? db) && (db <? databases) then
    (mkConn (authenticated c) db (conn_ns c) (conn_ns_id c) (conn_meta c), None)
  else (c, Some (lit "DB index is out of range")).

(** ** FLUSHDB and FLUSHALL *)

(** Truncating a database's table: whether the catalog was read and the table
    replaced. *)
Definition truncate (db : Z) (s : Server) : Server * bool :=
  let ok := hd [] (srv_ok s) in
  let succeed := hd true ok && hd true (tail ok) in
  (mkServer (ns_table s) (ns_data s) (if succeed then <[db := ∅]> (dbs s) else dbs s)
     (heap s) (cache s) (tail (srv_ok s)) (srv_rand s), succeed).

(** The error of the reply, [None] for OK. *)
Definition ExecuteFlushDBCommand (c : ConnCtx) (s : Server) : Server * option bytes :=
  match conn_meta c ≫= fun a => (pair a) <$> heap s !! a with
  | Some (a, m) =>
      if in_namespace c then
        let old_epoch := meta_epoch m in
        let new_epoch := u64 (old_epoch + 1) in
        let '(s, error) := srv_tx (FlushDB_tx true (encoded_id m) old_epoch) s in
        match error with
        | Some msg => (s, Some msg)
        | None =>
            (set_heap (<[a := mkMeta (ns_name m) (encoded_id m) (meta_token m) new_epoch]> (heap s)) s, None)
        end
      else let '(s, ok) := truncate (db_id c) s in (s, if ok : bool then None else Some [])
  | None => let '(s, ok) := truncate (db_id c) s in (s, if ok : bool then None else Some [])
  end.

(** How FLUSHALL of the default namespace leaves the transactions of the
    tables, given for each table whether the catalog was read and whether the
    table was replaced: committed, aborted or still open. *)
Inductive TxEnd := TxCommitted | TxAborted | TxOpen.
#[global] Instance TxEnd_eq_dec : EqDecision TxEnd.
Proof. solve_decision. Defined.

Fixpoint flushall_loop (outs : list (bool * bool)) (pool : nat) (succeed : bool) : bool * list TxEnd :=
  match outs with
  | [] => (succeed, replicate pool (if succeed then TxCommitted else TxAborted))
  | (read_ok, upsert_ok) :: outs' =>
      if negb read_ok then (false, replicate pool TxOpen ++ [TxAborted])
      else if negb upsert_ok then (false, replicate (S pool) TxAborted)
      else flushall_loop outs' (S pool) true
  end.

Definition flushall_default (s : Server) : Server * bool :=
  let ok := hd [] (srv_ok s) in
  let outs := (fun i => (nth (2 * i) ok true, nth (2 * i + 1) ok true)) <$> seq 0 (Z.to_nat databases) in
  let '(succeed, _) := flushall_loop outs 0 false in
  (mkServer (ns_table s) (ns_data s) (if succeed : bool then (fun _ => ∅) <$> dbs s else dbs s)
     (heap s) (cache s) (tail (srv_ok s)) (srv_rand s), succeed).

(** ** Dispatch *)

(** The words [AuthRequired] looks at; the name of a command arrives in lower
    case. *)
Definition command_words (cmd : Command) : list bytes :=
  match cmd with
  | CmdAuth _ password => [lit "auth"; password]
  | CmdNamespace op _ => [lit "namespace"; op]
  | CmdSelect db => [lit "select"; to_string db]
  | CmdFlushDB => [lit "flushdb"]
  | CmdFlushAll => [lit "flushall"]
  | CmdObject words _ _ => words
  end.

Definition cmds_no_auth : list bytes := [lit "auth"; lit "hello"; lit "quit"; lit "reset"].

Definition AuthRequired (c : ConnCtx) (args : list bytes) : bool :=
  match args with
  | [] => true
  | first :: rest =>
      if (length requirepass =? 0)%nat then false
      else if authenticated c then false
      else if match rest with
              | second :: _ =>
                  bool_decide (to_lower first = lit "namespace") && bool_decide (to_lower second = lit "current")
              | [] => false
              end then false
      else negb (bool_decide (to_lower first ∈ cmds_no_auth))
  end.

(** The binding is rechecked before every command. *)
Definition RefreshBinding (c : ConnCtx) (s : Server) : Server * ConnCtx :=
  match conn_meta c ≫= fun a => (pair a) <$> heap s !! a with
  | Some (a, m) =>
      let '(s, live_meta) := GetMetadataByToken (meta_token m) s in
      if bool_decide (live_meta = Some a) then
        (s, mkConn (authenticated c) (db_id c) (conn_ns c) (MakePrefix (encoded_id m) (meta_epoch m)) (Some a))
      else (s, mkConn (authenticated c) (db_id c) kDefaultNamespace [] None)
  | None =>
      if bool_decide (conn_ns c = kDefaultNamespace) then
        (s, mkConn (authenticated c) (db_id c) (conn_ns c) [] None)
      else (s, c)
  end.

Inductive Reply :=
| ReplyError (msg : bytes)
| ReplyNs (r : NsReply)
| ReplyOk
| ReplyNone
| ReplyObject (before : option bytes).

(** The table a key lives in and the object command's write to it. *)
Definition object_read (c : ConnCtx) (key : bytes) (s : Server) : option bytes :=
  let k := ComposeNamespaceKey (conn_ns_id c) key in
  if no_namespace (conn_ns_id c) then (dbs s !! db_id c) ≫= (.!! k) else ns_data s !! k.

Definition object_write (c : ConnCtx) (key : bytes) (v : option bytes) (s : Server) : Server :=
  let k := ComposeNamespaceKey (conn_ns_id c) key in
  if no_namespace (conn_ns_id c) then
    set_dbs (<[db_id c := partial_alter (fun _ => v) k (default ∅ (dbs s !! db_id c))]> (dbs s)) s
  else set_data (partial_alter (fun _ => v) k (ns_data s)) s.

Definition DispatchCommand (cmd : Command) (c : ConnCtx) (s : Server) : Server * ConnCtx * Reply :=
  let '(s, c) := RefreshBinding c s in
  if AuthRequired c (command_words cmd) then (s, c, ReplyError (lit "NOAUTH Authentication required."))
  else
    match cmd with
    | CmdAuth _ password =>
        let '(s, c, ok) := AuthCommand_Execute password c s in
        (s, c, if ok : bool then ReplyOk else ReplyError (lit "WRONGPASS invalid username-password pair or user is disabled."))
    | CmdNamespace op ns =>
        let '(s, r) := NamespaceCommand_Execute op ns c s in
        (s, c, match r with Some r => ReplyNs r | None => ReplyNone end)
    | CmdSelect db =>
        let '(c, error) := SelectCommand_Execute db c in
        (s, c, match error with Some msg => ReplyError msg | None => ReplyOk end)
    | CmdFlushDB =>
        let '(s, error) := ExecuteFlushDBCommand c s in
        (s, c, match error with Some msg => ReplyError msg | None => ReplyOk end)
    | CmdFlushAll =>
        if in_namespace c then
          let '(s, error) := ExecuteFlushDBCommand c s in
          (s, c, match error with Some msg => ReplyError msg | None => ReplyOk end)
        else
          let '(s, succeed) := flushall_default s in
          (s, c, if succeed : bool then ReplyOk else ReplyError [])
    | CmdObject _ key effect =>
        let before := object_read c key s in
        (object_write c key (effect before) s, c, ReplyObject before)
    end.

End Server.

(** ** The cache and the storage agree *)

(** A cached token leads to the metadata of the live namespace it is bound to,
    and both maps have the same entries. *)
Record coherent (h : list NamespaceMetadata) (k : CacheState) (a : NsState) : Prop := {
  coh_token : forall tok p, token_metadata k !! tok = Some p ->
    exists m id, h !! p = Some m /\ tok_bytes (meta_token m) = tok /\ tok_valid (meta_token m) = true
      /\ ns_metadata k !! ns_name m = Some p /\ live a !! ns_name m = Some (tok, id)
      /\ encoded_id m = b255e id /\ meta_epoch m = epoch_of a id;
  coh_ns : forall ns p, ns_metadata k !! ns = Some p ->
    exists m, h !! p = Some m /\ ns_name m = ns /\ token_metadata k !! tok_bytes (meta_token m) = Some p
}.

(** The namespaces but [ns] are the same in both states. *)
Definition same_but (ns : bytes) (a a' : NsState) : Prop :=
  forall ns', ns' <> ns ->
  live a' !! ns' = live a !! ns'
  /\ forall tok id, live a !! ns' = Some (tok, id) -> epoch_of a' id = epoch_of a id.

Lemma coherent_other h k a a' ns :
  coherent h k a -> same_but ns a a' -> ns_metadata k !! ns = None -> coherent h k a'.
Proof.
  intros [Ct Cn] Hs Hnone. constructor; [|done]. intros tok p E.
  destruct (Ct tok p E) as (m & id & H1 & H2 & H3 & H4 & H5 & H6 & H7).
  destruct (Hs (ns_name m)) as [H8 H9]; [congruence|]. specialize (H9 _ _ H5). exists m, id. split_and!; congruence.
Qed.

Lemma coherent_remove s a ns :
  coherent (heap s) (cache s) a ->
  let s' := RemoveMetadata ns s in
  coherent (heap s') (cache s') a /\ ns_metadata (cache s') !! ns = None
  /\ s' = set_cache (cache s') s.
Proof.
  intros Hc. pose proof Hc as [Ct Cn]. cbn zeta. unfold RemoveMetadata.
  destruct (ns_metadata (cache s) !! ns) as [p|] eqn:E; [|by destruct s].
  destruct (Cn ns p E) as (m & Hp & Hn & Ht). rewrite Hp. cbn [set_cache cache heap ns_metadata].
  split_and!; [|by rewrite lookup_delete_eq|done]. constructor; cbn [token_metadata ns_metadata].
  - intros tok p' [Hne E']%lookup_delete_Some. destruct (Ct tok p' E') as (m' & id & H1 & H2 & H3 & H4 & H5 & H6 & H7).
    exists m', id. split_and!; try done. rewrite lookup_delete_ne; [done|]. intros E2.
    rewrite <- E2, E in H4. injection H4 as <-. apply Hne. congruence.
  - intros ns' p' [Hne E']%lookup_delete_Some. destruct (Cn ns' p' E') as (m' & H1 & H2 & H3).
    exists m'. split_and!; [done..|]. rewrite lookup_delete_ne; [done|]. intros E2. rewrite <- E2, Ht in H3.
    injection H3 as <-. congruence.
Qed.

Lemma coherent_publish h k a ns token id :
  coherent h k a -> ns_inv a -> live a !! ns = Some (tok_bytes token, id) -> tok_valid token = true ->
  token_metadata k !! tok_bytes token = None ->
  coherent (h ++ [mkMeta ns (b255e id) token (epoch_of a id)])
    (mkCache (<[ns := length h]> (ns_metadata k)) (<[tok_bytes token := length h]> (token_metadata k))) a.
Proof.
  intros [Ct Cn] Hi Hl Hv Hnone. set (m := mkMeta _ _ _ _).
  assert ((h ++ [m]) !! length h = Some m) as Hm by (by rewrite lookup_app_r, Nat.sub_diag).
  assert (forall p m', h !! p = Some m' -> (h ++ [m]) !! p = Some m') as Hold.
  { intros p m' E. rewrite lookup_app_l; [done|]. by eapply lookup_lt_Some. }
  constructor; cbn [token_metadata ns_metadata].
  - intros tok p. rewrite lookup_insert. case_decide as E.
    + intros [= <-]. exists m, id. rewrite lookup_insert_eq. subst tok. by split_and!.
    + intros Ep. destruct (Ct tok p Ep) as (m' & id' & H1 & H2 & H3 & H4 & H5 & H6 & H7).
      exists m', id'. split_and!; auto. rewrite lookup_insert_ne; [done|]. intros E2. rewrite <- E2, Hl in H5.
      injection H5 as E5 _. congruence.
  - intros ns' p. rewrite lookup_insert. case_decide as E.
    + intros [= <-]. exists m. rewrite lookup_insert_eq. by split_and!.
    + intros Ep. destruct (Cn ns' p Ep) as (m' & H1 & H2 & H3). exists m'. split_and!; auto.
      rewrite lookup_insert_ne; [done|]. intros E2. congruence.
Qed.

(** ** The invariant of the server *)

Definition ns_name_ok (ns : bytes) : Prop := ns <> kDefaultNamespace /\ ns <> [].

Record srv_inv (s : Server) (a : NsState) : Prop := {
  si_repr : ns_repr (ns_table s) a;
  si_inv : ns_inv a;
  si_data : data_ok a (ns_data s);
  si_coh : coherent (heap s) (cache s) a;
  si_names : forall ns x, live a !! ns = Some x -> ns_name_ok ns
}.

(** A connection is in the default namespace, or holds the metadata of its
    namespace, which may be gone by now. *)
Definition conn_ok (h : list NamespaceMetadata) (c : ConnCtx) : Prop :=
  match conn_meta c with
  | None => conn_ns c = kDefaultNamespace
  | Some p => exists m, h !! p = Some m /\ conn_ns c = ns_name m /\ ns_name_ok (ns_name m)
  end.

(** What a connection is after its binding was checked. *)
Definition conn_bound (s : Server) (a : NsState) (c : ConnCtx) : Prop :=
  match conn_meta c with
  | None => conn_ns c = kDefaultNamespace /\ conn_ns_id c = []
  | Some p => exists m id, heap s !! p = Some m /\ token_metadata (cache s) !! tok_bytes (meta_token m) = Some p
      /\ ns_name m = conn_ns c /\ live a !! conn_ns c = Some (tok_bytes (meta_token m), id)
      /\ encoded_id m = b255e id /\ meta_epoch m = epoch_of a id
      /\ conn_ns_id c = MakePrefix (b255e id) (epoch_of a id) /\ ns_name_ok (conn_ns c)
  end.

(** The objects keep their names. *)
Definition heap_grows (h h' : list NamespaceMetadata) : Prop :=
  forall p m, h !! p = Some m -> exists m', h' !! p = Some m' /\ ns_name m' = ns_name m.

#[global] Instance heap_grows_preorder : PreOrder heap_grows.
Proof.
  split; [by intros h p m; eauto|]. intros h1 h2 h3 H1 H2 p m E.
  destruct (H1 p m E) as (m2 & E2 & Hn2). destruct (H2 p m2 E2) as (m3 & E3 & Hn3). exists m3. split; congruence.
Qed.

Lemma conn_ok_grows h h' c : heap_grows h h' -> conn_ok h c -> conn_ok h' c.
Proof.
  intros Hg. unfold conn_ok. destruct (conn_meta c) as [p|]; [|done]. intros (m & E & H1 & H2).
  destruct (Hg p m E) as (m' & E' & Hn). exists m'. rewrite Hn. by split_and!.
Qed.

(** The tables and the data are left alone. *)
Definition same_data (s s' : Server) : Prop :=
  ns_data s' = ns_data s /\ dbs s' = dbs s /\ srv_rand s' = srv_rand s.

#[global] Instance same_data_preorder : PreOrder same_data.
Proof. split; [by intros s|]. intros s1 s2 s3 (H1 & H2 & H3) (H4 & H5 & H6). split_and!; congruence. Qed.

(** The coming transactions lose no reads. *)
Definition reads_fine (s : Server) : Prop := Forall reads_ok (srv_ok s).

Lemma reads_fine_hd s : reads_fine s -> reads_ok (hd [] (srv_ok s)).
Proof. intros H. by apply Forall_hd_nil. Qed.

(** ** What the abstract operations leave alone *)

Definition op_name (op : NsOp) : bytes := match op with OpAdd ns _ | OpSet ns _ | OpDel ns => ns end.

(** The next identifier and the epochs grow by at most one. *)
Definition grown (a a' : NsState) : Prop :=
  next_id a <= next_id a' <= next_id a + 1 /\ forall id, epoch_of a' id <= epoch_of a id + 1.

Lemma grown_refl a : grown a a.
Proof. split; [lia|]. intros id. lia. Qed.

(** Every prefix that may hold data stays accounted for. *)
Definition prefixes_kept (a a' : NsState) : Prop :=
  forall id ep, current a id ep \/ (id, ep) ∈ retired a -> current a' id ep \/ (id, ep) ∈ retired a'.

Lemma data_inv_kept a a' d : prefixes_kept a a' -> data_inv a d -> data_inv a' d.
Proof.
  intros Hk Hd k Hs. destruct (Hd k Hs) as (id & ep & key & H1 & H2 & H3 & H4). exists id, ep, key.
  split_and!; auto.
Qed.

(** The namespaces that have an identifier of before had it, with no later epoch. *)
Definition ids_kept (a a' : NsState) : Prop :=
  next_id a <= next_id a'
  /\ forall ns' tok' id, live a' !! ns' = Some (tok', id) -> id < next_id a ->
     exists ns tok, live a !! ns = Some (tok, id) /\ epoch_of a id <= epoch_of a' id.

Lemma data_ok_kept a a' d : ids_kept a a' -> data_ok a d -> data_ok a' d.
Proof.
  intros [Hn Hk] Hd k Hs. destruct (Hd k Hs) as (id & ep & key & H1 & H2 & -> & H4 & H5). exists id, ep, key.
  do 3 (split; [done|]). split; [lia|]. intros ns' tok' El. destruct (Hk ns' tok' id El H4) as (ns & tok & El' & He).
  specialize (H5 ns tok El'). lia.
Qed.

Record op_effect (ns : bytes) (a a' : NsState) : Prop := {
  oe_same : same_but ns a a';
  oe_kept : prefixes_kept a a';
  oe_ids : ids_kept a a';
  oe_grown : grown a a'
}.

Lemma effect_refl ns a : op_effect ns a a.
Proof. split; [by intros ns'|by intros id ep|split; [lia|]; intros ns' tok' id El _; exists ns', tok'; split; [done|lia]|apply grown_refl]. Qed.

Lemma effect_alloc ns tok a eps :
  ns_inv a -> live a !! ns = None -> eps = epochs a \/ eps = <[next_id a := 1]> (epochs a) ->
  op_effect ns a (mkNs (<[ns := (tok, next_id a)]> (live a)) eps (retired a) (next_id a + 1)).
Proof.
  intros Hi Hnone Heps. set (a' := mkNs _ _ _ _).
  assert (forall id, id <> next_id a -> epoch_of a' id = epoch_of a id) as He.
  { intros id Hid. unfold epoch_of. cbn. destruct Heps as [-> | ->]; [done|]. by rewrite lookup_insert_ne. }
  assert (forall ns' tok' id, live a !! ns' = Some (tok', id) -> id <> next_id a) as Hlt.
  { intros ns' tok' id E. destruct (inv_range _ Hi _ _ _ E). lia. }
  split.
  - intros ns' Hne. split; [by apply lookup_insert_ne|]. intros tok' id E. by eauto.
  - intros id ep [(ns' & tok' & E & ->)|H]; [|by right]. left. exists ns', tok'. rewrite He by eauto.
    split; [|done]. cbn. rewrite lookup_insert_ne; [done|]. intros ->. congruence.
  - split; [cbn; lia|]. intros ns' tok' id El Hid. cbn in El. rewrite lookup_insert in El. case_decide; [simplify_eq; lia|].
    exists ns', tok'. rewrite He by lia. split; [done|lia].
  - split; [cbn; lia|]. intros id. destruct (decide (id = next_id a)) as [->|Hid]; [|by rewrite He; [lia|]].
    pose proof (epoch_of_range a (next_id a) Hi). unfold epoch_of at 1. cbn.
    destruct Heps as [-> | ->]; [unfold epoch_of in *; lia|]. rewrite lookup_insert_eq. cbn. lia.
Qed.

Lemma effect_rotate ns tok old id a :
  ns_inv a -> live a !! ns = Some (old, id) ->
  op_effect ns a (mkNs (<[ns := (tok, id)]> (live a)) (epochs a) (retired a) (next_id a)).
Proof.
  intros Hi E. split.
  - intros ns' Hne. split; [by apply lookup_insert_ne|done].
  - intros id' ep [(ns' & tok' & E' & ->)|H]; [|by right]. left.
    destruct (decide (ns' = ns)) as [->|Hne].
    + exists ns, tok. split; [|done]. cbn. rewrite lookup_insert_eq. congruence.
    + exists ns', tok'. split; [|done]. cbn. by rewrite lookup_insert_ne.
  - split; [cbn; lia|]. intros ns' tok' id' El _. cbn in El. rewrite lookup_insert in El.
    case_decide; simplify_eq; eexists _, _; (split; [done|]); unfold epoch_of; cbn; lia.
  - split; [cbn; lia|]. intros id'. unfold epoch_of. cbn. lia.
Qed.

Lemma effect_del ns a : ns_inv a -> op_effect ns a (spec_del ns a).1.
Proof.
  intros Hi. unfold spec_del. destruct (live a !! ns) as [[tok id]|] eqn:E; [|apply effect_refl]. cbn [fst].
  set (a' := mkNs _ _ _ _).
  assert (forall id', id' <> id -> epoch_of a' id' = epoch_of a id') as He.
  { intros id' Hid. unfold epoch_of. cbn. by rewrite lookup_delete_ne. }
  split.
  - intros ns' Hne. split; [by apply lookup_delete_ne|]. intros tok' id' E'. apply He. intros ->. apply Hne.
    by eapply inv_id.
  - intros id' ep [(ns' & tok' & E' & ->)|H].
    + destruct (decide (ns' = ns)) as [->|Hne].
      * right. cbn. rewrite E in E'. injection E' as <- <-. by apply elem_of_union_l, elem_of_singleton.
      * left. exists ns', tok'. split; [cbn; by rewrite lookup_delete_ne|]. symmetry. apply He. intros ->.
        apply Hne. by eapply inv_id.
    + right. cbn. by apply elem_of_union_r.
  - split; [cbn; lia|]. intros ns' tok' id' El _. cbn in El. apply lookup_delete_Some in El as [Hne El].
    exists ns', tok'. rewrite He; [split; [done|lia]|]. intros ->. apply Hne. by eapply inv_id.
  - split; [cbn; lia|]. intros id'. destruct (decide (id' = id)) as [->|Hid]; [|by rewrite He; [lia|]].
    pose proof (epoch_of_range a id Hi). unfold epoch_of at 1. cbn. rewrite lookup_delete_eq. cbn. lia.
Qed.

Lemma spec_op_effect requirepass op a : ns_inv a -> op_effect (op_name op) a (spec_op requirepass op a).1.
Proof.
  intros Hi. destruct op as [ns token|ns token|ns]; cbn [spec_op op_name]; [| |by apply effect_del].
  - destruct (_ && _); [|apply effect_refl]. unfold spec_add.
    destruct (live a !! ns) as [[? ?]|] eqn:E; [apply effect_refl|]. case_decide; [apply effect_refl|].
    apply effect_alloc; auto.
  - destruct (_ && _); [|apply effect_refl]. unfold spec_set.
    destruct (live a !! ns) as [[? ?]|] eqn:E; repeat case_decide; try apply effect_refl.
    + by eapply effect_rotate.
    + apply effect_alloc; auto.
Qed.

(** A refused operation changes nothing, an addition only makes a namespace
    that was not there, and names come from the operation. *)
Lemma spec_op_refused requirepass op a :
  (spec_op requirepass op a).2 = false -> (spec_op requirepass op a).1 = a.
Proof.
  destruct op as [ns token|ns token|ns]; cbn [spec_op]; unfold spec_add, spec_set, spec_del;
    repeat case_match; try done.
Qed.

Lemma spec_add_new requirepass ns token a :
  (spec_op requirepass (OpAdd ns token) a).1 = a \/ live a !! ns = None.
Proof. cbn [spec_op]. unfold spec_add. repeat case_match; auto. Qed.

Lemma spec_op_names requirepass op a ns x :
  ns_inv a -> live (spec_op requirepass op a).1 !! ns = Some x ->
  (exists y, live a !! ns = Some y) \/ (ns = op_name op /\ (spec_op requirepass op a).2 = true).
Proof.
  intros Hi E. destruct (spec_op requirepass op a).2 eqn:Er.
  - destruct (decide (ns = op_name op)) as [->|Hne]; [by right|left].
    destruct (oe_same _ _ _ (spec_op_effect requirepass op a Hi) ns Hne) as [E' _]. rewrite E' in E. eauto.
  - rewrite (spec_op_refused _ _ _ Er) in E. eauto.
Qed.

Section Operations.

Context (requirepass : bytes) (databases : Z) (cluster_mode : bool).
Context (scan : Scan).

(** A transaction that leaves the namespace table alone. *)
Lemma inv_same_table s a s' :
  srv_inv s a -> ns_table s' = ns_table s -> ns_data s' = ns_data s -> heap s' = heap s -> cache s' = cache s ->
  srv_inv s' a.
Proof using Type. intros [? ? ? ? ?] E1 E2 E3 E4. constructor; by rewrite ?E1, ?E2, ?E3, ?E4. Qed.

Lemma GetMetadataByToken_ok token s a :
  srv_inv s a -> reads_fine s ->
  let '(s', r) := GetMetadataByToken requirepass token s in
  srv_inv s' a /\ heap_grows (heap s) (heap s') /\ same_data s s' /\ reads_fine s'
  /\ (forall p m, heap s !! p = Some m -> heap s' !! p = Some m)
  /\ (forall p, r = Some p -> token_metadata (cache s') !! tok_bytes token = Some p).
Proof using Type.
  intros Hs Hok. unfold GetMetadataByToken.
  destruct (token_metadata (cache s) !! tok_bytes token) as [p|] eqn:Et.
  { split_and!; try done. intros ? [= <-]. done. }
  unfold srv_tx. pose proof (ByToken_run requirepass _ (ns_table s) a (hd [] (srv_ok s)) token
    (si_repr _ _ Hs) (si_inv _ _ Hs) (reads_fine_hd s Hok)) as Hb.
  destruct (tx_run _ _) as [e [[name ns_id] epoch]]. cbn zeta in Hb. cbn [fst snd] in Hb. destruct Hb as [He Hb].
  set (s1 := mkServer (eng_table e) _ _ _ _ _ _).
  assert (srv_inv s1 a) as Hs1 by (eapply inv_same_table; [exact Hs|done..]).
  assert (reads_fine s1) as Hok1 by (by apply Forall_tl).
  destruct Hb as [(ns & id & Hl & [= -> -> ->] & Hv)|[= -> -> ->]].
  - destruct (si_names _ _ Hs _ _ Hl) as [_ Hne]. destruct ns as [|b ns0] eqn:En; [done|]. rewrite <- En in *.
    replace (length ns =? 0)%nat with false by (by rewrite En).
    unfold publish. cbn [cache s1]. rewrite Et. cbn [heap set_cache set_heap cache].
    assert (forall p m, heap s !! p = Some m -> (heap s ++ [mkMeta ns (b255e id) token (epoch_of a id)]) !! p = Some m) as Hh.
    { intros p m E. rewrite lookup_app_l; [done|]. by eapply lookup_lt_Some. }
    split_and!; try done.
    + destruct Hs1 as [? ? ? Hc ?]. constructor; try done. by apply coherent_publish.
    + intros p m E. exists m. split; [by apply Hh|done].
    + intros p [= <-]. cbn [token_metadata]. by rewrite lookup_insert_eq.
  - cbn [length Nat.eqb]. split_and!; try done.
Qed.

Lemma RefreshBinding_ok c s a :
  srv_inv s a -> conn_ok (heap s) c -> reads_fine s ->
  let '(s', c') := RefreshBinding requirepass c s in
  srv_inv s' a /\ heap_grows (heap s) (heap s') /\ same_data s s' /\ reads_fine s' /\ conn_bound s' a c'
  /\ authenticated c' = authenticated c.
Proof using Type.
  intros Hs Hc Hok. unfold RefreshBinding. unfold conn_ok in Hc.
  destruct (conn_meta c) as [p|]; cbn [mbind option_bind].
  - destruct Hc as (m & Hp & Hn & Hnok). rewrite Hp. cbn [fmap option_fmap option_map].
    pose proof (GetMetadataByToken_ok (meta_token m) s a Hs Hok) as Hg.
    destruct (GetMetadataByToken _ _ _) as [s' r]. destruct Hg as (Hs' & Hh & Hd & Hok' & Hold & Hr).
    case_bool_decide as Er; [|by split_and!].
    split_and!; try done. unfold conn_bound. cbn [conn_meta conn_ns conn_ns_id].
    destruct (coh_token _ _ _ (si_coh _ _ Hs') _ _ (Hr p Er)) as (m' & id & H1 & H2 & H3 & H4 & H5 & H6 & H7).
    rewrite (Hold p m Hp) in H1. injection H1 as <-. exists m, id. rewrite Hn, H6, H7.
    split_and!; auto; apply Hnok.
  - rewrite Hc, bool_decide_true by done. by split_and!.
Qed.

(** ** Changing the namespaces *)

Definition tenant_get (a : NsState) (s : Server) (ns key : bytes) : option bytes :=
  live a !! ns ≫= fun x => ns_data s !! (MakePrefix (b255e x.2) (epoch_of a x.2) ++ key).

(** Tenants but [ns] see the same data. *)
Definition same_view (ns : bytes) (a : NsState) (s : Server) (a' : NsState) (s' : Server) : Prop :=
  forall ns' key, ns' <> ns -> tenant_get a' s' ns' key = tenant_get a s ns' key.

Lemma same_but_view ns a s a' s' : same_but ns a a' -> ns_data s' = ns_data s -> same_view ns a s a' s'.
Proof using Type.
  intros Hs Hd ns' key Hne. destruct (Hs ns' Hne) as [E He]. unfold tenant_get. rewrite E, Hd.
  destruct (live a !! ns') as [[tok id]|]; [|done]. cbn. by rewrite (He tok id).
Qed.

Definition manager_op (op : NsOp) (s : Server) : Server * bool :=
  match op with
  | OpAdd ns token => manager_Add requirepass ns token s
  | OpSet ns token => manager_Set requirepass ns token s
  | OpDel ns => manager_Del ns s
  end.

Lemma srv_tx_eq {R : Type} (m : Tx R R) (s : Server) :
  let run := tx_run m (mkEngine (ns_table s) (ns_table s) (hd [] (srv_ok s))) in
  srv_tx m s = (mkServer (eng_table run.1) (ns_data s) (dbs s) (heap s) (cache s) (tail (srv_ok s)) (srv_rand s), run.2).
Proof using Type. unfold srv_tx. by destruct (tx_run _ _). Qed.

(** The manager's operation is the transaction and the removal from the cache. *)
Lemma manager_op_eq op s :
  manager_op op s
  = let '(s1, r) := srv_tx (op_tx requirepass op) s in
    (match op with OpAdd _ _ => s1 | _ => if r : bool then RemoveMetadata (op_name op) s1 else s1 end, r).
Proof using Type.
  destruct op as [ns token|ns token|ns]; cbn [manager_op op_tx op_name].
  - unfold manager_Add. by destruct (srv_tx _ _).
  - unfold manager_Set. by destruct (srv_tx _ _).
  - unfold manager_Del. by destruct (srv_tx _ _).
Qed.

Definition op_named (op : NsOp) : Prop := match op with OpDel _ => True | _ => ns_name_ok (op_name op) end.

(** The transaction alone. *)
Lemma storage_step op s a :
  srv_inv s a -> next_id a < 2 ^ 64 - 1 -> op_wf (op, hd [] (srv_ok s)) -> op_named op ->
  let run := tx_run (op_tx requirepass op) (mkEngine (ns_table s) (ns_table s) (hd [] (srv_ok s))) in
  exists a', ns_repr (eng_table run.1) a' /\ ns_inv a' /\ op_effect (op_name op) a a'
    /\ (forall ns x, live a' !! ns = Some x -> ns_name_ok ns)
    /\ ((a' = (spec_op requirepass op a).1 /\ run.2 = (spec_op requirepass op a).2)
        \/ (a' = a /\ run.2 = false /\ false ∈ hd [] (srv_ok s))).
Proof using Type.
  intros Hs Hn Hw Hname run. pose proof (si_inv _ _ Hs) as Hi.
  pose proof (op_refined requirepass op (hd [] (srv_ok s)) (ns_table s) (ns_table s) a (si_repr _ _ Hs) Hi Hw Hn) as Hop.
  fold run in Hop. destruct Hop as [[Hr Er]|(Et & Er & Hf)].
  - exists (spec_op requirepass op a).1. pose proof (spec_op_effect requirepass op a Hi) as He.
    split_and!; [done|by eapply spec_op_inv|done| |by left].
    intros ns x E. destruct (spec_op_names requirepass op a ns x Hi E) as [[y Ey]|[-> Ht]]; [by eapply si_names|].
    destruct op as [ns token|ns token|ns]; [done..|]. cbn in E. unfold spec_del in E.
    destruct (live a !! ns) as [[tok id]|] eqn:El; cbn in E; [|congruence]. by rewrite lookup_delete_eq in E.
  - exists a. split_and!; [|done|apply effect_refl|apply Hs|by right]. rewrite Et. apply Hs.
Qed.

Lemma uncached s a ns : srv_inv s a -> live a !! ns = None -> ns_metadata (cache s) !! ns = None.
Proof using Type.
  intros Hs Hnone. destruct (ns_metadata (cache s) !! ns) as [p|] eqn:E; [|done].
  destruct (coh_ns _ _ _ (si_coh _ _ Hs) _ _ E) as (m & Hp & Hn & Ht).
  destruct (coh_token _ _ _ (si_coh _ _ Hs) _ _ Ht) as (m' & id & H1 & _ & _ & _ & H5 & _). congruence.
Qed.

Lemma manager_op_ok op s a :
  srv_inv s a -> reads_fine s -> next_id a < 2 ^ 64 - 1 -> op_wf (op, hd [] (srv_ok s)) -> op_named op ->
  let '(s', r) := manager_op op s in
  exists a', srv_inv s' a' /\ op_effect (op_name op) a a' /\ same_data s s' /\ heap s' = heap s /\ reads_fine s'
    /\ ((a' = (spec_op requirepass op a).1 /\ r = (spec_op requirepass op a).2)
        \/ (a' = a /\ r = false /\ false ∈ hd [] (srv_ok s))).
Proof using Type.
  intros Hs Hok Hn Hw Hname. rewrite manager_op_eq, srv_tx_eq.
  destruct (storage_step op s a Hs Hn Hw Hname) as (a' & Hr & Hi & He & Hnm & Hcase).
  set (run := tx_run _ _) in *. set (s1 := mkServer _ _ _ _ _ _ _).
  assert (reads_fine s1) as Hok1 by (by apply Forall_tl).
  assert (data_ok a' (ns_data s)) as Hd by (eapply data_ok_kept; [apply He|apply Hs]).
  assert (run.2 = false -> a' = a) as Hfalse.
  { intros E. destruct Hcase as [[-> E2]|[-> _]]; [|done]. rewrite E2 in E. by apply spec_op_refused in E. }
  assert (a' = a -> srv_inv s1 a') as Hsame.
  { intros ->. constructor; try done; apply Hs. }
  assert (ns_metadata (cache s) !! op_name op = None -> srv_inv s1 a') as Hnew.
  { intros Hc. constructor; try done. eapply coherent_other; [apply Hs|apply He|done]. }
  assert (srv_inv (RemoveMetadata (op_name op) s1) a' /\ same_data s (RemoveMetadata (op_name op) s1)
    /\ heap (RemoveMetadata (op_name op) s1) = heap s /\ reads_fine (RemoveMetadata (op_name op) s1)) as Hrem.
  { destruct (coherent_remove s1 a (op_name op) (si_coh _ _ Hs)) as (Hc & Hnone & E). rewrite E in *.
    split_and!; try done. constructor; try done. by eapply coherent_other; [exact Hc|apply He|]. }
  destruct op as [ns token|ns token|ns]; [|destruct run.2 eqn:Er..];
    [exists a'; split_and!; try done|exists a'; destruct Hrem as (? & ? & ? & ?); by split_and!
    |exists a'; split_and!; auto; done|exists a'; destruct Hrem as (? & ? & ? & ?); by split_and!
    |exists a'; split_and!; auto; done].
  destruct Hcase as [[E _]|[E _]]; [|by apply Hsame].
  destruct (spec_add_new requirepass ns token a) as [E2|Hnone]; [apply Hsame; congruence|].
  apply Hnew. by eapply uncached.
Qed.

(** ** Transactions that only read *)

Definition quiet {R A : Type} (m : Tx R A) : Prop :=
  forall t ok, exists ok' r, m (mkEngine t t ok) = (mkEngine t t ok', r).

Lemma quiet_ret {R A : Type} (x : A) : quiet (R := R) (tx_ret x).
Proof using Type. intros t ok. by eexists _, _. Qed.
Lemma quiet_return {R A : Type} (x : R) : quiet (A := A) (tx_return x).
Proof using Type. intros t ok. by eexists _, _. Qed.
Lemma quiet_outcome {R : Type} : quiet (R := R) outcome.
Proof using Type. intros t ok. by eexists _, _. Qed.
Lemma quiet_new {R : Type} : quiet (R := R) NewTxm.
Proof using Type. intros t ok. by eexists _, _. Qed.
Lemma quiet_get {R : Type} k : quiet (R := R) (TxGet k).
Proof using Type. intros t ok. by eexists _, _. Qed.
Lemma quiet_abort {R : Type} : quiet (R := R) AbortTx.
Proof using Type. intros t ok. by eexists _, _. Qed.
Lemma quiet_commit {R : Type} : quiet (R := R) CommitTx.
Proof using Type. intros t ok. rewrite commit_eq. exists (tail ok), (inr (hd true ok)). by destruct (hd true ok). Qed.
Lemma quiet_bind {R A B : Type} (m : Tx R A) (f : A -> Tx R B) :
  quiet m -> (forall x, quiet (f x)) -> quiet (tx_bind m f).
Proof using Type.
  intros Hm Hf t ok. unfold tx_bind. destruct (Hm t ok) as (ok1 & [r|x] & ->); [by eexists _, _|]. apply Hf.
Qed.
Lemma quiet_or_abort {R : Type} (r : R) b : quiet (or_abort r b).
Proof using Type. destruct b; [apply quiet_ret|]. apply quiet_bind; [apply quiet_abort|intros; apply quiet_return]. Qed.

#[local] Hint Resolve quiet_ret quiet_return quiet_outcome quiet_new quiet_get quiet_abort quiet_commit quiet_or_abort : quiet.
Ltac quiet :=
  repeat first
    [ solve [auto with quiet] | apply quiet_bind; [|intros ?]
    | match goal with |- quiet (match ?x with _ => _ end) => destruct x end ].

Lemma quiet_GetToken ns : quiet (GetToken ns).
Proof using Type. unfold GetToken. quiet. Qed.

Lemma quiet_List_batch keys : forall result, quiet (List_batch keys result).
Proof using Type. induction keys as [|k keys IH]; intros result; cbn [List_batch]; quiet. Qed.

Lemma quiet_List_batches batches : forall result, quiet (List_batches batches result).
Proof using Type.
  induction batches as [|b bs IH]; intros result; cbn [List_batches]; quiet. apply quiet_List_batch.
Qed.

Lemma quiet_List : quiet (List_ scan).
Proof using Type.
  unfold List_. quiet; [intros t ok; by eexists _, _|apply quiet_List_batches].
Qed.

Lemma srv_tx_quiet {R : Type} (m : Tx R R) s a :
  quiet m -> srv_inv s a -> reads_fine s ->
  let '(s', r) := srv_tx m s in
  srv_inv s' a /\ same_data s s' /\ heap s' = heap s /\ reads_fine s'.
Proof using Type.
  intros Hm Hs Hok. rewrite srv_tx_eq. unfold tx_run.
  destruct (Hm (ns_table s) (hd [] (srv_ok s))) as (ok' & r & ->).
  assert (reads_fine (mkServer (ns_table s) (ns_data s) (dbs s) (heap s) (cache s) (tail (srv_ok s)) (srv_rand s)))
    by (by apply Forall_tl).
  destruct r; cbn [fst snd eng_table]; split_and!; try done; (eapply inv_same_table; [exact Hs|done..]).
Qed.

(** ** NAMESPACE *)

Definition rand_ok (s : Server) : Prop := Forall (fun r => length r = 16%nat) (srv_rand s).

Lemma GenerateRandomToken_length r : length (tok_bytes (GenerateRandomToken r)) = length r.
Proof using Type. cbn. repeat case_match; by rewrite ?length_insert. Qed.

Lemma draw_token_ok refused rand token rand' :
  Forall (fun r => length r = 16%nat) rand -> draw_token refused rand = Some (token, rand') ->
  length (tok_bytes token) = 16%nat /\ tok_valid token = true /\ refused (token_ToString token) = false
  /\ Forall (fun r => length r = 16%nat) rand'.
Proof using Type.
  induction rand as [|r rand IH]; intros Hr; cbn [draw_token]; [done|]. inversion_clear Hr as [|? ? Hl Hrs].
  destruct (refused (token_ToString (GenerateRandomToken r))) eqn:E; [by apply IH|]. intros [= <- <-].
  split_and!; [by rewrite GenerateRandomToken_length|done|done|done].
Qed.

Definition admin (c : ConnCtx) : Prop :=
  authenticated c = true /\ conn_ns c = kDefaultNamespace /\ requirepass <> [] /\ cluster_mode = false.

(** What a namespace command may do to the server. *)
Definition ns_done (ns : bytes) (c : ConnCtx) (s : Server) (a : NsState) (s' : Server) : Prop :=
  exists a', srv_inv s' a' /\ op_effect ns a a' /\ ns_data s' = ns_data s /\ dbs s' = dbs s /\ heap s' = heap s
    /\ reads_fine s' /\ rand_ok s' /\ (ns_table s' = ns_table s \/ admin c).

Lemma ns_done_refl ns c s a : srv_inv s a -> reads_fine s -> rand_ok s -> ns_done ns c s a s.
Proof using Type. intros. exists a. split_and!; auto using effect_refl. Qed.

Lemma ns_done_quiet {R : Type} (m : Tx R R) ns c s a :
  quiet m -> srv_inv s a -> reads_fine s -> rand_ok s -> admin c ->
  let '(s', r) := srv_tx m s in ns_done ns c s a s' /\ srv_inv s' a /\ reads_fine s' /\ rand_ok s'
    /\ ns_data s' = ns_data s /\ dbs s' = dbs s /\ heap s' = heap s.
Proof using Type.
  intros Hm Hs Hok Hr Hc. pose proof (srv_tx_quiet m s a Hm Hs Hok) as H.
  destruct (srv_tx m s) as [s' r]. destruct H as (Hs' & (Hd & Hb & Hra) & Hh & Hok').
  assert (rand_ok s') by (unfold rand_ok; by rewrite Hra).
  split_and!; try done. exists a. split_and!; auto using effect_refl.
Qed.

Lemma ns_done_op op c s a s1 rand :
  admin c -> srv_inv s1 a -> reads_fine s1 -> next_id a < 2 ^ 64 - 1 ->
  ns_data s1 = ns_data s -> dbs s1 = dbs s -> heap s1 = heap s ->
  Forall (fun r => length r = 16%nat) rand ->
  op_wf (op, hd [] (srv_ok s1)) -> op_named op ->
  ns_done (op_name op) c s a (manager_op op (set_rand rand s1)).1.
Proof using Type.
  intros Hc Hs Hok Hn Hd Hb Hh Hr Hw Hname.
  assert (srv_inv (set_rand rand s1) a) as Hs1 by (eapply inv_same_table; [exact Hs|done..]).
  pose proof (manager_op_ok op (set_rand rand s1) a Hs1 Hok Hn Hw Hname) as H.
  destruct (manager_op op _) as [s' r]. destruct H as (a' & Hs' & He & (Hd' & Hb' & Hra) & Hh' & Hok' & _).
  exists a'. cbn in *. split_and!; try congruence; auto. unfold rand_ok. by rewrite Hra.
Qed.

(** A namespace command keeps the invariant and concerns one namespace; it
    changes the namespaces only for an authenticated connection of the default
    namespace, with a password set and outside a cluster. *)
Lemma NamespaceCommand_ok op ns c s a :
  srv_inv s a -> reads_fine s -> rand_ok s -> next_id a < 2 ^ 64 - 1 ->
  ns_done ns c s a (NamespaceCommand_Execute requirepass cluster_mode scan op ns c s).1.
Proof using Type.
  intros Hs Hok Hrand Hn. unfold NamespaceCommand_Execute.
  assert (ns_done ns c s a s) as Hsame by (by apply ns_done_refl).
  case_bool_decide; [exact Hsame|]. destruct cluster_mode eqn:Ecl; [exact Hsame|].
  destruct (length requirepass =? 0)%nat eqn:Erp; [exact Hsame|].
  destruct (authenticated c) eqn:Eau; cbn [negb orb]; [|exact Hsame].
  case_bool_decide as Edef; cbn [negb]; [|exact Hsame].
  assert (admin c) as Hadm.
  { split_and!; [done..| |done]. intros E. by rewrite E in Erp. }
  clear Ecl. case_bool_decide.
  { case_bool_decide.
    - unfold manager_List. pose proof (ns_done_quiet (List_ scan) ns c s a quiet_List Hs Hok Hrand Hadm) as H'.
      destruct (srv_tx _ _). apply H'.
    - unfold manager_Get. pose proof (ns_done_quiet (GetToken ns) ns c s a (quiet_GetToken ns) Hs Hok Hrand Hadm) as H'.
      destruct (srv_tx _ _). apply H'. }
  case_bool_decide.
  { case_bool_decide as Ed; [exact Hsame|]. destruct (ns_name_bad ns) eqn:Eb; [exact Hsame|].
    assert (ns_name_ok ns) as Hname by (split; [done|intros ->; done]).
    destruct (draw_token _ _) as [[token rand]|] eqn:Edr; [|exact Hsame].
    apply draw_token_ok in Edr as (Hl & _ & _ & Hr'); [|done].
    pose proof (ns_done_op (OpAdd ns token) c s a s rand Hadm Hs Hok Hn eq_refl eq_refl eq_refl Hr' Hl Hname) as Hop.
    cbn [manager_op] in Hop. by destruct (manager_Add _ _ _ _). }
  case_bool_decide.
  { case_bool_decide as Ed; [exact Hsame|]. destruct (ns_name_bad ns) eqn:Eb; [exact Hsame|].
    assert (ns_name_ok ns) as Hname by (split; [done|intros ->; done]).
    unfold manager_Get. pose proof (ns_done_quiet (GetToken ns) ns c s a (quiet_GetToken ns) Hs Hok Hrand Hadm) as H'.
    destruct (srv_tx _ _) as [s1 t1]. destruct H' as (Hdone & Hs1 & Hok1 & Hr1 & Hd1 & Hb1 & Hh1).
    destruct (length (token_ToString t1) =? 0)%nat; [exact Hdone|].
    destruct (draw_token _ _) as [[token rand]|] eqn:Edr; [|exact Hdone].
    apply draw_token_ok in Edr as (Hl & _ & _ & Hr'); [|done].
    pose proof (ns_done_op (OpSet ns token) c s a s1 rand Hadm Hs1 Hok1 Hn Hd1 Hb1 Hh1 Hr' Hl Hname) as Hop.
    cbn [manager_op] in Hop. by destruct (manager_Set _ _ _ _). }
  case_bool_decide; [|exact Hsame]. case_bool_decide; [exact Hsame|].
  pose proof (ns_done_op (OpDel ns) c s a s (srv_rand s) Hadm Hs Hok Hn eq_refl eq_refl eq_refl Hrand
    (reads_fine_hd s Hok) I) as Hop.
  cbn [manager_op op_name] in Hop. replace (set_rand (srv_rand s) s) with s in Hop by (by destruct s).
  by destruct (manager_Del _ _).
Qed.

(** ** The other commands *)

Lemma AuthCommand_ok password c s a :
  srv_inv s a -> reads_fine s -> conn_ok (heap s) c ->
  let '(s', c', ok) := AuthCommand_Execute requirepass password c s in
  srv_inv s' a /\ conn_ok (heap s') c' /\ heap_grows (heap s) (heap s') /\ same_data s s' /\ reads_fine s'.
Proof using Type.
  intros Hs Hok Hc. unfold AuthCommand_Execute.
  assert (srv_inv s a /\ heap_grows (heap s) (heap s) /\ same_data s s /\ reads_fine s) as Hrefl by (by split_and!).
  assert (let '(s', r) := (if tok_valid (FromBase64Url password) then GetMetadataByToken requirepass (FromBase64Url password) s
    else (s, None)) in srv_inv s' a /\ heap_grows (heap s) (heap s') /\ same_data s s' /\ reads_fine s'
    /\ forall p, r = Some p -> token_metadata (cache s') !! tok_bytes (FromBase64Url password) = Some p) as Hg.
  { destruct (tok_valid _); [|by destruct Hrefl as (? & ? & ? & ?); split_and!].
    pose proof (GetMetadataByToken_ok (FromBase64Url password) s a Hs Hok) as H.
    destruct (GetMetadataByToken _ _ _). destruct H as (? & ? & ? & ? & _ & ?). by split_and!. }
  destruct (if tok_valid _ then _ else _) as [s' r]. destruct Hg as (Hs' & Hh & Hd & Hok' & Hr).
  assert (conn_ok (heap s') c) by (by eapply conn_ok_grows).
  destruct r as [p|]; cbn [mbind option_bind]; [|case_bool_decide; by split_and!].
  destruct (coh_token _ _ _ (si_coh _ _ Hs') _ _ (Hr p eq_refl)) as (m & id & Hm & _ & _ & _ & Hl & _). rewrite Hm.
  cbn [fmap option_fmap option_map]. split_and!; try done. exists m. split; [done|]. split; [done|].
  by eapply si_names.
Qed.

Lemma conn_bound_ok s a c : conn_bound s a c -> conn_ok (heap s) c.
Proof using Type.
  unfold conn_bound, conn_ok. destruct (conn_meta c); [|by intros []].
  intros (m & id & H1 & _ & H3 & _ & _ & _ & _ & H8). exists m. rewrite H3. by split_and!.
Qed.

Lemma in_namespace_ok c : ns_name_ok (conn_ns c) -> in_namespace c = true.
Proof using Type.
  intros [H1 H2]. unfold in_namespace. rewrite bool_decide_false by done. by destruct (conn_ns c).
Qed.

(** The flush of a namespace. *)
Lemma flush_effect a ns tok id :
  ns_inv a -> live a !! ns = Some (tok, id) -> op_effect ns a (spec_flush id a).
Proof using Type.
  intros Hi El. split.
  - intros ns' Hne. split; [done|]. intros tok' id' E'. rewrite epoch_of_flush. case_decide as Hd; [|done].
    subst id'. exfalso. apply Hne. by eapply inv_id.
  - intros id' ep [(ns' & tok' & E' & ->)|H].
    + destruct (decide (id' = id)) as [->|Hne].
      * right. cbn. by apply elem_of_union_l, elem_of_singleton.
      * left. exists ns', tok'. split; [done|]. by rewrite epoch_of_flush, decide_False.
    + right. cbn. by apply elem_of_union_r.
  - split; [cbn; lia|]. intros ns' tok' id' El' _. exists ns', tok'. split; [done|]. rewrite epoch_of_flush. case_decide; [subst; lia|lia].
  - split; [cbn; lia|]. intros id'. rewrite epoch_of_flush. case_decide; [subst; lia|lia].
Qed.

Lemma coherent_flush h k a p m id :
  coherent h k a -> ns_inv a -> h !! p = Some m -> token_metadata k !! tok_bytes (meta_token m) = Some p ->
  live a !! ns_name m = Some (tok_bytes (meta_token m), id) -> epoch_of a id < 2 ^ 64 - 1 ->
  meta_epoch m = epoch_of a id ->
  coherent (<[p := mkMeta (ns_name m) (encoded_id m) (meta_token m) (u64 (meta_epoch m + 1))]> h) k (spec_flush id a).
Proof using Type.
  intros [Ct Cn] Hi Hp Ht Hl Hlt He. pose proof (epoch_of_range a id Hi). set (m' := mkMeta _ _ _ _).
  assert (forall p' m0, h !! p' = Some m0 -> exists m1, <[p := m']> h !! p' = Some m1
    /\ ns_name m1 = ns_name m0 /\ encoded_id m1 = encoded_id m0 /\ meta_token m1 = meta_token m0
    /\ meta_epoch m1 = if decide (p' = p) then meta_epoch m0 + 1 else meta_epoch m0) as Hh.
  { intros p' m0 E. destruct (decide (p' = p)) as [->|Hne].
    - rewrite list_lookup_insert_eq by (by eapply lookup_lt_Some). rewrite Hp in E. injection E as <-.
      exists m'. split_and!; try done. cbn. unfold u64. rewrite Z.mod_small; lia.
    - rewrite list_lookup_insert_ne by done. exists m0. by split_and!. }
  constructor.
  - intros tok p' E. destruct (Ct tok p' E) as (m0 & id0 & H1 & H2 & H3 & H4 & H5 & H6 & H7).
    destruct (Hh p' m0 H1) as (m1 & G1 & G2 & G3 & G4 & G5). exists m1, id0. rewrite G2, G3, G4.
    split_and!; try done. rewrite G5, epoch_of_flush. destruct (decide (p' = p)) as [->|Hne].
    + rewrite Hp in H1. injection H1 as <-. rewrite H2 in Hl. assert (id0 = id) as -> by congruence.
      rewrite decide_True by done. lia.
    + rewrite decide_False; [done|]. intros ->. apply Hne.
      assert (ns_name m0 = ns_name m) as En by (by eapply inv_id). rewrite En, Hl in H5. congruence.
  - intros ns p' E. destruct (Cn ns p' E) as (m0 & H1 & H2 & H3). destruct (Hh p' m0 H1) as (m1 & G1 & G2 & G3 & G4 & G5).
    exists m1. rewrite G2, G4. by split_and!.
Qed.

(** A flushed namespace is empty: no data has its new prefix yet. *)
Lemma flushed_empty s a s' ns tok id key :
  srv_inv s a -> live a !! ns = Some (tok, id) -> epoch_of a id < 2 ^ 64 - 1 -> ns_data s' = ns_data s ->
  tenant_get (spec_flush id a) s' ns key = None.
Proof using Type.
  intros Hs Hl Hlt Hd. unfold tenant_get. cbn [live spec_flush]. rewrite Hl. cbn [mbind option_bind snd].
  rewrite epoch_of_flush, decide_True, Hd by done. pose proof (si_inv _ _ Hs) as Hi.
  pose proof (epoch_of_range a id Hi). assert (is_u64 id) by (by eapply live_u64).
  apply eq_None_not_Some. intros Hk. destruct (si_data _ _ Hs _ Hk) as (id' & ep & key' & H1 & H2 & E & _ & Hc).
  apply MakePrefix_inj in E as (E & <- & _); [|by apply b255e_ns_id|unfold is_u64; lia|by apply b255e_ns_id|done].
  apply b255e_inj in E as <-; [|done..]. specialize (Hc _ _ Hl). lia.
Qed.

Lemma FlushDB_ok c s a :
  srv_inv s a -> reads_fine s -> conn_bound s a c -> (forall id, epoch_of a id < 2 ^ 64 - 1) ->
  let '(s', error) := ExecuteFlushDBCommand c s in
  exists a', srv_inv s' a' /\ heap_grows (heap s) (heap s') /\ reads_fine s' /\ srv_rand s' = srv_rand s
    /\ same_view (conn_ns c) a s a' s' /\ grown a a' /\ live a' = live a /\ (data_inv a (ns_data s) -> data_inv a' (ns_data s'))
    /\ (conn_meta c <> None -> dbs s' = dbs s)
    /\ (conn_meta c <> None -> error = None -> forall key, tenant_get a' s' (conn_ns c) key = None).
Proof using Type.
  intros Hs Hok Hb Hlt. unfold ExecuteFlushDBCommand, conn_bound in *. destruct (conn_meta c) as [p|]; cbn [mbind option_bind].
  - destruct Hb as (m & id & Hp & Ht & Hn & Hl & He & Hep & Hid & Hname). rewrite Hp.
    cbn [fmap option_fmap option_map]. rewrite in_namespace_ok by done. rewrite srv_tx_eq, He, Hep.
    pose proof (FlushDB_run (ns_table s) a (conn_ns c) _ id (hd [] (srv_ok s)) (si_repr _ _ Hs) (si_inv _ _ Hs) Hl (Hlt id)) as Hf.
    cbn zeta in Hf. set (run := tx_run _ _) in *. assert (Forall reads_ok (tail (srv_ok s))) by (by apply Forall_tl).
    pose proof (flush_effect a (conn_ns c) _ id (si_inv _ _ Hs) Hl) as Hfe.
    destruct Hf as [[E Hr]|([msg E] & Et & _)]; rewrite E.
    + exists (spec_flush id a). split_and!; try done.
      * constructor; cbn [ns_table ns_data heap cache set_heap]; [done| | | |apply Hs].
        -- eapply spec_flush_inv; [apply Hs|exact Hl|done].
        -- eapply data_ok_kept; [apply Hfe|apply Hs].
        -- rewrite <- Hep, <- He. apply coherent_flush; try done; [apply Hs..|by rewrite Hn].
      * intros p' m0 E0. destruct (decide (p' = p)) as [->|Hne].
        -- cbn [heap set_heap]. rewrite list_lookup_insert_eq by (by eapply lookup_lt_Some). eexists. split; [done|].
           cbn. congruence.
        -- cbn [heap set_heap]. rewrite list_lookup_insert_ne by done. eauto.
      * apply same_but_view; [apply Hfe|done].
      * apply Hfe.
      * apply data_inv_kept, Hfe.
      * intros _ _ key. by eapply flushed_empty.
    + exists a. split_and!; try done; [|apply grown_refl]. eapply inv_same_table; [exact Hs|done..].
  - unfold truncate. destruct (_ && _).
    + exists a. split_and!; try done; [eapply inv_same_table; [exact Hs|done..]|by apply Forall_tl|apply grown_refl].
    + exists a. split_and!; try done; [eapply inv_same_table; [exact Hs|done..]|by apply Forall_tl|apply grown_refl].
Qed.

(** An object command writes under the prefix of its connection. *)
Lemma object_write_ok c key v s a :
  srv_inv s a -> conn_bound s a c ->
  let s' := object_write c key v s in
  srv_inv s' a /\ heap s' = heap s /\ srv_ok s' = srv_ok s /\ srv_rand s' = srv_rand s
  /\ same_view (conn_ns c) a s a s' /\ (conn_meta c <> None -> dbs s' = dbs s)
  /\ (data_inv a (ns_data s) -> data_inv a (ns_data s')).
Proof using Type.
  intros Hs Hb. cbn zeta. unfold object_write, conn_bound in *. destruct (conn_meta c) as [p|].
  - destruct Hb as (m & id & Hp & Ht & Hn & Hl & He & Hep & -> & Hname). rewrite MakePrefix_not_default.
    unfold ComposeNamespaceKey. rewrite MakePrefix_not_default. pose proof (si_inv _ _ Hs) as Hi.
    assert (current a id (epoch_of a id)) as Hcur by (by exists (conn_ns c), (tok_bytes (meta_token m))).
    destruct (current_u64 a id _ Hi Hcur).
    split_and!; try done.
    + constructor; try apply Hs. intros k Hk. destruct (decide (k = MakePrefix (b255e id) (epoch_of a id) ++ key)) as [->|Hne].
      * exists id, (epoch_of a id), key. do 3 (split; [done|]). split; [by eapply (inv_range _ Hi)|]. intros ns' tok' _. lia.
      * apply (si_data _ _ Hs). cbn [ns_data set_data] in Hk. by rewrite lookup_partial_alter_ne in Hk by done.
    + intros ns' key' Hne. unfold tenant_get. destruct (live a !! ns') as [[tok' id']|] eqn:El; [|done].
      cbn [mbind option_bind snd ns_data set_data]. rewrite lookup_partial_alter_ne; [done|]. intros E.
      assert (current a id' (epoch_of a id')) as Hcur' by (by exists ns', tok').
      destruct (current_u64 a id' _ Hi Hcur').
      apply MakePrefix_inj in E as (E & _ & _); [|by apply b255e_ns_id|done|by apply b255e_ns_id|done].
      apply b255e_inj in E as <-; [|done..]. apply Hne. by eapply inv_id.
    + intros Hd k Hk. destruct (decide (k = MakePrefix (b255e id) (epoch_of a id) ++ key)) as [->|Hne].
      * exists id, (epoch_of a id), key. do 3 (split; [done|]). by left.
      * apply Hd. cbn [ns_data set_data] in Hk. by rewrite lookup_partial_alter_ne in Hk by done.
  - destruct Hb as [_ ->]. cbn [no_namespace length Nat.eqb orb]. split_and!; try done.
    eapply inv_same_table; [exact Hs|done..].
Qed.

(** The namespace a command of a checked connection concerns. *)
Definition touched (cmd : Command) (c : ConnCtx) : bytes :=
  match cmd with CmdNamespace _ ns => ns | _ => conn_ns c end.

Record dispatched (cmd : Command) (c1 : ConnCtx) (s : Server) (a : NsState) (s' : Server) (c' : ConnCtx) (a' : NsState) : Prop := {
  di_inv : srv_inv s' a';
  di_conn : conn_ok (heap s') c';
  di_heap : heap_grows (heap s) (heap s');
  di_reads : reads_fine s';
  di_rand : rand_ok s';
  di_grown : grown a a';
  di_view : same_view (touched cmd c1) a s a' s';
  di_dbs : conn_meta c1 <> None -> dbs s' = dbs s;
  di_marked : data_inv a (ns_data s) -> data_inv a' (ns_data s')
}.

Lemma dispatched_same cmd c1 s a s' c' :
  srv_inv s' a -> conn_ok (heap s') c' -> heap_grows (heap s) (heap s') -> reads_fine s' -> rand_ok s ->
  ns_data s' = ns_data s -> dbs s' = dbs s \/ conn_meta c1 = None -> srv_rand s' = srv_rand s ->
  dispatched cmd c1 s a s' c' a.
Proof using Type.
  intros. constructor; auto; [by unfold rand_ok in *; congruence|apply grown_refl| |intros ?; by destruct H5|by rewrite H4].
  apply same_but_view; [by intros ns'|done].
Qed.

Lemma DispatchCommand_ok cmd c s a :
  srv_inv s a -> conn_ok (heap s) c -> reads_fine s -> rand_ok s ->
  next_id a < 2 ^ 64 - 1 -> (forall id, epoch_of a id < 2 ^ 64 - 1) ->
  let c1 := (RefreshBinding requirepass c s).2 in
  let '(s', c', r) := DispatchCommand requirepass databases cluster_mode scan cmd c s in
  exists a', dispatched cmd c1 s a s' c' a'.
Proof using Type.
  intros Hs Hc Hok Hrand Hn Hep. cbn zeta. unfold DispatchCommand.
  pose proof (RefreshBinding_ok c s a Hs Hc Hok) as Hrb.
  destruct (RefreshBinding requirepass c s) as [s1 c1]. cbn [snd].
  destruct Hrb as (Hs1 & Hh1 & (Hd1 & Hb1 & Hra1) & Hok1 & Hcb & _).
  pose proof (conn_bound_ok _ _ _ Hcb) as Hc1.
  assert (rand_ok s1) as Hrand1 by (unfold rand_ok; by rewrite Hra1).
  destruct (AuthRequired requirepass c1 _).
  { exists a. apply dispatched_same; auto. }
  destruct cmd as [username password|op ns|db| | |words key effect].
  - pose proof (AuthCommand_ok password c1 s1 a Hs1 Hok1 Hc1) as H. destruct (AuthCommand_Execute _ _ _ _) as [[s2 c2] ok].
    destruct H as (Hs2 & Hc2 & Hh2 & (Hd2 & Hb2 & Hra2) & Hok2).
    exists a. apply dispatched_same; auto; [by etrans|congruence|left; congruence|congruence].
  - pose proof (NamespaceCommand_ok op ns c1 s1 a Hs1 Hok1 Hrand1 Hn) as H.
    destruct (NamespaceCommand_Execute _ _ _ _ _ _ _) as [s2 r]. cbn [fst] in H.
    destruct H as (a' & Hs2 & He & Hd2 & Hb2 & Hh2 & Hok2 & Hra2 & _). exists a'.
    constructor; auto; [by rewrite Hh2..|apply He|apply same_but_view; [apply He|congruence]|congruence|].
    rewrite Hd2, Hd1. apply data_inv_kept, He.
  - destruct (SelectCommand_Execute databases db c1) as [c2 error] eqn:E. exists a. apply dispatched_same; auto.
    unfold SelectCommand_Execute in E. by repeat case_match; simplify_eq.
  - pose proof (FlushDB_ok c1 s1 a Hs1 Hok1 Hcb Hep) as H. destruct (ExecuteFlushDBCommand c1 s1) as [s2 error].
    destruct H as (a' & Hs2 & Hh2 & Hok2 & Hra2 & Hv2 & Hg2 & _ & Hm2 & Hb2 & _). exists a'.
    constructor; auto; [by eapply conn_ok_grows|by etrans|by unfold rand_ok in *; congruence| |intros ?; rewrite Hb2; auto|by rewrite <- Hd1].
    intros ns' k Hne. rewrite Hv2 by done. unfold tenant_get. by rewrite Hd1.
  - destruct (in_namespace c1) eqn:Ein.
    + pose proof (FlushDB_ok c1 s1 a Hs1 Hok1 Hcb Hep) as H. destruct (ExecuteFlushDBCommand c1 s1) as [s2 error].
      destruct H as (a' & Hs2 & Hh2 & Hok2 & Hra2 & Hv2 & Hg2 & _ & Hm2 & Hb2 & _). exists a'.
      constructor; auto; [by eapply conn_ok_grows|by etrans|by unfold rand_ok in *; congruence| |intros ?; rewrite Hb2; auto|by rewrite <- Hd1].
      intros ns' k Hne. rewrite Hv2 by done. unfold tenant_get. by rewrite Hd1.
    + assert (conn_meta c1 = None) as Hnone.
      { unfold conn_bound in Hcb. destruct (conn_meta c1); [|done]. destruct Hcb as (? & ? & _ & _ & _ & _ & _ & _ & _ & Hno).
        by rewrite in_namespace_ok in Ein. }
      unfold flushall_default. destruct (flushall_loop _ _ _) as [succeed ends]. exists a.
      apply dispatched_same; auto; [eapply inv_same_table; [exact Hs1|done..]|by apply Forall_tl].
  - pose proof (object_write_ok c1 key (effect (object_read c1 key s1)) s1 a Hs1 Hcb) as H.
    cbn zeta in H. set (s2 := object_write _ _ _ _) in *. destruct H as (Hs2 & Hh2 & Hok2 & Hra2 & Hv2 & Hb2 & Hm2).
    exists a. constructor; auto; [by rewrite Hh2..|by unfold reads_fine in *; congruence|by unfold rand_ok in *; congruence|apply grown_refl|
      |intros ?; rewrite Hb2; auto|by rewrite <- Hd1].
    intros ns' k Hne. rewrite Hv2 by done. unfold tenant_get. by rewrite Hd1.
Qed.

(** ** Histories of the server *)

(** A client connects; a connection sends a command, with the outcomes of its
    transactions and its random bytes; the collector makes a pass. *)
Inductive Event :=
| EvConnect
| EvCommand (i : nat) (cmd : Command) (ok : list (list bool)) (rand : list bytes)
| EvGc (ok : list (list bool)) (running : list bool).

Record World := mkWorld { w_srv : Server; w_conns : list ConnCtx }.

Definition gc_fuel (d : Table) (ok : list (list bool)) : nat := S (size d + sum_list (nfalse <$> ok)).

Definition world_step (ev : Event) (w : World) : World * option Reply :=
  let s := w_srv w in
  match ev with
  | EvConnect => (mkWorld s (w_conns w ++ [new_conn]), None)
  | EvCommand i cmd ok rand =>
      match w_conns w !! i with
      | None => (w, None)
      | Some c =>
          let '(s', c', r) := DispatchCommand requirepass databases cluster_mode scan cmd c
            (mkServer (ns_table s) (ns_data s) (dbs s) (heap s) (cache s) ok rand) in
          (mkWorld s' (<[i := c']> (w_conns w)), Some r)
      end
  | EvGc ok running =>
      match gc_pass scan (gc_fuel (ns_data s) ok) (mkGc (ns_table s) (ns_data s) ok running) with
      | Some g => (mkWorld (mkServer (gc_table g) (gc_data g) (dbs s) (heap s) (cache s) (srv_ok s) (srv_rand s)) (w_conns w), None)
      | None => (w, None)
      end
  end.

Fixpoint world_run (evs : list Event) (w : World) : World * list (option Reply) :=
  match evs with
  | [] => (w, [])
  | ev :: evs' =>
      let '(w1, r) := world_step ev w in
      let '(w2, rs) := world_run evs' w1 in (w2, r :: rs)
  end.

Definition empty_world : World := mkWorld (mkServer ∅ ∅ ∅ [] (mkCache ∅ ∅) [] []) [].

Definition event_ok (ev : Event) : Prop :=
  match ev with
  | EvCommand _ _ ok rand => Forall reads_ok ok /\ Forall (fun r => length r = 16%nat) rand
  | _ => True
  end.

Definition is_gc (ev : Event) : Prop := match ev with EvGc _ _ => True | _ => False end.

(** The invariant of the world after [n] events; [quiet]: the collector has not
    run. *)
Definition world_inv (quiet : Prop) (n : Z) (w : World) : Prop :=
  exists a, srv_inv (w_srv w) a /\ Forall (conn_ok (heap (w_srv w))) (w_conns w)
    /\ next_id a <= 1 + n /\ (forall id, epoch_of a id <= 1 + n) /\ (quiet -> data_inv a (ns_data (w_srv w))).

Lemma empty_world_inv : world_inv True 0 empty_world.
Proof using Type.
  exists ns_empty. split_and!; [|done|done| |intros _ k [v Hk]; cbn in Hk; by rewrite lookup_empty in Hk].
  - constructor; cbn; [apply ns_empty_repr|apply ns_empty_inv| | |done].
    + intros k [v Hk]. by rewrite lookup_empty in Hk.
    + constructor; cbn [token_metadata ns_metadata]; intros x p; by rewrite lookup_empty.
  - intros id. unfold epoch_of, ns_empty. cbn [epochs]. by rewrite lookup_empty.
Qed.

Lemma gc_fuel_enough t d ok running : fuel_enough (gc_fuel d ok) (mkGc t d ok running).
Proof using Type.
  unfold fuel_enough, gc_fuel. cbn [gc_data gc_ok]. constructor; [cbn; lia|].
  apply list.Forall_forall. intros o Ho. apply (list_elem_of_fmap_2 nfalse) in Ho.
  induction Ho; cbn [sum_list sum_list_with foldr] in *; cbn; lia.
Qed.

Lemma data_ok_sub (a a' : NsState) (d d' : Table) :
  live a' = live a -> epochs a' = epochs a -> next_id a' = next_id a -> d' ⊆ d -> data_ok a d -> data_ok a' d'.
Proof using Type.
  intros E1 E2 E3 Hsub Hd k [v Hk]. destruct (Hd k) as (id & ep & key & H); [eexists; by eapply lookup_weaken|].
  exists id, ep, key. unfold epoch_of. by rewrite E1, E2, E3.
Qed.

Lemma world_step_ok {Hscan : ScanLaws scan} quiet ev n w :
  world_inv quiet n w -> event_ok ev -> 0 <= n < 2 ^ 64 - 3 -> world_inv (quiet /\ ~ is_gc ev) (n + 1) (world_step ev w).1.
Proof using Type.
  intros (a & Hs & Hc & Hn & He & Hq) Hev Hlt. destruct ev as [|i cmd ok rand|ok running]; cbn [world_step].
  - exists a. cbn [fst w_srv w_conns]. split_and!; [done| |lia| |by intros [? _]; apply Hq].
    + apply Forall_app. split; [done|]. by apply Forall_singleton.
    + intros id. specialize (He id). lia.
  - destruct (w_conns w !! i) as [c|] eqn:Ei; cbn [fst].
    2: { exists a. split_and!; [done..|lia| |by intros [? _]; apply Hq]. intros id. specialize (He id). lia. }
    destruct Hev as [Hok Hrand]. set (s := mkServer _ _ _ _ _ _ _).
    assert (srv_inv s a) as Hs1 by (eapply inv_same_table; [exact Hs|done..]).
    assert (conn_ok (heap s) c) as Hci by (rewrite list.Forall_forall in Hc; apply Hc; by eapply list_elem_of_lookup_2).
    pose proof (DispatchCommand_ok cmd c s a Hs1 Hci Hok Hrand ltac:(lia)
      ltac:(intros id; specialize (He id); lia)) as H.
    cbn zeta in H. destruct (DispatchCommand _ _ _ _ _ _ _) as [[s' c'] r]. destruct H as (a' & [D1 D2 D3 _ _ [D4 D5] _ _ D9]).
    exists a'. cbn [fst w_srv w_conns]. split_and!; [done| |lia| |by intros [? _]; apply D9, Hq].
    + apply Forall_insert; [|done]. eapply Forall_impl; [|exact Hc]. intros c0. by apply conn_ok_grows.
    + intros id. specialize (D5 id). specialize (He id). lia.
  - set (s := w_srv w) in *. set (g := mkGc _ _ _ _).
    assert (gc_good a g) as Hg by (split; apply Hs).
    destruct (gc_pass_run scan (gc_fuel (ns_data s) ok) g a Hg (gc_fuel_enough _ _ _ _)) as (marks & g' & a' & -> & K & _).
    pose proof (kept_sub _ _ _ _ _ _ K) as Hsub.
    destruct K as [(K1 & K2) (M1 & M2 & M3 & _) _ _ _ _]. exists a'. cbn [fst w_srv w_conns].
    assert (forall id, epoch_of a' id = epoch_of a id) as Hee by (intros id; unfold epoch_of; by rewrite M2).
    split_and!; [|done|lia|intros id; rewrite Hee; specialize (He id); lia|by intros [_ []]].
    constructor; cbn [ns_table ns_data heap cache]; try done; [| |intros ns x; rewrite M1; apply Hs].
    { eapply (data_ok_sub a); [done|done|done|exact Hsub|apply Hs]. }
    destruct (si_coh _ _ Hs) as [Ct Cn]. constructor; [|done]. intros tok p E.
    destruct (Ct tok p E) as (m & id & H1 & H2 & H3 & H4 & H5 & H6 & H7). exists m, id. rewrite M1, Hee. by split_and!.
Qed.

Lemma world_run_ok {Hscan : ScanLaws scan} evs : forall n w,
  forall quiet : Prop, world_inv quiet n w -> Forall event_ok evs -> 0 <= n -> n + zlen evs < 2 ^ 64 - 2 ->
  world_inv (quiet /\ Forall (fun ev => ~ is_gc ev) evs) (n + zlen evs) (world_run evs w).1.
Proof using Type.
  induction evs as [|ev evs IH]; intros n w quiet Hw Hev Hn Hlt; cbn [world_run fst].
  - rewrite Z.add_0_r. destruct Hw as (a & H1 & H2 & H3 & H4 & H5). exists a. split_and!; try done. intros [? _]. by apply H5.
  - inversion_clear Hev. rewrite zlen_cons in *. pose proof (zlen_nonneg evs).
    pose proof (world_step_ok quiet ev n w Hw ltac:(done) ltac:(lia)) as Hw1.
    destruct (world_step ev w) as [w1 r]. specialize (IH (n + 1) w1 _ Hw1 ltac:(done) ltac:(lia) ltac:(lia)).
    destruct (world_run evs w1) as [w2 rs]. cbn [fst] in *. replace (n + (1 + zlen evs)) with (n + 1 + zlen evs) by lia.
    destruct IH as (a & I1 & I2 & I3 & I4 & I5). exists a. split_and!; try done. intros [? Hq]. inversion_clear Hq. by apply I5.
Qed.

End Operations.

(** ** AUTH and the tokens *)

Lemma token_text_valid password :
  tok_valid (FromBase64Url password) = true ->
  length (tok_bytes (FromBase64Url password)) = 16%nat
  /\ password = Base64UrlEncode (tok_bytes (FromBase64Url password)).
Proof.
  unfold FromBase64Url. destruct (length password =? 22)%nat; [|done].
  destruct (Base64UrlDecode password (replicate 16 Init.Byte.x00)) as [ok dst] eqn:E. cbn. intros ->.
  by apply Base64UrlDecode_iff in E as [Hl ->].
Qed.

Lemma FromBase64Url_text tok : length tok = 16%nat -> FromBase64Url (Base64UrlEncode tok) = mkToken tok true.
Proof.
  intros Hl. unfold FromBase64Url. pose proof (zlen_Base64UrlEncode 16 tok ltac:(lia)) as H.
  unfold zlen in H. rewrite Hl in H. change ((Z.of_nat 16 * 4 + 2) / 3) with 22 in H.
  rewrite (proj2 (Nat.eqb_eq _ 22%nat)) by lia.
  assert (Base64UrlDecode (Base64UrlEncode tok) (replicate 16 Init.Byte.x00) = (true, tok)) as ->; [|done].
  apply Base64UrlDecode_iff. split; [|done]. by rewrite length_replicate.
Qed.

(** A token of a live namespace is found in the cache or in the storage. *)
Lemma GetMetadataByToken_live requirepass token s a ns id :
  srv_inv s a -> Forall (fun ok => false ∉ ok) (srv_ok s) ->
  tok_valid token = true -> is_requirepass requirepass token = false ->
  live a !! ns = Some (tok_bytes token, id) -> is_Some (GetMetadataByToken requirepass token s).2.
Proof.
  intros Hs Hnf Hv Hp Hl. unfold GetMetadataByToken.
  destruct (token_metadata (cache s) !! tok_bytes token); [by eexists|].
  rewrite srv_tx_eq. pose proof (ByToken_live requirepass (ns_table s) (ns_table s) a (hd [] (srv_ok s)) token ns id
    (si_repr _ _ Hs) (si_inv _ _ Hs)) as Hb. rewrite Hb; [|apply Forall_hd_nil; [apply not_elem_of_nil|done]|done..].
  destruct (si_names _ _ Hs _ _ Hl) as [_ Hne]. destruct ns as [|b ns0]; [done|]. cbn [length Nat.eqb].
  destruct (publish _ _ _ _ _). by eexists.
Qed.

(** What a token resolves to, whatever requests fail: the namespace it is bound
    to, with its current epoch or, when that could not be read, with epoch 1. *)
Definition resolved (a : NsState) (ok : list bool) (tok : bytes) (m : NamespaceMetadata) : Prop :=
  exists id, live a !! ns_name m = Some (tok, id) /\ encoded_id m = b255e id
  /\ (meta_epoch m = epoch_of a id \/ (meta_epoch m = 1 /\ nth 3 ok true = false)).

Lemma GetMetadataByToken_any requirepass token s a :
  srv_inv s a ->
  let '(s', r) := GetMetadataByToken requirepass token s in
  forall p, r = Some p -> exists m, heap s' !! p = Some m /\ resolved a (hd [] (srv_ok s)) (tok_bytes token) m.
Proof.
  intros Hs. unfold GetMetadataByToken. destruct (token_metadata (cache s) !! tok_bytes token) as [p|] eqn:Et.
  { intros ? [= <-]. destruct (coh_token _ _ _ (si_coh _ _ Hs) _ _ Et) as (m & id & H1 & H2 & H3 & H4 & H5 & H6 & H7).
    exists m. split; [done|]. exists id. auto. }
  rewrite srv_tx_eq. pose proof (ByToken_any requirepass _ (ns_table s) a (hd [] (srv_ok s)) token
    (si_repr _ _ Hs) (si_inv _ _ Hs)) as Hb. cbn zeta in Hb. destruct Hb as [_ [(ns & id & Hl & Hv & ->)| ->]]; [|done].
  destruct (si_names _ _ Hs _ _ Hl) as [_ Hne]. destruct (nth 2 (hd [] (srv_ok s)) true); [|done].
  destruct ns as [|b ns0] eqn:En; [done|]. rewrite <- En in *. replace (length ns =? 0)%nat with false by (by rewrite En).
  unfold publish. cbn [cache]. rewrite Et. cbn [heap set_cache set_heap cache]. intros p [= <-].
  rewrite lookup_app_r, Nat.sub_diag by lia. eexists. split; [done|]. exists id. cbn.
  split_and!; [done..|]. destruct (nth 3 (hd [] (srv_ok s)) true); auto.
Qed.

(** A token that is bound to no namespace any more is not found. *)
Lemma GetMetadataByToken_gone requirepass token s a :
  srv_inv s a -> (forall ns id, live a !! ns <> Some (tok_bytes token, id)) ->
  exists s', GetMetadataByToken requirepass token s = (s', None) /\ srv_ok s' = tail (srv_ok s).
Proof.
  intros Hs Hgone. unfold GetMetadataByToken. destruct (token_metadata (cache s) !! tok_bytes token) as [p|] eqn:Et.
  { destruct (coh_token _ _ _ (si_coh _ _ Hs) _ _ Et) as (m & id & _ & _ & _ & _ & H5 & _). by apply Hgone in H5. }
  rewrite srv_tx_eq. pose proof (ByToken_any requirepass _ (ns_table s) a (hd [] (srv_ok s)) token
    (si_repr _ _ Hs) (si_inv _ _ Hs)) as Hb. cbn zeta in Hb. destruct Hb as [_ [(ns & id & Hl & _)| ->]]; [by apply Hgone in Hl|].
  by eexists.
Qed.

(** ** Properties *)

Section Properties.

Context (requirepass : bytes) (databases : Z) (cluster_mode : bool).
Context (scan : Scan) {Hscan : ScanLaws scan}.

(** C3: Let clients connect and send commands, each of which runs alone, let
    engine requests fail, other than the third and the fourth of a transaction
    (the reads whose failure [ByToken] and [Del] take for an absent record), and
    let the collector make passes in which finitely many requests fail; there are
    fewer than 2^64 - 2 such events, and the tokens drawn have 16 bytes.  Then the
    namespace table represents a consistent state, the cache agrees with it, the
    prefix of every key of the tenants' table has been handed out and is none that
    a live namespace will get by a flush, and every connection holds the metadata
    of a namespace of its name or is in the default one.  Until the collector runs
    every key has the current prefix of a live namespace or a prefix with a
    marker. *)
Theorem server_invariant (evs : list Event) :
  Forall event_ok evs -> zlen evs < 2 ^ 64 - 2 ->
  let w := (world_run requirepass databases cluster_mode scan evs empty_world).1 in
  exists a, ns_repr (ns_table (w_srv w)) a /\ ns_inv a /\ data_ok a (ns_data (w_srv w))
    /\ coherent (heap (w_srv w)) (cache (w_srv w)) a /\ Forall (conn_ok (heap (w_srv w))) (w_conns w)
    /\ (Forall (fun ev => ~ is_gc ev) evs -> data_inv a (ns_data (w_srv w))).
Proof using Type*.
  intros Hev Hlt w. pose proof (world_run_ok requirepass databases cluster_mode scan evs 0 empty_world True
    empty_world_inv Hev ltac:(lia) ltac:(lia)) as (a & [H1 H2 H3 H4 _] & Hc & _ & _ & Hq).
  exists a. split_and!; try done. intros H. by apply Hq.
Qed.

(** C2: A command of one connection leaves the data of every other tenant as
    it was: the same namespaces see the same values under the same keys, and
    when the connection is bound to a namespace the databases of the default
    namespace are untouched too.  For NAMESPACE the one namespace concerned is
    the one it names.  Data that is all accounted for by live namespaces and
    markers stays so. *)
Theorem tenant_isolation (cmd : Command) (c : ConnCtx) (s : Server) (a : NsState) :
  srv_inv s a -> conn_ok (heap s) c -> reads_fine s -> rand_ok s ->
  next_id a < 2 ^ 64 - 1 -> (forall id, epoch_of a id < 2 ^ 64 - 1) ->
  let c1 := (RefreshBinding requirepass c s).2 in
  let '(s', c', r) := DispatchCommand requirepass databases cluster_mode scan cmd c s in
  exists a', srv_inv s' a'
    /\ (forall ns key, ns <> (match cmd with CmdNamespace _ ns' => ns' | _ => conn_ns c1 end) ->
          tenant_get a' s' ns key = tenant_get a s ns key)
    /\ (conn_meta c1 <> None -> dbs s' = dbs s)
    /\ (data_inv a (ns_data s) -> data_inv a' (ns_data s')).
Proof using Type.
  intros Hs Hc Hok Hr Hn He. pose proof (DispatchCommand_ok requirepass databases cluster_mode scan cmd c s a Hs Hc Hok Hr Hn He) as H.
  cbn zeta in *. destruct (DispatchCommand _ _ _ _ _ _ _) as [[s' c'] r]. destruct H as (a' & [D1 _ _ _ _ _ D7 D8 D9]).
  exists a'. split_and!; [done| |done|done]. intros ns key Hne. by apply D7.
Qed.

(** C33: After a flush that reports success on a connection bound to a
    namespace, the namespace is empty; every other tenant sees what it saw, and
    if all data was accounted for by live namespaces and markers, the old data of
    this one included is again. *)
Theorem flush_empties_namespace (c : ConnCtx) (s : Server) (a : NsState) :
  srv_inv s a -> reads_fine s -> conn_bound s a c -> conn_meta c <> None ->
  (forall id, epoch_of a id < 2 ^ 64 - 1) ->
  let '(s', error) := ExecuteFlushDBCommand c s in
  exists a', srv_inv s' a' /\ live a' = live a
    /\ (error = None -> forall key, tenant_get a' s' (conn_ns c) key = None)
    /\ (forall ns key, ns <> conn_ns c -> tenant_get a' s' ns key = tenant_get a s ns key)
    /\ (data_inv a (ns_data s) -> data_inv a' (ns_data s')).
Proof using Type.
  intros Hs Hok Hb Hm He. pose proof (FlushDB_ok c s a Hs Hok Hb He) as H.
  destruct (ExecuteFlushDBCommand c s) as [s' error]. destruct H as (a' & H1 & _ & _ & _ & H5 & _ & H7 & H8 & _ & H9).
  exists a'. split_and!; auto.
Qed.

(** C34: Let the cache agree with the table, as it does while commands run one
    after the other ([server_invariant]).  AUTH then accepts only the server's
    password and the texts of the tokens of live namespaces.  For a token it binds
    the connection to the namespace, with its current epoch or, if the read of the
    epoch fails, with epoch 1.  A refused AUTH leaves the connection as it was; it
    was not the server's password, and if no request has failed not the token of a
    live namespace either. *)
Theorem auth_correct (password : bytes) (c : ConnCtx) (s : Server) (a : NsState) :
  srv_inv s a ->
  let '(s', c', ok) := AuthCommand_Execute requirepass password c s in
  (ok = true -> authenticated c' = true
     /\ ((password = requirepass /\ conn_ns c' = kDefaultNamespace /\ conn_ns_id c' = [])
         \/ exists tok id ep, live a !! conn_ns c' = Some (tok, id) /\ password = Base64UrlEncode tok
              /\ conn_ns_id c' = MakePrefix (b255e id) ep
              /\ (ep = epoch_of a id \/ (ep = 1 /\ nth 3 (hd [] (srv_ok s)) true = false))))
  /\ (ok = false -> c' = c /\ password <> requirepass
      /\ (Forall (fun o => false ∉ o) (srv_ok s) ->
          forall ns tok id, live a !! ns = Some (tok, id) -> password <> Base64UrlEncode tok)).
Proof using Type.
  intros Hs. unfold AuthCommand_Execute.
  destruct (tok_valid (FromBase64Url password)) eqn:Ev.
  - destruct (token_text_valid password Ev) as [Hl Hpw]. set (token := FromBase64Url password) in *.
    pose proof (GetMetadataByToken_any requirepass token s a Hs) as Hg.
    pose proof (GetMetadataByToken_live requirepass token s a) as Hlive.
    destruct (GetMetadataByToken requirepass token s) as [s' [p|]].
    + cbn [mbind option_bind]. destruct (Hg p eq_refl) as (m & H1 & id & H5 & H6 & H7).
      rewrite H1. cbn [fmap option_fmap option_map]. split; [|done]. intros _. split; [done|]. right.
      exists (tok_bytes token), id, (meta_epoch m). cbn [conn_ns conn_ns_id]. rewrite H6. by split_and!.
    + cbn [mbind option_bind]. case_bool_decide as Ep; [by split; [intros _; split; [done|by left]|]|].
      split; [done|]. intros _. split_and!; [done..|]. intros Hnf ns tok id El E.
      destruct (inv_range _ (si_inv _ _ Hs) _ _ _ El) as [_ Hlt].
      assert (token = mkToken tok true) as Et by (unfold token; by rewrite E, FromBase64Url_text).
      destruct (Hlive ns id Hs Hnf) as [p Hp]; [by rewrite Et| |by rewrite Et|done].
      unfold is_requirepass. rewrite bool_decide_false; [done|]. unfold token_ToString. by rewrite Ev, <- Hpw.
  - cbn [mbind option_bind]. case_bool_decide as Ep; [by split; [intros _; split; [done|by left]|]|].
    split; [done|]. intros _. split_and!; [done..|]. intros _ ns tok id El E.
    destruct (inv_range _ (si_inv _ _ Hs) _ _ _ El) as [_ Hlt]. by rewrite E, FromBase64Url_text in Ev.
Qed.

(** C38: A connection whose token is bound to no namespace any more, because the
    namespace was deleted or its token replaced, becomes an administrator: the
    recheck of the binding puts it into the default namespace and leaves it
    authenticated, and it can then delete any namespace of the server.  The server
    has a password and is not in cluster mode, the state keeps its invariant, an
    identifier is left for a namespace, and no request of the engine fails. *)
Theorem deleted_tenant_becomes_admin (c : ConnCtx) (s : Server) (a : NsState) (p : nat) (m : NamespaceMetadata) (ns : bytes) :
  srv_inv s a -> conn_ok (heap s) c -> Forall (fun ok => false ∉ ok) (srv_ok s) -> next_id a < 2 ^ 64 - 1 ->
  requirepass <> [] -> cluster_mode = false ->
  conn_meta c = Some p -> heap s !! p = Some m -> authenticated c = true ->
  (forall ns' id, live a !! ns' <> Some (tok_bytes (meta_token m), id)) -> is_Some (live a !! ns) ->
  let '(s', c', r) := DispatchCommand requirepass databases cluster_mode scan (CmdNamespace (lit "del") ns) c s in
  r = ReplyNs NsStatusOk /\ authenticated c' = true /\ conn_ns c' = kDefaultNamespace
  /\ exists a', srv_inv s' a' /\ live a' = delete ns (live a).
Proof using Type.
  clear Hscan. intros Hs Hc Hnf Hn Hreq Hcl Hp Hm Hau Hgone [[tok id] Hl].
  assert (forall l : list (list bool), Forall (fun ok => false ∉ ok) l -> Forall reads_ok l) as Hreads.
  { intros l. apply Forall_impl. intros ok Hok. unfold reads_ok.
    destruct ok as [|[] [|[] [|[] [|[] ok]]]]; cbn; set_solver. }
  pose proof (RefreshBinding_ok requirepass c s a Hs Hc (Hreads _ Hnf)) as Hrb. unfold DispatchCommand.
  assert (exists s1, RefreshBinding requirepass c s = (s1, mkConn true (db_id c) kDefaultNamespace [] None) /\ srv_ok s1 = tail (srv_ok s)) as (s1 & E & Eok).
  { unfold RefreshBinding. rewrite Hp. cbn [mbind option_bind]. rewrite Hm. cbn [fmap option_fmap option_map].
    destruct (GetMetadataByToken_gone requirepass (meta_token m) s a Hs Hgone) as (s1 & -> & Eok). rewrite bool_decide_false by done. rewrite Hau. eauto. }
  rewrite E in *. destruct Hrb as (Hs1 & _ & _ & Hok1 & _ & _).
  assert (AuthRequired requirepass (mkConn true (db_id c) kDefaultNamespace [] None) (command_words (CmdNamespace (lit "del") ns)) = false) as ->.
  { cbn. by destruct (length requirepass =? 0)%nat. }
  unfold NamespaceCommand_Execute. rewrite bool_decide_false by done. rewrite Hcl.
  rewrite (proj2 (Nat.eqb_neq (length requirepass) 0)) by (by destruct requirepass).
  cbn [authenticated conn_ns negb orb]. rewrite bool_decide_true by done. cbn [negb].
  do 3 (rewrite bool_decide_false by done). rewrite bool_decide_true by done.
  destruct (si_names _ _ Hs _ _ Hl) as [Hdef _]. rewrite bool_decide_false by done.
  pose proof (manager_op_ok requirepass (OpDel ns) s1 a Hs1 Hok1 Hn (reads_fine_hd s1 Hok1) I) as Hop. cbn [manager_op] in Hop.
  destruct (manager_Del ns s1) as [s2 r]. destruct Hop as (a' & Hs2 & _ & _ & _ & _ & [[-> ->]|(_ & _ & Hf)]).
  - cbn [spec_op]. unfold spec_del in *. cbn [spec_op] in Hs2. unfold spec_del in Hs2. rewrite Hl in *. cbn [fst snd] in *. split_and!; [done..|]. eexists. split; [exact Hs2|done].
  - exfalso. rewrite Eok in Hf. revert Hf. apply (Forall_hd_nil (fun ok => false ∉ ok)); [apply not_elem_of_nil|by apply Forall_tl].
Qed.

End Properties.

(** When reading the catalog of a later table fails, FLUSHALL aborts the
    transaction of that table only: those of the tables before it, which have
    been truncated in them, are neither committed nor aborted. *)
Theorem flushall_read_error_leaks (n : nat) (upsert_ok : bool) (outs : list (bool * bool)) :
  flushall_loop (replicate n (true, true) ++ (false, upsert_ok) :: outs) 0 false
  = (false, replicate n TxOpen ++ [TxAborted]).
Proof.
  assert (forall k succeed, flushall_loop (replicate n (true, true) ++ (false, upsert_ok) :: outs) k succeed
    = (false, replicate (k + n) TxOpen ++ [TxAborted])) as H; [|apply H].
  induction n as [|n IH]; intros k succeed; cbn; [by rewrite Nat.add_0_r|]. rewrite IH. by rewrite Nat.add_succ_r.
Qed.

(** ** A server with one tenant *)

Definition demo_tok : NamespaceToken := demo_token Init.Byte.x78.
Definition demo_state : NsState := mkNs {[lit "a" := (replicate 16 Init.Byte.x78, 1)]} {[1 := 1]} ∅ 2.
Definition demo_srv : Server :=
  mkServer (run_history (lit "admin") [(OpAdd (lit "a") demo_tok, [])] ∅).1
    {[MakePrefix (b255e 1) 1 ++ lit "k" := lit "v"]} ∅ [mkMeta (lit "a") (b255e 1) demo_tok 1]
    (mkCache {[lit "a" := 0%nat]} {[tok_bytes demo_tok := 0%nat]}) [] [].
Definition demo_conn : ConnCtx := mkConn true 0 (lit "a") (MakePrefix (b255e 1) 1) (Some 0%nat).

Lemma demo_live : live demo_state !! lit "a" = Some (tok_bytes demo_tok, 1).
Proof. vm_compute. reflexivity. Qed.

Lemma demo_srv_inv : srv_inv demo_srv demo_state.
Proof.
  destruct add_one_inv as [Hr Hi]. constructor; [exact Hr|exact Hi|..].
  - intros k Hk. cbn [ns_data demo_srv] in Hk. apply lookup_singleton_is_Some in Hk as <-.
    exists 1, 1, (lit "k"). do 4 (split; [done|]). intros ns tok Hl. cbn [live demo_state] in Hl.
    apply lookup_singleton_Some in Hl as [_ [= _]]. done.
  - constructor; cbn [token_metadata ns_metadata cache demo_srv heap].
    + intros tok p [<- <-]%lookup_singleton_Some. exists (mkMeta (lit "a") (b255e 1) demo_tok 1), 1. by split_and!.
    + intros ns p [<- <-]%lookup_singleton_Some. exists (mkMeta (lit "a") (b255e 1) demo_tok 1). by split_and!.
  - intros ns x; cbn [live demo_state]; intros [<- _]%lookup_singleton_Some. by split.
Qed.

Lemma demo_conn_bound : conn_bound demo_srv demo_state demo_conn.
Proof. exists (mkMeta (lit "a") (b255e 1) demo_tok 1), 1. by split_and!. Qed.

Lemma demo_epochs id : epoch_of demo_state id < 2 ^ 64 - 1.
Proof. unfold epoch_of. cbn [epochs demo_state]. destruct (decide (1 = id)) as [<-|H]; [done|]. by rewrite lookup_singleton_ne. Qed.

Lemma tenant_isolation_witness :
  let set_cmd := CmdObject [lit "set"; lit "k"; lit "w"] (lit "k") (fun _ => Some (lit "w")) in
  let '(s', c', r) := DispatchCommand (lit "admin") 16 false demo_scan set_cmd
    (mkConn true 0 kDefaultNamespace [] None) demo_srv in
  exists a', srv_inv s' a'
    /\ (forall ns key, ns <> kDefaultNamespace -> tenant_get a' s' ns key = tenant_get demo_state demo_srv ns key).
Proof.
  pose proof (tenant_isolation (lit "admin") 16 false demo_scan
    (CmdObject [lit "set"; lit "k"; lit "w"] (lit "k") (fun _ => Some (lit "w")))
    (mkConn true 0 kDefaultNamespace [] None) demo_srv demo_state demo_srv_inv eq_refl ltac:(constructor) ltac:(constructor)
    eq_refl demo_epochs) as H.
  cbn zeta in *. destruct (DispatchCommand _ _ _ _ _ _ _) as [[s' c'] r]. destruct H as (a' & H1 & H2 & _).
  exists a'. split; [exact H1|exact H2].
Defined.

Lemma flush_empties_namespace_witness :
  let '(s', error) := ExecuteFlushDBCommand demo_conn demo_srv in
  error = None /\ exists a', srv_inv s' a' /\ tenant_get a' s' (lit "a") (lit "k") = None.
Proof.
  pose proof (flush_empties_namespace demo_conn demo_srv demo_state demo_srv_inv ltac:(constructor) demo_conn_bound
    ltac:(discriminate) demo_epochs) as H.
  assert ((ExecuteFlushDBCommand demo_conn demo_srv).2 = None) as E by (vm_compute; reflexivity).
  destruct (ExecuteFlushDBCommand demo_conn demo_srv) as [s' error]. cbn in E. subst error.
  destruct H as (a' & H1 & _ & H3 & _). split; [reflexivity|]. exists a'. split; [exact H1|]. apply (H3 eq_refl).
Defined.

Lemma auth_correct_witness :
  let '(s', c', ok) := AuthCommand_Execute (lit "admin") (Base64UrlEncode (tok_bytes demo_tok)) new_conn demo_srv in
  ok = true /\ conn_ns c' = lit "a" /\ authenticated c' = true.
Proof.
  pose proof (auth_correct (lit "admin") (Base64UrlEncode (tok_bytes demo_tok)) new_conn demo_srv demo_state
    demo_srv_inv) as H.
  assert ((AuthCommand_Execute (lit "admin") (Base64UrlEncode (tok_bytes demo_tok)) new_conn demo_srv).2 = true
    /\ conn_ns (AuthCommand_Execute (lit "admin") (Base64UrlEncode (tok_bytes demo_tok)) new_conn demo_srv).1.2 = lit "a")
    as [E1 E2] by (vm_compute; split; reflexivity).
  destruct (AuthCommand_Execute _ _ _ _) as [[s' c'] ok]. cbn in E1, E2. subst ok.
  split; [reflexivity|]. split; [exact E2|]. exact (proj1 (proj1 H eq_refl)).
Defined.

(** Two connections, an administrator and a tenant of namespace [a]. *)
Definition demo_events : list Event :=
  let token := Base64UrlEncode (tok_bytes (GenerateRandomToken (replicate 16 Init.Byte.x41))) in
  [ EvConnect; EvConnect;
    EvCommand 0 (CmdAuth kDefaultNamespace (lit "admin")) [] [];
    EvCommand 0 (CmdNamespace (lit "add") (lit "a")) [] [replicate 16 Init.Byte.x41];
    EvCommand 1 (CmdAuth kDefaultNamespace token) [] [];
    EvCommand 1 (CmdObject [lit "set"; lit "k"; lit "v"] (lit "k") (fun _ => Some (lit "v"))) [] [];
    EvCommand 1 (CmdNamespace (lit "add") (lit "b")) [] [replicate 16 Init.Byte.x42];
    EvCommand 0 (CmdNamespace (lit "del") (lit "a")) [] [];
    EvCommand 1 (CmdNamespace (lit "add") (lit "b")) [] [replicate 16 Init.Byte.x42];
    EvGc [] [] ].

Lemma server_invariant_witness :
  let w := (world_run (lit "admin") 16 false demo_scan demo_events empty_world).1 in
  exists a, ns_repr (ns_table (w_srv w)) a /\ ns_inv a /\ data_ok a (ns_data (w_srv w))
    /\ coherent (heap (w_srv w)) (cache (w_srv w)) a /\ Forall (conn_ok (heap (w_srv w))) (w_conns w)
    /\ (Forall (fun ev => ~ is_gc ev) demo_events -> data_inv a (ns_data (w_srv w))).
Proof.
  apply (server_invariant (lit "admin") 16 false demo_scan demo_events);
    [repeat constructor|apply Z.ltb_lt; vm_compute; reflexivity].
Defined.

(** The server of the examples, after the tenant of a connection was deleted and
    another was added. *)
Definition gone_conn : ConnCtx := mkConn true 0 (lit "b") (MakePrefix (b255e 2) 1) (Some 1%nat).
Definition gone_srv : Server := set_heap (heap demo_srv ++ [mkMeta (lit "b") (b255e 2) (demo_token Init.Byte.x79) 1]) demo_srv.

Lemma gone_srv_inv : srv_inv gone_srv demo_state.
Proof.
  destruct demo_srv_inv as [H1 H2 H3 [C1 C2] H5]. constructor; [exact H1|exact H2|exact H3| |exact H5]. constructor.
  - intros tok p E. destruct (C1 tok p E) as (m & id & Hh & Hrest). exists m, id. split; [|done]. by apply lookup_app_l_Some.
  - intros ns p E. destruct (C2 ns p E) as (m & Hh & Hrest). exists m. split; [|done]. by apply lookup_app_l_Some.
Qed.

Lemma deleted_tenant_becomes_admin_witness :
  let '(s', c', r) := DispatchCommand (lit "admin") 16 false demo_scan (CmdNamespace (lit "del") (lit "a")) gone_conn gone_srv in
  r = ReplyNs NsStatusOk /\ exists a', srv_inv s' a' /\ live a' = ∅.
Proof.
  pose proof (deleted_tenant_becomes_admin (lit "admin") 16 false demo_scan gone_conn gone_srv demo_state 1%nat
    (mkMeta (lit "b") (b255e 2) (demo_token Init.Byte.x79) 1) (lit "a") gone_srv_inv
    ltac:(eexists; split_and!; done) ltac:(constructor) eq_refl ltac:(discriminate) eq_refl eq_refl eq_refl eq_refl
    ltac:(intros ns' id; cbn [live demo_state]; intros E; apply lookup_singleton_Some in E as [_ E]; by vm_compute in E)
    ltac:(eexists; exact demo_live)) as H.
  destruct (DispatchCommand _ _ _ _ _ _ _) as [[s' c'] r]. destruct H as (H1 & _ & _ & a' & H2 & H3).
  split; [exact H1|]. exists a'. split; [exact H2|]. rewrite H3. cbn [live demo_state]. apply delete_singleton_eq.
Defined.

(** The cache entry of a token is published in a step of its own after the
    storage was read.  When the namespace is deleted in between, the entry
    stays: AUTH with the deleted token goes on succeeding. *)
Theorem deleted_token_stays_cached :
  let s := set_cache (mkCache ∅ ∅) (set_heap [] demo_srv) in
  let '(s, (name, id, epoch)) := srv_tx (ByToken (lit "admin") demo_tok) s in
  let '(s, deleted) := manager_Del (lit "a") s in
  let '(s, _) := publish demo_tok name id epoch s in
  let '(s, c, ok) := AuthCommand_Execute (lit "admin") (Base64UrlEncode (tok_bytes demo_tok)) new_conn s in
  deleted = true /\ ns_table s !! n_key (lit "a") = None /\ ok = true /\ conn_ns c = lit "a".
Proof. vm_compute. repeat split. Qed.
