(* ===== verification/PubSub.v ===== *)
(** * Publish and subscribe

    [PubSubManager] (src/pub_sub_manager.cpp) keeps the subscribers of every
    channel and pattern, and every connection (src/redis_connection_context.cpp)
    its own channels and patterns.  The tables are hash tables of a library:
    the order in which they are walked is an argument, of which only that it
    visits every entry once is assumed. *)

From S2P Require Import Prelude Codec StringMatch Encoding.

Set Warnings "-clear-no-such-hyp".

(** ** State *)

(** Channels and patterns are kept the same way, in tables of their own. *)
Inductive Side := Channel | Pattern.
#[global] Instance Side_eq_dec : EqDecision Side.
Proof. solve_decision. Defined.

Record Client := mkClient { subscribed_channels : gset bytes; subscribed_patterns : gset bytes }.

(** What is written to a client: the answer to a (un)subscription with the
    number of subscriptions left, or a message. *)
Inductive Push :=
| PushCount (kind : bytes) (name : option bytes) (count : Z)
| PushMessage (chan msg : bytes)
| PushPMessage (pattern chan msg : bytes).

Abbreviation Subs := (gmap bytes (gset nat)).

(** The two tables, the live connections, and what was sent to whom. *)
Record PubSub := mkPS {
  pub_sub_channels : Subs; pattern_subs : Subs; ps_clients : gmap nat Client; sent : list (nat * Push)
}.

Definition subs (side : Side) (st : PubSub) : Subs :=
  match side with Channel => pub_sub_channels st | Pattern => pattern_subs st end.
Definition set_subs (side : Side) (t : Subs) (st : PubSub) : PubSub :=
  match side with
  | Channel => mkPS t (pattern_subs st) (ps_clients st) (sent st)
  | Pattern => mkPS (pub_sub_channels st) t (ps_clients st) (sent st)
  end.
Definition set_clients (cs : gmap nat Client) (st : PubSub) : PubSub :=
  mkPS (pub_sub_channels st) (pattern_subs st) cs (sent st).
Definition client_subs (side : Side) (c : Client) : gset bytes :=
  match side with Channel => subscribed_channels c | Pattern => subscribed_patterns c end.
Definition set_client_subs (side : Side) (X : gset bytes) (c : Client) : Client :=
  match side with
  | Channel => mkClient X (subscribed_patterns c)
  | Pattern => mkClient (subscribed_channels c) X
  end.

(** ** Connections *)

(** [RedisConnectionContext::SubscribeChannel] and [SubscribePattern]. *)
Definition client_Subscribe (side : Side) (name : bytes) (i : nat) (st : PubSub) : PubSub :=
  set_clients (alter (fun c => set_client_subs side ({[name]} ∪ client_subs side c) c) i (ps_clients st)) st.

(** [UnsubscribeChannel] and [UnsubscribePattern]. *)
Definition client_Unsubscribe (side : Side) (name : bytes) (i : nat) (st : PubSub) : PubSub :=
  set_clients (alter (fun c => set_client_subs side (client_subs side c ∖ {[name]}) c) i (ps_clients st)) st.

Definition SubscriptionsCount (i : nat) (st : PubSub) : Z :=
  match ps_clients st !! i with
  | Some c => Z.of_nat (size (subscribed_channels c)) + Z.of_nat (size (subscribed_patterns c))
  | None => 0
  end.

(** [SetArray ...; FlushOutput]. *)
Definition send (i : nat) (p : Push) (st : PubSub) : PubSub :=
  mkPS (pub_sub_channels st) (pattern_subs st) (ps_clients st) (sent st ++ [(i, p)]).
Definition send_count (kind : bytes) (name : option bytes) (i : nat) (st : PubSub) : PubSub :=
  send i (PushCount kind name (SubscriptionsCount i st)) st.

(** ** The manager *)

Section Manager.

Context (names_of : Subs -> list bytes) (clients_of : gset nat -> list nat).

(** [SubscribeChannel] and [SubscribePattern] of the manager. *)
Definition subscribe_one (side : Side) (name : bytes) (i : nat) (st : PubSub) : PubSub * bool :=
  let clients := default ∅ (subs side st !! name) in
  let success := negb (bool_decide (i ∈ clients)) in
  let st := set_subs side (<[name := {[i]} ∪ clients]> (subs side st)) st in
  (if success then client_Subscribe side name i st else st, success).

(** [UnsubscribeChannel] and [UnsubscribePattern] of the manager. *)
Definition unsubscribe_one (side : Side) (name : bytes) (i : nat) (st : PubSub) : PubSub * bool :=
  match subs side st !! name with
  | Some clients =>
      if bool_decide (i ∈ clients) then
        let clients := clients ∖ {[i]} in
        let st := set_subs side
          (if bool_decide (clients = ∅) then delete name (subs side st) else <[name := clients]> (subs side st)) st in
        (client_Unsubscribe side name i st, true)
      else (st, false)
  | None => (st, false)
  end.

Definition sub_kind (side : Side) : bytes :=
  match side with Channel => lit "subscribe" | Pattern => lit "psubscribe" end.
Definition unsub_kind (side : Side) : bytes :=
  match side with Channel => lit "unsubscribe" | Pattern => lit "punsubscribe" end.

(** The common loop of [Subscribe] and [PSubscribe]. *)
Fixpoint subscribe_all (side : Side) (names : list bytes) (i : nat) (st : PubSub) : PubSub :=
  match names with
  | [] => st
  | name :: names' =>
      let '(st, _) := subscribe_one side name i st in
      subscribe_all side names' i (send_count (sub_kind side) (Some name) i st)
  end.

Fixpoint unsubscribe_list (side : Side) (names : list bytes) (i : nat) (st : PubSub) : PubSub :=
  match names with
  | [] => st
  | name :: names' =>
      let '(st, _) := unsubscribe_one side name i st in
      unsubscribe_list side names' i (send_count (unsub_kind side) (Some name) i st)
  end.

(** The loop of an unsubscription from everything; the number found. *)
Fixpoint unsubscribe_walk (side : Side) (names : list bytes) (i : nat) (st : PubSub) (unsubscribed : nat) : PubSub * nat :=
  match names with
  | [] => (st, unsubscribed)
  | name :: names' =>
      match subs side st !! name with
      | Some clients =>
          if bool_decide (i ∈ clients) then
            let st := set_subs side (<[name := clients ∖ {[i]}]> (subs side st)) st in
            let st := client_Unsubscribe side name i st in
            unsubscribe_walk side names' i (send_count (unsub_kind side) (Some name) i st) (S unsubscribed)
          else unsubscribe_walk side names' i st unsubscribed
      | None => unsubscribe_walk side names' i st unsubscribed
      end
  end.

(** [absl::erase_if] on the entries without clients. *)
Definition erase_empty (t : Subs) : Subs := filter (fun kv => kv.2 <> ∅) t.

(** The common body of [Unsubscribe] and [PUnsubscribe]. *)
Definition unsubscribe_all (side : Side) (names : list bytes) (i : nat) (st : PubSub) : PubSub :=
  match names with
  | [] =>
      let '(st, unsubscribed) := unsubscribe_walk side (names_of (subs side st)) i st 0 in
      let st := if (unsubscribed =? 0)%nat then send_count (unsub_kind side) None i st else st in
      set_subs side (erase_empty (subs side st)) st
  | _ => unsubscribe_list side names i st
  end.

(** The methods of the manager; the two of a pair differ in the table and the
    name in the reply. *)
Definition Subscribe (chans : list bytes) (i : nat) (st : PubSub) : PubSub := subscribe_all Channel chans i st.
Definition PSubscribe (patterns : list bytes) (i : nat) (st : PubSub) : PubSub := subscribe_all Pattern patterns i st.
Definition Unsubscribe (chans : list bytes) (i : nat) (st : PubSub) : PubSub := unsubscribe_all Channel chans i st.
Definition PUnsubscribe (patterns : list bytes) (i : nat) (st : PubSub) : PubSub := unsubscribe_all Pattern patterns i st.

(** The manager forgets a connection, whose own sets stay as they are. *)
Definition UnsubscribeAll (i : nat) (st : PubSub) : PubSub :=
  let forget t := erase_empty ((fun X => X ∖ {[i]}) <$> t) in
  mkPS (forget (pub_sub_channels st)) (forget (pattern_subs st)) (ps_clients st) (sent st).

(** [stringmatchlen(pattern, chan, 0)]; a pattern is stored with a zero after it. *)
Definition pattern_matches (pattern chan : bytes) : bool :=
  default false (stringmatchlen pattern [Init.Byte.x00] chan false).

Definition send_list (ids : list nat) (p : Push) (st : PubSub) : PubSub :=
  foldl (fun st i => send i p st) st ids.

Fixpoint publish_patterns (patterns : list bytes) (chan msg : bytes) (st : PubSub) (received : nat) : PubSub * nat :=
  match patterns with
  | [] => (st, received)
  | pattern :: patterns' =>
      if pattern_matches pattern chan then
        let clients := clients_of (default ∅ (pattern_subs st !! pattern)) in
        publish_patterns patterns' chan msg (send_list clients (PushPMessage pattern chan msg) st) (received + length clients)
      else publish_patterns patterns' chan msg st received
  end.

Definition Publish (chan msg : bytes) (st : PubSub) : PubSub * nat :=
  let '(st, received) :=
    match pub_sub_channels st !! chan with
    | Some X => let clients := clients_of X in (send_list clients (PushMessage chan msg) st, length clients)
    | None => (st, 0%nat)
    end in
  publish_patterns (names_of (pattern_subs st)) chan msg st received.

(** A connection is made, and destroyed. *)
Definition connect (i : nat) (st : PubSub) : PubSub := set_clients (<[i := mkClient ∅ ∅]> (ps_clients st)) st.

Definition disconnect (i : nat) (st : PubSub) : PubSub :=
  match ps_clients st !! i with
  | Some c =>
      let st := if bool_decide (subscribed_channels c <> ∅ \/ subscribed_patterns c <> ∅) then UnsubscribeAll i st else st in
      set_clients (delete i (ps_clients st)) st
  | None => st
  end.

End Manager.

(** The walks visit every entry once. *)
Class WalkLaws (names_of : Subs -> list bytes) (clients_of : gset nat -> list nat) : Prop := {
  names_walked : forall t, names_of t ≡ₚ (map_to_list t).*1;
  clients_walked : forall X, clients_of X ≡ₚ elements X
}.

(** ** Fields *)

Lemma subs_set_same side t st : subs side (set_subs side t st) = t.
Proof. by destruct side. Qed.
Lemma subs_set_other side side' t st : side <> side' -> subs side (set_subs side' t st) = subs side st.
Proof. by destruct side, side'. Qed.
Lemma clients_set_subs side t st : ps_clients (set_subs side t st) = ps_clients st.
Proof. by destruct side. Qed.
Lemma sent_set_subs side t st : sent (set_subs side t st) = sent st.
Proof. by destruct side. Qed.
Lemma subs_set_clients side cs st : subs side (set_clients cs st) = subs side st.
Proof. by destruct side. Qed.
Lemma subs_send side i p st : subs side (send i p st) = subs side st.
Proof. by destruct side. Qed.
Lemma client_subs_same side X c : client_subs side (set_client_subs side X c) = X.
Proof. by destruct side. Qed.
Lemma client_subs_other side side' X c : side <> side' -> client_subs side (set_client_subs side' X c) = client_subs side c.
Proof. by destruct side, side'. Qed.
Lemma set_client_subs_id side c : set_client_subs side (client_subs side c) c = c.
Proof. by destruct side, c. Qed.

(** ** The tables and the connections agree *)

Definition ps_agree (st : PubSub) : Prop := forall side name i,
  i ∈ default ∅ (subs side st !! name) <-> exists c, ps_clients st !! i = Some c /\ name ∈ client_subs side c.

(** There are no entries without clients either. *)
Record ps_inv (st : PubSub) : Prop := {
  pi_nonempty : forall side name, subs side st !! name <> Some ∅;
  pi_agree : ps_agree st
}.

(** The connections alone: what a subscription and its end do to them. *)
Definition spec_sub (side : Side) (name : bytes) (i : nat) (cs : gmap nat Client) : gmap nat Client :=
  alter (fun c => set_client_subs side ({[name]} ∪ client_subs side c) c) i cs.
Definition spec_unsub (side : Side) (name : bytes) (i : nat) (cs : gmap nat Client) : gmap nat Client :=
  alter (fun c => set_client_subs side (client_subs side c ∖ {[name]}) c) i cs.

(** A change of one side of one connection that matches a change of one entry. *)
Lemma agree_change (side : Side) (name : bytes) (i : nat) (f : gset bytes -> gset bytes) (t : Subs) (st : PubSub) :
  ps_agree st -> is_Some (ps_clients st !! i) ->
  (forall name', name' <> name -> t !! name' = subs side st !! name') ->
  (forall j, j <> i -> j ∈ default ∅ (t !! name) <-> j ∈ default ∅ (subs side st !! name)) ->
  (forall X name', name' <> name -> name' ∈ f X <-> name' ∈ X) ->
  (forall X, name ∈ f X <-> i ∈ default ∅ (t !! name)) ->
  ps_agree (set_clients (alter (fun c => set_client_subs side (f (client_subs side c)) c) i (ps_clients st)) (set_subs side t st)).
Proof.
  intros Hag [ci Hci] Ht Hj Hf Hfn side' name' j. rewrite subs_set_clients. cbn [ps_clients set_clients].
  destruct (decide (j = i)) as [->|Hji].
  - rewrite lookup_alter_eq, Hci. cbn [fmap option_fmap option_map].
    assert (forall P : Client -> Prop, (exists c, Some (set_client_subs side (f (client_subs side ci)) ci) = Some c /\ P c)
      <-> P (set_client_subs side (f (client_subs side ci)) ci)) as Hex by (intros P; naive_solver).
    rewrite Hex. specialize (Hag side' name' i). rewrite Hci in Hag.
    assert (i ∈ default ∅ (subs side' st !! name') <-> name' ∈ client_subs side' ci) as Hag' by naive_solver.
    destruct (decide (side' = side)) as [->|Hs].
    + rewrite subs_set_same, client_subs_same. destruct (decide (name' = name)) as [->|Hn].
      * symmetry. apply Hfn.
      * by rewrite Ht, Hf.
    + by rewrite subs_set_other, client_subs_other.
  - rewrite lookup_alter_ne by done. rewrite <- (Hag side' name' j). destruct (decide (side' = side)) as [->|Hs].
    + rewrite subs_set_same. destruct (decide (name' = name)) as [->|Hn]; [by apply Hj|by rewrite Ht].
    + by rewrite subs_set_other.
Qed.

Lemma nonempty_change (side : Side) (name : bytes) (t : Subs) (cs : gmap nat Client) (st : PubSub) :
  (forall side name, subs side st !! name <> Some ∅) ->
  (forall name', name' <> name -> t !! name' = subs side st !! name') -> t !! name <> Some ∅ ->
  forall side' name', subs side' (set_clients cs (set_subs side t st)) !! name' <> Some ∅.
Proof.
  intros Hne Ht Htn side' name'. rewrite subs_set_clients. destruct (decide (side' = side)) as [->|Hs].
  - rewrite subs_set_same. destruct (decide (name' = name)) as [->|Hn]; [done|]. rewrite Ht by done. apply Hne.
  - rewrite subs_set_other by done. apply Hne.
Qed.

Lemma alter_client_id (side : Side) (X : gset bytes -> gset bytes) (i : nat) (cs : gmap nat Client) :
  (forall c, cs !! i = Some c -> X (client_subs side c) = client_subs side c) ->
  alter (fun c => set_client_subs side (X (client_subs side c)) c) i cs = cs.
Proof.
  intros H. apply map_eq. intros j. destruct (decide (j = i)) as [->|Hne]; [|by apply lookup_alter_ne].
  rewrite lookup_alter_eq. destruct (cs !! i) as [c|] eqn:E; [|done]. cbn. by rewrite H, set_client_subs_id.
Qed.

(** ** Single subscriptions *)

Lemma default_lookup_Some (t : Subs) name X : t !! name = Some X -> default ∅ (t !! name) = X.
Proof. by intros ->. Qed.

Lemma subscribe_one_ok side name i st :
  ps_inv st -> is_Some (ps_clients st !! i) ->
  let st' := (subscribe_one side name i st).1 in
  ps_inv st' /\ ps_clients st' = spec_sub side name i (ps_clients st) /\ sent st' = sent st.
Proof.
  intros Hinv Hi. cbn zeta. unfold subscribe_one. set (X := default ∅ (subs side st !! name)).
  assert (ps_inv (client_Subscribe side name i (set_subs side (<[name := {[i]} ∪ X]> (subs side st)) st))) as Hnew.
  { unfold client_Subscribe. rewrite clients_set_subs.
    assert (forall name', name' <> name -> <[name := {[i]} ∪ X]> (subs side st) !! name' = subs side st !! name')
      by (intros name' Hne; by apply lookup_insert_ne).
    constructor; [apply (nonempty_change side name); [apply Hinv|done|]|].
    { rewrite lookup_insert_eq. intros [= E]. set_solver. }
    apply (agree_change side name i (fun Y => {[name]} ∪ Y)); [apply Hinv|done|done| | |].
    - intros j Hj. rewrite lookup_insert_eq. cbn. fold X. set_solver.
    - set_solver.
    - intros Y. rewrite lookup_insert_eq. cbn. set_solver. }
  case_bool_decide as Hin; cbn [negb fst].
  - assert (set_subs side (<[name := {[i]} ∪ X]> (subs side st)) st = st) as ->.
    { assert (subs side st !! name = Some X) as Hs.
      { unfold X in *. by destruct (subs side st !! name). }
      replace ({[i]} ∪ X) with X by set_solver. rewrite insert_id by done. by destruct side, st. }
    split_and!; [done| |done]. unfold spec_sub. symmetry.
    apply (alter_client_id side (fun Y => {[name]} ∪ Y)). intros c Hc.
    apply (pi_agree _ Hinv side) in Hin as (c' & Hc' & Hn). assert (c' = c) as -> by congruence. set_solver.
  - split_and!; [done| |].
    + unfold client_Subscribe. by rewrite clients_set_subs.
    + unfold client_Subscribe. cbn. by rewrite sent_set_subs.
Qed.

Lemma unsubscribe_one_ok side name i st :
  ps_inv st ->
  let st' := (unsubscribe_one side name i st).1 in
  ps_inv st' /\ ps_clients st' = spec_unsub side name i (ps_clients st) /\ sent st' = sent st.
Proof.
  intros Hinv. cbn zeta. unfold unsubscribe_one.
  assert ((i ∉ default ∅ (subs side st !! name)) -> ps_clients st = spec_unsub side name i (ps_clients st)) as Hno.
  { intros Hin. unfold spec_unsub. symmetry. apply (alter_client_id side (fun Y => Y ∖ {[name]})). intros c Hc.
    assert (name ∉ client_subs side c); [|set_solver]. intros Hn. apply Hin. apply (pi_agree _ Hinv side). eauto. }
  destruct (subs side st !! name) as [X|] eqn:E; cbn [default] in *; [|split_and!; [done|apply Hno; set_solver|done]].
  case_bool_decide as Hin; [|by split_and!; [|apply Hno|]].
  assert (is_Some (ps_clients st !! i)) as Hi.
  { assert (i ∈ default ∅ (subs side st !! name)) as H by (by rewrite E).
    apply (pi_agree _ Hinv side) in H as (c & -> & _). by eexists. }
  unfold client_Unsubscribe. split_and!; cbn [fst ps_clients sent set_clients].
  - rewrite clients_set_subs. set (t := if bool_decide _ then _ else _).
    assert (forall name', name' <> name -> t !! name' = subs side st !! name') as Ht.
    { intros name' Hne. unfold t. case_bool_decide; [by apply lookup_delete_ne|by apply lookup_insert_ne]. }
    constructor; [apply (nonempty_change side name); [apply Hinv|done|]|].
    { unfold t. case_bool_decide as He; [by rewrite lookup_delete_eq|rewrite lookup_insert_eq]. congruence. }
    apply (agree_change side name i (fun Y => Y ∖ {[name]})); [apply Hinv|done|done| | |]; unfold t.
    + intros j Hj. rewrite E. case_bool_decide as He; [rewrite lookup_delete_eq|rewrite lookup_insert_eq]; cbn; set_solver.
    + set_solver.
    + intros Y. case_bool_decide as He; [rewrite lookup_delete_eq|rewrite lookup_insert_eq]; cbn; set_solver.
  - by rewrite clients_set_subs.
  - by rewrite sent_set_subs.
Qed.

Lemma send_inv i p st : ps_inv st -> ps_inv (send i p st).
Proof. intros [H1 H2]. constructor; [intros; rewrite subs_send; apply H1|]. intros side name j. rewrite subs_send. apply H2. Qed.

(** ** Lists of subscriptions *)

Definition spec_count (i : nat) (cs : gmap nat Client) : Z :=
  match cs !! i with
  | Some c => Z.of_nat (size (subscribed_channels c)) + Z.of_nat (size (subscribed_patterns c))
  | None => 0
  end.

(** Each name in turn, with the answer that counts what is left. *)
Fixpoint spec_walk (op : bytes -> gmap nat Client -> gmap nat Client) (kind : bytes) (names : list bytes) (i : nat)
    (cs : gmap nat Client) : gmap nat Client * list (nat * Push) :=
  match names with
  | [] => (cs, [])
  | name :: names' =>
      let cs := op name cs in
      let '(cs', out) := spec_walk op kind names' i cs in
      (cs', (i, PushCount kind (Some name) (spec_count i cs)) :: out)
  end.

Definition spec_subscribe (side : Side) (names : list bytes) (i : nat) (cs : gmap nat Client) :=
  spec_walk (fun name => spec_sub side name i) (sub_kind side) names i cs.
Definition spec_unsubscribe (side : Side) (names : list bytes) (i : nat) (cs : gmap nat Client) :=
  spec_walk (fun name => spec_unsub side name i) (unsub_kind side) names i cs.

Lemma sub_is_Some side name i cs : is_Some (cs !! i) -> is_Some (spec_sub side name i cs !! i).
Proof. intros [c E]. unfold spec_sub. rewrite lookup_alter_eq, E. by eexists. Qed.

Lemma subscribe_all_ok side names i : forall st,
  ps_inv st -> is_Some (ps_clients st !! i) ->
  let st' := subscribe_all side names i st in
  let '(cs, out) := spec_subscribe side names i (ps_clients st) in
  ps_inv st' /\ ps_clients st' = cs /\ sent st' = sent st ++ out.
Proof.
  induction names as [|name names IH]; intros st Hinv Hi; cbn [subscribe_all spec_subscribe spec_walk].
  { split_and!; [done..|]. by rewrite app_nil_r. }
  destruct (subscribe_one_ok side name i st Hinv Hi) as (H1 & H2 & H3).
  destruct (subscribe_one side name i st) as [st1 b]. cbn [fst] in *.
  specialize (IH (send_count (sub_kind side) (Some name) i st1)). unfold spec_subscribe in IH.
  cbn [send_count send ps_clients sent] in IH. rewrite H2, H3 in IH.
  destruct (spec_walk _ _ names i _) as [cs out]. destruct IH as (I1 & I2 & I3); [by apply send_inv|by apply sub_is_Some|].
  split_and!; [done..|]. rewrite I3, <- app_assoc. cbn [app]. unfold SubscriptionsCount, spec_count. by rewrite H2.
Qed.

Lemma unsubscribe_list_ok side names i : forall st,
  ps_inv st ->
  let st' := unsubscribe_list side names i st in
  let '(cs, out) := spec_unsubscribe side names i (ps_clients st) in
  ps_inv st' /\ ps_clients st' = cs /\ sent st' = sent st ++ out.
Proof.
  induction names as [|name names IH]; intros st Hinv; cbn [unsubscribe_list spec_unsubscribe spec_walk].
  { split_and!; [done..|]. by rewrite app_nil_r. }
  destruct (unsubscribe_one_ok side name i st Hinv) as (H1 & H2 & H3).
  destruct (unsubscribe_one side name i st) as [st1 b]. cbn [fst] in *.
  specialize (IH (send_count (unsub_kind side) (Some name) i st1)). unfold spec_unsubscribe in IH.
  cbn [send_count send ps_clients sent] in IH. rewrite H2, H3 in IH.
  destruct (spec_walk _ _ names i _) as [cs out]. destruct IH as (I1 & I2 & I3); [by apply send_inv|].
  split_and!; [done..|]. rewrite I3, <- app_assoc. cbn [app]. unfold SubscriptionsCount, spec_count. by rewrite H2.
Qed.

(** ** Unsubscribing from everything *)

Lemma client_Unsubscribe_agree side name i X st :
  ps_agree st -> subs side st !! name = Some X -> i ∈ X ->
  ps_agree (client_Unsubscribe side name i (set_subs side (<[name := X ∖ {[i]}]> (subs side st)) st)).
Proof.
  intros Hag E Hin. unfold client_Unsubscribe. rewrite clients_set_subs.
  assert (i ∈ default ∅ (subs side st !! name)) as H by (by rewrite E).
  apply (Hag side) in H as (c & Hc & _).
  apply (agree_change side name i (fun Y => Y ∖ {[name]})); [done|by eexists|..].
  - intros name' Hne. by apply lookup_insert_ne.
  - intros j Hj. rewrite lookup_insert_eq, E. cbn. set_solver.
  - set_solver.
  - intros Y. rewrite lookup_insert_eq. cbn. set_solver.
Qed.

Lemma unsubscribe_walk_ok (side : Side) (i : nat) (S0 : gset bytes) (names : list bytes) : forall (st : PubSub) (n : nat),
  NoDup names -> ps_agree st ->
  (forall name, name ∈ names -> i ∈ default ∅ (subs side st !! name) <-> name ∈ S0) ->
  let l := filter (fun name => name ∈ S0) names in
  let '(st', n') := unsubscribe_walk side names i st n in
  let '(cs, out) := spec_unsubscribe side l i (ps_clients st) in
  ps_agree st' /\ ps_clients st' = cs /\ sent st' = sent st ++ out /\ n' = (n + length l)%nat
  /\ (forall side', side' <> side -> subs side' st' = subs side' st).
Proof.
  induction names as [|name names IH]; intros st n Hnd Hag HS.
  { cbn. split_and!; [done..| |lia|done]. by rewrite app_nil_r. }
  apply list.NoDup_cons in Hnd as [Hni Hnd]. cbn zeta. rewrite filter_cons. cbn [unsubscribe_walk].
  pose proof (HS name ltac:(left)) as HSn.
  assert (forall name', name' ∈ names -> i ∈ default ∅ (subs side st !! name') <-> name' ∈ S0) as HS'.
  { intros name' Hn. apply HS. by right. }
  destruct (decide (name ∈ S0)) as [Hin|Hin].
  - apply HSn in Hin as Hi. destruct (subs side st !! name) as [X|] eqn:E; [|cbn in Hi; set_solver]. cbn [default] in Hi.
    rewrite bool_decide_true by done.
    set (st1 := client_Unsubscribe _ _ _ _). pose proof (client_Unsubscribe_agree side name i X st Hag E Hi) as Hag1.
    fold st1 in Hag1. specialize (IH (send_count (unsub_kind side) (Some name) i st1) (S n) Hnd).
    assert (ps_clients st1 = spec_unsub side name i (ps_clients st)) as Hc1.
    { unfold st1, client_Unsubscribe. by rewrite clients_set_subs. }
    assert (sent st1 = sent st) as Hs1 by (unfold st1, client_Unsubscribe; cbn; by rewrite sent_set_subs).
    cbn zeta in IH. unfold spec_unsubscribe in *. cbn [spec_walk]. cbn [send_count send ps_clients sent] in IH. rewrite Hc1, Hs1 in IH.
    destruct (unsubscribe_walk _ names i _ _) as [st' n']. destruct (spec_walk _ _ _ i _) as [cs out].
    destruct IH as (I1 & I2 & I3 & I4 & I5).
    + intros side' name' j. unfold send_count. rewrite subs_send. apply Hag1.
    + intros name' Hn. unfold send_count. rewrite subs_send. unfold st1, client_Unsubscribe. rewrite subs_set_clients, subs_set_same.
      rewrite lookup_insert_ne by (by intros ->). by apply HS'.
    + split_and!; [done..| |cbn [length]; lia|].
      * rewrite I3, <- app_assoc. cbn [app]. unfold SubscriptionsCount, spec_count. by rewrite Hc1.
      * intros side' Hne. rewrite I5 by done. unfold send_count. rewrite subs_send. unfold st1, client_Unsubscribe.
        by rewrite subs_set_clients, subs_set_other.
  - assert (i ∉ default ∅ (subs side st !! name)) as Hi by tauto. specialize (IH st n Hnd Hag HS').
    destruct (subs side st !! name) as [X|] eqn:E; [|done]. by rewrite bool_decide_false.
Qed.

Lemma erase_empty_default (t : Subs) name : default ∅ (erase_empty t !! name) = default ∅ (t !! name).
Proof.
  unfold erase_empty. destruct (t !! name) as [X|] eqn:E.
  - destruct (decide (X = ∅)) as [->|Hne].
    + assert (filter (fun kv => kv.2 <> ∅) t !! name = None) as ->; [|done].
      apply map_lookup_filter_None. right. intros Y EY. cbn. intros Hn. apply Hn. congruence.
    + by rewrite (proj2 (map_lookup_filter_Some _ t name X)).
  - by rewrite (proj2 (map_lookup_filter_None _ t name)) by (by left).
Qed.

Lemma erase_empty_nonempty (t : Subs) name : erase_empty t !! name <> Some ∅.
Proof. intros [_ H]%map_lookup_filter_Some. by apply H. Qed.

Lemma erase_agree side st : ps_agree st -> ps_agree (set_subs side (erase_empty (subs side st)) st).
Proof.
  intros H side' name i. rewrite clients_set_subs. destruct (decide (side' = side)) as [->|Hs].
  - rewrite subs_set_same, erase_empty_default. apply H.
  - rewrite subs_set_other by done. apply H.
Qed.

(** ** Connections come and go *)

Lemma connect_inv i st : ps_inv st -> ps_clients st !! i = None -> ps_inv (connect i st).
Proof.
  intros [Hne Hag] Hi. constructor.
  - intros side name. unfold connect. rewrite subs_set_clients. apply Hne.
  - intros side name j. unfold connect. rewrite subs_set_clients, (Hag side name j). cbn [ps_clients set_clients].
    destruct (decide (j = i)) as [->|Hj]; [|by rewrite lookup_insert_ne].
    rewrite lookup_insert_eq, Hi. split; [by intros (c & ? & _)|]. intros (c & [= <-] & H). destruct side; cbn in H; set_solver.
Qed.

Lemma subs_UnsubscribeAll side i st name :
  default ∅ (subs side (UnsubscribeAll i st) !! name) = default ∅ (subs side st !! name) ∖ {[i]}.
Proof.
  destruct side; cbn [subs UnsubscribeAll pub_sub_channels pattern_subs];
    rewrite erase_empty_default, lookup_fmap; destruct (_ !! name); cbn; set_solver.
Qed.

Lemma disconnect_inv i st :
  ps_inv st -> ps_inv (disconnect i st) /\ ps_clients (disconnect i st) = delete i (ps_clients st)
  /\ sent (disconnect i st) = sent st.
Proof.
  intros [Hne Hag]. unfold disconnect. destruct (ps_clients st !! i) as [c|] eqn:Ec.
  2: { split_and!; [done| |done]. by rewrite delete_id. }
  split_and!; [|by case_bool_decide..]. constructor.
  - intros side name. rewrite subs_set_clients. case_bool_decide; [|apply Hne].
    destruct side; apply erase_empty_nonempty.
  - intros side name j. rewrite subs_set_clients.
    assert (default ∅ (subs side (if bool_decide (subscribed_channels c <> ∅ \/ subscribed_patterns c <> ∅)
      then UnsubscribeAll i st else st) !! name) = default ∅ (subs side st !! name) ∖ {[i]}) as ->.
    { case_bool_decide as Hb; [apply subs_UnsubscribeAll|].
      assert (i ∉ default ∅ (subs side st !! name)); [|set_solver]. intros (c' & Hc' & Hn)%(Hag side).
      assert (c' = c) as -> by congruence. apply Hb. destruct side; [left|right]; cbn in Hn; set_solver. }
    cbn [ps_clients set_clients]. rewrite elem_of_difference, elem_of_singleton, (Hag side name j).
    destruct (bool_decide _); cbn [ps_clients UnsubscribeAll]; rewrite lookup_delete; case_decide as Hji; subst; naive_solver.
Qed.

(** ** Publishing *)

Definition pushed (l : list (nat * Push)) (st : PubSub) : PubSub :=
  mkPS (pub_sub_channels st) (pattern_subs st) (ps_clients st) (sent st ++ l).

Lemma send_list_eq ids p : forall st, send_list ids p st = pushed ((fun i => (i, p)) <$> ids) st.
Proof.
  unfold send_list. induction ids as [|i ids IH]; intros st; cbn [foldl fmap list_fmap].
  - unfold pushed. rewrite app_nil_r. by destruct st.
  - rewrite IH. unfold pushed, send. cbn. by rewrite <- app_assoc.
Qed.

Section Walks.

Context (names_of : Subs -> list bytes) (clients_of : gset nat -> list nat) {HW : WalkLaws names_of clients_of}.

Lemma names_of_nodup t : NoDup (names_of t).
Proof using HW. rewrite (names_walked (WalkLaws := HW)). apply NoDup_fst_map_to_list. Qed.

Lemma names_of_elem t name : name ∈ names_of t <-> is_Some (t !! name).
Proof using HW.
  rewrite (names_walked (WalkLaws := HW)), list_elem_of_fmap. split.
  - intros ([n X] & -> & H%elem_of_map_to_list). by eexists.
  - intros [X H]. exists (name, X). split; [done|]. by apply elem_of_map_to_list.
Qed.

(** UNSUBSCRIBE without names is UNSUBSCRIBE of the names the connection has,
    in the order of the walk; a connection that has none gets one answer. *)
Lemma unsubscribe_everything_ok side i st c :
  ps_inv st -> ps_clients st !! i = Some c ->
  let st' := unsubscribe_all names_of side [] i st in
  exists names, names ≡ₚ elements (client_subs side c)
    /\ ps_inv st' /\ ps_clients st' = (spec_unsubscribe side names i (ps_clients st)).1
    /\ sent st' = sent st ++ match names with
                             | [] => [(i, PushCount (unsub_kind side) None (spec_count i (ps_clients st)))]
                             | _ => (spec_unsubscribe side names i (ps_clients st)).2
                             end.
Proof using HW.
  intros [Hne Hag] Hc. cbn zeta. unfold unsubscribe_all.
  assert (forall name, i ∈ default ∅ (subs side st !! name) <-> name ∈ client_subs side c) as HS.
  { intros name. rewrite (Hag side name i). split; [intros (c' & Hc' & H); congruence|eauto]. }
  set (names := filter (fun name => name ∈ client_subs side c) (names_of (subs side st))).
  pose proof (unsubscribe_walk_ok side i (client_subs side c) (names_of (subs side st)) st 0
    (names_of_nodup _) Hag ltac:(intros name _; apply HS)) as Hw. cbn zeta in Hw. fold names in Hw.
  assert (names ≡ₚ elements (client_subs side c)) as Hperm.
  { apply list.NoDup_Permutation; [apply list.NoDup_filter, names_of_nodup|apply NoDup_elements|]. intros name.
    unfold names. rewrite list_elem_of_filter, elem_of_elements, names_of_elem. split; [tauto|]. intros H. split; [done|].
    apply HS in H. destruct (subs side st !! name); [by eexists|cbn in H; set_solver]. }
  exists names. split; [done|].
  destruct (unsubscribe_walk _ _ i st 0) as [st1 n1]. destruct (spec_unsubscribe side names i (ps_clients st)) as [cs out] eqn:Esp.
  destruct Hw as (W1 & W2 & W3 & W4 & W5). cbn [fst snd].
  set (st2 := if (n1 =? 0)%nat then _ else st1).
  assert (ps_agree st2 /\ ps_clients st2 = cs /\ (forall s, subs s st2 = subs s st1)) as (A1 & A2 & A3).
  { unfold st2. destruct (n1 =? 0)%nat; [|done]. split_and!; [|done|].
    - intros s name j. unfold send_count. rewrite subs_send. apply W1.
    - intros s. apply subs_send. }
  split_and!; [|by rewrite clients_set_subs|].
  - constructor; [|by apply erase_agree]. intros s name. destruct (decide (s = side)) as [->|Hs].
    + rewrite subs_set_same. apply erase_empty_nonempty.
    + rewrite subs_set_other by done. rewrite A3, W5 by done. apply Hne.
  - rewrite sent_set_subs. unfold st2. subst n1. destruct names as [|name names'].
    + cbn in Esp. injection Esp as <- <-. cbn [length Nat.add Nat.eqb]. cbn [send_count send sent].
      rewrite W3, app_nil_r. unfold SubscriptionsCount, spec_count. by rewrite W2.
    + cbn [length Nat.add Nat.eqb]. done.
Qed.

Lemma publish_patterns_eq patterns chan msg : forall st n,
  publish_patterns clients_of patterns chan msg st n
  = let l := patterns ≫= fun pattern =>
               if pattern_matches pattern chan
               then (fun i => (i, PushPMessage pattern chan msg)) <$> clients_of (default ∅ (pattern_subs st !! pattern))
               else [] in
    (pushed l st, (n + length l)%nat).
Proof using Type.
  induction patterns as [|pattern patterns IH]; intros st n; cbn [publish_patterns mbind list_bind].
  - unfold pushed. rewrite app_nil_r, Nat.add_0_r. by destruct st.
  - destruct (pattern_matches pattern chan); [|apply IH]. rewrite IH, send_list_eq. cbn [pattern_subs pushed].
    rewrite length_app, length_fmap, Nat.add_assoc. f_equal. unfold pushed. cbn. by rewrite <- app_assoc.
Qed.

Lemma clients_of_elem X i : i ∈ clients_of X <-> i ∈ X.
Proof using HW. rewrite (clients_walked (WalkLaws := HW)). by rewrite elem_of_elements. Qed.

Lemma clients_of_nodup X : NoDup (clients_of X).
Proof using HW. rewrite (clients_walked (WalkLaws := HW)). apply NoDup_elements. Qed.

(** Every subscriber of the channel gets the message once, every subscriber of
    a matching pattern once for the pattern, and the answer is their number. *)
Lemma Publish_ok chan msg st :
  ps_inv st ->
  exists l, Publish names_of clients_of chan msg st = (pushed l st, length l) /\ NoDup l
    /\ forall i p, (i, p) ∈ l <-> exists c, ps_clients st !! i = Some c
         /\ ((p = PushMessage chan msg /\ chan ∈ subscribed_channels c)
             \/ exists pattern, p = PushPMessage pattern chan msg /\ pattern ∈ subscribed_patterns c
                  /\ pattern_matches pattern chan = true).
Proof using HW.
  intros [Hne Hag]. set (l1 := (fun i => (i, PushMessage chan msg)) <$> clients_of (default ∅ (pub_sub_channels st !! chan))).
  set (l2 := names_of (pattern_subs st) ≫= fun pattern =>
    if pattern_matches pattern chan
    then (fun i => (i, PushPMessage pattern chan msg)) <$> clients_of (default ∅ (pattern_subs st !! pattern)) else []).
  assert (forall x pattern, x ∈ (if pattern_matches pattern chan
    then (fun i => (i, PushPMessage pattern chan msg)) <$> clients_of (default ∅ (pattern_subs st !! pattern)) else [])
    <-> pattern_matches pattern chan = true /\ exists i, x = (i, PushPMessage pattern chan msg)
        /\ i ∈ default ∅ (pattern_subs st !! pattern)) as Hx.
  { intros x pattern. destruct (pattern_matches pattern chan).
    - rewrite list_elem_of_fmap. setoid_rewrite clients_of_elem. naive_solver.
    - split; [by intros ?%not_elem_of_nil|naive_solver]. }
  exists (l1 ++ l2). split_and!.
  - unfold Publish. assert ((match pub_sub_channels st !! chan with
      | Some X => (send_list (clients_of X) (PushMessage chan msg) st, length (clients_of X))
      | None => (st, 0%nat) end) = (pushed l1 st, length l1)) as ->.
    { unfold l1. rewrite length_fmap. destruct (pub_sub_channels st !! chan); cbn [default].
      - by rewrite send_list_eq.
      - assert (clients_of ∅ = []) as -> by (apply elem_of_nil_inv; intros i; rewrite clients_of_elem; set_solver).
        cbn. unfold pushed. rewrite app_nil_r. by destruct st. }
    rewrite publish_patterns_eq. cbn [pattern_subs pushed]. fold l2. rewrite length_app. f_equal.
    unfold pushed. cbn. by rewrite <- app_assoc.
  - apply list.NoDup_app. split_and!.
    + apply NoDup_fmap_2; [intros i j; congruence|apply clients_of_nodup].
    + intros x (i & -> & _)%list_elem_of_fmap (pattern & Hp & _)%list_elem_of_bind. by apply Hx in Hp as (_ & j & [=] & _).
    + apply NoDup_bind; [| |apply names_of_nodup].
      * intros p1 p2 y _ _ (_ & i & -> & _)%Hx (_ & j & E & _)%Hx. congruence.
      * intros p1 _. destruct (pattern_matches p1 chan); [|apply NoDup_nil_2].
        apply NoDup_fmap_2; [intros i j; congruence|apply clients_of_nodup].
  - intros i p. rewrite elem_of_app. unfold l1, l2. rewrite list_elem_of_fmap, list_elem_of_bind.
    setoid_rewrite clients_of_elem. setoid_rewrite Hx. pose proof (Hag Channel chan) as HC. cbn [subs client_subs] in HC.
    pose proof (Hag Pattern) as HP. cbn [subs client_subs] in HP. split.
    + intros [(j & [= <- ->] & Hj)|(pattern & (Hm & j & [= <- ->] & Hj) & _)].
      * apply HC in Hj as (c & Hc & Hin). exists c. auto.
      * apply HP in Hj as (c & Hc & Hin). exists c. split; [done|]. right. by exists pattern.
    + intros (c & Hc & [[-> Hin]|(pattern & -> & Hin & Hm)]).
      * left. exists i. split; [done|]. apply HC. eauto.
      * right. exists pattern. assert (i ∈ default ∅ (pattern_subs st !! pattern)) as Hi by (apply HP; eauto).
        split; [|apply names_of_elem; destruct (pattern_subs st !! pattern); [by eexists|cbn in Hi; set_solver]].
        split; [done|]. by exists i.
Qed.

End Walks.

(** ** Histories *)

Inductive PsOp :=
| OpConnect (i : nat)
| OpDisconnect (i : nat)
| OpSubscribe (side : Side) (names : list bytes) (i : nat)
| OpUnsubscribe (side : Side) (names : list bytes) (i : nat)
| OpPublish (chan msg : bytes).

(** What the connections alone let a client expect: the connections after the
    operation and what is sent, in order. *)
Inductive spec_step (cs : gmap nat Client) : PsOp -> gmap nat Client -> list (nat * Push) -> Prop :=
| spec_connect i : spec_step cs (OpConnect i) (<[i := mkClient ∅ ∅]> cs) []
| spec_disconnect i : spec_step cs (OpDisconnect i) (delete i cs) []
| spec_subscribe_names side names i :
    spec_step cs (OpSubscribe side names i) (spec_subscribe side names i cs).1 (spec_subscribe side names i cs).2
| spec_unsubscribe_names side names i :
    names <> [] ->
    spec_step cs (OpUnsubscribe side names i) (spec_unsubscribe side names i cs).1 (spec_unsubscribe side names i cs).2
| spec_unsubscribe_every side names i c :
    cs !! i = Some c -> names ≡ₚ elements (client_subs side c) -> names <> [] ->
    spec_step cs (OpUnsubscribe side [] i) (spec_unsubscribe side names i cs).1 (spec_unsubscribe side names i cs).2
| spec_unsubscribe_none side i c :
    cs !! i = Some c -> client_subs side c = ∅ ->
    spec_step cs (OpUnsubscribe side [] i) cs [(i, PushCount (unsub_kind side) None (spec_count i cs))]
| spec_publish chan msg out :
    NoDup out ->
    (forall i p, (i, p) ∈ out <-> exists c, cs !! i = Some c
       /\ ((p = PushMessage chan msg /\ chan ∈ subscribed_channels c)
           \/ exists pattern, p = PushPMessage pattern chan msg /\ pattern ∈ subscribed_patterns c
                /\ pattern_matches pattern chan = true)) ->
    spec_step cs (OpPublish chan msg) cs out.

Inductive spec_run : gmap nat Client -> list PsOp -> gmap nat Client -> list (nat * Push) -> Prop :=
| run_nil cs : spec_run cs [] cs []
| run_cons cs op cs1 out1 ops cs2 out2 :
    spec_step cs op cs1 out1 -> spec_run cs1 ops cs2 out2 -> spec_run cs (op :: ops) cs2 (out1 ++ out2).

(** A client is connected once, and only connected clients send commands. *)
Definition op_ready (st : PubSub) (op : PsOp) : Prop :=
  match op with
  | OpConnect i => ps_clients st !! i = None
  | OpSubscribe _ _ i | OpUnsubscribe _ _ i => is_Some (ps_clients st !! i)
  | _ => True
  end.

Section Histories.

Context (names_of : Subs -> list bytes) (clients_of : gset nat -> list nat) {HW : WalkLaws names_of clients_of}.

Definition ps_op (op : PsOp) (st : PubSub) : PubSub :=
  match op with
  | OpConnect i => connect i st
  | OpDisconnect i => disconnect i st
  | OpSubscribe Channel names i => Subscribe names i st
  | OpSubscribe Pattern names i => PSubscribe names i st
  | OpUnsubscribe Channel names i => Unsubscribe names_of names i st
  | OpUnsubscribe Pattern names i => PUnsubscribe names_of names i st
  | OpPublish chan msg => (Publish names_of clients_of chan msg st).1
  end.

Definition ps_ops (ops : list PsOp) (st : PubSub) : PubSub := foldl (fun st op => ps_op op st) st ops.

Fixpoint ops_ready (st : PubSub) (ops : list PsOp) : Prop :=
  match ops with
  | [] => True
  | op :: ops' => op_ready st op /\ ops_ready (ps_op op st) ops'
  end.

Lemma ps_op_sides op st :
  ps_op op st = match op with
    | OpSubscribe side names i => subscribe_all side names i st
    | OpUnsubscribe side names i => unsubscribe_all names_of side names i st
    | _ => ps_op op st
    end.
Proof using Type. by destruct op as [| |[]|[]|]. Qed.

Lemma ps_op_ok op st :
  ps_inv st -> op_ready st op ->
  exists out, ps_inv (ps_op op st) /\ spec_step (ps_clients st) op (ps_clients (ps_op op st)) out
    /\ sent (ps_op op st) = sent st ++ out.
Proof using HW.
  intros Hinv Hr. rewrite ps_op_sides. destruct op as [i|i|side names i|side names i|chan msg]; cbn [ps_op op_ready] in *.
  - exists []. split_and!; [by apply connect_inv|constructor|]. by rewrite app_nil_r.
  - destruct (disconnect_inv i st Hinv) as (H1 & H2 & H3). exists []. rewrite H2, H3, app_nil_r.
    split_and!; [done|constructor|done].
  - pose proof (subscribe_all_ok side names i st Hinv Hr) as H. cbn zeta in H.
    destruct (spec_subscribe side names i (ps_clients st)) as [cs out] eqn:E. destruct H as (H1 & H2 & H3).
    exists out. rewrite H2. split_and!; [done| |done]. pose proof (spec_subscribe_names (ps_clients st) side names i) as Hs.
    by rewrite E in Hs.
  - destruct Hr as [c Hc]. destruct names as [|name names].
    + destruct (unsubscribe_everything_ok names_of clients_of side i st c Hinv Hc) as (names & Hp & H1 & H2 & H3).
      destruct names as [|name names].
      * eexists. rewrite H2. split_and!; [done| |exact H3]. cbn. apply (spec_unsubscribe_none _ side i c); [done|].
        apply leibniz_equiv, elements_empty_inv. by apply Permutation_nil.
      * eexists. rewrite H2. split_and!; [done| |exact H3]. by apply (spec_unsubscribe_every _ side (name :: names) i c).
    + pose proof (unsubscribe_list_ok side (name :: names) i st Hinv) as H. cbn zeta in H.
      destruct (spec_unsubscribe side (name :: names) i (ps_clients st)) as [cs out] eqn:E. destruct H as (H1 & H2 & H3).
      exists out. cbn [unsubscribe_all]. rewrite H2. split_and!; [done| |done].
      pose proof (spec_unsubscribe_names (ps_clients st) side (name :: names) i ltac:(done)) as Hs. by rewrite E in Hs.
  - destruct (Publish_ok names_of clients_of chan msg st Hinv) as (l & -> & Hnd & Hl). exists l. cbn [fst pushed ps_clients sent].
    split_and!; [|by constructor|done]. destruct Hinv as [Hne Hag]. constructor.
    + intros [] name; [apply (Hne Channel)|apply (Hne Pattern)].
    + intros [] name i; [apply (Hag Channel)|apply (Hag Pattern)].
Qed.

Lemma ps_ops_ok ops : forall st,
  ps_inv st -> ops_ready st ops ->
  exists out, ps_inv (ps_ops ops st) /\ spec_run (ps_clients st) ops (ps_clients (ps_ops ops st)) out
    /\ sent (ps_ops ops st) = sent st ++ out.
Proof using HW.
  induction ops as [|op ops IH]; intros st Hinv Hr.
  - exists []. split_and!; [done|constructor|]. by rewrite app_nil_r.
  - destruct Hr as [Hr1 Hr2]. destruct (ps_op_ok op st Hinv Hr1) as (out1 & H1 & H2 & H3).
    destruct (IH (ps_op op st) H1 Hr2) as (out2 & H4 & H5 & H6). exists (out1 ++ out2).
    split_and!; [done|by econstructor|]. unfold ps_ops in *. cbn [foldl]. by rewrite H6, H3, app_assoc.
Qed.

End Histories.

Definition ps_empty : PubSub := mkPS ∅ ∅ ∅ [].

Lemma ps_empty_inv : ps_inv ps_empty.
Proof.
  constructor.
  - by intros [] name.
  - intros side name i. split; [|by intros (c & ? & _)]. destruct side; cbn; set_solver.
Qed.

(** ** Properties *)

(** C13: Any history of connections, (un)subscriptions and messages is what the
    subscriptions of each connection alone lead one to expect: the answers
    count the subscriptions left, a message reaches every subscriber of the
    channel once and every subscriber of a matching pattern once for the
    pattern, and nothing else is sent.  The tables of the manager and the sets
    of the connections agree throughout, with no empty entries left behind. *)
Theorem pubsub_refines (names_of : Subs -> list bytes) (clients_of : gset nat -> list nat)
    {HW : WalkLaws names_of clients_of} (ops : list PsOp) :
  ops_ready names_of clients_of ps_empty ops ->
  let st := ps_ops names_of clients_of ops ps_empty in
  ps_inv st /\ spec_run ∅ ops (ps_clients st) (sent st).
Proof.
  intros Hr st. destruct (ps_ops_ok names_of clients_of ops ps_empty ps_empty_inv Hr) as (out & H1 & H2 & H3).
  split; [done|]. unfold st. by rewrite H3.
Qed.

(** PUBLISH answers the number of messages it sends. *)
Theorem publish_counts (names_of : Subs -> list bytes) (clients_of : gset nat -> list nat)
    {HW : WalkLaws names_of clients_of} (chan msg : bytes) (st : PubSub) :
  ps_inv st ->
  let '(st', received) := Publish names_of clients_of chan msg st in
  length (sent st') = (length (sent st) + received)%nat
  /\ pub_sub_channels st' = pub_sub_channels st /\ pattern_subs st' = pattern_subs st /\ ps_clients st' = ps_clients st.
Proof.
  intros Hinv. destruct (Publish_ok names_of clients_of chan msg st Hinv) as (l & -> & _).
  cbn. by rewrite length_app.
Qed.

Definition demo_names (t : Subs) : list bytes := (map_to_list t).*1.
Definition demo_clients (X : gset nat) : list nat := elements X.
#[export] Instance demo_walk : WalkLaws demo_names demo_clients.
Proof. by constructor. Qed.

Definition demo_ops : list PsOp :=
  [OpConnect 0; OpConnect 1; OpSubscribe Channel [lit "news"; lit "news"] 0; OpSubscribe Pattern [lit "n*"; lit "x"] 1;
   OpPublish (lit "news") (lit "m"); OpUnsubscribe Pattern [] 1; OpUnsubscribe Channel [] 1; OpDisconnect 0].

Lemma pubsub_refines_witness :
  let st := ps_ops demo_names demo_clients demo_ops ps_empty in
  length (sent st) = 9%nat /\ ps_inv st /\ spec_run ∅ demo_ops (ps_clients st) (sent st).
Proof.
  split; [vm_compute; reflexivity|]. apply (pubsub_refines demo_names demo_clients demo_ops).
  repeat split; vm_compute; eauto.
Defined.

Lemma publish_counts_witness :
  let st := ps_ops demo_names demo_clients (take 4 demo_ops) ps_empty in
  let '(st', received) := Publish demo_names demo_clients (lit "news") (lit "m") st in
  received = 2%nat /\ length (sent st') = (length (sent st) + received)%nat.
Proof.
  pose proof (publish_counts demo_names demo_clients (lit "news") (lit "m")
    (ps_ops demo_names demo_clients (take 4 demo_ops) ps_empty)) as H.
  destruct (ps_ops_ok demo_names demo_clients (take 4 demo_ops) ps_empty ps_empty_inv) as (out & Hinv & _);
    [repeat split; vm_compute; eauto|].
  specialize (H Hinv). cbn zeta.
  assert ((Publish demo_names demo_clients (lit "news") (lit "m") (ps_ops demo_names demo_clients (take 4 demo_ops) ps_empty)).2
    = 2%nat) as E by (vm_compute; reflexivity).
  destruct (Publish _ _ _ _ _) as [st' received]. split; [exact E|exact (proj1 H)].
Defined.
