(* ===== verification/ScanCursor.v ===== *)
(** * Scan cursors of a connection

    A connection (src/redis_connection_context.cpp) remembers the last hundred
    scan cursors it handed out, under a hash of their contents, with a queue of
    pointers to the table's entries and a count in each entry; and one bucket
    cursor per database.  Entries of the table do not move, so a pointer is the
    key of its entry; following a pointer to an erased entry is an error. *)

From S2P Require Import Prelude Encoding.

Set Warnings "-clear-no-such-hyp".

(** ** Cached cursors *)

Record ScanCursors := mkCursors { scan_cursors : gmap Z (bytes * Z); scan_cursor_list : list Z }.

Definition fnv_offset : Z := 14695981039346656037.
Definition fnv_prime : Z := 1099511628211.

(** One turn of the loop: the character is promoted with its sign. *)
Definition cursor_hash_step (hash : Z) (c : byte) : Z := u64 (Z.lxor hash (u64 (c2z c)) * fnv_prime).
Definition cursor_hash (cursor : bytes) : Z := foldl cursor_hash_step fnv_offset cursor.

(** The hash under which the cursor can be found; [None] when a dangling
    pointer would be followed. *)
Definition CacheScanCursor (cursor : bytes) (s : ScanCursors) : option (ScanCursors * Z) :=
  let hash := cursor_hash cursor in
  let entry :=
    match scan_cursors s !! hash with
    | Some (_, n) => (cursor, n + 1)
    | None => (cursor, 1)
    end in
  let t := <[hash := entry]> (scan_cursors s) in
  let l := scan_cursor_list s ++ [hash] in
  if (100 <? length l)%nat then
    match l with
    | [] => None
    | front :: l' =>
        match t !! front with
        | None => None
        | Some (content, n) =>
            Some (mkCursors (if 1 <? n then <[front := (content, n - 1)]> t else delete front t) l', hash)
        end
    end
  else Some (mkCursors t l, hash).

Definition FindScanCursor (cursor_id : Z) (s : ScanCursors) : option bytes := fst <$> scan_cursors s !! cursor_id.

Definition no_cursors : ScanCursors := mkCursors ∅ [].

Fixpoint cache_all (cursors : list bytes) (s : ScanCursors) : option ScanCursors :=
  match cursors with
  | [] => Some s
  | c :: cursors' => '(s', _) ← CacheScanCursor c s; cache_all cursors' s'
  end.

(** ** Bucket cursors *)

(** The counter and, for each database, the current cursor's number and state. *)
Record BucketCursors (A : Type) := mkBuckets { scan_cursor_cnt : Z; bucket_scan_cursors : gmap Z (Z * A) }.
Arguments mkBuckets {A} _ _.
Arguments scan_cursor_cnt {A} _.
Arguments bucket_scan_cursors {A} _.

Section Buckets.

Context {A : Type}.

Definition CreateBucketScanCursor (db : Z) (scan_cursor : A) (s : BucketCursors A) : BucketCursors A * Z :=
  let scan_cursor_id := u64 (scan_cursor_cnt s + 1) in
  (mkBuckets scan_cursor_id (<[db := (scan_cursor_id, scan_cursor)]> (bucket_scan_cursors s)), scan_cursor_id).

Definition RemoveBucketScanCursor (db : Z) (s : BucketCursors A) : BucketCursors A :=
  mkBuckets (scan_cursor_cnt s) (delete db (bucket_scan_cursors s)).

Definition UpdateBucketScanCursor (db : Z) (s : BucketCursors A) : BucketCursors A * Z :=
  match bucket_scan_cursors s !! db with
  | None => (s, 0)
  | Some (_, scan_cursor) =>
      let scan_cursor_id := u64 (scan_cursor_cnt s + 1) in
      (mkBuckets scan_cursor_id (<[db := (scan_cursor_id, scan_cursor)]> (bucket_scan_cursors s)), scan_cursor_id)
  end.

Definition FindBucketScanCursor (db cursor_id : Z) (s : BucketCursors A) : option A :=
  match bucket_scan_cursors s !! db with
  | None => None
  | Some (id, scan_cursor) => if negb (id =? cursor_id) then None else Some scan_cursor
  end.

(** Operations in turn, with the numbers they hand out. *)
Inductive BucketOp := BCreate (db : Z) (scan_cursor : A) | BRemove (db : Z) | BUpdate (db : Z).

Definition bucket_op (op : BucketOp) (s : BucketCursors A) : BucketCursors A * option (Z * Z) :=
  match op with
  | BCreate db c => let '(s, id) := CreateBucketScanCursor db c s in (s, Some (db, id))
  | BRemove db => (RemoveBucketScanCursor db s, None)
  | BUpdate db => let '(s', id) := UpdateBucketScanCursor db s in (s', (fun _ => (db, id)) <$> bucket_scan_cursors s !! db)
  end.

Definition no_buckets : BucketCursors A := mkBuckets 0 ∅.

(** The state after the operations and the numbers given, in order. *)
Fixpoint bucket_ops (ops : list BucketOp) (s : BucketCursors A) : BucketCursors A * list (Z * Z) :=
  match ops with
  | [] => (s, [])
  | op :: ops' =>
      let '(s1, given) := bucket_op op s in
      let '(s2, more) := bucket_ops ops' s1 in
      (s2, (if given is Some g then [g] else []) ++ more)
  end.

End Buckets.

(** ** The table counts the queue *)

Definition occurrences (h : Z) (l : list Z) : nat := length (filter (fun x => x = h) l).

Lemma occurrences_app h l1 l2 : occurrences h (l1 ++ l2) = (occurrences h l1 + occurrences h l2)%nat.
Proof. unfold occurrences. by rewrite list.filter_app, length_app. Qed.

Lemma occurrences_one h x : occurrences h [x] = if decide (x = h) then 1%nat else 0%nat.
Proof. unfold occurrences. rewrite filter_cons. by case_decide. Qed.

(** The last content cached under a hash. *)
Definition last_content (h : Z) (cursors : list bytes) : option bytes :=
  foldl (fun r c => if decide (cursor_hash c = h) then Some c else r) None cursors.

Definition recent (n : nat) (l : list bytes) : list bytes := drop (length l - n) l.


(** The entries of a table whose queue is [l] after [cursors] were cached. *)
Definition entries_ok (cursors : list bytes) (l : list Z) (t : gmap Z (bytes * Z)) : Prop := forall h,
  t !! h = if (occurrences h l =? 0)%nat then None
           else (fun content => (content, Z.of_nat (occurrences h l))) <$> last_content h cursors.

Definition cursors_inv (cursors : list bytes) (s : ScanCursors) : Prop :=
  scan_cursor_list s = cursor_hash <$> recent 100 cursors /\ entries_ok cursors (scan_cursor_list s) (scan_cursors s).

Lemma last_content_snoc h cursors c :
  last_content h (cursors ++ [c]) = if decide (cursor_hash c = h) then Some c else last_content h cursors.
Proof. unfold last_content. by rewrite foldl_app. Qed.

Lemma last_content_some h cursors : h ∈ cursor_hash <$> cursors -> is_Some (last_content h cursors).
Proof.
  induction cursors as [|c cursors IH] using rev_ind; [by intros ?%not_elem_of_nil|].
  rewrite fmap_app, elem_of_app, last_content_snoc. case_decide as E; [by eexists|].
  intros [H|H]; [by apply IH|]. cbn in H. apply list_elem_of_singleton in H. congruence.
Qed.

Lemma occurrences_pos h l : (occurrences h l =? 0)%nat = false <-> h ∈ l.
Proof.
  rewrite Nat.eqb_neq. unfold occurrences. split.
  - intros H. destruct (filter (fun x => x = h) l) as [|x l'] eqn:E; [done|].
    assert (x ∈ filter (fun x => x = h) l) as Hx by (rewrite E; left). by apply list_elem_of_filter in Hx as [-> ?].
  - intros H. assert (h ∈ filter (fun x => x = h) l) as Hx by (by apply list_elem_of_filter).
    destruct (filter (fun x => x = h) l); [by apply not_elem_of_nil in Hx|cbn; lia].
Qed.

(** The new entry and its pointer. *)
Lemma entries_push cursors l t c :
  entries_ok cursors l t -> (forall h, h ∈ l -> is_Some (last_content h cursors)) ->
  let hash := cursor_hash c in
  entries_ok (cursors ++ [c]) (l ++ [hash])
    (<[hash := match t !! hash with Some (_, n) => (c, n + 1) | None => (c, 1) end]> t).
Proof.
  intros He Hl hash h. rewrite occurrences_app, occurrences_one, last_content_snoc. fold hash.
  destruct (decide (hash = h)) as [<-|Hne].
  - rewrite lookup_insert_eq, (He hash). replace (_ + 1 =? 0)%nat with false by (symmetry; apply Nat.eqb_neq; lia).
    cbn [fmap option_fmap option_map]. destruct (occurrences hash l =? 0)%nat eqn:E.
    + apply Nat.eqb_eq in E. by rewrite E.
    + apply occurrences_pos in E as Hin. destruct (Hl hash Hin) as [x ->]. cbn. f_equal. f_equal. lia.
  - rewrite lookup_insert_ne by done. rewrite Nat.add_0_r. apply He.
Qed.

(** The oldest pointer goes. *)
Lemma entries_pop cursors front l t content n :
  entries_ok cursors (front :: l) t -> t !! front = Some (content, n) ->
  entries_ok cursors l (if 1 <? n then <[front := (content, n - 1)]> t else delete front t).
Proof.
  intros He E h. pose proof (He front) as Hf. rewrite E in Hf.
  assert (forall x, occurrences x (front :: l) = ((if decide (front = x) then 1 else 0) + occurrences x l)%nat) as Ho.
  { intros x. change (front :: l) with ([front] ++ l). rewrite occurrences_app, occurrences_one. done. }
  rewrite Ho, decide_True in Hf by done. cbn [Nat.add Nat.eqb] in Hf.
  destruct (last_content front cursors) as [x|] eqn:El; [|done]. cbn in Hf. injection Hf as <- ->.
  destruct (decide (front = h)) as [<-|Hne].
  - rewrite El. destruct (1 <? Z.of_nat (S (occurrences front l))) eqn:En; [apply Z.ltb_lt in En|apply Z.ltb_ge in En].
    + rewrite lookup_insert_eq. destruct (occurrences front l) as [|k]; [lia|]. cbn [Nat.eqb fmap option_fmap option_map].
      f_equal. f_equal. lia.
    + rewrite lookup_delete_eq. destruct (occurrences front l) as [|k]; [done|lia].
  - specialize (He h). rewrite Ho, decide_False in He by done. cbn [Nat.add] in He.
    destruct (1 <? _); [by rewrite lookup_insert_ne|by rewrite lookup_delete_ne].
Qed.

Lemma recent_snoc (cursors : list bytes) c :
  recent 100 (cursors ++ [c])
  = if (100 <? length (recent 100 cursors ++ [c]))%nat then tail (recent 100 cursors ++ [c]) else recent 100 cursors ++ [c].
Proof.
  unfold recent. rewrite !length_app, length_drop. cbn [length].
  destruct (Nat.ltb_spec 100 (length cursors - (length cursors - 100) + 1)) as [H|H].
  - replace (length cursors + 1 - 100)%nat with (S (length cursors - 100)) by lia.
    rewrite <- (drop_app_le cursors [c]) by lia. set (l := cursors ++ [c]). set (k := (length cursors - 100)%nat).
    rewrite <- (skipn_skipn 1 k). by destruct (drop k l).
  - replace (length cursors + 1 - 100)%nat with 0%nat by lia. replace (length cursors - 100)%nat with 0%nat by lia. done.
Qed.

(** ** Caching *)

Lemma recent_in (cursors : list bytes) h : h ∈ cursor_hash <$> recent 100 cursors -> h ∈ cursor_hash <$> cursors.
Proof.
  intros (c & -> & Hc)%list_elem_of_fmap. apply list_elem_of_fmap_2. unfold recent in Hc.
  rewrite <- (take_drop (length cursors - 100) cursors). apply elem_of_app. by right.
Qed.

Lemma CacheScanCursor_ok cursors c s :
  cursors_inv cursors s ->
  exists s', CacheScanCursor c s = Some (s', cursor_hash c) /\ cursors_inv (cursors ++ [c]) s'.
Proof.
  intros [Hl He]. unfold CacheScanCursor. set (hash := cursor_hash c).
  assert (forall h, h ∈ scan_cursor_list s -> is_Some (last_content h cursors)) as Hsome.
  { intros h Hh. rewrite Hl in Hh. by apply last_content_some, recent_in. }
  pose proof (entries_push cursors _ _ c He Hsome) as Hp. cbn zeta in Hp. fold hash in Hp.
  set (t := <[hash := _]> _) in *. pose proof (recent_snoc cursors c) as Hr.
  assert (cursor_hash <$> recent 100 cursors ++ [c] = scan_cursor_list s ++ [hash]) as Hm by (by rewrite fmap_app, Hl).
  assert (length (scan_cursor_list s ++ [hash]) = length (recent 100 cursors ++ [c])) as Hlen by (rewrite <- Hm; apply length_fmap).
  rewrite Hlen. destruct (100 <? length (recent 100 cursors ++ [c]))%nat eqn:Elt.
  - destruct (recent 100 cursors ++ [c]) as [|c0 rest] eqn:Erec; [done|]. rewrite <- Hm in *. cbn [fmap list_fmap] in *.
    set (front := cursor_hash c0) in *.
    assert (exists content n, t !! front = Some (content, n)) as (content & n & Et).
    { rewrite (Hp front). assert ((occurrences front (front :: (cursor_hash <$> rest)) =? 0)%nat = false) as ->
        by (apply occurrences_pos; left).
      assert (is_Some (last_content front (cursors ++ [c]))) as [x ->]; [|by eexists _, _].
      apply last_content_some. rewrite fmap_app. assert (c0 ∈ recent 100 cursors ++ [c]) as H0 by (rewrite Erec; left).
      apply elem_of_app in H0 as [H0|H0]; apply elem_of_app; [left|right].
      - apply recent_in. by apply list_elem_of_fmap_2.
      - by apply list_elem_of_fmap_2. }
    rewrite Et. eexists. split; [done|]. split; cbn [scan_cursor_list scan_cursors]; [by rewrite Hr|].
    by eapply entries_pop.
  - eexists. split; [done|]. split; cbn [scan_cursor_list scan_cursors]; [by rewrite Hr|done].
Qed.

Lemma cache_all_snoc cursors c : forall s,
  cache_all (cursors ++ [c]) s = cache_all cursors s ≫= fun s => fst <$> CacheScanCursor c s.
Proof.
  induction cursors as [|c0 cursors IH]; intros s; cbn.
  - by destruct (CacheScanCursor c s) as [[s' h]|].
  - destruct (CacheScanCursor c0 s) as [[s' h]|]; [apply IH|done].
Qed.

Lemma cache_all_ok cursors : exists s, cache_all cursors no_cursors = Some s /\ cursors_inv cursors s.
Proof.
  induction cursors as [|c cursors (s & E & Hs)] using rev_ind.
  - exists no_cursors. split; [done|]. by split.
  - rewrite cache_all_snoc, E. cbn [mbind option_bind]. destruct (CacheScanCursor_ok cursors c s Hs) as (s' & -> & Hs').
    by exists s'.
Qed.

(** ** Bucket cursors *)

Section BucketProofs.

Context {A : Type}.
Implicit Types s : BucketCursors A.

Definition last_given (db : Z) (given : list (Z * Z)) : option Z :=
  foldl (fun r g => if decide (g.1 = db) then Some g.2 else r) None given.

Lemma last_given_snoc db given g :
  last_given db (given ++ [g]) = if decide (g.1 = db) then Some g.2 else last_given db given.
Proof using Type. unfold last_given. by rewrite foldl_app. Qed.

(** The numbers given so far are 1, 2, ...; a stored number is its database's last. *)
Definition buckets_inv (given : list (Z * Z)) (s : BucketCursors A) : Prop :=
  given.*2 = seqZ 1 (scan_cursor_cnt s) /\ 0 <= scan_cursor_cnt s
  /\ forall db id c, bucket_scan_cursors s !! db = Some (id, c) -> last_given db given = Some id.

Lemma buckets_give given s db id c :
  buckets_inv given s -> id = scan_cursor_cnt s + 1 ->
  buckets_inv (given ++ [(db, id)]) (mkBuckets id (<[db := (id, c)]> (bucket_scan_cursors s))).
Proof using Type.
  intros (H1 & H2 & H3) ->. split_and!; cbn [scan_cursor_cnt bucket_scan_cursors]; [|lia|].
  - rewrite fmap_app, H1, seqZ_app by lia. f_equal. rewrite seqZ_cons by lia. cbn. f_equal. lia.
  - intros db' id c'. rewrite lookup_insert, last_given_snoc. cbn [fst snd]. case_decide; [congruence|apply H3].
Qed.

Lemma bucket_op_ok given op s :
  buckets_inv given s -> scan_cursor_cnt s < 2 ^ 64 - 1 ->
  let '(s', g) := bucket_op op s in
  buckets_inv (given ++ (if g is Some g then [g] else [])) s' /\ scan_cursor_cnt s <= scan_cursor_cnt s' <= scan_cursor_cnt s + 1.
Proof using Type.
  intros Hs Hlt. pose proof Hs as (H1 & H2 & H3).
  assert (u64 (scan_cursor_cnt s + 1) = scan_cursor_cnt s + 1) as Hw by (unfold u64; apply Z.mod_small; lia).
  destruct op as [db c|db|db]; cbn [bucket_op].
  - cbn [CreateBucketScanCursor]. rewrite Hw. split; [by apply buckets_give|cbn; lia].
  - rewrite app_nil_r. split; [|cbn; lia]. split_and!; [done..|]. intros db' id c. cbn. rewrite lookup_delete_Some.
    intros [_ ?]. by eapply H3.
  - unfold UpdateBucketScanCursor. destruct (bucket_scan_cursors s !! db) as [[id c]|] eqn:E; cbn [fmap option_fmap option_map].
    + rewrite Hw. split; [by apply buckets_give|cbn; lia].
    + rewrite app_nil_r. split; [done|lia].
Qed.

Lemma bucket_ops_ok ops : forall given s,
  buckets_inv given s -> scan_cursor_cnt s + zlen ops < 2 ^ 64 ->
  let '(s', more) := bucket_ops ops s in buckets_inv (given ++ more) s'.
Proof using Type.
  induction ops as [|op ops IH]; intros given s Hs Hlt; cbn [bucket_ops].
  - by rewrite app_nil_r.
  - rewrite zlen_cons in Hlt. pose proof (zlen_nonneg ops).
    pose proof (bucket_op_ok given op s Hs ltac:(lia)) as Ho. destruct (bucket_op op s) as [s1 g].
    destruct Ho as [Hs1 Hc]. specialize (IH _ _ Hs1 ltac:(lia)). destruct (bucket_ops ops s1) as [s2 more].
    by rewrite app_assoc.
Qed.

End BucketProofs.

(** ** Properties *)

(** After any cursors were handed out, a cursor number finds the content
    last cached under it if it is among the last hundred handed out, and
    nothing otherwise; no dangling pointer is followed on the way. *)
Theorem scan_cursor_cache (cursors : list bytes) (h : Z) :
  exists s, cache_all cursors no_cursors = Some s /\ (length (scan_cursor_list s) <= 100)%nat
    /\ FindScanCursor h s
       = if decide (h ∈ cursor_hash <$> recent 100 cursors) then last_content h cursors else None.
Proof.
  destruct (cache_all_ok cursors) as (s & E & Hl & He). exists s. split_and!; [done| |].
  - rewrite Hl, length_fmap. unfold recent. rewrite length_drop. lia.
  - unfold FindScanCursor. rewrite (He h), Hl. case_decide as Hin.
    + apply occurrences_pos in Hin as ->. by destruct (last_content h cursors).
    + destruct (_ =? 0)%nat eqn:Eo; [done|]. by apply occurrences_pos in Eo.
Qed.

(** The numbers of bucket cursors are never reused, and a database's scan
    goes on only with the last number given for that database. *)
Theorem bucket_cursor_current {A} (ops : list (BucketOp (A := A))) (db id : Z) (c : A) :
  zlen ops < 2 ^ 64 ->
  let '(s, given) := bucket_ops ops no_buckets in
  NoDup given.*2 /\ (FindBucketScanCursor db id s = Some c -> last_given db given = Some id).
Proof.
  intros Hlt. pose proof (bucket_ops_ok ops [] no_buckets) as H.
  destruct (bucket_ops ops no_buckets) as [s given]. destruct H as (H1 & _ & H3); [by split_and!; cbn; [|lia|]|done|].
  cbn [app] in *. split; [rewrite H1; apply NoDup_seqZ|]. unfold FindBucketScanCursor.
  destruct (bucket_scan_cursors s !! db) as [[id' c']|] eqn:E; [|done].
  destruct (Z.eqb_spec id' id) as [->|]; [|done]. intros _. by eapply H3.
Qed.

Lemma bucket_cursor_current_witness :
  let ops := [BCreate 0 7; BCreate 1 8; BUpdate 0] in
  let '(s, given) := bucket_ops ops no_buckets in
  FindBucketScanCursor 0 3 s = Some 7 /\ last_given 0 given = Some 3 /\ FindBucketScanCursor 0 1 s = None.
Proof.
  pose proof (bucket_cursor_current [BCreate 0 7; BCreate 1 8; BUpdate 0] 0 3 7 ltac:(vm_compute; reflexivity)) as H.
  cbn zeta. split; [vm_compute; reflexivity|]. split; [|vm_compute; reflexivity]. apply (proj2 H). vm_compute. reflexivity.
Defined.

(** The FNV-1a hash of the comment, on unsigned bytes. *)
Definition fnv1a (s : bytes) : Z := foldl (fun h c => u64 (Z.lxor h (b2z c) * fnv_prime)) fnv_offset s.

(** The comment of [CacheScanCursor] names FNV-1a; the character is
    promoted with its sign first, so the hash differs from FNV-1a on cursors
    with bytes above 127, and is FNV-1a on the others. *)
Theorem cursor_hash_is_fnv1a_on_ascii (s : bytes) :
  Forall (fun c => b2z c < 128) s -> cursor_hash s = fnv1a s /\ cursor_hash [Init.Byte.x80] <> fnv1a [Init.Byte.x80].
Proof.
  intros H. split; [|by vm_compute]. unfold cursor_hash, fnv1a. generalize fnv_offset as h.
  induction H as [|c s Hc _ IH]; intros h; [done|]. cbn [foldl]. rewrite IH. f_equal. unfold cursor_hash_step.
  f_equal. f_equal. f_equal. pose proof (b2z_range c). unfold c2z, u64.
  destruct (Z.ltb_spec (b2z c) 128); [|lia]. apply Z.mod_small. lia.
Qed.

Lemma cursor_hash_is_fnv1a_on_ascii_witness :
  cursor_hash (lit "cursor") = fnv1a (lit "cursor") /\ cursor_hash [Init.Byte.x80] <> fnv1a [Init.Byte.x80].
Proof. apply cursor_hash_is_fnv1a_on_ascii. repeat constructor. Defined.
