(* ===== verification/ListObject.v ===== *)
(** * RedisListObject

    The list object of include/redis_list_object.h and
    src/redis_list_object.cpp: a deque of owned strings together with the
    running length of its serialized image.  [Execute_*] decides and fills the
    result without touching the object; [Commit*] performs the mutation. *)

From S2P Require Import Prelude Codec EloqString RedisTypes.

Record RedisListObject := mkList {
  list_object_ : list EloqString;
  list_serialized_length_ : Z
}.

(** [RedisListObject()]: type byte and element count. *)
Definition list_new : RedisListObject := mkList [] (1 + 4).

(** The copy constructor deep-copies every element. *)
Definition list_copy (rhs : RedisListObject) : RedisListObject :=
  mkList (es_clone <$> list_object_ rhs) (list_serialized_length_ rhs).

(** The number of elements as [size_t]. *)
Definition list_size (o : RedisListObject) : Z := zlen (list_object_ o).

(** ** Deciding: the [Execute] methods *)

(** A negative index counts from the end; the flag says it fell off the front. *)
Definition ConvertListIndex (o : RedisListObject) (index : Z) : Z * bool :=
  if index <? 0 then
    let index := list_size o + index in
    if index <? 0 then (0, true) else (index, false)
  else (index, false).

(** [for (ele : elements) len_increased += sizeof(uint32_t) + ele.Length();] *)
Fixpoint len_increased (acc : Z) (elements : list EloqString) : Z :=
  match elements with
  | [] => acc
  | ele :: l => len_increased (u64 (acc + (4 + es_length ele))) l
  end.

(** Shared by RPUSH, LPUSH, LPUSHX and RPUSHX. *)
Definition Execute_Push (o : RedisListObject) (elements_ : list EloqString)
    (r : RedisListResult) : RedisListResult * CommandExecuteState :=
  if MAX_OBJECT_SIZE <? u64 (list_serialized_length_ o + len_increased 0 elements_)
  then (lr_set_err RD_ERR_OBJECT_TOO_BIG r, NoChange)
  else (lr_set_err RD_OK (lr_set_ret (list_size o + zlen elements_) r), Modified).

(** The four bodies are the same. *)
Definition Execute_LPush := Execute_Push.
Definition Execute_RPush := Execute_Push.
Definition Execute_LPushX := Execute_Push.
Definition Execute_RPushX := Execute_Push.

(** [for (; it != end && cond(idx); ++it, ++idx) out.emplace_back( *it );] *)
Fixpoint collect_while (cond : Z -> bool) (idx : Z) (l : list EloqString) : list bytes :=
  match l with
  | [] => []
  | e :: l' => if cond idx then es_view e :: collect_while cond (idx + 1) l' else []
  end.

Definition Execute_LRange (o : RedisListObject) (start_ end_ : Z)
    (r : RedisListResult) : RedisListResult :=
  let '(left_index, _) := ConvertListIndex o start_ in
  let '(right_index, right_index_out_of_range) := ConvertListIndex o end_ in
  if (right_index <? left_index) || (list_size o <=? left_index)
     || right_index_out_of_range
  then lr_set_err RD_OK (lr_set_ret 0 (lr_set_result (LRStrings []) r))
  else
    let elements := collect_while (fun idx => idx <=? right_index) left_index
                      (drop (Z.to_nat left_index) (list_object_ o)) in
    lr_set_err RD_OK (lr_set_ret (right_index - left_index + 1)
      (lr_set_result (LRStrings elements) r)).

(** The verdict after removing [num] of [size] elements. *)
Definition removal_state (num size : Z) : CommandExecuteState :=
  if num =? 0 then NoChange
  else if size <=? num then ModifiedToEmpty else Modified.

(** LPOP and RPOP differ in the end they iterate from. *)
Definition Execute_Pop (from_left : bool) (o : RedisListObject) (count_ : Z)
    (r : RedisListResult) : RedisListResult * CommandExecuteState :=
  let count := if count_ =? -1 then 1 else count_ in
  let num := Z.min (u64 count) (list_size o) in
  let elements := collect_while (fun idx => idx <? num) 0
                    (if from_left then list_object_ o else reverse (list_object_ o)) in
  (lr_set_err RD_OK (lr_set_ret num (lr_set_result (LRStrings elements) r)),
   removal_state num (list_size o)).

Definition Execute_LPop := Execute_Pop true.
Definition Execute_RPop := Execute_Pop false.

Definition Execute_LMovePop (o : RedisListObject) (is_left_ : bool)
    (r : RedisListResult) : RedisListResult * CommandExecuteState :=
  match (if is_left_ then list_object_ o else reverse (list_object_ o)) with
  | [] => (lr_set_err RD_NIL (lr_set_ret 0 r), NoChange)
  | e :: _ =>
      (lr_set_err RD_OK (lr_set_ret 1 (lr_set_result (LREloq (es_clone e)) r)),
       if list_size o =? 1 then ModifiedToEmpty else Modified)
  end.

Definition Execute_LMovePush (o : RedisListObject) (element_ : EloqString)
    (r : RedisListResult) : RedisListResult * CommandExecuteState :=
  if MAX_OBJECT_SIZE <? u64 (list_serialized_length_ o + es_length element_)
  then (lr_set_err RD_ERR_OBJECT_TOO_BIG r, NoChange)
  else (lr_set_err RD_OK (lr_set_ret 1 (lr_set_result (LREloq (es_clone element_)) r)),
        Modified).

Definition Execute_LLen (o : RedisListObject) (r : RedisListResult) : RedisListResult :=
  lr_set_ret (list_size o) r.

Definition NormalizeLTrimRange (o : RedisListObject) (start end_ : Z) : Z * Z :=
  let size := list_size o in
  let start :=
    if start <? 0 then
      let start := size + start in if start <? 0 then 0 else start
    else if size <? start then size
    else start in
  if end_ <? 0 then
    let end_ := size + end_ in
    if end_ <? 0 then (1, 0) else (start, end_)
  else if size <=? end_ then (start, size - 1)
  else (start, end_).

(** The command keeps the normalized range. *)
Definition Execute_LTrim (o : RedisListObject) (start_ end_ : Z)
    (r : RedisListResult) : (Z * Z) * RedisListResult * CommandExecuteState :=
  let '(start_, end_) := NormalizeLTrimRange o start_ end_ in
  let remaining := end_ - start_ + 1 in
  if remaining <=? 0 then ((start_, end_), lr_set_ret 0 r, ModifiedToEmpty)
  else if list_size o <=? remaining
  then ((start_, end_), lr_set_ret (list_size o) r, NoChange)
  else ((start_, end_), lr_set_ret remaining r, Modified).

(** The command keeps the converted index; [None] is [list_object_[i]] out of
    range. *)
Definition Execute_LIndex (o : RedisListObject) (index_ : Z)
    (r : RedisListResult) : option (Z * RedisListResult) :=
  let at_index (i : Z) :=
    match list_object_ o !! Z.to_nat i with
    | Some e => Some (i, lr_set_err RD_OK (lr_set_ret 1
                  (lr_set_result (LRStrings [es_view e]) r)))
    | None => None
    end in
  if index_ <? 0 then
    let index_ := i64 (list_size o + index_) in
    if index_ <? 0 then Some (index_, lr_set_err RD_NIL r) else at_index index_
  else if list_size o <=? index_ then Some (index_, lr_set_err RD_NIL r)
  else at_index index_.

(** The loop stops at the first element equal to the pivot. *)
Definition Execute_LInsert (o : RedisListObject) (pivot_ element_ : EloqString)
    (r : RedisListResult) : RedisListResult * CommandExecuteState :=
  if existsb (fun e => es_eqb e pivot_) (list_object_ o) then
    if MAX_OBJECT_SIZE <? u64 (list_serialized_length_ o + 4 + es_length element_)
    then (lr_set_err RD_ERR_OBJECT_TOO_BIG (lr_set_ret (-1) r), NoChange)
    else (lr_set_err RD_OK (lr_set_ret (list_size o + 1) r), Modified)
  else (lr_set_err RD_NIL (lr_set_ret (-1) r), NoChange).

(** LPOS from the head: [index] and [match_cnt] are the loop's counters and
    [found] the number of positions collected so far. *)
Fixpoint lpos_forward (element_ : EloqString) (rank count maxlen : Z)
    (index match_cnt found : Z) (l : list EloqString) : list Z :=
  match l with
  | [] => []
  | e :: l' =>
      if index <? maxlen then
        if es_eqb e element_ then
          let match_cnt := match_cnt + 1 in
          if rank <=? match_cnt then
            index :: (if found + 1 =? u64 count then []
                      else lpos_forward element_ rank count maxlen
                             (index + 1) match_cnt (found + 1) l')
          else lpos_forward element_ rank count maxlen (index + 1) match_cnt found l'
        else lpos_forward element_ rank count maxlen (index + 1) match_cnt found l'
      else []
  end.

(** LPOS from the tail: [pos] counts down from -1. *)
Fixpoint lpos_backward (element_ : EloqString) (rank count maxlen size : Z)
    (pos match_cnt found : Z) (l : list EloqString) : list Z :=
  match l with
  | [] => []
  | e :: l' =>
      if - maxlen <=? pos then
        if es_eqb e element_ then
          let match_cnt := match_cnt + 1 in
          if rank <=? match_cnt then
            (size + pos) :: (if found + 1 =? u64 count then []
                             else lpos_backward element_ rank count maxlen size
                                    (pos - 1) match_cnt (found + 1) l')
          else lpos_backward element_ rank count maxlen size (pos - 1) match_cnt found l'
        else lpos_backward element_ rank count maxlen size (pos - 1) match_cnt found l'
      else []
  end.

Definition Execute_LPos (o : RedisListObject) (element_ : EloqString)
    (rank_ count_ len_ : Z) (r : RedisListResult) : RedisListResult :=
  let count := if count_ =? -1 then 1 else count_ in
  let maxlen := i32 (if 0 <? len_ then len_ else list_size o) in
  let elements :=
    if rank_ <? 0
    then lpos_backward element_ (i64 (Z.abs rank_)) count maxlen (list_size o)
           (-1) 0 0 (reverse (list_object_ o))
    else lpos_forward element_ rank_ count maxlen 0 0 0 (list_object_ o) in
  let r := lr_set_result (LRInt64s elements) r in
  if decide (elements = []) then lr_set_err RD_NIL r else lr_set_err RD_OK r.

(** The command keeps the converted index. *)
Definition Execute_LSet (o : RedisListObject) (index_ : Z) (element_ : EloqString)
    (r : RedisListResult) : Z * RedisListResult * CommandExecuteState :=
  let index_ := if index_ <? 0 then (ConvertListIndex o index_).1 else index_ in
  let out_of_range := (index_, lr_set_err RD_ERR_INDEX_OUT_OF_RANGE (lr_set_ret 0 r), NoChange) in
  if (0 <=? index_) && (index_ <? list_size o) then
    match list_object_ o !! Z.to_nat index_ with
    | Some old =>
        if MAX_OBJECT_SIZE
           <? u64 (list_serialized_length_ o - es_length old + es_length element_)
        then (index_, lr_set_err RD_ERR_OBJECT_TOO_BIG (lr_set_ret 0 r), NoChange)
        else (index_, lr_set_err RD_OK (lr_set_ret 1 r), Modified)
    | None => out_of_range
    end
  else out_of_range.

(** The number of matches met before [limit] of them were counted. *)
Fixpoint lrem_count (element_ : EloqString) (limit removed : Z) (l : list EloqString) : Z :=
  match l with
  | [] => removed
  | e :: l' =>
      if removed <? limit
      then lrem_count element_ limit (if es_eqb e element_ then removed + 1 else removed) l'
      else removed
  end.

(** The loop without a limit, [count_ == 0]. *)
Fixpoint lrem_count_all (element_ : EloqString) (removed : Z) (l : list EloqString) : Z :=
  match l with
  | [] => removed
  | e :: l' => lrem_count_all element_ (if es_eqb e element_ then removed + 1 else removed) l'
  end.

Definition Execute_LRem (o : RedisListObject) (count_ : Z) (element_ : EloqString)
    (r : RedisListResult) : RedisListResult * CommandExecuteState :=
  let to_be_removed_cnt := i64 (Z.abs count_) in
  let ret :=
    if count_ <? 0 then lrem_count element_ to_be_removed_cnt 0 (reverse (list_object_ o))
    else if 0 <? count_ then lrem_count element_ to_be_removed_cnt 0 (list_object_ o)
    else lrem_count_all element_ 0 (list_object_ o) in
  (lr_set_ret ret r, removal_state ret (list_size o)).

Definition Execute_BlockLPop (o : RedisListObject) (is_left_ : bool) (count_ : Z)
    (r : RedisListResult) : RedisListResult * CommandExecuteState :=
  if decide (list_object_ o = []) then (lr_set_ret 0 r, NoChange)
  else
    let cnt := Z.min count_ (list_size o) in
    let elements := collect_while (fun i => i <? cnt) 0
                      (if is_left_ then list_object_ o else reverse (list_object_ o)) in
    (lr_set_result (LRStrings elements) (lr_set_ret (zlen elements) r),
     removal_state cnt (list_size o)).

(** What SORT loads from the list. *)
Definition Execute_SortableLoad_list (o : RedisListObject) : RedisObjectType * list bytes :=
  (TyList, es_view <$> list_object_ o).

(** ** Mutating: the [Commit] methods

    A commit that stores strings of the command also returns what it leaves in
    the command: moved strings are empty afterwards. *)

Fixpoint linsert_at (is_before : bool) (pivot e : EloqString) (l : list EloqString)
    : list EloqString :=
  match l with
  | [] => [e]
  | x :: l' =>
      if es_eqb x pivot then (if is_before then e :: x :: l' else x :: e :: l')
      else x :: linsert_at is_before pivot e l'
  end.

Definition CommitLInsert (o : RedisListObject) (is_before : bool)
    (pivot element : EloqString) : RedisListObject * EloqString :=
  let '(stored, rem) := es_take false element in
  (mkList (linsert_at is_before pivot stored (list_object_ o))
          (u64 (list_serialized_length_ o + (4 + es_length element))), rem).

(** [None]: the iterator was advanced to or past the end. *)
Definition CommitLSet (o : RedisListObject) (index : Z) (element : EloqString)
    : option (RedisListObject * EloqString) :=
  let index := if index <? 0 then (ConvertListIndex o index).1 else index in
  match list_object_ o !! Z.to_nat index with
  | Some old =>
      let '(stored, rem) := es_take false element in
      Some (mkList (<[Z.to_nat index := stored]> (list_object_ o))
              (u64 (list_serialized_length_ o - es_length old + es_length element)), rem)
  | None => None
  end.

Fixpoint CommitRPush (o : RedisListObject) (elements : list EloqString)
    : RedisListObject * list EloqString :=
  match elements with
  | [] => (o, [])
  | element :: l =>
      let '(stored, rem) := es_take false element in
      let o := mkList (list_object_ o ++ [stored])
                 (u64 (list_serialized_length_ o + (4 + es_length element))) in
      let '(o, rems) := CommitRPush o l in (o, rem :: rems)
  end.

Fixpoint CommitLPush (o : RedisListObject) (elements : list EloqString)
    : RedisListObject * list EloqString :=
  match elements with
  | [] => (o, [])
  | element :: l =>
      let '(stored, rem) := es_take false element in
      let o := mkList (stored :: list_object_ o)
                 (u64 (list_serialized_length_ o + (4 + es_length element))) in
      let '(o, rems) := CommitLPush o l in (o, rem :: rems)
  end.

(** [for (it : l) serialized_length_ -= sizeof(uint32_t) + it->Length();] *)
Fixpoint len_removed (len : Z) (l : list EloqString) : Z :=
  match l with
  | [] => len
  | e :: l' => len_removed (u64 (len - (4 + es_length e))) l'
  end.

Definition list_is_empty (o : RedisListObject) : bool := bool_decide (list_object_ o = []).

Definition CommitLPop (o : RedisListObject) (count : Z) : RedisListObject * bool :=
  let pop_num := Z.to_nat (Z.min (list_size o) (u64 count)) in
  let o := mkList (drop pop_num (list_object_ o))
             (len_removed (list_serialized_length_ o) (take pop_num (list_object_ o))) in
  (o, list_is_empty o).

Definition CommitRPop (o : RedisListObject) (count : Z) : RedisListObject * bool :=
  let pop_begin := Z.to_nat (list_size o - Z.min (u64 count) (list_size o)) in
  let o := mkList (take pop_begin (list_object_ o))
             (len_removed (list_serialized_length_ o) (drop pop_begin (list_object_ o))) in
  (o, list_is_empty o).

(** [pop_front] and [pop_back] with the length they give back. *)
Definition pop_front (o : RedisListObject) : RedisListObject :=
  match list_object_ o with
  | [] => o
  | e :: l => mkList l (u64 (list_serialized_length_ o - (4 + es_length e)))
  end.

Definition pop_back (o : RedisListObject) : RedisListObject :=
  match reverse (list_object_ o) with
  | [] => o
  | e :: l => mkList (reverse l) (u64 (list_serialized_length_ o - (4 + es_length e)))
  end.

Definition CommitLMovePop (o : RedisListObject) (is_left : bool) : RedisListObject * bool :=
  if list_is_empty o then (o, true)
  else
    let o := if is_left then pop_front o else pop_back o in
    (o, list_is_empty o).

Definition CommitLMovePush (o : RedisListObject) (is_left : bool) (element : EloqString)
    (should_not_move_string : bool) : RedisListObject * EloqString :=
  let '(stored, rem) := es_take should_not_move_string element in
  (mkList (if is_left then stored :: list_object_ o else list_object_ o ++ [stored])
          (u64 (list_serialized_length_ o + (4 + es_length element))), rem).

Definition CommitLTrim (o : RedisListObject) (start end_ : Z) : RedisListObject * bool :=
  let '(start, end_) := NormalizeLTrimRange o start end_ in
  if end_ - start + 1 <=? 0
  then (mkList [] (len_removed (list_serialized_length_ o) (list_object_ o)), true)
  else
    let o :=
      if end_ + 1 <? list_size o then
        let erase_begin := Z.to_nat (end_ + 1) in
        mkList (take erase_begin (list_object_ o))
          (len_removed (list_serialized_length_ o) (drop erase_begin (list_object_ o)))
      else o in
    let o :=
      if 0 <? start then
        let erase_end := Z.to_nat start in
        mkList (drop erase_end (list_object_ o))
          (len_removed (list_serialized_length_ o) (take erase_end (list_object_ o)))
      else o in
    (o, list_is_empty o).

(** The erasing loop from the head; [limit] is the [int] of the source. *)
Fixpoint lrem_loop (element : EloqString) (limit removed : Z) (len : Z)
    (l : list EloqString) : list EloqString * Z :=
  match l with
  | [] => ([], len)
  | e :: l' =>
      if removed <? limit then
        if es_eqb e element
        then lrem_loop element limit (removed + 1) (u64 (len - (4 + es_length e))) l'
        else let '(k, len) := lrem_loop element limit removed len l' in (e :: k, len)
      else (l, len)
  end.

(** The erasing loop of [count == 0]. *)
Fixpoint lrem_loop_all (element : EloqString) (len : Z) (l : list EloqString)
    : list EloqString * Z :=
  match l with
  | [] => ([], len)
  | e :: l' =>
      if es_eqb e element
      then lrem_loop_all element (u64 (len - (4 + es_length e))) l'
      else let '(k, len) := lrem_loop_all element len l' in (e :: k, len)
  end.

(** The backward loop walks from [end()] to [begin()], so it is the forward
    one on the reversed list. *)
Definition CommitLRem (o : RedisListObject) (count : Z) (element : EloqString)
    : RedisListObject * bool :=
  let to_be_removed_cnt := i32 (i64 (Z.abs count)) in
  let '(l, len) :=
    if 0 <? count
    then lrem_loop element to_be_removed_cnt 0 (list_serialized_length_ o) (list_object_ o)
    else if count <? 0
    then let '(l, len) := lrem_loop element to_be_removed_cnt 0
                            (list_serialized_length_ o) (reverse (list_object_ o)) in
         (reverse l, len)
    else lrem_loop_all element (list_serialized_length_ o) (list_object_ o) in
  let o := mkList l len in
  (o, list_is_empty o).

(** [for (i = 0; i < cnt; i++) pop one element;] *)
Fixpoint block_pop_loop (cnt : nat) (is_left : bool) (o : RedisListObject) : RedisListObject :=
  match cnt with
  | O => o
  | S cnt' => block_pop_loop cnt' is_left (if is_left then pop_front o else pop_back o)
  end.

(** Returns [true] when elements remain, unlike the other commits (and
    [true] on the empty list, where nothing is removed). *)
Definition CommitBlockPop (o : RedisListObject) (is_left : bool) (count : Z)
    : RedisListObject * bool :=
  if list_is_empty o then (o, true)
  else
    let cnt := u32 (list_size o) in
    let cnt := if count <? cnt then count else cnt in
    let o := block_pop_loop (Z.to_nat cnt) is_left o in
    (o, negb (list_is_empty o)).

(** ** Comparison *)

(** [operator==]; the loop starts at index 1. *)
Definition list_operator_eq (a b : RedisListObject) : bool :=
  if decide (length (list_object_ b) = length (list_object_ a))
  then forallb (fun '(x, y) => es_eqb x y)
         (zip (drop 1 (list_object_ b)) (drop 1 (list_object_ a)))
  else false.

(** ** Serialization *)

Definition list_Serialize_str (o : RedisListObject) (str : bytes) : bytes :=
  str ++ type_byte TyList ++ le_bytes 4 (list_size o)
      ++ concat ((fun e => lp_string (es_view e)) <$> list_object_ o).

Definition list_Serialize_vec (o : RedisListObject) (buf : bytes) (offset : nat)
    : option (bytes * nat) :=
  let buf := vresize (offset + Z.to_nat (list_serialized_length_ o)) buf in
  (vput (type_byte TyList) ;;w vput (le_bytes 4 (list_size o))
     ;;w vfor vput_lp (list_object_ o)) (buf, offset).

(** The loop of [Deserialize] also accumulates the length. *)
Fixpoint list_read_elems (cnt : nat) (len : Z) : Reader (list EloqString * Z) :=
  match cnt with
  | O => rret ([], len)
  | S cnt' =>
      size <-- read_u32;
      d <-- read_bytes size;
      res <-- list_read_elems cnt' (u64 (len + (4 + size)));
      rret (es_own d :: res.1, res.2)
  end.

Definition list_Deserialize : Reader RedisListObject :=
  _ <-- read_bytes 1;
  cnt <-- read_u32;
  res <-- list_read_elems (Z.to_nat cnt) (1 + 4);
  rret (mkList res.1 res.2).

(** ** The TTL variant *)

Record RedisListTTLObject := mkListTTL { listttl_base : RedisListObject; listttl_ttl_ : Z }.

(** The parameter is [const RedisListObject &&], so the list is copied. *)
Definition list_AddTTL (o : RedisListObject) (ttl : Z) : RedisListTTLObject :=
  mkListTTL (list_copy o) ttl.

Definition list_RemoveTTL (o : RedisListTTLObject) : RedisListObject := listttl_base o.

Definition listttl_SerializedLength (o : RedisListTTLObject) : Z :=
  u64 (8 + list_serialized_length_ (listttl_base o)).

Definition listttl_Serialize_str (o : RedisListTTLObject) (str : bytes) : bytes :=
  let b := listttl_base o in
  str ++ type_byte TyTTLList ++ le_bytes 8 (listttl_ttl_ o) ++ le_bytes 4 (list_size b)
      ++ concat ((fun e => lp_string (es_view e)) <$> list_object_ b).

Definition listttl_Serialize_vec (o : RedisListTTLObject) (buf : bytes) (offset : nat)
    : option (bytes * nat) :=
  let b := listttl_base o in
  let buf := vresize (offset + 8 + Z.to_nat (list_serialized_length_ b)) buf in
  (vput (type_byte TyTTLList) ;;w vput (le_bytes 8 (listttl_ttl_ o))
     ;;w vput (le_bytes 4 (list_size b)) ;;w vfor vput_lp (list_object_ b)) (buf, offset).

Definition listttl_Deserialize : Reader RedisListTTLObject :=
  _ <-- read_bytes 1;
  ttl <-- read_u64;
  cnt <-- read_u32;
  res <-- list_read_elems (Z.to_nat cnt) (1 + 4);
  rret (mkListTTL (mkList res.1 res.2) ttl).

(** ** The abstract list

    A list object stands for the list of its strings.  [list_of cs] is the
    only well-formed object that shows [cs]: every element owned, and the
    running length equal to the length of the image. *)

Definition elem_len (c : bytes) : Z := 4 + zlen c.
Definition image_len (cs : list bytes) : Z := 5 + zsum elem_len cs.

Definition list_of (cs : list bytes) : RedisListObject :=
  mkList (es_own <$> cs) (u64 (image_len cs)).

Definition list_contents (o : RedisListObject) : list bytes := es_view <$> list_object_ o.

(** The type invariant of [RedisListObject]. *)
Record list_wf (o : RedisListObject) : Prop := {
  lwf_owned : Forall es_owned (list_object_ o);
  lwf_fits : Forall es_fits (list_object_ o);
  lwf_len : list_serialized_length_ o = u64 (image_len (list_contents o))
}.

Lemma list_contents_of cs : list_contents (list_of cs) = cs.
Proof. unfold list_contents, list_of. cbn. rewrite <-list_fmap_compose. apply list_fmap_id. Qed.

Lemma list_wf_of cs : Forall fits cs -> list_wf (list_of cs).
Proof.
  intros H. split.
  - apply Forall_fmap, Forall_true. done.
  - by apply Forall_fmap.
  - by rewrite list_contents_of.
Qed.

Lemma own_views l : Forall es_owned l -> es_own <$> (es_view <$> l) = l.
Proof.
  induction 1 as [|e l He _ IH]; [done|]. cbn [fmap list_fmap].
  by rewrite IH, <-es_owned_eta.
Qed.

Lemma list_wf_canonical o :
  list_wf o -> o = list_of (list_contents o) /\ Forall fits (list_contents o).
Proof.
  intros [Ho Hf Hl]. split; [|by apply Forall_fmap].
  destruct o as [l n]. unfold list_of, list_contents in *. cbn in *.
  by rewrite own_views, Hl.
Qed.

(** Case analysis on a well-formed object: it is [list_of cs]. *)
Ltac canon_list H cs Hcs :=
  let E := fresh in
  destruct (list_wf_canonical _ H) as [E Hcs];
  rewrite E; clear E; revert Hcs; clear H;
  match goal with |- Forall _ (list_contents ?o) -> _ =>
    generalize (list_contents o); clear o; intros cs Hcs end.

Lemma list_size_of cs : list_size (list_of cs) = zlen cs.
Proof. unfold list_size, list_of. cbn. by zlen. Qed.

Lemma list_is_empty_of cs : list_is_empty (list_of cs) = bool_decide (cs = []).
Proof. unfold list_is_empty, list_of. cbn. apply bool_decide_ext. by destruct cs. Qed.

Lemma elem_len_nonneg c : 0 <= elem_len c.
Proof. unfold elem_len. pose proof (zlen_nonneg c). lia. Qed.

Lemma image_len_pos cs : 5 <= image_len cs.
Proof. unfold image_len. pose proof (zsum_nonneg elem_len cs elem_len_nonneg). lia. Qed.

(** *** Length bookkeeping *)

Lemma len_increased_sum acc l :
  Forall es_fits l ->
  u64 (len_increased acc l) = u64 (acc + zsum elem_len (es_view <$> l)).
Proof.
  intros H. revert acc. induction H as [|e l He Hl IH]; intros acc; cbn.
  - f_equal. lia.
  - rewrite IH, es_length_fits by done. wrap64. f_equal. unfold elem_len. lia.
Qed.

Lemma len_removed_sum len cs :
  Forall fits cs ->
  len_removed (u64 len) (es_own <$> cs) = u64 (len - zsum elem_len cs).
Proof.
  intros H. revert len. induction H as [|c cs Hc Hcs IH]; intros len; cbn [fmap list_fmap len_removed zsum].
  - f_equal. lia.
  - wrap64. rewrite IH, es_length_own by done. f_equal. unfold elem_len. lia.
Qed.

Lemma list_of_eq l n cs :
  l = es_own <$> cs -> n = u64 (image_len cs) -> mkList l n = list_of cs.
Proof. intros -> ->. done. Qed.

(** *** Reference semantics of the mutations *)

Fixpoint spec_insert (is_before : bool) (pivot e : bytes) (l : list bytes) : list bytes :=
  match l with
  | [] => [e]
  | x :: l' =>
      if decide (x = pivot) then (if is_before then e :: x :: l' else x :: e :: l')
      else x :: spec_insert is_before pivot e l'
  end.

(** Remove the first [k] occurrences of [x]. *)
Fixpoint spec_remove (k : nat) (x : bytes) (l : list bytes) : list bytes :=
  match k, l with
  | O, _ => l
  | _, [] => []
  | S k', y :: l' => if decide (y = x) then spec_remove k' x l' else y :: spec_remove k x l'
  end.

(** LREM as Redis documents it. *)
Definition spec_lrem (count : Z) (x : bytes) (l : list bytes) : list bytes :=
  if 0 <? count then spec_remove (Z.to_nat count) x l
  else if count <? 0 then reverse (spec_remove (Z.to_nat (- count)) x (reverse l))
  else filter (fun y => y <> x) l.

(** LTRIM as Redis documents it: keep the inclusive range, negative offsets
    counted from the end, out-of-range offsets clamped. *)
Definition spec_ltrim (start end_ : Z) (l : list bytes) : list bytes :=
  let n := zlen l in
  let s := Z.max 0 (if start <? 0 then n + start else start) in
  let e := Z.min (n - 1) (if end_ <? 0 then n + end_ else end_) in
  if e <? s then [] else take (Z.to_nat (e - s + 1)) (drop (Z.to_nat s) l).

(** *** Every commit computes the reference semantics on well-formed objects *)

Lemma CommitRPush_of cs es :
  Forall es_fits es ->
  (CommitRPush (list_of cs) es).1 = list_of (cs ++ (es_view <$> es)).
Proof.
  intros H. revert cs. induction H as [|e es He Hes IH]; intros cs; cbn [CommitRPush fmap list_fmap].
  - by rewrite app_nil_r.
  - destruct (es_take false e) as [st rem] eqn:E.
    assert (st = es_own (es_view e)) as -> by (by rewrite <-(es_take_own false e), E).
    rewrite (list_of_eq _ _ (cs ++ [es_view e])).
    + specialize (IH (cs ++ [es_view e])). rewrite <-app_assoc in IH.
      destruct (CommitRPush (list_of (cs ++ [es_view e])) es). exact IH.
    + cbn. by rewrite fmap_app.
    + cbn. wrap64. rewrite es_length_fits by done. unfold image_len.
      rewrite zsum_app. cbn. f_equal. unfold elem_len. lia.
Qed.

Lemma CommitLPush_of cs es :
  Forall es_fits es ->
  (CommitLPush (list_of cs) es).1 = list_of (reverse (es_view <$> es) ++ cs).
Proof.
  intros H. revert cs. induction H as [|e es He Hes IH]; intros cs; cbn [CommitLPush fmap list_fmap]; [done|].
  destruct (es_take false e) as [st rem] eqn:E.
  assert (st = es_own (es_view e)) as -> by (by rewrite <-(es_take_own false e), E).
  rewrite (list_of_eq _ _ (es_view e :: cs)).
  - specialize (IH (es_view e :: cs)). rewrite reverse_cons, <-app_assoc.
    destruct (CommitLPush (list_of (es_view e :: cs)) es). exact IH.
  - done.
  - cbn. wrap64. rewrite es_length_fits by done. f_equal. unfold image_len, elem_len. cbn. unfold elem_len. lia.
Qed.

Lemma image_len_app cs ds : image_len (cs ++ ds) = image_len cs + zsum elem_len ds.
Proof. unfold image_len. rewrite zsum_app. lia. Qed.

Lemma image_len_perm cs ds : cs ≡ₚ ds -> image_len cs = image_len ds.
Proof. intros H. unfold image_len. by rewrite (zsum_perm _ _ _ H). Qed.

(** Erasing a suffix, or a prefix, of a well-formed list. *)
Lemma erase_suffix n cs :
  Forall fits cs ->
  mkList (take n (es_own <$> cs))
    (len_removed (u64 (image_len cs)) (drop n (es_own <$> cs))) = list_of (take n cs).
Proof.
  intros H. apply list_of_eq; [by rewrite fmap_take|].
  rewrite <-fmap_drop, len_removed_sum by (by apply Forall_drop).
  f_equal. unfold image_len. rewrite (zsum_take_drop elem_len n cs). lia.
Qed.

Lemma erase_prefix n cs :
  Forall fits cs ->
  mkList (drop n (es_own <$> cs))
    (len_removed (u64 (image_len cs)) (take n (es_own <$> cs))) = list_of (drop n cs).
Proof.
  intros H. apply list_of_eq; [by rewrite fmap_drop|].
  rewrite <-fmap_take, len_removed_sum by (by apply Forall_take).
  f_equal. unfold image_len. rewrite (zsum_take_drop elem_len n cs). lia.
Qed.

Lemma CommitLPop_of cs count :
  Forall fits cs ->
  let n := Z.to_nat (Z.min (zlen cs) (u64 count)) in
  CommitLPop (list_of cs) count = (list_of (drop n cs), bool_decide (drop n cs = [])).
Proof.
  intros H n. unfold CommitLPop. rewrite list_size_of. fold n. cbn [list_object_ list_serialized_length_ list_of].
  by rewrite erase_prefix, list_is_empty_of.
Qed.

Lemma CommitRPop_of cs count :
  Forall fits cs ->
  let n := Z.to_nat (zlen cs - Z.min (u64 count) (zlen cs)) in
  CommitRPop (list_of cs) count = (list_of (take n cs), bool_decide (take n cs = [])).
Proof.
  intros H n. unfold CommitRPop. rewrite list_size_of. fold n. cbn [list_object_ list_serialized_length_ list_of].
  by rewrite erase_suffix, list_is_empty_of.
Qed.

Lemma pop_front_of c cs : Forall fits (c :: cs) -> pop_front (list_of (c :: cs)) = list_of cs.
Proof.
  intros [Hc _]%Forall_cons_1. unfold pop_front. cbn [list_of list_object_ fmap list_fmap list_serialized_length_].
  rewrite es_length_own by done. apply list_of_eq; [done|]. wrap64. f_equal.
  unfold image_len. cbn. unfold elem_len. lia.
Qed.

Lemma pop_back_of c cs : Forall fits (cs ++ [c]) -> pop_back (list_of (cs ++ [c])) = list_of cs.
Proof.
  intros [_ Hc]%Forall_app. rewrite Forall_singleton in Hc. unfold pop_back.
  cbn [list_of list_object_ list_serialized_length_].
  rewrite fmap_app, reverse_app. cbn [fmap list_fmap]. rewrite reverse_singleton. cbn [app].
  rewrite es_length_own by done. apply list_of_eq; [by rewrite reverse_involutive|].
  wrap64. f_equal. rewrite image_len_app. cbn. unfold elem_len. lia.
Qed.

(** Dropping one element from either end. *)
Definition spec_pop (is_left : bool) (n : nat) (l : list bytes) : list bytes :=
  if is_left then drop n l else take (length l - n) l.

Lemma pop_one_of is_left cs :
  Forall fits cs -> cs <> [] ->
  (if is_left : bool then pop_front (list_of cs) else pop_back (list_of cs))
  = list_of (spec_pop is_left 1 cs).
Proof.
  intros H Hne. destruct is_left; cbn [spec_pop].
  - destruct cs as [|c cs]; [done|]. rewrite pop_front_of by done. by rewrite skipn_cons, drop_0.
  - destruct cs as [|cs c _] using rev_ind; [done|].
    rewrite pop_back_of by done. rewrite length_app. cbn.
    by rewrite Nat.add_sub, take_app_length.
Qed.

Lemma spec_pop_fits is_left n cs : Forall fits cs -> Forall fits (spec_pop is_left n cs).
Proof. intros H. destruct is_left; cbn; [by apply Forall_drop|by apply Forall_take]. Qed.

Lemma length_spec_pop is_left n cs : length (spec_pop is_left n cs) = (length cs - n)%nat.
Proof. destruct is_left; cbn; [by rewrite length_drop|rewrite length_take; lia]. Qed.

Lemma spec_pop_S is_left n cs : spec_pop is_left n (spec_pop is_left 1 cs) = spec_pop is_left (S n) cs.
Proof.
  destruct is_left; cbn [spec_pop].
  - by rewrite drop_drop.
  - rewrite length_take, take_take. f_equal. lia.
Qed.

Lemma CommitLMovePop_of cs is_left :
  Forall fits cs -> cs <> [] ->
  CommitLMovePop (list_of cs) is_left
  = (list_of (spec_pop is_left 1 cs), bool_decide (spec_pop is_left 1 cs = [])).
Proof.
  intros H Hne. unfold CommitLMovePop. rewrite list_is_empty_of, bool_decide_false by done.
  rewrite pop_one_of by done. by rewrite list_is_empty_of.
Qed.

Lemma block_pop_loop_of n is_left cs :
  Forall fits cs -> (n <= length cs)%nat ->
  block_pop_loop n is_left (list_of cs) = list_of (spec_pop is_left n cs).
Proof.
  revert cs. induction n as [|n IH]; intros cs H Hn; cbn [block_pop_loop].
  - destruct is_left; cbn [spec_pop]; [by rewrite drop_0|]. rewrite take_ge by lia. done.
  - rewrite pop_one_of by (done || (intros ->; cbn in Hn; lia)).
    rewrite IH, spec_pop_S; [done|by apply spec_pop_fits|].
    rewrite length_spec_pop. lia.
Qed.

Lemma CommitBlockPop_of cs is_left count :
  Forall fits cs -> cs <> [] -> is_u32 count -> is_u32 (zlen cs) ->
  let n := Z.to_nat (Z.min count (zlen cs)) in
  CommitBlockPop (list_of cs) is_left count
  = (list_of (spec_pop is_left n cs), negb (bool_decide (spec_pop is_left n cs = []))).
Proof.
  intros H Hne Hc Hs n. unfold CommitBlockPop.
  rewrite list_is_empty_of, bool_decide_false by done.
  rewrite list_size_of, (u32_id (zlen cs)) by done.
  replace (if count <? zlen cs then count else zlen cs) with (Z.min count (zlen cs))
    by (destruct (Z.ltb_spec count (zlen cs)); lia).
  fold n. rewrite block_pop_loop_of; [by rewrite list_is_empty_of|done|].
  unfold n, zlen. lia.
Qed.

Lemma CommitLMovePush_of cs is_left e keep :
  es_fits e ->
  (CommitLMovePush (list_of cs) is_left e keep).1
  = list_of (if is_left then es_view e :: cs else cs ++ [es_view e]).
Proof.
  intros He. unfold CommitLMovePush. destruct (es_take keep e) as [st rem] eqn:E.
  assert (st = es_own (es_view e)) as -> by (by rewrite <-(es_take_own keep e), E).
  cbn [fst list_of list_object_ list_serialized_length_]. apply list_of_eq.
  - destruct is_left; [done|]. by rewrite fmap_app.
  - rewrite es_length_fits by done. wrap64. f_equal.
    destruct is_left; [unfold image_len; cbn; unfold elem_len; lia|].
    rewrite image_len_app. cbn. unfold elem_len. lia.
Qed.

Lemma linsert_at_own before p e cs :
  linsert_at before p (es_own e) (es_own <$> cs) = es_own <$> spec_insert before (es_view p) e cs.
Proof.
  induction cs as [|c cs IH]; [done|]. cbn [fmap list_fmap linsert_at spec_insert].
  unfold es_eqb. cbn [es_view es_own].
  case_decide as Hd.
  - rewrite bool_decide_true by done. by destruct before.
  - rewrite bool_decide_false by done. cbn [fmap list_fmap]. by rewrite <-IH.
Qed.

Lemma spec_insert_perm before p e cs : spec_insert before p e cs ≡ₚ e :: cs.
Proof.
  induction cs as [|c cs IH]; [done|]. cbn [spec_insert].
  case_decide; [destruct before; [done|constructor]|].
  rewrite IH. constructor.
Qed.

Lemma CommitLInsert_of cs before p e :
  es_fits e ->
  (CommitLInsert (list_of cs) before p e).1
  = list_of (spec_insert before (es_view p) (es_view e) cs).
Proof.
  intros He. unfold CommitLInsert. destruct (es_take false e) as [st rem] eqn:E.
  assert (st = es_own (es_view e)) as -> by (by rewrite <-(es_take_own false e), E).
  cbn [fst list_of list_object_ list_serialized_length_]. apply list_of_eq.
  - apply linsert_at_own.
  - rewrite es_length_fits by done. wrap64. f_equal.
    rewrite (image_len_perm _ _ (spec_insert_perm _ _ _ _)).
    unfold image_len. cbn. unfold elem_len. lia.
Qed.

(** The position a (possibly negative) index denotes; negative indexes before
    the head are clamped to it. *)
Definition spec_index (n : Z) (index : Z) : Z :=
  if index <? 0 then Z.max 0 (n + index) else index.

Lemma ConvertListIndex_spec o index :
  (ConvertListIndex o index).1 = spec_index (list_size o) index.
Proof.
  unfold ConvertListIndex, spec_index.
  destruct (Z.ltb_spec index 0); [|done].
  destruct (Z.ltb_spec (list_size o + index) 0); cbn; lia.
Qed.

Lemma zsum_insert {A} (f : A -> Z) i x y (l : list A) :
  l !! i = Some y -> zsum f (<[i := x]> l) = zsum f l - f y + f x.
Proof.
  revert i. induction l as [|z l IH]; intros [|i] Hl; simplify_eq/=; [lia|].
  change (<[S i := x]> (z :: l)) with (z :: <[i := x]> l). cbn [zsum].
  rewrite (IH i) by done. lia.
Qed.

Lemma CommitLSet_of cs index e :
  Forall fits cs -> es_fits e ->
  0 <= spec_index (zlen cs) index < zlen cs ->
  exists rem, CommitLSet (list_of cs) index e
  = Some (list_of (<[Z.to_nat (spec_index (zlen cs) index) := es_view e]> cs), rem).
Proof.
  intros H He Hi. unfold CommitLSet.
  replace (if index <? 0 then (ConvertListIndex (list_of cs) index).1 else index)
    with (spec_index (zlen cs) index); last first.
  { rewrite ConvertListIndex_spec, list_size_of. unfold spec_index.
    by destruct (Z.ltb_spec index 0). }
  set (i := Z.to_nat _). cbn [list_of list_object_ list_serialized_length_].
  rewrite list_lookup_fmap.
  destruct (cs !! i) as [old|] eqn:Hold; last first.
  { apply lookup_ge_None in Hold. unfold i, zlen in *. lia. }
  cbn [fmap option_fmap option_map].
  destruct (es_take false e) as [st rem] eqn:E. exists rem.
  assert (st = es_own (es_view e)) as -> by (by rewrite <-(es_take_own false e), E).
  do 2 f_equal. apply list_of_eq; [by rewrite list_fmap_insert|].
  rewrite es_length_own by (by eapply Forall_lookup_1).
  rewrite (es_length_fits e) by done.
  replace (u64 (image_len cs) - zlen old + zlen (es_view e))
    with (u64 (image_len cs) - (zlen old - zlen (es_view e))) by lia.
  wrap64. f_equal. unfold image_len. rewrite (zsum_insert _ _ _ old) by done.
  unfold elem_len. lia.
Qed.

(** *** LTRIM *)

(** Normalizing twice is normalizing once, so the range the owner stores in the
    command and the range a replica receives trim alike. *)
Lemma NormalizeLTrimRange_bounds o start end_ s e :
  NormalizeLTrimRange o start end_ = (s, e) ->
  0 <= s <= Z.max 1 (list_size o) /\ -1 <= e < Z.max 1 (list_size o).
Proof.
  unfold NormalizeLTrimRange. pose proof (zlen_nonneg (list_object_ o)).
  change (zlen (list_object_ o)) with (list_size o) in *.
  repeat match goal with |- context [?a <? ?b] => destruct (Z.ltb_spec a b) end;
  repeat match goal with |- context [?a <=? ?b] => destruct (Z.leb_spec a b) end;
  intros [= <- <-]; lia.
Qed.

Lemma ltrim_range_spec (cs : list bytes) start end_ s e :
  NormalizeLTrimRange (list_of cs) start end_ = (s, e) ->
  spec_ltrim start end_ cs
  = if e - s + 1 <=? 0 then [] else take (Z.to_nat (e - s + 1)) (drop (Z.to_nat s) cs).
Proof.
  unfold NormalizeLTrimRange, spec_ltrim. rewrite list_size_of.
  pose proof (zlen_nonneg cs). intros E.
  repeat match goal with
  | |- context [?a <? ?b] => destruct (Z.ltb_spec a b)
  | |- context [?a <=? ?b] => destruct (Z.leb_spec a b)
  | H : context [?a <? ?b] |- _ => destruct (Z.ltb_spec a b)
  | H : context [?a <=? ?b] |- _ => destruct (Z.leb_spec a b)
  end; simplify_eq; try lia; try done;
  solve [do 2 f_equal; lia | f_equal; [lia | f_equal; lia]].
Qed.

Lemma NormalizeLTrimRange_idem o start end_ s e :
  0 < list_size o ->
  NormalizeLTrimRange o start end_ = (s, e) -> NormalizeLTrimRange o s e = (s, e).
Proof.
  unfold NormalizeLTrimRange. intros Hs E.
  repeat match goal with
  | |- context [?a <? ?b] => destruct (Z.ltb_spec a b)
  | |- context [?a <=? ?b] => destruct (Z.leb_spec a b)
  | H : context [?a <? ?b] |- _ => destruct (Z.ltb_spec a b)
  | H : context [?a <=? ?b] |- _ => destruct (Z.leb_spec a b)
  end; simplify_eq; try lia; try (f_equal; lia).
Qed.

Lemma take_full {A} n (l : list A) : zlen l <= Z.of_nat n -> take n l = l.
Proof. intros H. apply take_ge. unfold zlen in H. lia. Qed.

Lemma CommitLTrim_of cs start end_ :
  Forall fits cs ->
  CommitLTrim (list_of cs) start end_
  = (list_of (spec_ltrim start end_ cs), bool_decide (spec_ltrim start end_ cs = [])).
Proof.
  intros H. unfold CommitLTrim.
  destruct (NormalizeLTrimRange _ _ _) as [s e] eqn:E.
  pose proof (NormalizeLTrimRange_bounds _ _ _ _ _ E) as [Hs He].
  rewrite (ltrim_range_spec _ _ _ _ _ E). clear E. rewrite list_size_of in *.
  destruct (Z.leb_spec (e - s + 1) 0) as [Hr|Hr].
  - rewrite bool_decide_true by done. f_equal. apply list_of_eq; [done|]. cbn.
    rewrite len_removed_sum by done. f_equal. unfold image_len. cbn. lia.
  - set (o1 := if e + 1 <? zlen cs then _ else _).
    assert (o1 = list_of (take (Z.to_nat (e + 1)) cs)) as ->.
    { unfold o1. destruct (Z.ltb_spec (e + 1) (zlen cs)); [by apply erase_suffix|].
      rewrite take_full; [done|lia]. }
    set (o2 := if 0 <? s then _ else _).
    assert (o2 = list_of (drop (Z.to_nat s) (take (Z.to_nat (e + 1)) cs))) as ->.
    { unfold o2. destruct (Z.ltb_spec 0 s); [by apply erase_prefix, Forall_take|].
      by replace (Z.to_nat s) with 0%nat by lia. }
    rewrite list_is_empty_of, skipn_firstn_comm.
    by replace (Z.to_nat (e + 1) - Z.to_nat s)%nat with (Z.to_nat (e - s + 1)) by lia.
Qed.

Lemma spec_ltrim_normalized cs start end_ s e :
  NormalizeLTrimRange (list_of cs) start end_ = (s, e) ->
  spec_ltrim s e cs = spec_ltrim start end_ cs.
Proof.
  intros E. destruct (decide (cs = [])) as [->|Hne].
  { unfold spec_ltrim. rewrite !drop_nil, !take_nil. by repeat case_match. }
  assert (0 < list_size (list_of cs)) as Hs.
  { rewrite list_size_of. destruct cs; [done|]. zlen. pose proof (zlen_nonneg cs). lia. }
  rewrite (ltrim_range_spec _ _ _ _ _ E).
  by rewrite (ltrim_range_spec _ _ _ _ _ (NormalizeLTrimRange_idem _ _ _ _ _ Hs E)).
Qed.

Lemma spec_ltrim_fits cs start end_ : Forall fits cs -> Forall fits (spec_ltrim start end_ cs).
Proof. intros H. unfold spec_ltrim. case_match; [done|]. by apply Forall_take, Forall_drop. Qed.

(** *** LREM *)

Lemma es_eqb_own c e : es_eqb (es_own c) e = bool_decide (c = es_view e).
Proof. done. Qed.

Lemma lrem_loop_of e limit removed len cs :
  Forall fits cs ->
  let kept := spec_remove (Z.to_nat (limit - removed)) (es_view e) cs in
  lrem_loop e limit removed (u64 len) (es_own <$> cs)
  = (es_own <$> kept, u64 (len - (zsum elem_len cs - zsum elem_len kept))).
Proof.
  intros H. revert removed len. induction H as [|c cs Hc Hcs IH]; intros removed len; cbn zeta.
  - cbn. destruct (Z.to_nat _); cbn; do 2 f_equal; lia.
  - cbn [fmap list_fmap lrem_loop]. rewrite es_eqb_own.
    destruct (Z.ltb_spec removed limit) as [Hr|Hr].
    + replace (Z.to_nat (limit - removed)) with (S (Z.to_nat (limit - (removed + 1)))) by lia.
      cbn [spec_remove]. case_decide as Hd.
      * rewrite bool_decide_true by done. wrap64.
        rewrite IH, es_length_own by done. cbn [zsum]. do 2 f_equal. unfold elem_len. lia.
      * rewrite bool_decide_false by done. rewrite IH.
        replace (Z.to_nat (limit - removed)) with (S (Z.to_nat (limit - (removed + 1)))) by lia.
        cbn [fmap list_fmap zsum]. do 2 f_equal. lia.
    + replace (Z.to_nat (limit - removed)) with 0%nat by lia. cbn. do 2 f_equal. lia.
Qed.

Lemma lrem_loop_all_of e len cs :
  Forall fits cs ->
  let kept := filter (fun y => y <> es_view e) cs in
  lrem_loop_all e (u64 len) (es_own <$> cs)
  = (es_own <$> kept, u64 (len - (zsum elem_len cs - zsum elem_len kept))).
Proof.
  intros H. revert len. induction H as [|c cs Hc Hcs IH]; intros len; cbn zeta.
  - cbn. do 2 f_equal. lia.
  - cbn [fmap list_fmap lrem_loop_all]. rewrite es_eqb_own, filter_cons.
    case_decide as Hd.
    + rewrite bool_decide_false by done. rewrite IH.
      cbn [fmap list_fmap zsum]. do 2 f_equal. lia.
    + rewrite bool_decide_true by done. wrap64.
      rewrite IH, es_length_own by done. cbn [zsum]. do 2 f_equal. unfold elem_len. lia.
Qed.

Lemma lrem_count_of e limit removed cs :
  lrem_count e limit removed (es_own <$> cs)
  = removed + (zlen cs - zlen (spec_remove (Z.to_nat (limit - removed)) (es_view e) cs)).
Proof.
  revert removed. induction cs as [|c cs IH]; intros removed.
  - cbn. destruct (Z.to_nat _); cbn; lia.
  - cbn [fmap list_fmap lrem_count]. rewrite es_eqb_own.
    destruct (Z.ltb_spec removed limit) as [Hr|Hr].
    + rewrite IH. replace (Z.to_nat (limit - removed)) with (S (Z.to_nat (limit - (removed + 1)))) by lia.
      cbn [spec_remove]. case_decide as Hd.
      * rewrite bool_decide_true by done. zlen. lia.
      * rewrite bool_decide_false by done.
        replace (Z.to_nat (limit - removed)) with (S (Z.to_nat (limit - (removed + 1)))) by lia.
        zlen. lia.
    + replace (Z.to_nat (limit - removed)) with 0%nat by lia. cbn [spec_remove]. lia.
Qed.

Lemma lrem_count_all_of e removed cs :
  lrem_count_all e removed (es_own <$> cs)
  = removed + (zlen cs - zlen (filter (fun y => y <> es_view e) cs)).
Proof.
  revert removed. induction cs as [|c cs IH]; intros removed; [cbn; lia|].
  cbn [fmap list_fmap lrem_count_all]. rewrite es_eqb_own, IH, filter_cons.
  case_decide as Hd.
  - rewrite bool_decide_false by done. zlen. lia.
  - rewrite bool_decide_true by done. zlen. lia.
Qed.

(** [std::abs(count)] narrowed to [int], as the commit computes it. *)
Definition lrem_limit_exact (count : Z) : Prop := - INT32_MAX <= count <= INT32_MAX.

Lemma lrem_limits count :
  lrem_limit_exact count -> i64 (Z.abs count) = Z.abs count /\ i32 (i64 (Z.abs count)) = Z.abs count.
Proof.
  unfold lrem_limit_exact. mach. intros H.
  assert (i64 (Z.abs count) = Z.abs count) as -> by (apply i64_id; mach; lia).
  split; [done|]. apply i32_id. mach. lia.
Qed.

Lemma zsum_spec_remove_reverse k x cs :
  zsum elem_len (reverse (spec_remove k x (reverse cs))) = zsum elem_len (spec_remove k x (reverse cs)).
Proof. apply zsum_reverse. Qed.

Lemma CommitLRem_of cs count e :
  Forall fits cs -> lrem_limit_exact count ->
  CommitLRem (list_of cs) count e
  = (list_of (spec_lrem count (es_view e) cs), bool_decide (spec_lrem count (es_view e) cs = [])).
Proof.
  intros H Hc. unfold CommitLRem, spec_lrem. destruct (lrem_limits count Hc) as [_ ->].
  cbn [list_of list_object_ list_serialized_length_].
  destruct (Z.ltb_spec 0 count) as [Hp|Hp]; [|destruct (Z.ltb_spec count 0) as [Hn|Hn]].
  - rewrite lrem_loop_of, Z.sub_0_r, Z.abs_eq by (done || lia).
    rewrite (list_of_eq _ _ (spec_remove (Z.to_nat count) (es_view e) cs));
      [by rewrite list_is_empty_of|done|f_equal; unfold image_len; lia].
  - rewrite <-fmap_reverse, lrem_loop_of, Z.sub_0_r, Z.abs_neq by (try apply Forall_reverse; done || lia).
    rewrite <-fmap_reverse, zsum_reverse.
    rewrite (list_of_eq _ _ (reverse (spec_remove (Z.to_nat (- count)) (es_view e) (reverse cs))));
      [by rewrite list_is_empty_of|done|].
    f_equal. unfold image_len. rewrite zsum_reverse. lia.
  - rewrite lrem_loop_all_of by done.
    rewrite (list_of_eq _ _ (filter (fun y => y <> es_view e) cs));
      [by rewrite list_is_empty_of|done|f_equal; unfold image_len; lia].
Qed.

Lemma spec_remove_fits k x cs : Forall fits cs -> Forall fits (spec_remove k x cs).
Proof.
  intros H. revert k. induction H as [|c cs Hc Hcs IH]; intros [|k]; cbn; auto.
  case_decide; auto.
Qed.

Lemma spec_lrem_fits count x cs : Forall fits cs -> Forall fits (spec_lrem count x cs).
Proof.
  intros H. unfold spec_lrem. repeat case_match.
  - by apply spec_remove_fits.
  - by apply Forall_reverse, spec_remove_fits, Forall_reverse.
  - rewrite list.Forall_forall in *. intros y [_ Hy]%list_elem_of_filter. auto.
Qed.

(** The number of removed elements that LREM reports. *)
Lemma Execute_LRem_of cs count e r :
  is_i64 count -> count <> INT64_MIN ->
  Execute_LRem (list_of cs) count e r
  = let n := zlen cs - zlen (spec_lrem count (es_view e) cs) in
    (lr_set_ret n r, removal_state n (zlen cs)).
Proof.
  intros H Hm. unfold Execute_LRem, spec_lrem. rewrite list_size_of.
  assert (i64 (Z.abs count) = Z.abs count) as -> by (apply i64_id; mach; lia).
  cbn [list_of list_object_].
  destruct (Z.ltb_spec count 0) as [Hn|Hn]; destruct (Z.ltb_spec 0 count) as [Hp|Hp]; try lia.
  - rewrite <-fmap_reverse, lrem_count_of. zlen. rewrite Z.sub_0_r, Z.abs_neq by lia. done.
  - rewrite lrem_count_of, Z.sub_0_r, Z.abs_eq by lia. done.
  - rewrite lrem_count_all_of. done.
Qed.

(** ** Serialization *)

(** The image of a list after its type byte (and TTL). *)
Definition list_payload (cs : list bytes) : bytes :=
  le_bytes 4 (zlen cs) ++ concat (lp_string <$> cs).

Definition list_image (cs : list bytes) : bytes := type_byte TyList ++ list_payload cs.
Definition listttl_image (cs : list bytes) (ttl : Z) : bytes :=
  type_byte TyTTLList ++ le_bytes 8 ttl ++ list_payload cs.

Lemma zlen_concat_lp cs : Forall fits cs -> zlen (concat (lp_string <$> cs)) = zsum elem_len cs.
Proof.
  induction 1 as [|c cs Hc _ IH]; [done|]. cbn [fmap list_fmap concat zsum].
  zlen. rewrite zlen_lp_string, IH by done. done.
Qed.

Lemma zlen_list_payload cs : Forall fits cs -> zlen (list_payload cs) = image_len cs - 1.
Proof. intros H. unfold list_payload. zlen. rewrite zlen_concat_lp by done. unfold image_len. lia. Qed.

Lemma zlen_list_image cs : Forall fits cs -> zlen (list_image cs) = image_len cs.
Proof. intros H. unfold list_image. zlen. rewrite zlen_list_payload by done. lia. Qed.

(** An image within [MAX_OBJECT_SIZE] fits every length field. *)
Lemma image_small_count cs : image_len cs <= MAX_OBJECT_SIZE -> is_u32 (zlen cs).
Proof.
  intros H. assert (4 * zlen cs <= zsum elem_len cs) as Hs.
  { clear H. induction cs as [|c cs IH]; [done|]. zlen. cbn [zsum]. unfold elem_len at 1.
    pose proof (zlen_nonneg c). lia. }
  unfold image_len, MAX_OBJECT_SIZE in H. pose proof (zlen_nonneg cs). mach. lia.
Qed.

Lemma image_small_fits cs : image_len cs <= MAX_OBJECT_SIZE -> Forall fits cs.
Proof.
  intros H. apply list.Forall_forall. intros c Hc.
  pose proof (zsum_elem_le elem_len cs c elem_len_nonneg Hc) as Hle.
  unfold image_len, MAX_OBJECT_SIZE, elem_len in *. pose proof (zlen_nonneg c).
  unfold fits. mach. lia.
Qed.

Lemma list_Serialize_str_of cs str : list_Serialize_str (list_of cs) str = str ++ list_image cs.
Proof.
  unfold list_Serialize_str, list_image, list_payload. rewrite list_size_of.
  cbn [list_of list_object_]. by rewrite <-list_fmap_compose.
Qed.

Lemma listttl_Serialize_str_of cs ttl str :
  listttl_Serialize_str (mkListTTL (list_of cs) ttl) str = str ++ listttl_image cs ttl.
Proof.
  unfold listttl_Serialize_str, listttl_image, list_payload.
  cbn [listttl_base listttl_ttl_]. rewrite list_size_of.
  cbn [list_of list_object_]. by rewrite <-list_fmap_compose.
Qed.

Lemma Writes_vfor_lp cs :
  Forall fits cs -> Writes (vfor vput_lp (es_own <$> cs)) (concat (lp_string <$> cs)).
Proof.
  induction 1 as [|c cs Hc _ IH]; cbn [fmap list_fmap vfor concat]; [apply Writes_skip|].
  by apply Writes_seq; [apply Writes_vput_lp|].
Qed.

Lemma to_nat_zlen {A} (l : list A) : Z.to_nat (zlen l) = length l.
Proof. unfold zlen. lia. Qed.

Lemma list_Serialize_vec_of cs buf off :
  Forall fits cs -> image_len cs < 2 ^ 64 -> (off <= length buf)%nat ->
  list_Serialize_vec (list_of cs) buf off
  = Some (take off buf ++ list_image cs, (off + length (list_image cs))%nat).
Proof.
  intros H Hl Ho. unfold list_Serialize_vec. rewrite list_size_of.
  cbn [list_of list_object_ list_serialized_length_].
  rewrite u64_id by (pose proof (image_len_pos cs); mach; lia).
  rewrite <-(zlen_list_image cs), to_nat_zlen by done.
  apply vresize_write; [|done]. unfold list_image, list_payload.
  auto using Writes_vfor_lp with codec.
Qed.

Lemma zlen_listttl_image cs ttl : Forall fits cs -> zlen (listttl_image cs ttl) = 8 + image_len cs.
Proof. intros H. unfold listttl_image. zlen. rewrite zlen_list_payload by done. lia. Qed.

Lemma listttl_Serialize_vec_of cs ttl buf off :
  Forall fits cs -> image_len cs < 2 ^ 64 -> (off <= length buf)%nat ->
  listttl_Serialize_vec (mkListTTL (list_of cs) ttl) buf off
  = Some (take off buf ++ listttl_image cs ttl, (off + length (listttl_image cs ttl))%nat).
Proof.
  intros H Hl Ho. unfold listttl_Serialize_vec. cbn [listttl_base listttl_ttl_].
  rewrite list_size_of. cbn [list_of list_object_ list_serialized_length_].
  rewrite u64_id by (pose proof (image_len_pos cs); mach; lia).
  replace (off + 8 + Z.to_nat (image_len cs))%nat with (off + length (listttl_image cs ttl))%nat; last first.
  { rewrite <-to_nat_zlen, zlen_listttl_image by done. pose proof (image_len_pos cs). lia. }
  apply vresize_write; [|done]. unfold listttl_image, list_payload.
  auto 6 using Writes_vfor_lp with codec.
Qed.

Lemma list_read_elems_of cs len :
  Forall fits cs ->
  Reads (list_read_elems (length cs) (u64 len)) (concat (lp_string <$> cs))
    (es_own <$> cs, u64 (len + zsum elem_len cs)).
Proof.
  intros H. revert len. induction H as [|c cs Hc Hcs IH]; intros len; cbn [length list_read_elems fmap list_fmap concat].
  - rewrite Z.add_0_r. apply Reads_ret.
  - rewrite lp_string_small, <-app_assoc by done.
    eapply Reads_bind; [by apply Reads_u32|].
    eapply Reads_bind; [by apply Reads_bytes|].
    rewrite u64_add_l. eapply Reads_bind_ret; [apply IH|].
    cbn. do 3 f_equal. unfold elem_len. lia.
Qed.

Lemma list_Deserialize_of cs :
  Forall fits cs -> is_u32 (zlen cs) -> Reads list_Deserialize (list_image cs) (list_of cs).
Proof.
  intros H Hn. unfold list_Deserialize, list_image, list_payload.
  eapply Reads_bind; [by apply Reads_bytes|].
  eapply Reads_bind; [by apply Reads_u32|].
  rewrite to_nat_zlen. change (1 + 4) with (u64 5).
  eapply Reads_bind_ret; [by apply list_read_elems_of|]. done.
Qed.

Lemma listttl_Deserialize_of cs ttl :
  Forall fits cs -> is_u32 (zlen cs) -> is_u64 ttl ->
  Reads listttl_Deserialize (listttl_image cs ttl) (mkListTTL (list_of cs) ttl).
Proof.
  intros H Hn Ht. unfold listttl_Deserialize, listttl_image, list_payload.
  eapply Reads_bind; [by apply Reads_bytes|].
  eapply Reads_bind; [by apply Reads_u64|].
  eapply Reads_bind; [by apply Reads_u32|].
  rewrite to_nat_zlen. change (1 + 4) with (u64 5).
  eapply Reads_bind_ret; [by apply list_read_elems_of|]. done.
Qed.

(** ** What the read-only and deciding methods report *)

Lemma collect_while_lt n k cs :
  collect_while (fun i => i <? n) k (es_own <$> cs) = take (Z.to_nat (n - k)) cs.
Proof.
  revert k. induction cs as [|c cs IH]; intros k; cbn [fmap list_fmap collect_while].
  - by rewrite take_nil.
  - destruct (Z.ltb_spec k n).
    + replace (Z.to_nat (n - k)) with (S (Z.to_nat (n - (k + 1)))) by lia.
      cbn [take]. by rewrite IH.
    + replace (Z.to_nat (n - k)) with 0%nat by lia. done.
Qed.

Lemma collect_while_le n k cs :
  collect_while (fun i => i <=? n) k (es_own <$> cs) = take (Z.to_nat (n - k + 1)) cs.
Proof.
  revert k. induction cs as [|c cs IH]; intros k; cbn [fmap list_fmap collect_while].
  - by rewrite take_nil.
  - destruct (Z.leb_spec k n).
    + replace (Z.to_nat (n - k + 1)) with (S (Z.to_nat (n - (k + 1) + 1))) by lia.
      cbn [take]. by rewrite IH.
    + replace (Z.to_nat (n - k + 1)) with 0%nat by lia. done.
Qed.

(** The elements a pop of [num] returns, in the order it returns them. *)
Definition spec_popped (from_left : bool) (num : nat) (cs : list bytes) : list bytes :=
  take num (if from_left then cs else reverse cs).

Lemma Execute_Pop_of from_left cs count r :
  let num := Z.min (u64 (if count =? -1 then 1 else count)) (zlen cs) in
  Execute_Pop from_left (list_of cs) count r
  = (lr_set_err RD_OK (lr_set_ret num
       (lr_set_result (LRStrings (spec_popped from_left (Z.to_nat num) cs)) r)),
     removal_state num (zlen cs)).
Proof.
  intros num. unfold Execute_Pop. rewrite list_size_of. fold num.
  unfold spec_popped. cbn [list_of list_object_].
  destruct from_left; [|rewrite <-fmap_reverse]; by rewrite collect_while_lt, Z.sub_0_r.
Qed.

(** A range whose end is past the tail reads as if it were clamped. *)
Lemma collect_slice cs s e s' e' :
  0 <= s -> s' = s -> e' = Z.min (zlen cs - 1) e ->
  collect_while (fun i => i <=? e) s (es_own <$> drop (Z.to_nat s) cs)
  = take (Z.to_nat (e' - s' + 1)) (drop (Z.to_nat s') cs).
Proof.
  intros Hs -> ->. rewrite collect_while_le.
  destruct (decide (e <= zlen cs - 1)); [by rewrite Z.min_r by lia|].
  rewrite !take_ge; [done|rewrite length_drop; unfold zlen in *; lia..].
Qed.

Lemma Execute_LRange_of cs start end_ r :
  lr_result_ (Execute_LRange (list_of cs) start end_ r) = LRStrings (spec_ltrim start end_ cs)
  /\ lr_err_code_ (Execute_LRange (list_of cs) start end_ r) = RD_OK.
Proof.
  unfold Execute_LRange, ConvertListIndex, spec_ltrim. rewrite list_size_of.
  pose proof (zlen_nonneg cs) as Hn.
  repeat match goal with
  | |- context [?a <? ?b] => destruct (Z.ltb_spec a b); cbn [orb]
  | |- context [?a <=? ?b] => destruct (Z.leb_spec a b); cbn [orb]
  end; (split; [|done]); cbn [lr_set_err lr_set_ret lr_set_result lr_result_ list_of list_object_];
  try lia; rewrite ?skipn_map; try done; f_equal; apply collect_slice; lia.
Qed.

(** *** LPOS *)

(** The indexes, from [k] on, at which [x] occurs. *)
Fixpoint spec_positions (x : bytes) (k : Z) (l : list bytes) : list Z :=
  match l with
  | [] => []
  | c :: l' => if decide (c = x) then k :: spec_positions x (k + 1) l'
               else spec_positions x (k + 1) l'
  end.

(** At most [count] of them, all of them when [count] is 0. *)
Definition clip (count : Z) (l : list Z) : list Z :=
  if count =? 0 then l else take (Z.to_nat count) l.

(** The matches LPOS reports: those among the [maxlen] first elements (seen
    from the end the search starts at), from the [rank]-th on, at most [count]. *)
Definition spec_lpos (x : bytes) (rank count maxlen : Z) (cs : list bytes) : list Z :=
  if rank <? 0
  then (fun i => zlen cs - 1 - i) <$>
         clip count (drop (Z.to_nat (- rank - 1))
           (spec_positions x 0 (take (Z.to_nat maxlen) (reverse cs))))
  else clip count (drop (Z.to_nat (rank - 1))
         (spec_positions x 0 (take (Z.to_nat maxlen) cs))).

Lemma lpos_forward_of e rank count maxlen index mc found cs :
  0 <= count < 2 ^ 64 -> 0 <= found -> (count = 0 \/ found < count) ->
  lpos_forward e rank count maxlen index mc found (es_own <$> cs)
  = (if count =? 0 then id else take (Z.to_nat (count - found)))
      (drop (Z.to_nat (rank - 1 - mc))
         (spec_positions (es_view e) index (take (Z.to_nat (maxlen - index)) cs))).
Proof.
  intros Hc. revert index mc found. induction cs as [|c cs IH]; intros index mc found Hf Hlt.
  { cbn. rewrite take_nil. cbn. rewrite drop_nil. case_match; by rewrite ?take_nil. }
  cbn [fmap list_fmap lpos_forward]. rewrite es_eqb_own, (u64_id count) by (mach; lia).
  destruct (Z.ltb_spec index maxlen) as [Hi|Hi]; last first.
  { replace (Z.to_nat (maxlen - index)) with 0%nat by lia. cbn. rewrite drop_nil.
    case_match; by rewrite ?take_nil. }
  replace (Z.to_nat (maxlen - index)) with (S (Z.to_nat (maxlen - (index + 1)))) by lia.
  cbn [take spec_positions]. case_decide as Hd; last first.
  { rewrite bool_decide_false by done. by rewrite IH. }
  rewrite bool_decide_true by done. destruct (Z.leb_spec rank (mc + 1)) as [Hr|Hr]; last first.
  { replace (Z.to_nat (rank - 1 - mc)) with (S (Z.to_nat (rank - 1 - (mc + 1)))) by lia.
    cbn [drop]. by rewrite IH. }
  replace (Z.to_nat (rank - 1 - mc)) with 0%nat by lia. rewrite drop_0.
  destruct (Z.eqb_spec count 0) as [->|Hc0].
  - rewrite (proj2 (Z.eqb_neq (found + 1) 0)) by lia. rewrite IH by lia.
    replace (Z.to_nat (rank - 1 - (mc + 1))) with 0%nat by lia. by rewrite drop_0.
  - replace (Z.to_nat (count - found)) with (S (Z.to_nat (count - (found + 1)))) by lia.
    cbn [take]. f_equal. destruct (Z.eqb_spec (found + 1) count).
    + replace (Z.to_nat (count - (found + 1))) with 0%nat by lia. done.
    + rewrite IH by lia. replace (Z.to_nat (rank - 1 - (mc + 1))) with 0%nat by lia.
      by rewrite drop_0.
Qed.

Lemma lpos_backward_forward e rank count maxlen size pos mc found l :
  lpos_backward e rank count maxlen size pos mc found l
  = (fun i => size - 1 - i) <$> lpos_forward e rank count maxlen (-1 - pos) mc found l.
Proof.
  revert pos mc found. induction l as [|x l IH]; intros pos mc found; [done|].
  cbn [lpos_backward lpos_forward].
  replace (- maxlen <=? pos) with (-1 - pos <? maxlen)
    by (apply Bool.eq_true_iff_eq; rewrite Z.ltb_lt, Z.leb_le; lia).
  replace (-1 - pos + 1) with (-1 - (pos - 1)) by lia.
  repeat case_match; cbn [fmap list_fmap]; rewrite ?IH; try done.
  all: f_equal; lia.
Qed.

(** The [int] the code searches within: MAXLEN, or the whole list. *)
Definition lpos_maxlen (len_ size : Z) : Z := i32 (if 0 <? len_ then len_ else size).

Lemma Execute_LPos_of cs e rank count len_ r :
  is_i64 rank -> rank <> 0 -> rank <> INT64_MIN -> -1 <= count < 2 ^ 63 ->
  let found := spec_lpos (es_view e) rank (if count =? -1 then 1 else count)
                 (lpos_maxlen len_ (zlen cs)) cs in
  Execute_LPos (list_of cs) e rank count len_ r
  = lr_set_err (if decide (found = []) then RD_NIL else RD_OK) (lr_set_result (LRInt64s found) r).
Proof.
  intros Hr Hr0 Hrm Hc found. unfold Execute_LPos. rewrite list_size_of.
  fold (lpos_maxlen len_ (zlen cs)).
  set (c := if count =? -1 then 1 else count) in *.
  assert (0 <= c < 2 ^ 64) as Hc' by (unfold c; destruct (Z.eqb_spec count (-1)); lia).
  cbn [list_of list_object_]. unfold found, spec_lpos, clip.
  set (els := if rank <? 0 then lpos_backward _ _ _ _ _ _ _ _ _ else _).
  match goal with |- context [decide (?f = [])] => assert (els = f) as -> end.
  { unfold els. destruct (Z.ltb_spec rank 0).
    - rewrite i64_id, Z.abs_neq by (mach; lia).
      rewrite lpos_backward_forward, <-fmap_reverse, lpos_forward_of by lia.
      replace (-1 - -1) with 0 by lia.
      rewrite !Z.sub_0_r. by destruct (c =? 0).
    - rewrite lpos_forward_of by lia. rewrite !Z.sub_0_r. by destruct (c =? 0). }
  by case_decide.
Qed.

Lemma list_copy_of cs : Forall fits cs -> list_copy (list_of cs) = list_of cs.
Proof.
  intros H. unfold list_copy. apply list_of_eq; [|done]. cbn [list_of list_object_].
  rewrite <-list_fmap_compose. apply list_fmap_ext. intros i c Hc.
  assert (fits c) by (by eapply Forall_lookup_1 in H).
  cbn. rewrite (es_owned_eta _ (es_clone_owned (es_own c))). by rewrite es_clone_view.
Qed.

(** ** Properties *)

(** A concrete list for the examples. *)
Definition abc : RedisListObject := list_of [[Init.Byte.x61]; [Init.Byte.x62]; [Init.Byte.x61]].

Lemma abc_wf : list_wf abc.
Proof. apply list_wf_of. concrete. Qed.

(** LTRIM keeps exactly the elements of the requested range (negative
    indexes count from the end, out-of-range ends are clamped), keeps the
    object well formed, and reports emptiness correctly. *)
Theorem ltrim_refines o start end_ :
  list_wf o ->
  let '(o', empty) := CommitLTrim o start end_ in
  list_wf o' /\ list_contents o' = spec_ltrim start end_ (list_contents o)
  /\ (empty = true <-> list_contents o' = []).
Proof.
  intros H. canon_list H cs Hcs. rewrite CommitLTrim_of by done. rewrite !list_contents_of.
  split_and!; [by apply list_wf_of, spec_ltrim_fits|done|by rewrite bool_decide_eq_true].
Qed.

Lemma ltrim_refines_witness :
  let '(o', empty) := CommitLTrim abc 1 (-1) in
  list_wf o' /\ list_contents o' = spec_ltrim 1 (-1) (list_contents abc)
  /\ (empty = true <-> list_contents o' = []).
Proof. exact (ltrim_refines abc 1 (-1) abc_wf). Defined.

(** LPOS reports the positions of the element from the requested end, from
    the RANK-th match on, at most COUNT of them (all for 0), within MAXLEN
    comparisons; nil exactly when there is none. *)
Theorem lpos_correct o e rank count len_ r :
  list_wf o -> is_i64 rank -> rank <> 0 -> rank <> INT64_MIN -> -1 <= count < 2 ^ 63 ->
  let cs := list_contents o in
  let found := spec_lpos (es_view e) rank (if count =? -1 then 1 else count)
                 (lpos_maxlen len_ (zlen cs)) cs in
  let r' := Execute_LPos o e rank count len_ r in
  lr_result_ r' = LRInt64s found /\ lr_err_code_ r' = (if decide (found = []) then RD_NIL else RD_OK).
Proof.
  intros H Hr H0 Hm Hc. canon_list H cs Hcs. rewrite list_contents_of. cbn zeta.
  by rewrite Execute_LPos_of.
Qed.

Lemma lpos_correct_witness :
  let r' := Execute_LPos abc (es_own [Init.Byte.x61]) (-1) 0 0 list_result0 in
  lr_result_ r' = LRInt64s [2; 0] /\ lr_err_code_ r' = RD_OK.
Proof.
  exact (lpos_correct abc (es_own [Init.Byte.x61]) (-1) 0 0 list_result0 abc_wf
    ltac:(concrete) ltac:(lia) ltac:(concrete) ltac:(concrete)).
Defined.

(** for a count that [int] can hold, LREM removes the elements the
    reference semantics removes and reports how many it removed. *)
Theorem lrem_agrees o count e r :
  list_wf o -> lrem_limit_exact count ->
  let '(o', empty) := CommitLRem o count e in
  list_wf o' /\ list_contents o' = spec_lrem count (es_view e) (list_contents o)
  /\ lr_ret_ (Execute_LRem o count e r).1 = zlen (list_contents o) - zlen (list_contents o')
  /\ (empty = true <-> list_contents o' = []).
Proof.
  intros H Hc. canon_list H cs Hcs. rewrite CommitLRem_of by done.
  rewrite Execute_LRem_of by (unfold lrem_limit_exact in Hc; mach; lia).
  rewrite !list_contents_of.
  split_and!; [by apply list_wf_of, spec_lrem_fits|done|done|by rewrite bool_decide_eq_true].
Qed.

Lemma lrem_agrees_witness :
  let '(o', empty) := CommitLRem abc (-1) (es_own [Init.Byte.x61]) in
  list_wf o' /\ list_contents o' = spec_lrem (-1) [Init.Byte.x61] (list_contents abc)
  /\ lr_ret_ (Execute_LRem abc (-1) (es_own [Init.Byte.x61]) list_result0).1
     = zlen (list_contents abc) - zlen (list_contents o')
  /\ (empty = true <-> list_contents o' = []).
Proof. exact (lrem_agrees abc (-1) (es_own [Init.Byte.x61]) list_result0 abc_wf ltac:(concrete)). Defined.

(** A list within the size limit is restored from its image, with and
    without a TTL; the running length is the length of the image, both
    serializers write the same bytes, and [RemoveTTL] undoes [AddTTL]. *)
Lemma list_images o ttl :
  list_wf o -> image_len (list_contents o) <= MAX_OBJECT_SIZE -> is_u64 ttl ->
  let t := list_AddTTL o ttl in
  image_law (list_serialized_length_ o) (list_Serialize_str o []) (list_Serialize_vec o)
    list_Deserialize o
  /\ image_law (listttl_SerializedLength t) (listttl_Serialize_str t []) (listttl_Serialize_vec t)
       listttl_Deserialize t
  /\ list_RemoveTTL t = o.
Proof.
  intros H. canon_list H cs Hcs. rewrite list_contents_of. intros Hs Ht. cbn zeta.
  unfold list_AddTTL. rewrite list_copy_of, list_Serialize_str_of, listttl_Serialize_str_of by done.
  pose proof (image_small_count cs Hs). unfold MAX_OBJECT_SIZE in Hs. pose proof (image_len_pos cs).
  split_and!; [split|split|done]; rewrite ?app_nil_l.
  - rewrite zlen_list_image by done. cbn. by rewrite u64_id by (mach; lia).
  - by apply list_Deserialize_of.
  - intros. apply list_Serialize_vec_of; [done|lia|done].
  - rewrite zlen_listttl_image by done. unfold listttl_SerializedLength. cbn.
    by rewrite (u64_id (image_len cs)), u64_id by (mach; lia).
  - by apply listttl_Deserialize_of.
  - intros. apply listttl_Serialize_vec_of; [done|lia|done].
Qed.

(** LRANGE returns exactly the elements LTRIM with the same arguments
    would keep. *)
Theorem lrange_correct o start end_ r :
  list_wf o ->
  let r' := Execute_LRange o start end_ r in
  lr_err_code_ r' = RD_OK
  /\ lr_result_ r' = LRStrings (list_contents (CommitLTrim o start end_).1).
Proof.
  intros H. canon_list H cs Hcs. rewrite CommitLTrim_of by done. cbn [fst].
  rewrite list_contents_of. cbn zeta. by destruct (Execute_LRange_of cs start end_ r).
Qed.

Lemma lrange_correct_witness :
  let r' := Execute_LRange abc (-2) 7 list_result0 in
  lr_err_code_ r' = RD_OK /\ lr_result_ r' = LRStrings (list_contents (CommitLTrim abc (-2) 7).1).
Proof. exact (lrange_correct abc (-2) 7 list_result0 abc_wf). Defined.

(** LPOP replies with the elements it removes, from the head on: reply and
    remaining list put together are the list before. *)
Theorem lpop_agrees o count r :
  list_wf o ->
  let '(r', st) := Execute_Pop true o count r in
  let '(o', empty) := CommitLPop o (if count =? -1 then 1 else count) in
  exists popped, lr_result_ r' = LRStrings popped
  /\ popped ++ list_contents o' = list_contents o /\ list_wf o'
  /\ zlen popped = lr_ret_ r' /\ lr_ret_ r' = Z.min (u64 (if count =? -1 then 1 else count)) (zlen (list_contents o))
  /\ (st = ModifiedToEmpty -> empty = true) /\ (st = Modified -> empty = false).
Proof.
  intros H. canon_list H cs Hcs. rewrite Execute_Pop_of, CommitLPop_of by done.
  rewrite !list_contents_of, Z.min_comm. remember (u64 (if count =? -1 then 1 else count)) as n eqn:En.
  pose proof (u64_range (if count =? -1 then 1 else count)) as [Hn _]. rewrite <-En in Hn.
  exists (spec_popped true (Z.to_nat (Z.min (zlen cs) n)) cs). unfold spec_popped.
  assert (zlen (drop (Z.to_nat (Z.min (zlen cs) n)) cs) = zlen cs - Z.min (zlen cs) n) as Hd.
  { unfold zlen. rewrite length_drop. lia. }
  pose proof (zlen_nonneg cs).
  split_and!; [done|by rewrite take_drop|by apply list_wf_of, Forall_drop| |done| |].
  - cbn. unfold zlen in *. rewrite length_take. lia.
  - unfold removal_state. destruct (_ =? 0); [done|]. destruct (Z.leb_spec (zlen cs) (Z.min (zlen cs) n)); [|done].
    intros _. apply bool_decide_eq_true, zlen_zero. lia.
  - unfold removal_state. destruct (_ =? 0); [done|]. destruct (Z.leb_spec (zlen cs) (Z.min (zlen cs) n)); [done|].
    intros _. apply bool_decide_eq_false. rewrite <-zlen_zero. lia.
Qed.

Lemma lpop_agrees_witness :
  let '(r', st) := Execute_Pop true abc (-1) list_result0 in
  let '(o', empty) := CommitLPop abc 1 in
  exists popped, lr_result_ r' = LRStrings popped
  /\ popped ++ list_contents o' = list_contents abc /\ list_wf o'
  /\ zlen popped = lr_ret_ r' /\ lr_ret_ r' = Z.min (u64 1) (zlen (list_contents abc))
  /\ (st = ModifiedToEmpty -> empty = true) /\ (st = Modified -> empty = false).
Proof. exact (lpop_agrees abc (-1) list_result0 abc_wf). Defined.

(** [operator==] never looks at the first elements: two well-formed lists
    that differ only there compare equal. *)
Theorem list_equality_ignores_head a b cs :
  fits a -> fits b -> Forall fits cs ->
  list_wf (list_of (a :: cs)) /\ list_wf (list_of (b :: cs))
  /\ list_operator_eq (list_of (a :: cs)) (list_of (b :: cs)) = true.
Proof.
  intros Ha Hb Hcs. split_and!; [apply list_wf_of; by constructor..|].
  unfold list_operator_eq. cbn [list_of list_object_ fmap list_fmap length drop].
  rewrite decide_True, drop_0 by done. induction cs as [|c cs IH]; [done|].
  cbn [fmap list_fmap zip zip_with forallb]. rewrite es_eqb_own, bool_decide_true by done.
  apply IH. by apply Forall_cons_1 in Hcs as [_ ?].
Qed.

Lemma list_equality_ignores_head_witness :
  let x := list_of [[Init.Byte.x61]; [Init.Byte.x63]] in
  let y := list_of [[Init.Byte.x62]; [Init.Byte.x63]] in
  list_wf x /\ list_wf y /\ list_operator_eq x y = true.
Proof.
  exact (list_equality_ignores_head [Init.Byte.x61] [Init.Byte.x62] [[Init.Byte.x63]]
    ltac:(concrete) ltac:(concrete) ltac:(concrete)).
Defined.
