(* ===== verification/StringObject.v ===== *)
(** * RedisStringObject

    The string object of include/redis_string_object.h and
    src/redis_string_object.cpp: one [EloqString], read and written as text, as
    a decimal counter, as an array of bits and as packed integers of arbitrary
    width.  A read or a copy that would leave its buffer, and a shift by 64, is
    [None]; the theorems show when that cannot happen. *)

From S2P Require Import Prelude Codec EloqString RedisTypes StringNum.

Record RedisStringObject := mkStr { str_obj_ : EloqString }.

Definition str_new : RedisStringObject := mkStr es_null.

Definition str_StringView (o : RedisStringObject) : bytes := es_view (str_obj_ o).

(** [std::string str(n, 0)]. *)
Definition zeros (n : Z) : bytes := replicate (Z.to_nat n) Init.Byte.x00.

(** [p[i]] with a bounds check. *)
Definition byte_at (p : bytes) (i : Z) : option byte :=
  if i <? 0 then None else p !! Z.to_nat i.

Definition str_SerializedLength (o : RedisStringObject) : Z := 1 + 4 + es_length (str_obj_ o).

Definition CheckSerializedLength (new_string_size : Z) : bool :=
  u64 (1 + 4 + new_string_size) <=? MAX_OBJECT_SIZE.

(** ** Deciding *)

(** GET and GETDEL. *)
Definition Execute_Get (o : RedisStringObject) (r : RedisStringResult) : RedisStringResult :=
  sr_set_str (str_StringView o) (sr_set_err RD_OK r).
Definition Execute_GetDel := Execute_Get.

Definition Execute_IntOp (o : RedisStringObject) (incr : Z) (r : RedisIntResult)
    : RedisIntResult * bool :=
  let sv := str_StringView o in
  match (if zlen sv =? 0 then Some 0 else string2ll sv) with
  | None => (mkIntResult RD_ERR_DIGITAL_INVALID (ir_int_val_ r), false)
  | Some old_val =>
      if ((incr <? 0) && (old_val <=? 0) && (incr <=? INT64_MIN - old_val))
         || ((0 <? incr) && (0 <=? old_val) && (INT64_MAX - old_val <=? incr))
      then (mkIntResult RD_ERR_INCR_OVERFLOW (ir_int_val_ r), false)
      else (mkIntResult RD_OK (i64 (old_val + incr)), true)
  end.

Definition Execute_StrLen (o : RedisStringObject) (r : RedisStringResult) : RedisStringResult :=
  sr_set_int (zlen (str_StringView o)) (sr_set_err RD_OK r).

(** [(c >> bit_pos) & 0x1] on a plain [char]. *)
Definition char_bit (c : byte) (bit_pos : Z) : Z := Z.land (Z.shiftr (c2z c) bit_pos) 1.

Definition Execute_GetBit (o : RedisStringObject) (offset_ : Z) (r : RedisStringResult)
    : RedisStringResult :=
  let by_pos := u64 (Z.quot offset_ 8) in
  let bit_pos := u64 (7 - Z.rem offset_ 8) in
  match str_StringView o !! Z.to_nat by_pos with
  | None => sr_set_int 0 (sr_set_err RD_OK r)
  | Some c => sr_set_int (char_bit c bit_pos) (sr_set_err RD_OK r)
  end.

(** The command keeps the converted offsets. *)
Definition GetRange_offsets (len start_ end_ : Z) : Z * Z :=
  (if start_ <? 0 then
     let start_ := len + start_ in if start_ <? 0 then 0 else start_
   else if len <? start_ then len else start_,
   if end_ <? 0 then len + end_ + 1
   else if len <=? end_ then len else end_ + 1).

Definition Execute_GetRange (o : RedisStringObject) (start_ end_ : Z)
    (r : RedisStringResult) : (Z * Z) * RedisStringResult :=
  let '(start_, end_) := GetRange_offsets (es_length (str_obj_ o)) start_ end_ in
  let r := sr_set_err RD_OK r in
  ((start_, end_),
   if start_ <? end_
   then sr_set_str (take (Z.to_nat (end_ - start_)) (drop (Z.to_nat start_) (str_StringView o))) r
   else r).

Definition Execute_SetBit (o : RedisStringObject) (offset_ : Z) (r : RedisStringResult)
    : RedisStringResult * bool :=
  let by_pos := u64 (Z.quot offset_ 8) in
  let bit_pos := u64 (7 - Z.rem offset_ 8) in
  match str_StringView o !! Z.to_nat by_pos with
  | None =>
      if CheckSerializedLength (u64 (by_pos + 1))
      then (sr_set_int 0 (sr_set_err RD_OK r), true)
      else (sr_set_err RD_ERR_OBJECT_TOO_BIG r, false)
  | Some c => (sr_set_int (char_bit c bit_pos) (sr_set_err RD_OK r), true)
  end.

Definition Execute_SetRange (o : RedisStringObject) (offset_ : Z) (value_ : EloqString)
    (r : RedisStringResult) : RedisStringResult * bool :=
  let stop := i64 (offset_ + es_length value_) in
  if stop <=? es_length (str_obj_ o)
  then (sr_set_int (es_length (str_obj_ o)) (sr_set_err RD_OK r), true)
  else if CheckSerializedLength (u64 stop)
  then (sr_set_int stop (sr_set_err RD_OK r), true)
  else (sr_set_err RD_ERR_OBJECT_TOO_BIG r, false).

(** [uint32_t + uint32_t] is computed in 32 bits. *)
Definition Execute_Append (o : RedisStringObject) (value_ : EloqString)
    (r : RedisStringResult) : RedisStringResult * bool :=
  if MAX_OBJECT_SIZE <? u64 (str_SerializedLength o + es_length value_)
  then (sr_set_err RD_ERR_OBJECT_TOO_BIG r, false)
  else (sr_set_int (u32 (es_length value_ + es_length (str_obj_ o))) (sr_set_err RD_OK r), true).

(** The range of BITCOUNT in units of [step] (bits or bytes), half open. *)
Definition BitCount_offsets (total_step start_ end_ : Z) : Z * Z :=
  (if start_ <? 0 then
     let start_offset := total_step + start_ in
     if start_offset <? 0 then 0 else start_offset
   else if total_step <? start_ then total_step else start_,
   if end_ <? 0 then end_ + total_step + 1
   else if total_step <=? end_ then total_step else end_ + 1).

(** [for (idx = ...; idx < end_offset; ++idx)], [n] iterations left. *)
Fixpoint bitcount_loop (s : bytes) (n : nat) (idx result : Z) : option Z :=
  match n with
  | O => Some result
  | S n' =>
      match byte_at s (Z.quot idx 8) with
      | None => None
      | Some c => bitcount_loop s n' (idx + 1) (result + char_bit c (7 - Z.rem idx 8))
      end
  end.

Definition Execute_BitCount (o : RedisStringObject) (by_bit : bool) (start_ end_ : Z)
    (r : RedisStringResult) : option RedisStringResult :=
  let step := if by_bit then 8 else 1 in
  let '(start_offset, end_offset) :=
    BitCount_offsets (es_length (str_obj_ o) * step) start_ end_ in
  let '(start_offset, end_offset) :=
    if by_bit then (start_offset, end_offset) else (start_offset * 8, end_offset * 8) in
  let r := sr_set_int 0 (sr_set_err RD_OK r) in
  if start_offset <? end_offset then
    match bitcount_loop (str_StringView o) (Z.to_nat (end_offset - start_offset)) start_offset 0 with
    | Some result => Some (sr_set_int result r)
    | None => None
    end
  else Some r.

(** The converted range of BITPOS, inclusive; the command keeps it. *)
Definition BitPos_offsets (len start_ end_ : Z) : Z * Z :=
  let start_ :=
    if start_ <? 0 then
      let start_ := start_ + len in if start_ <? 0 then 0 else start_
    else if len <? start_ then len else start_ in
  let end_ := if end_ <? 0 then end_ + len else end_ in
  (start_, if end_ <? start_ then start_ - 1
           else if len <=? end_ then len - 1 else end_).

(** [for (i = start_; i <= end_; i++)]: [Some None] when no bit matches. *)
Fixpoint bitpos_loop (s : bytes) (n : nat) (i bit_val_ : Z) : option (option Z) :=
  match n with
  | O => Some None
  | S n' =>
      match byte_at s (Z.shiftr i 3) with
      | None => None
      | Some c =>
          if char_bit c (7 - Z.rem i 8) =? bit_val_ then Some (Some i)
          else bitpos_loop s n' (i + 1) bit_val_
      end
  end.

Definition Execute_BitPos (o : RedisStringObject) (bit_val_ start_ end_ : Z)
    (r : RedisStringResult) : option RedisStringResult :=
  let len := i32 (u32 (Z.shiftl (es_length (str_obj_ o)) 3)) in
  let bmax := end_ =? INT64_MAX in
  let '(start_, end_) := BitPos_offsets len start_ end_ in
  match bitpos_loop (str_StringView o) (Z.to_nat (end_ - start_ + 1)) start_ bit_val_ with
  | None => None
  | Some (Some i) => Some (sr_set_int i r)
  | Some None =>
      Some (sr_set_int (if bmax && (0 <? len) && (bit_val_ =? 0) then len else -1) r)
  end.

(** ** BITFIELD *)

Inductive BitFieldOpType := BF_GET | BF_SET | BF_INCR.
Inductive BitFieldOverflow := BF_WRAP | BF_SAT | BF_FAIL.

Record BitFieldSubCommand := mkSub {
  scmd_op_type_ : BitFieldOpType;
  scmd_encoding_i_ : bool;
  scmd_encoding_bits_ : Z;
  scmd_ovf_ : BitFieldOverflow;
  scmd_offset_ : Z;
  scmd_value_ : Z
}.

Fixpoint get_bits_loop (p : bytes) (n : nat) (pos val : Z) : option Z :=
  match n with
  | O => Some val
  | S n' =>
      match byte_at p (Z.shiftr pos 3) with
      | None => None
      | Some b =>
          let bit_p := 7 - Z.land pos 7 in
          let bval := Z.land (Z.shiftr (b2z b) bit_p) 1 in
          get_bits_loop p n' (pos + 1) (i64 (Z.lor (Z.shiftl val 1) bval))
      end
  end.

Definition GetBitFieldValue (p : bytes) (offset enc_bits : Z) (bsign : bool) : option Z :=
  match get_bits_loop p (Z.to_nat enc_bits) offset 0 with
  | None => None
  | Some val =>
      Some (if bsign && negb (enc_bits =? 64)
               && negb (Z.land (u64 val) (Z.shiftl 1 (enc_bits - 1)) =? 0)
            then i64 (Z.lor (u64 val) (u64 (Z.shiftl UINT64_MAX enc_bits)))
            else val)
  end.

Fixpoint set_bits_loop (n : nat) (p : bytes) (val pos : Z) : option bytes :=
  match n with
  | O => Some p
  | S n' =>
      let bys_p := Z.shiftr pos 3 in
      let bit_p := 7 - Z.land pos 7 in
      match byte_at p bys_p with
      | None => None
      | Some b =>
          let bval := u8 (Z.shiftl (Z.land val 1) bit_p) in
          let bone := u8 (Z.lnot (Z.shiftl 1 bit_p)) in
          set_bits_loop n'
            (<[Z.to_nat bys_p := z2b (Z.lor (Z.land (b2z b) bone) bval)]> p)
            (Z.shiftr val 1) (pos - 1)
      end
  end.

Definition SetBitFieldValue (p : bytes) (val offset enc_bits : Z) : option bytes :=
  set_bits_loop (Z.to_nat enc_bits) p val (offset + enc_bits - 1).

(** The verdict and [limit], which the callers set to 0 first; [None] is the
    shift of a 64-bit value by 64. *)
Definition IsBitfieldUnoverflow (value incr enc_bits : Z) (bsign : bool)
    (owtype : BitFieldOverflow) : option (bool * Z) :=
  let bits := if bsign then 64 - enc_bits + 1 else 64 - enc_bits in
  let max := i64 (if bits =? 64 then 0 else Z.shiftr UINT64_MAX bits) in
  let min := if bsign then i64 (u64 (Z.shiftl UINT64_MAX (enc_bits - 1))) else 0 in
  let res := i64 (value + incr) in
  let sign_bit_set := negb (Z.land (u64 res) (2 ^ 63) =? 0) in
  let bovf64 :=
    if 63 <=? enc_bits then
      ((0 <? value) && (0 <? incr) && sign_bit_set)
      || ((value <? 0) && (incr <? 0) && negb sign_bit_set)
    else false in
  if negb bovf64 && (res <=? max) && (min <=? res) then Some (true, res)
  else
    match owtype with
    | BF_WRAP =>
        if enc_bits =? 64 then None
        else
          let msb := Z.shiftl 1 (enc_bits - 1) in
          let mask := u64 (Z.shiftl UINT64_MAX enc_bits) in
          let res :=
            if negb (Z.land (u64 res) msb =? 0) then i64 (Z.lor (u64 res) mask)
            else i64 (Z.land (u64 res) (u64 (Z.lnot mask))) in
          Some (true, res)
    | BF_SAT =>
        Some (true, if max <? res then max else if res <? min then min else 0)
    | BF_FAIL => Some (false, 0)
    end.

Fixpoint bitfield_end (b_len : Z) (vct : list BitFieldSubCommand) : Z :=
  match vct with
  | [] => b_len
  | scmd :: vct =>
      let l := i64 (scmd_offset_ scmd + scmd_encoding_bits_ scmd) in
      bitfield_end (if b_len <? l then l else b_len) vct
  end.

(** The scratch copy: the string, padded with zeros up to the last bit any
    subcommand names. *)
Definition bitfield_buffer (o : RedisStringObject) (vct : list BitFieldSubCommand) : bytes :=
  let len := es_length (str_obj_ o) in
  let b_len := Z.shiftr (bitfield_end 0 vct + 7) 3 in
  es_data (str_obj_ o) ++ zeros (b_len - len).

(** One subcommand of [Execute]: the buffer, the reply it pushes and whether
    it counts as an update. *)
Definition bitfield_exec1 (p : bytes) (scmd : BitFieldSubCommand)
    : option (bytes * (bool * Z) * bool) :=
  let '(mkSub op sgn bits ovf offset value) := scmd in
  match op with
  | BF_GET =>
      match GetBitFieldValue p offset bits sgn with
      | Some val => Some (p, (true, val), false)
      | None => None
      end
  | BF_SET =>
      match IsBitfieldUnoverflow value 0 bits sgn ovf with
      | Some (true, limit) =>
          match GetBitFieldValue p offset bits sgn, SetBitFieldValue p limit offset bits with
          | Some val, Some p' => Some (p', (true, val), true)
          | _, _ => None
          end
      | Some (false, _) => Some (p, (false, 0), true)
      | None => None
      end
  | BF_INCR =>
      match GetBitFieldValue p offset bits sgn with
      | Some val =>
          match IsBitfieldUnoverflow val value bits sgn ovf with
          | Some (true, limit) =>
              match SetBitFieldValue p limit offset bits with
              | Some p' => Some (p', (true, limit), true)
              | None => None
              end
          | Some (false, limit) => Some (p, (false, limit), false)
          | None => None
          end
      | None => None
      end
  end.

Fixpoint bitfield_exec_loop (p : bytes) (out : list (bool * Z)) (b_update : bool)
    (vct : list BitFieldSubCommand) : option (bytes * list (bool * Z) * bool) :=
  match vct with
  | [] => Some (p, out, b_update)
  | scmd :: vct =>
      match bitfield_exec1 p scmd with
      | Some (p, v, u) => bitfield_exec_loop p (out ++ [v]) (b_update || u) vct
      | None => None
      end
  end.

Definition Execute_BitField (o : RedisStringObject) (vct : list BitFieldSubCommand)
    (r : RedisStringResult) : option (RedisStringResult * bool) :=
  match bitfield_exec_loop (bitfield_buffer o vct) (sr_vct_int_ r) false vct with
  | Some (_, out, b_update) => Some (sr_set_vct out (sr_set_err RD_OK r), b_update)
  | None => None
  end.

(** ** Mutating *)

(** Also what the move leaves in the command. *)
Definition CommitSet (o : RedisStringObject) (val : EloqString) : RedisStringObject * EloqString :=
  let '(stored, rem) := es_take false val in (mkStr stored, rem).

(** The error branches log and leave the object alone. *)
Definition CommitIncrDecr (o : RedisStringObject) (incr : Z) : RedisStringObject :=
  let sv := str_StringView o in
  match (if zlen sv =? 0 then Some 0 else string2ll sv) with
  | None => o
  | Some old_val =>
      if ((incr <? 0) && (old_val <? 0) && (incr <? INT64_MIN - old_val))
         || ((0 <? incr) && (0 <? old_val) && (INT64_MAX - old_val <? incr))
      then o
      else mkStr (es_of_data (to_string (i64 (old_val + incr))))
  end.

(** The in-place branch writes through [Data()] and keeps the storage. *)
Definition CommitSetBit (o : RedisStringObject) (offset val : Z) : option RedisStringObject :=
  let by_pos := u64 (Z.quot offset 8) in
  let bit_pos := u64 (7 - Z.rem offset 8) in
  let c := c2z (z2b (Z.shiftl 1 bit_pos)) in
  let sv := str_StringView o in
  match sv !! Z.to_nat by_pos with
  | None =>
      match vcopy (es_data (str_obj_ o)) (zeros (u64 (by_pos + 1))) 0 with
      | None => None
      | Some str =>
          match str !! Z.to_nat by_pos with
          | None => None
          | Some x =>
              Some (mkStr (es_of_data
                (if negb (val =? 0)
                 then <[Z.to_nat by_pos := z2b (Z.lor (c2z x) c)]> str
                 else str)))
          end
      end
  | Some x =>
      let x' := z2b (if val =? 0 then Z.land (c2z x) (Z.lnot c) else Z.lor (c2z x) c) in
      Some (mkStr (ES (es_type (str_obj_ o)) (<[Z.to_nat by_pos := x']> sv)))
  end.

Definition CommitSetRange (o : RedisStringObject) (offset : Z) (val : EloqString)
    : option RedisStringObject :=
  let len := es_length (str_obj_ o) in
  let stop := i64 (offset + es_length val) in
  if len <=? stop then
    match vcopy (take (Z.to_nat (if offset <? len then offset else len)) (str_StringView o))
            (zeros stop) 0 with
    | None => None
    | Some str =>
        match vcopy (es_data val) str (Z.to_nat offset) with
        | None => None
        | Some str => Some (mkStr (es_of_data str))
        end
    end
  else
    match vcopy (es_data val) (str_StringView o) (Z.to_nat offset) with
    | None => None
    | Some sv => Some (mkStr (ES (es_type (str_obj_ o)) sv))
    end.

Definition CommitAppend (o : RedisStringObject) (val : EloqString) : option RedisStringObject :=
  let len := es_length (str_obj_ o) in
  match vcopy (es_data (str_obj_ o)) (zeros (u32 (es_length val + len))) 0 with
  | None => None
  | Some str =>
      match vcopy (es_data val) str (Z.to_nat len) with
      | None => None
      | Some str => Some (mkStr (es_of_data str))
      end
  end.

(** One subcommand of [CommitBitField]: the buffer and the [update] flag. *)
Definition bitfield_commit1 (p : bytes) (scmd : BitFieldSubCommand) : option (bytes * bool) :=
  let '(mkSub op sgn bits ovf offset value) := scmd in
  let write (v : option (bool * Z)) :=
    match v with
    | Some (true, limit) =>
        match SetBitFieldValue p limit offset bits with
        | Some p' => Some (p', true)
        | None => None
        end
    | Some (false, _) => Some (p, true)
    | None => None
    end in
  match op with
  | BF_GET => Some (p, false)
  | BF_SET => write (IsBitfieldUnoverflow value 0 bits sgn ovf)
  | BF_INCR =>
      match GetBitFieldValue p offset bits sgn with
      | Some val => write (IsBitfieldUnoverflow val value bits sgn ovf)
      | None => None
      end
  end.

Fixpoint bitfield_commit_loop (p : bytes) (update : bool) (vct : list BitFieldSubCommand)
    : option (bytes * bool) :=
  match vct with
  | [] => Some (p, update)
  | scmd :: vct =>
      match bitfield_commit1 p scmd with
      | Some (p, u) => bitfield_commit_loop p (update || u) vct
      | None => None
      end
  end.

Definition CommitBitField (o : RedisStringObject) (vct : list BitFieldSubCommand)
    : option RedisStringObject :=
  match bitfield_commit_loop (bitfield_buffer o vct) false vct with
  | Some (p, true) => Some (mkStr (es_of_data p))
  | Some (_, false) => Some o
  | None => None
  end.

(** ** Serialization *)

Definition str_Serialize_str (o : RedisStringObject) (str : bytes) : bytes :=
  str ++ type_byte TyString ++ lp_string (str_StringView o).

(** [str_view.begin() .. end()] is copied whole. *)
Definition str_Serialize_vec (o : RedisStringObject) (buf : bytes) (offset : nat)
    : option (bytes * nat) :=
  let blob_len := u32 (zlen (str_StringView o)) in
  let buf := vresize (offset + 1 + 4 + Z.to_nat blob_len) buf in
  (vput (type_byte TyString) ;;w vput (le_bytes 4 blob_len) ;;w vput (str_StringView o))
    (buf, offset).

Definition str_Deserialize : Reader RedisStringObject :=
  _ <-- read_bytes 1;
  d <-- read_lp_string;
  rret (mkStr (es_own d)).

Record RedisStringTTLObject := mkStrTTL { strttl_base : RedisStringObject; strttl_ttl_ : Z }.

(** [RedisStringTTLObject(std::move( *this ), ttl)]: the string is moved. *)
Definition str_AddTTL (o : RedisStringObject) (ttl : Z) : RedisStringTTLObject :=
  mkStrTTL (mkStr (es_move (str_obj_ o)).1) ttl.

Definition str_RemoveTTL (o : RedisStringTTLObject) : RedisStringObject :=
  mkStr (es_move (str_obj_ (strttl_base o))).1.

Definition strttl_SerializedLength (o : RedisStringTTLObject) : Z :=
  8 + str_SerializedLength (strttl_base o).

Definition strttl_Serialize_str (o : RedisStringTTLObject) (str : bytes) : bytes :=
  str ++ type_byte TyTTLString ++ le_bytes 8 (strttl_ttl_ o)
      ++ lp_string (str_StringView (strttl_base o)).

(** Here [blob_len] is a [size_t] of which four bytes are written. *)
Definition strttl_Serialize_vec (o : RedisStringTTLObject) (buf : bytes) (offset : nat)
    : option (bytes * nat) :=
  let sv := str_StringView (strttl_base o) in
  let buf := vresize (offset + 1 + 8 + 4 + length sv) buf in
  (vput (type_byte TyTTLString) ;;w vput (le_bytes 8 (strttl_ttl_ o))
     ;;w vput (le_bytes 4 (zlen sv)) ;;w vput sv) (buf, offset).

Definition strttl_Deserialize : Reader RedisStringTTLObject :=
  _ <-- read_bytes 1;
  ttl <-- read_u64;
  d <-- read_lp_string;
  rret (mkStrTTL (mkStr (es_own d)) ttl).

(** ** The abstract string

    [str_of c] is the only well-formed object that shows the bytes [c]. *)

Definition str_of (c : bytes) : RedisStringObject := mkStr (es_own c).

(** The type invariant: the object owns its bytes and their number fits the
    32-bit length field. *)
Definition str_wf (o : RedisStringObject) : Prop :=
  es_owned (str_obj_ o) /\ es_fits (str_obj_ o).

(** An image within the size limit. *)
Definition str_small (c : bytes) : Prop := 5 + zlen c <= MAX_OBJECT_SIZE.

Lemma str_wf_of c : is_u32 (zlen c) -> str_wf (str_of c).
Proof. by split. Qed.

Lemma str_wf_canonical o :
  str_wf o -> o = str_of (str_StringView o) /\ is_u32 (zlen (str_StringView o)).
Proof.
  intros [Ho Hf]. split; [|done]. destruct o as [s]. unfold str_of, str_StringView. cbn in *.
  by rewrite <-es_owned_eta.
Qed.

Lemma str_small_u32 c : str_small c -> is_u32 (zlen c).
Proof. unfold str_small, MAX_OBJECT_SIZE. pose proof (zlen_nonneg c). mach. lia. Qed.

Lemma zlen_zeros n : 0 <= n -> zlen (zeros n) = n.
Proof. intros H. unfold zlen, zeros. rewrite length_replicate. lia. Qed.

Lemma zeros_split n m : 0 <= n <= m -> zeros m = zeros n ++ zeros (m - n).
Proof. intros H. unfold zeros. rewrite <-replicate_add. f_equal. lia. Qed.

(** ** Bits

    Bit [i] of a string counts from the most significant bit of its first
    byte; beyond the end every bit is 0. *)

Definition sbit (s : bytes) (i : Z) : bool :=
  match s !! Z.to_nat (i / 8) with
  | Some c => Z.testbit (b2z c) (7 - i mod 8)
  | None => false
  end.

(** A check over all bytes and bit positions, decided by evaluation. *)
Definition all_bytes : list byte := z2b <$> seqZ 0 256.

Lemma all_bytes_elem b : b ∈ all_bytes.
Proof.
  unfold all_bytes. apply list_elem_of_fmap. exists (b2z b).
  rewrite z2b_b2z. split; [done|]. apply elem_of_seqZ. pose proof (b2z_range b). lia.
Qed.

Definition for_bytes (P : byte -> bool) : bool := forallb P all_bytes.
Definition for_pos (P : Z -> bool) : bool := forallb P (seqZ 0 8).

Lemma for_bytes_spec P : for_bytes P = true -> forall b, P b = true.
Proof. unfold for_bytes. rewrite forallb_forall. intros H b. apply H, list_elem_of_In, all_bytes_elem. Qed.

Lemma for_pos_spec P : for_pos P = true -> forall j, 0 <= j < 8 -> P j = true.
Proof.
  unfold for_pos. rewrite forallb_forall. intros H j Hj.
  apply H, list_elem_of_In, elem_of_seqZ. lia.
Qed.

Lemma char_bit_testbit c j : 0 <= j < 8 -> char_bit c j = Z.b2z (Z.testbit (b2z c) j).
Proof.
  intros Hj. apply Z.eqb_eq. revert c j Hj.
  pose proof (for_bytes_spec (fun c => for_pos (fun j =>
    char_bit c j =? Z.b2z (Z.testbit (b2z c) j))) ltac:(vm_compute; reflexivity)) as H.
  intros c j Hj. by apply (for_pos_spec _ (H c)).
Qed.

(** The byte SETBIT stores. *)
Definition setbit_byte (x : byte) (pos : Z) (val : bool) : byte :=
  let c := c2z (z2b (Z.shiftl 1 pos)) in
  z2b (if val then Z.lor (c2z x) c else Z.land (c2z x) (Z.lnot c)).

Lemma setbit_byte_testbit x pos val j :
  0 <= pos < 8 -> 0 <= j < 8 ->
  Z.testbit (b2z (setbit_byte x pos val)) j = if j =? pos then val else Z.testbit (b2z x) j.
Proof.
  intros Hp Hj. apply eqb_prop. revert x pos Hp j Hj.
  pose proof (for_bytes_spec (fun x => for_pos (fun pos => for_pos (fun j =>
    Bool.eqb (Z.testbit (b2z (setbit_byte x pos val)) j)
             (if j =? pos then val else Z.testbit (b2z x) j))))
    ltac:(destruct val; vm_compute; reflexivity)) as H.
  intros x pos Hp j Hj. by apply (for_pos_spec _ (for_pos_spec _ (H x) pos Hp)).
Qed.

(** The byte BITFIELD stores is the same byte. *)
Lemma bitfield_byte x pos v :
  0 <= pos < 8 ->
  z2b (Z.lor (Z.land (b2z x) (u8 (Z.lnot (Z.shiftl 1 pos)))) (u8 (Z.shiftl (Z.b2z v) pos)))
  = setbit_byte x pos v.
Proof.
  intros Hp. apply (bool_decide_unpack _). revert x pos Hp.
  pose proof (for_bytes_spec (fun x => for_pos (fun pos => bool_decide (
    z2b (Z.lor (Z.land (b2z x) (u8 (Z.lnot (Z.shiftl 1 pos)))) (u8 (Z.shiftl (Z.b2z v) pos)))
    = setbit_byte x pos v))) ltac:(destruct v; vm_compute; reflexivity)) as H.
  intros x pos Hp. apply Is_true_true. by apply (for_pos_spec _ (H x)).
Qed.

(** Writing one bit changes that bit and no other. *)
Lemma sbit_insert s i v x :
  0 <= i -> s !! Z.to_nat (i / 8) = Some x ->
  forall k, 0 <= k ->
  sbit (<[Z.to_nat (i / 8) := setbit_byte x (7 - i mod 8) v]> s) k
  = if k =? i then v else sbit s k.
Proof.
  intros Hi Hx k Hk. unfold sbit.
  pose proof (Z.mod_pos_bound i 8 ltac:(lia)). pose proof (Z.mod_pos_bound k 8 ltac:(lia)).
  pose proof (Z.div_mod i 8 ltac:(lia)). pose proof (Z.div_mod k 8 ltac:(lia)).
  pose proof (Z.div_pos i 8 ltac:(lia) ltac:(lia)). pose proof (Z.div_pos k 8 ltac:(lia) ltac:(lia)).
  destruct (decide (k / 8 = i / 8)) as [E|E].
  - rewrite E, list_lookup_insert_eq by (apply lookup_lt_Some in Hx; done). rewrite Hx.
    rewrite setbit_byte_testbit by lia.
    destruct (Z.eqb_spec (7 - k mod 8) (7 - i mod 8)), (Z.eqb_spec k i); (done || lia).
  - rewrite list_lookup_insert_ne by lia. by destruct (Z.eqb_spec k i); [congruence|].
Qed.

(** Appending zero bytes changes no bit. *)
Lemma sbit_zeros s n k : 0 <= k -> sbit (s ++ zeros n) k = sbit s k.
Proof.
  intros Hk. unfold sbit. destruct (s !! Z.to_nat (k / 8)) as [c|] eqn:E.
  - by rewrite (lookup_app_l_Some _ _ _ _ E).
  - apply lookup_ge_None in E. rewrite lookup_app_r by done. unfold zeros.
    destruct (replicate _ _ !! _) eqn:R; [|done]. apply lookup_replicate in R as [-> _].
    apply Z.testbit_0_l.
Qed.

Lemma str_data_of c : is_u32 (zlen c) -> es_data (es_own c) = c.
Proof. intros H. by rewrite es_data_fits. Qed.

Lemma str_length_of c : is_u32 (zlen c) -> es_length (es_own c) = zlen c.
Proof. intros H. by rewrite es_length_fits. Qed.

(** The C++ quotient and remainder of a bit offset. *)
Lemma bit_offsets i :
  0 <= i < 2 ^ 63 ->
  u64 (Z.quot i 8) = i / 8 /\ u64 (7 - Z.rem i 8) = 7 - i mod 8 /\ 0 <= 7 - i mod 8 < 8.
Proof.
  intros H. rewrite Z.quot_div_nonneg, Z.rem_mod_nonneg by lia.
  pose proof (Z.mod_pos_bound i 8 ltac:(lia)). pose proof (Z.div_mod i 8 ltac:(lia)).
  repeat split; try lia; apply u64_id; mach; lia.
Qed.

Lemma vcopy_zeros src n :
  zlen src <= n -> vcopy src (zeros n) 0 = Some (src ++ zeros (n - zlen src)).
Proof.
  intros H. pose proof (zlen_nonneg src). unfold vcopy, zlen, zeros in *.
  rewrite length_replicate, decide_True by lia. rewrite take_0, drop_replicate.
  cbn [app]. do 3 f_equal. lia.
Qed.

(** *** GETBIT and SETBIT *)

Lemma Execute_GetBit_of c i r :
  0 <= i < 2 ^ 63 ->
  Execute_GetBit (str_of c) i r = sr_set_int (Z.b2z (sbit c i)) (sr_set_err RD_OK r).
Proof.
  intros Hi. unfold Execute_GetBit, sbit. destruct (bit_offsets i Hi) as (-> & -> & Hb).
  change (str_StringView (str_of c)) with c.
  destruct (c !! Z.to_nat (i / 8)); [|done]. by rewrite char_bit_testbit.
Qed.

Lemma Execute_SetBit_of c i r :
  0 <= i < 2 ^ 63 ->
  Execute_SetBit (str_of c) i r
  = if decide (zlen c <= i / 8 /\ MAX_OBJECT_SIZE < 5 + (i / 8 + 1))
    then (sr_set_err RD_ERR_OBJECT_TOO_BIG r, false)
    else (sr_set_int (Z.b2z (sbit c i)) (sr_set_err RD_OK r), true).
Proof.
  intros Hi. unfold Execute_SetBit, sbit. destruct (bit_offsets i Hi) as (-> & -> & Hb).
  pose proof (Z.div_mod i 8 ltac:(lia)). pose proof (Z.mod_pos_bound i 8 ltac:(lia)).
  change (str_StringView (str_of c)) with c.
  destruct (c !! Z.to_nat (i / 8)) eqn:E.
  - apply lookup_lt_Some in E. rewrite decide_False by (unfold zlen; lia).
    by rewrite char_bit_testbit.
  - apply lookup_ge_None in E. unfold CheckSerializedLength.
    rewrite (u64_id (i / 8 + 1)), u64_id by (mach; lia).
    destruct (Z.leb_spec (1 + 4 + (i / 8 + 1)) MAX_OBJECT_SIZE).
    + by rewrite decide_False by lia.
    + by rewrite decide_True by (unfold zlen; lia).
Qed.

(** The string after SETBIT. *)
Definition spec_setbit (c : bytes) (i : Z) (v : bool) : bytes :=
  let c := c ++ zeros (i / 8 + 1 - zlen c) in
  match c !! Z.to_nat (i / 8) with
  | Some x => <[Z.to_nat (i / 8) := setbit_byte x (7 - i mod 8) v]> c
  | None => c
  end.

Lemma spec_setbit_cell c i :
  0 <= i -> exists x, (c ++ zeros (i / 8 + 1 - zlen c)) !! Z.to_nat (i / 8) = Some x.
Proof.
  intros Hi. apply lookup_lt_is_Some_2. rewrite length_app. unfold zeros, zlen.
  rewrite length_replicate. pose proof (Z.div_pos i 8 Hi ltac:(lia)). lia.
Qed.

Lemma zlen_spec_setbit c i v : 0 <= i -> zlen (spec_setbit c i v) = Z.max (zlen c) (i / 8 + 1).
Proof.
  intros Hi. unfold spec_setbit. pose proof (Z.div_pos i 8 Hi ltac:(lia)).
  assert (zlen (c ++ zeros (i / 8 + 1 - zlen c)) = Z.max (zlen c) (i / 8 + 1)) as E.
  { zlen. unfold zeros, zlen. rewrite length_replicate. lia. }
  destruct (_ !! _); [|done]. rewrite <-E. unfold zlen. by rewrite length_insert.
Qed.

Lemma sbit_spec_setbit c i v k :
  0 <= i -> 0 <= k -> sbit (spec_setbit c i v) k = if k =? i then v else sbit c k.
Proof.
  intros Hi Hk. unfold spec_setbit. destruct (spec_setbit_cell c i Hi) as [x Hx].
  rewrite Hx, sbit_insert by done. by rewrite sbit_zeros.
Qed.

(** A zero byte with a 0 stored in it is still zero. *)
Lemma setbit_byte_zero pos : 0 <= pos < 8 -> setbit_byte Init.Byte.x00 pos false = Init.Byte.x00.
Proof.
  intros H. apply (bool_decide_unpack _), Is_true_true. revert pos H.
  apply for_pos_spec. vm_compute. reflexivity.
Qed.

Lemma CommitSetBit_of c i val :
  0 <= i < 2 ^ 34 -> is_u32 (zlen c) -> (val = 0 \/ val = 1) ->
  CommitSetBit (str_of c) i val = Some (str_of (spec_setbit c i (negb (val =? 0)))).
Proof.
  intros Hi Hc Hval. pose proof (Z.div_mod i 8 ltac:(lia)).
  pose proof (Z.mod_pos_bound i 8 ltac:(lia)).
  pose proof (zlen_spec_setbit c i (negb (val =? 0)) ltac:(lia)) as Hlen.
  unfold CommitSetBit. destruct (bit_offsets i ltac:(lia)) as (-> & -> & Hb).
  change (str_StringView (str_of c)) with c. change (str_obj_ (str_of c)) with (es_own c).
  unfold spec_setbit in *. destruct (c !! Z.to_nat (i / 8)) as [x|] eqn:E.
  - assert (zeros (i / 8 + 1 - zlen c) = []) as Ez.
    { apply lookup_lt_Some in E. unfold zeros, zlen. by replace (Z.to_nat _) with O by lia. }
    rewrite Ez, app_nil_r, E in *. unfold str_of, es_own.
    do 3 f_equal.
    + unfold owned_type. by rewrite length_insert.
    + f_equal. unfold setbit_byte. by destruct Hval as [-> | ->].
  - rewrite str_data_of, (u64_id (i / 8 + 1)) by (done || (mach; lia)).
    apply lookup_ge_None in E. rewrite vcopy_zeros by (unfold zlen; lia).
    destruct (spec_setbit_cell c i ltac:(lia)) as [x Hx]. rewrite Hx in *.
    assert (x = Init.Byte.x00) as ->.
    { rewrite lookup_app_r in Hx by done. by apply lookup_replicate in Hx as [-> _]. }
    unfold str_of. do 2 f_equal. destruct Hval as [-> | ->]; cbn [Z.eqb negb] in *.
    + rewrite setbit_byte_zero, list_insert_id in * by done.
      apply es_of_data_own. mach. lia.
    + apply es_of_data_own. unfold setbit_byte in Hlen. cbn [negb] in Hlen.
      unfold zlen in *. rewrite length_insert in *. mach. lia.
Qed.

(** *** Ranges *)

(** The inclusive range a pair of Redis offsets names in a sequence of [n]
    items: negative offsets count from the end, and both are clamped. *)
Definition spec_range (n start end_ : Z) : Z * Z :=
  (Z.max 0 (if start <? 0 then n + start else start),
   Z.min (n - 1) (if end_ <? 0 then n + end_ else end_)).

(** GETRANGE and BITCOUNT compute the same half-open range. *)
Lemma GetRange_offsets_spec n start end_ a b s e :
  0 <= n -> GetRange_offsets n start end_ = (a, b) -> spec_range n start end_ = (s, e) ->
  (a < b <-> s <= e) /\ (a < b -> a = s /\ b = e + 1).
Proof.
  unfold GetRange_offsets, spec_range. intros Hn [= <- <-] [= <- <-].
  repeat match goal with
  | |- context [?x <? ?y] => destruct (Z.ltb_spec x y)
  | |- context [?x <=? ?y] => destruct (Z.leb_spec x y)
  end; lia.
Qed.

Lemma BitCount_offsets_GetRange n start end_ :
  BitCount_offsets n start end_ = GetRange_offsets n start end_.
Proof. unfold BitCount_offsets, GetRange_offsets. f_equal. by rewrite (Z.add_comm end_ n). Qed.

Lemma Execute_GetRange_of c start end_ r :
  is_u32 (zlen c) -> sr_str_ r = [] ->
  let '(s, e) := spec_range (zlen c) start end_ in
  (Execute_GetRange (str_of c) start end_ r).2
  = sr_set_str (take (Z.to_nat (e - s + 1)) (drop (Z.to_nat s) c)) (sr_set_err RD_OK r).
Proof.
  intros Hc Hr. destruct (spec_range _ _ _) as [s e] eqn:Es.
  unfold Execute_GetRange. change (str_obj_ (str_of c)) with (es_own c).
  rewrite str_length_of by done. destruct (GetRange_offsets _ _ _) as [a b] eqn:Ea.
  destruct (GetRange_offsets_spec _ _ _ _ _ _ _ (zlen_nonneg c) Ea Es) as [Hiff Heq].
  cbn [snd]. change (str_StringView (str_of c)) with c.
  destruct (Z.ltb_spec a b) as [Hab|Hab].
  - destruct (Heq Hab) as [-> ->]. do 2 f_equal. f_equal. lia.
  - replace (Z.to_nat (e - s + 1)) with O by lia. rewrite take_0.
    destruct r. unfold sr_set_str, sr_set_err in *. cbn in *. by subst.
Qed.

(** *** SETRANGE and APPEND *)

Definition spec_setrange (c : bytes) (off : Z) (v : bytes) : bytes :=
  take (Z.to_nat off) (c ++ zeros (off - zlen c)) ++ v ++ drop (Z.to_nat (off + zlen v)) c.

Lemma zlen_spec_setrange c off v :
  0 <= off -> zlen (spec_setrange c off v) = Z.max (zlen c) (off + zlen v).
Proof.
  intros H. unfold spec_setrange, zeros, zlen.
  rewrite !length_app, length_take, length_drop, length_app, length_replicate. lia.
Qed.

Lemma Execute_SetRange_of c off v r :
  is_u32 (zlen c) -> es_fits v -> 0 <= off < 2 ^ 62 ->
  Execute_SetRange (str_of c) off v r
  = if decide (zlen c < off + zlen (es_view v) /\ MAX_OBJECT_SIZE < 5 + (off + zlen (es_view v)))
    then (sr_set_err RD_ERR_OBJECT_TOO_BIG r, false)
    else (sr_set_int (zlen (spec_setrange c off (es_view v))) (sr_set_err RD_OK r), true).
Proof.
  intros Hc Hv Ho. unfold Execute_SetRange. change (str_obj_ (str_of c)) with (es_own c).
  rewrite str_length_of, es_length_fits by done. pose proof (zlen_nonneg (es_view v)).
  assert (zlen (es_view v) < 2 ^ 32) by apply Hv.
  rewrite i64_id by (mach; lia). rewrite zlen_spec_setrange by lia.
  unfold CheckSerializedLength. rewrite (u64_id (off + _)), u64_id by (mach; lia).
  destruct (Z.leb_spec (off + zlen (es_view v)) (zlen c)).
  - rewrite decide_False by lia. by rewrite Z.max_l by lia.
  - destruct (Z.leb_spec (1 + 4 + (off + zlen (es_view v))) MAX_OBJECT_SIZE).
    + rewrite decide_False by lia. by rewrite Z.max_r by lia.
    + by rewrite decide_True by lia.
Qed.

Lemma vcopy_at src buf off :
  0 <= off -> off + zlen src <= zlen buf ->
  vcopy src buf (Z.to_nat off)
  = Some (take (Z.to_nat off) buf ++ src ++ drop (Z.to_nat (off + zlen src)) buf).
Proof.
  intros H0 H. unfold vcopy, zlen in *. rewrite decide_True by lia.
  do 4 f_equal. lia.
Qed.

Lemma CommitSetRange_of c off v :
  is_u32 (zlen c) -> es_fits v -> 0 <= off -> off + zlen (es_view v) < 2 ^ 32 ->
  CommitSetRange (str_of c) off v = Some (str_of (spec_setrange c off (es_view v))).
Proof.
  intros Hc Hv Ho Hb. pose proof (zlen_spec_setrange c off (es_view v) Ho) as Hlen.
  unfold CommitSetRange. change (str_obj_ (str_of c)) with (es_own c).
  change (str_StringView (str_of c)) with c. pose proof (zlen_nonneg (es_view v)).
  rewrite str_length_of, es_length_fits, es_data_fits by done. rewrite i64_id by (mach; lia).
  destruct (Z.leb_spec (zlen c) (off + zlen (es_view v))).
  - set (pre := take _ c).
    assert (pre ++ zeros (off + zlen (es_view v) - zlen pre)
            = take (Z.to_nat off) (c ++ zeros (off - zlen c)) ++ zeros (zlen (es_view v))) as Ep.
    { subst pre. destruct (Z.ltb_spec off (zlen c)).
      - rewrite take_app_le by (unfold zlen in *; lia). f_equal. f_equal.
        unfold zlen in *. rewrite length_take. lia.
      - rewrite take_zlen. rewrite (take_ge (c ++ _)).
        2:{ rewrite length_app. unfold zeros, zlen in *. rewrite length_replicate. lia. }
        rewrite <-app_assoc. f_equal. rewrite (zeros_split (off - zlen c)) by lia.
        f_equal. f_equal. lia. }
    assert (zlen pre <= off) as Hpre.
    { subst pre. unfold zlen in *. rewrite length_take.
      destruct (Z.ltb_spec off (Z.of_nat (length c))); lia. }
    rewrite vcopy_zeros, Ep by lia.
    assert (zlen (take (Z.to_nat off) (c ++ zeros (off - zlen c))) = off) as Et.
    { unfold zeros, zlen. rewrite length_take, length_app, length_replicate. lia. }
    rewrite vcopy_at; [|lia|rewrite zlen_app, Et, zlen_zeros; lia].
    rewrite take_app_le, take_take by (unfold zlen in *; lia). rewrite Nat.min_id.
    rewrite (drop_ge (_ ++ zeros _)), app_nil_r.
    2:{ unfold zlen in *. rewrite length_app. unfold zeros at 2. rewrite length_replicate. lia. }
    unfold spec_setrange in *. rewrite (drop_ge c), app_nil_r in * by (unfold zlen in *; lia).
    unfold str_of. do 2 f_equal. apply es_of_data_own. mach. lia.
  - rewrite vcopy_at by lia. unfold str_of, es_own, spec_setrange in *.
    assert (zeros (off - zlen c) = []) as Ez by (unfold zeros; by replace (Z.to_nat _) with O by lia).
    rewrite Ez, app_nil_r in *. do 3 f_equal. cbn. unfold owned_type.
    rewrite Z.max_l in Hlen by lia. apply Nat2Z.inj in Hlen. by rewrite Hlen.
Qed.

Lemma CommitAppend_of c v :
  is_u32 (zlen c) -> es_fits v -> zlen c + zlen (es_view v) < 2 ^ 32 ->
  CommitAppend (str_of c) v = Some (str_of (c ++ es_view v)).
Proof.
  intros Hc Hv Hb. unfold CommitAppend. change (str_obj_ (str_of c)) with (es_own c).
  pose proof (zlen_nonneg (es_view v)). pose proof (zlen_nonneg c).
  rewrite str_length_of, str_data_of, es_length_fits, es_data_fits, u32_id by (done || (mach; lia)).
  rewrite vcopy_zeros by lia. rewrite vcopy_at; [|lia|zlen; rewrite zlen_zeros; lia].
  rewrite (drop_ge (c ++ _)), app_nil_r.
  2:{ unfold zeros, zlen in *. rewrite length_app, length_replicate. lia. }
  rewrite take_app_le, take_zlen by (unfold zlen; lia).
  unfold str_of. do 2 f_equal. apply es_of_data_own. zlen. mach. lia.
Qed.

(** *** INCR and DECR *)

Lemma Execute_IntOp_of c incr r :
  is_i64 incr ->
  Execute_IntOp (str_of c) incr r
  = match counter c with
    | None => (mkIntResult RD_ERR_DIGITAL_INVALID (ir_int_val_ r), false)
    | Some old =>
        if decide (incr_refused old incr)
        then (mkIntResult RD_ERR_INCR_OVERFLOW (ir_int_val_ r), false)
        else (mkIntResult RD_OK (old + incr), true)
    end.
Proof.
  intros Hi. unfold Execute_IntOp. change (str_StringView (str_of c)) with c.
  fold (counter c). destruct (counter c) as [old|] eqn:E; [|done].
  apply counter_range in E. destruct (_ || _) eqn:Eb; case_decide as Hd; try done.
  - exfalso. apply Hd. unfold incr_refused. lia.
  - exfalso. unfold incr_refused in Hd. lia.
  - rewrite i64_id by (by apply incr_accepted_range). done.
Qed.

Lemma CommitIncrDecr_of c old incr :
  is_i64 incr -> counter c = Some old -> ~ incr_refused old incr ->
  CommitIncrDecr (str_of c) incr = str_of (to_string (old + incr)).
Proof.
  intros Hi E Hr. unfold CommitIncrDecr. change (str_StringView (str_of c)) with c.
  fold (counter c). rewrite E. apply counter_range in E.
  pose proof (incr_accepted_range _ _ E Hi Hr) as Hs.
  destruct (_ || _) eqn:Eb; [mach; lia|]. rewrite i64_id by done.
  unfold str_of. f_equal. apply es_of_data_own.
  pose proof (to_string_short _ Hs). pose proof (zlen_nonneg (to_string (old + incr))). mach. lia.
Qed.

(** *** BITCOUNT and BITPOS *)

(** Indexing by a bit position inside the string. *)
Lemma byte_at_bit c i :
  0 <= i < 8 * zlen c ->
  exists b, byte_at c (i / 8) = Some b /\ c !! Z.to_nat (i / 8) = Some b.
Proof.
  intros Hi. pose proof (Z.div_mod i 8 ltac:(lia)). pose proof (Z.mod_pos_bound i 8 ltac:(lia)).
  destruct (lookup_lt_is_Some_2 c (Z.to_nat (i / 8))) as [b Hb]; [unfold zlen in *; lia|].
  exists b. unfold byte_at. by destruct (Z.ltb_spec (i / 8) 0); [lia|].
Qed.

Definition bits_set (c : bytes) (start n : Z) : Z := zsum (fun i => Z.b2z (sbit c i)) (seqZ start n).

Lemma bitcount_loop_of c n idx result :
  0 <= idx -> idx + Z.of_nat n <= 8 * zlen c ->
  bitcount_loop c n idx result = Some (result + bits_set c idx (Z.of_nat n)).
Proof.
  revert idx result. induction n as [|n IH]; intros idx result H0 Hn; cbn [bitcount_loop].
  - unfold bits_set. rewrite seqZ_nil by lia. cbn [zsum]. f_equal. lia.
  - destruct (byte_at_bit c idx ltac:(lia)) as (b & Eb & El).
    rewrite Z.quot_div_nonneg, Z.rem_mod_nonneg, Eb by lia.
    pose proof (Z.mod_pos_bound idx 8 ltac:(lia)). rewrite char_bit_testbit by lia.
    rewrite IH by lia. unfold bits_set. rewrite (seqZ_cons idx) by lia. cbn [zsum].
    unfold sbit at 2. rewrite El. f_equal.
    replace (Z.pred (Z.of_nat (S n))) with (Z.of_nat n) by lia.
    replace (Z.succ idx) with (idx + 1) by lia. lia.
Qed.

Lemma Execute_BitCount_of c (by_bit : bool) start end_ r :
  is_u32 (zlen c) ->
  let '(s, e) := spec_range (if by_bit then 8 * zlen c else zlen c) start end_ in
  let unit := if by_bit then 1 else 8 in
  Execute_BitCount (str_of c) by_bit start end_ r
  = Some (sr_set_int (bits_set c (unit * s) (unit * (e - s + 1))) (sr_set_err RD_OK r)).
Proof.
  intros Hc. destruct (spec_range _ _ _) as [s e] eqn:Es.
  unfold Execute_BitCount. change (str_obj_ (str_of c)) with (es_own c).
  change (str_StringView (str_of c)) with c.
  rewrite str_length_of, BitCount_offsets_GetRange by done.
  replace (zlen c * (if by_bit then 8 else 1)) with (if by_bit then 8 * zlen c else zlen c)
    by (destruct by_bit; lia).
  destruct (GetRange_offsets _ _ _) as [a b] eqn:Ea.
  assert (0 <= if by_bit then 8 * zlen c else zlen c) as Hn
    by (pose proof (zlen_nonneg c); destruct by_bit; lia).
  destruct (GetRange_offsets_spec _ _ _ _ _ _ _ Hn Ea Es) as [Hiff Heq].
  unfold spec_range in Es.
  assert (0 <= s /\ e < if by_bit then 8 * zlen c else zlen c) as [Hs He] by (split; simplify_eq; lia).
  assert (bits_set c ((if by_bit then 1 else 8) * s) ((if by_bit then 1 else 8) * (e - s + 1)) = 0
          \/ a < b) as Hz.
  { destruct (decide (a < b)); [by right|left]. unfold bits_set.
    rewrite seqZ_nil by (destruct by_bit; lia). done. }
  assert (forall x y, x = y -> Some (sr_set_int x (sr_set_int 0 (sr_set_err RD_OK r)))
                               = Some (sr_set_int y (sr_set_err RD_OK r))) as Hset
    by (by intros ? ? ->).
  destruct by_bit.
  - destruct (Z.ltb_spec a b) as [Hab|Hab]; [|destruct Hz as [->|]; [done|lia]].
    destruct (Heq Hab) as [-> ->]. rewrite bitcount_loop_of by lia. apply Hset.
    unfold bits_set. rewrite Z.add_0_l, Z2Nat.id by lia. do 2 f_equal; lia.
  - destruct (Z.ltb_spec (a * 8) (b * 8)) as [Hab|Hab]; [|destruct Hz as [->|]; [done|lia]].
    destruct (Heq ltac:(lia)) as [-> ->]. rewrite bitcount_loop_of by lia. apply Hset.
    unfold bits_set. rewrite Z.add_0_l, Z2Nat.id by lia. do 2 f_equal; lia.
Qed.

(** The first position in [start .. start + n - 1] whose bit is [v]. *)
Definition first_bit (c : bytes) (v : bool) (start n : Z) : option Z :=
  head (filter (fun i => sbit c i = v) (seqZ start n)).

Lemma bitpos_loop_of c n i v :
  0 <= i -> i + Z.of_nat n <= 8 * zlen c ->
  bitpos_loop c n i (Z.b2z v) = Some (first_bit c v i (Z.of_nat n)).
Proof.
  revert i. induction n as [|n IH]; intros i H0 Hn; cbn [bitpos_loop]; [done|].
  destruct (byte_at_bit c i ltac:(lia)) as (b & Eb & El).
  rewrite Z.shiftr_div_pow2 by lia. change (2 ^ 3) with 8. rewrite Eb, Z.rem_mod_nonneg by lia.
  pose proof (Z.mod_pos_bound i 8 ltac:(lia)). rewrite char_bit_testbit by lia.
  unfold first_bit. rewrite (seqZ_cons i) by lia.
  replace (Z.pred (Z.of_nat (S n))) with (Z.of_nat n) by lia.
  assert (sbit c i = Z.testbit (b2z b) (7 - i mod 8)) as <- by (unfold sbit; by rewrite El).
  rewrite filter_cons. case_decide as Hv.
  - by rewrite Hv, Z.eqb_refl.
  - destruct (Z.eqb_spec (Z.b2z (sbit c i)) (Z.b2z v)) as [E|]; [by apply Z.b2z_inj in E|].
    rewrite IH by lia. unfold first_bit. by replace (Z.succ i) with (i + 1) by lia.
Qed.

Lemma BitPos_offsets_spec n start end_ a b s e :
  0 <= n -> BitPos_offsets n start end_ = (a, b) -> spec_range n start end_ = (s, e) ->
  Z.to_nat (b - a + 1) = Z.to_nat (e - s + 1) /\ (s <= e -> a = s /\ b = e).
Proof.
  unfold BitPos_offsets, spec_range. intros Hn [= <- <-] [= <- <-].
  repeat match goal with
  | |- context [?x <? ?y] => destruct (Z.ltb_spec x y)
  | |- context [?x <=? ?y] => destruct (Z.leb_spec x y)
  end; lia.
Qed.

Lemma Execute_BitPos_of c v start end_ r :
  str_small c ->
  let '(s, e) := spec_range (8 * zlen c) start end_ in
  Execute_BitPos (str_of c) (Z.b2z v) start end_ r
  = Some (sr_set_int
      match first_bit c v s (e - s + 1) with
      | Some i => i
      | None => if decide (end_ = INT64_MAX /\ c <> [] /\ v = false) then 8 * zlen c else -1
      end r).
Proof.
  intros Hsm. pose proof (str_small_u32 c Hsm) as Hc. unfold str_small, MAX_OBJECT_SIZE in Hsm.
  pose proof (zlen_nonneg c). destruct (spec_range _ _ _) as [s e] eqn:Es.
  unfold Execute_BitPos. change (str_obj_ (str_of c)) with (es_own c).
  change (str_StringView (str_of c)) with c.
  rewrite str_length_of, Z.shiftl_mul_pow2 by (done || lia).
  rewrite u32_id, i32_id by (mach; lia). replace (zlen c * 2 ^ 3) with (8 * zlen c) by lia.
  destruct (BitPos_offsets _ _ _) as [a b] eqn:Ea.
  destruct (BitPos_offsets_spec (8 * zlen c) _ _ _ _ _ _ ltac:(lia) Ea Es) as [En Hse]. rewrite En.
  assert (0 <= s /\ e < 8 * zlen c) as [Hs He] by (unfold spec_range in Es; split; simplify_eq; lia).
  assert (bitpos_loop c (Z.to_nat (e - s + 1)) a (Z.b2z v) = Some (first_bit c v s (e - s + 1))) as ->.
  { destruct (decide (s <= e)) as [Hle|Hgt].
    - destruct (Hse Hle) as [-> ->]. rewrite bitpos_loop_of by lia. by rewrite Z2Nat.id by lia.
    - unfold first_bit. rewrite seqZ_nil by lia. by replace (Z.to_nat (e - s + 1)) with O by lia. }
  destruct (first_bit _ _ _ _); [done|]. do 2 f_equal.
  assert (c <> [] <-> 0 < 8 * zlen c) as Hz by (rewrite <-zlen_zero; lia).
  destruct (Z.eqb_spec end_ INT64_MAX), (Z.ltb_spec 0 (8 * zlen c)), v; cbn [andb Z.b2z Z.eqb];
    case_decide as Hd; rewrite Hz in Hd; clear Hz; intuition (discriminate || lia).
Qed.

(** *** BITFIELD: packed integers *)

(** The [n] bits from position [pos] as an unsigned number. *)
Fixpoint bits_value (p : bytes) (pos : Z) (n : nat) : Z :=
  match n with
  | O => 0
  | S n' => Z.b2z (sbit p pos) * 2 ^ Z.of_nat n' + bits_value p (pos + 1) n'
  end.

(** The value of width [n] with the low bits of [v]. *)
Definition bf_norm (bsign : bool) (n v : Z) : Z :=
  if bsign then (v + 2 ^ (n - 1)) mod 2 ^ n - 2 ^ (n - 1) else v mod 2 ^ n.

Lemma bits_value_range p pos n : 0 <= bits_value p pos n < 2 ^ Z.of_nat n.
Proof.
  revert pos. induction n as [|n IH]; intros pos; cbn [bits_value]; [lia|].
  rewrite Nat2Z.inj_succ, Z.pow_succ_r by lia. specialize (IH (pos + 1)).
  destruct (sbit p pos); cbn [Z.b2z]; lia.
Qed.

Lemma mod_pow2_succ v n :
  0 <= n -> v mod 2 ^ (n + 1) = Z.b2z (Z.testbit v n) * 2 ^ n + v mod 2 ^ n.
Proof.
  intros Hn. rewrite Z.pow_add_r, Z.rem_mul_r by lia. change (2 ^ 1) with 2.
  rewrite Z.testbit_spec' by done. lia.
Qed.

(** Bits that agree with those of [v] make up [v] modulo the width. *)
Lemma bits_value_mod p pos n v :
  (forall j, 0 <= j < Z.of_nat n -> sbit p (pos + j) = Z.testbit v (Z.of_nat n - 1 - j)) ->
  bits_value p pos n = v mod 2 ^ Z.of_nat n.
Proof.
  revert pos. induction n as [|n IH]; intros pos H; cbn [bits_value]; [by rewrite Z.mod_1_r|].
  rewrite Nat2Z.inj_succ, <-Z.add_1_r, mod_pow2_succ by lia.
  rewrite <-(Z.add_0_r pos) at 1. rewrite H by lia. f_equal; [do 3 f_equal; lia|].
  apply IH. intros j Hj. rewrite <-Z.add_assoc, H by lia. f_equal. lia.
Qed.

Lemma i64_add_mul a k b : i64 (i64 a * k + b) = i64 (a * k + b).
Proof.
  destruct (i64_spec a) as [q ->].
  replace ((a + q * 2 ^ 64) * k + b) with (a * k + b + q * k * 2 ^ 64) by ring.
  apply i64_add_mult.
Qed.

Lemma land_1_bit a j : 0 <= j -> Z.land (Z.shiftr a j) 1 = Z.b2z (Z.testbit a j).
Proof.
  intros Hj. change 1 with (Z.ones 1). rewrite Z.land_ones, Z.testbit_spec' by lia.
  by rewrite Z.shiftr_div_pow2.
Qed.

Lemma lor_shift_bit a (b : bool) : Z.lor (Z.shiftl a 1) (Z.b2z b) = 2 * a + Z.b2z b.
Proof.
  rewrite Z.shiftl_mul_pow2, (Z.mul_comm a) by lia. change (2 ^ 1) with 2.
  destruct b; cbn [Z.b2z]; [|by rewrite Z.lor_0_r, Z.add_0_r].
  apply Z.bits_inj'. intros n Hn. rewrite Z.lor_spec.
  destruct (decide (n = 0)) as [->|Hn0].
  - by rewrite Z.testbit_odd_0, orb_true_r.
  - replace n with (Z.succ (n - 1)) by lia. rewrite Z.testbit_even_succ, Z.testbit_odd_succ by lia.
    change 1 with (2 * 0 + 1) at 2. rewrite Z.testbit_odd_succ, Z.testbit_0_l by lia.
    by rewrite orb_false_r.
Qed.

(** The C++ byte and bit index of a position. *)
Lemma pos_index pos :
  0 <= pos -> Z.shiftr pos 3 = pos / 8 /\ 7 - Z.land pos 7 = 7 - pos mod 8 /\ 0 <= 7 - pos mod 8 < 8.
Proof.
  intros H. rewrite Z.shiftr_div_pow2 by lia. change 7 with (Z.ones 3) at 2.
  rewrite Z.land_ones by lia. change (2 ^ 3) with 8.
  pose proof (Z.mod_pos_bound pos 8 ltac:(lia)). repeat split; lia.
Qed.

Lemma get_bits_loop_of p n pos val :
  0 <= pos -> pos + Z.of_nat n <= 8 * zlen p ->
  get_bits_loop p n pos (i64 val) = Some (i64 (val * 2 ^ Z.of_nat n + bits_value p pos n)).
Proof.
  revert pos val. induction n as [|n IH]; intros pos val H0 Hn; cbn [get_bits_loop bits_value].
  - do 2 f_equal. lia.
  - destruct (byte_at_bit p pos ltac:(lia)) as (b & Eb & El).
    destruct (pos_index pos H0) as (-> & -> & Hb). rewrite Eb.
    assert (Z.testbit (b2z b) (7 - pos mod 8) = sbit p pos) as Es by (unfold sbit; by rewrite El).
    rewrite land_1_bit, Es, lor_shift_bit by lia.
    replace (i64 (2 * i64 val + Z.b2z (sbit p pos))) with (i64 (val * 2 + Z.b2z (sbit p pos)))
      by (rewrite (Z.mul_comm 2), i64_add_mul; done).
    rewrite IH by lia. do 2 f_equal. rewrite Nat2Z.inj_succ, Z.pow_succ_r by lia. ring.
Qed.

(** Sign extension by OR-ing ones above the field. *)
Lemma ones_above n :
  0 <= n < 64 -> u64 (Z.shiftl UINT64_MAX n) = Z.shiftl (Z.ones (64 - n)) n.
Proof.
  intros Hn. rewrite !Z.shiftl_mul_pow2, Z.ones_equiv by lia. unfold u64, UINT64_MAX.
  assert (2 ^ 64 = 2 ^ (64 - n) * 2 ^ n) as E by (rewrite <-Z.pow_add_r by lia; f_equal; lia).
  rewrite E, Zmult_mod_distr_r. f_equal. rewrite <-E.
  symmetry. apply Z.mod_unique with (q := 2 ^ n - 1); lia.
Qed.

Lemma lor_ones_above u n :
  0 <= n -> n < 64 -> 0 <= u < 2 ^ n -> Z.lor u (u64 (Z.shiftl UINT64_MAX n)) = u + (2 ^ 64 - 2 ^ n).
Proof.
  intros Hn Hn64 Hu. rewrite ones_above by lia.
  assert (Z.land u (Z.shiftl (Z.ones (64 - n)) n) = 0) as Hd.
  { apply Z.bits_inj'. intros k Hk. rewrite Z.land_spec, Z.bits_0.
    destruct (decide (k < n)); [by rewrite Z.shiftl_spec_low, andb_false_r by lia|].
    rewrite <-(Z.mod_small u (2 ^ n)), Z.mod_pow2_bits_high by lia. done. }
  rewrite <-Z.lxor_lor, <-Z.add_nocarry_lxor by done.
  rewrite Z.shiftl_mul_pow2, Z.ones_equiv by lia.
  assert (2 ^ (64 - n) * 2 ^ n = 2 ^ 64) by (rewrite <-Z.pow_add_r by lia; f_equal; lia). lia.
Qed.

(** Testing a bit with a mask. *)
Lemma land_bit_zero a k : 0 <= k -> (Z.land a (Z.shiftl 1 k) =? 0) = negb (Z.testbit a k).
Proof.
  intros Hk. rewrite Z.shiftl_1_l. destruct (Z.testbit a k) eqn:E; cbn [negb].
  - apply Z.eqb_neq. intros H%(f_equal (fun z => Z.testbit z k)).
    by rewrite Z.land_spec, E, Z.pow2_bits_true, Z.bits_0 in H by lia.
  - apply Z.eqb_eq, Z.bits_inj'. intros j Hj. rewrite Z.land_spec, Z.pow2_bits_eqb, Z.bits_0 by lia.
    destruct (Z.eqb_spec k j) as [->|]; [by rewrite E|by rewrite andb_false_r].
Qed.

(** The top bit of a field. *)
Lemma testbit_top u n : 0 < n -> 0 <= u < 2 ^ n -> Z.testbit u (n - 1) = (2 ^ (n - 1) <=? u).
Proof.
  intros Hn Hu. assert (2 ^ n = 2 * 2 ^ (n - 1)) as E by (rewrite <-Z.pow_succ_r by lia; f_equal; lia).
  apply Z.b2z_inj. rewrite Z.testbit_spec' by lia.
  destruct (Z.leb_spec (2 ^ (n - 1)) u); cbn [Z.b2z].
  - rewrite <-(Z.div_unique u (2 ^ (n - 1)) 1 (u - 2 ^ (n - 1))) by lia. done.
  - by rewrite Z.div_small by lia.
Qed.

Lemma bf_norm_signed u n :
  0 < n -> 0 <= u < 2 ^ n ->
  bf_norm true n u = if Z.testbit u (n - 1) then u - 2 ^ n else u.
Proof.
  intros Hn Hu. assert (2 ^ n = 2 * 2 ^ (n - 1)) as E by (rewrite <-Z.pow_succ_r by lia; f_equal; lia).
  rewrite testbit_top by done. unfold bf_norm. destruct (Z.leb_spec (2 ^ (n - 1)) u).
  - rewrite <-(Z.mod_unique (u + 2 ^ (n - 1)) (2 ^ n) 1 (u - 2 ^ (n - 1))) by lia. lia.
  - rewrite Z.mod_small by lia. lia.
Qed.

Lemma bf_norm_mod sgn n v : 0 < n -> bf_norm sgn n (v mod 2 ^ n) = bf_norm sgn n v.
Proof.
  intros Hn. unfold bf_norm. destruct sgn; [|by rewrite Z.mod_mod by lia].
  by rewrite Zplus_mod_idemp_l.
Qed.

(** The widths the parser lets through. *)
Definition bf_width (sgn : bool) (n : Z) : Prop := 1 <= n <= if sgn then 64 else 63.

Lemma GetBitFieldValue_of p off n sgn :
  bf_width sgn n -> 0 <= off -> off + n <= 8 * zlen p ->
  GetBitFieldValue p off n sgn = Some (bf_norm sgn n (bits_value p off (Z.to_nat n))).
Proof.
  intros Hw Ho Hp. unfold GetBitFieldValue, bf_width in *.
  change (get_bits_loop p (Z.to_nat n) off 0) with (get_bits_loop p (Z.to_nat n) off (i64 0)).
  rewrite get_bits_loop_of by (destruct sgn; lia).
  pose proof (bits_value_range p off (Z.to_nat n)) as Hu. rewrite Z2Nat.id in Hu by (destruct sgn; lia).
  set (u := bits_value _ _ _) in *. rewrite Z.mul_0_l, Z.add_0_l.
  destruct (Z.eqb_spec n 64) as [->|Hn64]; cbn [negb].
  - destruct sgn; [|lia]. reflexivity.
  - assert (2 ^ n <= 2 ^ 63) by (apply Z.pow_le_mono_r; destruct sgn; lia).
    rewrite (i64_id u), (u64_id u) by (mach; lia).
    destruct sgn; cbn [andb]; [|f_equal; unfold bf_norm; by rewrite Z.mod_small].
    rewrite land_bit_zero, negb_involutive, bf_norm_signed by lia.
    destruct (Z.testbit u (n - 1)) eqn:Et; [|done]. rewrite lor_ones_above by lia. f_equal.
    replace (u + (2 ^ 64 - 2 ^ n)) with (u - 2 ^ n + 1 * 2 ^ 64) by lia.
    rewrite i64_add_mult. apply i64_id. mach. lia.
Qed.

Lemma set_bits_loop_of n p val pos :
  Z.of_nat n <= pos + 1 -> pos < 8 * zlen p ->
  exists p', set_bits_loop n p val pos = Some p' /\ length p' = length p
    /\ forall i, 0 <= i ->
         sbit p' i = if decide (pos - Z.of_nat n < i <= pos) then Z.testbit val (pos - i) else sbit p i.
Proof.
  revert p val pos. induction n as [|n IH]; intros p val pos Hn Hpos; cbn [set_bits_loop].
  - exists p. split; [done|]. split; [done|]. intros i Hi. by rewrite decide_False by lia.
  - destruct (byte_at_bit p pos ltac:(lia)) as (b & Eb & El).
    destruct (pos_index pos ltac:(lia)) as (-> & -> & Hb). rewrite Eb.
    change (Z.land val 1) with (Z.land (Z.shiftr val 0) 1). rewrite land_1_bit by lia.
    rewrite bitfield_byte by done. set (p1 := <[_ := _]> p).
    assert (length p1 = length p) as L1 by apply length_insert.
    destruct (IH p1 (Z.shiftr val 1) (pos - 1)) as (p' & -> & L & Hs);
      [lia|unfold zlen in *; lia|].
    exists p'. split; [done|]. split; [lia|]. intros i Hi. rewrite Hs by done.
    unfold p1. rewrite (sbit_insert p pos _ b) by (done || lia).
    destruct (Z.eqb_spec i pos) as [->|Hne].
    + rewrite decide_False, decide_True by lia. by rewrite Z.sub_diag.
    + repeat case_decide; try lia; [|done]. rewrite Z.shiftr_spec by lia. f_equal. lia.
Qed.

Lemma SetBitFieldValue_of p v off n :
  1 <= n -> 0 <= off -> off + n <= 8 * zlen p ->
  exists p', SetBitFieldValue p v off n = Some p' /\ length p' = length p
    /\ (forall i, 0 <= i -> ~ (off <= i < off + n) -> sbit p' i = sbit p i)
    /\ bits_value p' off (Z.to_nat n) = v mod 2 ^ n.
Proof.
  intros Hn Ho Hp. unfold SetBitFieldValue.
  destruct (set_bits_loop_of (Z.to_nat n) p v (off + n - 1)) as (p' & -> & L & Hs); [lia..|].
  exists p'. split; [done|]. split; [done|]. split.
  - intros i Hi Hout. rewrite Hs by done. by rewrite decide_False by lia.
  - rewrite (bits_value_mod p' off (Z.to_nat n) v); [by rewrite Z2Nat.id by lia|].
    intros j Hj. rewrite Hs by lia. rewrite decide_True by lia. f_equal. lia.
Qed.

(** *** BITFIELD: overflow *)

Definition bf_min (sgn : bool) (n : Z) : Z := if sgn then - 2 ^ (n - 1) else 0.
Definition bf_max (sgn : bool) (n : Z) : Z := if sgn then 2 ^ (n - 1) - 1 else 2 ^ n - 1.
Definition in_field (sgn : bool) (n v : Z) : Prop := bf_min sgn n <= v <= bf_max sgn n.

Lemma ones_above_val n : 0 <= n < 64 -> u64 (Z.shiftl UINT64_MAX n) = 2 ^ 64 - 2 ^ n.
Proof.
  intros Hn. rewrite <-(Z.lor_0_l (u64 _)), lor_ones_above by lia. lia.
Qed.

Lemma pow2_le n m : 0 <= n <= m -> 0 < 2 ^ n <= 2 ^ m.
Proof. intros H. split; [lia|]. apply Z.pow_le_mono_r; lia. Qed.

(** The [max] and [min] the code computes are the bounds of the field. *)
Lemma bf_limits sgn n :
  bf_width sgn n ->
  i64 (if (if sgn then 64 - n + 1 else 64 - n) =? 64 then 0
       else Z.shiftr UINT64_MAX (if sgn then 64 - n + 1 else 64 - n)) = bf_max sgn n
  /\ (if sgn then i64 (u64 (Z.shiftl UINT64_MAX (n - 1))) else 0) = bf_min sgn n.
Proof.
  unfold bf_width, bf_min, bf_max. intros Hw.
  assert (forall k, 0 <= k <= 64 -> Z.shiftr UINT64_MAX k = 2 ^ (64 - k) - 1) as Hs.
  { intros k Hk. change UINT64_MAX with (Z.ones 64).
    rewrite Z.shiftr_div_pow2, Z.ones_div_pow2, Z.ones_equiv by lia. lia. }
  destruct sgn.
  - pose proof (pow2_le (n - 1) 63 ltac:(lia)). split.
    + destruct (Z.eqb_spec (64 - n + 1) 64); [by replace (n - 1) with 0 by lia|].
      rewrite Hs by lia. replace (64 - (64 - n + 1)) with (n - 1) by lia.
      apply i64_id. mach. lia.
    + rewrite ones_above_val by lia.
      replace (2 ^ 64 - 2 ^ (n - 1)) with (- 2 ^ (n - 1) + 1 * 2 ^ 64) by lia.
      rewrite i64_add_mult. apply i64_id. mach. lia.
  - pose proof (pow2_le n 63 ltac:(lia)). split; [|done].
    destruct (Z.eqb_spec (64 - n) 64); [lia|]. rewrite Hs by lia.
    replace (64 - (64 - n)) with n by lia. apply i64_id. mach. lia.
Qed.

Lemma sign_bit_i64 z : is_i64 z -> negb (Z.land (u64 z) (2 ^ 63) =? 0) = (z <? 0).
Proof.
  intros H. change (2 ^ 63) with (Z.shiftl 1 63). rewrite land_bit_zero, negb_involutive by lia.
  change 63 with (64 - 1). rewrite testbit_top by (lia || apply u64_range).
  assert (u64 z = if z <? 0 then z + 2 ^ 64 else z) as ->.
  { unfold u64. destruct (Z.ltb_spec z 0); [|apply Z.mod_small; mach; lia].
    symmetry. apply Z.mod_unique with (q := -1); mach; lia. }
  mach. destruct (Z.ltb_spec z 0); destruct (Z.leb_spec (2 ^ (64 - 1)) (if z <? 0 then z + 2 ^ 64 else z)); lia.
Qed.

Lemma i64_cases z :
  - 2 ^ 64 <= z < 2 ^ 64 ->
  i64 z = if z <? INT64_MIN then z + 2 ^ 64 else if INT64_MAX <? z then z - 2 ^ 64 else z.
Proof.
  intros H. destruct (Z.ltb_spec z INT64_MIN); [|destruct (Z.ltb_spec INT64_MAX z)]; mach.
  - rewrite <-(i64_add_mult z 1). rewrite i64_id; mach; lia.
  - replace z with ((z - 2 ^ 64) + 1 * 2 ^ 64) at 1 by lia. rewrite i64_add_mult, i64_id; mach; lia.
  - apply i64_id. mach. lia.
Qed.

(** The code's test says exactly whether the sum fits the field, although the
    sum itself may wrap. *)
Lemma bf_test v i n sgn :
  bf_width sgn n -> is_i64 v -> is_i64 i -> in_field sgn n v \/ i = 0 ->
  let res := i64 (v + i) in
  negb (if 63 <=? n then ((0 <? v) && (0 <? i) && (res <? 0))
                         || ((v <? 0) && (i <? 0) && negb (res <? 0)) else false)
    && (res <=? bf_max sgn n) && (bf_min sgn n <=? res)
  = bool_decide (in_field sgn n (v + i)).
Proof.
  intros Hw Hv Hi Hf res. subst res. unfold in_field, bf_min, bf_max, bf_width in *.
  assert (if sgn then 0 < 2 ^ (n - 1) <= 2 ^ 63 /\ (n < 63 -> 2 ^ (n - 1) <= 2 ^ 61)
          else 0 < 2 ^ n <= 2 ^ 63 /\ (n < 63 -> 2 ^ n <= 2 ^ 62)) as Hpow.
  { destruct sgn; (split; [apply pow2_le; lia|intros ?; apply Z.pow_le_mono_r; lia]). }
  rewrite i64_cases by (mach; lia). apply eq_true_iff_eq. rewrite bool_decide_eq_true. mach.
  destruct sgn, (Z.leb_spec 63 n), (Z.ltb_spec (v + i) (- 2 ^ 63)), (Z.ltb_spec (2 ^ 63 - 1) (v + i));
    try (exfalso; lia); lia.
Qed.

Lemma wrap_sign_extend x n :
  1 <= n < 64 ->
  (if negb (Z.land (u64 x) (Z.shiftl 1 (n - 1)) =? 0)
   then i64 (Z.lor (u64 x) (u64 (Z.shiftl UINT64_MAX n)))
   else i64 (Z.land (u64 x) (u64 (Z.lnot (u64 (Z.shiftl UINT64_MAX n))))))
  = bf_norm true n x.
Proof.
  intros Hn. set (u := x mod 2 ^ n).
  assert (0 <= u < 2 ^ n) as Hu by (apply Z.mod_pos_bound; lia).
  pose proof (pow2_le n 63 ltac:(lia)) as Hp.
  assert (u64 x mod 2 ^ n = u) as Eu.
  { unfold u64, u. replace (2 ^ 64) with (2 ^ n * 2 ^ (64 - n)) by (rewrite <-Z.pow_add_r by lia; f_equal; lia).
    rewrite Z.rem_mul_r by lia. rewrite (Z.mul_comm (2 ^ n)), Z.mod_add by lia. apply Z.mod_mod. lia. }
  rewrite land_bit_zero, negb_involutive by lia.
  rewrite <-(bf_norm_mod true n x) by lia. fold u. rewrite bf_norm_signed by lia.
  rewrite <-(Z.mod_pow2_bits_low (u64 x) n (n - 1)), Eu by lia.
  destruct (Z.testbit u (n - 1)).
  - assert (Z.lor (u64 x) (u64 (Z.shiftl UINT64_MAX n)) = Z.lor u (u64 (Z.shiftl UINT64_MAX n))) as ->.
    { rewrite ones_above by lia. apply Z.bits_inj'. intros k Hk. rewrite !Z.lor_spec.
      destruct (decide (k < n)).
      - by rewrite <-(Z.mod_pow2_bits_low (u64 x) n k), Eu by lia.
      - rewrite Z.shiftl_spec_high by lia. destruct (decide (k < 64)).
        + rewrite Z.ones_spec_low by lia. by rewrite !orb_true_r.
        + rewrite Z.ones_spec_high, !orb_false_r by lia. subst u.
          rewrite Z.mod_pow2_bits_high by lia. unfold u64. apply Z.mod_pow2_bits_high. lia. }
    rewrite lor_ones_above by lia.
    replace (u + (2 ^ 64 - 2 ^ n)) with (u - 2 ^ n + 1 * 2 ^ 64) by lia.
    rewrite i64_add_mult. apply i64_id. mach. lia.
  - rewrite ones_above_val by lia.
    replace (u64 (Z.lnot (2 ^ 64 - 2 ^ n))) with (Z.ones n).
    + rewrite Z.land_ones, Eu by lia. apply i64_id. mach. lia.
    + rewrite Z.ones_equiv. unfold Z.lnot, u64. apply Z.mod_unique with (q := -1); lia.
Qed.

Lemma IsBitfieldUnoverflow_of v i n sgn ovf :
  bf_width sgn n -> is_i64 v -> is_i64 i -> in_field sgn n v \/ i = 0 ->
  IsBitfieldUnoverflow v i n sgn ovf
  = if decide (in_field sgn n (v + i)) then Some (true, v + i)
    else match ovf with
         | BF_WRAP => if n =? 64 then None else Some (true, bf_norm true n (v + i))
         | BF_SAT =>
             let res := i64 (v + i) in
             Some (true, if bf_max sgn n <? res then bf_max sgn n
                         else if res <? bf_min sgn n then bf_min sgn n else 0)
         | BF_FAIL => Some (false, 0)
         end.
Proof.
  intros Hw Hv Hi Hf. unfold IsBitfieldUnoverflow.
  destruct (bf_limits sgn n Hw) as [-> ->]. rewrite sign_bit_i64 by apply i64_range.
  rewrite bf_test by done. case_decide as Hin.
  - rewrite bool_decide_eq_true_2 by done. do 2 f_equal. apply i64_id.
    unfold in_field, bf_min, bf_max, bf_width in *. mach.
    destruct sgn; [pose proof (pow2_le (n - 1) 63 ltac:(lia))|pose proof (pow2_le n 63 ltac:(lia))]; lia.
  - rewrite bool_decide_eq_false_2 by done. destruct ovf; [|done..].
    destruct (Z.eqb_spec n 64); [done|].
    rewrite wrap_sign_extend by (unfold bf_width in Hw; destruct sgn; lia).
    do 2 f_equal. destruct (i64_spec (v + i)) as [q ->].
    rewrite <-(bf_norm_mod true n (_ + q * _)), <-(bf_norm_mod true n (v + i))
      by (unfold bf_width in Hw; lia).
    f_equal. replace (2 ^ 64) with (2 ^ (64 - n) * 2 ^ n)
      by (rewrite <-Z.pow_add_r by (unfold bf_width in Hw; destruct sgn; lia); f_equal; lia).
    rewrite Z.mul_assoc. apply Z.mod_add. unfold bf_width in Hw. lia.
Qed.

(** *** BITFIELD: the deciding loop and the mutating loop *)

Lemma bitfield_exec_commit1 p scmd p' v u :
  bitfield_exec1 p scmd = Some (p', v, u) ->
  exists u', bitfield_commit1 p scmd = Some (p', u') /\ (u = true -> u' = true).
Proof.
  destruct scmd as [op sgn bits ovf off val]. unfold bitfield_exec1, bitfield_commit1.
  intros H. repeat (case_match; simplify_eq); eauto.
Qed.

Lemma bitfield_exec_commit p out b vct p' out' b' ub :
  bitfield_exec_loop p out b vct = Some (p', out', b') -> (b = true -> ub = true) ->
  exists ub', bitfield_commit_loop p ub vct = Some (p', ub') /\ (b' = true -> ub' = true).
Proof.
  revert p out b ub. induction vct as [|scmd vct IH]; intros p out b ub; cbn.
  - intros [= -> -> ->] H. eauto.
  - destruct (bitfield_exec1 p scmd) as [[[p1 v] u]|] eqn:E; [|done].
    destruct (bitfield_exec_commit1 _ _ _ _ _ E) as (u' & -> & Hu).
    intros H Hb. apply (IH _ _ _ _ H). destruct b, u; cbn; try done; intros _.
    + by rewrite Hb.
    + by rewrite Hb.
    + rewrite Hu by done. apply orb_true_r.
Qed.

(** The field of width [n] at bit [off], zeros beyond the end. *)
Definition bf_field (c : bytes) (sgn : bool) (n off : Z) : Z :=
  bf_norm sgn n (bits_value c off (Z.to_nat n)).

Lemma bits_value_ext p q pos n :
  0 <= pos -> (forall i, pos <= i < pos + Z.of_nat n -> sbit p i = sbit q i) ->
  bits_value p pos n = bits_value q pos n.
Proof.
  revert pos. induction n as [|n IH]; intros pos H0 H; cbn [bits_value]; [done|].
  rewrite H by lia. f_equal. apply IH; [lia|]. intros i Hi. apply H. lia.
Qed.

Lemma bf_norm_in_field sgn n u : bf_width sgn n -> in_field sgn n (bf_norm sgn n u).
Proof.
  intros Hw. unfold bf_width, in_field, bf_norm, bf_min, bf_max in *.
  destruct sgn; [|pose proof (Z.mod_pos_bound u (2 ^ n) ltac:(lia)); lia].
  assert (2 ^ n = 2 * 2 ^ (n - 1)) by (rewrite <-Z.pow_succ_r by lia; f_equal; lia).
  pose proof (Z.mod_pos_bound (u + 2 ^ (n - 1)) (2 ^ n) ltac:(lia)). lia.
Qed.

Lemma in_field_i64 sgn n v : bf_width sgn n -> in_field sgn n v -> is_i64 v.
Proof.
  unfold bf_width, in_field, bf_min, bf_max. intros Hw Hv. mach.
  destruct sgn; [pose proof (pow2_le (n - 1) 63 ltac:(lia))|pose proof (pow2_le n 63 ltac:(lia))]; lia.
Qed.

(** A value in the field's range is its own normal form. *)
Lemma bf_norm_id sgn n v : bf_width sgn n -> in_field sgn n v -> bf_norm sgn n v = v.
Proof.
  unfold bf_width, in_field, bf_min, bf_max, bf_norm. intros Hw Hv.
  destruct sgn; [|apply Z.mod_small; lia].
  assert (2 ^ n = 2 * 2 ^ (n - 1)) by (rewrite <-Z.pow_succ_r by lia; f_equal; lia).
  rewrite Z.mod_small; lia.
Qed.

Lemma bf_norm_norm sgn t n v : 0 < n -> bf_norm sgn n (bf_norm t n v) = bf_norm sgn n v.
Proof.
  intros Hn. rewrite <-(bf_norm_mod sgn n (bf_norm t n v)), <-(bf_norm_mod sgn n v) by done.
  f_equal. unfold bf_norm. destruct t; [|by rewrite Z.mod_mod by lia].
  rewrite Zminus_mod_idemp_l. f_equal. lia.
Qed.

Lemma bitfield_buffer_of c vct :
  is_u32 (zlen c) ->
  bitfield_buffer (str_of c) vct = c ++ zeros (Z.shiftr (bitfield_end 0 vct + 7) 3 - zlen c).
Proof.
  intros Hc. unfold bitfield_buffer. change (str_obj_ (str_of c)) with (es_own c).
  by rewrite str_data_of, str_length_of.
Qed.

Lemma zlen_bitfield_buffer c vct :
  is_u32 (zlen c) -> 0 <= bitfield_end 0 vct ->
  zlen (bitfield_buffer (str_of c) vct) = Z.max (zlen c) ((bitfield_end 0 vct + 7) / 8).
Proof.
  intros Hc He. rewrite bitfield_buffer_of, Z.shiftr_div_pow2 by (done || lia).
  change (2 ^ 3) with 8. zlen. unfold zeros, zlen. rewrite length_replicate.
  pose proof (Z.div_pos (bitfield_end 0 vct + 7) 8). lia.
Qed.

(** One subcommand that writes, on a buffer that holds the field. *)
Lemma bitfield_incr_wrap_of p sgn n off incr :
  bf_width sgn n -> n < 64 -> is_i64 incr -> 0 <= off -> off + n <= 8 * zlen p ->
  exists p' reply,
    bitfield_exec1 p (mkSub BF_INCR sgn n BF_WRAP off incr) = Some (p', (true, reply), true)
    /\ length p' = length p
    /\ (forall i, 0 <= i -> ~ (off <= i < off + n) -> sbit p' i = sbit p i)
    /\ bf_field p' sgn n off = bf_norm sgn n (bf_field p sgn n off + incr)
    /\ (sgn = true \/ in_field sgn n (bf_field p sgn n off + incr) ->
        reply = bf_field p' sgn n off).
Proof.
  intros Hw Hn64 Hi Ho Hp. assert (1 <= n) by (unfold bf_width in Hw; lia). unfold bitfield_exec1.
  rewrite GetBitFieldValue_of by done. fold (bf_field p sgn n off).
  set (old := bf_field p sgn n off).
  assert (in_field sgn n old) as Hold by (by apply bf_norm_in_field).
  rewrite IsBitfieldUnoverflow_of; [|done|by eapply in_field_i64|done|by left].
  set (lim := if decide (in_field sgn n (old + incr)) then old + incr else bf_norm true n (old + incr)).
  assert ((if decide (in_field sgn n (old + incr)) then Some (true, old + incr)
           else if n =? 64 then None else Some (true, bf_norm true n (old + incr)))
          = Some (true, lim)) as E.
  { subst lim. case_decide; [done|]. by destruct (Z.eqb_spec n 64); [lia|]. }
  cbn zeta. rewrite E.
  destruct (SetBitFieldValue_of p lim off n) as (p' & -> & L & Hout & Hval); [lia..|].
  exists p', lim.
  assert (bf_field p' sgn n off = bf_norm sgn n (old + incr)) as Ef.
  { unfold bf_field. rewrite Hval, bf_norm_mod by lia. subst lim.
    case_decide; [done|]. apply bf_norm_norm. lia. }
  repeat split; try done. intros Hs. rewrite Ef. subst lim. case_decide as Hin.
  - by rewrite bf_norm_id.
  - destruct Hs as [-> | ?]; [done|contradiction].
Qed.

(** *** Serialization *)

Definition str_image (c : bytes) : bytes := type_byte TyString ++ lp_string c.
Definition strttl_image (c : bytes) (ttl : Z) : bytes :=
  type_byte TyTTLString ++ le_bytes 8 ttl ++ lp_string c.

Lemma str_Serialize_vec_of c buf off :
  is_u32 (zlen c) -> (off <= length buf)%nat ->
  str_Serialize_vec (str_of c) buf off
  = Some (take off buf ++ str_image c, (off + length (str_image c))%nat).
Proof.
  intros Hc Hoff. unfold str_Serialize_vec. change (str_StringView (str_of c)) with c.
  rewrite u32_id by done.
  replace (off + 1 + 4 + Z.to_nat (zlen c))%nat with (off + length (str_image c))%nat.
  - apply vresize_write; [|done]. unfold str_image. rewrite lp_string_small by done.
    eauto with codec.
  - unfold str_image. rewrite length_app, lp_string_small, length_app, le_bytes_length by done.
    unfold zlen. cbn [type_byte length]. lia.
Qed.

Lemma strttl_Serialize_vec_of c ttl buf off :
  is_u32 (zlen c) -> (off <= length buf)%nat ->
  strttl_Serialize_vec (mkStrTTL (str_of c) ttl) buf off
  = Some (take off buf ++ strttl_image c ttl, (off + length (strttl_image c ttl))%nat).
Proof.
  intros Hc Hoff. unfold strttl_Serialize_vec. cbn [strttl_base strttl_ttl_].
  change (str_StringView (str_of c)) with c.
  replace (off + 1 + 8 + 4 + length c)%nat with (off + length (strttl_image c ttl))%nat.
  - apply vresize_write; [|done]. unfold strttl_image. rewrite lp_string_small by done.
    eauto with codec.
  - unfold strttl_image. rewrite !length_app, lp_string_small, length_app, !le_bytes_length by done.
    cbn [type_byte length]. lia.
Qed.

Lemma str_Deserialize_of c : is_u32 (zlen c) -> Reads str_Deserialize (str_image c) (str_of c).
Proof.
  intros Hc. eapply Reads_bind; [by apply Reads_bytes|].
  eapply Reads_bind_ret; [by apply Reads_lp_string|done].
Qed.

Lemma strttl_Deserialize_of c ttl :
  is_u32 (zlen c) -> is_u64 ttl ->
  Reads strttl_Deserialize (strttl_image c ttl) (mkStrTTL (str_of c) ttl).
Proof.
  intros Hc Ht. eapply Reads_bind; [by apply Reads_bytes|].
  eapply Reads_bind; [by apply Reads_u64|].
  eapply Reads_bind_ret; [by apply Reads_lp_string|done].
Qed.

(** ** Properties *)

(** Case analysis on a well-formed object: it is [str_of c]. *)
Ltac canon_str H c Hc :=
  let E := fresh in
  destruct (str_wf_canonical _ H) as [E Hc];
  rewrite E; clear E; revert Hc; clear H;
  match goal with |- is_u32 (zlen (str_StringView ?o)) -> _ =>
    generalize (str_StringView o); clear o; intros c Hc end.

Lemma view_str_of c : str_StringView (str_of c) = c.
Proof. done. Qed.

(** A moved owned string is the same string. *)
Lemma es_move_own c : (es_move (es_own c)).1 = es_own c.
Proof.
  unfold es_move, es_own. cbn [es_type es_view fst]. destruct (owned_type c) eqn:E; try done.
Qed.

(** The strings [ab] and [41] of the examples. *)
Definition s_ab : RedisStringObject := str_of [Init.Byte.x61; Init.Byte.x62].
Definition s_41 : RedisStringObject := str_of [Init.Byte.x34; Init.Byte.x31].

Lemma s_ab_wf : str_wf s_ab.
Proof. concrete. Qed.
Lemma s_41_wf : str_wf s_41.
Proof. concrete. Qed.

(** C14: when BITFIELD decides to update, the object it commits is the very
    buffer on which the replies were computed. *)
Theorem bitfield_execute_matches_commit o vct r r' :
  Execute_BitField o vct r = Some (r', true) ->
  exists p, bitfield_exec_loop (bitfield_buffer o vct) (sr_vct_int_ r) false vct
            = Some (p, sr_vct_int_ r', true)
  /\ CommitBitField o vct = Some (mkStr (es_of_data p)).
Proof.
  unfold Execute_BitField, CommitBitField.
  destruct (bitfield_exec_loop _ _ _ _) as [[[p out] b]|] eqn:E; [|done].
  intros H. injection H as <- ->. exists p. split; [done|].
  destruct (bitfield_exec_commit _ _ _ _ _ _ _ false E ltac:(done)) as (ub & -> & Hu).
  by rewrite (Hu eq_refl).
Qed.

(** Set an unsigned byte at bit 4, then increment it past its maximum. *)
Lemma bitfield_execute_matches_commit_witness :
  let vct := [mkSub BF_SET false 8 BF_WRAP 4 250; mkSub BF_INCR false 8 BF_SAT 4 10] in
  exists p, bitfield_exec_loop (bitfield_buffer s_ab vct) [] false vct
            = Some (p, [(true, 22); (true, 255)], true)
  /\ CommitBitField s_ab vct = Some (mkStr (es_of_data p)).
Proof.
  exact (bitfield_execute_matches_commit s_ab
    [mkSub BF_SET false 8 BF_WRAP 4 250; mkSub BF_INCR false 8 BF_SAT 4 10] string_result0
    (sr_set_vct [(true, 22); (true, 255)] (sr_set_err RD_OK string_result0)) ltac:(vm_compute; reflexivity)).
Defined.

(** BITFIELD INCRBY with WRAP, on a field below 64 bits, stores the sum
    modulo the field width, leaves every other bit alone, and replies with the
    stored value for signed fields and whenever the sum fits. *)
Theorem bitfield_incr_wraps p sgn n off incr :
  bf_width sgn n -> n < 64 -> is_i64 incr -> 0 <= off -> off + n <= 8 * zlen p ->
  exists p' reply,
    bitfield_exec1 p (mkSub BF_INCR sgn n BF_WRAP off incr) = Some (p', (true, reply), true)
    /\ length p' = length p
    /\ (forall i, 0 <= i -> ~ (off <= i < off + n) -> sbit p' i = sbit p i)
    /\ bf_field p' sgn n off = bf_norm sgn n (bf_field p sgn n off + incr)
    /\ (sgn = true \/ in_field sgn n (bf_field p sgn n off + incr) ->
        reply = bf_field p' sgn n off).
Proof. apply bitfield_incr_wrap_of. Qed.

Lemma bitfield_incr_wraps_witness :
  let p := [Init.Byte.x7f; Init.Byte.x00] in
  exists p' reply,
    bitfield_exec1 p (mkSub BF_INCR true 8 BF_WRAP 0 1) = Some (p', (true, reply), true)
    /\ length p' = length p
    /\ (forall i, 0 <= i -> ~ (0 <= i < 0 + 8) -> sbit p' i = sbit p i)
    /\ bf_field p' true 8 0 = bf_norm true 8 (bf_field p true 8 0 + 1)
    /\ (true = true \/ in_field true 8 (bf_field p true 8 0 + 1) -> reply = bf_field p' true 8 0).
Proof.
  exact (bitfield_incr_wraps [Init.Byte.x7f; Init.Byte.x00] true 8 0 1
    ltac:(concrete) ltac:(lia) ltac:(concrete) ltac:(lia) ltac:(concrete)).
Defined.

(** an accepted SETBIT replies with the old bit, and afterwards GETBIT
    reads the new value at that offset and the old one everywhere else; the
    string grows just enough. *)
Theorem setbit_getbit o i (v : bool) r r' :
  str_wf o -> str_small (str_StringView o) -> 0 <= i < 2 ^ 63 ->
  Execute_SetBit o i r = (r', true) ->
  sr_int_ret_ r' = sr_int_ret_ (Execute_GetBit o i r)
  /\ exists o', CommitSetBit o i (Z.b2z v) = Some o' /\ str_wf o'
     /\ zlen (str_StringView o') = Z.max (zlen (str_StringView o)) (i / 8 + 1)
     /\ forall k, 0 <= k < 2 ^ 63 ->
          sr_int_ret_ (Execute_GetBit o' k r)
          = if k =? i then Z.b2z v else sr_int_ret_ (Execute_GetBit o k r).
Proof.
  intros H. canon_str H c Hc. rewrite view_str_of. intros Hs Hi.
  rewrite Execute_SetBit_of, Execute_GetBit_of by done. case_decide as Hd; [done|].
  intros [= <-]. split; [done|]. exists (str_of (spec_setbit c i v)).
  unfold str_small, MAX_OBJECT_SIZE in *.
  assert (0 <= i < 2 ^ 34) by (pose proof (Z.div_mod i 8); pose proof (Z.mod_pos_bound i 8); lia).
  assert (zlen (spec_setbit c i v) = Z.max (zlen c) (i / 8 + 1)) as Hz by (apply zlen_spec_setbit; lia).
  split_and!.
  - rewrite CommitSetBit_of by (done || (destruct v; cbn; lia)). do 3 f_equal. by destruct v.
  - apply str_wf_of. rewrite Hz. pose proof (zlen_nonneg c).
    assert (i / 8 < 2 ^ 31) by (apply Z.div_lt_upper_bound; lia).
    assert (0 <= i / 8) by (apply Z.div_pos; lia). mach. lia.
  - done.
  - intros k Hk. rewrite !Execute_GetBit_of by lia. cbn. rewrite sbit_spec_setbit by lia.
    by destruct (k =? i).
Qed.

Lemma setbit_getbit_witness :
  sr_int_ret_ (Execute_SetBit s_ab 30 string_result0).1 = sr_int_ret_ (Execute_GetBit s_ab 30 string_result0)
  /\ exists o', CommitSetBit s_ab 30 (Z.b2z true) = Some o' /\ str_wf o'
     /\ zlen (str_StringView o') = Z.max (zlen (str_StringView s_ab)) (30 / 8 + 1)
     /\ forall k, 0 <= k < 2 ^ 63 ->
          sr_int_ret_ (Execute_GetBit o' k string_result0)
          = if k =? 30 then Z.b2z true else sr_int_ret_ (Execute_GetBit s_ab k string_result0).
Proof.
  exact (setbit_getbit s_ab 30 true string_result0 (Execute_SetBit s_ab 30 string_result0).1
    s_ab_wf ltac:(concrete) ltac:(lia) eq_refl).
Defined.

(** A string is restored from its image, with and without a TTL; the
    announced length is the length of the image, both serializers agree, and
    [RemoveTTL] undoes [AddTTL]. *)
Lemma string_images o ttl :
  str_wf o -> is_u64 ttl ->
  let t := str_AddTTL o ttl in
  image_law (str_SerializedLength o) (str_Serialize_str o []) (str_Serialize_vec o) str_Deserialize o
  /\ image_law (strttl_SerializedLength t) (strttl_Serialize_str t []) (strttl_Serialize_vec t)
       strttl_Deserialize t
  /\ str_RemoveTTL t = o.
Proof.
  intros H. canon_str H c Hc. intros Ht. cbn zeta.
  assert (str_AddTTL (str_of c) ttl = mkStrTTL (str_of c) ttl) as ->
    by (unfold str_AddTTL; cbn [str_of str_obj_]; by rewrite es_move_own).
  unfold str_Serialize_str, strttl_Serialize_str, strttl_SerializedLength, str_SerializedLength.
  cbn [strttl_base strttl_ttl_]. change (str_obj_ (str_of c)) with (es_own c).
  rewrite view_str_of, !app_nil_l, str_length_of by done.
  split_and!; [split|split|].
  - zlen. rewrite zlen_lp_string by done. lia.
  - by apply str_Deserialize_of.
  - intros. by apply str_Serialize_vec_of.
  - zlen. rewrite zlen_lp_string by done. lia.
  - by apply strttl_Deserialize_of.
  - intros. by apply strttl_Serialize_vec_of.
  - unfold str_RemoveTTL. cbn [strttl_base str_of str_obj_]. by rewrite es_move_own.
Qed.

(** an accepted INCRBY replies with the exact sum, within 64 bits, and
    commits its decimal spelling, which reads back as that number. *)
Theorem incrby_agrees o incr r r' :
  str_wf o -> is_i64 incr -> Execute_IntOp o incr r = (r', true) ->
  exists old, counter (str_StringView o) = Some old
  /\ is_i64 (old + incr) /\ r' = mkIntResult RD_OK (old + incr)
  /\ str_wf (CommitIncrDecr o incr)
  /\ str_StringView (CommitIncrDecr o incr) = to_string (old + incr)
  /\ string2ll (str_StringView (CommitIncrDecr o incr)) = Some (old + incr).
Proof.
  intros H. canon_str H c Hc. intros Hi. rewrite Execute_IntOp_of, view_str_of by done.
  destruct (counter c) as [old|] eqn:Eo; [|done]. case_decide as Hd; [done|]. intros [= <-].
  assert (is_i64 (old + incr)) as Hr by (by apply incr_accepted_range; [eapply counter_range|..]).
  rewrite (CommitIncrDecr_of c old) by done. exists old. rewrite !view_str_of.
  split_and!; try done; [|by apply string2ll_print].
  apply str_wf_of. pose proof (to_string_short _ Hr). pose proof (zlen_nonneg (to_string (old + incr))).
  mach. lia.
Qed.

Lemma incrby_agrees_witness :
  exists old, counter (str_StringView s_41) = Some old
  /\ is_i64 (old + -50) /\ mkIntResult RD_OK (-9) = mkIntResult RD_OK (old + -50)
  /\ str_wf (CommitIncrDecr s_41 (-50))
  /\ str_StringView (CommitIncrDecr s_41 (-50)) = to_string (old + -50)
  /\ string2ll (str_StringView (CommitIncrDecr s_41 (-50))) = Some (old + -50).
Proof. exact (incrby_agrees s_41 (-50) int_result0 (mkIntResult RD_OK (-9)) s_41_wf ltac:(concrete) eq_refl). Defined.

(** an accepted SETRANGE overwrites the string from the offset on, padding
    a gap with zero bytes, and replies with the new length. *)
Theorem setrange_agrees o off v r r' :
  str_wf o -> str_small (str_StringView o) -> es_fits v -> 0 <= off < 2 ^ 62 ->
  Execute_SetRange o off v r = (r', true) ->
  exists o', CommitSetRange o off v = Some o' /\ str_wf o'
  /\ str_StringView o' = spec_setrange (str_StringView o) off (es_view v)
  /\ sr_int_ret_ r' = zlen (str_StringView o').
Proof.
  intros H. canon_str H c Hc. rewrite view_str_of. intros Hs Hv Ho.
  rewrite Execute_SetRange_of by done. case_decide as Hd; [done|]. intros [= <-].
  unfold str_small, MAX_OBJECT_SIZE in *.
  pose proof (zlen_nonneg c). pose proof (zlen_nonneg (es_view v)).
  rewrite CommitSetRange_of by (done || lia). eexists. split; [done|].
  rewrite view_str_of. split_and!; [|done|done].
  apply str_wf_of. rewrite zlen_spec_setrange by lia. mach. lia.
Qed.

Lemma setrange_agrees_witness :
  exists o', CommitSetRange s_ab 4 (es_own [Init.Byte.x63]) = Some o' /\ str_wf o'
  /\ str_StringView o' = spec_setrange (str_StringView s_ab) 4 [Init.Byte.x63]
  /\ 5 = zlen (str_StringView o').
Proof.
  exact (setrange_agrees s_ab 4 (es_own [Init.Byte.x63]) string_result0
    (sr_set_int 5 (sr_set_err RD_OK string_result0)) s_ab_wf ltac:(concrete) ltac:(concrete) ltac:(lia) eq_refl).
Defined.

(** BITCOUNT counts the set bits of the clamped range, in bytes or bits. *)
Theorem bitcount_correct o (by_bit : bool) start end_ r :
  str_wf o ->
  let c := str_StringView o in
  let '(s, e) := spec_range (if by_bit then 8 * zlen c else zlen c) start end_ in
  let unit := if by_bit then 1 else 8 in
  Execute_BitCount o by_bit start end_ r
  = Some (sr_set_int (bits_set c (unit * s) (unit * (e - s + 1))) (sr_set_err RD_OK r)).
Proof. intros H. canon_str H c Hc. rewrite view_str_of. by apply Execute_BitCount_of. Qed.

Lemma bitcount_correct_witness :
  Execute_BitCount s_ab false 0 (-1) string_result0 = Some (sr_set_int 6 (sr_set_err RD_OK string_result0)).
Proof. exact (bitcount_correct s_ab false 0 (-1) string_result0 s_ab_wf). Defined.

(** BITPOS finds the first bit with the value in the clamped range; without
    an explicit end, a search for a clear bit in a string of ones ends one past
    the string. *)
Theorem bitpos_correct o v start end_ r :
  str_wf o -> str_small (str_StringView o) ->
  let c := str_StringView o in
  let '(s, e) := spec_range (8 * zlen c) start end_ in
  Execute_BitPos o (Z.b2z v) start end_ r
  = Some (sr_set_int
      match first_bit c v s (e - s + 1) with
      | Some i => i
      | None => if decide (end_ = INT64_MAX /\ c <> [] /\ v = false) then 8 * zlen c else -1
      end r).
Proof. intros H. canon_str H c Hc. rewrite view_str_of. intros Hs. by apply Execute_BitPos_of. Qed.

Lemma bitpos_correct_witness :
  Execute_BitPos s_ab (Z.b2z true) 8 INT64_MAX string_result0 = Some (sr_set_int 9 string_result0).
Proof. exact (bitpos_correct s_ab true 8 INT64_MAX string_result0 s_ab_wf ltac:(concrete)). Defined.

(** an accepted APPEND appends, and replies with the new length; it is
    accepted exactly when the result stays within the object size limit. *)
Theorem append_agrees o v r :
  str_wf o -> es_fits v ->
  let c := str_StringView o in
  (Execute_Append o v r).2 = bool_decide (str_small (c ++ es_view v))
  /\ (str_small (c ++ es_view v) ->
      sr_int_ret_ (Execute_Append o v r).1 = zlen (c ++ es_view v)
      /\ exists o', CommitAppend o v = Some o' /\ str_wf o' /\ str_StringView o' = c ++ es_view v).
Proof.
  intros H. canon_str H c Hc. rewrite view_str_of. intros Hv. cbn zeta.
  unfold Execute_Append, str_SerializedLength, str_small, MAX_OBJECT_SIZE.
  change (str_obj_ (str_of c)) with (es_own c).
  pose proof (zlen_nonneg c). pose proof (zlen_nonneg (es_view v)).
  unfold es_fits, fits in Hv. rewrite str_length_of, es_length_fits, zlen_app by done.
  rewrite u64_id by (mach; lia).
  case_bool_decide as Hb; destruct (Z.ltb_spec (256 * 1024 * 1024) (1 + 4 + zlen c + zlen (es_view v)));
    try lia; (split; [done|]); intros Hs; [|lia].
  cbn. rewrite u32_id by (mach; lia). split; [lia|].
  rewrite CommitAppend_of by (done || lia). eexists. split; [done|]. split; [|done].
  apply str_wf_of. zlen. mach. lia.
Qed.

Lemma append_agrees_witness :
  let v := es_own [Init.Byte.x63] in
  (Execute_Append s_ab v string_result0).2 = bool_decide (str_small (str_StringView s_ab ++ es_view v))
  /\ (str_small (str_StringView s_ab ++ es_view v) ->
      sr_int_ret_ (Execute_Append s_ab v string_result0).1 = 3
      /\ exists o', CommitAppend s_ab v = Some o' /\ str_wf o'
         /\ str_StringView o' = [Init.Byte.x61; Init.Byte.x62; Init.Byte.x63]).
Proof. exact (append_agrees s_ab (es_own [Init.Byte.x63]) string_result0 s_ab_wf ltac:(concrete)). Defined.

(** with OVERFLOW SAT, adding 1 to the largest signed 64-bit value does not
    saturate: the limit that is stored and replied is 0. *)
Theorem bitfield_sat_i64_overflow_is_zero :
  IsBitfieldUnoverflow INT64_MAX 1 64 true BF_SAT = Some (true, 0)
  /\ bf_max true 64 = INT64_MAX.
Proof. split; reflexivity. Qed.
