(* ===== verification/HashObject.v ===== *)
(** * RedisHashObject

    The hash object of include/redis_hash_object.h and
    src/redis_hash_object.cpp: a hash map from field to value and the running
    length of its serialized image.  The map is a finite map from the bytes of
    a field to the stored field and value.  Its iteration order is not
    specified, so an operation that iterates takes the visited entries as an
    argument; the theorems hold for every order. *)

From S2P Require Import Prelude Codec EloqString RedisTypes StringNum StringMatch.

Definition HashEntry : Type := EloqString * EloqString.

Record RedisHashObject := mkHash {
  hash_map_ : gmap bytes HashEntry;
  hash_serialized_length_ : Z
}.

Definition hash_new : RedisHashObject := mkHash ∅ (1 + 4).

(** [it] lists the entries from [begin()] to [end()]. *)
Definition hash_iter (o : RedisHashObject) (it : list HashEntry) : Prop :=
  it ≡ₚ (map_to_list (hash_map_ o)).*2.

Definition hash_size (o : RedisHashObject) : Z := Z.of_nat (size (hash_map_ o)).

Definition hash_find (o : RedisHashObject) (field : EloqString) : option HashEntry :=
  hash_map_ o !! es_view field.

(** [insert_or_assign] keeps the stored key when there is one. *)
Definition insert_or_assign (m : gmap bytes HashEntry) (k v : EloqString) : gmap bytes HashEntry :=
  <[es_view k := (match m !! es_view k with Some (k0, _) => k0 | None => k end, v)]> m.

(** ** Deciding *)

Fixpoint hset_loop (o : RedisHashObject) (pairs : list HashEntry) (ans len : Z) : Z * Z :=
  match pairs with
  | [] => (ans, len)
  | (f, v) :: l =>
      match hash_find o f with
      | None => hset_loop o l (i32 (ans + 1)) (i64 (len + (4 * 2 + es_length f + es_length v)))
      | Some (_, old) => hset_loop o l ans (i64 (len + es_length v - es_length old))
      end
  end.

Definition Execute_HSet (o : RedisHashObject) (field_value_pairs_ : list HashEntry)
    (r : RedisHashResult) : RedisHashResult * bool :=
  let '(ans, len) := hset_loop o field_value_pairs_ 0 0 in
  if MAX_OBJECT_SIZE <? u64 (hash_serialized_length_ o + len)
  then (hr_set_err RD_ERR_OBJECT_TOO_BIG r, false)
  else (hr_set_err RD_OK (hr_set_result (HRInt ans) r), true).

Definition Execute_HGet (o : RedisHashObject) (field_ : EloqString) (r : RedisHashResult)
    : RedisHashResult :=
  match hash_find o field_ with
  | None => hr_set_err RD_NIL r
  | Some (_, v) => hr_set_result (HRString (es_view v)) (hr_set_err RD_OK r)
  end.

Definition Execute_HLen (o : RedisHashObject) (r : RedisHashResult) : RedisHashResult :=
  hr_set_err RD_OK (hr_set_result (HRInt (hash_size o)) r).

Definition Execute_HStrLen (o : RedisHashObject) (field_ : EloqString) (r : RedisHashResult)
    : RedisHashResult :=
  match hash_find o field_ with
  | Some (_, v) => hr_set_err RD_OK (hr_set_result (HRInt (es_length v)) r)
  | None => hr_set_err RD_OK (hr_set_result (HRInt 0) r)
  end.

(** [for (key : del_list_) cnt += (find(key) != end());] *)
Fixpoint hdel_count (o : RedisHashObject) (cnt : Z) (del_list_ : list EloqString) : Z :=
  match del_list_ with
  | [] => cnt
  | key :: l => hdel_count o (i32 (cnt + match hash_find o key with Some _ => 1 | None => 0 end)) l
  end.

Definition Execute_HDel (o : RedisHashObject) (del_list_ : list EloqString)
    (r : RedisHashResult) : RedisHashResult * CommandExecuteState :=
  let cnt := hdel_count o 0 del_list_ in
  let r := if 0 <? cnt then hr_set_err RD_OK r else r in
  let r := hr_set_result (HRInt cnt) r in
  if cnt =? 0 then (r, NoChange)
  else (r, if hash_size o <=? u64 cnt then ModifiedToEmpty else Modified).

Definition Execute_HExists (o : RedisHashObject) (key_ : EloqString) (r : RedisHashResult)
    : RedisHashResult :=
  match hash_find o key_ with
  | Some _ => hr_set_err RD_OK r
  | None => r
  end.

Definition Execute_HGetAll (it : list HashEntry) (r : RedisHashResult) : RedisHashResult :=
  hr_set_err RD_OK (hr_set_result
    (HRStrings (concat ((fun '(k, v) => [es_view k; es_view v]) <$> it))) r).

Definition Execute_HKeys (it : list HashEntry) (r : RedisHashResult) : RedisHashResult :=
  hr_set_err RD_OK (hr_set_result (HRStrings ((fun e => es_view e.1) <$> it)) r).

Definition Execute_HVals (it : list HashEntry) (r : RedisHashResult) : RedisHashResult :=
  hr_set_err RD_OK (hr_set_result (HRStrings ((fun e => es_view e.2) <$> it)) r).

Definition Execute_HMGet (o : RedisHashObject) (fields_ : list EloqString) (r : RedisHashResult)
    : RedisHashResult :=
  hr_set_err RD_OK (hr_set_result
    (HRNilable ((fun f => (fun e => es_view e.2) <$> hash_find o f) <$> fields_)) r).

Definition Execute_HIncrBy (o : RedisHashObject) (field_ : EloqString) (score_ : Z)
    (r : RedisHashResult) : RedisHashResult * bool :=
  let check (old_val len : Z) :=
    if ((score_ <? 0) && (old_val <=? 0) && (score_ <=? INT64_MIN - old_val))
       || ((0 <? score_) && (0 <=? old_val) && (INT64_MAX - old_val <=? score_))
    then (hr_set_err RD_ERR_INCR_OVERFLOW r, false)
    else
      let r := hr_set_result (HRInt (i64 (old_val + score_))) (hr_set_err RD_OK r) in
      let len := i64 (len + 20) in
      if MAX_OBJECT_SIZE <? u64 (hash_serialized_length_ o + len)
      then (hr_set_err RD_ERR_OBJECT_TOO_BIG r, false)
      else (r, true) in
  match hash_find o field_ with
  | Some (_, v) =>
      match string2ll (es_data v) with
      | None => (hr_set_err RD_ERR_HASH_VAL_ERROR r, false)
      | Some old_val => check old_val (i64 (0 - es_length v))
      end
  | None => check 0 (i64 (0 + (4 * 2 + es_length field_)))
  end.

(** An existing field leaves the result as it was. *)
Definition Execute_HSetNx (o : RedisHashObject) (key_ value_ : EloqString) (r : RedisHashResult)
    : RedisHashResult * bool :=
  match hash_find o key_ with
  | None =>
      if MAX_OBJECT_SIZE
         <? u64 (hash_serialized_length_ o + 4 * 2 + es_length key_ + es_length value_)
      then (hr_set_err RD_ERR_OBJECT_TOO_BIG r, false)
      else (hr_set_err RD_OK r, true)
  | Some _ => (r, false)
  end.

(** The whole hash is returned under cursor 0.  [after] is the memory behind
    the pattern; [None] when the matcher would leave it. *)
Fixpoint hscan_loop (pattern_ : option bytes) (after : bytes) (novalues_ : bool)
    (it : list HashEntry) (scan_ans : list bytes) : option (list bytes) :=
  match it with
  | [] => Some scan_ans
  | (k, v) :: it =>
      match (match pattern_ with
             | None => Some true
             | Some p => stringmatchlen p after (es_data k) false
             end) with
      | None => None
      | Some true =>
          hscan_loop pattern_ after novalues_ it
            (scan_ans ++ es_view k :: if novalues_ then [] else [es_view v])
      | Some false => hscan_loop pattern_ after novalues_ it scan_ans
      end
  end.

Definition Execute_HScan (pattern_ : option bytes) (after : bytes) (novalues_ : bool)
    (it : list HashEntry) (r : RedisHashResult) : option RedisHashResult :=
  match hscan_loop pattern_ after novalues_ it [to_string 0] with
  | Some scan_ans => Some (hr_set_result (HRStrings scan_ans) (hr_set_err RD_OK r))
  | None => None
  end.

(** ** Mutating *)

Definition SetField (o : RedisHashObject) (field value : EloqString) : RedisHashObject :=
  let len :=
    match hash_find o field with
    | None => u64 (hash_serialized_length_ o + (4 * 2 + es_length field + es_length value))
    | Some (_, old) => u64 (hash_serialized_length_ o + es_length value - es_length old)
    end in
  let '(k, v) :=
    if es_is_view field then (es_clone field, es_clone value)
    else ((es_move field).1, (es_move value).1) in
  mkHash (insert_or_assign (hash_map_ o) k v) len.

Fixpoint CommitHset (o : RedisHashObject) (elements : list HashEntry) : RedisHashObject :=
  match elements with
  | [] => o
  | (field, value) :: l => CommitHset (SetField o field value) l
  end.

Fixpoint hdel_loop (o : RedisHashObject) (keys : list EloqString) : RedisHashObject :=
  match keys with
  | [] => o
  | key :: l =>
      match hash_find o key with
      | None => hdel_loop o l
      | Some (k, v) =>
          hdel_loop (mkHash (delete (es_view key) (hash_map_ o))
            (u64 (hash_serialized_length_ o - (4 * 2 + es_length k + es_length v)))) l
      end
  end.

Definition CommitHdel (o : RedisHashObject) (keys : list EloqString) : RedisHashObject * bool :=
  let o := hdel_loop o keys in (o, hash_size o =? 0).

(** A value that does not parse leaves [old_score] at 0. *)
Definition CommitHincrby (o : RedisHashObject) (field : EloqString) (score : Z) : RedisHashObject :=
  let '(old_score, len) :=
    match hash_find o field with
    | Some (_, v) =>
        (default 0 (string2ll (es_data v)), u64 (hash_serialized_length_ o - es_length v))
    | None => (0, u64 (hash_serialized_length_ o + (4 * 2 + es_length field)))
    end in
  let final_score := to_string (i64 (old_score + score)) in
  let len := u64 (len + zlen final_score) in
  mkHash (insert_or_assign (hash_map_ o)
            (if es_is_view field then es_clone field else (es_move field).1)
            (es_of_data final_score)) len.

Definition CommitHSetNx (o : RedisHashObject) (key val : EloqString) : RedisHashObject :=
  let len := u64 (hash_serialized_length_ o + (4 * 2 + es_length key + es_length val)) in
  let '(k, v) :=
    if es_is_view key then (es_clone key, es_clone val)
    else ((es_move key).1, (es_move val).1) in
  mkHash (insert_or_assign (hash_map_ o) k v) len.

(** ** Comparison and serialization *)

Definition hash_operator_eq (it : list HashEntry) (a b : RedisHashObject) : bool :=
  forallb (fun '(k, v) =>
    match hash_find b k with
    | None => false
    | Some (_, w) => es_eqb w v
    end) it
  && (hash_size a =? hash_size b).

Definition entry_str (e : HashEntry) : bytes := lp_string (es_view e.1) ++ lp_string (es_view e.2).

Definition hash_Serialize_str (o : RedisHashObject) (it : list HashEntry) (str : bytes) : bytes :=
  str ++ type_byte TyHash ++ le_bytes 4 (hash_size o) ++ concat (entry_str <$> it).

Definition hash_Serialize_vec (o : RedisHashObject) (it : list HashEntry) (buf : bytes)
    (offset : nat) : option (bytes * nat) :=
  let buf := vresize (offset + Z.to_nat (hash_serialized_length_ o)) buf in
  (vput (type_byte TyHash) ;;w vput (le_bytes 4 (hash_size o))
     ;;w vfor (fun e => vput_lp e.1 ;;w vput_lp e.2) it) (buf, offset).

Fixpoint hash_read_entries (cnt : nat) (o : RedisHashObject) : Reader RedisHashObject :=
  match cnt with
  | O => rret o
  | S cnt' =>
      key <-- read_lp_string;
      value <-- read_lp_string;
      hash_read_entries cnt' (SetField o (es_own key) (es_own value))
  end.

Definition hash_Deserialize : Reader RedisHashObject :=
  res <-- read_consumed (
    _ <-- read_bytes 1;
    cnt <-- read_u32;
    hash_read_entries (Z.to_nat cnt) (mkHash ∅ 0));
  rret (mkHash (hash_map_ res.1) (u64 res.2)).

(** ** The TTL variant *)

Record RedisHashTTLObject := mkHashTTL { hashttl_base : RedisHashObject; hashttl_ttl_ : Z }.

(** The map is moved into the new object. *)
Definition hash_AddTTL (o : RedisHashObject) (ttl : Z) : RedisHashTTLObject := mkHashTTL o ttl.
Definition hash_RemoveTTL (o : RedisHashTTLObject) : RedisHashObject := hashttl_base o.

Definition hashttl_SerializedLength (o : RedisHashTTLObject) : Z :=
  u64 (8 + hash_serialized_length_ (hashttl_base o)).

Definition hashttl_Serialize_str (o : RedisHashTTLObject) (it : list HashEntry) (str : bytes)
    : bytes :=
  str ++ type_byte TyTTLHash ++ le_bytes 8 (hashttl_ttl_ o)
      ++ le_bytes 4 (hash_size (hashttl_base o)) ++ concat (entry_str <$> it).

Definition hashttl_Serialize_vec (o : RedisHashTTLObject) (it : list HashEntry) (buf : bytes)
    (offset : nat) : option (bytes * nat) :=
  let b := hashttl_base o in
  let buf := vresize (offset + 8 + Z.to_nat (hash_serialized_length_ b)) buf in
  (vput (type_byte TyTTLHash) ;;w vput (le_bytes 8 (hashttl_ttl_ o))
     ;;w vput (le_bytes 4 (hash_size b))
     ;;w vfor (fun e => vput_lp e.1 ;;w vput_lp e.2) it) (buf, offset).

Definition hashttl_Deserialize : Reader RedisHashTTLObject :=
  res <-- read_consumed (
    _ <-- read_bytes 1;
    ttl <-- read_u64;
    cnt <-- read_u32;
    o <-- hash_read_entries (Z.to_nat cnt) (mkHash ∅ 0);
    rret (ttl, o));
  rret (mkHashTTL (mkHash (hash_map_ res.1.2) (u64 (res.2 - 8))) res.1.1).

(** ** The abstract hash

    A hash object stands for a finite map from bytes to bytes; [hash_of m] is
    the only well-formed object that shows [m]. *)

Definition own_entry (k v : bytes) : option HashEntry := Some (es_own k, es_own v).
Definition own_map (m : gmap bytes bytes) : gmap bytes HashEntry := map_imap own_entry m.

Definition entry_len (kv : bytes * bytes) : Z := 8 + zlen kv.1 + zlen kv.2.
Definition hash_image_len (m : gmap bytes bytes) : Z := 5 + zsum entry_len (map_to_list m).

Definition hash_of (m : gmap bytes bytes) : RedisHashObject :=
  mkHash (own_map m) (u64 (hash_image_len m)).

Definition hash_contents (o : RedisHashObject) : gmap bytes bytes :=
  (fun e : HashEntry => es_view e.2) <$> hash_map_ o.

Definition hash_fits (m : gmap bytes bytes) : Prop := map_Forall (fun k v => fits k /\ fits v) m.

(** The type invariant: every entry is stored under its own bytes, owned and
    short enough, and the running length is the length of the image. *)
Record hash_wf (o : RedisHashObject) : Prop := {
  hwf_entries : map_Forall (fun k (e : HashEntry) => e.1 = es_own k /\ es_owned e.2
                                       /\ fits k /\ es_fits e.2) (hash_map_ o);
  hwf_len : hash_serialized_length_ o = u64 (hash_image_len (hash_contents o))
}.

(** A pair a command may carry: never an owned field with a viewed value. *)
Definition pair_ok (e : HashEntry) : Prop :=
  es_fits e.1 /\ es_fits e.2 /\ (es_is_view e.1 = false -> es_is_view e.2 = false).

Lemma lookup_own_map m k : own_map m !! k = (fun v => (es_own k, es_own v)) <$> m !! k.
Proof. unfold own_map. rewrite map_lookup_imap. by destruct (m !! k). Qed.

Lemma own_map_insert m k v : own_map (<[k := v]> m) = <[k := (es_own k, es_own v)]> (own_map m).
Proof. by apply map_imap_insert_Some. Qed.

Lemma own_map_delete m k : own_map (delete k m) = delete k (own_map m).
Proof. apply map_imap_delete. Qed.

Lemma size_own_map m : size (own_map m) = size m.
Proof.
  rewrite <-!size_dom. f_equal. apply set_eq. intros k.
  rewrite !elem_of_dom, lookup_own_map. unfold is_Some.
  destruct (m !! k); cbn; split; intros [? [=]]; eauto.
Qed.

Lemma hash_contents_of m : hash_contents (hash_of m) = m.
Proof.
  unfold hash_contents, hash_of. cbn. apply map_eq. intros k.
  rewrite lookup_fmap, lookup_own_map. by destruct (m !! k).
Qed.

Lemma hash_wf_of m : hash_fits m -> hash_wf (hash_of m).
Proof.
  intros H. split; [|by rewrite hash_contents_of]. intros k e.
  cbn. rewrite lookup_own_map. destruct (m !! k) as [v|] eqn:E; [|done].
  intros [= <-]. by destruct (H k v E).
Qed.

Lemma hash_wf_canonical o :
  hash_wf o -> o = hash_of (hash_contents o) /\ hash_fits (hash_contents o).
Proof.
  intros [He Hl]. destruct o as [m n]. unfold hash_of, hash_contents in *. cbn in *. split.
  - f_equal; [|done]. apply map_eq. intros k. rewrite lookup_own_map, lookup_fmap.
    destruct (m !! k) as [[a b]|] eqn:E; [|done]. destruct (He k _ E) as (Ha & Hb & _).
    cbn [fst snd fmap option_fmap option_map] in *. by rewrite Ha, <-(es_owned_eta b).
  - intros k v. rewrite lookup_fmap. destruct (m !! k) as [[a b]|] eqn:E; [|done].
    intros [= <-]. by destruct (He k _ E) as (_ & _ & ? & ?).
Qed.

Lemma hash_find_of m f : hash_find (hash_of m) f = (fun v => (es_own (es_view f), es_own v)) <$> m !! es_view f.
Proof. unfold hash_find. apply lookup_own_map. Qed.

Lemma hash_size_of m : hash_size (hash_of m) = Z.of_nat (size m).
Proof. unfold hash_size. by rewrite <-size_own_map. Qed.

(** *** Length bookkeeping *)

Lemma image_len_insert_new m k v :
  m !! k = None -> hash_image_len (<[k := v]> m) = hash_image_len m + entry_len (k, v).
Proof.
  intros H. unfold hash_image_len. rewrite (zsum_perm _ _ _ (map_to_list_insert m k v H)).
  cbn [zsum]. lia.
Qed.

Lemma image_len_delete m k v :
  m !! k = Some v -> hash_image_len (delete k m) = hash_image_len m - entry_len (k, v).
Proof.
  intros H. unfold hash_image_len. rewrite <-(zsum_perm _ _ _ (map_to_list_delete m k v H)).
  cbn [zsum]. lia.
Qed.

Lemma image_len_insert_old m k v w :
  m !! k = Some w -> hash_image_len (<[k := v]> m) = hash_image_len m + zlen v - zlen w.
Proof.
  intros H. rewrite <-insert_delete_eq, image_len_insert_new by apply lookup_delete_eq.
  rewrite (image_len_delete m k w) by done. unfold entry_len. cbn. lia.
Qed.

Lemma hash_image_len_pos m : 5 <= hash_image_len m.
Proof.
  unfold hash_image_len.
  assert (0 <= zsum entry_len (map_to_list m)); [|lia]. apply zsum_nonneg.
  intros [k v]. unfold entry_len. cbn. pose proof (zlen_nonneg k). pose proof (zlen_nonneg v). lia.
Qed.

(** *** Every commit computes the map update *)

Lemma insert_or_assign_own m k v :
  insert_or_assign (own_map m) (es_own k) (es_own v) = own_map (<[k := v]> m).
Proof.
  rewrite own_map_insert. unfold insert_or_assign. cbn [es_view es_own].
  rewrite lookup_own_map. by destruct (m !! k).
Qed.

(** What is stored for a field and a value of a command. *)
Lemma stored_pair f v :
  pair_ok (f, v) ->
  (if es_is_view f then (es_clone f, es_clone v) else ((es_move f).1, (es_move v).1))
  = (es_own (es_view f), es_own (es_view v)).
Proof.
  intros (Hf & Hv & Hview). cbn in *.
  pose proof (es_take_own false f Hf) as Ef. pose proof (es_take_own true v Hv) as Ev.
  pose proof (es_take_own false v Hv) as Ev'.
  unfold es_take in *. rewrite orb_true_r in Ev. cbn in Ev.
  destruct (es_is_view f); cbn in *; [by rewrite Ef, Ev|].
  rewrite Hview in Ev' by done. cbn in Ev'. by rewrite Ef, Ev'.
Qed.

Lemma SetField_map o m f v :
  hash_map_ o = own_map m -> pair_ok (f, v) ->
  hash_map_ (SetField o f v) = own_map (<[es_view f := es_view v]> m).
Proof.
  intros E H. unfold SetField. rewrite stored_pair by done. cbn [hash_map_].
  by rewrite E, insert_or_assign_own.
Qed.

Lemma SetField_of m f v :
  hash_fits m -> pair_ok (f, v) ->
  SetField (hash_of m) f v = hash_of (<[es_view f := es_view v]> m).
Proof.
  intros Hm Hp. unfold SetField. rewrite stored_pair, hash_find_of by done.
  destruct Hp as (Hf & Hv & _). cbn in Hf, Hv. unfold hash_of. f_equal.
  - apply insert_or_assign_own.
  - cbn [hash_serialized_length_]. rewrite !es_length_fits by done.
    destruct (m !! es_view f) as [w|] eqn:E; cbn [fmap option_fmap option_map].
    + rewrite (image_len_insert_old _ _ _ _ E), es_length_own by (by destruct (Hm _ _ E)).
      rewrite <-Z.add_sub_assoc, <-Z.add_sub_assoc. by wrap64.
    + rewrite image_len_insert_new by done. by wrap64.
Qed.

Lemma hash_fits_insert m k v : hash_fits m -> fits k -> fits v -> hash_fits (<[k := v]> m).
Proof. intros Hm Hk Hv. by apply map_Forall_insert_2. Qed.

(** The map after a list of assignments. *)
Definition hset_all (m : gmap bytes bytes) (l : list (bytes * bytes)) : gmap bytes bytes :=
  foldl (fun m kv => <[kv.1 := kv.2]> m) m l.

Definition views (l : list HashEntry) : list (bytes * bytes) := (fun e => (es_view e.1, es_view e.2)) <$> l.

Lemma CommitHset_of m els :
  hash_fits m -> Forall pair_ok els ->
  CommitHset (hash_of m) els = hash_of (hset_all m (views els)) /\ hash_fits (hset_all m (views els)).
Proof.
  intros Hm H. revert m Hm. induction H as [|[f v] els Hp Hels IH]; intros m Hm; cbn; [done|].
  rewrite SetField_of by done. apply IH. destruct Hp as (? & ? & _). by apply hash_fits_insert.
Qed.

Lemma CommitHSetNx_of m f v :
  pair_ok (f, v) -> m !! es_view f = None ->
  CommitHSetNx (hash_of m) f v = hash_of (<[es_view f := es_view v]> m).
Proof.
  intros Hp E. unfold CommitHSetNx. rewrite stored_pair by done.
  destruct Hp as (Hf & Hv & _). cbn in Hf, Hv. unfold hash_of. f_equal.
  - apply insert_or_assign_own.
  - cbn [hash_serialized_length_]. rewrite !es_length_fits, image_len_insert_new by done.
    by wrap64.
Qed.

(** The map after HDEL. *)
Definition hdel_all (m : gmap bytes bytes) (l : list bytes) : gmap bytes bytes :=
  foldl (fun m k => delete k m) m l.

Lemma hdel_loop_of m keys :
  hash_fits m ->
  hdel_loop (hash_of m) keys = hash_of (hdel_all m (es_view <$> keys))
  /\ hash_fits (hdel_all m (es_view <$> keys)).
Proof.
  revert m. induction keys as [|key keys IH]; intros m Hm; cbn [hdel_loop fmap list_fmap hdel_all foldl]; [done|].
  rewrite hash_find_of. destruct (m !! es_view key) as [v|] eqn:E; cbn [fmap option_fmap option_map].
  - assert (hash_fits (delete (es_view key) m)) as Hd by (by apply map_Forall_delete).
    replace (mkHash _ _) with (hash_of (delete (es_view key) m)); [by apply IH|].
    destruct (Hm _ _ E) as [Hk Hv]. unfold hash_of. f_equal; [apply own_map_delete|].
    cbn [hash_serialized_length_]. rewrite !es_length_own by done.
    rewrite (image_len_delete _ _ _ E). by wrap64.
  - rewrite delete_id by done. by apply IH.
Qed.

Lemma CommitHdel_of m keys :
  hash_fits m ->
  CommitHdel (hash_of m) keys
  = (hash_of (hdel_all m (es_view <$> keys)), bool_decide (hdel_all m (es_view <$> keys) = ∅)).
Proof.
  intros Hm. unfold CommitHdel. destruct (hdel_loop_of m keys Hm) as [-> _].
  f_equal. rewrite hash_size_of. case_bool_decide as E.
  - by rewrite E, map_size_empty.
  - apply Z.eqb_neq. apply map_size_non_empty_iff in E. lia.
Qed.

(** *** The deciding step agrees with the commit *)

Lemma hset_loop_of m m0 els ans len :
  hash_fits m -> Forall pair_ok els -> NoDup (views els).*1 ->
  (forall k, k ∈ (views els).*1 -> m0 !! k = m !! k) ->
  0 <= ans -> ans + zlen els <= INT32_MAX ->
  let '(ans', len') := hset_loop (hash_of m) els ans len in
  let m' := hset_all m0 (views els) in
  ans' = ans + (Z.of_nat (size m') - Z.of_nat (size m0))
  /\ u64 len' = u64 (len + (hash_image_len m' - hash_image_len m0)).
Proof.
  intros Hm Hok Hnd. revert m0 ans len.
  induction els as [|[f v] els IH]; intros m0 ans len Heq H0 Ha.
  { cbn. split; [lia|]. f_equal. lia. }
  apply Forall_cons_1 in Hok as [(Hf & Hv & _) Hok]. cbn in Hf, Hv.
  cbn [views fmap list_fmap fst snd hset_all foldl] in *. fold (views els) in *.
  fold (hset_all (<[es_view f := es_view v]> m0) (views els)).
  apply list.NoDup_cons in Hnd as [Hnin Hnd].
  assert (forall k, k ∈ (views els).*1 -> <[es_view f := es_view v]> m0 !! k = m !! k) as Heq'.
  { intros k Hk. rewrite lookup_insert_ne by (by intros <-). apply Heq. by right. }
  assert (m0 !! es_view f = m !! es_view f) as Ef by (apply Heq; left).
  cbn [hset_loop]. rewrite hash_find_of. rewrite zlen_cons in Ha. pose proof (zlen_nonneg els).
  destruct (m !! es_view f) as [w|] eqn:E; cbn [fmap option_fmap option_map].
  - specialize (IH Hok Hnd _ ans (i64 (len + es_length v - es_length (es_own w))) Heq' H0 ltac:(lia)).
    destruct (hset_loop _ _ _ _) as [ans' len']. destruct IH as [-> ->].
    rewrite map_size_insert_Some by eauto. split; [lia|].
    rewrite (image_len_insert_old _ _ _ _ Ef), es_length_fits, es_length_own by (done || by destruct (Hm _ _ E)).
    rewrite Z.add_comm, u64_i64_add_r. f_equal. lia.
  - rewrite (i32_id (ans + 1)) by (mach; lia).
    specialize (IH Hok Hnd _ (ans + 1) (i64 (len + (4 * 2 + es_length f + es_length v))) Heq'
                  ltac:(lia) ltac:(lia)).
    destruct (hset_loop _ _ _ _) as [ans' len']. destruct IH as [-> ->].
    rewrite map_size_insert_None by done. split; [lia|].
    rewrite image_len_insert_new, !es_length_fits by done. unfold entry_len. cbn [fst snd].
    rewrite Z.add_comm, u64_i64_add_r. f_equal. lia.
Qed.

Lemma Execute_HSet_of m els r :
  hash_fits m -> Forall pair_ok els -> NoDup (views els).*1 -> zlen els <= INT32_MAX ->
  let m' := hset_all m (views els) in
  hash_image_len m' < 2 ^ 64 ->
  Execute_HSet (hash_of m) els r
  = if decide (MAX_OBJECT_SIZE < hash_image_len m')
    then (hr_set_err RD_ERR_OBJECT_TOO_BIG r, false)
    else (hr_set_err RD_OK
            (hr_set_result (HRInt (Z.of_nat (size m') - Z.of_nat (size m))) r), true).
Proof.
  intros Hm Hok Hnd Hl m' Hb. unfold Execute_HSet.
  pose proof (hset_loop_of m m els 0 0 Hm Hok Hnd ltac:(done) ltac:(lia) Hl) as H.
  destruct (hset_loop _ _ _ _) as [ans len]. fold m' in H. destruct H as [-> Hlen].
  cbn [hash_of hash_serialized_length_].
  assert (u64 (u64 (hash_image_len m) + len) = hash_image_len m') as ->.
  { wrap64. rewrite <-u64_add_r, Hlen. wrap64.
    replace (hash_image_len m + (0 + (hash_image_len m' - hash_image_len m)))
      with (hash_image_len m') by lia.
    apply u64_id. pose proof (hash_image_len_pos m'). mach. lia. }
  by destruct (Z.ltb_spec MAX_OBJECT_SIZE (hash_image_len m')); case_decide; try lia.
Qed.

Lemma hdel_count_of m m0 keys cnt :
  NoDup (es_view <$> keys) -> (forall k, k ∈ es_view <$> keys -> m0 !! k = m !! k) ->
  0 <= cnt -> cnt + zlen keys <= INT32_MAX ->
  hdel_count (hash_of m) cnt keys
  = cnt + (Z.of_nat (size m0) - Z.of_nat (size (hdel_all m0 (es_view <$> keys)))).
Proof.
  revert m0 cnt. induction keys as [|key keys IH]; intros m0 cnt Hnd Heq H0 Hl; cbn [hdel_count fmap list_fmap hdel_all foldl].
  { lia. }
  cbn [fmap list_fmap] in *. apply list.NoDup_cons in Hnd as [Hnin Hnd].
  rewrite zlen_cons in Hl. pose proof (zlen_nonneg keys).
  fold (hdel_all (delete (es_view key) m0) (es_view <$> keys)).
  assert (m0 !! es_view key = m !! es_view key) as Ek by (apply Heq; left).
  rewrite hash_find_of, <-Ek.
  assert (forall k, k ∈ es_view <$> keys -> delete (es_view key) m0 !! k = m !! k) as Heq'.
  { intros k Hk. rewrite lookup_delete_ne by (by intros <-). apply Heq. by right. }
  destruct (m0 !! es_view key) as [v|] eqn:E; cbn [fmap option_fmap option_map].
  - rewrite i32_id, (IH (delete (es_view key) m0)) by (done || (mach; lia)).
    rewrite map_size_delete_Some by eauto.
    pose proof (map_size_non_empty_iff m0) as [_ Hne].
    assert (size m0 <> 0)%nat by (apply Hne; intros ->; by rewrite lookup_empty in E). lia.
  - rewrite Z.add_0_r, i32_id, (IH (delete (es_view key) m0)) by (done || (mach; lia)).
    by rewrite (delete_id m0) by done.
Qed.

Lemma hdel_all_size m keys :
  (size (hdel_all m keys) <= size m <= size (hdel_all m keys) + length keys)%nat.
Proof.
  revert m. induction keys as [|k keys IH]; intros m; cbn; [lia|].
  fold (hdel_all (delete k m) keys). specialize (IH (delete k m)).
  rewrite map_size_delete in IH. destruct (m !! k); cbn [id length] in *; lia.
Qed.

Lemma Execute_HDel_of m keys r :
  NoDup (es_view <$> keys) -> zlen keys <= INT32_MAX ->
  let m' := hdel_all m (es_view <$> keys) in
  let cnt := Z.of_nat (size m) - Z.of_nat (size m') in
  Execute_HDel (hash_of m) keys r
  = (hr_set_result (HRInt cnt) (if 0 <? cnt then hr_set_err RD_OK r else r),
     if decide (cnt = 0) then NoChange else if decide (m' = ∅) then ModifiedToEmpty else Modified).
Proof.
  intros Hnd Hl m' cnt. unfold Execute_HDel.
  rewrite (hdel_count_of m m) by (done || lia). fold m'. rewrite Z.add_0_l. fold cnt.
  assert (0 <= cnt <= zlen keys) as Hc.
  { subst cnt m'. pose proof (hdel_all_size m (es_view <$> keys)) as Hs.
    rewrite length_fmap in Hs. unfold zlen. lia. }
  rewrite hash_size_of, u64_id by (mach; lia).
  assert (m' = ∅ <-> size m' = O) as He by (symmetry; apply map_size_empty_iff).
  destruct (Z.eqb_spec cnt 0); [by rewrite decide_True|]. rewrite decide_False by done.
  destruct (Z.leb_spec (Z.of_nat (size m)) cnt).
  - by rewrite decide_True by (apply He; lia).
  - rewrite decide_False; [done|]. intros E%He. lia.
Qed.

(** *** HINCRBY *)

(** The integer a field holds; a missing field counts as 0. *)
Definition field_counter (m : gmap bytes bytes) (f : bytes) : option Z :=
  match m !! f with Some v => string2ll v | None => Some 0 end.

Definition hincr_bound (m : gmap bytes bytes) (f : bytes) : Z :=
  hash_image_len m + (match m !! f with Some w => - zlen w | None => 8 + zlen f end) + 20.

Lemma field_counter_range m f old : field_counter m f = Some old -> is_i64 old.
Proof.
  unfold field_counter. destruct (m !! f).
  - intros H. by apply string2ll_iff in H as [? _].
  - intros [= <-]. mach. lia.
Qed.

Lemma entry_len_nonneg e : 0 <= entry_len e.
Proof. unfold entry_len. pose proof (zlen_nonneg e.1). pose proof (zlen_nonneg e.2). lia. Qed.

Lemma hincr_bound_insert m f s :
  zlen s <= 20 -> 5 <= hash_image_len (<[f := s]> m) <= hincr_bound m f.
Proof.
  intros Hs. split; [apply hash_image_len_pos|]. unfold hincr_bound.
  destruct (m !! f) as [w|] eqn:E.
  - rewrite (image_len_insert_old _ _ _ _ E). lia.
  - rewrite image_len_insert_new by done. unfold entry_len. cbn [fst snd]. lia.
Qed.

Lemma hincr_bound_pos m f : 0 <= hincr_bound m f.
Proof. pose proof (hincr_bound_insert m f [] ltac:(done)). lia. Qed.

Lemma Execute_HIncrBy_of m f score r :
  hash_fits m -> es_fits f -> is_i64 score -> hincr_bound m (es_view f) < 2 ^ 64 ->
  Execute_HIncrBy (hash_of m) f score r
  = match field_counter m (es_view f) with
    | None => (hr_set_err RD_ERR_HASH_VAL_ERROR r, false)
    | Some old =>
        if decide (incr_refused old score) then (hr_set_err RD_ERR_INCR_OVERFLOW r, false)
        else if decide (MAX_OBJECT_SIZE < hincr_bound m (es_view f))
        then (mkHashResult RD_ERR_OBJECT_TOO_BIG (HRInt (old + score)), false)
        else (mkHashResult RD_OK (HRInt (old + score)), true)
    end.
Proof.
  intros Hm Hf Hs Hb. pose proof (hincr_bound_pos m (es_view f)) as Hp.
  assert (forall old len, is_i64 old ->
    u64 (hash_image_len m + (len + 20)) = hincr_bound m (es_view f) ->
    (if ((score <? 0) && (old <=? 0) && (score <=? INT64_MIN - old))
        || ((0 <? score) && (0 <=? old) && (INT64_MAX - old <=? score))
     then (hr_set_err RD_ERR_INCR_OVERFLOW r, false)
     else
       let r := hr_set_result (HRInt (i64 (old + score))) (hr_set_err RD_OK r) in
       let len := i64 (i64 len + 20) in
       if MAX_OBJECT_SIZE <? u64 (u64 (hash_image_len m) + len)
       then (hr_set_err RD_ERR_OBJECT_TOO_BIG r, false) else (r, true))
    = if decide (incr_refused old score) then (hr_set_err RD_ERR_INCR_OVERFLOW r, false)
      else if decide (MAX_OBJECT_SIZE < hincr_bound m (es_view f))
      then (mkHashResult RD_ERR_OBJECT_TOO_BIG (HRInt (old + score)), false)
      else (mkHashResult RD_OK (HRInt (old + score)), true)) as G.
  { intros old len Hold Hlen. cbn zeta.
    assert (u64 (u64 (hash_image_len m) + i64 (i64 len + 20)) = hincr_bound m (es_view f)) as ->.
    { wrap64. rewrite (Z.add_comm (i64 len)), Z.add_assoc, u64_i64_add_r, <-Hlen. f_equal. lia. }
    destruct (_ || _) eqn:Eb; case_decide as Hd; try done; [unfold incr_refused in Hd; lia..|].
    rewrite i64_id by (by apply incr_accepted_range).
    by destruct (Z.ltb_spec MAX_OBJECT_SIZE (hincr_bound m (es_view f))); case_decide; try lia. }
  unfold Execute_HIncrBy. rewrite hash_find_of. unfold field_counter.
  pose proof (field_counter_range m (es_view f)) as Hr. unfold field_counter in Hr.
  destruct (m !! es_view f) as [w|] eqn:E; cbn [fmap option_fmap option_map].
  - destruct (Hm _ _ E) as [_ Hw]. rewrite es_data_fits, es_length_own by done. cbn [es_view es_own].
    destruct (string2ll w) as [old|]; [|done]. apply G; [by apply Hr|].
    rewrite <-(u64_id (hincr_bound _ _)) by (mach; lia). f_equal. unfold hincr_bound. rewrite E. lia.
  - apply G; [mach; lia|]. rewrite es_length_fits by done.
    rewrite <-(u64_id (hincr_bound _ _)) by (mach; lia). f_equal. unfold hincr_bound. rewrite E. lia.
Qed.

Lemma CommitHincrby_of m f old score :
  hash_fits m -> es_fits f -> is_i64 score ->
  field_counter m (es_view f) = Some old -> ~ incr_refused old score ->
  CommitHincrby (hash_of m) f score = hash_of (<[es_view f := to_string (old + score)]> m).
Proof.
  intros Hm Hf Hs Ho Hr. pose proof (field_counter_range _ _ _ Ho) as Hold.
  pose proof (incr_accepted_range _ _ Hold Hs Hr) as Hsum.
  assert (fits (to_string (old + score))) as Hfit.
  { pose proof (to_string_short _ Hsum). pose proof (zlen_nonneg (to_string (old + score))).
    unfold fits. mach. lia. }
  unfold CommitHincrby. rewrite hash_find_of. unfold field_counter in Ho.
  assert ((if es_is_view f then es_clone f else (es_move f).1) = es_own (es_view f)) as ->.
  { pose proof (es_take_own false f Hf) as T. unfold es_take in T. rewrite orb_false_r in T.
    by destruct (es_is_view f). }
  destruct (m !! es_view f) as [w|] eqn:E; cbn [fmap option_fmap option_map].
  - destruct (Hm _ _ E) as [_ Hw]. rewrite es_data_fits, es_length_own by done. cbn [es_view es_own].
    rewrite Ho. cbn [default]. unfold id. rewrite i64_id, es_of_data_own by done.
    unfold hash_of. f_equal; [apply insert_or_assign_own|]. cbn [hash_serialized_length_].
    rewrite (image_len_insert_old _ _ _ _ E). wrap64. f_equal. lia.
  - injection Ho as <-. rewrite i64_id, es_of_data_own by done.
    unfold hash_of. f_equal; [apply insert_or_assign_own|]. cbn [hash_serialized_length_].
    rewrite image_len_insert_new, es_length_fits by done. wrap64. f_equal.
    unfold entry_len. cbn [fst snd]. lia.
Qed.

(** *** Comparison *)

Lemma own_map_list m :
  map_to_list (own_map m)
  ≡ₚ (fun kv => (kv.1, (es_own kv.1, es_own kv.2))) <$> map_to_list m.
Proof.
  apply NoDup_Permutation.
  - apply NoDup_map_to_list.
  - apply NoDup_fmap_2; [|apply NoDup_map_to_list]. intros [k v] [k' v'] H.
    pose proof (f_equal (fun x => (x.1, es_view x.2.2)) H). done.
  - intros [k e]. rewrite elem_of_map_to_list, lookup_own_map, list_elem_of_fmap. split.
    + destruct (m !! k) as [v|] eqn:E; [|done]. intros [= <-]. exists (k, v).
      split; [done|]. by apply elem_of_map_to_list.
    + intros ([k' v] & [= -> ->] & H). apply elem_of_map_to_list in H. by rewrite H.
Qed.

Definition own_pair (kv : bytes * bytes) : HashEntry := (es_own kv.1, es_own kv.2).

(** Every iteration order shows the same entries. *)
Lemma hash_iter_of m it :
  hash_iter (hash_of m) it -> exists l, it = own_pair <$> l /\ l ≡ₚ map_to_list m.
Proof.
  unfold hash_iter. cbn [hash_of hash_map_]. rewrite own_map_list, <-list_fmap_compose.
  intros H. apply Permutation_map_inv in H as (l & -> & Hl). by exists l.
Qed.

Lemma hash_iter_exists m : hash_iter (hash_of m) (own_pair <$> map_to_list m).
Proof. unfold hash_iter. cbn [hash_of hash_map_]. by rewrite own_map_list, <-list_fmap_compose. Qed.

Lemma hash_operator_eq_of m n it :
  hash_iter (hash_of m) it ->
  hash_operator_eq it (hash_of m) (hash_of n) = bool_decide (m = n).
Proof.
  intros (l & -> & Hl)%hash_iter_of. apply eq_true_iff_eq. rewrite bool_decide_eq_true.
  unfold hash_operator_eq. rewrite andb_true_iff, forallb_forall, Z.eqb_eq, !hash_size_of. split.
  - intros [H Hs].
    assert (m ⊆ n) as Hsub.
    { apply map_subseteq_spec. intros k v Hk.
      assert (In (own_pair (k, v)) (own_pair <$> l)) as Hin.
      { apply list_elem_of_In, list_elem_of_fmap_2. rewrite Hl. by apply elem_of_map_to_list. }
      specialize (H _ Hin). unfold own_pair in H. cbn [fst snd] in H.
      rewrite hash_find_of in H. cbn [es_view es_own] in H.
      destruct (n !! k) as [w|]; cbn [fmap option_fmap option_map] in H; [|done].
      apply es_eqb_eq in H. cbn in H. by subst. }
    apply map_subseteq_size_eq; [done|lia].
  - intros ->. split; [|done]. intros [a b] Hin. apply list_elem_of_In in Hin.
    apply list_elem_of_fmap in Hin as ([k v] & [= -> ->] & Hin). rewrite Hl in Hin.
    apply elem_of_map_to_list in Hin. rewrite hash_find_of. cbn [es_view es_own fst]. rewrite Hin.
    cbn [fmap option_fmap option_map]. by apply es_eqb_eq.
Qed.

(** *** Serialization *)

Definition pair_str (kv : bytes * bytes) : bytes := lp_string kv.1 ++ lp_string kv.2.

Definition hash_image (l : list (bytes * bytes)) : bytes :=
  type_byte TyHash ++ le_bytes 4 (zlen l) ++ concat (pair_str <$> l).
Definition hashttl_image (l : list (bytes * bytes)) (ttl : Z) : bytes :=
  type_byte TyTTLHash ++ le_bytes 8 ttl ++ le_bytes 4 (zlen l) ++ concat (pair_str <$> l).

Definition pairs_fit (l : list (bytes * bytes)) : Prop := Forall (fun kv => fits kv.1 /\ fits kv.2) l.

Lemma pairs_fit_perm m l : hash_fits m -> l ≡ₚ map_to_list m -> pairs_fit l.
Proof.
  intros Hm Hl. unfold pairs_fit. rewrite Hl. apply list.Forall_forall.
  intros [k v] Hin%elem_of_map_to_list. by apply Hm.
Qed.

Lemma zlen_perm_size (m : gmap bytes bytes) l : l ≡ₚ map_to_list m -> zlen l = Z.of_nat (size m).
Proof. intros H. unfold zlen. by rewrite H, length_map_to_list. Qed.

Lemma concat_entry_str l : concat (entry_str <$> (own_pair <$> l)) = concat (pair_str <$> l).
Proof. by rewrite <-list_fmap_compose. Qed.

Lemma zlen_concat_pairs l : pairs_fit l -> zlen (concat (pair_str <$> l)) = zsum entry_len l.
Proof.
  induction 1 as [|[k v] l [Hk Hv] _ IH]; [done|]. cbn [fmap list_fmap concat zsum].
  rewrite zlen_app, IH. unfold pair_str at 1. rewrite zlen_app, !zlen_lp_string by done.
  unfold entry_len. cbn [fst snd]. lia.
Qed.

Lemma zlen_hash_image m l :
  hash_fits m -> l ≡ₚ map_to_list m -> zlen (hash_image l) = hash_image_len m.
Proof.
  intros Hm Hl. unfold hash_image. rewrite !zlen_app, zlen_type_byte, zlen_le_bytes.
  rewrite zlen_concat_pairs by (by eapply pairs_fit_perm).
  unfold hash_image_len. rewrite (zsum_perm _ _ _ Hl). lia.
Qed.

Lemma zlen_hashttl_image m l ttl :
  hash_fits m -> l ≡ₚ map_to_list m -> zlen (hashttl_image l ttl) = 8 + hash_image_len m.
Proof.
  intros Hm Hl. rewrite <-(zlen_hash_image m l) by done. unfold hash_image, hashttl_image.
  rewrite !zlen_app, !zlen_type_byte, !zlen_le_bytes. lia.
Qed.

Lemma hash_Serialize_str_of m l str :
  l ≡ₚ map_to_list m ->
  hash_Serialize_str (hash_of m) (own_pair <$> l) str = str ++ hash_image l.
Proof.
  intros Hl. unfold hash_Serialize_str, hash_image.
  by rewrite concat_entry_str, hash_size_of, <-(zlen_perm_size m l).
Qed.

Lemma Writes_pairs l :
  pairs_fit l ->
  Writes (vfor (fun e : HashEntry => vput_lp e.1 ;;w vput_lp e.2) (own_pair <$> l))
         (concat (pair_str <$> l)).
Proof.
  induction 1 as [|[k v] l [Hk Hv] _ IH]; cbn [fmap list_fmap concat vfor]; [apply Writes_skip|].
  apply Writes_seq; [|done]. apply Writes_seq; by apply Writes_vput_lp.
Qed.

Lemma hash_Serialize_vec_of m l buf off :
  hash_fits m -> hash_image_len m < 2 ^ 64 -> l ≡ₚ map_to_list m -> (off <= length buf)%nat ->
  hash_Serialize_vec (hash_of m) (own_pair <$> l) buf off
  = Some (take off buf ++ hash_image l, (off + length (hash_image l))%nat).
Proof.
  intros Hm Hb Hl Hoff. unfold hash_Serialize_vec. cbn [hash_of hash_serialized_length_].
  rewrite u64_id by (pose proof (hash_image_len_pos m); mach; lia).
  rewrite (length_of_zlen (hash_image l)) by (by apply zlen_hash_image).
  apply vresize_write; [|done]. unfold hash_image.
  rewrite hash_size_of, <-(zlen_perm_size m l) by done.
  repeat (apply Writes_seq; [apply Writes_put|]). apply Writes_pairs. by eapply pairs_fit_perm.
Qed.

Lemma hashttl_Serialize_vec_of m l ttl buf off :
  hash_fits m -> hash_image_len m < 2 ^ 64 -> l ≡ₚ map_to_list m -> (off <= length buf)%nat ->
  hashttl_Serialize_vec (mkHashTTL (hash_of m) ttl) (own_pair <$> l) buf off
  = Some (take off buf ++ hashttl_image l ttl, (off + length (hashttl_image l ttl))%nat).
Proof.
  intros Hm Hb Hl Hoff. unfold hashttl_Serialize_vec. cbn [hashttl_base hashttl_ttl_ hash_of hash_serialized_length_].
  pose proof (hash_image_len_pos m). rewrite u64_id by (mach; lia).
  pose proof (zlen_hashttl_image m l ttl Hm Hl) as Hz.
  replace (off + 8 + Z.to_nat (hash_image_len m))%nat with (off + length (hashttl_image l ttl))%nat
    by (unfold zlen in Hz; lia).
  apply vresize_write; [|done]. unfold hashttl_image.
  change (mkHash (own_map m) (u64 (hash_image_len m))) with (hash_of m).
  rewrite hash_size_of, <-(zlen_perm_size m l) by done.
  repeat (apply Writes_seq; [apply Writes_put|]). apply Writes_pairs. by eapply pairs_fit_perm.
Qed.

(** Reading the entries back is a sequence of [SetField]s. *)
Lemma hash_read_entries_of l o :
  pairs_fit l ->
  Reads (hash_read_entries (length l) o) (concat (pair_str <$> l)) (CommitHset o (own_pair <$> l)).
Proof.
  intros H. revert o. induction H as [|[k v] l [Hk Hv] _ IH]; intros o; [apply Reads_ret|].
  cbn [fmap list_fmap concat length hash_read_entries own_pair fst snd CommitHset].
  unfold pair_str at 1. rewrite <-app_assoc. cbn [fst snd].
  eapply Reads_bind; [by apply Reads_lp_string|].
  eapply Reads_bind; [by apply Reads_lp_string|]. apply IH.
Qed.

Lemma CommitHset_map o m els :
  hash_map_ o = own_map m -> Forall pair_ok els ->
  hash_map_ (CommitHset o els) = own_map (hset_all m (views els)).
Proof.
  intros E H. revert o m E. induction H as [|[f v] els Hp _ IH]; intros o m E; cbn; [done|].
  apply IH. by apply SetField_map.
Qed.

Lemma hset_all_lookup m0 l k :
  NoDup l.*1 ->
  (forall v, (k, v) ∈ l -> hset_all m0 l !! k = Some v)
  /\ (k ∉ l.*1 -> hset_all m0 l !! k = m0 !! k).
Proof.
  revert m0. induction l as [|[k' v'] l IH]; intros m0 Hnd; [split; [by intros ? ?%elem_of_nil|done]|].
  cbn [fmap list_fmap fst] in *.
  change (hset_all m0 ((k', v') :: l)) with (hset_all (<[k' := v']> m0) l).
  apply list.NoDup_cons in Hnd as [Hn Hnd].
  destruct (IH (<[k' := v']> m0) Hnd) as [IH1 IH2]. split.
  - intros v [[= -> ->] | Hin]%elem_of_cons; [|by apply IH1].
    rewrite IH2 by done. apply lookup_insert_eq.
  - intros [Hne Hout]%not_elem_of_cons. rewrite IH2 by done. by apply lookup_insert_ne.
Qed.

Lemma hset_all_map_to_list m l : l ≡ₚ map_to_list m -> hset_all ∅ l = m.
Proof.
  intros Hl. assert (NoDup l.*1) as Hnd by (rewrite Hl; apply NoDup_fst_map_to_list).
  apply map_eq. intros k. destruct (hset_all_lookup ∅ l k Hnd) as [H1 H2].
  destruct (m !! k) as [v|] eqn:E.
  - apply H1. rewrite Hl. by apply elem_of_map_to_list.
  - rewrite H2; [apply lookup_empty|]. rewrite Hl. intros ([k' v] & -> & Hin)%list_elem_of_fmap.
    apply elem_of_map_to_list in Hin. cbn in E. congruence.
Qed.

Lemma own_pairs_ok l : pairs_fit l -> Forall pair_ok (own_pair <$> l) /\ views (own_pair <$> l) = l.
Proof.
  intros H. split.
  - apply Forall_fmap. apply (list.Forall_impl _ _ _ H). intros [k v] [Hk Hv]. cbn in *.
    split_and!; [done|done|]. intros _. unfold own_pair, es_is_view, es_own, owned_type. cbn.
    by case_decide.
  - unfold views. rewrite <-list_fmap_compose. rewrite <-(list_fmap_id l) at 2.
    apply list_fmap_ext. by intros ? [k v] ?.
Qed.

Lemma hash_entries_restored m l o :
  hash_fits m -> l ≡ₚ map_to_list m -> hash_map_ o = ∅ ->
  hash_map_ (CommitHset o (own_pair <$> l)) = own_map m.
Proof.
  intros Hm Hl Eo. destruct (own_pairs_ok l) as [Hok Hv]; [by eapply pairs_fit_perm|].
  rewrite (CommitHset_map o ∅) by done. by rewrite Hv, (hset_all_map_to_list m).
Qed.

Lemma hash_Deserialize_of m l :
  hash_fits m -> l ≡ₚ map_to_list m -> is_u32 (Z.of_nat (size m)) ->
  Reads hash_Deserialize (hash_image l) (hash_of m).
Proof.
  intros Hm Hl Hs. eapply Reads_bind_ret.
  - apply Reads_consumed. unfold hash_image.
    eapply Reads_bind; [by apply Reads_bytes|].
    eapply Reads_bind; [apply Reads_u32; by rewrite (zlen_perm_size m l)|].
    rewrite (length_of_zlen l) by done. apply hash_read_entries_of. by eapply pairs_fit_perm.
  - cbn [fst snd]. change (type_byte TyHash ++ le_bytes 4 (zlen l) ++ concat (pair_str <$> l)) with (hash_image l).
    unfold hash_of. rewrite (zlen_hash_image m l) by done. by rewrite (hash_entries_restored m l).
Qed.

Lemma hashttl_Deserialize_of m l ttl :
  hash_fits m -> l ≡ₚ map_to_list m -> is_u32 (Z.of_nat (size m)) -> is_u64 ttl ->
  Reads hashttl_Deserialize (hashttl_image l ttl) (mkHashTTL (hash_of m) ttl).
Proof.
  intros Hm Hl Hs Ht. eapply Reads_bind_ret.
  - apply Reads_consumed. unfold hashttl_image.
    eapply Reads_bind; [by apply Reads_bytes|].
    eapply Reads_bind; [by apply Reads_u64|].
    eapply Reads_bind; [apply Reads_u32; by rewrite (zlen_perm_size m l)|].
    rewrite (length_of_zlen l) by done.
    eapply Reads_bind_ret; [apply hash_read_entries_of; by eapply pairs_fit_perm|done].
  - cbn [fst snd].
    change (type_byte TyTTLHash ++ le_bytes 8 ttl ++ le_bytes 4 (zlen l) ++ concat (pair_str <$> l))
      with (hashttl_image l ttl).
    unfold hash_of. rewrite (zlen_hashttl_image m l) by done.
    rewrite (hash_entries_restored m l) by done. do 4 f_equal. lia.
Qed.

(** ** Properties *)

(** Case analysis on a well-formed object: it is [hash_of m]. *)
Ltac canon_hash H m Hm :=
  let E := fresh in
  destruct (hash_wf_canonical _ H) as [E Hm];
  rewrite E; clear E; revert Hm; clear H;
  match goal with |- hash_fits (hash_contents ?o) -> _ =>
    generalize (hash_contents o); clear o; intros m Hm end.

(** The hash [{a: 7, b: x}] of the examples. *)
Definition h_ab : RedisHashObject :=
  hash_of (<[[Init.Byte.x61] := [Init.Byte.x37]]> (<[[Init.Byte.x62] := [Init.Byte.x78]]> ∅)).

Lemma h_ab_wf : hash_wf h_ab.
Proof.
  apply hash_wf_of. apply map_Forall_insert_2; [concrete|]. apply map_Forall_insert_2; [concrete|].
  apply map_Forall_empty.
Qed.

(** HSET with distinct fields is accepted exactly when the resulting image
    stays within the size limit; it then stores every pair, replies with the
    number of new fields, and keeps the hash well formed. *)
Theorem hset_agrees o els r :
  hash_wf o -> Forall pair_ok els -> NoDup (views els).*1 -> zlen els <= INT32_MAX ->
  let m := hash_contents o in
  let m' := hset_all m (views els) in
  hash_image_len m' < 2 ^ 64 ->
  let '(r', ok) := Execute_HSet o els r in
  ok = bool_decide (hash_image_len m' <= MAX_OBJECT_SIZE)
  /\ hash_wf (CommitHset o els) /\ hash_contents (CommitHset o els) = m'
  /\ (ok = true -> hr_err_code_ r' = RD_OK
        /\ hr_result_ r' = HRInt (Z.of_nat (size m') - Z.of_nat (size m))).
Proof.
  intros H. canon_hash H m Hm. rewrite hash_contents_of. cbn zeta. intros He Hnd Hl Hsz.
  rewrite Execute_HSet_of by done. destruct (CommitHset_of m els Hm He) as [-> Hf].
  rewrite hash_contents_of. case_decide as Hd.
  - split_and!; [by rewrite bool_decide_false by lia|by apply hash_wf_of|done..].
  - split_and!; [by rewrite bool_decide_true by lia|by apply hash_wf_of|done..].
Qed.

Lemma hset_agrees_witness :
  let els := [(es_own [Init.Byte.x61], es_own [Init.Byte.x38]); (es_own [Init.Byte.x63], es_own [])] in
  let m' := hset_all (hash_contents h_ab) (views els) in
  let '(r', ok) := Execute_HSet h_ab els hash_result0 in
  ok = bool_decide (hash_image_len m' <= MAX_OBJECT_SIZE)
  /\ hash_wf (CommitHset h_ab els) /\ hash_contents (CommitHset h_ab els) = m'
  /\ (ok = true -> hr_err_code_ r' = RD_OK
        /\ hr_result_ r' = HRInt (Z.of_nat (size m') - Z.of_nat (size (hash_contents h_ab)))).
Proof.
  exact (hset_agrees h_ab [(es_own [Init.Byte.x61], es_own [Init.Byte.x38]); (es_own [Init.Byte.x63], es_own [])]
    hash_result0 h_ab_wf ltac:(concrete)
    ltac:(apply (bool_decide_unpack _); vm_compute; exact I) ltac:(concrete) ltac:(concrete)).
Defined.

(** HDEL of distinct fields removes exactly them, replies with the number
    that was present, and its verdict says whether anything, or everything, is
    gone; the hash stays well formed. *)
Theorem hdel_agrees o keys r :
  hash_wf o -> NoDup (es_view <$> keys) -> zlen keys <= INT32_MAX ->
  let m := hash_contents o in
  let m' := hdel_all m (es_view <$> keys) in
  let '(r', st) := Execute_HDel o keys r in
  let '(o', empty) := CommitHdel o keys in
  hash_wf o' /\ hash_contents o' = m'
  /\ hr_result_ r' = HRInt (Z.of_nat (size m) - Z.of_nat (size m'))
  /\ (empty = true <-> m' = ∅)
  /\ (st = ModifiedToEmpty -> m' = ∅) /\ (st = Modified -> m' <> ∅).
Proof.
  intros H. canon_hash H m Hm. rewrite hash_contents_of. intros Hnd Hl. cbn zeta.
  rewrite Execute_HDel_of, CommitHdel_of by done. cbn zeta.
  rewrite hash_contents_of. destruct (hdel_loop_of m keys Hm) as [_ Hf].
  split_and!; [by apply hash_wf_of|done|by destruct (0 <? _)|by rewrite bool_decide_eq_true|..];
    by repeat case_decide.
Qed.

Lemma hdel_agrees_witness :
  let keys := [es_own [Init.Byte.x61]; es_own [Init.Byte.x7a]] in
  let m' := hdel_all (hash_contents h_ab) (es_view <$> keys) in
  let '(r', st) := Execute_HDel h_ab keys hash_result0 in
  let '(o', empty) := CommitHdel h_ab keys in
  hash_wf o' /\ hash_contents o' = m'
  /\ hr_result_ r' = HRInt (Z.of_nat (size (hash_contents h_ab)) - Z.of_nat (size m'))
  /\ (empty = true <-> m' = ∅)
  /\ (st = ModifiedToEmpty -> m' = ∅) /\ (st = Modified -> m' <> ∅).
Proof.
  exact (hdel_agrees h_ab [es_own [Init.Byte.x61]; es_own [Init.Byte.x7a]] hash_result0 h_ab_wf
    ltac:(apply (bool_decide_unpack _); vm_compute; exact I) ltac:(concrete)).
Defined.

(** an accepted HINCRBY replies with the exact sum of the field's number
    (0 when the field is new), within 64 bits, and commits its decimal spelling;
    the hash stays well formed. *)
Theorem hincrby_agrees o f score r r' :
  hash_wf o -> es_fits f -> is_i64 score ->
  hincr_bound (hash_contents o) (es_view f) < 2 ^ 64 ->
  Execute_HIncrBy o f score r = (r', true) ->
  exists old, field_counter (hash_contents o) (es_view f) = Some old
  /\ is_i64 (old + score) /\ r' = mkHashResult RD_OK (HRInt (old + score))
  /\ hash_wf (CommitHincrby o f score)
  /\ hash_contents (CommitHincrby o f score)
     = <[es_view f := to_string (old + score)]> (hash_contents o)
  /\ hash_image_len (hash_contents (CommitHincrby o f score)) <= MAX_OBJECT_SIZE.
Proof.
  intros H. canon_hash H m Hm. rewrite hash_contents_of. intros Hf Hs Hb.
  rewrite Execute_HIncrBy_of by done. destruct (field_counter m (es_view f)) as [old|] eqn:Eo; [|done].
  case_decide as Hd; [done|]. case_decide as Hd2; [done|]. intros [= <-]. exists old.
  assert (is_i64 (old + score)) as Hr by (by apply incr_accepted_range; [eapply field_counter_range|..]).
  rewrite (CommitHincrby_of m f old), hash_contents_of by done.
  pose proof (to_string_short _ Hr) as Hsh.
  pose proof (hincr_bound_insert m (es_view f) _ Hsh).
  split_and!; [done..| |done|lia]. apply hash_wf_of, hash_fits_insert; [done..|].
  unfold fits. pose proof (zlen_nonneg (to_string (old + score))). mach. lia.
Qed.

Lemma hincrby_agrees_witness :
  let f := es_own [Init.Byte.x61] in
  exists old, field_counter (hash_contents h_ab) (es_view f) = Some old
  /\ is_i64 (old + 35) /\ mkHashResult RD_OK (HRInt 42) = mkHashResult RD_OK (HRInt (old + 35))
  /\ hash_wf (CommitHincrby h_ab f 35)
  /\ hash_contents (CommitHincrby h_ab f 35) = <[es_view f := to_string (old + 35)]> (hash_contents h_ab)
  /\ hash_image_len (hash_contents (CommitHincrby h_ab f 35)) <= MAX_OBJECT_SIZE.
Proof.
  exact (hincrby_agrees h_ab (es_own [Init.Byte.x61]) 35 hash_result0 (mkHashResult RD_OK (HRInt 42))
    h_ab_wf ltac:(concrete) ltac:(concrete) ltac:(concrete) ltac:(vm_compute; reflexivity)).
Defined.

(** A hash is restored from the image written in any iteration order of
    its table, with and without a TTL; the running length is the length of the
    image, both serializers agree, and [RemoveTTL] undoes [AddTTL]. *)
Lemma hash_images o it ttl :
  hash_wf o -> hash_iter o it -> hash_image_len (hash_contents o) < 2 ^ 63 ->
  is_u32 (hash_size o) -> is_u64 ttl ->
  let t := hash_AddTTL o ttl in
  image_law (hash_serialized_length_ o) (hash_Serialize_str o it []) (hash_Serialize_vec o it)
    hash_Deserialize o
  /\ image_law (hashttl_SerializedLength t) (hashttl_Serialize_str t it [])
       (hashttl_Serialize_vec t it) hashttl_Deserialize t
  /\ hash_RemoveTTL t = o.
Proof.
  intros H. canon_hash H m Hm. rewrite hash_contents_of, hash_size_of. intros Hi Hl Hn Ht.
  destruct (hash_iter_of m it Hi) as (l & -> & Hp). cbn zeta. pose proof (hash_image_len_pos m).
  assert (hashttl_Serialize_str (hash_AddTTL (hash_of m) ttl) (own_pair <$> l) [] = hashttl_image l ttl) as ->.
  { unfold hashttl_Serialize_str, hashttl_image. cbn [hash_AddTTL hashttl_base hashttl_ttl_].
    rewrite hash_size_of, concat_entry_str, app_nil_l, <-(zlen_perm_size m l) by done. done. }
  rewrite (hash_Serialize_str_of m), app_nil_l by done.
  split_and!; [split|split|done].
  - rewrite (zlen_hash_image m) by done. cbn. by rewrite u64_id by (mach; lia).
  - by apply hash_Deserialize_of.
  - intros. apply hash_Serialize_vec_of; [done|lia|done..].
  - rewrite (zlen_hashttl_image m) by done. unfold hashttl_SerializedLength. cbn.
    by rewrite (u64_id (hash_image_len m)), u64_id by (mach; lia).
  - by apply hashttl_Deserialize_of.
  - intros. apply hashttl_Serialize_vec_of; [done|lia|done..].
Qed.

(** [operator==] on hashes is equality of their contents, in whatever
    order the loop visits the entries. *)
Theorem hash_equality a b it :
  hash_wf a -> hash_wf b -> hash_iter a it ->
  hash_operator_eq it a b = bool_decide (hash_contents a = hash_contents b).
Proof.
  intros Ha Hb. destruct (hash_wf_canonical a Ha) as [-> _], (hash_wf_canonical b Hb) as [-> _].
  rewrite !hash_contents_of. apply hash_operator_eq_of.
Qed.

Lemma hash_equality_witness :
  hash_operator_eq (own_pair <$> map_to_list (hash_contents h_ab)) h_ab (hash_of ∅)
  = bool_decide (hash_contents h_ab = hash_contents (hash_of ∅)).
Proof.
  exact (hash_equality h_ab (hash_of ∅) (own_pair <$> map_to_list (hash_contents h_ab)) h_ab_wf
    (hash_wf_of ∅ (map_Forall_empty _)) (hash_iter_exists _)).
Defined.
