(* ===== verification/SetObject.v ===== *)
(** * RedisHashSetObject

    The set object of include/redis_set_object.h and src/redis_set_object.cpp:
    a hash set of strings and the running length of its serialized image.  The
    set is a finite map from the bytes of a member to the stored string.  Its
    iteration order, its number of buckets and the random numbers SPOP and
    SRANDMEMBER draw are arguments; the theorems hold for all of them. *)

From Stdlib Require Import Sorting.Sorted.
From S2P Require Import Prelude Codec EloqString RedisTypes StringNum StringMatch ListObject Sampling.

(* [set_solver] clears hypotheses by name. *)
Set Warnings "-clear-no-such-hyp".

Record RedisHashSetObject := mkSet {
  hash_set_ : gmap bytes EloqString;
  set_serialized_length_ : Z
}.

Definition set_new : RedisHashSetObject := mkSet ∅ (1 + 4).

(** [it] lists the members from [begin()] to [end()]. *)
Definition set_iter (o : RedisHashSetObject) (it : list EloqString) : Prop :=
  it ≡ₚ (map_to_list (hash_set_ o)).*2.

Definition set_size (o : RedisHashSetObject) : Z := Z.of_nat (size (hash_set_ o)).

(** [hash_set_.find(str) != hash_set_.end()]. *)
Definition set_has (o : RedisHashSetObject) (str : EloqString) : bool :=
  match hash_set_ o !! es_view str with Some _ => true | None => false end.

(** ** Deciding *)

Fixpoint sadd_loop (o : RedisHashSetObject) (paras : list EloqString) (ret len : Z) : Z * Z :=
  match paras with
  | [] => (ret, len)
  | str :: l =>
      if set_has o str then sadd_loop o l (i32 (ret + 0)) (u64 (len + 0))
      else sadd_loop o l (i32 (ret + 1)) (u64 (len + (4 + es_length str)))
  end.

Definition Execute_SAdd (o : RedisHashSetObject) (vct_paras_ : list EloqString)
    (r : RedisHashSetResult) : RedisHashSetResult * CommandExecuteState :=
  let '(ret, len) := sadd_loop o vct_paras_ 0 0 in
  let r := ss_set_ret ret (ss_set_err RD_OK r) in
  if MAX_OBJECT_SIZE <? u64 (set_serialized_length_ o + len)
  then (ss_set_err RD_ERR_OBJECT_TOO_BIG r, NoChange)
  else (r, if 0 <? ret then Modified else NoChange).

Definition Execute_SMembers (o : RedisHashSetObject) (it : list EloqString)
    (r : RedisHashSetResult) : RedisHashSetResult :=
  ss_set_list (ss_string_list_ r ++ (es_clone <$> it))
    (ss_set_ret (i32 (set_size o)) (ss_set_err RD_OK r)).

Fixpoint srem_count (o : RedisHashSetObject) (ret : Z) (paras : list EloqString) : Z :=
  match paras with
  | [] => ret
  | str :: l => srem_count o (i32 (ret + (if set_has o str then 1 else 0))) l
  end.

Definition Execute_SRem (o : RedisHashSetObject) (vct_paras_ : list EloqString)
    (r : RedisHashSetResult) : RedisHashSetResult * CommandExecuteState :=
  let ret := srem_count o 0 vct_paras_ in
  let r := ss_set_ret ret (ss_set_err RD_OK r) in
  (r, if ret =? 0 then NoChange
      else if set_size o <=? u64 ret then ModifiedToEmpty else Modified).

Definition Execute_SCard (o : RedisHashSetObject) (r : RedisHashSetResult) : RedisHashSetResult :=
  ss_set_ret (i32 (set_size o)) (ss_set_err RD_OK r).

Definition Execute_SIsMember (o : RedisHashSetObject) (str_member_ : EloqString)
    (r : RedisHashSetResult) : RedisHashSetResult :=
  ss_set_ret (if set_has o str_member_ then 1 else 0) (ss_set_err RD_OK r).

(** The flags are the strings "0" and "1". *)
Definition Execute_SMIsMember (o : RedisHashSetObject) (members_ : list EloqString)
    (r : RedisHashSetResult) : RedisHashSetResult :=
  ss_set_list (ss_string_list_ r ++
    ((fun str => es_own (to_string (if set_has o str then 1 else 0))) <$> members_))
    (ss_set_err RD_OK r).

(** [string_list_.resize(n)]: default strings are null views. *)
Definition es_resize (n : nat) (l : list EloqString) : list EloqString :=
  take n l ++ replicate (n - length l) (es_of_view []).

Definition Execute_SRandMember (o : RedisHashSetObject) (it : list EloqString)
    (bucket_count : Z) (rands : list Z) (count_ : Z) (r : RedisHashSetResult)
    : option RedisHashSetResult :=
  let r := ss_set_err RD_OK r in
  let count := if count_ <? 0 then i64 (- count_) else count_ in
  let distinct := 0 <=? count_ in
  let sz := i32 (set_size o) in
  let count := if distinct then (if sz <? count then sz else count) else count in
  if take_shortcut sz count bucket_count then
    match walk_loop es_clone (Z.to_nat count) 0 it it (es_resize (Z.to_nat count) (ss_string_list_ r)) with
    | Some l => Some (ss_set_list l r)
    | None => None
    end
  else
    match GenRandMap sz count (negb distinct) rands with
    | None => None
    | Some map =>
        match pick_loop es_clone it 0 map (es_resize (length map) (ss_string_list_ r)) with
        | Some l => Some (ss_set_list l r)
        | None => None
        end
    end.

Definition Execute_SPop (o : RedisHashSetObject) (it : list EloqString)
    (bucket_count : Z) (rands : list Z) (count_ : Z) (r : RedisHashSetResult)
    : option (RedisHashSetResult * CommandExecuteState) :=
  let r := ss_set_err RD_OK r in
  let count := if count_ =? -1 then 1 else count_ in
  let sz := i32 (set_size o) in
  let count := if sz <? count then sz else count in
  let filled :=
    if take_shortcut sz count bucket_count then
      match walk_loop es_clone (Z.to_nat count) 0 it it (es_resize (Z.to_nat count) (ss_string_list_ r)) with
      | Some l => Some (ss_set_list l r)
      | None => None
      end
    else
      match GenRandMap sz (if count <? sz then count else sz) false rands with
      | None => None
      | Some map =>
          let r := if (count_ =? -1) && (zlen map =? 0) then ss_set_err RD_NIL r else r in
          match pick_loop es_clone it 0 map (es_resize (length map) (ss_string_list_ r)) with
          | Some l => Some (ss_set_list l r)
          | None => None
          end
      end in
  match filled with
  | None => None
  | Some r =>
      Some (r, if decide (ss_string_list_ r = []) then NoChange
               else if set_size o <=? zlen (ss_string_list_ r) then ModifiedToEmpty else Modified)
  end.

(** The whole set is returned under cursor 0.  [after] is the memory behind the
    pattern; [None] when the matcher would leave it. *)
Fixpoint sscan_loop (pattern_ : option bytes) (after : bytes) (it : list EloqString)
    (string_list_ : list EloqString) : option (list EloqString) :=
  match it with
  | [] => Some string_list_
  | e :: it =>
      match (match pattern_ with
             | None => Some true
             | Some p => stringmatchlen p after (es_view e) false
             end) with
      | None => None
      | Some true => sscan_loop pattern_ after it (string_list_ ++ [es_clone e])
      | Some false => sscan_loop pattern_ after it string_list_
      end
  end.

Definition Execute_SScan (pattern_ : option bytes) (after : bytes) (it : list EloqString)
    (r : RedisHashSetResult) : option RedisHashSetResult :=
  match sscan_loop pattern_ after it (ss_string_list_ r ++ [es_own (to_string 0)]) with
  | Some l => Some (ss_set_list l (ss_set_err RD_OK r))
  | None => None
  end.

(** What SORT loads from the set. *)
Definition Execute_SortableLoad_set (it : list EloqString) : RedisObjectType * list bytes :=
  (TySet, es_view <$> it).

(** ** Mutating *)

(** [emplace] does nothing when the member is there. *)
Definition set_emplace (m : gmap bytes EloqString) (e : EloqString) : gmap bytes EloqString * bool :=
  match m !! es_view e with
  | Some _ => (m, false)
  | None => (<[es_view e := e]> m, true)
  end.

(** The emptied members of the command are not read again. *)
Fixpoint CommitSAdd (o : RedisHashSetObject) (paras : list EloqString)
    (should_not_move_string : bool) : RedisHashSetObject * bool :=
  match paras with
  | [] => (o, set_size o =? 0)
  | element :: l =>
      let element_len := es_length element in
      let '(m, b) := set_emplace (hash_set_ o) (es_take should_not_move_string element).1 in
      CommitSAdd (mkSet m (if b then u64 (set_serialized_length_ o + (4 + element_len))
                           else set_serialized_length_ o)) l should_not_move_string
  end.

Fixpoint srem_loop (o : RedisHashSetObject) (paras : list EloqString) : RedisHashSetObject :=
  match paras with
  | [] => o
  | str :: l =>
      srem_loop (if set_has o str
                 then mkSet (delete (es_view str) (hash_set_ o))
                        (u64 (set_serialized_length_ o - (4 + es_length str)))
                 else o) l
  end.

Definition CommitSRem (o : RedisHashSetObject) (paras : list EloqString) : RedisHashSetObject * bool :=
  let o := srem_loop o paras in (o, set_size o =? 0).

Definition CommitSPop (o : RedisHashSetObject) (members : list EloqString) : RedisHashSetObject * bool :=
  let o := srem_loop o members in (o, set_size o =? 0).

(** ** Serialization *)

Definition set_Serialize_str (o : RedisHashSetObject) (it : list EloqString) (str : bytes) : bytes :=
  str ++ type_byte TySet ++ le_bytes 4 (set_size o)
      ++ concat ((fun e => lp_string (es_view e)) <$> it).

(** Each member by its [uint32_t] length and that many bytes; members are below
    4 GB. *)
Definition set_Serialize_vec (o : RedisHashSetObject) (it : list EloqString) (buf : bytes)
    (offset : nat) : option (bytes * nat) :=
  let buf := vresize (offset + Z.to_nat (set_serialized_length_ o)) buf in
  (vput (type_byte TySet) ;;w vput (le_bytes 4 (set_size o)) ;;w vfor vput_lp it) (buf, offset).

Fixpoint set_read_members (cnt : nat) (m : gmap bytes EloqString) : Reader (gmap bytes EloqString) :=
  match cnt with
  | O => rret m
  | S cnt' => d <-- read_lp_string; set_read_members cnt' (set_emplace m (es_own d)).1
  end.

Definition set_Deserialize : Reader RedisHashSetObject :=
  res <-- read_consumed (
    _ <-- read_bytes 1;
    ele_num <-- read_u32;
    set_read_members (Z.to_nat ele_num) ∅);
  rret (mkSet res.1 (u64 res.2)).

(** ** The TTL variant *)

Record RedisHashSetTTLObject := mkSetTTL { setttl_base : RedisHashSetObject; setttl_ttl_ : Z }.

(** The set is moved into the new object. *)
Definition set_AddTTL (o : RedisHashSetObject) (ttl : Z) : RedisHashSetTTLObject := mkSetTTL o ttl.
Definition set_RemoveTTL (o : RedisHashSetTTLObject) : RedisHashSetObject := setttl_base o.

Definition setttl_SerializedLength (o : RedisHashSetTTLObject) : Z :=
  u64 (8 + set_serialized_length_ (setttl_base o)).

Definition setttl_Serialize_str (o : RedisHashSetTTLObject) (it : list EloqString) (str : bytes)
    : bytes :=
  str ++ type_byte TyTTLSet ++ le_bytes 8 (setttl_ttl_ o)
      ++ le_bytes 4 (set_size (setttl_base o)) ++ concat ((fun e => lp_string (es_view e)) <$> it).

Definition setttl_Serialize_vec (o : RedisHashSetTTLObject) (it : list EloqString) (buf : bytes)
    (offset : nat) : option (bytes * nat) :=
  let b := setttl_base o in
  let buf := vresize (offset + 8 + Z.to_nat (set_serialized_length_ b)) buf in
  (vput (type_byte TyTTLSet) ;;w vput (le_bytes 8 (setttl_ttl_ o))
     ;;w vput (le_bytes 4 (set_size b)) ;;w vfor vput_lp it) (buf, offset).

Definition setttl_Deserialize : Reader RedisHashSetTTLObject :=
  res <-- read_consumed (
    _ <-- read_bytes 1;
    ttl <-- read_u64;
    ele_num <-- read_u32;
    m <-- set_read_members (Z.to_nat ele_num) ∅;
    rret (ttl, m));
  rret (mkSetTTL (mkSet res.1.2 (u64 (res.2 - 8))) res.1.1).

(** ** The members of a command *)

(** Repeated arguments are dropped, the first one stays. *)
Fixpoint unique_elements (set : gset bytes) (args : list bytes) : list EloqString :=
  match args with
  | [] => []
  | a :: l =>
      if decide (a ∈ set) then unique_elements set l
      else es_of_view a :: unique_elements ({[a]} ∪ set) l
  end.

(** The key and the members; [None] is the reply to too few arguments. *)
Definition ParseSAddCommand (args : list bytes) : option (bytes * list EloqString) :=
  match args with
  | _ :: key :: ((_ :: _) as l) => Some (key, unique_elements ∅ l)
  | _ => None
  end.

Definition ParseSRemCommand (args : list bytes) : option (bytes * list EloqString) :=
  match args with
  | _ :: key :: ((_ :: _) as l) => Some (key, unique_elements ∅ l)
  | _ => None
  end.

(** ** The abstract set

    A set object stands for a finite set of byte strings; [set_of s] is the only
    well-formed object that shows [s]. *)

Definition own_set (s : gset bytes) : gmap bytes EloqString :=
  map_imap (fun k _ => Some (es_own k)) (gset_to_gmap tt s).

Definition set_image_len (s : gset bytes) : Z := 5 + zsum elem_len (elements s).

Definition set_of (s : gset bytes) : RedisHashSetObject :=
  mkSet (own_set s) (u64 (set_image_len s)).

Definition set_contents (o : RedisHashSetObject) : gset bytes := dom (hash_set_ o).

Definition set_fits (s : gset bytes) : Prop := forall k, k ∈ s -> fits k.

(** The type invariant: every member is stored under its own bytes, owned and
    short enough, and the running length is the length of the image. *)
Record set_wf (o : RedisHashSetObject) : Prop := {
  swf_members : map_Forall (fun k e => e = es_own k /\ fits k) (hash_set_ o);
  swf_len : set_serialized_length_ o = u64 (set_image_len (set_contents o))
}.

Lemma lookup_own_set s k : own_set s !! k = if decide (k ∈ s) then Some (es_own k) else None.
Proof.
  unfold own_set. rewrite map_lookup_imap.
  destruct (gset_to_gmap tt s !! k) as [u|] eqn:E; cbn.
  - apply lookup_gset_to_gmap_Some in E as [E _]. by rewrite decide_True.
  - apply lookup_gset_to_gmap_None in E. by rewrite decide_False.
Qed.

Lemma own_set_insert s k : own_set ({[k]} ∪ s) = <[k := es_own k]> (own_set s).
Proof.
  apply map_eq. intros j. rewrite lookup_own_set. destruct (decide (j = k)) as [->|Hne].
  - rewrite lookup_insert_eq, decide_True by set_solver. done.
  - rewrite lookup_insert_ne, lookup_own_set by done. by destruct (decide (j ∈ s)); case_decide; set_solver.
Qed.

Lemma own_set_delete s k : own_set (s ∖ {[k]}) = delete k (own_set s).
Proof.
  apply map_eq. intros j. rewrite lookup_own_set. destruct (decide (j = k)) as [->|Hne].
  - rewrite lookup_delete_eq, decide_False by set_solver. done.
  - rewrite lookup_delete_ne, lookup_own_set by done. by destruct (decide (j ∈ s)); case_decide; set_solver.
Qed.

Lemma dom_own_set s : dom (own_set s) = s.
Proof.
  apply set_eq. intros k. rewrite elem_of_dom, lookup_own_set. case_decide; [done|].
  split; [by intros [??]|done].
Qed.

Lemma set_contents_of s : set_contents (set_of s) = s.
Proof. apply dom_own_set. Qed.

Lemma set_size_of s : set_size (set_of s) = Z.of_nat (size s).
Proof. unfold set_size. cbn [set_of hash_set_]. by rewrite <-size_dom, dom_own_set. Qed.

Lemma set_wf_of s : set_fits s -> set_wf (set_of s).
Proof.
  intros H. split.
  - intros k e He. cbn in He. rewrite lookup_own_set in He. case_decide; simplify_eq. auto.
  - by rewrite set_contents_of.
Qed.

Lemma set_wf_canonical o :
  set_wf o -> o = set_of (set_contents o) /\ set_fits (set_contents o).
Proof.
  intros [Hm Hl]. destruct o as [m n]. unfold set_contents in *. cbn in *. split.
  - unfold set_of. rewrite Hl. f_equal. apply map_eq. intros k. rewrite lookup_own_set.
    destruct (m !! k) as [e|] eqn:E.
    + destruct (Hm k e E) as [-> _]. rewrite decide_True; [done|]. by apply elem_of_dom.
    + rewrite decide_False; [done|]. by apply not_elem_of_dom.
  - intros k [e He]%elem_of_dom. by destruct (Hm k e He).
Qed.

(** Case analysis on a well-formed object: it is [set_of s]. *)
Ltac canon_set H s Hs :=
  let E := fresh in
  destruct (set_wf_canonical _ H) as [E Hs];
  rewrite E; clear E; revert Hs; clear H;
  match goal with |- set_fits (set_contents ?o) -> _ =>
    generalize (set_contents o); clear o; intros s Hs end.

Lemma set_has_of s e : set_has (set_of s) e = bool_decide (es_view e ∈ s).
Proof. unfold set_has. cbn [set_of hash_set_]. rewrite lookup_own_set. by repeat case_decide; case_bool_decide. Qed.

Lemma set_image_len_insert s k :
  k ∉ s -> set_image_len ({[k]} ∪ s) = set_image_len s + elem_len k.
Proof.
  intros H. unfold set_image_len.
  rewrite (zsum_perm _ _ _ (elements_union_singleton s k H)). cbn [zsum]. lia.
Qed.

Lemma set_image_len_delete s k :
  k ∈ s -> set_image_len (s ∖ {[k]}) = set_image_len s - elem_len k.
Proof.
  intros H. pose proof (set_image_len_insert (s ∖ {[k]}) k ltac:(set_solver)) as E.
  replace ({[k]} ∪ s ∖ {[k]}) with s in E; [lia|].
  apply set_eq. intros j. destruct (decide (j = k)); set_solver.
Qed.

Lemma set_image_len_pos s : 5 <= set_image_len s.
Proof. unfold set_image_len. pose proof (zsum_nonneg elem_len (elements s) elem_len_nonneg). lia. Qed.

Lemma set_of_eq m n s : m = own_set s -> n = u64 (set_image_len s) -> mkSet m n = set_of s.
Proof. by intros -> ->. Qed.

Lemma set_empty_of s : (set_size (set_of s) =? 0) = bool_decide (s = ∅).
Proof.
  rewrite set_size_of. case_bool_decide as H.
  - subst. by rewrite size_empty.
  - apply Z.eqb_neq. intros E. apply H, leibniz_equiv, size_empty_iff. lia.
Qed.

(** *** SADD and SREM *)

Definition add_all (s : gset bytes) (l : list bytes) : gset bytes := list_to_set l ∪ s.
Definition remove_all (s : gset bytes) (l : list bytes) : gset bytes := s ∖ list_to_set l.

Lemma add_all_cons s k l : add_all s (k :: l) = add_all ({[k]} ∪ s) l.
Proof. unfold add_all. set_solver. Qed.

Lemma remove_all_cons s k l : remove_all s (k :: l) = remove_all (s ∖ {[k]}) l.
Proof. unfold remove_all. set_solver. Qed.

Lemma set_fits_add s l : set_fits s -> Forall fits l -> set_fits (add_all s l).
Proof.
  intros Hs Hl k. unfold add_all. rewrite elem_of_union, elem_of_list_to_set.
  rewrite list.Forall_forall in Hl. intros [?|?]; auto.
Qed.

Lemma set_fits_remove s l : set_fits s -> set_fits (remove_all s l).
Proof. intros Hs k Hk. apply Hs. unfold remove_all in Hk. set_solver. Qed.

Lemma emplace_of s k :
  set_emplace (own_set s) (es_own k) = (own_set ({[k]} ∪ s), bool_decide (k ∉ s)).
Proof.
  unfold set_emplace. cbn [es_view es_own]. rewrite lookup_own_set. case_decide as H.
  - rewrite bool_decide_false by auto. do 2 f_equal. set_solver.
  - rewrite bool_decide_true by done. by rewrite own_set_insert.
Qed.

Lemma CommitSAdd_of s paras keep :
  Forall es_fits paras ->
  CommitSAdd (set_of s) paras keep
  = (set_of (add_all s (es_view <$> paras)), bool_decide (add_all s (es_view <$> paras) = ∅)).
Proof.
  intros H. revert s. induction H as [|e paras He _ IH]; intros s; cbn [CommitSAdd fmap list_fmap].
  { rewrite set_empty_of. unfold add_all. cbn. by rewrite union_empty_l_L. }
  rewrite add_all_cons, <-IH. rewrite es_take_own, es_length_fits by done.
  cbn [set_of hash_set_ set_serialized_length_]. rewrite emplace_of.
  f_equal. apply set_of_eq; [done|]. case_bool_decide as Hin.
  - wrap64. f_equal. rewrite set_image_len_insert by done. unfold elem_len. lia.
  - do 2 f_equal. set_solver.
Qed.

Lemma srem_loop_of s paras :
  Forall es_fits paras ->
  srem_loop (set_of s) paras = set_of (remove_all s (es_view <$> paras)).
Proof.
  intros H. revert s. induction H as [|e paras He _ IH]; intros s; cbn [srem_loop fmap list_fmap].
  { unfold remove_all. cbn. by rewrite difference_empty_L. }
  rewrite remove_all_cons, <-IH, set_has_of. f_equal. case_bool_decide as Hin.
  - apply set_of_eq; cbn [set_of hash_set_ set_serialized_length_]; [by rewrite own_set_delete|].
    wrap64. f_equal. rewrite es_length_fits, set_image_len_delete by done. unfold elem_len. lia.
  - f_equal. set_solver.
Qed.

Lemma CommitSRem_of s paras :
  Forall es_fits paras ->
  CommitSRem (set_of s) paras
  = (set_of (remove_all s (es_view <$> paras)), bool_decide (remove_all s (es_view <$> paras) = ∅)).
Proof. intros H. unfold CommitSRem. by rewrite srem_loop_of, set_empty_of. Qed.

Lemma sadd_loop_of s s0 paras ret len :
  Forall es_fits paras -> NoDup (es_view <$> paras) ->
  (forall k, k ∈ es_view <$> paras -> k ∈ s0 <-> k ∈ s) ->
  0 <= ret -> ret + zlen paras <= INT32_MAX ->
  let s' := add_all s0 (es_view <$> paras) in
  let '(ret', len') := sadd_loop (set_of s) paras ret len in
  ret' = ret + (Z.of_nat (size s') - Z.of_nat (size s0))
  /\ u64 len' = u64 (len + (set_image_len s' - set_image_len s0)).
Proof.
  intros Hf. revert s0 ret len. induction Hf as [|e paras He _ IH]; intros s0 ret len Hnd Heq H0 Hl.
  { cbn. unfold add_all. cbn. rewrite union_empty_l_L. split; [lia|]. f_equal. lia. }
  cbn [fmap list_fmap] in *. apply list.NoDup_cons in Hnd as [Hnin Hnd].
  rewrite zlen_cons in Hl. pose proof (zlen_nonneg paras).
  assert (forall k, k ∈ es_view <$> paras -> k ∈ {[es_view e]} ∪ s0 <-> k ∈ s) as Heq'.
  { intros k Hk. rewrite <-(Heq k) by (by right). set_solver. }
  assert (es_view e ∈ s0 <-> es_view e ∈ s) as Ee by (apply Heq; left).
  cbn zeta. rewrite add_all_cons. cbn [sadd_loop]. rewrite set_has_of. case_bool_decide as Hin.
  - rewrite Z.add_0_r, i32_id by (mach; lia).
    specialize (IH _ ret (u64 (len + 0)) Hnd Heq' H0 ltac:(lia)). cbn zeta in IH.
    replace ({[es_view e]} ∪ s0) with s0 in * by set_solver.
    destruct (sadd_loop _ _ _ _) as [ret' len']. destruct IH as [-> ->]. split; [done|].
    rewrite u64_add_l. f_equal. lia.
  - rewrite i32_id by (mach; lia).
    specialize (IH _ (ret + 1) (u64 (len + (4 + es_length e))) Hnd Heq' ltac:(lia) ltac:(lia)). cbn zeta in IH.
    destruct (sadd_loop _ _ _ _) as [ret' len']. destruct IH as [-> ->].
    rewrite set_image_len_insert by tauto. rewrite size_union by set_solver. rewrite size_singleton.
    split; [lia|]. rewrite u64_add_l, es_length_fits by done. f_equal. unfold elem_len. lia.
Qed.

(** SADD of distinct members. *)
Lemma Execute_SAdd_of s paras r :
  Forall es_fits paras -> NoDup (es_view <$> paras) -> zlen paras <= INT32_MAX ->
  let s' := add_all s (es_view <$> paras) in
  set_image_len s' < 2 ^ 64 ->
  let n := Z.of_nat (size s') - Z.of_nat (size s) in
  Execute_SAdd (set_of s) paras r
  = if decide (MAX_OBJECT_SIZE < set_image_len s')
    then (ss_set_err RD_ERR_OBJECT_TOO_BIG (ss_set_ret n r), NoChange)
    else (ss_set_ret n (ss_set_err RD_OK r), if 0 <? n then Modified else NoChange).
Proof.
  intros Hf Hnd Hl s' Hsz n. unfold Execute_SAdd.
  pose proof (sadd_loop_of s s paras 0 0 Hf Hnd ltac:(done) ltac:(lia) Hl) as H. cbn zeta in H.
  destruct (sadd_loop _ _ _ _) as [ret len]. destruct H as [-> Hlen].
  cbn [set_of set_serialized_length_]. rewrite u64_add_l, <-u64_add_r, Hlen.
  replace (u64 (set_image_len s + u64 (0 + (set_image_len (add_all s (es_view <$> paras)) - set_image_len s))))
    with (set_image_len s').
  - rewrite Z.add_0_l. fold s' n. case_decide as Hd;
      [rewrite (proj2 (Z.ltb_lt _ _) Hd)|rewrite (proj2 (Z.ltb_ge _ _)) by lia]; done.
  - rewrite u64_add_r. rewrite u64_id; [unfold s'; lia|]. fold s'.
    pose proof (set_image_len_pos s'). mach. lia.
Qed.

Lemma srem_count_of s s0 paras ret :
  NoDup (es_view <$> paras) -> (forall k, k ∈ es_view <$> paras -> k ∈ s0 <-> k ∈ s) ->
  0 <= ret -> ret + zlen paras <= INT32_MAX ->
  srem_count (set_of s) ret paras
  = ret + (Z.of_nat (size s0) - Z.of_nat (size (remove_all s0 (es_view <$> paras)))).
Proof.
  revert s0 ret. induction paras as [|e paras IH]; intros s0 ret Hnd Heq H0 Hl.
  { cbn. unfold remove_all. cbn. rewrite difference_empty_L. lia. }
  cbn [fmap list_fmap srem_count] in *. apply list.NoDup_cons in Hnd as [Hnin Hnd].
  rewrite zlen_cons in Hl. pose proof (zlen_nonneg paras).
  assert (forall k, k ∈ es_view <$> paras -> k ∈ s0 ∖ {[es_view e]} <-> k ∈ s) as Heq'.
  { intros k Hk. rewrite <-(Heq k) by (by right). set_solver. }
  assert (es_view e ∈ s0 <-> es_view e ∈ s) as Ee by (apply Heq; left).
  rewrite remove_all_cons, set_has_of. case_bool_decide as Hin.
  - rewrite i32_id, (IH (s0 ∖ {[es_view e]})) by (done || (mach; lia)).
    assert (size s0 = size (s0 ∖ {[es_view e]}) + 1)%nat as ->; [|lia].
    rewrite <-(size_singleton (C := gset bytes) (es_view e)), <-size_union by set_solver.
    f_equal. apply set_eq. intros k. destruct (decide (k = es_view e)); set_solver.
  - rewrite Z.add_0_r, i32_id, (IH (s0 ∖ {[es_view e]})) by (done || (mach; lia)).
    by replace (s0 ∖ {[es_view e]}) with s0 by set_solver.
Qed.

(** SREM of distinct members. *)
Lemma Execute_SRem_of s paras r :
  NoDup (es_view <$> paras) -> zlen paras <= INT32_MAX ->
  let s' := remove_all s (es_view <$> paras) in
  let n := Z.of_nat (size s) - Z.of_nat (size s') in
  Execute_SRem (set_of s) paras r
  = (ss_set_ret n (ss_set_err RD_OK r),
     if decide (s' = s) then NoChange else if decide (s' = ∅) then ModifiedToEmpty else Modified).
Proof.
  intros Hnd Hl s' n. unfold Execute_SRem.
  rewrite (srem_count_of s s) by (done || lia). fold s'. rewrite Z.add_0_l. fold n.
  assert (size s' <= size s)%nat as Hle by (apply subseteq_size; unfold s', remove_all; set_solver).
  assert (s' = s <-> n = 0) as Hiff.
  { split; [intros E; unfold n; rewrite E; lia|]. intros E.
    apply leibniz_equiv, set_subseteq_size_equiv; [unfold s', remove_all; set_solver|lia]. }
  assert (size s <= size s' + length paras)%nat as Hle2.
  { rewrite <-(length_fmap es_view paras), <-(size_list_to_set (C := gset bytes) (es_view <$> paras)) by done.
    rewrite <-size_union by (unfold s', remove_all; set_solver).
    apply subseteq_size. intros k Hk. unfold s', remove_all.
    destruct (decide (k ∈ (list_to_set (es_view <$> paras) : gset bytes))); set_solver. }
  f_equal. rewrite set_size_of, u64_id by (unfold n, zlen in *; mach; lia). case_decide as Hd.
  - by rewrite (proj2 (Z.eqb_eq n 0)) by tauto.
  - rewrite (proj2 (Z.eqb_neq n 0)) by tauto. case_decide as Hd2.
    + rewrite (proj2 (Z.leb_le _ _)); [done|]. unfold n. rewrite Hd2, size_empty. lia.
    + rewrite (proj2 (Z.leb_gt _ _)); [done|]. unfold n.
      assert (size s' <> 0)%nat by (intros E; apply Hd2, leibniz_equiv, size_empty_iff, E). lia.
Qed.

(** *** Iteration *)

Lemma own_set_list s : (map_to_list (own_set s)).*2 ≡ₚ es_own <$> elements s.
Proof.
  induction s as [|k s Hk IH] using set_ind_L; [done|].
  rewrite own_set_insert, map_to_list_insert by (by rewrite lookup_own_set, decide_False).
  rewrite elements_union_singleton by done. cbn. by rewrite IH.
Qed.

(** Every iteration order shows the same members. *)
Lemma set_iter_of s it :
  set_iter (set_of s) it -> exists l, it = es_own <$> l /\ l ≡ₚ elements s.
Proof.
  unfold set_iter. cbn [set_of hash_set_]. rewrite own_set_list.
  intros H. apply Permutation_map_inv in H as (l & -> & Hl). by exists l.
Qed.

Lemma set_iter_exists s : set_iter (set_of s) (es_own <$> elements s).
Proof. unfold set_iter. cbn [set_of hash_set_]. by rewrite own_set_list. Qed.

Lemma order_length (s : gset bytes) l : l ≡ₚ elements s -> length l = size s.
Proof. intros H. by rewrite H. Qed.

Lemma order_elem (s : gset bytes) l k : l ≡ₚ elements s -> k ∈ l <-> k ∈ s.
Proof. intros H. rewrite H. apply elem_of_elements. Qed.

Lemma order_NoDup (s : gset bytes) l : l ≡ₚ elements s -> NoDup l.
Proof. intros H. rewrite H. apply NoDup_elements. Qed.

Lemma clone_own_map l : Forall fits l -> es_clone <$> (es_own <$> l) = es_own <$> l.
Proof.
  intros H. rewrite <-list_fmap_compose. apply list_fmap_ext. intros i c Hc.
  apply es_clone_own. by eapply Forall_lookup_1 in H.
Qed.

(** *** SPOP and SRANDMEMBER *)

Lemma length_es_resize n l : length (es_resize n l) = n.
Proof. unfold es_resize. rewrite length_app, length_take, length_replicate. lia. Qed.

(** The stored members are read as they are. *)
Lemma pick_loop_own l m out : Forall fits l -> pick_loop es_clone (es_own <$> l) 0 m out = pick_loop es_own l 0 m out.
Proof. intros H. apply pick_loop_fmap. intros x Hx. rewrite list.Forall_forall in H. by apply es_clone_own, H. Qed.

Lemma walk_loop_own l n out : Forall fits l ->
  walk_loop es_clone n 0 (es_own <$> l) (es_own <$> l) out = walk_loop es_own n 0 l l out.
Proof. intros H. apply walk_loop_fmap. intros x Hx. rewrite list.Forall_forall in H. apply es_clone_own, H. tauto. Qed.

(** What a drawing of [n] members of [s] must return. *)
Definition sample (s : gset bytes) (n : Z) (picked : list bytes) : Prop :=
  zlen picked = n /\ forall k, k ∈ picked -> k ∈ s.

Lemma walk_sample s l n out :
  set_fits s -> l ≡ₚ elements s -> 0 <= n <= Z.of_nat (size s) -> length out = Z.to_nat n ->
  exists picked, walk_loop es_clone (Z.to_nat n) 0 (es_own <$> l) (es_own <$> l) out = Some (es_own <$> picked)
  /\ sample s n picked /\ NoDup picked.
Proof.
  intros Hs Hl Hn Hout. pose proof (order_length s l Hl).
  assert (Forall fits l) as Hf by (rewrite list.Forall_forall; intros k Hk%(order_elem s l k Hl); auto).
  exists (take (Z.to_nat n) l). rewrite walk_loop_own, walk_loop_of by (done || lia). split_and!; [done|split|].
  - unfold zlen. rewrite length_take. lia.
  - intros k Hk. apply (order_elem s l k Hl). rewrite <-(take_drop (Z.to_nat n) l). apply elem_of_app. by left.
  - eapply sublist_NoDup; [apply (order_NoDup s l Hl)|apply sublist_take].
Qed.

Lemma pick_sample s l m out :
  set_fits s -> l ≡ₚ elements s -> StronglySorted Z.le m.*1 ->
  Forall (fun k => 0 <= k < Z.of_nat (size s)) m.*1 -> m.*2 ≡ₚ seqZ 0 (zlen out) ->
  exists picked, pick_loop es_clone (es_own <$> l) 0 m out = Some (es_own <$> picked)
  /\ sample s (zlen out) picked /\ (NoDup m.*1 -> NoDup picked).
Proof.
  intros Hs Hl Hsort Hk Hv. pose proof (order_length s l Hl) as Hlen.
  assert (Forall fits l) as Hf by (rewrite list.Forall_forall; intros k Hk'%(order_elem s l k Hl); auto).
  rewrite <-Hlen in Hk. rewrite pick_loop_own by done. destruct (pick_all es_own l m out Hsort Hk Hv) as (picked & E & Hz & Hp).
  assert (forall k, k ∈ m.*1 -> l !! Z.to_nat k = Some (l !!! Z.to_nat k)) as Hlook.
  { intros k Hkm. rewrite list.Forall_forall in Hk. specialize (Hk k Hkm).
    apply list_lookup_lookup_total_lt. lia. }
  exists picked. split_and!; [done|split; [done|]|].
  - intros k. rewrite Hp. intros ([k' v] & -> & Hkv)%list_elem_of_fmap. apply (order_elem s l _ Hl).
    eapply list_elem_of_lookup_2, Hlook. apply list_elem_of_fmap. by exists (k', v).
  - intros Hnd. rewrite Hp. change ((fun kv : Z * Z => l !!! Z.to_nat kv.1) <$> m)
      with (((fun k => l !!! Z.to_nat k) ∘ fst) <$> m). rewrite list_fmap_compose.
    apply NoDup_fmap_2_strong; [|done]. intros x y Hx Hy Exy.
    pose proof (NoDup_lookup l (Z.to_nat x) (Z.to_nat y) (l !!! Z.to_nat x) (order_NoDup s l Hl)
      (Hlook x Hx)) as Hxy. rewrite Exy in Hxy. specialize (Hxy (Hlook y Hy)).
    rewrite list.Forall_forall in Hk. pose proof (Hk x Hx). pose proof (Hk y Hy). lia.
Qed.

(** Drawing without repetition through [GenRandMap]. *)
Lemma gen_sample s l n rands :
  set_fits s -> l ≡ₚ elements s -> 0 <= n <= Z.of_nat (size s) -> rands_ok n rands ->
  exists map, GenRandMap (Z.of_nat (size s)) n false rands = Some map /\ zlen map = n
  /\ forall out, length out = length map ->
     exists picked, pick_loop es_clone (es_own <$> l) 0 map out = Some (es_own <$> picked)
     /\ sample s n picked /\ NoDup picked.
Proof.
  intros Hs Hl Hn Hr. destruct (decide (n = 0)) as [->|H0].
  { exists []. split_and!; [done|done|]. intros out Ho. destruct out; [|done].
    exists []. split_and!; [done|split; [done|]|constructor]. intros k Hk. by apply not_elem_of_nil in Hk. }
  destruct (GenRandMap_distinct (Z.of_nat (size s)) n rands) as (m & E & [Hsort Hf] & Hz & Hv); [lia|lia|done|].
  exists m. split_and!; [done|done|]. intros out Ho.
  destruct (lt_le_sorted _ Hsort) as [Hle Hnd].
  destruct (pick_sample s l m out) as (picked & Ep & Hsam & Hnd'); [done..| |].
  { unfold zlen in *. by rewrite Ho, Hz. }
  exists picked. split_and!; [done| |auto].
  replace n with (zlen out); [done|]. unfold zlen in *. lia.
Qed.

Definition spop_count (count_ : Z) (s : gset bytes) : Z :=
  Z.min (if count_ =? -1 then 1 else count_) (Z.of_nat (size s)).

Lemma Execute_SPop_of s it bucket_count rands count_ r :
  set_fits s -> set_iter (set_of s) it -> Z.of_nat (size s) <= INT32_MAX -> -1 <= count_ ->
  let n := spop_count count_ s in
  rands_ok n rands ->
  exists popped err, sample s n popped /\ NoDup popped
  /\ Execute_SPop (set_of s) it bucket_count rands count_ r
     = Some (ss_set_list (es_own <$> popped) (ss_set_err err r),
             if decide (n = 0) then NoChange
             else if decide (n = Z.of_nat (size s)) then ModifiedToEmpty else Modified)
  /\ err = if decide (count_ = -1 /\ s = ∅) then RD_NIL else RD_OK.
Proof.
  intros Hs Hit Hsz Hc n Hr. destruct (set_iter_of s it Hit) as (l & -> & Hl).
  unfold Execute_SPop. rewrite set_size_of, i32_id by (mach; lia).
  cbn [ss_string_list_ ss_set_err].
  set (c := if count_ =? -1 then 1 else count_).
  assert (0 <= c) as Hc0 by (unfold c; destruct (Z.eqb_spec count_ (-1)); lia).
  assert ((if Z.of_nat (size s) <? c then Z.of_nat (size s) else c) = n) as ->.
  { unfold n, spop_count. fold c. destruct (Z.ltb_spec (Z.of_nat (size s)) c); lia. }
  assert (0 <= n <= Z.of_nat (size s)) as Hn by (unfold n, spop_count; fold c; lia).
  assert ((if n <? Z.of_nat (size s) then n else Z.of_nat (size s)) = n) as ->.
  { destruct (Z.ltb_spec n (Z.of_nat (size s))); lia. }
  assert (forall popped, sample s n popped ->
    (if decide (es_own <$> popped = []) then NoChange
     else if Z.of_nat (size s) <=? zlen (es_own <$> popped) then ModifiedToEmpty else Modified)
    = if decide (n = 0) then NoChange
      else if decide (n = Z.of_nat (size s)) then ModifiedToEmpty else Modified) as Hst.
  { intros popped [Hz _]. rewrite zlen_fmap, Hz.
    destruct (decide (n = 0)) as [H0|H0].
    - rewrite decide_True; [done|]. rewrite H0 in Hz. apply zlen_zero in Hz as ->. done.
    - rewrite decide_False by (intros E%fmap_nil_inv; subst; done).
      case_decide; [by rewrite (proj2 (Z.leb_le _ _)) by lia|by rewrite (proj2 (Z.leb_gt _ _)) by lia]. }
  destruct (take_shortcut (Z.of_nat (size s)) n bucket_count) eqn:Et.
  - destruct (walk_sample s l n (es_resize (Z.to_nat n) (ss_string_list_ r)) Hs Hl Hn) as (popped & E & Hsam & Hnd);
      [apply length_es_resize|].
    exists popped, RD_OK. split_and!; [done|done| |].
    + rewrite E. cbn [ss_string_list_ ss_set_list]. by rewrite Hst.
    + rewrite decide_False; [done|]. intros [_ ->]. unfold take_shortcut in Et. by rewrite size_empty in Et.
  - destruct (gen_sample s l n rands Hs Hl Hn Hr) as (m & -> & Hz & Hpick).
    set (err := if (count_ =? -1) && (zlen m =? 0) then RD_NIL else RD_OK).
    replace (if (count_ =? -1) && (zlen m =? 0) then ss_set_err RD_NIL (ss_set_err RD_OK r) else ss_set_err RD_OK r)
      with (ss_set_err err r) by (unfold err; by destruct ((count_ =? -1) && (zlen m =? 0))).
    destruct (Hpick (es_resize (length m) (ss_string_list_ r))) as (popped & E & Hsam & Hnd);
      [apply length_es_resize|].
    exists popped, err. split_and!; [done|done| |].
    + cbn [ss_string_list_ ss_set_err]. rewrite E. cbn [ss_string_list_ ss_set_list]. by rewrite Hst.
    + unfold err. rewrite Hz. clear Hst. case_decide as Hd.
      * destruct Hd as [E1 E2]. unfold n, spop_count. by rewrite E1, E2, size_empty.
      * destruct (Z.eqb_spec count_ (-1)) as [->|]; [|done]. cbn [andb].
        destruct (Z.eqb_spec n 0) as [H0|]; [|done]. exfalso. apply Hd. split; [done|].
        apply leibniz_equiv, size_empty_iff. unfold n, spop_count in H0.
        change (-1 =? -1) with true in H0. cbn iota in H0. lia.
Qed.

(** SRANDMEMBER with a count: distinct members for a positive one, independent
    draws for a negative one. *)
Lemma Execute_SRandMember_of s it bucket_count rands count_ r :
  set_fits s -> set_iter (set_of s) it -> s <> ∅ -> Z.of_nat (size s) <= INT32_MAX ->
  INT64_MIN < count_ <= INT64_MAX ->
  let n := if count_ <? 0 then - count_ else Z.min count_ (Z.of_nat (size s)) in
  rands_ok n rands ->
  exists picked, sample s n picked /\ (0 <= count_ -> NoDup picked)
  /\ Execute_SRandMember (set_of s) it bucket_count rands count_ r
     = Some (ss_set_list (es_own <$> picked) (ss_set_err RD_OK r)).
Proof.
  intros Hs Hit Hne Hsz Hc n Hr. destruct (set_iter_of s it Hit) as (l & -> & Hl).
  assert (0 < Z.of_nat (size s)) as Hpos.
  { assert (size s <> 0)%nat by (intros E; apply Hne, leibniz_equiv, size_empty_iff, E). lia. }
  unfold Execute_SRandMember. rewrite set_size_of, i32_id by (mach; lia).
  cbn [ss_string_list_ ss_set_err].
  match goal with |- context [take_shortcut _ ?c _] => assert (c = n) as -> end.
  { unfold n. destruct (Z.ltb_spec count_ 0), (Z.leb_spec 0 count_); try lia.
    - apply i64_id. mach. lia.
    - destruct (Z.ltb_spec (Z.of_nat (size s)) count_); lia. }
  destruct (take_shortcut (Z.of_nat (size s)) n bucket_count) eqn:Et.
  { apply take_shortcut_le in Et.
    destruct (walk_sample s l n (es_resize (Z.to_nat n) (ss_string_list_ r)) Hs Hl Et) as (p & E & Hsam & Hnd);
      [apply length_es_resize|]. exists p. split_and!; [done|done|]. by rewrite E. }
  destruct (Z.leb_spec 0 count_) as [Hd|Hd]; cbn [negb].
  - assert (0 <= n <= Z.of_nat (size s)) as Hn by (unfold n; destruct (Z.ltb_spec count_ 0); lia).
    destruct (gen_sample s l n rands Hs Hl Hn Hr) as (m & -> & Hz & Hpick).
    destruct (Hpick (es_resize (length m) (ss_string_list_ r))) as (p & E & Hsam & Hnd);
      [apply length_es_resize|]. exists p. split_and!; [done|done|]. by rewrite E.
  - assert (0 <= n) as Hn by (unfold n; destruct (Z.ltb_spec count_ 0); lia).
    destruct (GenRandMap_repeat (Z.of_nat (size s)) n rands) as (m & -> & Hsort & Hf & Hv); [lia|lia|done|].
    assert (length m = Z.to_nat n) as Hlm.
    { rewrite <-(length_fmap snd m), Hv, length_seqZ. done. }
    destruct (pick_sample s l m (es_resize (length m) (ss_string_list_ r))) as (p & E & Hsam & _);
      [done..| |].
    { unfold zlen. rewrite length_es_resize, Hlm, Z2Nat.id by lia. done. }
    exists p. split_and!; [|lia|by rewrite E].
    replace n with (zlen (es_resize (length m) (ss_string_list_ r))); [done|].
    unfold zlen. rewrite length_es_resize. lia.
Qed.

(** *** The members of a command *)

Lemma unique_elements_of set args :
  NoDup (es_view <$> unique_elements set args)
  /\ forall k, k ∈ es_view <$> unique_elements set args <-> k ∈ args /\ k ∉ set.
Proof.
  revert set. induction args as [|a l IH]; intros set; cbn [unique_elements].
  { split; [constructor|]. cbn. set_solver. }
  case_decide as Ha.
  - destruct (IH set) as [Hn He]. split; [done|]. intros k. rewrite He. set_solver.
  - destruct (IH ({[a]} ∪ set)) as [Hn He]. cbn [fmap list_fmap es_view es_of_view]. split.
    + apply list.NoDup_cons. split; [|done]. rewrite He. set_solver.
    + intros k. rewrite !elem_of_cons, He. destruct (decide (k = a)); set_solver.
Qed.

Lemma unique_elements_fits set args :
  Forall fits args -> Forall es_fits (unique_elements set args).
Proof.
  intros H. revert set. induction H as [|a l Ha _ IH]; intros set; cbn [unique_elements]; [constructor|].
  case_decide; [done|]. by constructor.
Qed.

Lemma unique_elements_length set args : zlen (unique_elements set args) <= zlen args.
Proof.
  revert set. induction args as [|a l IH]; intros set; cbn [unique_elements]; [done|].
  case_decide; rewrite ?zlen_cons; [specialize (IH set)|specialize (IH ({[a]} ∪ set))]; lia.
Qed.

(** What a parsed SADD or SREM hands to the object. *)
Lemma parsed_members parse args key els :
  parse = ParseSAddCommand \/ parse = ParseSRemCommand ->
  parse args = Some (key, els) -> Forall fits args -> zlen args <= INT32_MAX ->
  NoDup (es_view <$> els) /\ Forall es_fits els /\ zlen els <= INT32_MAX
  /\ list_to_set (es_view <$> els) = (list_to_set (drop 2 args) : gset bytes)
  /\ drop 2 args <> [].
Proof.
  intros Hp E Hf Hl.
  destruct args as [|c [|k [|a l]]]; try (by destruct Hp as [-> | ->]).
  assert (els = unique_elements ∅ (a :: l)) as -> by (destruct Hp as [-> | ->]; by injection E as _ <-).
  destruct (unique_elements_of ∅ (a :: l)) as [Hn He]. split_and!; [done|..].
  - apply unique_elements_fits. by do 2 apply list.Forall_cons in Hf as [_ Hf].
  - pose proof (unique_elements_length ∅ (a :: l)). rewrite !zlen_cons in *. lia.
  - apply set_eq. intros x. rewrite !elem_of_list_to_set, He. set_solver.
  - done.
Qed.

(** The members of a sample are that many fewer once removed. *)
Lemma size_remove_all (s : gset bytes) l :
  NoDup l -> (forall k, k ∈ l -> k ∈ s) ->
  Z.of_nat (size (remove_all s l)) = Z.of_nat (size s) - zlen l.
Proof.
  intros Hnd Hin. unfold remove_all, zlen.
  assert (list_to_set l ⊆ s) as Hsub by (intros k; rewrite elem_of_list_to_set; auto).
  pose proof (subseteq_size _ _ Hsub) as Hle.
  rewrite size_difference by done. rewrite size_list_to_set in * by done. lia.
Qed.

Lemma empty_size (s : gset bytes) : s = ∅ <-> Z.of_nat (size s) = 0.
Proof.
  split; [by intros ->|]. intros E. apply leibniz_equiv, size_empty_iff. lia.
Qed.

Lemma es_fits_views els : Forall es_fits els -> Forall fits (es_view <$> els).
Proof. by rewrite Forall_fmap. Qed.

(** *** Images *)

Definition set_image (l : list bytes) : bytes := type_byte TySet ++ list_payload l.
Definition setttl_image (l : list bytes) (ttl : Z) : bytes :=
  type_byte TyTTLSet ++ le_bytes 8 ttl ++ list_payload l.

Lemma order_fits (s : gset bytes) l : set_fits s -> l ≡ₚ elements s -> Forall fits l.
Proof. intros Hs Hl. rewrite list.Forall_forall. intros k Hk%(order_elem s l k Hl). auto. Qed.

Lemma order_image_len (s : gset bytes) l : l ≡ₚ elements s -> image_len l = set_image_len s.
Proof. intros H. unfold image_len, set_image_len. by rewrite (zsum_perm _ _ _ H). Qed.

Lemma order_zlen (s : gset bytes) l : l ≡ₚ elements s -> zlen l = Z.of_nat (size s).
Proof. intros H. unfold zlen. by rewrite (order_length s l). Qed.

Lemma zlen_set_image l : Forall fits l -> zlen (set_image l) = image_len l.
Proof. intros H. unfold set_image. zlen. rewrite zlen_list_payload by done. lia. Qed.

Lemma zlen_setttl_image l ttl : Forall fits l -> zlen (setttl_image l ttl) = 8 + image_len l.
Proof. intros H. unfold setttl_image. zlen. rewrite zlen_list_payload by done. lia. Qed.

Lemma set_Serialize_str_of s l :
  l ≡ₚ elements s -> set_Serialize_str (set_of s) (es_own <$> l) [] = set_image l.
Proof.
  intros H. unfold set_Serialize_str, set_image, list_payload.
  by rewrite set_size_of, <-(order_zlen s l), <-list_fmap_compose.
Qed.

Lemma setttl_Serialize_str_of s l ttl :
  l ≡ₚ elements s ->
  setttl_Serialize_str (mkSetTTL (set_of s) ttl) (es_own <$> l) [] = setttl_image l ttl.
Proof.
  intros H. unfold setttl_Serialize_str, setttl_image, list_payload. cbn [setttl_base setttl_ttl_].
  by rewrite set_size_of, <-(order_zlen s l), <-list_fmap_compose.
Qed.

Lemma set_Serialize_vec_of s l buf off :
  set_fits s -> set_image_len s < 2 ^ 64 -> l ≡ₚ elements s -> (off <= length buf)%nat ->
  set_Serialize_vec (set_of s) (es_own <$> l) buf off
  = Some (take off buf ++ set_image l, (off + length (set_image l))%nat).
Proof.
  intros Hs Hb Hl Ho. pose proof (order_fits s l Hs Hl) as Hf.
  unfold set_Serialize_vec. rewrite set_size_of. cbn [set_of set_serialized_length_].
  rewrite u64_id by (pose proof (set_image_len_pos s); mach; lia).
  rewrite <-(order_image_len s l), <-(zlen_set_image l), to_nat_zlen by done.
  apply vresize_write; [|done]. unfold set_image, list_payload. rewrite <-(order_zlen s l) by done.
  auto using Writes_vfor_lp with codec.
Qed.

Lemma setttl_Serialize_vec_of s l ttl buf off :
  set_fits s -> set_image_len s < 2 ^ 64 -> l ≡ₚ elements s -> (off <= length buf)%nat ->
  setttl_Serialize_vec (mkSetTTL (set_of s) ttl) (es_own <$> l) buf off
  = Some (take off buf ++ setttl_image l ttl, (off + length (setttl_image l ttl))%nat).
Proof.
  intros Hs Hb Hl Ho. pose proof (order_fits s l Hs Hl) as Hf. pose proof (set_image_len_pos s).
  unfold setttl_Serialize_vec. cbn [setttl_base setttl_ttl_]. rewrite set_size_of.
  cbn [set_of set_serialized_length_]. rewrite u64_id by (mach; lia).
  pose proof (zlen_setttl_image l ttl Hf) as Hz. rewrite (order_image_len s l Hl) in Hz.
  replace (off + 8 + Z.to_nat (set_image_len s))%nat with (off + length (setttl_image l ttl))%nat
    by (unfold zlen in Hz; lia).
  apply vresize_write; [|done]. unfold setttl_image, list_payload. rewrite <-(order_zlen s l) by done.
  auto 6 using Writes_vfor_lp with codec.
Qed.

Lemma set_read_members_of l s :
  Forall fits l ->
  Reads (set_read_members (length l) (own_set s)) (concat (lp_string <$> l)) (own_set (add_all s l)).
Proof.
  intros H. revert s. induction H as [|k l Hk _ IH]; intros s; cbn [length set_read_members fmap list_fmap concat].
  { unfold add_all. cbn. rewrite union_empty_l_L. apply Reads_ret. }
  eapply Reads_bind; [by apply Reads_lp_string|]. rewrite emplace_of, add_all_cons. apply IH.
Qed.

Lemma set_read_members_all l :
  Forall fits l ->
  Reads (set_read_members (length l) ∅) (concat (lp_string <$> l)) (own_set (add_all ∅ l)).
Proof.
  intros H. assert (own_set ∅ = ∅) as E by (apply map_eq; intros k; by rewrite lookup_own_set).
  rewrite <-E at 1. by apply set_read_members_of.
Qed.

Lemma order_restored (s : gset bytes) l : l ≡ₚ elements s -> add_all ∅ l = s.
Proof.
  intros H. unfold add_all. apply set_eq. intros k.
  rewrite elem_of_union, elem_of_list_to_set, (order_elem s l k H). set_solver.
Qed.

Lemma set_Deserialize_of s l :
  set_fits s -> l ≡ₚ elements s -> is_u32 (Z.of_nat (size s)) ->
  Reads set_Deserialize (set_image l) (set_of s).
Proof.
  intros Hs Hl Hn. pose proof (order_fits s l Hs Hl) as Hf. eapply Reads_bind_ret.
  - apply Reads_consumed. unfold set_image, list_payload.
    eapply Reads_bind; [by apply Reads_bytes|].
    eapply Reads_bind; [apply Reads_u32; by rewrite (order_zlen s l)|].
    rewrite to_nat_zlen. by apply set_read_members_all.
  - cbn [fst snd]. change (type_byte TySet ++ le_bytes 4 (zlen l) ++ concat (lp_string <$> l)) with (set_image l).
    rewrite zlen_set_image, (order_image_len s l), (order_restored s l) by done. done.
Qed.

Lemma setttl_Deserialize_of s l ttl :
  set_fits s -> l ≡ₚ elements s -> is_u32 (Z.of_nat (size s)) -> is_u64 ttl ->
  Reads setttl_Deserialize (setttl_image l ttl) (mkSetTTL (set_of s) ttl).
Proof.
  intros Hs Hl Hn Ht. pose proof (order_fits s l Hs Hl) as Hf. eapply Reads_bind_ret.
  - apply Reads_consumed. unfold setttl_image, list_payload.
    eapply Reads_bind; [by apply Reads_bytes|].
    eapply Reads_bind; [by apply Reads_u64|].
    eapply Reads_bind; [apply Reads_u32; by rewrite (order_zlen s l)|].
    rewrite to_nat_zlen. eapply Reads_bind_ret; [by apply set_read_members_all|done].
  - cbn [fst snd].
    change (type_byte TyTTLSet ++ le_bytes 8 ttl ++ le_bytes 4 (zlen l) ++ concat (lp_string <$> l))
      with (setttl_image l ttl).
    rewrite zlen_setttl_image, (order_image_len s l), (order_restored s l) by done.
    unfold set_of. do 4 f_equal. lia.
Qed.

(** ** Properties *)

(** The set that holds x and y. *)
Definition ex_x : bytes := [z2b 120].
Definition ex_y : bytes := [z2b 121].
Definition s_xy : RedisHashSetObject := (CommitSAdd set_new [es_own ex_x; es_own ex_y] false).1.

Lemma s_xy_of : s_xy = set_of {[ex_x; ex_y]}.
Proof. vm_compute. reflexivity. Qed.

Lemma s_xy_fits : set_fits {[ex_x; ex_y]}.
Proof. intros k [->%elem_of_singleton | ->%elem_of_singleton]%elem_of_union; concrete. Qed.

Lemma s_xy_wf : set_wf s_xy.
Proof. rewrite s_xy_of. apply set_wf_of, s_xy_fits. Qed.

Lemma s_xy_iter : set_iter s_xy [es_own ex_y; es_own ex_x].
Proof.
  assert (forall it, it ≡ₚ (map_to_list (hash_set_ s_xy)).*2 -> set_iter s_xy it) as H by done.
  apply H. vm_compute. first [reflexivity | apply Permutation_swap].
Qed.

(** a parsed SADD, repeated arguments included, reports the number of
    members it adds and is refused exactly when the set would pass the size
    limit; the commit keeps the invariant and stores the union, and a verdict
    of no change within the limit means that the union is the set itself. *)
Theorem sadd_agrees o args key els keep r :
  set_wf o -> ParseSAddCommand args = Some (key, els) ->
  Forall fits args -> zlen args <= INT32_MAX ->
  let s := set_contents o in
  let s' := list_to_set (drop 2 args) ∪ s in
  set_image_len s' < 2 ^ 64 ->
  let '(r', st) := Execute_SAdd o els r in
  let '(o', empty) := CommitSAdd o els keep in
  set_wf o' /\ set_contents o' = s' /\ empty = false
  /\ ss_ret_ r' = Z.of_nat (size s') - Z.of_nat (size s)
  /\ ss_err_code_ r' = (if decide (MAX_OBJECT_SIZE < set_image_len s') then RD_ERR_OBJECT_TOO_BIG else RD_OK)
  /\ (st = Modified <-> s' <> s /\ set_image_len s' <= MAX_OBJECT_SIZE) /\ st <> ModifiedToEmpty.
Proof.
  intros H. canon_set H s0 Hs. rewrite set_contents_of. intros Hp Hf Hl s s' Hb.
  destruct (parsed_members _ _ _ _ (or_introl eq_refl) Hp Hf Hl) as (Hnd & Hfe & Hle & Hset & Hne0).
  assert (add_all s0 (es_view <$> els) = s') as Es by (unfold add_all, s'; by rewrite Hset).
  pose proof (set_fits_add s0 (es_view <$> els) Hs) as Hfit. rewrite Es in Hfit.
  pose proof (Execute_SAdd_of s0 els r Hfe Hnd Hle) as He. cbn zeta in He. rewrite Es in He.
  rewrite He, CommitSAdd_of, Es by done. clear He.
  assert (s' <> ∅) as Hne by (unfold s'; destruct (drop 2 args); set_solver).
  rewrite (bool_decide_eq_false_2 (s' = ∅)) by done.
  assert (s' = s <-> Z.of_nat (size s') - Z.of_nat (size s) = 0) as Hiff.
  { split; [intros ->; lia|]. intros E. symmetry. apply leibniz_equiv, set_subseteq_size_equiv; [set_solver|lia]. }
  assert (size s <= size s')%nat as Hsz by (apply subseteq_size; set_solver).
  case_decide as Hd; (split_and!; [apply set_wf_of, Hfit, es_fits_views, Hfe|apply set_contents_of|done|done|done|..]).
  - split; [done|intros [_ ?]; lia].
  - done.
  - rewrite Hiff. change s0 with s.
    destruct (Z.ltb_spec 0 (Z.of_nat (size s') - Z.of_nat (size s))); split; [lia|done|done|lia].
  - by destruct (0 <? _).
Qed.

Lemma sadd_agrees_witness :
  let els := [es_of_view ex_y; es_of_view [z2b 122]] in
  let s' := list_to_set [ex_y; ex_y; [z2b 122]] ∪ set_contents s_xy in
  let '(r', st) := Execute_SAdd s_xy els set_result0 in
  let '(o', empty) := CommitSAdd s_xy els false in
  set_wf o' /\ set_contents o' = s' /\ empty = false
  /\ ss_ret_ r' = Z.of_nat (size s') - Z.of_nat (size (set_contents s_xy))
  /\ ss_err_code_ r' = (if decide (MAX_OBJECT_SIZE < set_image_len s') then RD_ERR_OBJECT_TOO_BIG else RD_OK)
  /\ (st = Modified <-> s' <> set_contents s_xy /\ set_image_len s' <= MAX_OBJECT_SIZE) /\ st <> ModifiedToEmpty.
Proof.
  exact (sadd_agrees s_xy [[z2b 115]; [z2b 107]; ex_y; ex_y; [z2b 122]] [z2b 107]
    [es_of_view ex_y; es_of_view [z2b 122]] false set_result0 s_xy_wf ltac:(vm_compute; reflexivity)
    ltac:(concrete) ltac:(concrete) ltac:(concrete)).
Defined.

(** a parsed SREM reports the number of members it removes; its verdict
    is no change exactly when it removes none and deletion exactly when it
    removes all, and the commit keeps the invariant and stores the difference. *)
Theorem srem_agrees o args key els r :
  set_wf o -> ParseSRemCommand args = Some (key, els) ->
  Forall fits args -> zlen args <= INT32_MAX ->
  let s := set_contents o in
  let s' := s ∖ list_to_set (drop 2 args) in
  let '(r', st) := Execute_SRem o els r in
  let '(o', empty) := CommitSRem o els in
  set_wf o' /\ set_contents o' = s' /\ (empty = true <-> s' = ∅)
  /\ ss_err_code_ r' = RD_OK /\ ss_ret_ r' = Z.of_nat (size s) - Z.of_nat (size s')
  /\ (st = NoChange <-> s' = s) /\ (st = ModifiedToEmpty <-> s' <> s /\ s' = ∅).
Proof.
  intros H. canon_set H s0 Hs. rewrite set_contents_of. intros Hp Hf Hl s s'.
  destruct (parsed_members _ _ _ _ (or_intror eq_refl) Hp Hf Hl) as (Hnd & Hfe & Hle & Hset & _).
  assert (remove_all s0 (es_view <$> els) = s') as Es by (unfold remove_all, s'; by rewrite Hset).
  pose proof (set_fits_remove s0 (es_view <$> els) Hs) as Hfit. rewrite Es in Hfit.
  rewrite Execute_SRem_of, CommitSRem_of, Es by done.
  split_and!; [by apply set_wf_of|apply set_contents_of|apply bool_decide_eq_true|done|done|..];
    change s0 with s; repeat case_decide; naive_solver.
Qed.

Lemma srem_agrees_witness :
  let '(r', st) := Execute_SRem s_xy [es_of_view ex_y] set_result0 in
  let '(o', empty) := CommitSRem s_xy [es_of_view ex_y] in
  let s' := set_contents s_xy ∖ list_to_set [ex_y; ex_y] in
  set_wf o' /\ set_contents o' = s' /\ (empty = true <-> s' = ∅)
  /\ ss_err_code_ r' = RD_OK /\ ss_ret_ r' = Z.of_nat (size (set_contents s_xy)) - Z.of_nat (size s')
  /\ (st = NoChange <-> s' = set_contents s_xy) /\ (st = ModifiedToEmpty <-> s' <> set_contents s_xy /\ s' = ∅).
Proof.
  exact (srem_agrees s_xy [[z2b 115]; [z2b 107]; ex_y; ex_y] [z2b 107] [es_of_view ex_y] set_result0
    s_xy_wf ltac:(vm_compute; reflexivity) ltac:(concrete) ltac:(concrete)).
Defined.

(** C36: for every iteration order, bucket count and random draw, SPOP answers
    with distinct members, as many as asked for or all, and committing the
    answer removes exactly them; the verdict is no change exactly when none is
    popped and deletion exactly when the set is emptied. *)
Theorem spop_agrees o it bucket_count rands count_ r :
  set_wf o -> set_iter o it -> set_size o <= INT32_MAX -> -1 <= count_ ->
  let s := set_contents o in
  let n := spop_count count_ s in
  rands_ok n rands ->
  exists r' st, Execute_SPop o it bucket_count rands count_ r = Some (r', st)
  /\ let popped := es_view <$> ss_string_list_ r' in
     let '(o', empty) := CommitSPop o (ss_string_list_ r') in
     NoDup popped /\ sample s n popped
     /\ set_wf o' /\ set_contents o' = s ∖ list_to_set popped
     /\ set_size o' = set_size o - n
     /\ (st = NoChange <-> n = 0) /\ (st = ModifiedToEmpty <-> n <> 0 /\ empty = true).
Proof.
  intros H. canon_set H s0 Hs. rewrite set_contents_of, set_size_of. intros Hi Hz Hc s n Hr.
  destruct (Execute_SPop_of s0 it bucket_count rands count_ r Hs Hi Hz Hc Hr)
    as (popped & err & [Hlen Hin] & Hnd & -> & _).
  do 2 eexists. split; [reflexivity|]. cbn [ss_string_list_ ss_set_list].
  assert (es_view <$> (es_own <$> popped) = popped) as Ev by (rewrite <-list_fmap_compose; apply list_fmap_id).
  assert (Forall es_fits (es_own <$> popped)) as Hf.
  { apply Forall_fmap, list.Forall_forall. intros k Hk. apply Hs, Hin, Hk. }
  unfold CommitSPop. rewrite srem_loop_of, set_empty_of, Ev by done.
  rewrite set_contents_of, set_size_of. change (spop_count count_ s0) with n in *. clearbody n.
  assert (Z.of_nat (size (remove_all s0 popped)) = Z.of_nat (size s0) - n) as Hsz.
  { rewrite <-Hlen. by apply size_remove_all. }
  split_and!; [done|done|by apply set_wf_of, set_fits_remove|done|done|..].
  - repeat case_decide; naive_solver.
  - rewrite bool_decide_eq_true, empty_size, Hsz. repeat case_decide; (split; intros; [first [done|lia]|first [done|exfalso; lia]]).
Qed.

Lemma spop_agrees_witness :
  exists r' st, Execute_SPop s_xy [es_own ex_y; es_own ex_x] 8 [7] 1 set_result0 = Some (r', st)
  /\ let popped := es_view <$> ss_string_list_ r' in
     let '(o', empty) := CommitSPop s_xy (ss_string_list_ r') in
     NoDup popped /\ sample (set_contents s_xy) 1 popped
     /\ set_wf o' /\ set_contents o' = set_contents s_xy ∖ list_to_set popped
     /\ set_size o' = 1
     /\ (st = NoChange <-> 1 = 0) /\ (st = ModifiedToEmpty <-> 1 <> 0 /\ empty = true).
Proof.
  exact (spop_agrees s_xy [es_own ex_y; es_own ex_x] 8 [7] 1 set_result0 s_xy_wf s_xy_iter
    ltac:(concrete) ltac:(concrete) ltac:(concrete)).
Defined.

(** for every iteration order, bucket count and random draw, SRANDMEMBER
    on a set with members answers with members of it: distinct ones, as many as
    asked for or all, for a count from 0, and exactly [-count] draws below 0. *)
Theorem srandmember_correct o it bucket_count rands count_ r :
  set_wf o -> set_iter o it -> 0 < set_size o <= INT32_MAX -> INT64_MIN < count_ <= INT64_MAX ->
  let n := if count_ <? 0 then - count_ else Z.min count_ (set_size o) in
  rands_ok n rands ->
  exists r', Execute_SRandMember o it bucket_count rands count_ r = Some r'
  /\ ss_err_code_ r' = RD_OK
  /\ let picked := es_view <$> ss_string_list_ r' in
     sample (set_contents o) n picked /\ (0 <= count_ -> NoDup picked).
Proof.
  intros H. canon_set H s Hs. rewrite set_contents_of, set_size_of. intros Hi Hz Hc n Hr.
  assert (s <> ∅) as Hne by (rewrite empty_size; lia).
  destruct (Execute_SRandMember_of s it bucket_count rands count_ r Hs Hi Hne (proj2 Hz) Hc Hr)
    as (picked & Hsam & Hnd & ->).
  eexists. split; [reflexivity|]. split; [done|]. cbn [ss_string_list_ ss_set_list].
  assert (es_view <$> (es_own <$> picked) = picked) as -> by (rewrite <-list_fmap_compose; apply list_fmap_id).
  by split.
Qed.

Lemma srandmember_correct_witness :
  exists r', Execute_SRandMember s_xy [es_own ex_y; es_own ex_x] 8 [7; 9; 2] (-3) set_result0 = Some r'
  /\ ss_err_code_ r' = RD_OK
  /\ let picked := es_view <$> ss_string_list_ r' in
     sample (set_contents s_xy) 3 picked /\ (0 <= -3 -> NoDup picked).
Proof.
  exact (srandmember_correct s_xy [es_own ex_y; es_own ex_x] 8 [7; 9; 2] (-3) set_result0 s_xy_wf s_xy_iter
    ltac:(concrete) ltac:(concrete) ltac:(concrete)).
Defined.

(** A set is restored from the image written in any iteration order of
    its table, with and without a TTL; the running length is the length of the
    image, both serializers agree, and [RemoveTTL] undoes [AddTTL]. *)
Lemma set_images o it ttl :
  set_wf o -> set_iter o it -> set_image_len (set_contents o) < 2 ^ 63 ->
  is_u32 (set_size o) -> is_u64 ttl ->
  let t := set_AddTTL o ttl in
  image_law (set_serialized_length_ o) (set_Serialize_str o it []) (set_Serialize_vec o it)
    set_Deserialize o
  /\ image_law (setttl_SerializedLength t) (setttl_Serialize_str t it [])
       (setttl_Serialize_vec t it) setttl_Deserialize t
  /\ set_RemoveTTL t = o.
Proof.
  intros H. canon_set H s Hs. rewrite set_contents_of, set_size_of. intros Hi Hb Hn Ht.
  destruct (set_iter_of s it Hi) as (l & -> & Hl). cbn zeta. pose proof (set_image_len_pos s).
  pose proof (order_fits s l Hs Hl) as Hf. unfold set_AddTTL.
  rewrite set_Serialize_str_of, setttl_Serialize_str_of by done.
  split_and!; [split|split|done].
  - rewrite zlen_set_image, (order_image_len s l) by done. cbn. by rewrite u64_id by (mach; lia).
  - by apply set_Deserialize_of.
  - intros. apply set_Serialize_vec_of; [done|lia|done..].
  - rewrite zlen_setttl_image, (order_image_len s l) by done. unfold setttl_SerializedLength. cbn.
    by rewrite (u64_id (set_image_len s)), u64_id by (mach; lia).
  - by apply setttl_Deserialize_of.
  - intros. apply setttl_Serialize_vec_of; [done|lia|done..].
Qed.

