(* ===== verification/ZsetObject.v ===== *)
(** * RedisZsetObject

    The sorted set of include/redis_zset_object.h and src/redis_zset_object.cpp:
    an ordered set of members with their scores, a hash table from members to
    scores, and the running length of the image.  The ordered set is the list of
    its nodes in order, an iterator a position in it; the table's keys are views
    of the members in the nodes and are their bytes here.  Queries and removals
    by range are in ZsetRange.v.

    Accesses the code does not check return [option]: an erased [end()], and a
    lookup in the table of [ZAddXX] and its kin when one of its keys, a view of
    a string that was moved, shows other bytes by now. *)

From stdpp Require Import sorting.
From S2P Require Import Prelude Codec EloqString RedisTypes Encoding StringNum Double.

Set Warnings "-clear-no-such-hyp".

Record ZNode := mkNode { node_field_ : EloqString; node_score_ : Z }.

Record RedisZsetObject := mkZset {
  z_ordered_set_ : list ZNode;
  z_hash_map_ : gmap bytes Z;
  zset_serialized_length_ : Z
}.

Definition zset_new : RedisZsetObject := mkZset [] ∅ (1 + 4).

(** The table is walked in an order of its own; [it] is that order. *)
Definition zset_iter (o : RedisZsetObject) (it : list (bytes * Z)) : Prop := it ≡ₚ map_to_list (z_hash_map_ o).

Definition zset_size (o : RedisZsetObject) : Z := zlen (z_ordered_set_ o).

(** ** The ordered set *)

(** [Cmp]. *)
Definition cmp_node (a b : ZNode) : bool :=
  if negb (dbl_eqb (node_score_ a) (node_score_ b)) then dbl_ltb (node_score_ a) (node_score_ b)
  else es_ltb (node_field_ a) (node_field_ b).

Fixpoint skip_while {A : Type} (f : A -> bool) (s : list A) : nat :=
  match s with
  | e :: s' => if f e then S (skip_while f s') else 0
  | [] => 0
  end.

(** [lower_bound] and [upper_bound] of a node, and of a score. *)
Definition lower_bound (k : ZNode) (s : list ZNode) : nat := skip_while (fun e => cmp_node e k) s.
Definition upper_bound (k : ZNode) (s : list ZNode) : nat := skip_while (fun e => negb (cmp_node k e)) s.
Definition score_lower_bound (d : Z) (s : list ZNode) : nat := skip_while (fun e => dbl_ltb (node_score_ e) d) s.
Definition score_upper_bound (d : Z) (s : list ZNode) : nat :=
  skip_while (fun e => negb (dbl_ltb d (node_score_ e))) s.

(** [find]; [None] is [end()]. *)
Definition zs_find (k : ZNode) (s : list ZNode) : option nat :=
  let p := lower_bound k s in
  match s !! p with
  | Some e => if cmp_node k e then None else Some p
  | None => None
  end.

(** [insert] keeps the node that is there. *)
Definition zs_insert (n : ZNode) (s : list ZNode) : list ZNode :=
  match zs_find n s with
  | Some _ => s
  | None => let p := lower_bound n s in take p s ++ n :: drop p s
  end.

Definition zs_erase (p : nat) (s : list ZNode) : list ZNode := delete p s.

(** [emplace] of the table does nothing when the member is there. *)
Definition zh_emplace (field : bytes) (score : Z) (m : gmap bytes Z) : gmap bytes Z :=
  match m !! field with Some _ => m | None => <[field := score]> m end.

(** [sizeof(double) + sizeof(uint32_t) + len]. *)
Definition znode_len (len : Z) : Z := 8 + 4 + len.

(** ** Copies *)

Fixpoint zset_copy_loop (nodes : list ZNode) (o : RedisZsetObject) : RedisZsetObject :=
  match nodes with
  | [] => o
  | n :: nodes' =>
      let c := mkNode (es_clone (node_field_ n)) (node_score_ n) in
      zset_copy_loop nodes'
        (mkZset (zs_insert c (z_ordered_set_ o)) (zh_emplace (es_view (node_field_ c)) (node_score_ n) (z_hash_map_ o))
           (zset_serialized_length_ o))
  end.

(** The copy constructor; [Clone]. *)
Definition zset_copy (rhs : RedisZsetObject) : RedisZsetObject :=
  zset_copy_loop (z_ordered_set_ rhs) (mkZset [] ∅ (zset_serialized_length_ rhs)).

(** The move constructor leaves an empty set. *)
Definition zset_move (rhs : RedisZsetObject) : RedisZsetObject * RedisZsetObject := (rhs, zset_new).

(** ** ZADD *)

Inductive ZElements :=
| ElMonostate
| ElPair (num : Z) (field : EloqString)
| ElVector (elements : list (Z * EloqString)).

(** [ZParams]: the flags of ZADD. *)
Definition ZADD_IN_INCR : Z := 1.
Definition ZADD_IN_NX : Z := 2.
Definition ZADD_IN_XX : Z := 4.
Definition ZADD_IN_GT : Z := 8.
Definition ZADD_IN_LT : Z := 16.
Definition ZADD_OUT_CH : Z := 32.
Definition ZADD_FORCE_CLEAR : Z := 64.
Definition has_flag (flag flags : Z) : bool := negb (Z.land flags flag =? 0).
Abbreviation INCR := (has_flag ZADD_IN_INCR).
Abbreviation NX := (has_flag ZADD_IN_NX).
Abbreviation XX := (has_flag ZADD_IN_XX).
Abbreviation GT := (has_flag ZADD_IN_GT).
Abbreviation LT := (has_flag ZADD_IN_LT).
Abbreviation CH := (has_flag ZADD_OUT_CH).
Abbreviation ForceClear := (has_flag ZADD_FORCE_CLEAR).

(** An entry of [used_field].  Its key is a view of a field; when the field was
    short and owned, and was moved to an earlier place of the vector, the view
    still shows the place it was moved from. *)
Record UsedField := mkUsed { used_key : bytes; used_from : option nat; used_score : Z }.

(** What a view of [n] bytes at the place of a string shows after [e] was moved
    there: a short owned string overwrites its own length, anything else more. *)
Definition still_shows (key : bytes) (e : EloqString) : bool :=
  match es_type e with
  | Stack => bool_decide (take (length key) (es_view e ++ drop (length (es_view e)) key) = key)
  | _ => false
  end.

Definition used_valid (kept : list (Z * EloqString)) (u : UsedField) : bool :=
  match used_from u with
  | None => true
  | Some j => match kept !! j with Some (_, e) => still_shows (used_key u) e | None => true end
  end.

Fixpoint used_find (used : list UsedField) (field : bytes) : option Z :=
  match used with
  | [] => None
  | u :: used' => if bool_decide (used_key u = field) then Some (used_score u) else used_find used' field
  end.

(** [insert], or assignment through the iterator found before. *)
Fixpoint used_set (used : list UsedField) (field : bytes) (from : option nat) (num : Z) : list UsedField :=
  match used with
  | [] => [mkUsed field from num]
  | u :: used' =>
      if bool_decide (used_key u = field) then mkUsed (used_key u) (used_from u) num :: used'
      else u :: used_set used' field from num
  end.

(** The loop of [ZAddXX], [ZAddNX], [ZAddLT] and [ZAddGT].  [it] is the place of
    the element, [kept] the elements moved to the front so far.  The rule takes
    the score, the score set by an earlier element and the one in the table, and
    answers whether the element stays, what it adds to the count and whether it
    is a modification. *)
Fixpoint zadd_filter (hash : gmap bytes Z) (rule : Z -> option Z -> option Z -> option (Z * bool))
    (elements : list (Z * EloqString)) (it : nat) (kept : list (Z * EloqString)) (used : list UsedField)
    (cnt : Z) (modified : bool) : option (list (Z * EloqString) * Z * bool) :=
  match elements with
  | [] => Some (kept, cnt, modified)
  | (num, field) :: elements' =>
      if negb (forallb (used_valid kept) used) then None
      else
        let sv := es_view field in
        match rule num (used_find used sv) (hash !! sv) with
        | None => zadd_filter hash rule elements' (S it) kept used cnt modified
        | Some (c, b) =>
            let moves := negb (it =? length kept)%nat in
            let from := if moves && match es_type field with Stack => true | _ => false end then Some it else None in
            let e := if moves then (es_move field).1 else field in
            zadd_filter hash rule elements' (S it) (kept ++ [(num, e)]) (used_set used sv from num)
              (cnt + c) (modified || b)
        end
  end.

Definition b2i (b : bool) : Z := if b then 1 else 0.

Definition xx_rule (ch : bool) (num : Z) (used hash : option Z) : option (Z * bool) :=
  match used, hash with
  | None, None => None
  | Some v, _ | None, Some v => Some (b2i (ch && negb (dbl_eqb num v)), negb (dbl_eqb num v))
  end.

Definition nx_rule (num : Z) (used hash : option Z) : option (Z * bool) :=
  match used with
  | Some _ => None
  | None => match hash with Some _ => None | None => Some (1, true) end
  end.

(** [better num old] is [num < old] for LT and [num > old] for GT. *)
Definition cmp_rule (better : Z -> Z -> bool) (ch xx : bool) (num : Z) (used hash : option Z) : option (Z * bool) :=
  let lt := match used, hash with Some v, _ | None, Some v => better num v | None, None => true end in
  if negb lt || (xx && bool_decide (used = None) && bool_decide (hash = None)) then None
  else match used with
       | None =>
           match hash with
           | None => Some (1, true)
           | Some v => Some (b2i (ch && better num v), better num v)
           end
       | Some v => Some (b2i (ch && better num v), better num v)
       end.

Definition ZAddXX (o : RedisZsetObject) (elements : list (Z * EloqString)) (ch : bool) :=
  zadd_filter (z_hash_map_ o) (xx_rule ch) elements 0 [] [] 0 false.
Definition ZAddNX (o : RedisZsetObject) (elements : list (Z * EloqString)) :=
  zadd_filter (z_hash_map_ o) nx_rule elements 0 [] [] 0 false.
Definition ZAddLT (o : RedisZsetObject) (elements : list (Z * EloqString)) (ch xx : bool) :=
  zadd_filter (z_hash_map_ o) (cmp_rule (fun num v => dbl_ltb num v) ch xx) elements 0 [] [] 0 false.
Definition ZAddGT (o : RedisZsetObject) (elements : list (Z * EloqString)) (ch xx : bool) :=
  zadd_filter (z_hash_map_ o) (cmp_rule (fun num v => dbl_ltb v num) ch xx) elements 0 [] [] 0 false.

(** ZADD without a condition moves nothing. *)
Fixpoint zadd_count (hash : gmap bytes Z) (ch : bool) (elements : list (Z * EloqString)) (used : gmap bytes Z)
    (cnt : Z) (modified : bool) : Z * bool :=
  match elements with
  | [] => (cnt, modified)
  | (num, field) :: elements' =>
      let sv := es_view field in
      let '(c, b) :=
        match used !! sv with
        | None =>
            match hash !! sv with
            | None => (1, true)
            | Some v => (b2i (ch && negb (dbl_eqb v num)), negb (dbl_eqb v num))
            end
        | Some v => (b2i (ch && negb (dbl_eqb v num)), negb (dbl_eqb v num))
        end in
      zadd_count hash ch elements' (<[sv := num]> used) (cnt + c) (modified || b)
  end.

Definition ZAdd (o : RedisZsetObject) (elements : list (Z * EloqString)) (ch : bool) : Z * bool :=
  zadd_count (z_hash_map_ o) ch elements ∅ 0 false.

Section Printing.

Context (fpconv_dtoa : Z -> bytes).

(** A score as a string of the reply. *)
Definition score_string (score : Z) : EloqString := es_of_data (d2string fpconv_dtoa score).

(** ZADD with INCR: the error code, the reply, whether the score changes, and the
    elements left in the command. *)
Definition ZAddIncr (o : RedisZsetObject) (num : Z) (field : EloqString) (flags : Z)
    : Z * EloqString * bool * ZElements :=
  let hash := z_hash_map_ o !! es_view field in
  let na_infi := dbl_eqb num dbl_ninf in
  let po_infi := dbl_eqb num dbl_inf in
  let flag := if XX flags then bool_decide (hash <> None) else true in
  let nil := (RD_NIL, es_of_view [], false, ElMonostate) in
  if NX flags && bool_decide (hash <> None) then nil
  else if GT flags && match hash with None => true | Some v => dbl_leb (dbl_add v num) v end then nil
  else if LT flags && match hash with None => true | Some v => dbl_leb v (dbl_add v num) end then nil
  else
    let '(flag, num') :=
      match hash with
      | Some v =>
          if flag then
            let na_infi := na_infi || dbl_eqb v dbl_ninf in
            let po_infi := po_infi || dbl_eqb v dbl_inf in
            (negb (na_infi && po_infi), dbl_add num v)
          else (flag, num)
      | None => (flag, num)
      end in
    if negb flag then (RD_ERR_SCORE_NAN, es_of_view [], false, ElMonostate)
    else (RD_OK, score_string num', true, ElPair num field).

Definition elements_len (elements : list (Z * EloqString)) : Z :=
  foldl (fun len e => u64 (len + znode_len (es_length e.2))) 0 elements.

(** [std::get] of a variant that holds something else throws. *)
Definition get_vector (elements : ZElements) : option (list (Z * EloqString)) :=
  match elements with ElVector v => Some v | _ => None end.

Definition Execute_ZAdd (o : RedisZsetObject) (elements : ZElements) (flags : Z) (r : RedisZsetResult)
    : option (RedisZsetResult * ZElements * CommandExecuteState) :=
  let size_increased :=
    match elements with
    | ElPair _ field => u64 (znode_len (es_length field))
    | ElVector v => elements_len v
    | ElMonostate => 0
    end in
  if MAX_OBJECT_SIZE <? u64 (zset_serialized_length_ o + size_increased)
  then Some (zr_set_err RD_ERR_OBJECT_TOO_BIG r, elements, NoChange)
  else
    let state modified := if modified : bool then Modified else NoChange in
    let counted cnt modified v := (mkZsetResult RD_OK (ZRInt cnt), ElVector v, state modified) in
    if INCR flags then
      match elements with
      | ElPair num field =>
          let '(e, s, modified, rest) := ZAddIncr o num field flags in
          Some (mkZsetResult e (ZRString s), rest, state modified)
      | _ => None
      end
    else
      v ← get_vector elements;
      if LT flags then '(v, cnt, modified) ← ZAddLT o v (CH flags) (XX flags); Some (counted cnt modified v)
      else if GT flags then '(v, cnt, modified) ← ZAddGT o v (CH flags) (XX flags); Some (counted cnt modified v)
      else if NX flags then '(v, cnt, modified) ← ZAddNX o v; Some (counted cnt modified v)
      else if XX flags then '(v, cnt, modified) ← ZAddXX o v (CH flags); Some (counted cnt modified v)
      else let '(cnt, modified) := ZAdd o v (CH flags) in Some (counted cnt modified v).

(** The lambda of [CommitZAdd]: the new object, and what is left of the element. *)
Definition update_element (incr should_not_move_string : bool) (num : Z) (field : EloqString) (o : RedisZsetObject)
    : option (RedisZsetObject * (Z * EloqString)) :=
  let sv := es_view field in
  let hash := z_hash_map_ o !! sv in
  let num := if incr then dbl_add num (default 0 hash) else num in
  let field_len := es_length field in
  '(s, m, len) ←
    match hash with
    | Some v =>
        p ← zs_find (mkNode (es_of_view sv) v) (z_ordered_set_ o);
        Some (zs_erase p (z_ordered_set_ o), delete sv (z_hash_map_ o), zset_serialized_length_ o)
    | None => Some (z_ordered_set_ o, z_hash_map_ o, u64 (zset_serialized_length_ o + znode_len field_len))
    end;
  let '(stored, rest) := es_take should_not_move_string field in
  Some (mkZset (zs_insert (mkNode stored num) s) (zh_emplace (es_view stored) num m) len, (num, rest)).

Fixpoint update_elements (incr should_not_move_string : bool) (elements : list (Z * EloqString)) (o : RedisZsetObject)
    : option (RedisZsetObject * list (Z * EloqString)) :=
  match elements with
  | [] => Some (o, [])
  | (num, field) :: elements' =>
      '(o, e) ← update_element incr should_not_move_string num field o;
      '(o, rest) ← update_elements incr should_not_move_string elements' o;
      Some (o, e :: rest)
  end.

(** The conditions are applied again: a standby commits without executing. *)
Definition refilter (o : RedisZsetObject) (v : list (Z * EloqString)) (flags : Z) : option (list (Z * EloqString)) :=
  if LT flags then (fun x => x.1.1) <$> ZAddLT o v (CH flags) (XX flags)
  else if GT flags then (fun x => x.1.1) <$> ZAddGT o v (CH flags) (XX flags)
  else if NX flags then (fun x => x.1.1) <$> ZAddNX o v
  else if XX flags then (fun x => x.1.1) <$> ZAddXX o v (CH flags)
  else Some v.

Definition CommitZAdd (o : RedisZsetObject) (elements : ZElements) (flags : Z) (should_not_move_string : bool)
    : option (RedisZsetObject * ZElements) :=
  match elements with
  | ElVector v =>
      v ← (if negb (INCR flags) then refilter o v flags else Some v);
      '(o, rest) ← update_elements (INCR flags) should_not_move_string v o;
      Some (o, ElVector rest)
  | ElPair num field =>
      '(o, (num, field)) ← update_element (INCR flags) should_not_move_string num field o;
      Some (o, ElPair num field)
  | ElMonostate => Some (o, ElMonostate)
  end.

(** Nothing calls this one; it leaves the running length as it was. *)
Fixpoint znew_loop (elements : list (Z * EloqString)) (o : RedisZsetObject) : RedisZsetObject :=
  match elements with
  | [] => o
  | (score, field) :: elements' =>
      let stored := (es_take false field).1 in
      znew_loop elements'
        (mkZset (zs_insert (mkNode stored score) (z_ordered_set_ o))
           (zh_emplace (es_view stored) score (z_hash_map_ o)) (zset_serialized_length_ o))
  end.

Definition CommitZNew (o : RedisZsetObject) (elements : list (Z * EloqString)) : RedisZsetObject :=
  znew_loop elements (mkZset [] ∅ (zset_serialized_length_ o)).

(** ** Removing members *)

(** One member leaves: the loop body of [CommitZRem], and [DelField]. *)
Definition DelField (o : RedisZsetObject) (sv : bytes) : option RedisZsetObject :=
  match z_hash_map_ o !! sv with
  | Some v =>
      p ← zs_find (mkNode (es_of_view sv) v) (z_ordered_set_ o);
      Some (mkZset (zs_erase p (z_ordered_set_ o)) (delete sv (z_hash_map_ o))
              (u64 (zset_serialized_length_ o - znode_len (zlen sv))))
  | None => Some o
  end.

Fixpoint zrem_loop (elements : list EloqString) (o : RedisZsetObject) : option RedisZsetObject :=
  match elements with
  | [] => Some o
  | element :: elements' =>
      let sv := es_view element in
      o ← match z_hash_map_ o !! sv with
          | Some v =>
              p ← zs_find (mkNode (es_of_view sv) v) (z_ordered_set_ o);
              Some (mkZset (zs_erase p (z_ordered_set_ o)) (delete sv (z_hash_map_ o))
                      (u64 (zset_serialized_length_ o - znode_len (es_length element))))
          | None => Some o
          end;
      zrem_loop elements' o
  end.

Definition zset_empty (o : RedisZsetObject) : bool := (length (z_ordered_set_ o) =? 0)%nat.

Definition CommitZRem (o : RedisZsetObject) (elements : list EloqString) : option (RedisZsetObject * bool) :=
  o ← zrem_loop elements o; Some (o, zset_empty o).

Definition zrem_count (o : RedisZsetObject) (elements : list EloqString) : Z :=
  foldl (fun ans e => i32 (ans + b2i (bool_decide (is_Some (z_hash_map_ o !! es_view e))))) 0 elements.

Definition Execute_ZRem (o : RedisZsetObject) (elements : list EloqString) : RedisZsetResult * CommandExecuteState :=
  let ans := zrem_count o elements in
  (mkZsetResult RD_OK (ZRInt ans),
   if ans =? 0 then NoChange else if i32 (zset_size o) <=? ans then ModifiedToEmpty else Modified).

Inductive PopType := POPMIN | POPMAX.

(** Member and score of every node. *)
Definition with_scores (nodes : list ZNode) : list EloqString :=
  mjoin ((fun n => [es_clone (node_field_ n); score_string (node_score_ n)]) <$> nodes).

(** The nodes an iterator visits while the index is below the count. *)
Definition pop_nodes (nodes : list ZNode) (count : Z) : list ZNode := take (Z.to_nat count) nodes.

Definition Execute_ZPop (o : RedisZsetObject) (pop_type_ : PopType) (count_ : Z) : RedisZsetResult * CommandExecuteState :=
  let s := z_ordered_set_ o in
  let ans := with_scores (pop_nodes (match pop_type_ with POPMIN => s | POPMAX => reverse s end) count_) in
  let removed_cnt := Z.quot (zlen ans) 2 in
  (mkZsetResult RD_OK (ZRStrings ans),
   if (length ans =? 0)%nat then NoChange else if zset_size o <=? removed_cnt then ModifiedToEmpty else Modified).

(** The loops of [CommitZPop] over the popped nodes. *)
Fixpoint pop_loop (nodes : list ZNode) (m : gmap bytes Z) (len : Z) : gmap bytes Z * Z :=
  match nodes with
  | [] => (m, len)
  | n :: nodes' =>
      pop_loop nodes' (delete (es_view (node_field_ n)) m) (u64 (len - znode_len (es_length (node_field_ n))))
  end.

(** A negative count would move an iterator before the first node. *)
Definition CommitZPop (o : RedisZsetObject) (pop_type : PopType) (count : Z) : option (RedisZsetObject * bool) :=
  let s := z_ordered_set_ o in
  if zset_size o <=? count then Some (zset_new, true)
  else if count <? 0 then None
  else
    let '(nodes, rest) :=
      match pop_type with
      | POPMIN => (pop_nodes s count, drop (Z.to_nat count) s)
      | POPMAX => (pop_nodes (reverse s) count, take (length s - Z.to_nat count) s)
      end in
    let '(m, len) := pop_loop nodes (z_hash_map_ o) (zset_serialized_length_ o) in
    let o := mkZset rest m len in
    Some (o, zset_empty o).

(** ** Reading *)

Definition Execute_ZScore (o : RedisZsetObject) (element_ : EloqString) (r : RedisZsetResult) : RedisZsetResult :=
  match z_hash_map_ o !! es_view element_ with
  | None => zr_set_err RD_NIL r
  | Some v => mkZsetResult RD_OK (ZRString (score_string v))
  end.

Definition Execute_ZMScore (o : RedisZsetObject) (vct_elm_ : list EloqString) : RedisZsetResult :=
  mkZsetResult RD_OK (ZRStrings
    ((fun e => match z_hash_map_ o !! es_view e with None => es_of_view [] | Some v => score_string v end) <$> vct_elm_)).

Definition Execute_ZCard (o : RedisZsetObject) : RedisZsetResult := mkZsetResult RD_OK (ZRInt (i32 (zset_size o))).

Definition Execute_ZRank (o : RedisZsetObject) (member_ : EloqString) (is_rev_ with_score_ : bool) (r : RedisZsetResult)
    : RedisZsetResult :=
  match z_hash_map_ o !! es_view member_ with
  | None => zr_set_err RD_NIL r
  | Some v =>
      let s := z_ordered_set_ o in
      let p := default (length s) (zs_find (mkNode (es_of_view (es_view member_)) v) s) in
      let rank := i32 (if is_rev_ then zlen s - Z.of_nat p - 1 else Z.of_nat p) in
      mkZsetResult RD_OK (if with_score_ then ZRPair rank (d2string fpconv_dtoa v) else ZRInt rank)
  end.

(** What SORT loads, and what the multi-key commands read. *)
Definition Execute_SortableLoad_zset (o : RedisZsetObject) : RedisObjectType * list bytes :=
  (TyZset, (fun n => es_view (node_field_ n)) <$> z_ordered_set_ o).

Definition Execute_SZScan_zset (o : RedisZsetObject) : list (EloqString * Z) :=
  (fun n => (es_clone (node_field_ n), node_score_ n)) <$> z_ordered_set_ o.

End Printing.

(** ** Serialization *)

Definition zentry_str (e : bytes * Z) : bytes :=
  lp_string e.1 ++ le_bytes 8 e.2.

Definition zentry_vec (e : bytes * Z) : VWriter :=
  vput (le_bytes 4 (zlen e.1)) ;;w vput (take (Z.to_nat (u32 (zlen e.1))) e.1) ;;w vput (le_bytes 8 e.2).

Definition zhash_size (o : RedisZsetObject) : Z := Z.of_nat (size (z_hash_map_ o)).

Definition zset_Serialize_str (o : RedisZsetObject) (it : list (bytes * Z)) (str : bytes) : bytes :=
  str ++ type_byte TyZset ++ le_bytes 4 (zhash_size o) ++ concat (zentry_str <$> it).

Definition zset_Serialize_vec (o : RedisZsetObject) (it : list (bytes * Z)) (buf : bytes) (offset : nat)
    : option (bytes * nat) :=
  let buf := vresize (offset + Z.to_nat (zset_serialized_length_ o)) buf in
  (vput (type_byte TyZset) ;;w vput (le_bytes 4 (zhash_size o)) ;;w vfor zentry_vec it) (buf, offset).

(** The loop of [Deserialize]. *)
Fixpoint zset_read_entries (cnt : nat) (o : RedisZsetObject) : Reader RedisZsetObject :=
  match cnt with
  | O => rret o
  | S cnt' =>
      d <-- read_lp_string; score <-- read_u64;
      let field := es_own d in
      zset_read_entries cnt'
        (mkZset (zs_insert (mkNode field score) (z_ordered_set_ o)) (zh_emplace d score (z_hash_map_ o))
           (u64 (zset_serialized_length_ o + znode_len (zlen d))))
  end.

Definition zset_Deserialize : Reader RedisZsetObject :=
  _ <-- read_bytes 1; cnt <-- read_u32; zset_read_entries (Z.to_nat cnt) zset_new.

(** ** The TTL variant *)

Record RedisZsetTTLObject := mkZsetTTL { zsetttl_base : RedisZsetObject; zsetttl_ttl_ : Z }.

(** The parameter is a [const] rvalue, so the set is copied. *)
Definition zset_AddTTL (o : RedisZsetObject) (ttl : Z) : RedisZsetTTLObject := mkZsetTTL (zset_copy o) ttl.
Definition zset_RemoveTTL (o : RedisZsetTTLObject) : RedisZsetObject := (zset_move (zsetttl_base o)).1.

Definition zsetttl_SerializedLength (o : RedisZsetTTLObject) : Z :=
  u64 (8 + zset_serialized_length_ (zsetttl_base o)).

Definition zsetttl_Serialize_str (o : RedisZsetTTLObject) (it : list (bytes * Z)) (str : bytes) : bytes :=
  str ++ type_byte TyTTLZset ++ le_bytes 8 (zsetttl_ttl_ o) ++ le_bytes 4 (zhash_size (zsetttl_base o))
      ++ concat (zentry_str <$> it).

Definition zsetttl_Serialize_vec (o : RedisZsetTTLObject) (it : list (bytes * Z)) (buf : bytes) (offset : nat)
    : option (bytes * nat) :=
  let b := zsetttl_base o in
  let buf := vresize (offset + 8 + Z.to_nat (zset_serialized_length_ b)) buf in
  (vput (type_byte TyTTLZset) ;;w vput (le_bytes 8 (zsetttl_ttl_ o)) ;;w vput (le_bytes 4 (zhash_size b))
     ;;w vfor zentry_vec it) (buf, offset).

Definition zsetttl_Deserialize : Reader RedisZsetTTLObject :=
  _ <-- read_bytes 1; ttl <-- read_u64; cnt <-- read_u32;
  o <-- zset_read_entries (Z.to_nat cnt) zset_new;
  rret (mkZsetTTL o ttl).

(** ** Comparison *)

(** A member the other table lacks is an access to its [end()]. *)
Fixpoint zeq_hash (it : list (bytes * Z)) (rhs : gmap bytes Z) : option bool :=
  match it with
  | [] => Some true
  | (key, value) :: it' =>
      v ← rhs !! key;
      if dbl_eqb v value then zeq_hash it' rhs else Some false
  end.

Fixpoint zeq_nodes (nodes rhs : list ZNode) : bool :=
  match nodes with
  | [] => true
  | n :: nodes' =>
      match zs_find n rhs ≫= (fun p => rhs !! p) with
      | None => false
      | Some e => dbl_eqb (node_score_ e) (node_score_ n) && es_eqb (node_field_ e) (node_field_ n) && zeq_nodes nodes' rhs
      end
  end.

Definition zset_operator_eq (o rhs : RedisZsetObject) (it : list (bytes * Z)) : option bool :=
  b ← zeq_hash it (z_hash_map_ rhs);
  Some (b && zeq_nodes (z_ordered_set_ o) (z_ordered_set_ rhs)
          && (zhash_size rhs =? zhash_size o) && (zset_size rhs =? zset_size o)).

(** ** The order of the pairs *)

Abbreviation ZPair := (bytes * Z)%type.

Definition pair_of (n : ZNode) : ZPair := (es_view (node_field_ n), node_score_ n).
Definition node_of (p : ZPair) : ZNode := mkNode (es_own p.1) p.2.

Definition zltb (a b : ZPair) : bool :=
  if negb (dbl_eqb a.2 b.2) then dbl_ltb a.2 b.2 else bytes_ltb a.1 b.1.

Definition zlt (a b : ZPair) : Prop := dkey a.2 < dkey b.2 \/ dkey a.2 = dkey b.2 /\ bytes_ltb a.1 b.1 = true.

Lemma cmp_node_pairs a b : cmp_node a b = zltb (pair_of a) (pair_of b).
Proof. done. Qed.

Lemma zltb_spec a b : is_num a.2 -> is_num b.2 -> zltb a b = true <-> zlt a b.
Proof.
  intros Ha Hb. unfold zltb, zlt. rewrite dbl_eqb_key, dbl_ltb_key by done.
  destruct (Z.eqb_spec (dkey a.2) (dkey b.2)) as [E|E]; cbn [negb]; [|rewrite Z.ltb_lt]; intuition lia.
Qed.

Lemma zltb_false a b : is_num a.2 -> is_num b.2 -> zltb a b = false <-> ~ zlt a b.
Proof. intros Ha Hb. rewrite <- (zltb_spec a b) by done. by destruct (zltb a b). Qed.

Lemma zlt_irrefl a : ~ zlt a a.
Proof. intros [H|[_ H]]; [lia|]. by rewrite bytes_ltb_irrefl in H. Qed.

#[global] Instance zlt_trans : Transitive zlt.
Proof.
  intros a b c [H1|[E1 H1]] [H2|[E2 H2]]; unfold zlt; [lia..|]. right. split; [lia|]. by eapply bytes_ltb_trans.
Qed.

Lemma zlt_asym a b : zlt a b -> ~ zlt b a.
Proof. intros H1 H2. by apply (zlt_irrefl a), (zlt_trans a b a). Qed.

Lemma zlt_total a b : ~ zlt a b -> ~ zlt b a -> a.1 = b.1.
Proof.
  intros H1 H2. assert (dkey a.2 = dkey b.2) as E by (unfold zlt in *; lia).
  apply bytes_ltb_total; apply not_true_is_false; intros H; [apply H1|apply H2]; right; lia || done.
Qed.

#[global] Instance zlt_dec : RelDecision zlt.
Proof. intros a b. unfold zlt. apply _. Defined.

Lemma zlt_ge a b : ~ zlt b a -> a.1 <> b.1 -> zlt a b.
Proof. intros H Hn. destruct (decide (zlt a b)) as [|H']; [done|]. by destruct Hn, (zlt_total a b H' H). Qed.

(** ** Sorted lists *)

Lemma skip_while_fmap {A B : Type} (f : B -> bool) (g : A -> B) l : skip_while f (g <$> l) = skip_while (fun x => f (g x)) l.
Proof. induction l as [|x l IH]; cbn; [done|]. by destruct (f (g x)); rewrite ?IH. Qed.

Lemma skip_while_ext {A : Type} (f g : A -> bool) l : (forall x, x ∈ l -> f x = g x) -> skip_while f l = skip_while g l.
Proof.
  induction l as [|x l IH]; intros H; cbn; [done|]. rewrite (H x) by set_solver. destruct (g x); [|done].
  f_equal. apply IH. set_solver.
Qed.

(** A test that holds up to some place cuts the list there. *)
Lemma skip_while_split {A : Type} (R : A -> A -> Prop) (f : A -> bool) l :
  StronglySorted R l -> (forall a b, a ∈ l -> b ∈ l -> R a b -> f b = true -> f a = true) ->
  take (skip_while f l) l = filter (fun x => f x = true) l /\ drop (skip_while f l) l = filter (fun x => f x = false) l.
Proof.
  intros Hs. induction Hs as [|x l Hs IH Hx]; intros Hf; [done|]. cbn [skip_while]. rewrite !filter_cons.
  destruct (f x) eqn:E; cbn [take drop].
  - rewrite decide_True, decide_False by done. destruct IH as [<- <-]; [|done]. intros a b Ha Hb. apply Hf; set_solver.
  - rewrite decide_False, decide_True by done.
    assert (forall y, y ∈ l -> f y = false) as Hl.
    { intros y Hy. apply not_true_is_false. intros Hy'. rewrite list.Forall_forall in Hx.
      rewrite (Hf x y) in E; [done|set_solver..| |done]. by apply Hx. }
    split.
    + symmetry. apply filter_none. intros y Hy. by rewrite Hl.
    + f_equal. symmetry. apply filter_all. intros y Hy. by apply Hl.
Qed.

Lemma sublist_elem_of {A : Type} (l l' : list A) x : l' `sublist_of` l -> x ∈ l' -> x ∈ l.
Proof. induction 1; [done|rewrite !elem_of_cons; naive_solver|rewrite elem_of_cons; auto]. Qed.

Lemma StronglySorted_sublist {A : Type} (R : A -> A -> Prop) (l l' : list A) :
  l' `sublist_of` l -> StronglySorted R l -> StronglySorted R l'.
Proof.
  induction 1 as [|x l' l Hs IH|x l' l Hs IH]; [done|..]; rewrite !StronglySorted_cons; [|naive_solver].
  rewrite !list.Forall_forall. intros [Hx H]. split; [|auto]. intros y Hy. apply Hx. by eapply sublist_elem_of.
Qed.

(** ** The abstract sorted set

    A sorted set stands for a finite map from members to scores; [zset_of l], for
    the list [l] of its pairs in order, is the only well-formed object that shows
    it. *)

Definition zpair_ok (p : ZPair) : Prop := fits p.1 /\ is_num p.2.

Record zl_ok (l : list ZPair) : Prop := {
  zl_sorted : StronglySorted zlt l;
  zl_nodup : NoDup l.*1;
  zl_pairs : Forall zpair_ok l
}.

Definition zset_image_len (l : list ZPair) : Z := 1 + 4 + zsum (fun p => znode_len (zlen p.1)) l.

Definition zset_of (l : list ZPair) : RedisZsetObject :=
  mkZset (node_of <$> l) (list_to_map l) (u64 (zset_image_len l)).

Definition zset_wf (o : RedisZsetObject) : Prop := exists l, zl_ok l /\ o = zset_of l.

Lemma zl_ok_nil : zl_ok [].
Proof. by repeat constructor. Qed.

Lemma zl_num l p : zl_ok l -> p ∈ l -> is_num p.2.
Proof. intros H Hp. apply (zl_pairs l) in H. rewrite list.Forall_forall in H. by apply H. Qed.
Lemma zl_fits l p : zl_ok l -> p ∈ l -> fits p.1.
Proof. intros H Hp. apply (zl_pairs l) in H. rewrite list.Forall_forall in H. by apply H. Qed.

Ltac znum :=
  match goal with
  | |- is_num (_, ?v).2 => change (is_num v); znum
  | H : is_num ?v |- is_num ?v => exact H
  | H : zpair_ok ?p |- is_num (?p.2) => exact (proj2 H)
  | H : zl_ok ?l, H' : ?p ∈ ?l |- is_num (?p.2) => exact (zl_num l p H H')
  end.

Lemma zl_lookup l k v : zl_ok l -> (list_to_map l : gmap bytes Z) !! k = Some v <-> (k, v) ∈ l.
Proof. intros H. symmetry. apply elem_of_list_to_map, H. Qed.

Lemma zl_lookup_none (l : list ZPair) k : (list_to_map l : gmap bytes Z) !! k = None <-> k ∉ l.*1.
Proof. symmetry. apply not_elem_of_list_to_map. Qed.

Lemma zl_sublist l l' : l' `sublist_of` l -> zl_ok l -> zl_ok l'.
Proof.
  intros Hl [Hs Hn Hp]. constructor.
  - by eapply StronglySorted_sublist.
  - eapply sublist_NoDup; [exact Hn|by apply fmap_sublist].
  - rewrite list.Forall_forall in *. intros x Hx. apply Hp. by eapply sublist_elem_of.
Qed.

Lemma zl_filter (P : ZPair -> Prop) `{!forall x, Decision (P x)} l : zl_ok l -> zl_ok (filter P l).
Proof. apply zl_sublist, sublist_filter. Qed.

(** The list is determined by the map. *)
Lemma zl_unique l l' : zl_ok l -> zl_ok l' -> (list_to_map l : gmap bytes Z) = list_to_map l' -> l = l'.
Proof.
  intros H H' E. apply (StronglySorted_unique_strong zlt); [|apply H|apply H'|].
  - intros a b _ _ H1 H2. by destruct (zlt_asym a b).
  - apply (list_to_map_inj (M := gmap bytes)); [apply H|apply H'|done].
Qed.

Definition zins (p : ZPair) (l : list ZPair) : list ZPair :=
  let k := skip_while (fun e => zltb e p) l in take k l ++ p :: drop k l.

Lemma zins_perm p l : zins p l ≡ₚ p :: l.
Proof. unfold zins. by rewrite <- Permutation_middle, take_drop. Qed.

Lemma zins_ok p l : zl_ok l -> zpair_ok p -> p.1 ∉ l.*1 -> zl_ok (zins p l).
Proof.
  intros Hl Hp Hn. constructor; [|rewrite zins_perm; by constructor; [|apply Hl]..].
  assert (forall b, b ∈ filter (fun e => zltb e p = false) l -> zlt p b) as Hge.
  { intros b [Hb Hbl]%list_elem_of_filter. rewrite zltb_false in Hb by znum.
    apply zlt_ge; [done|]. intros E. apply Hn. rewrite E. by apply list_elem_of_fmap_2. }
  unfold zins. destruct (skip_while_split zlt (fun e => zltb e p) l) as [-> ->]; [apply Hl| |].
  { intros a b Ha Hb Hab. rewrite !zltb_spec by znum. intros Hbp. by trans b. }
  apply StronglySorted_app_2; [|apply (zl_sorted _ (zl_filter _ _ Hl))|].
  - intros a b [Ha Hal]%list_elem_of_filter Hb. rewrite zltb_spec in Ha by znum.
    apply elem_of_cons in Hb as [->|Hb]; [done|]. trans p; auto.
  - apply StronglySorted_cons. split; [by apply list.Forall_forall|apply (zl_sorted _ (zl_filter _ _ Hl))].
Qed.

(** ** Nodes and pairs *)

Lemma pair_of_node p : pair_of (node_of p) = p.
Proof. by destruct p. Qed.

Lemma lower_bound_pairs k l : lower_bound k (node_of <$> l) = skip_while (fun e => zltb e (pair_of k)) l.
Proof.
  unfold lower_bound. rewrite skip_while_fmap. apply skip_while_ext. intros x _. by rewrite cmp_node_pairs, pair_of_node.
Qed.

(** A pair of the list is found at its place. *)
Lemma zs_find_pair k l : zl_ok l -> pair_of k ∈ l ->
  exists i, zs_find k (node_of <$> l) = Some i /\ l !! i = Some (pair_of k).
Proof.
  intros Hl Hk. assert (is_num (pair_of k).2) as Hkn by exact (zl_num l _ Hl Hk). unfold zs_find. rewrite lower_bound_pairs. set (i := skip_while _ l).
  assert (l !! i = Some (pair_of k)) as E.
  { destruct (skip_while_split zlt (fun e => zltb e (pair_of k)) l) as [_ Hd]; [apply Hl| |].
    { intros a b Ha Hb Hab. rewrite !zltb_spec by znum. intros Hbp. by trans b. }
    fold i in Hd. rewrite <- (Nat.add_0_r i), <- lookup_drop, Hd.
    pose proof (zl_filter (fun e => zltb e (pair_of k) = false) l Hl) as Hf.
    assert (pair_of k ∈ filter (fun e => zltb e (pair_of k) = false) l) as Hin.
    { apply list_elem_of_filter. split; [|done]. apply zltb_false; [done..|]. apply zlt_irrefl. }
    destruct (filter _ l) as [|x xs] eqn:Ef; [by apply not_elem_of_nil in Hin|]. cbn. f_equal.
    assert (x ∈ filter (fun e => zltb e (pair_of k) = false) l) as Hx by (rewrite Ef; set_solver).
    apply list_elem_of_filter in Hx as [Hx Hxl]. rewrite zltb_false in Hx by znum.
    apply elem_of_cons in Hin as [->|Hin]; [done|]. destruct Hx.
    pose proof (zl_sorted _ Hf) as Hs. apply StronglySorted_cons in Hs as [Hs _].
    rewrite list.Forall_forall in Hs. by apply Hs. }
  exists i. rewrite list_lookup_fmap, E. cbn. split; [|done]. rewrite cmp_node_pairs, pair_of_node.
  destruct (zltb (pair_of k) (pair_of k)) eqn:Ez; [|done]. apply zltb_spec in Ez; [|by eapply zl_num..].
  by apply zlt_irrefl in Ez.
Qed.

(** A member that is not there has no node with any score. *)
Lemma zs_find_none k l : zl_ok l -> is_num (node_score_ k) -> es_view (node_field_ k) ∉ l.*1 ->
  zs_find k (node_of <$> l) = None.
Proof.
  intros Hl Hk Hn. unfold zs_find. rewrite lower_bound_pairs, list_lookup_fmap. set (i := skip_while _ l).
  destruct (l !! i) as [x|] eqn:E; [|done]. cbn. rewrite cmp_node_pairs, pair_of_node.
  destruct (zltb (pair_of k) x) eqn:Ez; [done|]. exfalso. apply Hn.
  apply list_elem_of_lookup_2 in E as Hx. rewrite zltb_false in Ez by znum.
  assert (~ zlt x (pair_of k)) as Hlt.
  { destruct (skip_while_split zlt (fun e => zltb e (pair_of k)) l) as [_ Hd]; [apply Hl| |].
    { intros a b Ha Hb Hab. rewrite !zltb_spec by znum. intros Hbp. by trans b. }
    fold i in Hd. assert (x ∈ drop i l) as Hin by (apply (list_elem_of_lookup_2 _ 0); by rewrite lookup_drop, Nat.add_0_r).
    rewrite Hd in Hin. apply list_elem_of_filter in Hin as [Hin _]. by rewrite zltb_false in Hin by znum. }
  change (es_view (node_field_ k)) with (pair_of k).1. rewrite (zlt_total (pair_of k) x) by done. by apply list_elem_of_fmap_2.
Qed.

Definition zdel (k : bytes) (l : list ZPair) : list ZPair := filter (fun p => p.1 <> k) l.
Definition zput (k : bytes) (v : Z) (l : list ZPair) : list ZPair := zins (k, v) (zdel k l).

Lemma zdel_ok k l : zl_ok l -> zl_ok (zdel k l).
Proof. apply zl_filter. Qed.

Lemma zdel_not_in k l : k ∉ (zdel k l).*1.
Proof. intros (p & -> & [Hp _]%list_elem_of_filter)%list_elem_of_fmap. by apply Hp. Qed.

Lemma zdel_id k l : k ∉ l.*1 -> zdel k l = l.
Proof. intros H. apply filter_all. intros p Hp <-. by apply H, list_elem_of_fmap_2. Qed.

Lemma zdel_map k l : zl_ok l -> (list_to_map (zdel k l) : gmap bytes Z) = delete k (list_to_map l).
Proof.
  intros H. apply map_eq. intros k'. apply option_eq. intros v.
  rewrite zl_lookup, lookup_delete_Some, zl_lookup by auto using zdel_ok. unfold zdel. rewrite list_elem_of_filter. naive_solver.
Qed.

Lemma zdel_at i k v l : zl_ok l -> l !! i = Some (k, v) -> delete i l = zdel k l.
Proof.
  intros [_ Hn _] E. revert i E. induction l as [|p l IH]; intros i E; [done|].
  rewrite fmap_cons, list.NoDup_cons in Hn. destruct Hn as [Hp Hn]. unfold zdel. rewrite filter_cons. destruct i as [|i]; cbn in *.
  - injection E as ->. rewrite decide_False by (by intros []). symmetry. by apply zdel_id.
  - rewrite decide_True; [f_equal; by apply IH|]. intros E'. apply Hp. rewrite E'.
    apply list_elem_of_lookup_2 in E. by apply (list_elem_of_fmap_2 fst) in E.
Qed.

Lemma zput_ok k v l : zl_ok l -> fits k -> is_num v -> zl_ok (zput k v l).
Proof. intros Hl Hk Hv. apply zins_ok; [by apply zdel_ok|done|apply zdel_not_in]. Qed.

Lemma zput_perm k v l : zput k v l ≡ₚ (k, v) :: zdel k l.
Proof. apply zins_perm. Qed.

Lemma zput_map k v l : zl_ok l -> fits k -> is_num v -> (list_to_map (zput k v l) : gmap bytes Z) = <[k := v]> (list_to_map l).
Proof.
  intros Hl Hk Hv. rewrite (list_to_map_proper (M := gmap bytes) _ ((k, v) :: zdel k l));
    [|by apply zput_ok|apply zput_perm].
  cbn. by rewrite zdel_map, insert_delete_eq.
Qed.

Lemma zset_image_len_perm l l' : l ≡ₚ l' -> zset_image_len l = zset_image_len l'.
Proof. intros H. unfold zset_image_len. by rewrite (zsum_perm _ l l'). Qed.

Lemma zset_image_len_pos l : 5 <= zset_image_len l.
Proof.
  unfold zset_image_len. pose proof (zsum_nonneg (fun p : ZPair => znode_len (zlen p.1)) l) as H.
  assert (0 <= zsum (fun p : ZPair => znode_len (zlen p.1)) l); [|lia].
  apply H. intros p. unfold znode_len. pose proof (zlen_nonneg p.1). lia.
Qed.

Lemma zdel_perm k v l : zl_ok l -> (k, v) ∈ l -> l ≡ₚ (k, v) :: zdel k l.
Proof.
  intros Hl Hk. apply (list_to_map_inj (M := gmap bytes)); [apply Hl| |]; cbn.
  - constructor; [apply zdel_not_in|apply zdel_ok, Hl].
  - rewrite zdel_map by done. symmetry. apply insert_delete_id. by apply zl_lookup.
Qed.

Lemma zdel_len k v l : zl_ok l -> (k, v) ∈ l -> zset_image_len l = zset_image_len (zdel k l) + znode_len (zlen k).
Proof.
  intros Hl Hk. rewrite (zset_image_len_perm _ _ (zdel_perm k v l Hl Hk)). unfold zset_image_len. cbn [zsum fst]. lia.
Qed.

Lemma zput_len k v l : zl_ok l ->
  zset_image_len (zput k v l) = zset_image_len (zdel k l) + znode_len (zlen k).
Proof. intros Hl. rewrite (zset_image_len_perm _ _ (zput_perm k v l)). unfold zset_image_len. cbn [zsum fst]. lia. Qed.

(** ** Operations on canonical objects *)

Lemma zs_insert_pairs k v l : zl_ok l -> is_num v -> k ∉ l.*1 ->
  zs_insert (mkNode (es_own k) v) (node_of <$> l) = node_of <$> zins (k, v) l.
Proof.
  intros Hl Hv Hk. unfold zs_insert. rewrite zs_find_none by done.
  rewrite lower_bound_pairs. cbn [pair_of node_field_ node_score_ es_view es_own]. unfold zins. cbn zeta.
  by rewrite fmap_app, fmap_cons, fmap_take, fmap_drop.
Qed.

Lemma zh_emplace_new (k : bytes) (v : Z) (m : gmap bytes Z) : m !! k = None -> zh_emplace k v m = <[k := v]> m.
Proof. unfold zh_emplace. by intros ->. Qed.

(** The member, taken out of the set; and found first. *)
Lemma zset_erase_of k v l : zl_ok l -> (k, v) ∈ l ->
  exists i, zs_find (mkNode (es_of_view k) v) (node_of <$> l) = Some i
    /\ zs_erase i (node_of <$> l) = node_of <$> zdel k l.
Proof.
  intros Hl Hk. destruct (zs_find_pair (mkNode (es_of_view k) v) l Hl Hk) as (i & Hf & Hi). exists i. split; [done|].
  unfold zs_erase. rewrite <- (zdel_at i k v l Hl Hi). clear. revert i. induction l as [|p l IH]; intros [|i]; cbn; try done.
  by rewrite <- IH.
Qed.

Definition zlook (l : list ZPair) (k : bytes) : option Z := (list_to_map l : gmap bytes Z) !! k.

Lemma update_element_of incr keep num field l :
  zl_ok l -> es_fits field ->
  let k := es_view field in
  let num' := if incr : bool then dbl_add num (default 0 (zlook l k)) else num in
  is_num num' ->
  update_element incr keep num field (zset_of l) = Some (zset_of (zput k num' l), (num', (es_take keep field).2)).
Proof.
  intros Hl Hf k num' Hn. unfold update_element. cbn [z_hash_map_ z_ordered_set_ zset_serialized_length_ zset_of].
  fold k. change ((list_to_map l : gmap bytes Z) !! k) with (zlook l k). fold num'.
  rewrite es_length_fits by done. fold k.
  assert (forall len, u64 len = u64 (zset_image_len (zput k num' l)) ->
    (let '(stored, rest) := es_take keep field in
     Some (mkZset (zs_insert (mkNode stored num') (node_of <$> zdel k l)) (zh_emplace (es_view stored) num' (delete k (list_to_map l)))
             (u64 len), (num', rest)))
    = Some (zset_of (zput k num' l), (num', (es_take keep field).2))) as Hins.
  { intros len Hlen. pose proof (es_take_own keep field Hf) as Et. destruct (es_take keep field) as [stored rest]. cbn in Et.
    subst stored. cbn [es_view es_own snd]. fold k. rewrite zs_insert_pairs by auto using zdel_ok, zdel_not_in.
    rewrite zh_emplace_new by apply lookup_delete_eq. rewrite insert_delete_eq, Hlen. unfold zset_of. by rewrite zput_map. }
  unfold zlook. destruct ((list_to_map l : gmap bytes Z) !! k) as [v|] eqn:E.
  - apply zl_lookup in E as Hin; [|done]. destruct (zset_erase_of k v l Hl Hin) as (i & -> & He). cbn [mbind option_bind]. rewrite He.
    apply Hins. by rewrite (zput_len k num' l Hl), <- (zdel_len k v l Hl Hin).
  - cbn [mbind option_bind]. apply zl_lookup_none in E as Hk. rewrite u64_add_l.
    specialize (Hins (zset_image_len l + znode_len (zlen k))). rewrite delete_id in Hins by done.
    rewrite (zdel_id k l) in Hins by done. apply Hins. by rewrite zput_len, zdel_id.
Qed.

(** ** ZADD as a fold over the elements

    The reference takes the elements one after the other against the map so far.
    [rule num old] answers whether the element applies, what it adds to the
    count and whether it changes anything. *)

Fixpoint spec_zadd (rule : Z -> option Z -> option (Z * bool)) (m : gmap bytes Z) (elements : list (Z * EloqString))
    : list (Z * EloqString) * gmap bytes Z * Z * bool :=
  match elements with
  | [] => ([], m, 0, false)
  | (num, field) :: elements' =>
      match rule num (m !! es_view field) with
      | None => spec_zadd rule m elements'
      | Some (c, b) =>
          let '(kept, m', cnt, modified) := spec_zadd rule (<[es_view field := num]> m) elements' in
          ((num, field) :: kept, m', c + cnt, b || modified)
      end
  end.

(** What ZADD means by its flags. *)
Definition ref_rule (flags num : Z) (old : option Z) : option (Z * bool) :=
  match old with
  | None => if XX flags then None else Some (1, true)
  | Some v =>
      if NX flags || (GT flags && negb (dkey v <? dkey num)) || (LT flags && negb (dkey num <? dkey v)) then None
      else Some (b2i (CH flags && negb (dkey num =? dkey v)), negb (dkey num =? dkey v))
  end.

(** The combinations the parser accepts. *)
Definition flags_ok (flags : Z) : Prop :=
  ~ (XX flags = true /\ NX flags = true) /\ ~ (NX flags = true /\ (GT flags = true \/ LT flags = true))
  /\ ~ (GT flags = true /\ LT flags = true).

Lemma used_find_set used field from num k :
  used_find (used_set used field from num) k = if decide (k = field) then Some num else used_find used k.
Proof.
  induction used as [|u used IH]; cbn [used_set used_find].
  - cbn. case_bool_decide; case_decide; congruence.
  - destruct (bool_decide (used_key u = field)) eqn:E; cbn [used_find used_key used_score].
    + apply bool_decide_eq_true in E. case_bool_decide; case_decide; congruence.
    + apply bool_decide_eq_false in E. case_bool_decide; [case_decide; congruence|exact IH].
Qed.

Definition unmoved (u : UsedField) : Prop := used_from u = None.

Lemma used_set_unmoved used field num : Forall unmoved used -> Forall unmoved (used_set used field None num).
Proof.
  induction 1 as [|u used Hu H IH]; cbn [used_set]; [by repeat constructor|].
  case_bool_decide; constructor; done.
Qed.

Lemma used_valid_unmoved kept used : Forall unmoved used -> forallb (used_valid kept) used = true.
Proof.
  induction 1 as [|u used Hu H IH]; [done|]. cbn [forallb]. rewrite IH. unfold used_valid. by rewrite Hu.
Qed.

Definition es_stable (s : EloqString) : Prop := es_type s = View \/ es_owned s.

Lemma es_move_stable s : es_stable s -> (es_move s).1 = s.
Proof.
  destruct s as [t v]. unfold es_move, es_stable, es_owned. cbn. intros [-> | ->]; [done|].
  unfold es_own. pose proof (owned_type_not_view v). by destruct (owned_type v).
Qed.

(** The used table in front of the hash table. *)
Definition used_over (used : list UsedField) (hash m : gmap bytes Z) : Prop :=
  forall k, m !! k = match used_find used k with Some v => Some v | None => hash !! k end.

Definition rule_merges (rule : Z -> option Z -> option Z -> option (Z * bool)) (srule : Z -> option Z -> option (Z * bool))
    : Prop :=
  forall num used hash, rule num used hash = srule num (match used with Some v => Some v | None => hash end).

Lemma spec_zadd_kept_length rule elements : forall m, (length (spec_zadd rule m elements).1.1.1 <= length elements)%nat.
Proof.
  induction elements as [|[num field] l IH]; intros m; cbn [spec_zadd]; [done|].
  destruct (rule num _) as [[c b]|]; [|specialize (IH m); cbn; lia].
  specialize (IH (<[es_view field := num]> m)). destruct (spec_zadd rule _ l) as [[[kept m'] cnt] md]. cbn in *. lia.
Qed.

(** Moves leave the keys alone when no field is stored inside its string object,
    and there are none when every element stays. *)
Lemma zadd_filter_spec hash rule srule : rule_merges rule srule -> forall elements it kept used cnt modified m,
  Forall (fun e => es_stable e.2) elements -> Forall unmoved used -> used_over used hash m ->
  Forall (fun e => es_type e.2 <> Stack) elements \/ it = length kept /\ (spec_zadd srule m elements).1.1.1 = elements ->
  zadd_filter hash rule elements it kept used cnt modified
  = let '(kept', _, c, b) := spec_zadd srule m elements in Some (kept ++ kept', cnt + c, modified || b).
Proof.
  intros Hr. induction elements as [|[num field] l IH]; intros it kept used cnt modified m Hst Hun Hov Hsafe;
    cbn [zadd_filter spec_zadd].
  { by rewrite app_nil_r, Z.add_0_r, orb_false_r. }
  rewrite used_valid_unmoved by done. cbn [negb]. rewrite Hr, <- Hov. apply list.Forall_cons in Hst as [Hf Hst]. cbn [snd] in Hf.
  cbn [spec_zadd] in Hsafe. destruct (srule num (m !! es_view field)) as [[c b]|] eqn:E.
  - set (moves := negb (it =? length kept)%nat). set (from := if moves && _ then _ else _).
    assert (from = None) as ->.
    { unfold from, moves. destruct Hsafe as [Hs|[-> _]]; [|by rewrite Nat.eqb_refl].
      apply list.Forall_cons in Hs as [Hs _]. cbn in Hs. destruct (es_type field); [done|by rewrite andb_false_r..]. }
    assert ((if moves then (es_move field).1 else field) = field) as -> by (destruct moves; [by apply es_move_stable|done]).
    rewrite (IH _ _ _ _ _ (<[es_view field := num]> m)).
    + destruct (spec_zadd srule _ l) as [[[kept' m'] c'] b']. rewrite <- app_assoc, Z.add_assoc, orb_assoc. done.
    + done.
    + by apply used_set_unmoved.
    + intros k. rewrite used_find_set, lookup_insert. destruct (decide (k = es_view field)) as [->|Hk].
      * by rewrite decide_True.
      * rewrite decide_False by done. apply Hov.
    + destruct Hsafe as [Hs|[-> Hs]]; [left; by apply list.Forall_cons in Hs as [_ ?]|right].
      rewrite length_app. split; [cbn; lia|].
      destruct (spec_zadd srule _ l) as [[[kept' m'] c'] b']. cbn in *. congruence.
  - apply IH; [done..|]. destruct Hsafe as [Hs|[_ Hs]]; [left; by apply list.Forall_cons in Hs as [_ ?]|exfalso].
    pose proof (spec_zadd_kept_length srule l m) as Hlen. rewrite Hs in Hlen. cbn in Hlen. lia.
Qed.

(** Taking the elements that stayed again keeps them all, with the same effect. *)
Lemma spec_zadd_idem rule elements : forall m,
  let '(kept, m', c, b) := spec_zadd rule m elements in spec_zadd rule m kept = (kept, m', c, b).
Proof.
  induction elements as [|[num field] l IH]; intros m; cbn [spec_zadd]; [done|].
  destruct (rule num (m !! es_view field)) as [[c b]|] eqn:E; [|apply IH].
  specialize (IH (<[es_view field := num]> m)). destruct (spec_zadd rule _ l) as [[[kept m'] c'] b'] eqn:E'.
  cbn [spec_zadd]. rewrite E. by rewrite IH.
Qed.

(** ** The rules of the code are those of the flags *)

Definition map_nums (m : gmap bytes Z) : Prop := map_Forall (fun _ v => is_num v) m.

Lemma spec_zadd_ext r1 r2 elements : forall m,
  (forall num old, is_num num -> (forall v, old = Some v -> is_num v) -> r1 num old = r2 num old) ->
  map_nums m -> Forall (fun e => is_num e.1) elements -> spec_zadd r1 m elements = spec_zadd r2 m elements.
Proof.
  induction elements as [|[num field] l IH]; intros m Hr Hm He; cbn [spec_zadd]; [done|].
  apply list.Forall_cons in He as [Hn He]. cbn in Hn. rewrite Hr; [|done|intros v Hv; by apply (Hm (es_view field))].
  destruct (r2 num _) as [[c b]|]; [|by apply IH]. rewrite IH; [done|done|by apply map_Forall_insert_2|done].
Qed.

(** The condition that [Execute] and [CommitZAdd] apply, in the order of their tests. *)
Definition plain_rule (ch : bool) (num : Z) (old : option Z) : option (Z * bool) :=
  Some match old with
       | None => (1, true)
       | Some v => (b2i (ch && negb (dbl_eqb v num)), negb (dbl_eqb v num))
       end.

Definition code_rule (flags : Z) (num : Z) (old : option Z) : option (Z * bool) :=
  if LT flags then cmp_rule (fun num v => dbl_ltb num v) (CH flags) (XX flags) num None old
  else if GT flags then cmp_rule (fun num v => dbl_ltb v num) (CH flags) (XX flags) num None old
  else if NX flags then nx_rule num None old
  else if XX flags then xx_rule (CH flags) num None old
  else plain_rule (CH flags) num old.

Lemma code_rule_ref flags num old :
  flags_ok flags -> is_num num -> (forall v, old = Some v -> is_num v) -> code_rule flags num old = ref_rule flags num old.
Proof.
  intros (H1 & H2 & H3) Hn Ho. unfold code_rule, ref_rule, cmp_rule, nx_rule, xx_rule, plain_rule.
  destruct old as [v|].
  - specialize (Ho v eq_refl). rewrite !dbl_ltb_key, ?dbl_eqb_key by done. rewrite (Z.eqb_sym (dkey v)).
    destruct (LT flags) eqn:El, (GT flags) eqn:Eg, (NX flags) eqn:En, (XX flags) eqn:Ex; try (exfalso; tauto); cbn [andb orb];
      rewrite ?orb_false_r; try done;
      destruct (Z.ltb_spec (dkey num) (dkey v)), (Z.ltb_spec (dkey v) (dkey num)), (Z.eqb_spec (dkey num) (dkey v));
      try done; lia.
  - destruct (LT flags) eqn:El, (GT flags) eqn:Eg, (NX flags) eqn:En, (XX flags) eqn:Ex; try (exfalso; tauto); done.
Qed.

Lemma cmp_rule_merges better ch xx :
  rule_merges (cmp_rule better ch xx) (fun num old => cmp_rule better ch xx num None old).
Proof. intros num [u|] [h|]; unfold cmp_rule; cbn; rewrite ?andb_false_r; by try destruct (better _ _). Qed.

Lemma zadd_count_spec hash ch elements : forall used cnt modified m,
  (forall k, m !! k = match used !! k with Some v => Some v | None => hash !! k end) ->
  zadd_count hash ch elements used cnt modified
  = (let '(_, _, c, b) := spec_zadd (plain_rule ch) m elements in (cnt + c, modified || b))
  /\ (spec_zadd (plain_rule ch) m elements).1.1.1 = elements.
Proof.
  induction elements as [|[num field] l IH]; intros used cnt modified m Hm; cbn [zadd_count spec_zadd].
  { by rewrite Z.add_0_r, orb_false_r. }
  unfold plain_rule at 1 3. rewrite Hm.
  set (cb := match used !! es_view field with Some v => _ | None => _ end).
  assert (forall old, old = match used !! es_view field with Some v => Some v | None => hash !! es_view field end ->
    cb = match old with
         | Some v => (b2i (ch && negb (dbl_eqb v num)), negb (dbl_eqb v num))
         | None => (1, true)
         end) as Hcb.
  { intros old ->. unfold cb. by destruct (used !! es_view field). }
  rewrite <- (Hcb _ eq_refl). destruct cb as [c b]. specialize (IH (<[es_view field := num]> used) (cnt + c) (modified || b)
    (<[es_view field := num]> m)).
  destruct (spec_zadd (plain_rule ch) (<[es_view field := num]> m) l) as [[[kept m'] c'] b']. destruct IH as [-> Hk].
  - intros k. rewrite !lookup_insert. case_decide; [done|apply Hm].
  - cbn [fst] in Hk. rewrite Z.add_assoc, orb_assoc. subst kept. split; [done|].
    unfold plain_rule. by destruct (match used !! es_view field with Some v => Some v | None => _ end).
Qed.

Definition safe_elements (srule : Z -> option Z -> option (Z * bool)) (m : gmap bytes Z) (elements : list (Z * EloqString))
    : Prop :=
  Forall (fun e => es_type e.2 <> Stack) elements \/ (spec_zadd srule m elements).1.1.1 = elements.

Lemma filtered_spec l rule srule elements :
  rule_merges rule srule -> Forall (fun e => es_stable e.2) elements -> safe_elements srule (list_to_map l) elements ->
  zadd_filter (list_to_map l) rule elements 0 [] [] 0 false
  = let '(kept', _, c, b) := spec_zadd srule (list_to_map l) elements in Some (kept', c, b).
Proof.
  intros Hr Hst [Hs|Hs]; rewrite (zadd_filter_spec _ rule srule Hr _ _ _ _ _ _ (list_to_map l)); try done; auto.
Qed.

(** [Execute] and [CommitZAdd] apply the rule of the flags. *)
Ltac zadd_cases flags H :=
  unfold refilter, ZAddLT, ZAddGT, ZAddNX, ZAddXX, code_rule in *; cbn [z_hash_map_ zset_of mbind option_bind] in *;
  destruct (LT flags); [|destruct (GT flags); [|destruct (NX flags); [|destruct (XX flags)]]];
  [rewrite (H _ _ (cmp_rule_merges _ _ _)) by done
  |rewrite (H _ _ (cmp_rule_merges _ _ _)) by done
  |rewrite (H _ (fun num old => nx_rule num None old)) by (done || by intros ? [] [])
  |rewrite (H _ (fun num old => xx_rule (CH flags) num None old)) by (done || by intros ? [] [])
  |idtac].

Lemma refilter_spec l elements flags :
  Forall (fun e => es_stable e.2) elements -> safe_elements (code_rule flags) (list_to_map l) elements ->
  refilter (zset_of l) elements flags = Some (spec_zadd (code_rule flags) (list_to_map l) elements).1.1.1.
Proof.
  intros Hst Hsafe. pose proof (fun rule srule Hr => filtered_spec l rule srule elements Hr Hst) as H.
  zadd_cases flags H; [by destruct (spec_zadd _ _ _) as [[[? ?] ?] ?]..|].
  symmetry. f_equal. apply (zadd_count_spec (list_to_map l) _ _ ∅ 0 false). intros k. by rewrite lookup_empty.
Qed.

Lemma elements_len_sum elements :
  elements_len elements = u64 (zsum (fun e => znode_len (es_length e.2)) elements).
Proof.
  unfold elements_len. assert (forall x, foldl (fun len e => u64 (len + znode_len (es_length e.2))) (u64 x) elements
    = u64 (x + zsum (fun e => znode_len (es_length e.2)) elements)) as H; [|exact (H 0)].
  induction elements as [|e l IH]; intros x; cbn [foldl zsum]; [by rewrite Z.add_0_r|].
  rewrite u64_add_l, IH. f_equal. lia.
Qed.

Lemma Execute_ZAdd_spec fp l elements flags r :
  Forall (fun e => es_stable e.2) elements -> safe_elements (code_rule flags) (list_to_map l) elements ->
  INCR flags = false ->
  (MAX_OBJECT_SIZE <? u64 (u64 (zset_image_len l) + elements_len elements)) = false ->
  Execute_ZAdd fp (zset_of l) (ElVector elements) flags r
  = let '(kept, _, c, b) := spec_zadd (code_rule flags) (list_to_map l) elements in
    Some (mkZsetResult RD_OK (ZRInt c), ElVector kept, if b then Modified else NoChange).
Proof.
  intros Hst Hsafe Hi Hs. unfold Execute_ZAdd. cbn [zset_serialized_length_ zset_of]. rewrite Hs, Hi.
  pose proof (fun rule srule Hr => filtered_spec l rule srule elements Hr Hst) as H. cbn [get_vector].
  zadd_cases flags H; [by destruct (spec_zadd _ _ _) as [[[? ?] ?] ?]..|].
  unfold ZAdd. cbn [z_hash_map_ zset_of]. destruct (zadd_count_spec (list_to_map l) (CH flags) elements ∅ 0 false (list_to_map l)) as [-> Hk].
  { intros k. by rewrite lookup_empty. }
  destruct (spec_zadd _ _ _) as [[[? ?] ?] ?]. cbn in Hk. by subst.
Qed.

(** ** What a commit of elements does *)

Definition put_all (m : gmap bytes Z) (elements : list (Z * EloqString)) : gmap bytes Z :=
  foldl (fun m e => <[es_view e.2 := e.1]> m) m elements.

Lemma spec_zadd_put_all rule elements : forall m,
  let '(kept, m', _, _) := spec_zadd rule m elements in m' = put_all m kept.
Proof.
  induction elements as [|[num field] l IH]; intros m; cbn [spec_zadd]; [done|].
  destruct (rule num (m !! es_view field)) as [[c b]|]; [|apply IH].
  specialize (IH (<[es_view field := num]> m)). by destruct (spec_zadd rule _ l) as [[[kept m'] c'] b'].
Qed.

Lemma zput_len_le k v l : zl_ok l -> zset_image_len (zput k v l) <= zset_image_len l + znode_len (zlen k).
Proof.
  intros Hl. rewrite zput_len by done. destruct (decide (k ∈ l.*1)) as [Hk|Hk].
  - apply list_elem_of_fmap in Hk as ([k' v'] & -> & Hk). cbn. rewrite (zdel_len k' v' l) by done.
    unfold znode_len. pose proof (zlen_nonneg k'). lia.
  - rewrite zdel_id by done. lia.
Qed.

Lemma update_elements_of keep elements : forall l,
  zl_ok l -> Forall (fun e => es_fits e.2 /\ is_num e.1) elements ->
  exists l' rest, update_elements false keep elements (zset_of l) = Some (zset_of l', rest) /\ zl_ok l'
    /\ list_to_map l' = put_all (list_to_map l) elements
    /\ zset_image_len l' <= zset_image_len l + zsum (fun e => znode_len (zlen (es_view e.2))) elements.
Proof.
  induction elements as [|[num field] els IH]; intros l Hl He; cbn [update_elements].
  - exists l, []. cbn. split_and!; [done..|lia].
  - apply list.Forall_cons in He as [[Hf Hn] He]. cbn in Hf, Hn. rewrite update_element_of by done. cbn [mbind option_bind].
    assert (zl_ok (zput (es_view field) num l)) as Hl' by (by apply zput_ok).
    destruct (IH _ Hl' He) as (l' & rest & -> & Hok & Hm & Hlen). cbn [mbind option_bind].
    exists l', ((num, (es_take keep field).2) :: rest). split_and!; [done|done| |].
    + rewrite Hm, zput_map by done. done.
    + cbn [zsum snd]. pose proof (zput_len_le (es_view field) num l Hl). lia.
Qed.

(** A well-formed set within the size limit. *)
Definition zset_good (o : RedisZsetObject) : Prop :=
  exists l, zl_ok l /\ o = zset_of l /\ zset_image_len l <= MAX_OBJECT_SIZE.

(** An element as the parser makes it, and as it is read from an image. *)
Definition client_element (e : Z * EloqString) : Prop := es_type e.2 = View /\ es_fits e.2 /\ is_num e.1.
Definition own_element (e : Z * EloqString) : Z * EloqString := (e.1, es_own (es_view e.2)).

Definition elements_size (elements : list (Z * EloqString)) : Z :=
  zsum (fun e => znode_len (zlen (es_view e.2))) elements.

Lemma spec_zadd_own rule elements : forall m,
  spec_zadd rule m (own_element <$> elements)
  = let '(kept, m', c, b) := spec_zadd rule m elements in (own_element <$> kept, m', c, b).
Proof.
  induction elements as [|[num field] l IH]; intros m; [done|]. rewrite fmap_cons. cbn [spec_zadd own_element es_view es_own fst snd].
  destruct (rule num (m !! es_view field)) as [[c b]|]; [|apply IH]. rewrite IH.
  by destruct (spec_zadd rule (<[es_view field := num]> m) l) as [[[kept m'] c'] b'].
Qed.

Lemma spec_zadd_kept (P : Z * EloqString -> Prop) rule elements : forall m,
  Forall P elements -> Forall P (spec_zadd rule m elements).1.1.1.
Proof.
  induction elements as [|[num field] l IH]; intros m He; cbn [spec_zadd]; [done|]. apply list.Forall_cons in He as [H He].
  destruct (rule num (m !! es_view field)) as [[c b]|]; [|by apply IH].
  specialize (IH (<[es_view field := num]> m) He). destruct (spec_zadd rule _ l) as [[[kept m'] c'] b']. by constructor.
Qed.

Lemma spec_zadd_size rule elements : forall m, elements_size (spec_zadd rule m elements).1.1.1 <= elements_size elements.
Proof.
  induction elements as [|[num field] l IH]; intros m; cbn [spec_zadd]; [done|]. unfold elements_size in *. cbn [zsum snd].
  destruct (rule num (m !! es_view field)) as [[c b]|].
  - specialize (IH (<[es_view field := num]> m)). destruct (spec_zadd rule _ l) as [[[kept m'] c'] b']. cbn [zsum fst snd] in *. lia.
  - specialize (IH m). unfold znode_len. pose proof (zlen_nonneg (es_view field)). unfold znode_len in *. lia.
Qed.

(** Without a modification the scores stay as they are, up to the sign of zero. *)
Lemma spec_zadd_unmodified flags elements : forall m,
  let '(_, m', _, b) := spec_zadd (ref_rule flags) m elements in
  b = false -> forall k, dkey <$> m' !! k = dkey <$> m !! k.
Proof.
  induction elements as [|[num field] l IH]; intros m; cbn [spec_zadd]; [done|].
  destruct (ref_rule flags num (m !! es_view field)) as [[c b]|] eqn:E; [|apply IH].
  specialize (IH (<[es_view field := num]> m)). destruct (spec_zadd (ref_rule flags) _ l) as [[[kept m'] c'] b'].
  intros [-> ->]%orb_false_iff k. rewrite IH by done. rewrite lookup_insert. case_decide as Hk; [subst k|done].
  unfold ref_rule in E. destruct (m !! es_view field) as [v|]; [|by destruct (XX flags)].
  destruct (_ || _); [done|]. injection E as _ E. apply negb_false_iff, Z.eqb_eq in E. cbn. by rewrite E.
Qed.

Lemma zset_good_nums o : zset_good o -> map_nums (z_hash_map_ o).
Proof. intros (l & Hl & -> & _) k v Hk. apply zl_lookup in Hk; [|done]. exact (zl_num l _ Hl Hk). Qed.

Lemma client_facts elements : Forall client_element elements ->
  Forall (fun e => es_stable e.2) elements /\ Forall (fun e => es_type e.2 <> Stack) elements
  /\ Forall (fun e => es_fits e.2 /\ is_num e.1) elements /\ Forall (fun e => is_num e.1) elements.
Proof.
  intros H. split_and!; (eapply Forall_impl; [|exact H]); intros e (Ht & Hf & Hn); try done; [by left|by rewrite Ht].
Qed.

Lemma elements_len_size elements : Forall (fun e => es_fits e.2 /\ is_num e.1) elements ->
  elements_len elements = u64 (elements_size elements).
Proof.
  intros H. rewrite elements_len_sum. f_equal. unfold elements_size. induction H as [|e l [He _] H IH]; cbn [zsum]; [done|].
  by rewrite IH, es_length_fits.
Qed.

(** A commit of elements that the rule lets pass. *)
Lemma CommitZAdd_spec l elements flags keep :
  zl_ok l -> flags_ok flags -> INCR flags = false ->
  Forall (fun e => es_stable e.2) elements -> Forall (fun e => es_fits e.2 /\ is_num e.1) elements ->
  safe_elements (ref_rule flags) (list_to_map l) elements ->
  exists l' rest, CommitZAdd (zset_of l) (ElVector elements) flags keep = Some (zset_of l', rest) /\ zl_ok l'
    /\ list_to_map l' = (spec_zadd (ref_rule flags) (list_to_map l) elements).1.1.2
    /\ zset_image_len l' <= zset_image_len l + elements_size (spec_zadd (ref_rule flags) (list_to_map l) elements).1.1.1.
Proof.
  intros Hl Hfl Hi Hst He Hsafe. unfold CommitZAdd. rewrite Hi. cbn [negb].
  assert (spec_zadd (code_rule flags) (list_to_map l) elements = spec_zadd (ref_rule flags) (list_to_map l) elements) as Er.
  { apply spec_zadd_ext.
    - intros num old. by apply code_rule_ref.
    - intros k v Hk. apply zl_lookup in Hk; [|done]. exact (zl_num l _ Hl Hk).
    - eapply Forall_impl; [|exact He]. by intros e [_ ?]. }
  assert (safe_elements (code_rule flags) (list_to_map l) elements) as Hsafe' by (unfold safe_elements in *; by rewrite Er).
  rewrite refilter_spec, Er by done. cbn [mbind option_bind].
  pose proof (spec_zadd_put_all (ref_rule flags) elements (list_to_map l)) as Hput.
  pose proof (spec_zadd_kept _ (ref_rule flags) elements (list_to_map l) He) as Hk.
  destruct (spec_zadd (ref_rule flags) (list_to_map l) elements) as [[[kept m'] c] b]. cbn [fst snd] in *.
  destruct (update_elements_of keep kept l Hl Hk) as (l' & rest & -> & Hl' & Hm & Hlen). cbn [mbind option_bind].
  exists l', (ElVector rest). split_and!; [done|done|by rewrite Hm|exact Hlen].
Qed.

(** A commit of what [Execute] kept, as it is or read from an image, and of the
    elements before [Execute] ran, all reach the same map. *)
Lemma zadd_commits l elements flags keep :
  zl_ok l -> flags_ok flags -> INCR flags = false -> Forall client_element elements ->
  zset_image_len l + elements_size elements <= MAX_OBJECT_SIZE ->
  let '(kept, m', _, _) := spec_zadd (ref_rule flags) (list_to_map l) elements in
  forall image, image = kept \/ image = own_element <$> kept \/ image = elements ->
  exists o' rest, CommitZAdd (zset_of l) (ElVector image) flags keep = Some (o', rest) /\ zset_good o' /\ z_hash_map_ o' = m'.
Proof.
  intros Hl Hfl Hi Hc Hs. destruct (client_facts elements Hc) as (Hst & Hns & He & Hn).
  pose proof (spec_zadd_idem (ref_rule flags) elements (list_to_map l)) as Hid.
  pose proof (spec_zadd_own (ref_rule flags) (spec_zadd (ref_rule flags) (list_to_map l) elements).1.1.1 (list_to_map l)) as Hown.
  pose proof (spec_zadd_kept _ (ref_rule flags) elements (list_to_map l) Hc) as Hkc.
  pose proof (spec_zadd_size (ref_rule flags) elements (list_to_map l)) as Hks.
  destruct (spec_zadd (ref_rule flags) (list_to_map l) elements) as [[[kept m'] c] b] eqn:E. cbn [fst snd] in *.
  rewrite Hid in Hown. destruct (client_facts kept Hkc) as (Hst' & Hns' & He' & _).
  assert (forall image, Forall (fun e => es_stable e.2) image -> Forall (fun e => es_fits e.2 /\ is_num e.1) image ->
    safe_elements (ref_rule flags) (list_to_map l) image ->
    (spec_zadd (ref_rule flags) (list_to_map l) image).1.1.2 = m' ->
    elements_size (spec_zadd (ref_rule flags) (list_to_map l) image).1.1.1 <= elements_size kept ->
    exists o' rest, CommitZAdd (zset_of l) (ElVector image) flags keep = Some (o', rest) /\ zset_good o' /\ z_hash_map_ o' = m')
    as Hcommit.
  { intros image H1 H2 H3 H4 H5. destruct (CommitZAdd_spec l image flags keep) as (l' & rest & -> & Hl' & Hm & Hlen); [done..|].
    exists (zset_of l'), rest. split_and!; [done| |by rewrite <- H4, <- Hm]. exists l'. split_and!; [done|done|lia]. }
  intros image [-> |[-> | ->]]; apply Hcommit; try done; rewrite ?Hid, ?Hown, ?E; cbn [fst snd]; try done; try (by left).
  - apply Forall_fmap. eapply Forall_impl; [|exact Hst']. intros e _. by right.
  - apply Forall_fmap. eapply Forall_impl; [|exact He']. by intros e [? ?].
  - right. by rewrite Hown.
  - unfold elements_size. clear. induction kept as [|e k IH]; cbn [fmap list_fmap zsum own_element snd es_view es_own]; lia.
Qed.

(** ** Properties *)

(** The sorted set [{a: 1, b: 2}] of the examples; its scores are the doubles 1.0
    and 2.0. *)
Definition z_one : Z := 4607182418800017408.
Definition z_two : Z := 4611686018427387904.
Definition z_three : Z := 4613937818241073152.
Definition z_ab : RedisZsetObject := zset_of [(lit "a", z_one); (lit "b", z_two)].

Ltac zl_concrete :=
  constructor;
  [ repeat (apply StronglySorted_cons; split; [apply (bool_decide_unpack _); vm_compute; exact I|]); constructor
  | apply (bool_decide_unpack _); vm_compute; exact I
  | repeat (apply list.Forall_cons; split; [split; [concrete|concrete]|]); constructor ].

Lemma z_ab_good : zset_good z_ab.
Proof. eexists. split; [|split; [reflexivity|vm_compute; discriminate]]. zl_concrete. Qed.

(** ZADD without INCR: refused when the added bytes could pass the limit, or the
    reply and the elements of the reference semantics. *)
Lemma zadd_executes fp (o : RedisZsetObject) (elements : list (Z * EloqString)) (flags : Z) (r : RedisZsetResult) :
  zset_good o -> flags_ok flags -> INCR flags = false -> Forall client_element elements -> elements_size elements < 2 ^ 63 ->
  let '(kept, _, cnt, modified) := spec_zadd (ref_rule flags) (z_hash_map_ o) elements in
  Execute_ZAdd fp o (ElVector elements) flags r
  = Some (if MAX_OBJECT_SIZE <? zset_serialized_length_ o + elements_size elements
          then (zr_set_err RD_ERR_OBJECT_TOO_BIG r, ElVector elements, NoChange)
          else (mkZsetResult RD_OK (ZRInt cnt), ElVector kept, if modified then Modified else NoChange)).
Proof.
  intros Hg Hfl Hi Hc Hz. pose proof (zset_good_nums o Hg) as Hnum. destruct Hg as (l & Hl & -> & Hs).
  cbn [z_hash_map_ zset_serialized_length_ zset_of] in *.
  destruct (client_facts elements Hc) as (Hst & Hns & He & Hn).
  pose proof (zset_image_len_pos l) as Hp. assert (0 <= elements_size elements) as Hp'.
  { apply zsum_nonneg. intros e. unfold znode_len. pose proof (zlen_nonneg (es_view e.2)). lia. }
  unfold MAX_OBJECT_SIZE in Hs. rewrite (u64_id (zset_image_len l)) by (mach; lia).
  assert (u64 (u64 (zset_image_len l) + elements_len elements) = zset_image_len l + elements_size elements) as Esum.
  { rewrite elements_len_size, (u64_id (zset_image_len l)), (u64_id (elements_size _)) by (done || mach; lia). apply u64_id. mach; lia. }
  assert (spec_zadd (code_rule flags) (list_to_map l) elements = spec_zadd (ref_rule flags) (list_to_map l) elements) as Er
    by (apply spec_zadd_ext; [intros; by apply code_rule_ref|done..]).
  pose proof (Execute_ZAdd_spec fp l elements flags r Hst ltac:(by left) Hi) as Hex. rewrite Esum, Er in Hex.
  destruct (spec_zadd (ref_rule flags) (list_to_map l) elements) as [[[kept m'] c] b].
  destruct (MAX_OBJECT_SIZE <? zset_image_len l + elements_size elements) eqn:Em; [|by apply Hex].
  unfold Execute_ZAdd. cbn [zset_serialized_length_ zset_of]. by rewrite Esum, Em.
Qed.

(** C15: ZADD without INCR and with any other flags the parser accepts replies
    with what taking the elements one after the other gives, announces a change
    when there is one, and is refused only when the added bytes could pass the
    size limit.  The elements are as the parser makes them, views of the request, with scores
    that are numbers, names shorter than 2^32 bytes and fewer than 2^63 bytes in
    all; the set is well formed and within the limit.
    The commit stores that result from any of three lists of elements: those that
    [Execute] kept, the same read from the log, or all the elements of a command
    that was not executed, still as views of the request (from an image of the
    command that owns its elements, [zadd_moved_key_dangles] shows otherwise). *)
Theorem zadd_agrees fp (o : RedisZsetObject) (elements : list (Z * EloqString)) (flags : Z) (r : RedisZsetResult) (keep : bool) :
  zset_good o -> flags_ok flags -> INCR flags = false -> Forall client_element elements -> elements_size elements < 2 ^ 63 ->
  let '(kept, m', cnt, modified) := spec_zadd (ref_rule flags) (z_hash_map_ o) elements in
  if MAX_OBJECT_SIZE <? zset_serialized_length_ o + elements_size elements
  then Execute_ZAdd fp o (ElVector elements) flags r = Some (zr_set_err RD_ERR_OBJECT_TOO_BIG r, ElVector elements, NoChange)
  else Execute_ZAdd fp o (ElVector elements) flags r
         = Some (mkZsetResult RD_OK (ZRInt cnt), ElVector kept, if modified then Modified else NoChange)
       /\ (modified = false -> forall k, dkey <$> m' !! k = dkey <$> z_hash_map_ o !! k)
       /\ forall image, image = kept \/ image = own_element <$> kept \/ image = elements ->
            exists o' rest, CommitZAdd o (ElVector image) flags keep = Some (o', rest) /\ zset_good o' /\ z_hash_map_ o' = m'.
Proof.
  intros Hg Hfl Hi Hc Hz. pose proof (zadd_executes fp o elements flags r Hg Hfl Hi Hc Hz) as Hex.
  destruct Hg as (l & Hl & -> & Hs). cbn [z_hash_map_ zset_serialized_length_ zset_of] in *.
  pose proof (zset_image_len_pos l) as Hp. unfold MAX_OBJECT_SIZE in Hs. rewrite (u64_id (zset_image_len l)) in * by (mach; lia).
  pose proof (spec_zadd_unmodified flags elements (list_to_map l)) as Hun.
  pose proof (zadd_commits l elements flags keep Hl Hfl Hi Hc) as Hcom.
  destruct (spec_zadd (ref_rule flags) (list_to_map l) elements) as [[[kept m'] c] b].
  destruct (Z.ltb_spec MAX_OBJECT_SIZE (zset_image_len l + elements_size elements)); [done|].
  split_and!; [done|done|by apply Hcom].
Qed.

Lemma zadd_agrees_witness :
  let els := [(z_three, es_of_view (lit "b")); (z_one, es_of_view (lit "c")); (0, es_of_view (lit "a"))] in
  let kept := take 2 els in
  let flags := ZADD_IN_GT + ZADD_OUT_CH in
  Execute_ZAdd (fun _ => []) z_ab (ElVector els) flags zset_result0 = Some (mkZsetResult RD_OK (ZRInt 2), ElVector kept, Modified)
  /\ exists o' rest, CommitZAdd z_ab (ElVector kept) flags true = Some (o', rest) /\ zset_good o'
       /\ z_hash_map_ o' = list_to_map [(lit "a", z_one); (lit "b", z_three); (lit "c", z_one)].
Proof.
  pose proof (zadd_agrees (fun _ => []) z_ab
    [(z_three, es_of_view (lit "b")); (z_one, es_of_view (lit "c")); (0, es_of_view (lit "a"))]
    (ZADD_IN_GT + ZADD_OUT_CH) zset_result0 true z_ab_good ltac:(vm_compute; intuition discriminate) ltac:(done)
    ltac:(repeat constructor; vm_compute; done) ltac:(vm_compute; done)) as H.
  destruct H as (H1 & _ & H2). split; [exact H1|]. destruct (H2 _ (or_introl eq_refl)) as (o' & rest & H).
  exists o', rest. exact H.
Defined.

(** When ZADD with INCR applies: the flags allow the new score, and it is not
    the sum of opposite infinities. *)
Definition incr_applies (flags num : Z) (old : option Z) : bool :=
  match old with
  | None => negb (XX flags || GT flags || LT flags)
  | Some v =>
      let score := dbl_add num v in
      negb (NX flags) && negb (dbl_isnan score)
      && (negb (GT flags) || (dkey v <? dkey score)) && (negb (LT flags) || (dkey score <? dkey v))
  end.

Lemma ZAddIncr_spec fp l num field flags :
  zl_ok l -> flags_ok flags -> is_num num ->
  let old := zlook l (es_view field) in
  let score := dbl_add num (default 0 old) in
  if incr_applies flags num old
  then ZAddIncr fp (zset_of l) num field flags = (RD_OK, score_string fp score, true, ElPair num field) /\ is_num score
  else exists e, e <> RD_OK /\ ZAddIncr fp (zset_of l) num field flags = (e, es_of_view [], false, ElMonostate).
Proof.
  intros Hl (F1 & F2 & F3) Hn old score. unfold ZAddIncr. cbn [z_hash_map_ zset_of].
  change ((list_to_map l : gmap bytes Z) !! es_view field) with old. unfold score.
  assert (forall v, old = Some v -> is_num v) as Ho.
  { intros v Hv. apply zl_lookup in Hv; [|done]. exact (zl_num l _ Hl Hv). }
  destruct old as [v|] eqn:Eo; cbn [incr_applies default from_option id].
  - specialize (Ho v eq_refl). rewrite !(bool_decide_eq_true_2 (Some v <> None)) by done. rewrite andb_true_r.
    rewrite (opposite_nan num v) by done. rewrite (dbl_add_comm v num).
    destruct (NX flags) eqn:En; cbn [negb andb]; [first [by exists RD_NIL|by exists RD_ERR_SCORE_NAN]|]. set (s := dbl_add num v) in *.
    destruct (dbl_isnan s) eqn:Es; cbn [negb andb].
    + assert (dbl_leb s v = false /\ dbl_leb v s = false) as [-> ->].
      { by apply dbl_leb_nan. }
      rewrite !andb_false_r. destruct (XX flags); cbn; first [by exists RD_NIL|by exists RD_ERR_SCORE_NAN].
    + assert (is_num s) as Hs by (by apply dbl_add_num_iff).
      rewrite !dbl_leb_key by done.
      rewrite (Z.leb_antisym (dkey s)), (Z.leb_antisym (dkey v)).
      destruct (GT flags) eqn:Eg, (LT flags) eqn:El; try (exfalso; tauto); cbn [negb andb orb];
        try (destruct (dkey v <? dkey s)); try (destruct (dkey s <? dkey v)); cbn [negb andb];
        try (first [by exists RD_NIL|by exists RD_ERR_SCORE_NAN]); destruct (XX flags); done.
  - rewrite !(bool_decide_eq_false_2 (@None Z <> None)) by tauto. rewrite andb_false_r.
    destruct (GT flags) eqn:Eg; cbn; [rewrite orb_true_r; first [by exists RD_NIL|by exists RD_ERR_SCORE_NAN]|]. destruct (LT flags) eqn:El; cbn; [rewrite orb_true_r; first [by exists RD_NIL|by exists RD_ERR_SCORE_NAN]|].
    destruct (XX flags); cbn; [first [by exists RD_NIL|by exists RD_ERR_SCORE_NAN]|]. split; [|by apply dbl_add_0_num]. unfold score_string. by rewrite d2string_add_0.
Qed.

(** ZADD with INCR (and ZINCRBY) applies exactly when the flags allow the new
    score and it is not the sum of opposite infinities; the reply is then the
    score that the commit stores.  Otherwise the command is left without
    elements and answers nil or an error. *)
Theorem zincr_agrees fp (o : RedisZsetObject) (num : Z) (field : EloqString) (flags : Z) (r : RedisZsetResult) (keep : bool) :
  zset_good o -> flags_ok flags -> INCR flags = true -> es_fits field -> is_num num ->
  zset_serialized_length_ o + znode_len (zlen (es_view field)) <= MAX_OBJECT_SIZE ->
  let old := z_hash_map_ o !! es_view field in
  let score := dbl_add num (default 0 old) in
  if incr_applies flags num old
  then Execute_ZAdd fp o (ElPair num field) flags r
         = Some (mkZsetResult RD_OK (ZRString (score_string fp score)), ElPair num field, Modified)
       /\ exists o' rest, CommitZAdd o (ElPair num field) flags keep = Some (o', rest) /\ zset_good o'
            /\ z_hash_map_ o' = <[es_view field := score]> (z_hash_map_ o)
  else exists e, e <> RD_OK
         /\ Execute_ZAdd fp o (ElPair num field) flags r = Some (mkZsetResult e (ZRString (es_of_view [])), ElMonostate, NoChange).
Proof.
  intros (l & Hl & -> & Hs) Hfl Hi Hf Hn Hsize. cbn zeta. pose proof (ZAddIncr_spec fp l num field flags Hl Hfl Hn) as H. cbn zeta in H.
  pose proof (zset_image_len_pos l) as Hp. unfold MAX_OBJECT_SIZE in Hs.
  unfold Execute_ZAdd. cbn [z_hash_map_ zset_serialized_length_ zset_of] in *. rewrite (u64_id (zset_image_len l)) in * by (mach; lia).
  rewrite (es_length_fits field Hf), Hi. pose proof (zlen_nonneg (es_view field)) as Hz.
  assert ((MAX_OBJECT_SIZE <? u64 (zset_image_len l + u64 (znode_len (zlen (es_view field))))) = false) as ->.
  { unfold MAX_OBJECT_SIZE in *. unfold znode_len in *. rewrite !u64_id by (mach; rewrite ?u64_id; mach; lia). lia. }
  unfold zlook in H. destruct (incr_applies flags num _).
  - destruct H as [-> Hscore]. split; [done|]. unfold CommitZAdd. rewrite Hi. rewrite update_element_of by done.
    cbn [mbind option_bind]. eexists _, _. split; [done|]. split; [|by apply zput_map].
    eexists. split; [by apply zput_ok|]. split; [done|]. pose proof (zput_len_le (es_view field) (dbl_add num (default 0
      ((list_to_map l : gmap bytes Z) !! es_view field))) l Hl). unfold zlook. lia.
  - destruct H as (e & He & ->). by exists e.
Qed.

Lemma zincr_agrees_witness :
  exists o' rest,
    Execute_ZAdd (fun _ => lit "3") z_ab (ElPair z_one (es_of_view (lit "b"))) ZADD_IN_INCR zset_result0
    = Some (mkZsetResult RD_OK (ZRString (score_string (fun _ => lit "3") z_three)), ElPair z_one (es_of_view (lit "b")), Modified)
    /\ CommitZAdd z_ab (ElPair z_one (es_of_view (lit "b"))) ZADD_IN_INCR true = Some (o', rest)
    /\ zset_good o' /\ z_hash_map_ o' = <[lit "b" := z_three]> (z_hash_map_ z_ab).
Proof.
  pose proof (zincr_agrees (fun _ => lit "3") z_ab z_one (es_of_view (lit "b")) ZADD_IN_INCR zset_result0 true z_ab_good
    ltac:(vm_compute; intuition discriminate) ltac:(done) ltac:(concrete) ltac:(concrete) ltac:(vm_compute; discriminate)) as H.
  destruct H as (H1 & o' & rest & H2 & H3 & H4). exists o', rest. split_and!; assumption.
Defined.

(** ** Removing members *)

Definition without (ks : list bytes) (l : list ZPair) : list ZPair := filter (fun p => p.1 ∉ ks) l.

Lemma zset_count_bound l : 12 * zlen l + 5 <= zset_image_len l.
Proof.
  unfold zset_image_len. induction l as [|p l IH]; [done|]. rewrite zlen_cons. cbn [zsum]. unfold znode_len at 1.
  pose proof (zlen_nonneg p.1). lia.
Qed.

Lemma without_cons k ks l : without ks (zdel k l) = without (k :: ks) l.
Proof.
  unfold without, zdel. rewrite list_filter_filter. apply list_filter_iff. intros p. rewrite not_elem_of_cons. tauto.
Qed.

Lemma zrem_loop_of elements : forall l, zl_ok l -> Forall es_fits elements ->
  zrem_loop elements (zset_of l) = Some (zset_of (without (es_view <$> elements) l)).
Proof.
  induction elements as [|e els IH]; intros l Hl He; cbn [zrem_loop fmap list_fmap].
  - unfold without. by rewrite filter_all by (intros; apply not_elem_of_nil).
  - apply list.Forall_cons in He as [Hf He]. rewrite <- without_cons. cbn [z_hash_map_ z_ordered_set_ zset_serialized_length_ zset_of].
    destruct ((list_to_map l : gmap bytes Z) !! es_view e) as [v|] eqn:E.
    + apply zl_lookup in E as Hin; [|done]. destruct (zset_erase_of (es_view e) v l Hl Hin) as (i & -> & Her).
      cbn [mbind option_bind]. rewrite Her, <- zdel_map by done. rewrite es_length_fits, u64_sub_l by done.
      rewrite (zdel_len _ v l Hl Hin), Z.add_simpl_r. apply (IH (zdel (es_view e) l)); [by apply zdel_ok|done].
    + cbn [mbind option_bind]. apply zl_lookup_none in E. rewrite zdel_id by done. by apply IH.
Qed.

Lemma b2i_range b : 0 <= b2i b <= 1.
Proof. destruct b; cbn; lia. Qed.

Definition rem_count (l : list ZPair) (elements : list EloqString) : Z :=
  zsum (fun e => b2i (bool_decide (es_view e ∈ l.*1))) elements.

Lemma rem_count_del k l elements : k ∉ (es_view <$> elements) -> rem_count (zdel k l) elements = rem_count l elements.
Proof.
  intros Hk. unfold rem_count. apply zsum_ext. intros e He. f_equal. apply bool_decide_ext.
  rewrite !list_elem_of_fmap. unfold zdel. setoid_rewrite list_elem_of_filter.
  split; [naive_solver|]. intros (p & E & Hp). exists p. split; [done|]. split; [|done]. intros E'. apply Hk.
  rewrite <- E', <- E. by apply list_elem_of_fmap_2.
Qed.

Lemma rem_count_length elements : forall l, zl_ok l -> NoDup (es_view <$> elements) ->
  rem_count l elements = zlen l - zlen (without (es_view <$> elements) l).
Proof.
  induction elements as [|e els IH]; intros l Hl Hn; cbn [fmap list_fmap].
  - unfold without. rewrite filter_all by (intros; apply not_elem_of_nil). cbn. lia.
  - apply list.NoDup_cons in Hn as [Hk Hn]. rewrite <- without_cons.
    specialize (IH (zdel (es_view e) l) (zdel_ok _ _ Hl) Hn). rewrite rem_count_del in IH by done.
    unfold rem_count in *. cbn [zsum]. rewrite IH. destruct (decide (es_view e ∈ l.*1)) as [Hin|Hin].
    + rewrite bool_decide_eq_true_2 by done. apply list_elem_of_fmap in Hin as ([k v] & -> & Hin). cbn [b2i fst].
      pose proof (Permutation_length (zdel_perm k v l Hl Hin)) as Hp. cbn in Hp. unfold zlen. lia.
    + rewrite bool_decide_eq_false_2 by done. rewrite zdel_id by done. cbn. lia.
Qed.

Lemma zrem_count_of l elements : zl_ok l -> 0 <= rem_count l elements <= INT32_MAX ->
  zrem_count (zset_of l) elements = rem_count l elements.
Proof.
  intros Hl. unfold zrem_count. cbn [z_hash_map_ zset_of].
  assert (forall x, 0 <= x -> x + rem_count l elements <= INT32_MAX ->
    foldl (fun ans e => i32 (ans + b2i (bool_decide (is_Some ((list_to_map l : gmap bytes Z) !! es_view e))))) x elements
    = x + rem_count l elements) as H; [|intros Hb; rewrite H by lia; lia].
  induction elements as [|e els IH]; intros x Hx Hb; unfold rem_count in *; cbn [foldl zsum] in *; [lia|].
  assert (bool_decide (is_Some ((list_to_map l : gmap bytes Z) !! es_view e)) = bool_decide (es_view e ∈ l.*1)) as ->.
  { apply bool_decide_ext. rewrite <- not_eq_None_Some, zl_lookup_none. split; [|tauto]. apply dec_stable. }
  assert (0 <= zsum (fun e => b2i (bool_decide (es_view e ∈ l.*1))) els) by (apply zsum_nonneg; intros; apply b2i_range).
  pose proof (b2i_range (bool_decide (es_view e ∈ l.*1))).
  rewrite i32_id by (unfold is_i32, INT32_MIN; lia). rewrite IH by lia. lia.
Qed.

Lemma zl_filter_map (P : ZPair -> Prop) `{!forall x, Decision (P x)} l : zl_ok l ->
  (list_to_map (filter P l) : gmap bytes Z) = filter P (list_to_map l : gmap bytes Z).
Proof.
  intros Hl. apply map_eq. intros k. apply option_eq. intros v.
  rewrite zl_lookup by (by apply zl_filter). rewrite map_lookup_filter_Some, zl_lookup, list_elem_of_filter by done. tauto.
Qed.

Lemma zl_size l : zl_ok l -> Z.of_nat (size (list_to_map l : gmap bytes Z)) = zlen l.
Proof. intros Hl. unfold zlen. by rewrite map_size_list_to_map by apply Hl. Qed.

Lemma zset_of_sublist l l' : l' `sublist_of` l -> zl_ok l -> zset_image_len l <= MAX_OBJECT_SIZE -> zset_good (zset_of l').
Proof.
  intros Hsub Hl Hs. exists l'. split_and!; [by eapply zl_sublist|done|]. etrans; [|exact Hs]. unfold zset_image_len.
  apply Z.add_le_mono_l, zsum_sublist; [|done]. intros p. unfold znode_len. pose proof (zlen_nonneg p.1). lia.
Qed.

(** The verdict of a removal, from what the list is before and after. *)
Definition removal_state (m m' : gmap bytes Z) : CommandExecuteState :=
  if decide (m' = m) then NoChange else if decide (m' = ∅) then ModifiedToEmpty else Modified.

Lemma removal_state_filter (P : ZPair -> Prop) `{!forall x, Decision (P x)} l : zl_ok l ->
  removal_state (list_to_map l) (list_to_map (filter P l))
  = if zlen l - zlen (filter P l) =? 0 then NoChange
    else if zlen l <=? zlen l - zlen (filter P l) then ModifiedToEmpty else Modified.
Proof.
  intros Hl. unfold removal_state. pose proof (zl_filter P l Hl) as Hl'.
  pose proof (sublist_filter P l) as Hsub. pose proof (sublist_length _ _ Hsub). unfold zlen.
  destruct (Z.eqb_spec (Z.of_nat (length l) - Z.of_nat (length (filter P l))) 0).
  - rewrite decide_True; [done|]. rewrite (sublist_eq_length (filter P l) l); [done|done|lia].
  - rewrite decide_False by (intros E; apply zl_unique in E; [rewrite E in *; lia|done..]).
    destruct (Z.leb_spec (Z.of_nat (length l)) (Z.of_nat (length l) - Z.of_nat (length (filter P l)))).
    + rewrite decide_True; [done|]. destruct (filter P l); [done|cbn in *; lia].
    + rewrite decide_False; [done|]. intros E. apply (f_equal size) in E. rewrite map_size_empty, map_size_list_to_map in E by apply Hl'. lia.
Qed.

Lemma zset_empty_of l : zl_ok l -> zset_empty (zset_of l) = bool_decide ((list_to_map l : gmap bytes Z) = ∅).
Proof.
  intros Hl. unfold zset_empty. cbn [z_ordered_set_ zset_of]. rewrite length_fmap. destruct l as [|p l]; [done|].
  rewrite bool_decide_eq_false_2; [done|]. cbn. apply insert_non_empty.
Qed.

(** ZREM answers how many of the members were there, its commit removes
    exactly them, and the verdict says whether nothing, something or everything
    goes. *)
Theorem zrem_agrees (o : RedisZsetObject) (elements : list EloqString) :
  zset_good o -> NoDup (es_view <$> elements) -> Forall es_fits elements ->
  let m := z_hash_map_ o in
  let m' := filter (fun kv : ZPair => kv.1 ∉ es_view <$> elements) m in
  Execute_ZRem o elements = (mkZsetResult RD_OK (ZRInt (Z.of_nat (size m) - Z.of_nat (size m'))), removal_state m m')
  /\ exists o', CommitZRem o elements = Some (o', bool_decide (m' = ∅)) /\ zset_good o' /\ z_hash_map_ o' = m'.
Proof.
  intros (l & Hl & -> & Hs) Hn He. cbn zeta. cbn [z_hash_map_ zset_of]. rewrite <- zl_filter_map by done.
  pose proof (zset_count_bound l) as Hb. unfold MAX_OBJECT_SIZE in Hs. pose proof (rem_count_length elements l Hl Hn) as Hr.
  unfold without in Hr. set (l' := filter _ l) in *. assert (zl_ok l') as Hl' by (by apply zl_filter). rewrite !zl_size by done.
  assert (length l' <= length l)%nat by apply sublist_length, sublist_filter. pose proof (zlen_nonneg l'). pose proof (zlen_nonneg l). split.
  - unfold Execute_ZRem. rewrite zrem_count_of by (done || (rewrite Hr; unfold zlen, INT32_MAX in *; lia)). rewrite Hr.
    unfold zset_size. cbn [z_ordered_set_ zset_of]. rewrite zlen_fmap, i32_id by (unfold is_i32, INT32_MAX, INT32_MIN; lia).
    unfold l'. by rewrite removal_state_filter.
  - unfold CommitZRem. rewrite zrem_loop_of by done. cbn [mbind option_bind]. eexists. split; [by rewrite zset_empty_of|].
    split; [|done]. by apply (zset_of_sublist l); [apply sublist_filter|..].
Qed.

Lemma zrem_agrees_witness :
  let els := [es_of_view (lit "b"); es_of_view (lit "z")] in
  Execute_ZRem z_ab els = (mkZsetResult RD_OK (ZRInt 1), Modified)
  /\ exists o', CommitZRem z_ab els = Some (o', false) /\ zset_good o' /\ z_hash_map_ o' = {[ lit "a" := z_one ]}.
Proof.
  exact (zrem_agrees z_ab [es_of_view (lit "b"); es_of_view (lit "z")] z_ab_good
    ltac:(apply (bool_decide_unpack _); vm_compute; exact I) ltac:(concrete)).
Defined.

(** ** Popping *)

(** The members and scores of an object in order. *)
Definition zset_pairs (o : RedisZsetObject) : list ZPair := pair_of <$> z_ordered_set_ o.

Lemma zset_pairs_of l : zset_pairs (zset_of l) = l.
Proof. unfold zset_pairs. cbn. induction l as [|p l IH]; cbn; [done|]. rewrite IH. by destruct p. Qed.

(** What ZPOPMIN and ZPOPMAX take, and leave. *)
Definition pop_split (pop_type : PopType) (n : nat) (l : list ZPair) : list ZPair * list ZPair :=
  match pop_type with
  | POPMIN => (take n l, drop n l)
  | POPMAX => (take n (reverse l), take (length l - n) l)
  end.

Lemma pop_split_perm pop_type n l : (pop_split pop_type n l).1 ++ (pop_split pop_type n l).2 ≡ₚ l.
Proof.
  destruct pop_type; cbn [pop_split fst snd]; [by rewrite take_drop|].
  rewrite take_reverse, reverse_Permutation, (Permutation_app_comm _ (take _ _)). by rewrite take_drop.
Qed.

Lemma pop_loop_of popped : forall rest, NoDup (popped ++ rest).*1 -> Forall (fun p : ZPair => fits p.1) popped ->
  pop_loop (node_of <$> popped) (list_to_map (popped ++ rest)) (u64 (zset_image_len (popped ++ rest)))
  = (list_to_map rest, u64 (zset_image_len rest)).
Proof.
  induction popped as [|[k v] popped IH]; intros rest Hn Hf; [done|]. apply list.Forall_cons in Hf as [Hk Hf].
  rewrite fmap_cons. cbn [pop_loop node_of node_field_ es_view es_own fst app list_to_map].
  cbn [app fmap list_fmap] in Hn. apply list.NoDup_cons in Hn as [Hnk Hn]. cbn in Hk, Hnk.
  change (list_to_map ((k, v) :: popped ++ rest) : gmap bytes Z) with (<[k := v]> (list_to_map (popped ++ rest) : gmap bytes Z)).
  rewrite delete_insert_id by (by apply not_elem_of_list_to_map_1). rewrite es_length_own, u64_sub_l by done.
  rewrite <- (IH rest) by done. f_equal. f_equal. unfold zset_image_len. cbn [zsum fst]. lia.
Qed.

Definition score_reply (fp : Z -> bytes) (l : list ZPair) : list EloqString :=
  mjoin ((fun p => [es_own p.1; score_string fp p.2]) <$> l).

Lemma with_scores_of fp l : Forall (fun p : ZPair => fits p.1) l -> with_scores fp (node_of <$> l) = score_reply fp l.
Proof.
  intros H. unfold with_scores, score_reply. rewrite <- list_fmap_compose. f_equal. apply list_fmap_ext. intros i p Hp.
  cbn. rewrite list.Forall_forall in H. apply list_elem_of_lookup_2, H in Hp. f_equal. unfold es_clone.
  rewrite es_length_own by done. cbn [es_view es_own]. by rewrite take_zlen.
Qed.

Lemma length_score_reply fp l : length (score_reply fp l) = (2 * length l)%nat.
Proof.
  induction l as [|p l IH]; [done|].
  change (score_reply fp (p :: l)) with (es_own p.1 :: score_string fp p.2 :: score_reply fp l). cbn [length]. lia.
Qed.

(** ZPOPMIN and ZPOPMAX answer with the members of least or greatest score,
    in that order, and their scores; the commit leaves exactly the others, and
    the verdict says whether nothing, something or everything goes. *)
Theorem zpop_agrees fp (o : RedisZsetObject) (pop_type : PopType) (count : Z) :
  zset_good o -> 0 <= count ->
  let '(popped, rest) := pop_split pop_type (Z.to_nat count) (zset_pairs o) in
  Execute_ZPop fp o pop_type count
    = (mkZsetResult RD_OK (ZRStrings (score_reply fp popped)),
       match popped, rest with [], _ => NoChange | _, [] => ModifiedToEmpty | _, _ => Modified end)
  /\ (forall p q, p ∈ popped -> q ∈ rest -> match pop_type with POPMIN => zlt p q | POPMAX => zlt q p end)
  /\ exists o', CommitZPop o pop_type count = Some (o', match rest with [] => true | _ => false end)
       /\ zset_good o' /\ zset_pairs o' = rest.
Proof.
  intros (l & Hl & -> & Hs) Hc. rewrite zset_pairs_of.
  pose proof (pop_split_perm pop_type (Z.to_nat count) l) as Hp.
  assert (forall p q, p ∈ (pop_split pop_type (Z.to_nat count) l).1 -> q ∈ (pop_split pop_type (Z.to_nat count) l).2 ->
    match pop_type with POPMIN => zlt p q | POPMAX => zlt q p end) as Hord.
  { intros p q. destruct pop_type; cbn [pop_split fst snd].
    - apply StronglySorted_app_1_elem_of. rewrite take_drop. apply Hl.
    - rewrite take_reverse, elem_of_reverse. intros Hp' Hq. revert Hq Hp'.
      apply StronglySorted_app_1_elem_of. rewrite take_drop. apply Hl. }
  assert (Forall (fun p : ZPair => fits p.1) (pop_split pop_type (Z.to_nat count) l).1) as Hfit.
  { apply list.Forall_forall. intros p Hin. apply (zl_fits l); [done|]. rewrite <- Hp. set_solver. }
  assert (z_nodes : match pop_type with POPMIN => node_of <$> l | POPMAX => reverse (node_of <$> l) end
    = node_of <$> match pop_type with POPMIN => l | POPMAX => reverse l end) by (destruct pop_type; [done|by rewrite fmap_reverse]).
  assert (pop_nodes (match pop_type with POPMIN => node_of <$> l | POPMAX => reverse (node_of <$> l) end) count
    = node_of <$> (pop_split pop_type (Z.to_nat count) l).1) as Hnodes.
  { rewrite z_nodes. unfold pop_nodes. rewrite <- fmap_take. by destruct pop_type. }
  destruct (pop_split pop_type (Z.to_nat count) l) as [popped rest] eqn:E. cbn [fst snd] in *.
  pose proof (Permutation_length Hp) as Hlen. rewrite length_app in Hlen.
  split_and!; [|done|].
  - unfold Execute_ZPop. cbn [z_ordered_set_ zset_of]. rewrite Hnodes, with_scores_of by done. f_equal.
    rewrite length_score_reply. destruct popped as [|p popped]; [done|]. cbn [length Nat.mul Nat.add Nat.eqb].
    unfold zset_size, zlen. cbn [z_ordered_set_ zset_of]. rewrite length_fmap, length_score_reply.
    rewrite Nat2Z.inj_mul, Z.mul_comm, Z.quot_mul by lia. destruct rest; cbn [length] in *.
    + by rewrite (proj2 (Z.leb_le _ _)) by lia.
    + by rewrite (proj2 (Z.leb_gt _ _)) by lia.
  - unfold CommitZPop, zset_size. cbn [z_ordered_set_ zset_of z_hash_map_ zset_serialized_length_]. rewrite zlen_fmap.
    destruct (Z.leb_spec (zlen l) count) as [Hz|Hz].
    + assert (rest = []) as ->.
      { assert (length popped = length l) as Hpl; [|destruct rest; [done|cbn in *; lia]]. unfold zlen in Hz.
        apply (f_equal (length ∘ fst)) in E. cbn in E. rewrite <- E. destruct pop_type; cbn [pop_split fst].
        - rewrite length_take. lia.
        - rewrite length_take, length_reverse. lia. }
      exists zset_new. split_and!; [done| |done]. apply (zset_of_sublist l []); [apply sublist_nil_l|done..].
    + rewrite (proj2 (Z.ltb_ge count 0)) by done.
      assert (match pop_type with
              | POPMIN => (pop_nodes (node_of <$> l) count, drop (Z.to_nat count) (node_of <$> l))
              | POPMAX => (pop_nodes (reverse (node_of <$> l)) count, take (length (node_of <$> l) - Z.to_nat count) (node_of <$> l))
              end = (node_of <$> popped, node_of <$> rest)) as ->.
      { destruct pop_type; rewrite Hnodes; f_equal; cbn in E; injection E as _ <-; by rewrite ?length_fmap, ?fmap_take, ?fmap_drop. }
      assert (NoDup (popped ++ rest).*1) as Hnd by (rewrite Hp; apply Hl).
      rewrite <- (list_to_map_proper (M := gmap bytes) (popped ++ rest) l) by done.
      rewrite <- (zset_image_len_perm (popped ++ rest) l) by done. rewrite pop_loop_of by done.
      eexists. split_and!; [unfold zset_empty; cbn [z_ordered_set_]; rewrite length_fmap; by destruct rest| |apply zset_pairs_of].
      apply (zset_of_sublist l); [|done..]. destruct pop_type; cbn in E; injection E as _ <-; [apply sublist_drop|apply sublist_take].
Qed.

Lemma zpop_agrees_witness :
  Execute_ZPop (fun _ => lit "2") z_ab POPMAX 1
    = (mkZsetResult RD_OK (ZRStrings [es_own (lit "b"); score_string (fun _ => lit "2") z_two]), Modified)
  /\ exists o', CommitZPop z_ab POPMAX 1 = Some (o', false) /\ zset_good o' /\ zset_pairs o' = [(lit "a", z_one)].
Proof.
  destruct (zpop_agrees (fun _ => lit "2") z_ab POPMAX 1 z_ab_good ltac:(done)) as (H1 & _ & H2). split; assumption.
Defined.
