(* ===== verification/ZsetImage.v ===== *)
(** * Images and copies of a sorted set

    A sorted set is written in the order of its table and read back by inserting
    the entries one at a time, and copied the same way in the order of its nodes.
    Here: each gives the set back.  Also its comparison, the rank of a member, and
    what the moved strings of ZADD do to the table of the scores in use. *)

From stdpp Require Import sorting.
From S2P Require Import Prelude Codec EloqString RedisTypes Encoding StringNum Double ZsetObject.

(** ** Inserting all the pairs *)

Definition zins_all (l acc : list ZPair) : list ZPair := foldl (fun acc p => zins p acc) acc l.

Lemma zins_all_perm l : forall acc, zins_all l acc ≡ₚ l ++ acc.
Proof.
  induction l as [|p l IH]; intros acc; [done|]. change (zins_all (p :: l) acc) with (zins_all l (zins p acc)).
  rewrite IH, zins_perm. symmetry. apply Permutation_middle.
Qed.

(** Pairs that can be inserted one after the other into [acc]. *)
Definition insertable (l acc : list ZPair) : Prop := zl_ok acc /\ Forall zpair_ok l /\ NoDup (l ++ acc).*1.

Lemma insertable_cons p l acc : insertable (p :: l) acc ->
  zl_ok acc /\ zpair_ok p /\ (p.1 ∉ acc.*1) /\ insertable l (zins p acc).
Proof.
  intros (Ha & [Hp Hl]%list.Forall_cons & Hn). cbn [app] in Hn. rewrite fmap_cons, list.NoDup_cons, fmap_app, elem_of_app in Hn.
  destruct Hn as [Hk Hn]. assert (p.1 ∉ acc.*1) as Hpn by (intros H; apply Hk; by right).
  split_and!; [done..|]. split_and!; [by apply zins_ok|done|].
  rewrite zins_perm, <- Permutation_middle, fmap_cons, list.NoDup_cons. by rewrite fmap_app, elem_of_app.
Qed.

Lemma zins_all_ok l : forall acc, insertable l acc -> zl_ok (zins_all l acc).
Proof.
  induction l as [|p l IH]; intros acc H; [apply H|]. apply insertable_cons in H as (_ & _ & _ & H). by apply IH.
Qed.

Lemma zl_perm_unique l l' : zl_ok l -> zl_ok l' -> l ≡ₚ l' -> l = l'.
Proof. intros H H' E. apply zl_unique; [done..|]. apply list_to_map_proper; [apply H|done]. Qed.

Lemma insertable_perm l it : zl_ok l -> it ≡ₚ l -> insertable it [] /\ zins_all it [] = l.
Proof.
  intros Hl E. assert (insertable it []) as H.
  { split; [apply zl_ok_nil|]. rewrite app_nil_r, E. split; apply Hl. }
  split; [done|]. apply zl_perm_unique; [by apply zins_all_ok|done|]. by rewrite zins_all_perm, app_nil_r.
Qed.

Lemma zins_map p acc : zl_ok acc -> zpair_ok p -> p.1 ∉ acc.*1 ->
  zh_emplace p.1 p.2 (list_to_map acc) = (list_to_map (zins p acc) : gmap bytes Z).
Proof.
  intros Ha Hp Hn. rewrite zh_emplace_new by (by apply zl_lookup_none).
  rewrite (list_to_map_proper _ _ (zl_nodup _ (zins_ok _ _ Ha Hp Hn)) (zins_perm p acc)). by destruct p.
Qed.

Lemma zins_len p acc : zset_image_len (zins p acc) = zset_image_len acc + znode_len (zlen p.1).
Proof. rewrite (zset_image_len_perm _ _ (zins_perm p acc)). unfold zset_image_len. cbn [zsum]. lia. Qed.

Lemma zins_object p acc : zl_ok acc -> zpair_ok p -> p.1 ∉ acc.*1 ->
  mkZset (zs_insert (node_of p) (node_of <$> acc)) (zh_emplace p.1 p.2 (list_to_map acc))
    (u64 (u64 (zset_image_len acc) + znode_len (zlen p.1))) = zset_of (zins p acc).
Proof.
  intros Ha Hp Hn. destruct p as [k v]. unfold node_of at 1. cbn [fst snd] in *.
  rewrite zs_insert_pairs by (done || apply Hp). rewrite (zins_map (k, v)) by done.
  unfold zset_of. f_equal. rewrite zins_len. cbn [fst]. unfold u64. by rewrite Zplus_mod_idemp_l.
Qed.

(** ** Copies *)

Lemma zset_copy_loop_of l len : forall acc, insertable l acc ->
  zset_copy_loop (node_of <$> l) (mkZset (node_of <$> acc) (list_to_map acc) len)
  = mkZset (node_of <$> zins_all l acc) (list_to_map (zins_all l acc)) len.
Proof.
  induction l as [|p l IH]; intros acc H; [done|]. apply insertable_cons in H as (Ha & Hp & Hn & H).
  cbn [fmap list_fmap zset_copy_loop z_ordered_set_ z_hash_map_ zset_serialized_length_].
  change (zins_all (p :: l) acc) with (zins_all l (zins p acc)). rewrite <- (IH (zins p acc) H). clear IH. f_equal.
  pose proof (zins_object p acc Ha Hp Hn) as E. injection E as E1 E2 _.
  cbn [node_of node_field_ node_score_]. rewrite es_clone_own by apply Hp. by rewrite <- E1, <- E2.
Qed.

(** A copy is the set itself. *)
Lemma zset_copy_of l : zl_ok l -> zset_copy (zset_of l) = zset_of l.
Proof.
  intros Hl. destruct (insertable_perm l l Hl (reflexivity _)) as [Hi E].
  unfold zset_copy. change (zset_copy_loop (node_of <$> l) (mkZset (node_of <$> []) (list_to_map []) (u64 (zset_image_len l))) = zset_of l).
  by rewrite zset_copy_loop_of, E.
Qed.

(** ** Images *)

Definition zset_image (it : list ZPair) : bytes :=
  type_byte TyZset ++ le_bytes 4 (zlen it) ++ concat (zentry_str <$> it).
Definition zsetttl_image (it : list ZPair) (ttl : Z) : bytes :=
  type_byte TyTTLZset ++ le_bytes 8 ttl ++ le_bytes 4 (zlen it) ++ concat (zentry_str <$> it).

Lemma zset_read_entries_of l : forall acc, insertable l acc ->
  Reads (zset_read_entries (length l) (zset_of acc)) (concat (zentry_str <$> l)) (zset_of (zins_all l acc)).
Proof.
  induction l as [|p l IH]; intros acc H; [apply Reads_ret|]. apply insertable_cons in H as (Ha & Hp & Hn & H).
  cbn [fmap list_fmap concat length zset_read_entries]. unfold zentry_str at 1. rewrite <- app_assoc.
  eapply Reads_bind; [apply Reads_lp_string, Hp|]. eapply Reads_bind; [apply Reads_u64, Hp|].
  change (zins_all (p :: l) acc) with (zins_all l (zins p acc)).
  cbn [zset_of z_ordered_set_ z_hash_map_ zset_serialized_length_].
  change (mkNode (es_own p.1) p.2) with (node_of p). rewrite zins_object by done. by apply IH.
Qed.

Lemma Writes_zentry p : zpair_ok p -> Writes (zentry_vec p) (zentry_str p).
Proof.
  intros [Hf _]. unfold zentry_vec, zentry_str. rewrite lp_string_small by done.
  rewrite u32_id, take_ge by (done || unfold zlen; lia). rewrite <- app_assoc. auto with codec.
Qed.

Lemma zlen_zentries it : Forall zpair_ok it -> zlen (concat (zentry_str <$> it)) = zsum (fun p => znode_len (zlen p.1)) it.
Proof.
  induction 1 as [|p it [Hf _] _ IH]; [done|]. cbn [fmap list_fmap concat zsum]. rewrite zlen_app, IH.
  unfold zentry_str, znode_len. rewrite lp_string_small by done. zlen. lia.
Qed.

Lemma zlen_zset_image l it : zl_ok l -> it ≡ₚ l -> zlen (zset_image it) = zset_image_len l.
Proof.
  intros Hl E. unfold zset_image. zlen. rewrite zlen_zentries by (rewrite E; apply Hl).
  rewrite <- (zset_image_len_perm it l E). unfold zset_image_len. lia.
Qed.

Lemma zlen_zsetttl_image l it ttl : zl_ok l -> it ≡ₚ l -> zlen (zsetttl_image it ttl) = 8 + zset_image_len l.
Proof. intros Hl E. rewrite <- (zlen_zset_image l it Hl E). unfold zset_image, zsetttl_image. zlen. lia. Qed.

Lemma zset_read_all l it : zl_ok l -> it ≡ₚ l ->
  Reads (zset_read_entries (Z.to_nat (zlen it)) zset_new) (concat (zentry_str <$> it)) (zset_of l).
Proof.
  intros Hl E. destruct (insertable_perm l it Hl E) as [Hi <-]. rewrite (length_of_zlen it) by done.
  exact (zset_read_entries_of it [] Hi).
Qed.

Lemma zset_Deserialize_of l it : zl_ok l -> it ≡ₚ l -> is_u32 (zlen l) ->
  Reads zset_Deserialize (zset_image it) (zset_of l).
Proof.
  intros Hl E Hn. eapply Reads_bind; [by apply Reads_bytes|].
  eapply Reads_bind; [apply Reads_u32; unfold zlen; by rewrite E|]. by apply zset_read_all.
Qed.

Lemma zsetttl_Deserialize_of l it ttl : zl_ok l -> it ≡ₚ l -> is_u32 (zlen l) -> is_u64 ttl ->
  Reads zsetttl_Deserialize (zsetttl_image it ttl) (mkZsetTTL (zset_of l) ttl).
Proof.
  intros Hl E Hn Ht. eapply Reads_bind; [by apply Reads_bytes|]. eapply Reads_bind; [by apply Reads_u64|].
  eapply Reads_bind; [apply Reads_u32; unfold zlen; by rewrite E|].
  eapply Reads_bind_ret; [by apply zset_read_all|done].
Qed.

Lemma zset_iter_of l it : zl_ok l -> zset_iter (zset_of l) it -> it ≡ₚ l.
Proof. intros Hl H. unfold zset_iter in H. cbn in H. rewrite H. apply map_to_list_to_map, Hl. Qed.

Lemma zhash_size_of l it : zl_ok l -> it ≡ₚ l -> zhash_size (zset_of l) = zlen it.
Proof. intros Hl E. unfold zhash_size. cbn. rewrite zl_size by done. unfold zlen. by rewrite E. Qed.

Lemma Writes_zentries it : Forall zpair_ok it -> Writes (vfor zentry_vec it) (concat (zentry_str <$> it)).
Proof. intros H. apply Writes_for. intros p Hp. apply Writes_zentry. rewrite list.Forall_forall in H. by apply H. Qed.

(** A sorted set is restored from the image written in any iteration order of its
    table, with and without a TTL; the running length is the length of the image,
    both serializers agree, and [RemoveTTL] undoes [AddTTL]. *)
Lemma zset_images o it ttl : zset_good o -> zset_iter o it -> is_u64 ttl ->
  let t := zset_AddTTL o ttl in
  image_law (zset_serialized_length_ o) (zset_Serialize_str o it []) (zset_Serialize_vec o it) zset_Deserialize o
  /\ image_law (zsetttl_SerializedLength t) (zsetttl_Serialize_str t it []) (zsetttl_Serialize_vec t it)
       zsetttl_Deserialize t
  /\ zset_RemoveTTL t = o.
Proof.
  intros (l & Hl & -> & Hs) Hi%zset_iter_of Ht; [|done]. cbn zeta.
  unfold zset_AddTTL. rewrite zset_copy_of by done.
  pose proof (zset_image_len_pos l). pose proof (zset_count_bound l). pose proof (zlen_nonneg l).
  assert (Forall zpair_ok it) as Hf by (rewrite Hi; apply Hl).
  assert (is_u32 (zlen l)) by (unfold MAX_OBJECT_SIZE in Hs; mach; lia).
  assert (u64 (zset_image_len l) = zset_image_len l) as E by (apply u64_id; unfold MAX_OBJECT_SIZE in Hs; mach; lia).
  assert (zset_Serialize_str (zset_of l) it [] = zset_image it) as ->.
  { unfold zset_Serialize_str, zset_image. by rewrite (zhash_size_of l it), app_nil_l. }
  assert (zsetttl_Serialize_str (mkZsetTTL (zset_of l) ttl) it [] = zsetttl_image it ttl) as ->.
  { unfold zsetttl_Serialize_str, zsetttl_image. cbn [zsetttl_base zsetttl_ttl_]. by rewrite (zhash_size_of l it), app_nil_l. }
  split_and!; [split|split|done].
  - rewrite (zlen_zset_image l) by done. by cbn.
  - by apply zset_Deserialize_of.
  - intros buf off Hoff. unfold zset_Serialize_vec. cbn [zset_of zset_serialized_length_]. rewrite E.
    rewrite (length_of_zlen (zset_image it)) by (by apply zlen_zset_image).
    apply vresize_write; [|done]. fold (zset_of l). rewrite (zhash_size_of l it) by done.
    unfold zset_image. auto using Writes_zentries with codec.
  - rewrite (zlen_zsetttl_image l) by done. unfold zsetttl_SerializedLength. cbn. rewrite E. symmetry. apply u64_id.
    unfold MAX_OBJECT_SIZE in Hs. mach; lia.
  - by apply zsetttl_Deserialize_of.
  - intros buf off Hoff. unfold zsetttl_Serialize_vec. cbn [zsetttl_base zset_of zset_serialized_length_ zsetttl_ttl_]. rewrite E.
    replace (off + 8 + Z.to_nat (zset_image_len l))%nat with (off + length (zsetttl_image it ttl))%nat.
    2: { rewrite <- (length_of_zlen (zsetttl_image it ttl) (8 + zset_image_len l)) by (by apply zlen_zsetttl_image). lia. }
    apply vresize_write; [|done]. fold (zset_of l). rewrite (zhash_size_of l it) by done.
    unfold zsetttl_image. auto using Writes_zentries with codec.
Qed.

(** ** Ranks *)

(** The pairs before and after a place are those below and above its pair. *)
Lemma zl_split l i p : zl_ok l -> l !! i = Some p ->
  filter (fun q => zlt q p) l = take i l /\ filter (fun q => zlt p q) l = drop (S i) l.
Proof.
  intros Hl Hi. pose proof (take_drop_middle l i p Hi) as E. pose proof (zl_sorted l Hl) as Hs. rewrite <- E in Hs.
  apply StronglySorted_app in Hs as (Hlt & H1 & H2). apply StronglySorted_cons in H2 as [Hgt _].
  rewrite list.Forall_forall in Hgt.
  assert (forall q, q ∈ take i l -> zlt q p) as Hbelow by (intros q Hq; apply Hlt; set_solver).
  rewrite <- E at 1 3. rewrite !list.filter_app, !filter_cons, !decide_False by (apply zlt_irrefl).
  split.
  - rewrite filter_all, filter_none, app_nil_r; [done| |done]. intros q Hq. by apply zlt_asym, Hgt.
  - rewrite filter_none, filter_all; [done|done|]. intros q Hq. by apply zlt_asym, Hbelow.
Qed.

Lemma zl_filter_size (P : ZPair -> Prop) `{!forall x, Decision (P x)} l : zl_ok l ->
  size (filter P (list_to_map l : gmap bytes Z)) = length (filter P l).
Proof.
  intros Hl. rewrite <- zl_filter_map by done. apply Nat2Z.inj. rewrite zl_size by (by apply zl_filter). done.
Qed.

(** ZRANK answers how many members of the set come before the one asked for,
    by score and then by bytes, ZREVRANK how many come after it, with the score
    printed when asked; nil when the member is not in the set. *)
Theorem zrank_correct fp (o : RedisZsetObject) (member : EloqString) (rev with_score : bool) (r : RedisZsetResult) :
  zset_good o ->
  let m := z_hash_map_ o in
  Execute_ZRank fp o member rev with_score r
  = match m !! es_view member with
    | None => zr_set_err RD_NIL r
    | Some v =>
        let p := (es_view member, v) in
        let rank := Z.of_nat (size (if rev then filter (fun q => zlt p q) m else filter (fun q => zlt q p) m)) in
        mkZsetResult RD_OK (if with_score then ZRPair rank (d2string fp v) else ZRInt rank)
    end.
Proof.
  intros (l & Hl & -> & Hs). cbn zeta. unfold Execute_ZRank. cbn [zset_of z_hash_map_ z_ordered_set_].
  destruct (list_to_map l !! es_view member) as [v|] eqn:E; [|done]. apply zl_lookup in E; [|done].
  destruct (zs_find_pair (mkNode (es_of_view (es_view member)) v) l Hl E) as (i & -> & Hi).
  change (l !! i = Some (es_view member, v)) in Hi.
  destruct (zl_split l i _ Hl Hi) as [E1 E2]. apply lookup_lt_Some in Hi as Hlt.
  pose proof (zset_count_bound l). unfold MAX_OBJECT_SIZE, zlen in *. rewrite length_fmap. cbn [from_option]. unfold id.
  destruct rev; rewrite zl_filter_size by done; rewrite i32_id by (mach; lia); rewrite ?E1, ?E2.
  - rewrite length_drop. by replace (Z.of_nat (length l) - Z.of_nat i - 1) with (Z.of_nat (length l - S i)) by lia.
  - rewrite length_take. by replace (i `min` length l)%nat with i by lia.
Qed.

Lemma zrank_correct_witness :
  Execute_ZRank (fun _ => []) z_ab (es_of_view (lit "b")) false false zset_result0 = mkZsetResult RD_OK (ZRInt 1)
  /\ Execute_ZRank (fun _ => []) z_ab (es_of_view (lit "b")) true false zset_result0 = mkZsetResult RD_OK (ZRInt 0)
  /\ Execute_ZRank (fun _ => []) z_ab (es_of_view (lit "c")) true true zset_result0 = zr_set_err RD_NIL zset_result0.
Proof. rewrite !zrank_correct by exact z_ab_good. vm_compute. split_and!; reflexivity. Defined.

(** ** The moved keys of ZADD *)

(** [ZAddNX] (like its kin) keeps, as keys of its table, views of the fields
    it moves to the front of the vector.  With fields that are short and owned, as
    in a command read from the log or from another node, a later move overwrites
    the bytes such a key shows, and the next lookup reads a corrupted table; the
    same fields held as views of the request are handled as they should be. *)
Theorem zadd_moved_key_dangles (o : RedisZsetObject) (x b c : bytes) (s0 s1 s2 s3 : Z) :
  is_Some (z_hash_map_ o !! x) -> z_hash_map_ o !! b = None -> z_hash_map_ o !! c = None ->
  b <> c -> length b = length c -> owned_type b = Stack ->
  ZAddNX o [(s0, es_own x); (s1, es_own b); (s2, es_own c); (s3, es_own b)] = None
  /\ ZAddNX o [(s0, es_of_view x); (s1, es_of_view b); (s2, es_of_view c); (s3, es_of_view b)]
     = Some ([(s1, es_of_view b); (s2, es_of_view c)], 2, true).
Proof.
  intros [v Hx] Hb Hc Hbc Hlen Hs.
  assert (owned_type c = Stack) as Hs' by (revert Hs; unfold owned_type, zlen; by rewrite Hlen).
  assert (used_valid [(s1, es_own b); (s2, es_own c)] (mkUsed b (Some 1%nat) s1) = false) as Hbad.
  { unfold used_valid, still_shows. cbn. rewrite Hs', Hlen, take_app_length. by apply bool_decide_eq_false_2. }
  unfold ZAddNX. split; cbn [zadd_filter forallb es_own es_of_view es_view es_type nx_rule used_find negb];
    rewrite Hx, Hb; cbn; rewrite ?Hs; cbn; rewrite (bool_decide_eq_false_2 (b = c)), Hc by done; cbn [nx_rule].
  - rewrite Hs'. cbn [forallb]. by rewrite Hbad.
  - cbn. by rewrite bool_decide_eq_true_2.
Qed.

Lemma zadd_moved_key_dangles_witness :
  let el v s := (z_one, v (lit s) : EloqString) in
  ZAddNX z_ab [el es_own "a"; el es_own "x"; el es_own "y"; el es_own "x"] = None
  /\ ZAddNX z_ab [el es_of_view "a"; el es_of_view "x"; el es_of_view "y"; el es_of_view "x"]
     = Some ([el es_of_view "x"; el es_of_view "y"], 2, true).
Proof.
  exact (zadd_moved_key_dangles z_ab (lit "a") (lit "x") (lit "y") z_one z_one z_one z_one
    ltac:(by exists z_one) ltac:(done) ltac:(done) ltac:(done) ltac:(done) ltac:(done)).
Defined.
