(* ===== verification/ZsetRange.v ===== *)
(** * Ranges of a sorted set

    ZRANGE by rank, score or bytes, forwards or in reverse, with its LIMIT and
    WITHSCORES; ZCOUNT, ZLEXCOUNT, ZREMRANGE and ZSCAN
    (src/redis_zset_object.cpp).  An iterator is a position of the list of nodes.
    A pair of iterators whose first is behind its second has no distance and is
    never walked to its end, and an iterator moved before the first node or
    behind the last shows nothing: the operations that do so return [None], as
    do those that read the wrong alternative of a bound. *)

From stdpp Require Import sorting.
From S2P Require Import Prelude Codec EloqString RedisTypes Encoding StringNum StringMatch Double ZsetObject ZsetImage.

Set Warnings "-clear-no-such-hyp".

(** ** Arguments of a range *)

Inductive ZRangeType := ZRANGE_AUTO | ZRANGE_RANK | ZRANGE_SCORE | ZRANGE_LEX.
Inductive ZRangeDirection := ZRANGE_DIRECTION_AUTO | ZRANGE_DIRECTION_FORWARD | ZRANGE_DIRECTION_REVERSE.

#[global] Instance ZRangeType_eq_dec : EqDecision ZRangeType.
Proof. solve_decision. Defined.
#[global] Instance ZRangeDirection_eq_dec : EqDecision ZRangeDirection.
Proof. solve_decision. Defined.

Record ZRangeConstraint := mkConstraint {
  opt_withscores_ : bool;
  opt_offset_ : Z;
  opt_limit_ : Z;
  rangetype_ : ZRangeType;
  direction_ : ZRangeDirection
}.

Definition constraint0 : ZRangeConstraint := mkConstraint false 0 (-1) ZRANGE_AUTO ZRANGE_DIRECTION_AUTO.

Inductive ZBound :=
| BInt (n : Z)
| BDouble (d : Z)
| BString (s : EloqString).

Record ZRangeSpec := mkSpec {
  null_ : bool;
  minex_ : bool;
  maxex_ : bool;
  negative_ : bool;
  positive_ : bool;
  opt_start_ : ZBound;
  opt_end_ : ZBound
}.

Definition spec0 : ZRangeSpec := mkSpec false false false false false (BInt 0) (BInt 0).

(** [std::get]. *)
Definition get_int (b : ZBound) : option Z := match b with BInt n => Some n | _ => None end.
Definition get_double (b : ZBound) : option Z := match b with BDouble d => Some d | _ => None end.
Definition get_string (b : ZBound) : option EloqString := match b with BString s => Some s | _ => None end.

(** The copy constructor of [ZRangeSpec]. *)
Definition bound_copy (b : ZBound) : ZBound := match b with BString s => BString (es_clone s) | _ => b end.
Definition spec_copy (rhs : ZRangeSpec) : ZRangeSpec :=
  mkSpec false (minex_ rhs) (maxex_ rhs) (negative_ rhs) (positive_ rhs) (bound_copy (opt_start_ rhs))
    (bound_copy (opt_end_ rhs)).

(** ** Walking a range *)

(** [std::distance] of two iterators of a set, which has no defined result when the
    second cannot be reached from the first: [None]. *)
Definition zdistance (b e : nat) : option Z :=
  if (b <=? e)%nat then Some (Z.of_nat (e - b)) else None.

(** [std::advance], undefined ([None]) beyond the ends of the set. *)
Definition zadvance (b : nat) (n : Z) (size : nat) : option nat :=
  let p := Z.of_nat b + n in
  if (p <? 0) || (Z.of_nat size <? p) then None else Some (Z.to_nat p).

(** The nodes between two positions. *)
Definition znodes (b e : nat) (s : list ZNode) : list ZNode := take (e - b) (drop b s).

Section Printing.

Context (fpconv_dtoa : Z -> bytes).

Definition node_reply (withscores : bool) (n : ZNode) : list EloqString :=
  es_clone (node_field_ n) :: (if withscores then [score_string fpconv_dtoa (node_score_ n)] else []).

(** The loops of both emplacers: the reply, and what is left of the limit. *)
Fixpoint emplace_loop (nodes : list ZNode) (limit : Z) (withscores : bool) : list EloqString * Z :=
  match nodes with
  | [] => ([], limit)
  | n :: nodes' =>
      if (limit =? -1) || (0 <? limit) then
        let '(ans, l) := emplace_loop nodes' (limit - (if 0 <? limit then 1 else 0)) withscores in
        (node_reply withscores n ++ ans, l)
      else ([], limit)
  end.

(** The reply, the offset and the limit. *)
Definition EmplaceForwardElements (s : list ZNode) (pos_begin pos_end : nat) (offset limit : Z) (withscores : bool)
    : option (list EloqString * Z * Z) :=
  size ← i32 <$> zdistance pos_begin pos_end;
  if size <=? offset then Some ([], offset - size, limit)
  else
    pos_begin ← zadvance pos_begin offset (length s);
    let '(ans, limit) := emplace_loop (znodes pos_begin pos_end s) limit withscores in
    Some (ans, 0, limit).

(** A reverse iterator that shows the node before [pos_end] moves down. *)
Definition EmplaceRevElements (s : list ZNode) (pos_begin pos_end : nat) (offset limit : Z) (withscores : bool)
    : option (list EloqString * Z * Z) :=
  size ← i32 <$> zdistance pos_begin pos_end;
  if size <=? offset then Some ([], offset - size, limit)
  else
    rev_begin ← zadvance pos_end (- offset) (length s);
    let '(ans, limit) := emplace_loop (reverse (znodes pos_begin rev_begin s)) limit withscores in
    Some (ans, 0, limit).

(** ** By rank *)

(** The first position and the one behind the last; [None] is an empty range. *)
Definition rank_positions (zset_size pos_start pos_end : Z) : option (Z * Z) :=
  let '(pos_start, out) :=
    if pos_start <? 0 then (let p := i32 (pos_start + zset_size) in if p <? 0 then 0 else p, false)
    else (pos_start, (0 <? pos_start) && (zset_size <=? pos_start)) in
  if out then None
  else
    let '(pos_end, out) :=
      if pos_end <? 0 then (i32 (pos_end + zset_size), zset_size <? i32 (- pos_end))
      else (if zset_size <=? pos_end then zset_size - 1 else pos_end, false) in
    if out then None
    else
      let pos_end := i32 (pos_end + 1) in
      if pos_end <=? pos_start then None else Some (pos_start, pos_end).

(** The score in the reply of a reverse range by rank. *)
Definition rank_score (score : Z) : EloqString :=
  if dbl_eqb score dbl_inf then es_of_data (lit "inf")
  else if dbl_eqb score dbl_ninf then es_of_data (lit "-inf")
  else score_string fpconv_dtoa score.

Definition rank_reply (withscores : bool) (n : ZNode) : list EloqString :=
  es_clone (node_field_ n) :: (if withscores then [rank_score (node_score_ n)] else []).

Definition ZRangeByRank (o : RedisZsetObject) (arg : ZRangeConstraint) (spec : ZRangeSpec)
    : option (list EloqString * Z * Z) :=
  let s := z_ordered_set_ o in
  pos_start ← get_int (opt_start_ spec);
  pos_end ← get_int (opt_end_ spec);
  match rank_positions (i32 (zset_size o)) pos_start pos_end with
  | None => Some ([], opt_offset_ arg, opt_limit_ arg)
  | Some (pos_start, pos_end) =>
      b ← zadvance 0 pos_start (length s);
      e ← zadvance 0 pos_end (length s);
      match direction_ arg with
      | ZRANGE_DIRECTION_REVERSE =>
          Some (mjoin (rank_reply (opt_withscores_ arg) <$> znodes b e (reverse s)), opt_offset_ arg, opt_limit_ arg)
      | _ => EmplaceForwardElements s b e (opt_offset_ arg) (opt_limit_ arg) (opt_withscores_ arg)
      end
  end.

(** ** By score *)

(** The iterators of the range; [None] is the early return. *)
Definition score_positions (s : list ZNode) (spec : ZRangeSpec) (num_start num_end : Z) : option (nat * nat) :=
  if dbl_ltb num_end num_start then None
  else Some (if minex_ spec then score_upper_bound num_start s else score_lower_bound num_start s,
             if maxex_ spec then score_lower_bound num_end s else score_upper_bound num_end s).

Definition ZRangeByScore (o : RedisZsetObject) (arg : ZRangeConstraint) (spec : ZRangeSpec)
    : option (list EloqString * Z * Z) :=
  let s := z_ordered_set_ o in
  num_start ← get_double (opt_start_ spec);
  num_end ← get_double (opt_end_ spec);
  match score_positions s spec num_start num_end with
  | None => Some ([], opt_offset_ arg, opt_limit_ arg)
  | Some (b, e) =>
      match direction_ arg with
      | ZRANGE_DIRECTION_REVERSE => EmplaceRevElements s b e (opt_offset_ arg) (opt_limit_ arg) (opt_withscores_ arg)
      | _ => EmplaceForwardElements s b e (opt_offset_ arg) (opt_limit_ arg) (opt_withscores_ arg)
      end
  end.

(** ** By bytes *)

(** The nodes of one score. *)
Definition GetRangeByLexForCurrentScore (s : list ZNode) (current_score : Z) (spec : ZRangeSpec)
    (query_start query_end : EloqString) : bool * nat * nat :=
  let start_node := mkNode (es_of_view (es_view query_start)) current_score in
  let end_node := mkNode (es_of_view (es_view query_end)) current_score in
  let pos_start :=
    if negative_ spec then score_lower_bound current_score s
    else if minex_ spec then upper_bound start_node s else lower_bound start_node s in
  let pos_end :=
    if positive_ spec then score_upper_bound current_score s
    else if maxex_ spec then lower_bound end_node s else upper_bound end_node s in
  let succeed :=
    match s !! pos_start with
    | None => false
    | Some n =>
        negb (dbl_ltb current_score (node_score_ n))
        && negb (bytes_ltb (es_view query_end) (es_view (node_field_ n)) && negb (positive_ spec))
    end in
  (succeed, pos_start, pos_end).

Definition lex_empty (spec : ZRangeSpec) (fsv ssv : bytes) : bool :=
  negb (negative_ spec) && negb (positive_ spec)
  && (bytes_ltb ssv fsv || (bool_decide (fsv = ssv) && (minex_ spec || maxex_ spec))).

(** The loop over the scores, upwards from [lex_start]. *)
Fixpoint lex_forward (fuel : nat) (s : list ZNode) (spec : ZRangeSpec) (qs qe : EloqString) (withscores : bool)
    (lex_start : nat) (offset limit : Z) (ans : list EloqString) : option (list EloqString * Z * Z) :=
  match fuel with
  | O => None
  | S fuel =>
      match s !! lex_start with
      | None => Some (ans, offset, limit)
      | Some n =>
          if limit =? 0 then Some (ans, offset, limit)
          else
            let current_score := node_score_ n in
            let '(succeed, fs, fe) := GetRangeByLexForCurrentScore s current_score spec qs qe in
            '(this_score_ans, offset, limit) ←
              if succeed : bool then EmplaceForwardElements s fs fe offset limit withscores else Some ([], offset, limit);
            lex_forward fuel s spec qs qe withscores (score_upper_bound current_score s) offset limit (ans ++ this_score_ans)
      end
  end.

(** And downwards; [base] is the position behind the one the iterator shows. *)
Fixpoint lex_reverse (fuel : nat) (s : list ZNode) (spec : ZRangeSpec) (qs qe : EloqString) (withscores : bool)
    (base : nat) (offset limit : Z) (ans : list EloqString) : option (list EloqString * Z * Z) :=
  match fuel with
  | O => None
  | S fuel =>
      match base with
      | O => Some (ans, offset, limit)
      | S p =>
          if limit =? 0 then Some (ans, offset, limit)
          else
            n ← s !! p;
            let current_score := node_score_ n in
            let '(succeed, fs, fe) := GetRangeByLexForCurrentScore s current_score spec qs qe in
            '(this_score_ans, offset, limit) ←
              if succeed : bool then EmplaceRevElements s fs fe offset limit withscores else Some ([], offset, limit);
            lex_reverse fuel s spec qs qe withscores (score_lower_bound current_score s) offset limit (ans ++ this_score_ans)
      end
  end.

Definition ZRangeByLex (o : RedisZsetObject) (arg : ZRangeConstraint) (spec : ZRangeSpec)
    : option (list EloqString * Z * Z) :=
  let s := z_ordered_set_ o in
  if null_ spec then Some ([], opt_offset_ arg, opt_limit_ arg)
  else
    qs ← get_string (opt_start_ spec);
    qe ← get_string (opt_end_ spec);
    if lex_empty spec (es_view qs) (es_view qe) then Some ([], opt_offset_ arg, opt_limit_ arg)
    else
      match direction_ arg with
      | ZRANGE_DIRECTION_REVERSE =>
          lex_reverse (S (length s)) s spec qs qe (opt_withscores_ arg) (length s) (opt_offset_ arg) (opt_limit_ arg) []
      | _ => lex_forward (S (length s)) s spec qs qe (opt_withscores_ arg) 0 (opt_offset_ arg) (opt_limit_ arg) []
      end.

Definition GetZrangeResult (o : RedisZsetObject) (arg : ZRangeConstraint) (spec : ZRangeSpec)
    : option (list EloqString * Z * Z) :=
  match rangetype_ arg with
  | ZRANGE_RANK => ZRangeByRank o arg spec
  | ZRANGE_SCORE => ZRangeByScore o arg spec
  | ZRANGE_LEX => ZRangeByLex o arg spec
  | ZRANGE_AUTO => Some ([], opt_offset_ arg, opt_limit_ arg)
  end.

(** The constraint of the command is left with what was not used up. *)
Definition Execute_ZRange (o : RedisZsetObject) (arg : ZRangeConstraint) (spec : ZRangeSpec)
    : option (RedisZsetResult * ZRangeConstraint) :=
  '(ans, offset, limit) ← GetZrangeResult o arg spec;
  Some (mkZsetResult RD_OK (ZRStrings ans),
        mkConstraint (opt_withscores_ arg) offset limit (rangetype_ arg) (direction_ arg)).

End Printing.

(** ** Counting *)

Definition ZCount (o : RedisZsetObject) (spec : ZRangeSpec) : option Z :=
  let s := z_ordered_set_ o in
  num_start ← get_double (opt_start_ spec);
  num_end ← get_double (opt_end_ spec);
  match score_positions s spec num_start num_end with
  | None => Some 0
  | Some (b, e) => i32 <$> zdistance b e
  end.

Definition Execute_ZCount (o : RedisZsetObject) (spec : ZRangeSpec) : option RedisZsetResult :=
  n ← ZCount o spec; Some (mkZsetResult RD_OK (ZRInt n)).

(** The loop of [ZLEXCOUNT] and of [ZRemRangeByLex]. *)
Fixpoint lex_count (fuel : nat) (s : list ZNode) (spec : ZRangeSpec) (qs qe : EloqString) (lex_start : nat) (count : Z)
    : option Z :=
  match fuel with
  | O => None
  | S fuel =>
      match s !! lex_start with
      | None => Some count
      | Some n =>
          let current_score := node_score_ n in
          let '(succeed, fs, fe) := GetRangeByLexForCurrentScore s current_score spec qs qe in
          d ← if succeed : bool then zdistance fs fe else Some 0;
          lex_count fuel s spec qs qe (score_upper_bound current_score s) (count + d)
      end
  end.

Definition Execute_ZLexCount (o : RedisZsetObject) (spec : ZRangeSpec) : option RedisZsetResult :=
  let s := z_ordered_set_ o in
  if null_ spec then Some (mkZsetResult RD_OK (ZRInt 0))
  else
    qs ← get_string (opt_start_ spec);
    qe ← get_string (opt_end_ spec);
    if lex_empty spec (es_view qs) (es_view qe) then Some (mkZsetResult RD_OK (ZRInt 0))
    else
      count ← lex_count (S (length s)) s spec qs qe 0 0;
      Some (mkZsetResult RD_OK (ZRInt (i32 count))).

(** ** ZREMRANGE *)

Definition ZRemRangeByScore (o : RedisZsetObject) (spec : ZRangeSpec) : option Z := ZCount o spec.

Definition ZRemRangeByLex (o : RedisZsetObject) (spec : ZRangeSpec) : option Z :=
  let s := z_ordered_set_ o in
  if null_ spec then Some 0
  else
    qs ← get_string (opt_start_ spec);
    qe ← get_string (opt_end_ spec);
    if lex_empty spec (es_view qs) (es_view qe) then Some 0
    else i32 <$> lex_count (S (length s)) s spec qs qe 0 0.

Definition ZRemRangeByRank (o : RedisZsetObject) (spec : ZRangeSpec) : option Z :=
  let s := z_ordered_set_ o in
  pos_start ← get_int (opt_start_ spec);
  pos_end ← get_int (opt_end_ spec);
  match rank_positions (i32 (zset_size o)) pos_start pos_end with
  | None => Some 0
  | Some (pos_start, pos_end) =>
      b ← zadvance 0 pos_start (length s);
      e ← zadvance 0 pos_end (length s);
      i32 <$> zdistance b e
  end.

Definition Execute_ZRemRange (o : RedisZsetObject) (range_type : ZRangeType) (spec : ZRangeSpec)
    : option (RedisZsetResult * CommandExecuteState) :=
  remove_cnt ←
    match range_type with
    | ZRANGE_SCORE => ZRemRangeByScore o spec
    | ZRANGE_LEX => ZRemRangeByLex o spec
    | ZRANGE_RANK => ZRemRangeByRank o spec
    | ZRANGE_AUTO => Some 0
    end;
  Some (mkZsetResult RD_OK (ZRInt remove_cnt),
        if remove_cnt <=? 0 then NoChange
        else if i32 (zset_size o) <=? remove_cnt then ModifiedToEmpty else Modified).

(** [n] times: the node at [p] leaves the table and the set. *)
Fixpoint erase_loop (n : nat) (p : nat) (o : RedisZsetObject) : option RedisZsetObject :=
  match n with
  | O => Some o
  | S n =>
      node ← z_ordered_set_ o !! p;
      _ ← z_hash_map_ o !! es_view (node_field_ node);
      erase_loop n p
        (mkZset (zs_erase p (z_ordered_set_ o)) (delete (es_view (node_field_ node)) (z_hash_map_ o))
           (u64 (zset_serialized_length_ o - znode_len (es_length (node_field_ node)))))
  end.

Definition erase_range (b e : nat) (o : RedisZsetObject) : option RedisZsetObject :=
  if (b <=? e)%nat then erase_loop (e - b) b o else None.

Fixpoint lex_erase (fuel : nat) (spec : ZRangeSpec) (qs qe : EloqString) (lex_start : nat) (o : RedisZsetObject)
    : option RedisZsetObject :=
  match fuel with
  | O => None
  | S fuel =>
      let s := z_ordered_set_ o in
      match s !! lex_start with
      | None => Some o
      | Some n =>
          let current_score := node_score_ n in
          let '(succeed, fs, fe) := GetRangeByLexForCurrentScore s current_score spec qs qe in
          o ← if succeed : bool then erase_range fs fe o else Some o;
          lex_erase fuel spec qs qe (score_upper_bound current_score (z_ordered_set_ o)) o
      end
  end.

Definition CommitZRemRange (o : RedisZsetObject) (range_type : ZRangeType) (spec : ZRangeSpec)
    : option (RedisZsetObject * bool) :=
  let s := z_ordered_set_ o in
  let done o := Some (o, zset_empty o) in
  match range_type with
  | ZRANGE_SCORE =>
      num_start ← get_double (opt_start_ spec);
      num_end ← get_double (opt_end_ spec);
      match score_positions s spec num_start num_end with
      | None => Some (o, false)
      | Some (b, e) => o ← erase_range b e o; done o
      end
  | ZRANGE_LEX =>
      qs ← get_string (opt_start_ spec);
      qe ← get_string (opt_end_ spec);
      if lex_empty spec (es_view qs) (es_view qe) then Some (o, false)
      else o ← lex_erase (S (length s)) spec qs qe 0 o; done o
  | ZRANGE_RANK =>
      pos_start ← get_int (opt_start_ spec);
      pos_end ← get_int (opt_end_ spec);
      match rank_positions (i32 (zset_size o)) pos_start pos_end with
      | None => Some (o, false)
      | Some (pos_start, pos_end) =>
          b ← zadvance 0 pos_start (length s);
          e ← zadvance 0 pos_end (length s);
          o ← erase_range b e o; done o
      end
  | ZRANGE_AUTO => Some (o, false)
  end.

(** ** Positions and filters *)

Lemma skip_while_app {A : Type} (f : A -> bool) (l1 l2 : list A) : (forall x, x ∈ l1 -> f x = true) ->
  skip_while f (l1 ++ l2) = (length l1 + skip_while f l2)%nat.
Proof.
  induction l1 as [|x l1 IH]; intros H; [done|]. cbn [app skip_while length]. rewrite (H x) by set_solver.
  cbn [Nat.add]. f_equal. apply IH. set_solver.
Qed.

Lemma skip_while_le {A : Type} (f : A -> bool) (l : list A) : (skip_while f l <= length l)%nat.
Proof. induction l as [|x l IH]; cbn; [done|]. destruct (f x); lia. Qed.

(** A test that goes down along [R]. *)
Definition downward {A : Type} (R : A -> A -> Prop) (f : A -> bool) (l : list A) : Prop :=
  forall a b, a ∈ l -> b ∈ l -> R a b -> f b = true -> f a = true.

(** Two such tests, one weaker than the other, cut a sorted list in three. *)
Lemma skip_range {A : Type} (R : A -> A -> Prop) (fb fe : A -> bool) (l : list A) :
  StronglySorted R l -> downward R fb l -> downward R fe l -> (forall x, x ∈ l -> fb x = true -> fe x = true) ->
  let b := skip_while fb l in
  let e := skip_while fe l in
  (b <= e)%nat
  /\ take (e - b) (drop b l) = filter (fun x => fb x = false /\ fe x = true) l
  /\ take b l ++ drop e l = filter (fun x => ~ (fb x = false /\ fe x = true)) l.
Proof.
  intros Hs Hb He Hbe. cbn zeta. destruct (skip_while_split R fb l Hs Hb) as [Hbt Hbd].
  destruct (skip_while_split R fe l Hs He) as [Het Hed].
  set (b := skip_while fb l) in *. set (e := skip_while fe l) in *.
  assert (e = b + skip_while fe (drop b l))%nat as E.
  { unfold e at 1. rewrite <- (take_drop b l) at 1. rewrite skip_while_app.
    - rewrite length_take. pose proof (skip_while_le fb l). fold b in H. lia.
    - intros x Hx. apply Hbe; [by apply (sublist_elem_of l _ x (sublist_take l b))|]. rewrite Hbt in Hx. by apply list_elem_of_filter in Hx as [? _]. }
  assert (take (e - b) (drop b l) = filter (fun x => fb x = false /\ fe x = true) l) as Em.
  { replace (e - b)%nat with (skip_while fe (drop b l)) by lia.
    destruct (skip_while_split R fe (drop b l)) as [-> _].
    - apply (StronglySorted_sublist R l); [apply sublist_drop|done].
    - intros x y Hx Hy. apply He; by apply (sublist_elem_of l _ _ (sublist_drop l b)).
    - rewrite Hbd, list_filter_filter. apply list_filter_iff. tauto. }
  split; [lia|]. split; [done|].
  assert (l = take b l ++ take (e - b) (drop b l) ++ drop e l) as El.
  { rewrite <- (take_drop b l) at 1. f_equal. rewrite <- (take_drop (e - b) (drop b l)) at 1. f_equal.
    rewrite drop_drop. f_equal. lia. }
  rewrite El at 3. rewrite !list.filter_app, Em.
  rewrite (filter_all _ (take b l)), (filter_none _ (filter _ l)), (filter_all _ (drop e l)); [done|..].
  - intros x Hx. rewrite Hed in Hx. apply list_elem_of_filter in Hx as [Hx _]. rewrite Hx. by intros [_ ?].
  - intros x [Hx _]%list_elem_of_filter. tauto.
  - intros x Hx. rewrite Hbt in Hx. apply list_elem_of_filter in Hx as [Hx _]. rewrite Hx. by intros [? _].
Qed.

Definition below_score (d : Z) (p : ZPair) : bool := dkey p.2 <? dkey d.
Definition upto_score (d : Z) (p : ZPair) : bool := dkey p.2 <=? dkey d.
Definition below_pair (q p : ZPair) : bool := bool_decide (zlt p q).
Definition upto_pair (q p : ZPair) : bool := negb (bool_decide (zlt q p)).

Section Positions.

Context (l : list ZPair) (Hl : zl_ok l).

Lemma score_lower_bound_of d : is_num d -> score_lower_bound d (node_of <$> l) = skip_while (below_score d) l.
Proof.
  intros Hd. unfold score_lower_bound. rewrite skip_while_fmap. apply skip_while_ext. intros p Hp.
  unfold below_score. cbn. by rewrite dbl_ltb_key by znum.
Qed.

Lemma score_upper_bound_of d : is_num d -> score_upper_bound d (node_of <$> l) = skip_while (upto_score d) l.
Proof.
  intros Hd. unfold score_upper_bound. rewrite skip_while_fmap. apply skip_while_ext. intros p Hp.
  unfold upto_score. cbn. rewrite dbl_ltb_key by znum. by rewrite <- Z.leb_antisym.
Qed.

Lemma lower_bound_of n : is_num (node_score_ n) -> lower_bound n (node_of <$> l) = skip_while (below_pair (pair_of n)) l.
Proof.
  intros Hn. rewrite lower_bound_pairs. apply skip_while_ext. intros p Hp. unfold below_pair. symmetry.
  assert (is_num (pair_of n).2) by done. case_bool_decide as H'; [by rewrite (proj2 (zltb_spec p _ ltac:(znum) ltac:(done)))|].
  symmetry. by apply zltb_false; [znum|..].
Qed.

Lemma upper_bound_of n : is_num (node_score_ n) -> upper_bound n (node_of <$> l) = skip_while (upto_pair (pair_of n)) l.
Proof.
  intros Hn. unfold upper_bound. rewrite skip_while_fmap. apply skip_while_ext. intros p Hp. unfold upto_pair.
  rewrite cmp_node_pairs, pair_of_node. f_equal. assert (is_num (pair_of n).2) by done.
  case_bool_decide as H'; [by apply zltb_spec; [|znum|]|]. by apply zltb_false; [|znum|].
Qed.

Lemma below_score_down d : downward zlt (below_score d) l.
Proof. intros p q _ _ H. unfold below_score. rewrite !Z.ltb_lt. unfold zlt in H. lia. Qed.
Lemma upto_score_down d : downward zlt (upto_score d) l.
Proof. intros p q _ _ H. unfold upto_score. rewrite !Z.leb_le. unfold zlt in H. lia. Qed.
Lemma below_pair_down q : downward zlt (below_pair q) l.
Proof. intros p r _ _ H. unfold below_pair. rewrite !bool_decide_eq_true. intros H'. by trans r. Qed.
Lemma upto_pair_down q : downward zlt (upto_pair q) l.
Proof. intros p r _ _ H. unfold upto_pair. rewrite !negb_true_iff, !bool_decide_eq_false. intros H' Hq. apply H'. by trans p. Qed.

End Positions.

(** Two positions that enclose the pairs with a property. *)
Definition cuts (l : list ZPair) (b e : nat) (P : ZPair -> Prop) `{!forall x, Decision (P x)} : Prop :=
  (b <= e <= length l)%nat /\ take (e - b) (drop b l) = filter P l /\ take b l ++ drop e l = filter (fun x => ~ P x) l.

Lemma skip_cuts (l : list ZPair) (fb fe : ZPair -> bool) (P : ZPair -> Prop) `{!forall x, Decision (P x)} :
  zl_ok l -> downward zlt fb l -> downward zlt fe l -> (forall x, x ∈ l -> fb x = true -> fe x = true) ->
  (forall x, P x <-> fb x = false /\ fe x = true) ->
  cuts l (skip_while fb l) (skip_while fe l) P.
Proof.
  intros Hl Hb He Hbe HP. destruct (skip_range zlt fb fe l (zl_sorted l Hl) Hb He Hbe) as (H1 & H2 & H3).
  split; [pose proof (skip_while_le fe l); lia|]. rewrite H2, H3.
  split; apply list_filter_iff; intros x; by rewrite (HP x).
Qed.

Lemma if_skip {A : Type} (c : bool) (f g : A -> bool) (l : list A) :
  (if c then skip_while f l else skip_while g l) = skip_while (if c then f else g) l.
Proof. by destruct c. Qed.

(** *** Scores *)

Definition in_scores (spec : ZRangeSpec) (lo hi : Z) (p : ZPair) : Prop :=
  (if minex_ spec then dkey lo < dkey p.2 else dkey lo <= dkey p.2)
  /\ (if maxex_ spec then dkey p.2 < dkey hi else dkey p.2 <= dkey hi).

#[global] Instance in_scores_dec spec lo hi p : Decision (in_scores spec lo hi p).
Proof. unfold in_scores. destruct (minex_ spec), (maxex_ spec); apply _. Defined.

(** The bounds [(x] and [(x] of the same [x] make the iterators cross when a
    member has the score [x]. *)
Definition uncrossed (spec : ZRangeSpec) (lo hi : Z) (l : list ZPair) : Prop :=
  ~ (minex_ spec = true /\ maxex_ spec = true /\ dkey lo = dkey hi /\ Exists (fun p : ZPair => dkey p.2 = dkey lo) l).

Lemma score_positions_of l spec lo hi : zl_ok l -> is_num lo -> is_num hi -> uncrossed spec lo hi l ->
  match score_positions (node_of <$> l) spec lo hi with
  | None => filter (in_scores spec lo hi) l = []
  | Some (b, e) => cuts l b e (in_scores spec lo hi)
  end.
Proof.
  intros Hl Hlo Hhi Hu. unfold score_positions. rewrite dbl_ltb_key by done.
  rewrite !score_lower_bound_of, !score_upper_bound_of by done.
  assert (forall p, p ∈ l -> minex_ spec = true -> maxex_ spec = true -> dkey lo = dkey hi -> dkey p.2 <> dkey lo) as Hu'.
  { intros p Hp H1 H2 H3 E. apply Hu. split_and!; try done. rewrite list.Exists_exists. by exists p. }
  destruct (Z.ltb_spec (dkey hi) (dkey lo)) as [Hlt|Hle].
  - apply filter_none. intros p _. unfold in_scores. destruct (minex_ spec), (maxex_ spec); lia.
  - rewrite !(if_skip (_ : bool)). apply skip_cuts; [done|..].
    { destruct (minex_ spec); auto using below_score_down, upto_score_down. }
    { destruct (maxex_ spec); auto using below_score_down, upto_score_down. }
    { intros p Hp. specialize (Hu' p Hp). revert Hu'. destruct (minex_ spec), (maxex_ spec); unfold below_score, upto_score;
        rewrite ?Z.ltb_lt, ?Z.leb_le; intuition lia. }
    intros p; unfold in_scores; destruct (minex_ spec), (maxex_ spec); unfold below_score, upto_score;
      rewrite ?Z.ltb_lt, ?Z.leb_le, ?Z.ltb_ge, ?Z.leb_gt; lia.
Qed.

(** *** Bytes *)

Definition in_lex (spec : ZRangeSpec) (lo hi : bytes) (k : bytes) : Prop :=
  (negative_ spec = true \/ (if minex_ spec then bytes_ltb lo k = true else bytes_ltb k lo = false))
  /\ (positive_ spec = true \/ (if maxex_ spec then bytes_ltb k hi = true else bytes_ltb hi k = false)).

#[global] Instance in_lex_dec spec lo hi k : Decision (in_lex spec lo hi k).
Proof. unfold in_lex. destruct (minex_ spec), (maxex_ spec); apply _. Defined.

Definition in_lex_at (spec : ZRangeSpec) (lo hi : bytes) (cs : Z) (p : ZPair) : Prop :=
  dkey p.2 = dkey cs /\ in_lex spec lo hi p.1.

#[global] Instance in_lex_at_dec spec lo hi cs p : Decision (in_lex_at spec lo hi cs p).
Proof. unfold in_lex_at. apply _. Defined.

Lemma bytes_le_lt a b c : bytes_ltb b a = false -> bytes_ltb b c = true -> bytes_ltb a c = true.
Proof.
  intros H1 H2. destruct (bytes_ltb a b) eqn:E; [by eapply bytes_ltb_trans|].
  by rewrite (bytes_ltb_total a b).
Qed.

Lemma below_pair_true q p : below_pair q p = true <-> dkey p.2 < dkey q.2 \/ dkey p.2 = dkey q.2 /\ bytes_ltb p.1 q.1 = true.
Proof. apply bool_decide_eq_true. Qed.

Lemma below_pair_false q p : below_pair q p = false <-> dkey q.2 < dkey p.2 \/ dkey p.2 = dkey q.2 /\ bytes_ltb p.1 q.1 = false.
Proof. unfold below_pair. rewrite bool_decide_eq_false. unfold zlt. destruct (bytes_ltb p.1 q.1); intuition lia. Qed.

Lemma upto_pair_true q p : upto_pair q p = true <-> dkey p.2 < dkey q.2 \/ dkey p.2 = dkey q.2 /\ bytes_ltb q.1 p.1 = false.
Proof. unfold upto_pair. rewrite negb_true_iff, bool_decide_eq_false. unfold zlt. destruct (bytes_ltb q.1 p.1); intuition lia. Qed.

Lemma upto_pair_false q p : upto_pair q p = false <-> dkey q.2 < dkey p.2 \/ dkey p.2 = dkey q.2 /\ bytes_ltb q.1 p.1 = true.
Proof. unfold upto_pair. rewrite negb_false_iff, bool_decide_eq_true. unfold zlt. intuition lia. Qed.

Definition lex_start_test (spec : ZRangeSpec) (lo : bytes) (cs : Z) : ZPair -> bool :=
  if negative_ spec then below_score cs else if minex_ spec then upto_pair (lo, cs) else below_pair (lo, cs).
Definition lex_end_test (spec : ZRangeSpec) (hi : bytes) (cs : Z) : ZPair -> bool :=
  if positive_ spec then upto_score cs else if maxex_ spec then below_pair (hi, cs) else upto_pair (hi, cs).

Lemma lex_tests_iff spec lo hi cs p :
  in_lex_at spec lo hi cs p <-> lex_start_test spec lo cs p = false /\ lex_end_test spec hi cs p = true.
Proof.
  unfold in_lex_at, in_lex, lex_start_test, lex_end_test.
  destruct (negative_ spec), (minex_ spec), (positive_ spec), (maxex_ spec); unfold below_score, upto_score;
    rewrite ?Z.ltb_ge, ?Z.leb_le, ?below_pair_true, ?below_pair_false, ?upto_pair_true, ?upto_pair_false; cbn [fst snd];
    intuition lia.
Qed.

Lemma lex_tests_le spec lo hi cs p : lex_empty spec lo hi = false ->
  lex_start_test spec lo cs p = true -> lex_end_test spec hi cs p = true.
Proof.
  unfold lex_empty, lex_start_test, lex_end_test.
  destruct (positive_ spec).
  { intros _. unfold upto_score. rewrite Z.leb_le.
    destruct (negative_ spec), (minex_ spec); unfold below_score; rewrite ?Z.ltb_lt, ?below_pair_true, ?upto_pair_true; cbn [fst snd]; lia. }
  destruct (negative_ spec); cbn [negb andb].
  { intros _. unfold below_score. rewrite Z.ltb_lt. destruct (maxex_ spec); rewrite ?below_pair_true, ?upto_pair_true; cbn [fst snd]; lia. }
  rewrite orb_false_iff, andb_false_iff, bool_decide_eq_false, orb_false_iff. intros [H1 H2].
  assert (minex_ spec || maxex_ spec = true -> bytes_ltb lo hi = true) as Hlt.
  { rewrite orb_true_iff. intros Hm. destruct (bytes_ltb lo hi) eqn:E; [done|]. pose proof (bytes_ltb_total lo hi E H1).
    destruct H2 as [?|[? ?]], Hm; congruence. }
  destruct (minex_ spec), (maxex_ spec); cbn [orb] in Hlt; rewrite ?below_pair_true, ?upto_pair_true; cbn [fst snd];
    (intros [H|[H H']]; [by left|right; split; [done|]]).
  - eapply bytes_le_lt; [exact H'|auto].
  - apply not_true_is_false. intros Hc. pose proof (bytes_ltb_trans _ _ _ (Hlt eq_refl) Hc). congruence.
  - eapply bytes_ltb_trans; [exact H'|auto].
  - apply not_true_is_false. intros Hc. pose proof (bytes_ltb_trans _ _ _ Hc H'). congruence.
Qed.

Lemma cuts_first l b e P `{!forall x, Decision (P x)} : cuts l b e P -> (b < e)%nat -> exists p, l !! b = Some p /\ P p.
Proof.
  intros (Hle & Hf & _) Hlt. destruct (lookup_lt_is_Some_2 l b) as [p Hp]; [lia|]. exists p. split; [done|].
  assert (p ∈ filter P l) as Hin.
  { rewrite <- Hf. apply (list_elem_of_lookup_2 _ 0%nat). rewrite lookup_take_lt by lia. by rewrite lookup_drop, Nat.add_0_r. }
  by apply list_elem_of_filter in Hin as [? _].
Qed.

(** The range of one score; when it is turned down there is nothing in it. *)
Lemma lex_positions_of l spec cs qs qe : zl_ok l -> is_num cs -> lex_empty spec (es_view qs) (es_view qe) = false ->
  let '(succeed, b, e) := GetRangeByLexForCurrentScore (node_of <$> l) cs spec qs qe in
  cuts l b e (in_lex_at spec (es_view qs) (es_view qe) cs) /\ (succeed = false -> b = e).
Proof.
  intros Hl Hc He. unfold GetRangeByLexForCurrentScore. cbn zeta.
  rewrite !score_lower_bound_of, !score_upper_bound_of, !lower_bound_of, !upper_bound_of by done.
  rewrite !if_skip. unfold pair_of. cbn [node_field_ node_score_ es_of_view es_view].
  change (if negative_ spec then _ else _) with (lex_start_test spec (es_view qs) cs).
  change (if positive_ spec then _ else _) with (lex_end_test spec (es_view qe) cs).
  set (b := skip_while (lex_start_test _ _ _) l). set (e := skip_while (lex_end_test _ _ _) l).
  assert (cuts l b e (in_lex_at spec (es_view qs) (es_view qe) cs)) as Hcut.
  { apply skip_cuts; [done|..].
    - unfold lex_start_test. destruct (negative_ spec), (minex_ spec); auto using below_score_down, upto_pair_down, below_pair_down.
    - unfold lex_end_test. destruct (positive_ spec), (maxex_ spec); auto using upto_score_down, upto_pair_down, below_pair_down.
    - intros p _. by apply lex_tests_le.
    - apply lex_tests_iff. }
  split; [done|]. intros Hs. destruct (decide (b < e)%nat) as [Hlt|]; [|destruct Hcut; lia]. exfalso.
  destruct (cuts_first l b e _ Hcut Hlt) as (p & Hp & Hk & Hlex). rewrite list_lookup_fmap, Hp in Hs. cbn in Hs.
  apply list_elem_of_lookup_2 in Hp. rewrite dbl_ltb_key in Hs by znum. rewrite Hk, Z.ltb_irrefl in Hs. cbn in Hs.
  apply negb_false_iff, andb_true_iff in Hs as [Hs Hpos]. apply negb_true_iff in Hpos.
  destruct Hlex as [_ [?|Hlex]]; [congruence|]. destruct (maxex_ spec); [|congruence].
  pose proof (bytes_ltb_trans _ _ _ Hs Hlex) as Hirr. by rewrite bytes_ltb_irrefl in Hirr.
Qed.

(** ** Pages *)

(** [LIMIT offset limit] of a list; a negative limit is none. *)
Definition page {A : Type} (offset limit : Z) (l : list A) : list A :=
  let l := drop (Z.to_nat offset) l in
  if limit <? 0 then l else take (Z.to_nat limit) l.

(** What is left of the offset and of the limit. *)
Definition offset_left {A : Type} (offset : Z) (l : list A) : Z := Z.max 0 (offset - zlen l).
Definition limit_left {A : Type} (offset limit : Z) (l : list A) : Z :=
  if limit <? 0 then limit else Z.max 0 (limit - zlen (drop (Z.to_nat offset) l)).

Lemma page_nil {A : Type} offset limit : page offset limit ([] : list A) = [].
Proof. unfold page. rewrite drop_nil. by destruct (limit <? 0); rewrite ?take_nil. Qed.

Lemma page_zero {A : Type} offset (l : list A) : page offset 0 l = [].
Proof. done. Qed.

Lemma page_all {A : Type} (l : list A) : page 0 (-1) l = l.
Proof. done. Qed.

Lemma page_app {A : Type} offset limit (l k : list A) : 0 <= offset ->
  page offset limit (l ++ k) = page offset limit l ++ page (offset_left offset l) (limit_left offset limit l) k.
Proof.
  intros Ho. unfold page, offset_left, limit_left. rewrite drop_app.
  replace (Z.to_nat (Z.max 0 (offset - zlen l))) with (Z.to_nat offset - length l)%nat by (unfold zlen; lia).
  set (l' := drop (Z.to_nat offset) l). destruct (Z.ltb_spec limit 0) as [Hlt|Hge].
  - by rewrite (proj2 (Z.ltb_lt limit 0)).
  - rewrite (proj2 (Z.ltb_ge (Z.max 0 (limit - zlen l')) 0)) by lia. rewrite take_app. f_equal. f_equal. unfold zlen. lia.
Qed.

Definition range_reply (fp : Z -> bytes) (withscores : bool) (l : list ZPair) : list EloqString :=
  mjoin ((fun p : ZPair => es_own p.1 :: (if withscores then [score_string fp p.2] else [])) <$> l).

Lemma range_reply_app fp ws l k : range_reply fp ws (l ++ k) = range_reply fp ws l ++ range_reply fp ws k.
Proof. unfold range_reply. by rewrite fmap_app, join_app. Qed.

Lemma node_reply_of fp ws p : fits p.1 ->
  node_reply fp ws (node_of p) = es_own p.1 :: (if ws then [score_string fp p.2] else []).
Proof. intros H. unfold node_reply. cbn [node_of node_field_ node_score_]. by rewrite es_clone_own. Qed.

Lemma emplace_loop_of fp ws l : Forall (fun p : ZPair => fits p.1) l -> forall limit, -1 <= limit ->
  emplace_loop fp (node_of <$> l) limit ws = (range_reply fp ws (page 0 limit l), limit_left 0 limit l).
Proof.
  induction 1 as [|p l Hp _ IH]; intros limit Hlim.
  - cbn [fmap list_fmap emplace_loop]. rewrite page_nil. unfold limit_left.
    change (zlen (drop (Z.to_nat 0) ([] : list ZPair))) with 0. destruct (Z.ltb_spec limit 0); [done|]. f_equal. lia.
  - cbn [fmap list_fmap emplace_loop]. rewrite node_reply_of by done. unfold limit_left, page. cbn [Z.to_nat drop].
    assert (limit = -1 \/ limit = 0 \/ 0 < limit) as [->|[->|Hpos]] by lia; [|done|].
    + cbn. change (-1 - 0) with (-1). rewrite IH by lia. done.
    + rewrite (proj2 (Z.ltb_lt 0 limit)), orb_true_r by done. rewrite IH by lia. unfold page, limit_left. cbn [Z.to_nat drop].
      rewrite !(proj2 (Z.ltb_ge _ 0)) by lia. replace (Z.to_nat limit) with (S (Z.to_nat (limit - 1))) by lia.
      cbn [take]. f_equal. change (Z.to_nat 0) with 0%nat. rewrite !drop_0, zlen_cons. pose proof (zlen_nonneg l). lia.
Qed.

Lemma zdistance_of b e : (b <= e)%nat -> zdistance b e = Some (Z.of_nat (e - b)).
Proof. intros H. unfold zdistance. by rewrite (proj2 (Nat.leb_le b e)). Qed.

Lemma zadvance_of b n size : 0 <= Z.of_nat b + n <= Z.of_nat size -> zadvance b n size = Some (Z.to_nat (Z.of_nat b + n)).
Proof.
  intros H. unfold zadvance. rewrite (proj2 (Z.ltb_ge _ 0)), (proj2 (Z.ltb_ge (Z.of_nat size) _)) by lia. done.
Qed.

Lemma reverse_take_drop {A : Type} k (r : list A) : (k <= length r)%nat ->
  reverse (take (length r - k) r) = drop k (reverse r).
Proof.
  intros Hk. rewrite <- (take_drop (length r - k) r) at 3. rewrite reverse_app. symmetry.
  apply drop_app_length'. rewrite length_reverse, length_drop. lia.
Qed.

Section Emplace.

Context (fp : Z -> bytes) (ws : bool) (l : list ZPair) (Hl : zl_ok l) (Hn : zlen l <= INT32_MAX).

Lemma range_fits k : k `sublist_of` l -> Forall (fun p : ZPair => fits p.1) k.
Proof.
  intros Hk. apply list.Forall_forall. intros p Hp. apply (zl_fits l); [done|]. by eapply sublist_elem_of.
Qed.

Lemma EmplaceForward_of b e offset limit : (b <= e <= length l)%nat -> 0 <= offset -> -1 <= limit ->
  let range := take (e - b) (drop b l) in
  EmplaceForwardElements fp (node_of <$> l) b e offset limit ws
  = Some (range_reply fp ws (page offset limit range), offset_left offset range, limit_left offset limit range).
Proof.
  intros Hbe Ho Hlim range. assert (length range = (e - b)%nat) as Hlen by (unfold range; rewrite length_take, length_drop; lia).
  unfold EmplaceForwardElements. rewrite zdistance_of by lia. cbn [fmap option_fmap option_map mbind option_bind].
  unfold INT32_MAX, zlen in Hn. rewrite i32_id by (mach; lia).
  unfold offset_left, limit_left, page. unfold zlen. rewrite Hlen, length_drop, Hlen. destruct (Z.leb_spec (Z.of_nat (e - b)) offset) as [Hle|Hgt].
  - rewrite (drop_ge range) by lia. rewrite take_nil. replace (e - b - Z.to_nat offset)%nat with 0%nat by lia.
    destruct (Z.ltb_spec limit 0); [f_equal; f_equal; f_equal; lia|]. f_equal. f_equal; [f_equal|]; lia || done.
  - rewrite length_fmap, zadvance_of by lia. cbn [mbind option_bind]. unfold znodes. rewrite <- fmap_drop, <- fmap_take.
    replace (take _ (drop _ l)) with (drop (Z.to_nat offset) range).
    2: { unfold range. rewrite skipn_firstn_comm, drop_drop. f_equal; [lia|f_equal; lia]. }
    rewrite emplace_loop_of; [|apply range_fits; unfold range; by rewrite sublist_drop, sublist_take, sublist_drop|done].
    unfold page, limit_left. change (Z.to_nat 0) with 0%nat. rewrite !drop_0. unfold zlen. rewrite length_drop, Hlen.
    destruct (Z.ltb_spec limit 0); f_equal; f_equal; f_equal; lia.
Qed.

Lemma EmplaceRev_of b e offset limit : (b <= e <= length l)%nat -> 0 <= offset -> -1 <= limit ->
  let range := reverse (take (e - b) (drop b l)) in
  EmplaceRevElements fp (node_of <$> l) b e offset limit ws
  = Some (range_reply fp ws (page offset limit range), offset_left offset range, limit_left offset limit range).
Proof.
  intros Hbe Ho Hlim range. set (r := take (e - b) (drop b l)) in *.
  assert (length r = (e - b)%nat) as Hr by (unfold r; rewrite length_take, length_drop; lia).
  assert (length range = (e - b)%nat) as Hlen by (unfold range; by rewrite length_reverse).
  unfold EmplaceRevElements. rewrite zdistance_of by lia. cbn [fmap option_fmap option_map mbind option_bind].
  unfold INT32_MAX, zlen in Hn. rewrite i32_id by (mach; lia).
  unfold offset_left, limit_left, page. unfold zlen. rewrite Hlen, length_drop, Hlen. destruct (Z.leb_spec (Z.of_nat (e - b)) offset) as [Hle|Hgt].
  - rewrite (drop_ge range) by lia. rewrite take_nil. replace (e - b - Z.to_nat offset)%nat with 0%nat by lia.
    destruct (Z.ltb_spec limit 0); [f_equal; f_equal; f_equal; lia|]. f_equal. f_equal; [f_equal|]; lia || done.
  - rewrite length_fmap, zadvance_of by lia. cbn [mbind option_bind]. unfold znodes. rewrite <- fmap_drop, <- fmap_take, <- fmap_reverse.
    replace (reverse (take _ (drop b l))) with (drop (Z.to_nat offset) range).
    2: { unfold range. rewrite <- reverse_take_drop by lia. unfold r at 2. rewrite take_take. f_equal. f_equal. lia. }
    rewrite emplace_loop_of; [| |done].
    2: { apply list.Forall_forall. intros p Hp. apply (sublist_elem_of range _ _ (sublist_drop _ _)) in Hp.
      unfold range in Hp. rewrite elem_of_reverse in Hp. assert (r `sublist_of` l) as Hsub by (unfold r; by rewrite sublist_take, sublist_drop).
      pose proof (range_fits r Hsub) as Hf. rewrite list.Forall_forall in Hf. by apply Hf. }
    unfold page, limit_left. change (Z.to_nat 0) with 0%nat. rewrite !drop_0. unfold zlen. rewrite length_drop, Hlen.
    destruct (Z.ltb_spec limit 0); f_equal; f_equal; f_equal; lia.
Qed.

End Emplace.

(** ** The loops over the scores *)

Section Lex.

Context (spec : ZRangeSpec) (qs qe : EloqString) (He : lex_empty spec (es_view qs) (es_view qe) = false).

Abbreviation inlex := (fun p : ZPair => in_lex spec (es_view qs) (es_view qe) p.1).

(** No score has members on both sides of the position. *)
Definition score_boundary (l : list ZPair) (i : nat) : Prop :=
  forall x y, x ∈ take i l -> y ∈ drop i l -> dkey x.2 < dkey y.2.

Lemma upto_boundary l d : zl_ok l -> score_boundary l (skip_while (upto_score d) l).
Proof.
  intros Hl x y. destruct (skip_while_split zlt (upto_score d) l (zl_sorted l Hl) (upto_score_down l d)) as [-> ->].
  intros [Hx _]%list_elem_of_filter [Hy _]%list_elem_of_filter. unfold upto_score in *. lia.
Qed.

Lemma below_boundary l d : zl_ok l -> score_boundary l (skip_while (below_score d) l).
Proof.
  intros Hl x y. destruct (skip_while_split zlt (below_score d) l (zl_sorted l Hl) (below_score_down l d)) as [-> ->].
  intros [Hx _]%list_elem_of_filter [Hy _]%list_elem_of_filter. unfold below_score in *. lia.
Qed.

(** The members of one score between two boundaries. *)
Lemma lex_slice l i j cs : (i <= j <= length l)%nat -> score_boundary l i -> score_boundary l j ->
  (forall x, x ∈ take (j - i) (drop i l) -> dkey x.2 = dkey cs) -> (i < j)%nat ->
  filter (in_lex_at spec (es_view qs) (es_view qe) cs) l = filter inlex (take (j - i) (drop i l)).
Proof.
  intros Hij Hi Hj Hm Hlt.
  assert (l = take i l ++ take (j - i) (drop i l) ++ drop j l) as E.
  { rewrite <- (take_drop i l) at 1. f_equal. rewrite <- (take_drop (j - i) (drop i l)) at 1. f_equal. rewrite drop_drop. f_equal. lia. }
  destruct (lookup_lt_is_Some_2 l i) as [p Hp]; [lia|].
  assert (p ∈ take (j - i) (drop i l)) as Hin.
  { apply (list_elem_of_lookup_2 _ 0%nat). rewrite lookup_take_lt by lia. by rewrite lookup_drop, Nat.add_0_r. }
  assert (p ∈ drop i l) as Hin1 by (by apply (sublist_elem_of _ _ p (sublist_take _ (j - i)))).
  assert (p ∈ take j l) as Hin2.
  { apply (list_elem_of_lookup_2 _ i). by rewrite lookup_take_lt by lia. }
  pose proof (Hm p Hin) as Hpk. rewrite E at 1. rewrite !list.filter_app.
  rewrite (filter_none _ (take i l)), (filter_none _ (drop j l)), app_nil_r.
  - cbn [app]. apply filter_ext_in. intros x Hx. unfold in_lex_at. rewrite (Hm x Hx). tauto.
  - intros x Hx [Hk _]. pose proof (Hj p x Hin2 Hx). lia.
  - intros x Hx [Hk _]. pose proof (Hi x p Hx Hin1). lia.
Qed.

(** From a boundary, the next one upwards. *)
Lemma next_score l i p : zl_ok l -> score_boundary l i -> l !! i = Some p ->
  let j := skip_while (upto_score p.2) l in
  (i < j <= length l)%nat /\ score_boundary l j /\ (forall x, x ∈ take (j - i) (drop i l) -> dkey x.2 = dkey p.2).
Proof.
  intros Hl Hi Hp. cbn zeta. set (j := skip_while _ l).
  destruct (skip_while_split zlt (upto_score p.2) l (zl_sorted l Hl) (upto_score_down l p.2)) as [Hlow _]. fold j in Hlow.
  assert (drop i l = p :: drop (S i) l) as Ed by (by apply drop_S).
  assert (p ∈ drop i l) as Hin by (rewrite Ed; left).
  assert (i < j)%nat as Hij.
  { unfold j. rewrite <- (take_drop i l), skip_while_app.
    - rewrite Ed. cbn [skip_while]. unfold upto_score at 1. rewrite Z.leb_refl. rewrite length_take.
      apply lookup_lt_Some in Hp. lia.
    - intros x Hx. unfold upto_score. pose proof (Hi x p Hx Hin). lia. }
  split_and!; [done|apply skip_while_le|by apply upto_boundary|].
  intros x Hx. assert (x ∈ drop i l) as Hxd by (by apply (sublist_elem_of _ _ x (sublist_take _ (j - i)))).
  assert (x ∈ take j l) as Hxj.
  { rewrite <- skipn_firstn_comm in Hx. by apply (sublist_elem_of _ _ x (sublist_drop _ i)). }
  rewrite Hlow in Hxj. apply list_elem_of_filter in Hxj as [Hxj _]. unfold upto_score in Hxj.
  enough (dkey p.2 <= dkey x.2) by lia.
  rewrite Ed in Hxd. apply elem_of_cons in Hxd as [->|Hxd]; [done|].
  assert (StronglySorted zlt (p :: drop (S i) l)) as Hs.
  { rewrite <- Ed. apply (StronglySorted_sublist zlt l); [apply sublist_drop|apply Hl]. }
  apply StronglySorted_cons in Hs as [Hs _]. rewrite list.Forall_forall in Hs. specialize (Hs x Hxd). unfold zlt in Hs. lia.
Qed.

(** And downwards. *)
Lemma prev_score l i p : zl_ok l -> score_boundary l (S i) -> l !! i = Some p ->
  let j := skip_while (below_score p.2) l in
  (j <= i < length l)%nat /\ score_boundary l j /\ (forall x, x ∈ take (S i - j) (drop j l) -> dkey x.2 = dkey p.2).
Proof.
  intros Hl Hi Hp. cbn zeta. set (j := skip_while _ l).
  destruct (skip_while_split zlt (below_score p.2) l (zl_sorted l Hl) (below_score_down l p.2)) as [Hlow Hhigh]. fold j in Hlow, Hhigh.
  apply lookup_lt_Some in Hp as Hlt.
  assert (j <= i)%nat as Hij.
  { destruct (decide (i < j)%nat) as [Hc|]; [|lia]. exfalso. assert (p ∈ take j l) as Hin
      by (apply (list_elem_of_lookup_2 _ i); by rewrite lookup_take_lt).
    rewrite Hlow in Hin. apply list_elem_of_filter in Hin as [Hin _]. unfold below_score in Hin. lia. }
  split_and!; [done|done|by apply below_boundary|].
  intros x Hx. assert (x ∈ drop j l) as Hxd by (by apply (sublist_elem_of _ _ x (sublist_take _ (S i - j)))).
  rewrite Hhigh in Hxd. apply list_elem_of_filter in Hxd as [Hxd _]. unfold below_score in Hxd.
  enough (dkey x.2 <= dkey p.2) by lia.
  rewrite <- skipn_firstn_comm in Hx. apply (sublist_elem_of _ _ x (sublist_drop _ j)) in Hx.
  rewrite (take_S_r l i p Hp) in Hx. apply elem_of_app in Hx as [Hx|Hx]; [|by apply list_elem_of_singleton in Hx as ->].
  pose proof (take_drop_middle l i p Hp) as E. pose proof (zl_sorted l Hl) as Hs. rewrite <- E in Hs.
  apply StronglySorted_app in Hs as (Hs & _ & _). specialize (Hs x p Hx ltac:(left)). unfold zlt in Hs. lia.
Qed.

Lemma drop_slice {A : Type} i j (l : list A) : (i <= j)%nat -> drop i l = take (j - i) (drop i l) ++ drop j l.
Proof. intros H. rewrite <- (take_drop (j - i) (drop i l)) at 1. f_equal. rewrite drop_drop. f_equal. lia. Qed.

Section Walk.

Context (fp : Z -> bytes) (ws : bool) (l : list ZPair) (Hl : zl_ok l) (Hn : zlen l <= INT32_MAX).

Lemma left_nil {A : Type} offset limit : 0 <= offset ->
  offset_left offset ([] : list A) = offset /\ (-1 <= limit -> limit_left offset limit ([] : list A) = limit).
Proof.
  intros Ho. unfold offset_left, limit_left. rewrite drop_nil. change (zlen ([] : list A)) with 0.
  split; [lia|]. destruct (Z.ltb_spec limit 0); lia.
Qed.

(** One score. *)
Lemma lex_step_of (rev : bool) i j cs offset limit : (i < j <= length l)%nat -> score_boundary l i -> score_boundary l j ->
  (forall x, x ∈ take (j - i) (drop i l) -> dkey x.2 = dkey cs) -> is_num cs -> 0 <= offset -> -1 <= limit ->
  let slice := filter inlex (take (j - i) (drop i l)) in
  let slice := if rev then reverse slice else slice in
  (let '(succeed, fs, fe) := GetRangeByLexForCurrentScore (node_of <$> l) cs spec qs qe in
   if succeed : bool
   then if rev then EmplaceRevElements fp (node_of <$> l) fs fe offset limit ws
        else EmplaceForwardElements fp (node_of <$> l) fs fe offset limit ws
   else Some ([], offset, limit))
  = Some (range_reply fp ws (page offset limit slice), offset_left offset slice, limit_left offset limit slice).
Proof.
  intros Hij Hi Hj Hm Hc Ho Hlim. cbn zeta. rewrite <- (lex_slice l i j cs) by (done || lia).
  pose proof (lex_positions_of l spec cs qs qe Hl Hc He) as H.
  destruct (GetRangeByLexForCurrentScore _ _ _ _ _) as [[succeed b] e]. destruct H as [(Hbe & Hf & _) Hs].
  destruct succeed.
  - destruct rev; [rewrite EmplaceRev_of by done|rewrite EmplaceForward_of by done]; by rewrite Hf.
  - rewrite <- Hf, (Hs eq_refl), Nat.sub_diag, take_0.
    assert ((if rev then reverse [] else []) = ([] : list ZPair)) as -> by (by destruct rev).
    destruct (left_nil (A := ZPair) offset limit Ho) as [-> ->]; [|done]. by rewrite page_nil.
Qed.

Lemma lex_forward_of : forall fuel i offset limit ans, score_boundary l i -> (length l - i < fuel)%nat -> 0 <= offset -> -1 <= limit ->
  exists offset' limit', lex_forward fp fuel (node_of <$> l) spec qs qe ws i offset limit ans
    = Some (ans ++ range_reply fp ws (page offset limit (filter inlex (drop i l))), offset', limit').
Proof.
  induction fuel as [|fuel IH]; intros i offset limit ans Hi Hfuel Ho Hlim; [lia|]. cbn [lex_forward].
  rewrite list_lookup_fmap. destruct (l !! i) as [p|] eqn:Hp; cbn [fmap option_fmap option_map].
  2: { apply lookup_ge_None in Hp. rewrite drop_ge by done. rewrite filter_nil, page_nil. exists offset, limit. by rewrite app_nil_r. }
  destruct (Z.eqb_spec limit 0) as [->|Hz].
  { exists offset, 0. by rewrite page_zero, app_nil_r. }
  destruct (next_score l i p Hl Hi Hp) as (Hij & Hj & Hm). set (j := skip_while _ l) in *.
  apply list_elem_of_lookup_2 in Hp as Hpl. cbn [node_of node_score_].
  pose proof (lex_step_of false i j p.2 offset limit Hij Hi Hj Hm ltac:(znum) Ho Hlim) as Hstep. cbn zeta in Hstep.
  destruct (GetRangeByLexForCurrentScore _ _ _ _ _) as [[succeed fs] fe]. cbn beta iota in Hstep. rewrite Hstep.
  cbn [mbind option_bind]. rewrite score_upper_bound_of by (done || znum). fold j.
  assert (filter inlex (drop i l) = filter inlex (take (j - i) (drop i l)) ++ filter inlex (drop j l)) as ->
    by (rewrite <- list.filter_app; f_equal; apply drop_slice; lia).
  rewrite page_app by done. rewrite range_reply_app, app_assoc.
  apply IH; [done|lia|unfold offset_left; lia|]. unfold limit_left. destruct (Z.ltb_spec limit 0); lia.
Qed.

Lemma lex_reverse_of : forall fuel i offset limit ans, score_boundary l i -> (i < fuel)%nat -> (i <= length l)%nat -> 0 <= offset -> -1 <= limit ->
  exists offset' limit', lex_reverse fp fuel (node_of <$> l) spec qs qe ws i offset limit ans
    = Some (ans ++ range_reply fp ws (page offset limit (reverse (filter inlex (take i l)))), offset', limit').
Proof.
  induction fuel as [|fuel IH]; intros i offset limit ans Hi Hfuel Hle Ho Hlim; [lia|]. cbn [lex_reverse].
  destruct i as [|i]. { exists offset, limit. change (take 0 l) with ([] : list ZPair). by rewrite filter_nil, reverse_nil, page_nil, app_nil_r. }
  destruct (Z.eqb_spec limit 0) as [->|Hz].
  { exists offset, 0. by rewrite page_zero, app_nil_r. }
  rewrite list_lookup_fmap. destruct (lookup_lt_is_Some_2 l i) as [p Hp]; [lia|]. rewrite Hp. cbn [fmap option_fmap option_map mbind option_bind].
  destruct (prev_score l i p Hl Hi Hp) as (Hij & Hj & Hm). set (j := skip_while _ l) in *.
  apply list_elem_of_lookup_2 in Hp as Hpl. cbn [node_of node_score_].
  pose proof (lex_step_of true j (S i) p.2 offset limit ltac:(lia) Hj Hi Hm ltac:(znum) Ho Hlim) as Hstep. cbn zeta in Hstep.
  destruct (GetRangeByLexForCurrentScore _ _ _ _ _) as [[succeed fs] fe]. cbn beta iota in Hstep. rewrite Hstep.
  cbn [mbind option_bind]. rewrite score_lower_bound_of by (done || znum). fold j.
  assert (reverse (filter inlex (take (S i) l)) = reverse (filter inlex (take (S i - j) (drop j l))) ++ reverse (filter inlex (take j l))) as ->.
  { rewrite <- reverse_app, <- list.filter_app. f_equal. f_equal. rewrite <- skipn_firstn_comm.
    rewrite <- (take_drop j (take (S i) l)) at 1. f_equal. rewrite take_take. f_equal. lia. }
  rewrite page_app by done. rewrite range_reply_app, app_assoc.
  apply IH; [done|lia|lia|unfold offset_left; lia|]. unfold limit_left. destruct (Z.ltb_spec limit 0); lia.
Qed.

Lemma lex_count_of : forall fuel i count, score_boundary l i -> (length l - i < fuel)%nat ->
  lex_count fuel (node_of <$> l) spec qs qe i count = Some (count + zlen (filter inlex (drop i l))).
Proof.
  induction fuel as [|fuel IH]; intros i count Hi Hfuel; [lia|]. cbn [lex_count].
  rewrite list_lookup_fmap. destruct (l !! i) as [p|] eqn:Hp; cbn [fmap option_fmap option_map].
  2: { apply lookup_ge_None in Hp. rewrite drop_ge by done. rewrite filter_nil. f_equal. change (zlen ([] : list ZPair)) with 0. lia. }
  destruct (next_score l i p Hl Hi Hp) as (Hij & Hj & Hm). set (j := skip_while _ l) in *.
  apply list_elem_of_lookup_2 in Hp as Hpl. cbn [node_of node_score_].
  pose proof (lex_positions_of l spec p.2 qs qe Hl ltac:(znum) He) as H.
  destruct (GetRangeByLexForCurrentScore _ _ _ _ _) as [[succeed b] e]. destruct H as [(Hbe & Hf & _) Hs].
  rewrite (lex_slice l i j p.2) in Hf by (done || lia).
  assert (Z.of_nat (e - b) = zlen (filter inlex (take (j - i) (drop i l)))) as Hd.
  { rewrite <- Hf. unfold zlen. rewrite length_take, length_drop. lia. }
  assert ((if succeed then zdistance b e else Some 0) = Some (Z.of_nat (e - b))) as ->.
  { destruct succeed; [apply zdistance_of; lia|]. by rewrite (Hs eq_refl), Nat.sub_diag. }
  cbn [mbind option_bind]. rewrite score_upper_bound_of by (done || znum). fold j.
  rewrite IH by (done || lia). f_equal. rewrite Hd, <- Z.add_assoc, <- zlen_app, <- list.filter_app.
  by rewrite <- (drop_slice i j l) by lia.
Qed.

End Walk.

End Lex.

Lemma lex_empty_none spec lo hi k : lex_empty spec lo hi = true -> ~ in_lex spec lo hi k.
Proof.
  unfold lex_empty, in_lex. rewrite !andb_true_iff, !negb_true_iff, orb_true_iff, andb_true_iff, bool_decide_eq_true, orb_true_iff.
  intros [[-> ->] H] [[?|H1] [?|H2]]; [done..|].
  assert (bytes_ltb k lo = false) as Hlo.
  { destruct (minex_ spec); [|done]. apply not_true_is_false. intros Hc. pose proof (bytes_ltb_trans _ _ _ H1 Hc) as Hi. by rewrite bytes_ltb_irrefl in Hi. }
  assert (bytes_ltb hi k = false) as Hhi.
  { destruct (maxex_ spec); [|done]. apply not_true_is_false. intros Hc. pose proof (bytes_ltb_trans _ _ _ H2 Hc) as Hi. by rewrite bytes_ltb_irrefl in Hi. }
  destruct H as [H|[-> H]].
  - pose proof (bytes_le_lt _ _ _ Hhi H). congruence || (by rewrite H0 in Hlo).
  - assert (k = hi) as -> by (by apply bytes_ltb_total). rewrite bytes_ltb_irrefl in *. destruct (minex_ spec), (maxex_ spec); naive_solver.
Qed.

(** ** Ranks *)

(** The pairs from rank [start] to rank [stop]; negative ranks count from the end. *)
Definition rank_slice {A : Type} (start stop : Z) (l : list A) : list A :=
  let n := zlen l in
  let lo := if start <? 0 then Z.max 0 (start + n) else start in
  let hi := if stop <? 0 then stop + n else Z.min stop (n - 1) in
  take (Z.to_nat (hi + 1 - lo)) (drop (Z.to_nat lo) l).

Lemma rank_positions_of {A : Type} (l : list A) start stop : is_i32 start -> is_i32 stop -> zlen l <= INT32_MAX ->
  match rank_positions (i32 (zlen l)) start stop with
  | None => rank_slice start stop l = []
  | Some (b, e) => 0 <= b < e /\ e <= zlen l /\ rank_slice start stop l = take (Z.to_nat (e - b)) (drop (Z.to_nat b) l)
  end.
Proof.
  intros Ha Hb Hn. pose proof (zlen_nonneg l) as Hp. unfold is_i32, INT32_MAX, INT32_MIN in *.
  rewrite (i32_id (zlen l)) by (mach; lia).
  assert (forall lo hi : Z, hi + 1 <= lo \/ zlen l <= lo -> take (Z.to_nat (hi + 1 - lo)) (drop (Z.to_nat lo) l) = []) as Hnil.
  { intros lo hi [H|H]; [by replace (Z.to_nat (hi + 1 - lo)) with 0%nat by lia|].
    rewrite drop_ge by (unfold zlen in *; lia). by rewrite take_nil. }
  set (lo := if start <? 0 then Z.max 0 (start + zlen l) else start).
  set (hi := if stop <? 0 then stop + zlen l else Z.min stop (zlen l - 1)).
  change (rank_slice start stop l) with (take (Z.to_nat (hi + 1 - lo)) (drop (Z.to_nat lo) l)).
  assert (rank_positions (zlen l) start stop = if (hi + 1 <=? lo) || (zlen l <=? lo) then None else Some (lo, hi + 1)) as ->.
  { unfold rank_positions. fold lo.
    assert ((if start <? 0 then (if i32 (start + zlen l) <? 0 then 0 else i32 (start + zlen l), false)
             else (start, (0 <? start) && (zlen l <=? start))) = (lo, negb (start <? 0) && (0 <? start) && (zlen l <=? start))) as ->.
    { unfold lo. destruct (Z.ltb_spec start 0); [|done]. rewrite (i32_id (start + zlen l)) by (mach; lia).
      destruct (Z.ltb_spec (start + zlen l) 0); f_equal; lia. }
    assert (0 <= lo /\ (negb (start <? 0) && (0 <? start) && (zlen l <=? start) = true -> zlen l <= lo)) as [Hlo Hout].
    { unfold lo. destruct (Z.ltb_spec start 0); cbn [negb andb]; lia. }
    destruct (negb (start <? 0) && (0 <? start) && (zlen l <=? start)) eqn:Eout.
    { rewrite (proj2 (Z.leb_le (zlen l) lo)), orb_true_r by auto. done. }
    assert (zlen l <= lo -> hi + 1 <= lo) as Hin.
    { unfold lo, hi in *. destruct (Z.ltb_spec start 0), (Z.ltb_spec stop 0); cbn [negb andb] in Eout; lia. }
    unfold hi in *. destruct (Z.ltb_spec stop 0) as [H2|H2].
    - rewrite (i32_id (stop + zlen l)), (i32_id (stop + zlen l + 1)) by (mach; lia).
      destruct (Z.ltb_spec (zlen l) (i32 (- stop))) as [H3|H3].
      + assert (stop + zlen l + 1 <= 0). { destruct (decide (stop = - 2 ^ 31)) as [->|]; [lia|]. rewrite i32_id in H3 by (mach; lia). lia. }
        rewrite (proj2 (Z.leb_le _ lo)) by lia. done.
      + destruct (Z.leb_spec (stop + zlen l + 1) lo); [done|]. cbn [orb]. rewrite (proj2 (Z.leb_gt (zlen l) lo)) by lia. done.
    - replace (if zlen l <=? stop then zlen l - 1 else stop) with (Z.min stop (zlen l - 1)) by (destruct (Z.leb_spec (zlen l) stop); lia).
      rewrite (i32_id (Z.min _ _ + 1)) by (mach; lia).
      destruct (Z.leb_spec (Z.min stop (zlen l - 1) + 1) lo); [done|]. cbn [orb]. rewrite (proj2 (Z.leb_gt (zlen l) lo)) by lia. done. }
  destruct (Z.leb_spec (hi + 1) lo); cbn [orb]; [apply Hnil; by left|].
  destruct (Z.leb_spec (zlen l) lo); [apply Hnil; by right|].
  split_and!; [| | |done]; unfold lo, hi; destruct (Z.ltb_spec start 0), (Z.ltb_spec stop 0); lia.
Qed.

Lemma rank_score_of fp score : is_num score -> rank_score fp score = score_string fp score.
Proof.
  intros Hs. unfold rank_score, score_string, d2string. destruct (dbl_eqb_inf score Hs) as [-> ->].
  destruct Hs as [Hu Hnan]. rewrite Hnan. destruct (dbl_isinf score) eqn:Ei; [|done]. cbn [andb].
  unfold dbl_isinf in Ei. destruct (dbl_sf score) as [|s| |] eqn:E; try done.
  rewrite (dbl_sign_inf score s E (conj Hu Hnan)). unfold dbl_ltb. rewrite E. by destruct s.
Qed.

(** ** What a range selects *)

Definition directed {A : Type} (arg : ZRangeConstraint) (l : list A) : list A :=
  match direction_ arg with ZRANGE_DIRECTION_REVERSE => reverse l | _ => l end.

Definition zrange_select (arg : ZRangeConstraint) (spec : ZRangeSpec) (l : list ZPair) : list ZPair :=
  match rangetype_ arg, opt_start_ spec, opt_end_ spec with
  | ZRANGE_RANK, BInt start, BInt stop => rank_slice start stop (directed arg l)
  | ZRANGE_SCORE, BDouble lo, BDouble hi => directed arg (filter (in_scores spec lo hi) l)
  | ZRANGE_LEX, BString lo, BString hi =>
      if null_ spec then [] else directed arg (filter (fun p : ZPair => in_lex spec (es_view lo) (es_view hi) p.1) l)
  | _, _, _ => []
  end.

(** The bounds are of the kind the range needs, and do not cross. *)
Definition spec_ok (range_type : ZRangeType) (spec : ZRangeSpec) (l : list ZPair) : Prop :=
  match range_type, opt_start_ spec, opt_end_ spec with
  | ZRANGE_RANK, BInt start, BInt stop => is_i32 start /\ is_i32 stop
  | ZRANGE_SCORE, BDouble lo, BDouble hi => is_num lo /\ is_num hi /\ uncrossed spec lo hi l
  | ZRANGE_LEX, BString _, BString _ => True
  | ZRANGE_LEX, _, _ => null_ spec = true
  | _, _, _ => False
  end.

(** What the parser lets through of LIMIT but for negative offsets and counts
    below -1; with ranks it refuses counts other than -1. *)
Definition limit_ok (arg : ZRangeConstraint) : Prop :=
  0 <= opt_offset_ arg /\ -1 <= opt_limit_ arg /\ (rangetype_ arg = ZRANGE_RANK -> opt_limit_ arg = -1).

(** Reverse ranges by rank do not use the offset, which is asserted to be zero
    there. *)
Definition offset_used (arg : ZRangeConstraint) : Z :=
  match rangetype_ arg, direction_ arg with
  | ZRANGE_RANK, ZRANGE_DIRECTION_REVERSE => 0
  | _, _ => opt_offset_ arg
  end.

Lemma cuts_range l b e P `{!forall x, Decision (P x)} : cuts l b e P -> take (e - b) (drop b l) = filter P l.
Proof. by intros (_ & ? & _). Qed.

Lemma zset_good_small o : zset_good o -> exists l, zl_ok l /\ o = zset_of l /\ zlen l <= INT32_MAX /\ zset_image_len l <= MAX_OBJECT_SIZE.
Proof.
  intros (l & Hl & -> & Hs). exists l. split_and!; [done|done| |done]. pose proof (zset_count_bound l).
  unfold MAX_OBJECT_SIZE in Hs. unfold INT32_MAX. lia.
Qed.

Lemma ZRangeByScore_of fp l arg spec lo hi : zl_ok l -> zlen l <= INT32_MAX -> 0 <= opt_offset_ arg -> -1 <= opt_limit_ arg ->
  opt_start_ spec = BDouble lo -> opt_end_ spec = BDouble hi -> is_num lo -> is_num hi -> uncrossed spec lo hi l ->
  exists offset limit, ZRangeByScore fp (zset_of l) arg spec
    = Some (range_reply fp (opt_withscores_ arg) (page (opt_offset_ arg) (opt_limit_ arg) (directed arg (filter (in_scores spec lo hi) l))), offset, limit).
Proof.
  intros Hl Hn Ho Hlim E1 E2 Hlo Hhi Hu. unfold ZRangeByScore. rewrite E1, E2. cbn [get_double mbind option_bind zset_of z_ordered_set_].
  pose proof (score_positions_of l spec lo hi Hl Hlo Hhi Hu) as H. destruct (score_positions _ _ _ _) as [[b e]|].
  - pose proof (cuts_range l b e _ H) as Hr. destruct H as (Hbe & _). unfold directed.
    destruct (direction_ arg); [rewrite EmplaceForward_of by done|rewrite EmplaceForward_of by done|rewrite EmplaceRev_of by done]; rewrite Hr; eauto.
  - rewrite H. unfold directed. destruct (direction_ arg); rewrite ?reverse_nil, page_nil; eauto.
Qed.

Lemma ZRangeByLex_of fp l arg spec lo hi : zl_ok l -> zlen l <= INT32_MAX -> 0 <= opt_offset_ arg -> -1 <= opt_limit_ arg ->
  opt_start_ spec = BString lo -> opt_end_ spec = BString hi -> null_ spec = false ->
  exists offset limit, ZRangeByLex fp (zset_of l) arg spec
    = Some (range_reply fp (opt_withscores_ arg) (page (opt_offset_ arg) (opt_limit_ arg)
        (directed arg (filter (fun p : ZPair => in_lex spec (es_view lo) (es_view hi) p.1) l))), offset, limit).
Proof.
  intros Hl Hn Ho Hlim E1 E2 E3. unfold ZRangeByLex. rewrite E1, E2, E3. cbn [get_string mbind option_bind zset_of z_ordered_set_].
  destruct (lex_empty spec (es_view lo) (es_view hi)) eqn:Ee.
  - rewrite filter_none by (intros p _; by apply lex_empty_none). unfold directed.
    destruct (direction_ arg); rewrite ?reverse_nil, page_nil; eauto.
  - rewrite length_fmap. assert (score_boundary l 0) as H0 by (intros x y Hx; by apply not_elem_of_nil in Hx).
    assert (score_boundary l (length l)) as H1 by (intros x y _; rewrite drop_ge by done; by intros ?%not_elem_of_nil).
    destruct (lex_forward_of spec lo hi Ee fp (opt_withscores_ arg) l Hl Hn (S (length l)) 0 (opt_offset_ arg) (opt_limit_ arg) []
      H0 ltac:(lia) Ho Hlim) as (o1 & l1 & Ef).
    destruct (lex_reverse_of spec lo hi Ee fp (opt_withscores_ arg) l Hl Hn (S (length l)) (length l) (opt_offset_ arg) (opt_limit_ arg) []
      H1 ltac:(lia) ltac:(lia) Ho Hlim) as (o2 & l2 & Er).
    rewrite take_ge in Er by done. rewrite Ef, Er. unfold directed. destruct (direction_ arg); eauto.
Qed.

Lemma rank_reply_of fp ws p : is_num p.2 -> fits p.1 ->
  rank_reply fp ws (node_of p) = es_own p.1 :: (if ws then [score_string fp p.2] else []).
Proof. intros Hn Hf. unfold rank_reply. cbn [node_of node_field_ node_score_]. by rewrite es_clone_own, rank_score_of. Qed.

Lemma rank_replies_of fp ws l k : zl_ok l -> (forall p, p ∈ k -> p ∈ l) ->
  mjoin (rank_reply fp ws <$> (node_of <$> k)) = range_reply fp ws k.
Proof.
  intros Hl Hk. unfold range_reply. f_equal. rewrite <- list_fmap_compose. apply list_fmap_ext. intros i p Hp.
  apply list_elem_of_lookup_2, Hk in Hp. apply rank_reply_of; [znum|by apply (zl_fits l)].
Qed.

Lemma znodes_of b e (l : list ZPair) : znodes b e (node_of <$> l) = node_of <$> take (e - b) (drop b l).
Proof. unfold znodes. by rewrite fmap_take, fmap_drop. Qed.

Lemma ZRangeByRank_of fp l arg spec start stop : zl_ok l -> zlen l <= INT32_MAX -> 0 <= opt_offset_ arg -> opt_limit_ arg = -1 ->
  rangetype_ arg = ZRANGE_RANK ->
  opt_start_ spec = BInt start -> opt_end_ spec = BInt stop -> is_i32 start -> is_i32 stop ->
  exists offset limit, ZRangeByRank fp (zset_of l) arg spec
    = Some (range_reply fp (opt_withscores_ arg) (page (offset_used arg) (-1) (rank_slice start stop (directed arg l))), offset, limit).
Proof.
  intros Hl Hn Ho Hlim Ht E1 E2 Ha Hb. unfold ZRangeByRank. rewrite E1, E2, Hlim. unfold offset_used. rewrite Ht. cbn [get_int mbind option_bind].
  assert (zlen (directed arg l) = zlen l) as Hd by (unfold directed, zlen; destruct (direction_ arg); by rewrite ?length_reverse).
  pose proof (rank_positions_of (directed arg l) start stop Ha Hb ltac:(lia)) as H. rewrite Hd in H.
  unfold zset_size. cbn [zset_of z_ordered_set_]. rewrite zlen_fmap.
  destruct (rank_positions (i32 (zlen l)) start stop) as [[b e]|].
  - destruct H as (Hbe & He & ->). unfold zlen in He. rewrite length_fmap, !zadvance_of by lia. cbn [mbind option_bind]. rewrite !Z.add_0_l.
    replace (Z.to_nat (e - b)) with (Z.to_nat e - Z.to_nat b)%nat by lia.
    unfold directed. destruct (direction_ arg); [rewrite EmplaceForward_of by (done || lia); eauto..|]. rewrite page_all, <- fmap_reverse, znodes_of.
    rewrite (rank_replies_of fp _ l) by (done || (intros p Hp; apply elem_of_reverse;
      apply (sublist_elem_of _ _ p (sublist_drop _ (Z.to_nat b))); by apply (sublist_elem_of _ _ p (sublist_take _ (Z.to_nat e - Z.to_nat b))))).
    eauto.
  - rewrite H, page_nil. eauto.
Qed.

Lemma Execute_ZRange_of fp l (arg : ZRangeConstraint) (spec : ZRangeSpec) :
  zl_ok l -> zlen l <= INT32_MAX -> limit_ok arg -> spec_ok (rangetype_ arg) spec l ->
  exists arg',
    Execute_ZRange fp (zset_of l) arg spec
    = Some (mkZsetResult RD_OK (ZRStrings (range_reply fp (opt_withscores_ arg)
              (page (offset_used arg) (opt_limit_ arg) (zrange_select arg spec l)))), arg').
Proof.
  intros Hl Hn Hlim Hs. unfold Execute_ZRange, GetZrangeResult, zrange_select.
  destruct Hlim as (Ho & Hl' & Hr). unfold spec_ok in Hs. destruct (rangetype_ arg) eqn:Et; [done|..].
  - destruct (opt_start_ spec) eqn:E1; [|done..]. destruct (opt_end_ spec) eqn:E2; [|done..]. destruct Hs.
    destruct (ZRangeByRank_of fp l arg spec _ _ Hl Hn Ho (Hr eq_refl) Et E1 E2) as (? & ? & ->); [done..|]. rewrite (Hr eq_refl). by eexists.
  - unfold offset_used. rewrite Et. destruct (opt_start_ spec) eqn:E1; [done| |done]. destruct (opt_end_ spec) eqn:E2; [done| |done]. destruct Hs as (? & ? & ?).
    destruct (ZRangeByScore_of fp l arg spec _ _ Hl Hn Ho Hl' E1 E2) as (? & ? & ->); [done..|]. by eexists.
  - unfold offset_used. rewrite Et. destruct (null_ spec) eqn:En.
    + unfold ZRangeByLex. rewrite En. destruct (opt_start_ spec), (opt_end_ spec); rewrite page_nil; by eexists.
    + destruct (opt_start_ spec) eqn:E1, (opt_end_ spec) eqn:E2; try done.
      destruct (ZRangeByLex_of fp l arg spec _ _ Hl Hn Ho Hl' E1 E2 En) as (? & ? & ->). by eexists.
Qed.

(** C16: ZRANGE by rank, score or bytes, in either direction, replies with exactly
    the members that the range selects, in order, cut by LIMIT, with their scores
    when asked.  The loops over the scores of a range by bytes end.  Left out are
    LIMIT with a negative offset or a count below -1, and the scores from (d to (d
    when a member has the score [d], for which the code has no result.  With ranks
    the only count is -1 (the parser refuses others); an offset, which an
    assertion excludes but the parser lets through, counts forwards and not in
    reverse ([offset_used]) where assertions are not compiled in.  The set is well formed and
    within the size limit, and the bounds are as the parser makes them. *)
Theorem zrange_correct fp (o : RedisZsetObject) (arg : ZRangeConstraint) (spec : ZRangeSpec) :
  zset_good o -> limit_ok arg -> spec_ok (rangetype_ arg) spec (zset_pairs o) ->
  exists arg',
    Execute_ZRange fp o arg spec
    = Some (mkZsetResult RD_OK (ZRStrings (range_reply fp (opt_withscores_ arg)
              (page (offset_used arg) (opt_limit_ arg) (zrange_select arg spec (zset_pairs o))))), arg').
Proof.
  intros (l & Hl & -> & Hn & _)%zset_good_small Hlim Hs. rewrite zset_pairs_of in *. by apply Execute_ZRange_of.
Qed.

(** ZRANGE z (1 +inf BYSCORE REV LIMIT 0 1 WITHSCORES, and ZRANGE z [a + BYLEX. *)
Definition example_scores : ZRangeSpec := mkSpec false true false false false (BDouble z_one) (BDouble dbl_inf).
Definition example_lex : ZRangeSpec := mkSpec false false true false true (BString (es_of_view (lit "a"))) (BString (es_of_view [])).

Lemma zrange_correct_witness : exists arg1 arg2,
  Execute_ZRange (fun _ => lit "2") z_ab (mkConstraint true 0 1 ZRANGE_SCORE ZRANGE_DIRECTION_REVERSE) example_scores
  = Some (mkZsetResult RD_OK (ZRStrings [es_own (lit "b"); es_own (lit "2")]), arg1)
  /\ Execute_ZRange (fun _ => []) z_ab (mkConstraint false 0 (-1) ZRANGE_LEX ZRANGE_DIRECTION_FORWARD) example_lex
  = Some (mkZsetResult RD_OK (ZRStrings [es_own (lit "a"); es_own (lit "b")]), arg2).
Proof.
  destruct (zrange_correct (fun _ => lit "2") z_ab (mkConstraint true 0 1 ZRANGE_SCORE ZRANGE_DIRECTION_REVERSE) example_scores
    z_ab_good ltac:(concrete) ltac:(split_and!; [concrete|concrete|by intros (_ & ? & _)])) as [arg1 H1].
  destruct (zrange_correct (fun _ => []) z_ab (mkConstraint false 0 (-1) ZRANGE_LEX ZRANGE_DIRECTION_FORWARD) example_lex
    z_ab_good ltac:(concrete) ltac:(exact I)) as [arg2 H2].
  exists arg1, arg2. split; [exact H1|exact H2].
Defined.

(** ** Removal *)

Lemma take_drop_filter {A : Type} `{EqDecision A} b e (l : list A) : NoDup l -> (b <= e)%nat ->
  take b l ++ drop e l = filter (fun x => x ∉ take (e - b) (drop b l)) l.
Proof.
  intros Hn Hbe. set (m := take (e - b) (drop b l)).
  assert (l = take b l ++ m ++ drop e l) as E by (rewrite <- (take_drop b l) at 1; f_equal; by apply drop_slice).
  rewrite E in Hn. apply list.NoDup_app in Hn as (_ & H1 & Hn). apply list.NoDup_app in Hn as (_ & H2 & _).
  rewrite E at 3. rewrite !list.filter_app, (filter_all _ (take b l)), (filter_none _ m), (filter_all _ (drop e l)); [done|..].
  - intros x Hx Hm. by apply (H2 x Hm).
  - intros x Hx Hm. by apply Hm.
  - intros x Hx Hm. apply (H1 x Hx). apply elem_of_app. by left.
Qed.

Lemma erase_loop_of n : forall p l, zl_ok l -> (p + n <= length l)%nat ->
  erase_loop n p (zset_of l) = Some (zset_of (take p l ++ drop (p + n) l)).
Proof.
  induction n as [|n IH]; intros p l Hl Hp; cbn [erase_loop].
  - by rewrite Nat.add_0_r, take_drop.
  - destruct (lookup_lt_is_Some_2 l p) as [[k v] Hk]; [lia|]. cbn [zset_of z_ordered_set_ z_hash_map_ zset_serialized_length_].
    rewrite list_lookup_fmap, Hk. cbn [fmap option_fmap option_map mbind option_bind node_of node_field_ fst es_view es_own].
    apply list_elem_of_lookup_2 in Hk as Hin. rewrite (proj2 (zl_lookup l k v Hl) Hin). cbn [mbind option_bind].
    change (ES (owned_type k) k) with (es_own k). rewrite es_length_own by (by apply (zl_fits l (k, v))).
    assert (zs_erase p (node_of <$> l) = node_of <$> zdel k l) as ->.
    { rewrite <- (zdel_at p k v l Hl Hk). unfold zs_erase. rewrite !delete_take_drop. by rewrite fmap_app, fmap_take, fmap_drop. }
    rewrite <- zdel_map, u64_sub_l, (zdel_len k v l) by done.
    replace (zset_image_len (zdel k l) + znode_len (zlen k) - znode_len (zlen k)) with (zset_image_len (zdel k l)) by lia.
    fold (zset_of (zdel k l)). pose proof (zdel_at p k v l Hl Hk) as Ed. rewrite delete_take_drop in Ed.
    rewrite IH; [|by apply zdel_ok|].
    + rewrite <- Ed. do 2 f_equal. apply lookup_lt_Some in Hk. rewrite take_app_length' by (rewrite length_take; lia).
      rewrite drop_app_ge by (rewrite length_take; lia). rewrite length_take, drop_drop. f_equal. f_equal. lia.
    + rewrite <- Ed, length_app, length_take, length_drop. lia.
Qed.

Lemma erase_range_of b e l : zl_ok l -> (b <= e <= length l)%nat -> erase_range b e (zset_of l) = Some (zset_of (take b l ++ drop e l)).
Proof.
  intros Hl Hbe. unfold erase_range. rewrite (proj2 (Nat.leb_le b e)) by lia. rewrite erase_loop_of by (done || lia). do 4 f_equal. lia.
Qed.

Section LexErase.

Context (spec : ZRangeSpec) (qs qe : EloqString) (He : lex_empty spec (es_view qs) (es_view qe) = false).

Abbreviation inlex := (fun p : ZPair => in_lex spec (es_view qs) (es_view qe) p.1).
Abbreviation outlex := (fun p : ZPair => ~ in_lex spec (es_view qs) (es_view qe) p.1).

(** After one score is done, the position above it. *)
Lemma lex_erase_step l i p : zl_ok l -> score_boundary l i -> l !! i = Some p ->
  let j := skip_while (upto_score p.2) l in
  let l' := filter (fun x => ~ in_lex_at spec (es_view qs) (es_view qe) p.2 x) l in
  let j' := skip_while (upto_score p.2) l' in
  take j' l' = take i l ++ filter outlex (take (j - i) (drop i l)) /\ drop j' l' = drop j l.
Proof.
  intros Hl Hi Hp. cbn zeta. destruct (next_score l i p Hl Hi Hp) as (Hij & Hj & Hm). set (j := skip_while _ l) in *.
  set (l' := filter _ l). assert (zl_ok l') as Hl' by (by apply zl_filter).
  destruct (skip_while_split zlt (upto_score p.2) l' (zl_sorted l' Hl') (upto_score_down l' p.2)) as [-> ->].
  destruct (skip_while_split zlt (upto_score p.2) l (zl_sorted l Hl) (upto_score_down l p.2)) as [H1 H2]. fold j in H1, H2.
  unfold l'. rewrite !list_filter_filter. split.
  - assert (take j l = take i l ++ take (j - i) (drop i l)) as Et.
    { rewrite <- skipn_firstn_comm. rewrite <- (take_drop i (take j l)) at 1. f_equal. rewrite take_take. f_equal. lia. }
    trans (filter (fun x => ~ in_lex_at spec (es_view qs) (es_view qe) p.2 x) (take j l)).
    { rewrite H1, list_filter_filter. apply list_filter_iff. tauto. }
    assert (p ∈ drop i l) as Hpd by (apply (list_elem_of_lookup_2 _ 0%nat); by rewrite lookup_drop, Nat.add_0_r).
    rewrite Et, list.filter_app. f_equal.
    + apply filter_all. intros x Hx [Hk _]. pose proof (Hi x p Hx Hpd). lia.
    + apply filter_ext_in. intros x Hx. unfold in_lex_at. rewrite (Hm x Hx). tauto.
  - rewrite H2. apply list_filter_iff. intros x. unfold in_lex_at, upto_score. rewrite Z.leb_gt. intuition lia.
Qed.

Lemma lex_erase_of : forall fuel i l, zl_ok l -> score_boundary l i -> (length l - i < fuel)%nat ->
  lex_erase fuel spec qs qe i (zset_of l) = Some (zset_of (take i l ++ filter outlex (drop i l))).
Proof.
  induction fuel as [|fuel IH]; intros i l Hl Hi Hfuel; [lia|]. cbn [lex_erase z_ordered_set_ zset_of].
  rewrite list_lookup_fmap. destruct (l !! i) as [p|] eqn:Hp; cbn [fmap option_fmap option_map].
  2: { apply lookup_ge_None in Hp. rewrite drop_ge by done. by rewrite filter_nil, app_nil_r, take_ge. }
  apply list_elem_of_lookup_2 in Hp as Hpl. cbn [node_of node_score_].
  destruct (lex_erase_step l i p Hl Hi Hp) as [Ht Hd]. destruct (next_score l i p Hl Hi Hp) as (Hij & Hj & Hm).
  set (j := skip_while (upto_score p.2) l) in *. set (l' := filter _ l) in *. assert (zl_ok l') as Hl' by (by apply zl_filter).
  pose proof (lex_positions_of l spec p.2 qs qe Hl ltac:(znum) He) as H.
  destruct (GetRangeByLexForCurrentScore _ _ _ _ _) as [[succeed b] e]. destruct H as [(Hbe & _ & Hr) Hs]. fold l' in Hr.
  fold (zset_of l). assert ((if succeed then erase_range b e (zset_of l) else Some (zset_of l)) = Some (zset_of l')) as ->.
  { rewrite <- Hr. destruct succeed; [by apply erase_range_of|]. by rewrite (Hs eq_refl), take_drop. }
  cbn [mbind option_bind]. cbn [zset_of z_ordered_set_]. rewrite score_upper_bound_of by (done || znum).
  fold (zset_of l'). set (j' := skip_while (upto_score p.2) l') in *. rewrite IH; [|done|by apply upto_boundary|].
  - rewrite Ht, Hd, <- app_assoc. do 3 f_equal. rewrite <- list.filter_app, <- drop_slice by lia. done.
  - apply (f_equal length) in Hd. rewrite !length_drop in Hd. lia.
Qed.

End LexErase.

(** What is left when some pairs go. *)
Definition unselected (sel l : list ZPair) : list ZPair := filter (fun p => p ∉ sel) l.

Lemma unselected_filter (P : ZPair -> Prop) `{!forall x, Decision (P x)} l : unselected (filter P l) l = filter (fun x => ~ P x) l.
Proof. apply filter_ext_in. intros x Hx. rewrite list_elem_of_filter. tauto. Qed.

Lemma zl_nodup_pairs l : zl_ok l -> NoDup l.
Proof. intros Hl. apply (NoDup_fmap_1 fst), Hl. Qed.

Lemma unselected_len sel l : NoDup l -> sel `sublist_of` l -> zlen (unselected sel l) = zlen l - zlen sel.
Proof.
  intros Hn Hs. assert (filter (fun p => p ∈ sel) l ≡ₚ sel) as Hp.
  { apply NoDup_Permutation; [by apply list.NoDup_filter|by eapply sublist_NoDup|]. intros p. rewrite list_elem_of_filter.
    split; [tauto|]. intros H. split; [done|]. by eapply sublist_elem_of. }
  pose proof (Permutation_length (filter_app_complement (fun p => p ∈ sel) l)) as H.
  rewrite length_app, (Permutation_length Hp) in H. unfold zlen, unselected. lia.
Qed.

Definition removal_verdict (sel rest : list ZPair) : CommandExecuteState :=
  match sel, rest with [], _ => NoChange | _, [] => ModifiedToEmpty | _, _ => Modified end.

Lemma removal_verdict_of sel l : NoDup l -> sel `sublist_of` l -> zlen l <= INT32_MAX ->
  (if zlen sel <=? 0 then NoChange else if i32 (zlen l) <=? zlen sel then ModifiedToEmpty else Modified)
  = removal_verdict sel (unselected sel l).
Proof.
  intros Hn Hs Hl. pose proof (unselected_len sel l Hn Hs) as H. pose proof (zlen_nonneg l).
  unfold INT32_MAX in Hl. rewrite i32_id by (mach; lia).
  destruct sel as [|s sel]; [done|]. rewrite zlen_cons in *. pose proof (zlen_nonneg sel).
  rewrite (proj2 (Z.leb_gt _ 0)) by lia. unfold removal_verdict.
  destruct (unselected (s :: sel) l) as [|r rest]; [rewrite (proj2 (Z.leb_le _ _)); [done|]|rewrite (proj2 (Z.leb_gt _ _)); [done|]].
  - change (zlen ([] : list ZPair)) with 0 in H. lia.
  - rewrite zlen_cons in H. pose proof (zlen_nonneg rest). lia.
Qed.

Definition forward_range (range_type : ZRangeType) : ZRangeConstraint :=
  mkConstraint false 0 (-1) range_type ZRANGE_DIRECTION_FORWARD.

Abbreviation selected rt spec l := (zrange_select (forward_range rt) spec l).

Lemma selected_sublist rt spec l : selected rt spec l `sublist_of` l.
Proof.
  unfold zrange_select, directed. destruct rt, (opt_start_ spec), (opt_end_ spec); try apply sublist_nil_l.
  - unfold rank_slice. cbn. etrans; [apply sublist_take|apply sublist_drop].
  - apply sublist_filter.
  - destruct (null_ spec); [apply sublist_nil_l|apply sublist_filter].
Qed.

(** How many members a range by score, bytes or rank holds. *)
Lemma ZCount_of l spec : zl_ok l -> zlen l <= INT32_MAX -> spec_ok ZRANGE_SCORE spec l ->
  ZCount (zset_of l) spec = Some (zlen (selected ZRANGE_SCORE spec l)).
Proof.
  intros Hl Hn Hs. unfold ZCount, zrange_select, directed. cbn [forward_range rangetype_ direction_]. unfold spec_ok in Hs.
  destruct (opt_start_ spec) as [|lo|]; try done. destruct (opt_end_ spec) as [|hi|]; try done. destruct Hs as (Hlo & Hhi & Hu).
  cbn [get_double mbind option_bind zset_of z_ordered_set_].
  pose proof (score_positions_of l spec lo hi Hl Hlo Hhi Hu) as H. destruct (score_positions _ _ _ _) as [[b e]|]; [|by rewrite H].
  destruct H as (Hbe & <- & _). rewrite zdistance_of by lia. cbn [fmap option_fmap option_map].
  unfold zlen, INT32_MAX in *. rewrite length_take, length_drop, i32_id by (mach; lia). f_equal. lia.
Qed.

Lemma lex_count_all l spec lo hi : zl_ok l -> lex_empty spec (es_view lo) (es_view hi) = false ->
  lex_count (S (length (node_of <$> l))) (node_of <$> l) spec lo hi 0 0
  = Some (zlen (filter (fun p : ZPair => in_lex spec (es_view lo) (es_view hi) p.1) l)).
Proof.
  intros Hl He. rewrite length_fmap, lex_count_of; [done|done|done| |lia]. intros x y Hx. by apply not_elem_of_nil in Hx.
Qed.

Lemma filter_zlen (P : ZPair -> Prop) `{!forall x, Decision (P x)} l : zlen (filter P l) <= zlen l.
Proof. unfold zlen. pose proof (length_filter P l). lia. Qed.

Lemma ZRemRangeByLex_of l spec : zl_ok l -> zlen l <= INT32_MAX -> spec_ok ZRANGE_LEX spec l ->
  ZRemRangeByLex (zset_of l) spec = Some (zlen (selected ZRANGE_LEX spec l))
  /\ Execute_ZLexCount (zset_of l) spec = Some (mkZsetResult RD_OK (ZRInt (zlen (selected ZRANGE_LEX spec l)))).
Proof.
  intros Hl Hn Hs. unfold ZRemRangeByLex, Execute_ZLexCount, zrange_select, directed. cbn [forward_range rangetype_ direction_].
  unfold spec_ok in Hs. destruct (null_ spec) eqn:En; [by destruct (opt_start_ spec), (opt_end_ spec)|].
  destruct (opt_start_ spec) as [| |lo]; try done. destruct (opt_end_ spec) as [| |hi]; try done.
  cbn [get_string mbind option_bind zset_of z_ordered_set_].
  destruct (lex_empty spec (es_view lo) (es_view hi)) eqn:Ee.
  - by rewrite filter_none by (intros p _; by apply lex_empty_none).
  - rewrite lex_count_all by done. cbn [fmap option_fmap option_map mbind option_bind].
    set (l' := filter _ l). assert (0 <= zlen l' <= zlen l) by (split; [apply zlen_nonneg|apply filter_zlen]).
    unfold INT32_MAX in Hn. by rewrite i32_id by (mach; lia).
Qed.

Lemma ZRemRangeByRank_of l spec : zl_ok l -> zlen l <= INT32_MAX -> spec_ok ZRANGE_RANK spec l ->
  ZRemRangeByRank (zset_of l) spec = Some (zlen (selected ZRANGE_RANK spec l)).
Proof.
  intros Hl Hn Hs. unfold ZRemRangeByRank, zrange_select, directed. cbn [forward_range rangetype_ direction_]. unfold spec_ok in Hs.
  destruct (opt_start_ spec) as [start| |]; try done. destruct (opt_end_ spec) as [stop| |]; try done. destruct Hs as [Ha Hb].
  cbn [get_int mbind option_bind]. unfold zset_size. cbn [zset_of z_ordered_set_]. rewrite zlen_fmap.
  pose proof (rank_positions_of l start stop Ha Hb Hn) as H. destruct (rank_positions _ _ _) as [[b e]|]; [|by rewrite H].
  destruct H as (Hbe & He & ->). unfold zlen, INT32_MAX in *. rewrite length_fmap, !zadvance_of by lia. cbn [mbind option_bind].
  rewrite zdistance_of by lia. cbn [fmap option_fmap option_map]. rewrite length_take, length_drop, i32_id by (mach; lia). f_equal. lia.
Qed.

Lemma zset_empty_list l : zset_empty (zset_of l) = match l with [] => true | _ => false end.
Proof. by destruct l. Qed.

Lemma erase_selected l b e sel : zl_ok l -> (b <= e <= length l)%nat -> take (e - b) (drop b l) = sel ->
  erase_range b e (zset_of l) = Some (zset_of (unselected sel l)).
Proof.
  intros Hl Hbe <-. rewrite erase_range_of by done. unfold unselected. by rewrite <- take_drop_filter by (lia || by apply zl_nodup_pairs).
Qed.

Lemma CommitZRemRange_of l rt spec : zl_ok l -> zlen l <= INT32_MAX -> spec_ok rt spec l -> selected rt spec l <> [] ->
  let o' := zset_of (unselected (selected rt spec l) l) in
  CommitZRemRange (zset_of l) rt spec = Some (o', zset_empty o').
Proof.
  intros Hl Hn Hs Hne. cbn zeta. unfold CommitZRemRange, zrange_select, directed in *. cbn [forward_range rangetype_ direction_] in *.
  unfold spec_ok in Hs. destruct rt; [done|..].
  - destruct (opt_start_ spec) as [start| |]; try done. destruct (opt_end_ spec) as [stop| |]; try done. destruct Hs as [Ha Hb].
    cbn [get_int mbind option_bind]. unfold zset_size. cbn [z_ordered_set_ zset_of]. rewrite zlen_fmap. fold (zset_of l).
    pose proof (rank_positions_of l start stop Ha Hb Hn) as H. destruct (rank_positions _ _ _) as [[b e]|]; [|done].
    destruct H as (Hbe & He & Hsel). unfold zlen in He. rewrite length_fmap, !zadvance_of by lia. cbn [mbind option_bind].
    rewrite !Z.add_0_l, (erase_selected l _ _ (rank_slice start stop l)); [done|done|lia|]. rewrite Hsel. f_equal. lia.
  - destruct (opt_start_ spec) as [|lo|]; try done. destruct (opt_end_ spec) as [|hi|]; try done. destruct Hs as (Hlo & Hhi & Hu).
    cbn [get_double mbind option_bind]. cbn [z_ordered_set_ zset_of]. fold (zset_of l).
    pose proof (score_positions_of l spec lo hi Hl Hlo Hhi Hu) as H. destruct (score_positions _ _ _ _) as [[b e]|]; [|done].
    destruct H as (Hbe & Hsel & _). by rewrite (erase_selected l b e _ Hl Hbe Hsel).
  - destruct (opt_start_ spec) as [| |lo], (opt_end_ spec) as [| |hi]; try done. destruct (null_ spec); [done|].
    cbn [get_string mbind option_bind]. destruct (lex_empty spec (es_view lo) (es_view hi)) eqn:Ee.
    { destruct Hne. apply filter_none. intros p _. by apply lex_empty_none. }
    cbn [z_ordered_set_ zset_of]. fold (zset_of l). rewrite length_fmap, lex_erase_of; [|done|done| |lia].
    + cbn [mbind option_bind]. rewrite take_0, drop_0. cbn [app]. by rewrite unselected_filter.
    + intros x y Hx. by apply not_elem_of_nil in Hx.
Qed.

Lemma Execute_ZRemRange_of l rt spec : zl_ok l -> zlen l <= INT32_MAX -> spec_ok rt spec l ->
  let sel := selected rt spec l in
  Execute_ZRemRange (zset_of l) rt spec = Some (mkZsetResult RD_OK (ZRInt (zlen sel)), removal_verdict sel (unselected sel l)).
Proof.
  intros Hl Hn Hok. cbn zeta. unfold Execute_ZRemRange, zset_size. cbn [zset_of z_ordered_set_]. rewrite zlen_fmap. fold (zset_of l).
  rewrite <- removal_verdict_of by (done || apply selected_sublist || by apply zl_nodup_pairs).
  destruct rt; [done|by rewrite ZRemRangeByRank_of| |by rewrite (proj1 (ZRemRangeByLex_of l spec Hl Hn Hok))].
  unfold ZRemRangeByScore. by rewrite ZCount_of.
Qed.

(** C17: ZREMRANGEBYRANK, BYSCORE and BYLEX answer how many members the range
    holds; the commit of an announced change removes exactly those, and the
    verdict says whether nothing, something or everything goes.  Left out are the
    scores from (d to (d when a member has the score [d], for which the code has
    no result.  The set is well formed and within the size limit, and the bounds
    are as the parser makes them. *)
Theorem zremrange_agrees (o : RedisZsetObject) (range_type : ZRangeType) (spec : ZRangeSpec) :
  zset_good o -> spec_ok range_type spec (zset_pairs o) ->
  let sel := selected range_type spec (zset_pairs o) in
  let rest := unselected sel (zset_pairs o) in
  Execute_ZRemRange o range_type spec = Some (mkZsetResult RD_OK (ZRInt (zlen sel)), removal_verdict sel rest)
  /\ (removal_verdict sel rest <> NoChange ->
      exists o', CommitZRemRange o range_type spec = Some (o', match rest with [] => true | _ => false end)
        /\ zset_good o' /\ zset_pairs o' = rest).
Proof.
  intros (l & Hl & -> & Hn & Hs)%zset_good_small Hok. rewrite zset_pairs_of in *. cbn zeta. split.
  - by apply Execute_ZRemRange_of.
  - intros Hv. rewrite CommitZRemRange_of; [|done..|by intros E; rewrite E in Hv]. rewrite zset_empty_list.
    eexists. split; [done|]. rewrite zset_pairs_of. split; [|done]. by apply (zset_of_sublist l); [apply sublist_filter|..].
Qed.

Lemma zremrange_agrees_witness :
  Execute_ZRemRange z_ab ZRANGE_SCORE example_scores = Some (mkZsetResult RD_OK (ZRInt 1), Modified)
  /\ exists o', CommitZRemRange z_ab ZRANGE_SCORE example_scores = Some (o', false) /\ zset_good o' /\ zset_pairs o' = [(lit "a", z_one)].
Proof.
  destruct (zremrange_agrees z_ab ZRANGE_SCORE example_scores z_ab_good
    ltac:(split_and!; [concrete|concrete|by intros (_ & ? & _)])) as [H1 H2].
  split; [exact H1|]. exact (H2 ltac:(vm_compute; discriminate)).
Defined.

(** ZCOUNT and ZLEXCOUNT answer how many members have a score, or bytes,
    between the bounds. *)
Theorem zcount_correct (o : RedisZsetObject) (spec : ZRangeSpec) (lo hi : Z) (slo shi : EloqString) :
  zset_good o ->
  (opt_start_ spec = BDouble lo -> opt_end_ spec = BDouble hi -> is_num lo -> is_num hi -> uncrossed spec lo hi (zset_pairs o) ->
   Execute_ZCount o spec = Some (mkZsetResult RD_OK (ZRInt (Z.of_nat (size (filter (in_scores spec lo hi) (z_hash_map_ o)))))))
  /\ (opt_start_ spec = BString slo -> opt_end_ spec = BString shi -> null_ spec = false ->
      Execute_ZLexCount o spec = Some (mkZsetResult RD_OK (ZRInt (Z.of_nat (size
        (filter (fun p : ZPair => in_lex spec (es_view slo) (es_view shi) p.1) (z_hash_map_ o))))))).
Proof.
  intros (l & Hl & -> & Hn & _)%zset_good_small. cbn [z_hash_map_ zset_of]. fold (zset_of l). split.
  - intros E1 E2 Hlo Hhi Hu. rewrite zset_pairs_of in Hu. unfold Execute_ZCount. rewrite ZCount_of by (done || unfold spec_ok; by rewrite E1, E2).
    cbn [mbind option_bind]. unfold zrange_select, directed. cbn. rewrite E1, E2. by rewrite zl_filter_size.
  - intros E1 E2 E3. rewrite (proj2 (ZRemRangeByLex_of l spec Hl Hn ltac:(unfold spec_ok; by rewrite E1, E2))).
    unfold zrange_select, directed. cbn. rewrite E1, E2, E3. by rewrite zl_filter_size.
Qed.

Lemma zcount_correct_witness :
  Execute_ZCount z_ab example_scores = Some (mkZsetResult RD_OK (ZRInt 1))
  /\ Execute_ZLexCount z_ab example_lex = Some (mkZsetResult RD_OK (ZRInt 2)).
Proof.
  split.
  - exact (proj1 (zcount_correct z_ab example_scores z_one dbl_inf (es_of_view []) (es_of_view []) z_ab_good)
      eq_refl eq_refl ltac:(concrete) ltac:(concrete) ltac:(by intros (_ & ? & _))).
  - exact (proj2 (zcount_correct z_ab example_lex z_one dbl_inf (es_of_view (lit "a")) (es_of_view []) z_ab_good) eq_refl eq_refl eq_refl).
Defined.

(** ** Bounds the code does not expect *)

(** C37: for the empty range from (d to (d, ZCOUNT, ZREMRANGEBYSCORE and a range by
    score never get a result when a member has the score [d]: the first iterator
    lies behind the second.  [ZRangeByLex] tests for this case. *)
Theorem crossed_scores_stuck fp (o : RedisZsetObject) (arg : ZRangeConstraint) (spec : ZRangeSpec) (d : Z) (k : bytes) :
  zset_good o -> is_num d -> z_hash_map_ o !! k = Some d ->
  opt_start_ spec = BDouble d -> opt_end_ spec = BDouble d -> minex_ spec = true -> maxex_ spec = true ->
  rangetype_ arg = ZRANGE_SCORE ->
  Execute_ZCount o spec = None /\ Execute_ZRemRange o ZRANGE_SCORE spec = None /\ Execute_ZRange fp o arg spec = None.
Proof.
  intros (l & Hl & -> & Hn & _)%zset_good_small Hd Hk E1 E2 E3 E4 E5. apply zl_lookup in Hk; [|done].
  assert (cuts l (skip_while (below_score d) l) (skip_while (upto_score d) l) (fun p => dkey p.2 = dkey d)) as Hc.
  { apply skip_cuts; auto using below_score_down, upto_score_down; unfold below_score, upto_score; intros p; [lia|].
    rewrite Z.ltb_ge, Z.leb_le. lia. }
  assert (skip_while (below_score d) l < skip_while (upto_score d) l)%nat as Hlt.
  { destruct Hc as (Hbe & Hf & _). assert ((k, d) ∈ filter (fun p : ZPair => dkey p.2 = dkey d) l) as Hin by (by apply list_elem_of_filter).
    rewrite <- Hf in Hin. destruct (decide (skip_while (below_score d) l < skip_while (upto_score d) l)%nat) as [|Hge]; [done|].
    replace (_ - _)%nat with 0%nat in Hin by lia. rewrite take_0 in Hin. by apply not_elem_of_nil in Hin. }
  assert (score_positions (node_of <$> l) spec d d = Some (skip_while (upto_score d) l, skip_while (below_score d) l)) as Ep.
  { unfold score_positions. rewrite dbl_ltb_key, Z.ltb_irrefl, E3, E4 by done. by rewrite score_upper_bound_of, score_lower_bound_of. }
  assert (zdistance (skip_while (upto_score d) l) (skip_while (below_score d) l) = None) as Ez.
  { unfold zdistance. by rewrite (proj2 (Nat.leb_gt _ _)). }
  assert (ZCount (zset_of l) spec = None) as Ec.
  { unfold ZCount. rewrite E1, E2. cbn [get_double mbind option_bind zset_of z_ordered_set_]. by rewrite Ep, Ez. }
  split_and!; [unfold Execute_ZCount; by rewrite Ec|unfold Execute_ZRemRange, ZRemRangeByScore; by rewrite Ec|].
  unfold Execute_ZRange, GetZrangeResult, ZRangeByScore. rewrite E5, E1, E2. cbn [get_double mbind option_bind zset_of z_ordered_set_].
  rewrite Ep. unfold EmplaceForwardElements, EmplaceRevElements. rewrite Ez. by destruct (direction_ arg).
Qed.

Lemma crossed_scores_stuck_witness :
  let spec := mkSpec false true true false false (BDouble z_one) (BDouble z_one) in
  Execute_ZCount z_ab spec = None /\ Execute_ZRemRange z_ab ZRANGE_SCORE spec = None
  /\ Execute_ZRange (fun _ => []) z_ab (forward_range ZRANGE_SCORE) spec = None.
Proof.
  exact (crossed_scores_stuck (fun _ => []) z_ab (forward_range ZRANGE_SCORE)
    (mkSpec false true true false false (BDouble z_one) (BDouble z_one)) z_one (lit "a") z_ab_good
    ltac:(concrete) ltac:(vm_compute; reflexivity) eq_refl eq_refl eq_refl eq_refl eq_refl).
Defined.

(** with a negative LIMIT offset a range by score replies with members below
    the range as well. *)
Theorem negative_offset_leaks fp (o : RedisZsetObject) (arg : ZRangeConstraint) (spec : ZRangeSpec) (lo hi : Z) :
  zset_good o -> opt_start_ spec = BDouble lo -> opt_end_ spec = BDouble hi -> is_num lo -> is_num hi ->
  dkey lo <= dkey hi -> uncrossed spec lo hi (zset_pairs o) ->
  rangetype_ arg = ZRANGE_SCORE -> direction_ arg = ZRANGE_DIRECTION_FORWARD -> opt_limit_ arg = -1 ->
  - Z.of_nat (size (filter (fun p : ZPair => dkey p.2 < dkey lo) (z_hash_map_ o))) <= opt_offset_ arg < 0 ->
  exists below arg', zlen below = - opt_offset_ arg /\ Forall (fun p => ~ in_scores spec lo hi p) below
    /\ Execute_ZRange fp o arg spec
       = Some (mkZsetResult RD_OK (ZRStrings (range_reply fp (opt_withscores_ arg)
           (below ++ filter (in_scores spec lo hi) (zset_pairs o)))), arg').
Proof.
  intros (l & Hl & -> & Hn & _)%zset_good_small E1 E2 Hlo Hhi Hle Hu E3 E4 E5 Hoff. rewrite zset_pairs_of in *.
  cbn [zset_of z_hash_map_] in Hoff. fold (zset_of l) in Hoff. rewrite zl_filter_size in Hoff by done.
  pose proof (score_positions_of l spec lo hi Hl Hlo Hhi Hu) as H.
  assert (exists e, score_positions (node_of <$> l) spec lo hi
    = Some (skip_while (if minex_ spec then upto_score lo else below_score lo) l, e)) as [e Ep].
  { unfold score_positions. rewrite dbl_ltb_key, (proj2 (Z.ltb_ge _ _)) by done.
    rewrite score_upper_bound_of, score_lower_bound_of, if_skip by done. by eexists. }
  rewrite Ep in H. set (b := skip_while _ l) in *. destruct H as (Hbe & Hf & Hr).
  destruct (skip_while_split zlt (if minex_ spec then upto_score lo else below_score lo) l (zl_sorted l Hl)) as [Hb _].
  { destruct (minex_ spec); [apply upto_score_down|apply below_score_down]. }
  fold b in Hb. assert (- Z.of_nat b <= opt_offset_ arg) as Hob.
  { pose proof (sublist_length _ _ (sublist_filter (fun p : ZPair => (dkey p.2 < dkey lo)%Z) (take b l))) as Hlen.
    rewrite Hb in Hlen at 1. rewrite list_filter_filter, length_take in Hlen.
    rewrite (list_filter_iff _ (fun p : ZPair => (dkey p.2 < dkey lo)%Z)) in Hlen; [lia|].
    intros p. unfold upto_score, below_score. destruct (minex_ spec); rewrite ?Z.leb_le, ?Z.ltb_lt; lia. }
  set (n := Z.to_nat (- opt_offset_ arg)). set (below := drop (b - n) (take b l)).
  exists below. eexists. split_and!.
  - unfold below, zlen. rewrite length_drop, length_take. unfold n. lia.
  - apply list.Forall_forall. intros p Hp. apply (sublist_elem_of _ _ p (sublist_drop _ _)) in Hp.
    assert (p ∈ filter (fun x => ~ in_scores spec lo hi x) l) as Hin by (rewrite <- Hr; apply elem_of_app; by left).
    by apply list_elem_of_filter in Hin as [? _].
  - unfold Execute_ZRange, GetZrangeResult, ZRangeByScore. rewrite E3, E1, E2, E4. cbn [get_double mbind option_bind zset_of z_ordered_set_].
    rewrite Ep. unfold EmplaceForwardElements. rewrite zdistance_of by lia. cbn [fmap option_fmap option_map mbind option_bind].
    unfold INT32_MAX, zlen in Hn. rewrite i32_id, (proj2 (Z.leb_gt _ _)) by (mach; lia).
    rewrite length_fmap, zadvance_of by lia. cbn [mbind option_bind]. rewrite znodes_of.
    replace (Z.to_nat (Z.of_nat b + opt_offset_ arg)) with (b - n)%nat by (unfold n; lia).
    rewrite emplace_loop_of, E5; [|apply (range_fits l Hl); by rewrite sublist_take, sublist_drop|lia]. rewrite page_all.
    assert (take (e - (b - n)) (drop (b - n) l) = below ++ filter (in_scores spec lo hi) l) as ->; [|done].
    rewrite <- Hf. unfold below. rewrite skipn_firstn_comm.
    replace (take (e - b) (drop b l)) with (take (e - b) (drop (b - (b - n)) (drop (b - n) l))) by (rewrite drop_drop; do 2 f_equal; lia).
    rewrite take_take_drop. f_equal. lia.
Qed.

Lemma negative_offset_leaks_witness : exists below arg', zlen below = 1
  /\ Execute_ZRange (fun _ => []) z_ab (mkConstraint false (-1) (-1) ZRANGE_SCORE ZRANGE_DIRECTION_FORWARD)
       (mkSpec false false false false false (BDouble z_two) (BDouble dbl_inf))
     = Some (mkZsetResult RD_OK (ZRStrings (range_reply (fun _ => []) false (below ++ [(lit "b", z_two)]))), arg').
Proof.
  destruct (negative_offset_leaks (fun _ => []) z_ab (mkConstraint false (-1) (-1) ZRANGE_SCORE ZRANGE_DIRECTION_FORWARD)
    (mkSpec false false false false false (BDouble z_two) (BDouble dbl_inf)) z_two dbl_inf z_ab_good eq_refl eq_refl
    ltac:(concrete) ltac:(concrete) ltac:(vm_compute; discriminate) ltac:(by intros (? & _)) eq_refl eq_refl eq_refl
    ltac:(vm_compute; split; congruence)) as (below & arg' & H1 & _ & H2).
  exists below, arg'. split; [exact H1|exact H2].
Defined.
