(* ===== verification/ZsetScan.v ===== *)
(** * ZSCAN and ZRANDMEMBER on a sorted set

    The cursor of ZSCAN is the node to go on from, written as its score and its
    member (include/redis_command.h, [ZScanCommand]); a cursor whose node is gone
    starts over.  How a connection hands the cursors out is in the file
    ZScanCommand.  ZRANDMEMBER prints its scores in a way of its own: integers
    without a fraction, other numbers with [std::to_string].  Converting a score
    outside the range of int64_t is undefined and gives [None]. *)

From stdpp Require Import sorting.
From Stdlib Require Import Floats.SpecFloat.
From S2P Require Import Prelude Codec EloqString RedisTypes Encoding StringNum StringMatch Double Sampling ZsetObject ZsetImage ZsetRange.

Set Warnings "-clear-no-such-hyp".

(** ** ZSCAN *)

Definition SerializeCursorZNode (field : EloqString) (score : Z) : bytes := le_bytes 8 score ++ lp_string (es_view field).

(** [None]: the assertion on the size fails, or the string is read past its end. *)
Definition DeserializeCursorZNode (str : bytes) : option (EloqString * Z) :=
  if negb (8 + 4 <? zlen str) then None
  else fst <$> (score <-- read_u64; d <-- read_lp_string; rret (es_own d, score)) str.

Section Printing.

(** [max_reserve]: the number of elements for which [reserve] gets memory. *)
Context (fpconv_dtoa : Z -> bytes) (max_reserve : Z).

(** [after] is the memory behind the pattern. *)
Definition zscan_match (pattern : option bytes) (after : bytes) (n : ZNode) : option bool :=
  match pattern with
  | None => Some true
  | Some p => stringmatchlen p after (es_view (node_field_ n)) false
  end.

(** The reply, and the nodes that were not read. *)
Fixpoint zscan_loop (pattern : option bytes) (after : bytes) (nodes : list ZNode) (count : Z) (scan_ans : list EloqString)
    : option (list EloqString * list ZNode) :=
  match nodes with
  | [] => Some (scan_ans, [])
  | n :: nodes' =>
      if count =? 0 then Some (scan_ans, nodes)
      else
        m ← zscan_match pattern after n;
        if m : bool
        then zscan_loop pattern after nodes' (count - 1)
               (scan_ans ++ [es_clone (node_field_ n); score_string fpconv_dtoa (node_score_ n)])
        else zscan_loop pattern after nodes' count scan_ans
  end.

(** The cursor is [with_cursor_], [cursor_field_] and [cursor_score_].  [None]:
    [reserve] throws. *)
Definition Execute_ZScan (o : RedisZsetObject) (cursor : option (EloqString * Z)) (pattern : option bytes) (after : bytes)
    (count_ : Z) : option RedisZsetResult :=
  let s := z_ordered_set_ o in
  let count := if 0 <? count_ then count_ else zset_size o in
  let tmp_it :=
    match cursor with
    | Some (field, score) => default 0%nat (zs_find (mkNode (es_of_view (es_view field)) score) s)
    | None => 0%nat
    end in
  if bool_decide (pattern = None) && (max_reserve <? u64 (count * 2 + 1)) then None
  else
  '(scan_ans, rest) ← zscan_loop pattern after (drop tmp_it s) count [];
  let cursor :=
    match rest with
    | [] => es_own (lit "0")
    | n :: _ => es_of_data (SerializeCursorZNode (node_field_ n) (node_score_ n))
    end in
  Some (mkZsetResult RD_OK (ZRStrings (cursor :: scan_ans))).

End Printing.

(** ** ZRANDMEMBER *)

(** [std::floor], and whether it changes the number. *)
Definition dbl_floor (d : Z) : option (Z * bool) :=
  match dbl_sf d with
  | S754_zero _ => Some (0, true)
  | S754_finite s m e =>
      let v := if s then Z.neg m else Z.pos m in
      Some (if 0 <=? e then (v * 2 ^ e, true) else (v / 2 ^ (- e), v mod 2 ^ (- e) =? 0))
  | _ => None
  end.

(** [a / d] rounded to the nearest integer, ties to even. *)
Definition round_div (a d : Z) : Z :=
  let '(q, r) := Z.div_eucl a d in
  if (2 * r <? d) || ((2 * r =? d) && Z.even q) then q else q + 1.

Definition pad6 (n : Z) : bytes := let s := to_string n in replicate (6 - length s) (z2b 48) ++ s.

(** [std::to_string(double)], the format "%f", of a finite number. *)
Definition to_string_double (d : Z) : bytes :=
  match dbl_sf d with
  | S754_finite s m e =>
      let n := if 0 <=? e then Z.pos m * 2 ^ e * 10 ^ 6 else round_div (Z.pos m * 10 ^ 6) (2 ^ (- e)) in
      (if s then lit "-" else []) ++ to_string (n / 10 ^ 6) ++ lit "." ++ pad6 (n mod 10 ^ 6)
  | S754_zero true => lit "-0.000000"
  | _ => lit "0.000000"
  end.

Definition rand_score (score : Z) : option EloqString :=
  if dbl_eqb score dbl_inf then Some (es_own (lit "inf"))
  else if dbl_eqb score dbl_ninf then Some (es_own (lit "-inf"))
  else
    '(floor_integer, exact) ← dbl_floor score;
    if bool_decide (is_i64 floor_integer)
    then Some (es_of_data (if exact : bool then to_string floor_integer else to_string_double score))
    else None.

(** The lambda [resulter]: one or two places of the reply per member. *)
Definition resulter (with_scores : bool) (e : bytes * Z) : option (list EloqString) :=
  if with_scores then s ← rand_score e.2; Some [es_of_data e.1; s] else Some [es_of_data e.1].

Definition Execute_ZRandMember (o : RedisZsetObject) (it : list (bytes * Z)) (bucket_count : Z) (rands : list Z) (count_ : Z)
    (with_scores_ : bool) : option RedisZsetResult :=
  let sz := i32 (zhash_size o) in
  let distinct := 0 <=? count_ in
  let count := if distinct then (if count_ <? sz then count_ else sz) else i64 (- count_) in
  let string_list := replicate (Z.to_nat count) (Some (replicate (if with_scores_ then 2 else 1) (es_of_view []))) in
  slots ←
    (if take_shortcut sz count bucket_count then walk_loop (resulter with_scores_) (Z.to_nat count) 0 it it string_list
     else map ← GenRandMap sz count (negb distinct) rands; pick_loop (resulter with_scores_) it 0 map string_list);
  l ← mapM id slots;
  Some (mkZsetResult RD_OK (ZRStrings (mjoin l))).

(** ** A full scan *)

(** The byte behind the pattern cannot extend it. *)
Definition pattern_ok (pattern : option bytes) (after : bytes) : Prop :=
  match pattern with
  | None => True
  | Some p => exists x more, after = x :: more /\ x <> ch_star /\ x <> ch_close /\ x <> ch_caret
  end.

(** The empty pattern matches every member. *)
Definition scan_matches (pattern : option bytes) (k : bytes) : bool :=
  match pattern with None => true | Some p => bool_decide (p = []) || glob false (tokenize p) k end.

Lemma zscan_match_of pattern after p : pattern_ok pattern after ->
  zscan_match pattern after (node_of p) = Some (scan_matches pattern p.1).
Proof.
  destruct pattern as [pat|]; [|done]. intros (x & more & -> & H1 & H2 & H3). cbn.
  destruct pat; [by destruct p.1|]. rewrite bool_decide_false by done. by apply stringmatchlen_glob.
Qed.

Section Scan.

Context (fp : Z -> bytes) (max_reserve : Z) (pattern : option bytes) (after : bytes) (Hpat : pattern_ok pattern after).

Abbreviation matching := (fun p : ZPair => scan_matches pattern p.1 = true).

Lemma zscan_loop_of l : Forall (fun p : ZPair => fits p.1) l -> forall count ans, 0 <= count ->
  exists k, (k <= length l)%nat /\ (0 < count -> l <> [] -> (0 < k)%nat)
  /\ zscan_loop fp pattern after (node_of <$> l) count ans
     = Some (ans ++ score_reply fp (filter matching (take k l)), node_of <$> drop k l).
Proof.
  induction 1 as [|p l Hp _ IH]; intros count ans Hc.
  { exists 0%nat. split_and!; [done|done|]. cbn. by rewrite app_nil_r. }
  cbn [fmap list_fmap zscan_loop]. destruct (Z.eqb_spec count 0) as [->|Hne].
  { exists 0%nat. split_and!; [lia|lia|]. rewrite take_0, drop_0, filter_nil, app_nil_r. done. }
  rewrite zscan_match_of by done. cbn [mbind option_bind].
  destruct (scan_matches pattern p.1) eqn:Em.
  - destruct (IH (count - 1) (ans ++ [es_clone (node_field_ (node_of p)); score_string fp (node_score_ (node_of p))]) ltac:(lia))
      as (k & Hk & _ & E). exists (S k). split_and!; [cbn; lia|lia|]. rewrite E. cbn [take drop]. rewrite filter_cons, decide_True by done.
    change (score_reply fp (p :: ?x)) with (es_own p.1 :: score_string fp p.2 :: score_reply fp x).
    rewrite <- app_assoc. cbn [node_of node_field_ node_score_ app]. by rewrite es_clone_own.
  - destruct (IH count ans Hc) as (k & Hk & _ & E). exists (S k). split_and!; [cbn; lia|lia|]. rewrite E. cbn [take drop].
    rewrite filter_cons, decide_False by (by rewrite Em). done.
Qed.

Lemma zl_member_len l p : p ∈ l -> znode_len (zlen p.1) <= zset_image_len l.
Proof.
  intros Hp. pose proof (zsum_elem_le (fun p : ZPair => znode_len (zlen p.1)) l p) as H. cbn beta in H.
  unfold zset_image_len. rewrite H; [lia| |done]. intros x. unfold znode_len. pose proof (zlen_nonneg x.1). lia.
Qed.

(** The cursor after a page leads back to the node, when its member is not empty. *)
Lemma cursor_roundtrip p : fits p.1 -> is_u64 p.2 -> zlen p.1 + 12 < 2 ^ 32 ->
  let c := es_view (es_of_data (SerializeCursorZNode (es_own p.1) p.2)) in
  c = SerializeCursorZNode (es_own p.1) p.2 /\ c <> lit "0" /\ (p.1 <> [] -> DeserializeCursorZNode c = Some (es_own p.1, p.2)).
Proof.
  intros Hf Hu Hlen. cbn zeta. pose proof (zlen_nonneg p.1).
  assert (zlen (SerializeCursorZNode (es_own p.1) p.2) = 12 + zlen p.1) as Hz.
  { unfold SerializeCursorZNode. cbn [es_own es_view]. rewrite lp_string_small by done. zlen. lia. }
  rewrite es_of_data_own by (rewrite Hz; unfold is_u32; lia). cbn [es_own es_view]. split_and!; [done| |].
  - intros E. rewrite E in Hz. change (zlen (lit "0")) with 1 in Hz. lia.
  - intros Hne. unfold DeserializeCursorZNode. rewrite Hz. apply (not_iff_compat (zlen_zero p.1)) in Hne.
    rewrite (proj2 (Z.ltb_lt (8 + 4) (12 + zlen p.1))) by lia. cbn [negb].
    assert (Reads (score <-- read_u64; d <-- read_lp_string; rret (es_own d, score))
      (SerializeCursorZNode (es_own p.1) p.2) (es_own p.1, p.2)) as Hr.
    { eapply Reads_bind; [by apply Reads_u64|]. eapply Reads_bind_ret; [by apply Reads_lp_string|done]. }
    specialize (Hr []). rewrite app_nil_r in Hr. by rewrite Hr.
Qed.

Lemma score_reply_app l k : score_reply fp (l ++ k) = score_reply fp l ++ score_reply fp k.
Proof. unfold score_reply. by rewrite fmap_app, join_app. Qed.

Definition cursor_at (l : list ZPair) (i : nat) (cursor : option (EloqString * Z)) : Prop :=
  match cursor with
  | None => i = 0%nat
  | Some (field, score) => l !! i = Some (es_view field, score)
  end.

(** The number of members a page is to have, and the memory reserved for them. *)
Definition page_size (l : list ZPair) (count_ : Z) : Z := if 0 <? count_ then count_ else zlen l.
Definition reserve_ok (l : list ZPair) (count_ : Z) : Prop := pattern = None -> u64 (page_size l count_ * 2 + 1) <= max_reserve.

(** One page: the matching members from the cursor on to a later place, and the
    cursor of that place. *)
Lemma Execute_ZScan_of l count_ i cursor : zl_ok l -> reserve_ok l count_ -> cursor_at l i cursor ->
  exists j, (i <= j)%nat /\ ((i < length l)%nat -> (i < j)%nat)
  /\ Execute_ZScan fp max_reserve (zset_of l) cursor pattern after count_
     = Some (mkZsetResult RD_OK (ZRStrings
         ((if l !! j is Some p then es_of_data (SerializeCursorZNode (es_own p.1) p.2) else es_own (lit "0"))
          :: score_reply fp (filter matching (take (j - i) (drop i l)))))).
Proof.
  intros Hl Hres Hcur. unfold Execute_ZScan. cbn [zset_of z_ordered_set_].
  assert (match cursor with
    | Some (field, score) => default 0%nat (zs_find (mkNode (es_of_view (es_view field)) score) (node_of <$> l))
    | None => 0%nat end = i) as ->.
  { destruct cursor as [[field score]|]; [|done]. cbn in Hcur. apply list_elem_of_lookup_2 in Hcur as Hin.
    destruct (zs_find_pair (mkNode (es_of_view (es_view field)) score) l Hl Hin) as (j & -> & Hj). cbn.
    apply (NoDup_lookup l j i (es_view field, score)); [by apply zl_nodup_pairs|done|done]. }
  rewrite <- fmap_drop. fold (zset_of l).
  replace (if 0 <? count_ then count_ else zset_size (zset_of l)) with (page_size l count_)
    by (unfold zset_size, page_size; cbn [z_ordered_set_ zset_of]; by rewrite zlen_fmap).
  assert (bool_decide (pattern = None) && (max_reserve <? u64 (page_size l count_ * 2 + 1)) = false) as ->.
  { case_bool_decide as E; [|done]. apply Z.ltb_ge. by apply Hres. }
  assert (0 <= page_size l count_ /\ ((i < length l)%nat -> 0 < page_size l count_)) as [Hc0 Hcpos].
  { unfold page_size. pose proof (zlen_nonneg l). destruct (Z.ltb_spec 0 count_); [lia|]. split; [done|]. unfold zlen. lia. }
  destruct (zscan_loop_of (drop i l)) with (count := page_size l count_) (ans := @nil EloqString) as (k & Hk & Hprog & ->); [|done|].
  { apply (range_fits l Hl), sublist_drop. }
  exists (i + k)%nat. split; [lia|]. split.
  { intros Hi. assert (drop i l <> []) as Hd by (intros E; apply (f_equal length) in E; rewrite length_drop in E; cbn in E; lia).
    specialize (Hprog (Hcpos Hi) Hd). lia. }
  cbn [mbind option_bind app]. rewrite drop_drop. replace (i + k - i)%nat with k by lia.
  destruct (l !! (i + k)%nat) as [p|] eqn:Hp; [by rewrite (drop_S l p (i + k)) by done|].
  apply lookup_ge_None in Hp. by rewrite (drop_ge l (i + k)) by done.
Qed.

Lemma page_append l i j : (i <= j)%nat ->
  score_reply fp (filter matching (take (j - i) (drop i l))) ++ score_reply fp (filter matching (drop j l))
  = score_reply fp (filter matching (drop i l)).
Proof. intros H. rewrite <- score_reply_app, <- list.filter_app. do 2 f_equal. by rewrite <- (drop_slice i j l). Qed.

End Scan.

(** ** Random members *)

(** The reply to a drawing of members. *)
Definition rand_reply (with_scores : bool) (picked : list ZPair) : option RedisZsetResult :=
  l ← mapM (resulter with_scores) picked; Some (mkZsetResult RD_OK (ZRStrings (mjoin l))).

Lemma mapM_slots {A B : Type} (f : A -> option B) (l : list A) : mapM id (f <$> l) = mapM f l.
Proof. induction l as [|x l IH]; [done|]. cbn. unfold id at 1. destruct (f x); cbn; [|done]. by rewrite <- IH. Qed.

(** for every iteration order, bucket count and random draw, ZRANDMEMBER
    answers with members of the set and their scores: as many distinct ones as
    asked for, or all, for a count from 0, and the asked number of independent
    draws below 0. *)
Theorem zrandmember_correct (o : RedisZsetObject) (it : list ZPair) (bucket_count : Z) (rands : list Z) (count : Z) (with_scores : bool) :
  zset_good o -> zset_iter o it -> z_hash_map_ o <> ∅ -> INT64_MIN < count <= INT64_MAX ->
  let m := z_hash_map_ o in
  let n := if count <? 0 then - count else Z.min count (Z.of_nat (size m)) in
  rands_ok n rands ->
  exists picked, Execute_ZRandMember o it bucket_count rands count with_scores = rand_reply with_scores picked
  /\ zlen picked = n /\ (forall k v, (k, v) ∈ picked -> m !! k = Some v) /\ (0 <= count -> NoDup picked).
Proof.
  intros (l & Hl & -> & Hn & _)%zset_good_small Hit Hne Hc m n Hr. apply zset_iter_of in Hit; [|done].
  assert (Z.of_nat (size m) = zlen it) as Hsz by (exact (zhash_size_of l it Hl Hit)).
  assert (zlen it = zlen l) as Hlen by (unfold zlen; by rewrite Hit).
  assert (0 <= n) as Hn0 by (unfold n; destruct (Z.ltb_spec count 0); lia).
  unfold Execute_ZRandMember. rewrite (zhash_size_of l it) by done. pose proof (zlen_nonneg it). unfold INT32_MAX in Hn.
  rewrite i32_id by (mach; lia).
  replace (if 0 <=? count then if count <? zlen it then count else zlen it else i64 (- count)) with n.
  2: { unfold n. rewrite Hsz. destruct (Z.ltb_spec count 0), (Z.leb_spec 0 count); try lia; [by rewrite i64_id by (mach; lia)|].
    destruct (Z.ltb_spec count (zlen it)); lia. }
  destruct (drawn (resulter with_scores) it n (0 <=? count) bucket_count rands
    (replicate (Z.to_nat n) (Some (replicate (if with_scores then 2 else 1)%nat (es_of_view [])))))
    as (picked & E & Hz & Hin & Hd); [| |done| | |done|].
  - rewrite Hit. by apply zl_nodup_pairs.
  - intros ->. apply Hne. symmetry in Hit. apply Permutation_nil_r in Hit as ->. done.
  - unfold n. rewrite Hsz. intros ?%Z.leb_le. destruct (Z.ltb_spec count 0); lia.
  - unfold zlen. rewrite length_replicate. lia.
  - exists picked. rewrite E. cbn [mbind option_bind]. rewrite mapM_slots. split_and!; [done|done| |].
    + intros k v Hkv. apply zl_lookup; [done|]. rewrite <- Hit. by apply Hin.
    + intros Hp. by apply Hd, Z.leb_le.
Qed.

Lemma zrandmember_correct_witness : exists picked,
  Execute_ZRandMember z_ab [(lit "b", z_two); (lit "a", z_one)] 8 [7; 9; 2] (-3) true = rand_reply true picked
  /\ zlen picked = 3 /\ (forall k v, (k, v) ∈ picked -> z_hash_map_ z_ab !! k = Some v) /\ (0 <= -3 -> NoDup picked).
Proof.
  apply (zrandmember_correct z_ab [(lit "b", z_two); (lit "a", z_one)] 8 [7; 9; 2] (-3) true z_ab_good).
  - unfold zset_iter. vm_compute. first [reflexivity|apply perm_swap].
  - apply (bool_decide_unpack _). vm_compute. exact I.
  - concrete.
  - concrete.
Defined.

(** a score of one ten-millionth is printed as nothing but zeros by
    ZRANDMEMBER ... WITHSCORES, and a score of 2 ^ 63 is not printed at all. *)
Theorem rand_scores_lossy :
  rand_score 4502148214488346440 = Some (es_own (lit "0.000000")) /\ rand_score 4890909195324358656 = None
  /\ rand_score 4609434218613702656 = Some (es_own (lit "1.500000")).
Proof. by vm_compute. Qed.
