(* ===== verification/RedisObject.v ===== *)
(** * The objects a command can meet

    Every value in the store is an object of one of the classes derived from
    [RedisEloqObject] (include/redis_object.h).  The class with a TTL reports
    the [ObjectType] of its base, so that commands treat both alike.  An image
    starts with the number of its class, by which [DeserializeObject]
    (src/redis_object.cpp) picks the class to read it with.

    What a class owes the store is the class [StoredObject]; the ten classes are
    its instances, and the theorem about [DeserializeObject] is proved from it. *)

From S2P Require Import Prelude Codec EloqString RedisTypes Encoding ListObject StringObject HashObject SetObject ZsetObject ZsetImage.

Inductive RedisEloqObject :=
| ObjString (o : RedisStringObject)
| ObjStringTTL (o : RedisStringTTLObject)
| ObjList (o : RedisListObject)
| ObjListTTL (o : RedisListTTLObject)
| ObjHash (o : RedisHashObject)
| ObjHashTTL (o : RedisHashTTLObject)
| ObjSet (o : RedisHashSetObject)
| ObjSetTTL (o : RedisHashSetTTLObject)
| ObjZset (o : RedisZsetObject)
| ObjZsetTTL (o : RedisZsetTTLObject).

Definition ObjectType (obj : RedisEloqObject) : RedisObjectType :=
  match obj with
  | ObjString _ | ObjStringTTL _ => TyString
  | ObjList _ | ObjListTTL _ => TyList
  | ObjHash _ | ObjHashTTL _ => TyHash
  | ObjSet _ | ObjSetTTL _ => TySet
  | ObjZset _ | ObjZsetTTL _ => TyZset
  end.

Definition HasTTL (obj : RedisEloqObject) : bool :=
  match obj with
  | ObjStringTTL _ | ObjListTTL _ | ObjHashTTL _ | ObjSetTTL _ | ObjZsetTTL _ => true
  | _ => false
  end.

(** [UINT64_MAX] stands for no expiry. *)
Definition GetTTL (obj : RedisEloqObject) : Z :=
  match obj with
  | ObjStringTTL o => strttl_ttl_ o
  | ObjListTTL o => listttl_ttl_ o
  | ObjHashTTL o => hashttl_ttl_ o
  | ObjSetTTL o => setttl_ttl_ o
  | ObjZsetTTL o => zsetttl_ttl_ o
  | _ => UINT64_MAX
  end.

Definition IsMatchType (obj : RedisEloqObject) (obj_type : Z) : bool :=
  (obj_type <? 0) || (object_type_int (ObjectType obj) =? obj_type).

(** [static_cast<RedisListObject &>(object)], defined when the type matches. *)
Definition as_list (obj : RedisEloqObject) : option RedisListObject :=
  match obj with
  | ObjList o => Some o
  | ObjListTTL o => Some (listttl_base o)
  | _ => None
  end.

Definition as_zset (obj : RedisEloqObject) : option RedisZsetObject :=
  match obj with
  | ObjZset o => Some o
  | ObjZsetTTL o => Some (zsetttl_base o)
  | _ => None
  end.

(** ** Restoring an object *)

(** [static_cast<RedisObjectType>]. *)
Definition object_type_of (n : Z) : RedisObjectType :=
  match n with
  | 0 => TyString
  | 1 => TyList
  | 2 => TyHash
  | 3 => TyDel
  | 4 => TyZset
  | 5 => TySet
  | 6 => TyTTLString
  | 7 => TyTTLList
  | 8 => TyTTLHash
  | 10 => TyTTLZset
  | 11 => TyTTLSet
  | _ => TyUnknown
  end.

Definition read_as {A : Type} (mk : A -> RedisEloqObject) (r : Reader A) : Reader RedisEloqObject := o <-- r; rret (mk o).

(** [None] for a number that is no class: the record stays null and is used. *)
Definition DeserializeObject : Reader RedisEloqObject := fun buf =>
  match buf with
  | [] => None
  | b :: _ =>
      match object_type_of (c2z b) with
      | TyString => read_as ObjString str_Deserialize buf
      | TyList => read_as ObjList list_Deserialize buf
      | TyHash => read_as ObjHash hash_Deserialize buf
      | TyZset => read_as ObjZset zset_Deserialize buf
      | TySet => read_as ObjSet set_Deserialize buf
      | TyTTLString => read_as ObjStringTTL strttl_Deserialize buf
      | TyTTLHash => read_as ObjHashTTL hashttl_Deserialize buf
      | TyTTLList => read_as ObjListTTL listttl_Deserialize buf
      | TyTTLZset => read_as ObjZsetTTL zsetttl_Deserialize buf
      | TyTTLSet => read_as ObjSetTTL setttl_Deserialize buf
      | TyUnknown | TyDel => None
      end
  end.

(** ** What a class owes the store *)

Class StoredObject (A : Type) := {
  so_object : A -> RedisEloqObject;
  so_order : Type;                                 (* the walk over its table *)
  so_good : A -> so_order -> Prop;
  so_type : RedisObjectType;
  so_length : A -> Z;
  so_image : A -> so_order -> bytes;
  so_vec : A -> so_order -> bytes -> nat -> option (bytes * nat);
  so_read : Reader A;
  so_law a w : so_good a w -> image_law (so_length a) (so_image a w) (so_vec a w) so_read a;
  so_head a w : exists bs, so_image a w = type_byte so_type ++ bs;
  so_dispatch bs : DeserializeObject (type_byte so_type ++ bs) = read_as so_object so_read (type_byte so_type ++ bs)
}.

Section Restore.

Context {A : Type} `{StoredObject A}.

(** Read in whatever context, the image gives the object back. *)
Lemma stored_restored (a : A) (w : so_order) : so_good a w ->
  image_law (so_length a) (so_image a w) (so_vec a w) DeserializeObject (so_object a).
Proof.
  intros Hg. destruct (so_law a w Hg) as [Hlen Hread Hvec]. split; [done| |done].
  destruct (so_head a w) as [bs E]. intros rest. rewrite E, <- app_assoc, so_dispatch, app_assoc, <- E.
  assert (Reads (read_as so_object so_read) (so_image a w) (so_object a)) as Hr; [|exact (Hr rest)].
  eapply Reads_bind_ret; [exact Hread|done].
Qed.

End Restore.

(** ** The ten classes *)

#[global] Instance string_stored : StoredObject RedisStringObject.
Proof.
  refine {| so_object := ObjString; so_order := unit; so_good o _ := str_wf o; so_type := TyString;
    so_length := str_SerializedLength; so_image o _ := str_Serialize_str o []; so_vec o _ := str_Serialize_vec o;
    so_read := str_Deserialize |}; [|intros a w; by eexists|done].
  intros o _ Ho. apply (string_images o 0 Ho). by split.
Defined.

#[global] Instance stringttl_stored : StoredObject RedisStringTTLObject.
Proof.
  refine {| so_object := ObjStringTTL; so_order := unit;
    so_good t _ := exists o ttl, t = str_AddTTL o ttl /\ str_wf o /\ is_u64 ttl; so_type := TyTTLString;
    so_length := strttl_SerializedLength; so_image t _ := strttl_Serialize_str t []; so_vec t _ := strttl_Serialize_vec t;
    so_read := strttl_Deserialize |}; [|intros a w; by eexists|done].
  intros t _ (o & ttl & -> & Ho & Ht). by apply (string_images o ttl Ho).
Defined.

#[global] Instance list_stored : StoredObject RedisListObject.
Proof.
  refine {| so_object := ObjList; so_order := unit;
    so_good o _ := list_wf o /\ image_len (list_contents o) <= MAX_OBJECT_SIZE; so_type := TyList;
    so_length := list_serialized_length_; so_image o _ := list_Serialize_str o []; so_vec o _ := list_Serialize_vec o;
    so_read := list_Deserialize |}; [|intros a w; by eexists|done].
  intros o _ [Ho Hs]. apply (list_images o 0 Ho Hs). by split.
Defined.

#[global] Instance listttl_stored : StoredObject RedisListTTLObject.
Proof.
  refine {| so_object := ObjListTTL; so_order := unit;
    so_good t _ := exists o ttl, t = list_AddTTL o ttl /\ (list_wf o /\ image_len (list_contents o) <= MAX_OBJECT_SIZE) /\ is_u64 ttl;
    so_type := TyTTLList; so_length := listttl_SerializedLength; so_image t _ := listttl_Serialize_str t [];
    so_vec t _ := listttl_Serialize_vec t; so_read := listttl_Deserialize |}; [|intros a w; by eexists|done].
  intros t _ (o & ttl & -> & [Ho Hs] & Ht). by apply (list_images o ttl Ho Hs).
Defined.

(** A table that is stored: well-formed, walked in some order, within the limits of the image. *)
Definition hash_storable (o : RedisHashObject) (it : list HashEntry) : Prop :=
  hash_wf o /\ hash_iter o it /\ hash_image_len (hash_contents o) < 2 ^ 63 /\ is_u32 (hash_size o).
Definition set_storable (o : RedisHashSetObject) (it : list EloqString) : Prop :=
  set_wf o /\ set_iter o it /\ set_image_len (set_contents o) < 2 ^ 63 /\ is_u32 (set_size o).

#[global] Instance hash_stored : StoredObject RedisHashObject.
Proof.
  refine {| so_object := ObjHash; so_order := list HashEntry; so_good := hash_storable; so_type := TyHash;
    so_length := hash_serialized_length_; so_image o it := hash_Serialize_str o it []; so_vec := hash_Serialize_vec;
    so_read := hash_Deserialize |}; [|intros a w; by eexists|done].
  intros o it (Ho & Hi & Hl & Hs). apply (hash_images o it 0 Ho Hi Hl Hs). by split.
Defined.

#[global] Instance hashttl_stored : StoredObject RedisHashTTLObject.
Proof.
  refine {| so_object := ObjHashTTL; so_order := list HashEntry;
    so_good t it := exists o ttl, t = hash_AddTTL o ttl /\ hash_storable o it /\ is_u64 ttl; so_type := TyTTLHash;
    so_length := hashttl_SerializedLength; so_image o it := hashttl_Serialize_str o it []; so_vec := hashttl_Serialize_vec;
    so_read := hashttl_Deserialize |}; [|intros a w; by eexists|done].
  intros t it (o & ttl & -> & (Ho & Hi & Hl & Hs) & Ht). by apply (hash_images o it ttl Ho Hi Hl Hs).
Defined.

#[global] Instance set_stored : StoredObject RedisHashSetObject.
Proof.
  refine {| so_object := ObjSet; so_order := list EloqString; so_good := set_storable; so_type := TySet;
    so_length := set_serialized_length_; so_image o it := set_Serialize_str o it []; so_vec := set_Serialize_vec;
    so_read := set_Deserialize |}; [|intros a w; by eexists|done].
  intros o it (Ho & Hi & Hl & Hs). apply (set_images o it 0 Ho Hi Hl Hs). by split.
Defined.

#[global] Instance setttl_stored : StoredObject RedisHashSetTTLObject.
Proof.
  refine {| so_object := ObjSetTTL; so_order := list EloqString;
    so_good t it := exists o ttl, t = set_AddTTL o ttl /\ set_storable o it /\ is_u64 ttl; so_type := TyTTLSet;
    so_length := setttl_SerializedLength; so_image o it := setttl_Serialize_str o it []; so_vec := setttl_Serialize_vec;
    so_read := setttl_Deserialize |}; [|intros a w; by eexists|done].
  intros t it (o & ttl & -> & (Ho & Hi & Hl & Hs) & Ht). by apply (set_images o it ttl Ho Hi Hl Hs).
Defined.

#[global] Instance zset_stored : StoredObject RedisZsetObject.
Proof.
  refine {| so_object := ObjZset; so_order := list (bytes * Z); so_good o it := zset_good o /\ zset_iter o it; so_type := TyZset;
    so_length := zset_serialized_length_; so_image o it := zset_Serialize_str o it []; so_vec := zset_Serialize_vec;
    so_read := zset_Deserialize |}; [|intros a w; by eexists|done].
  intros o it [Ho Hi]. apply (zset_images o it 0 Ho Hi). by split.
Defined.

#[global] Instance zsetttl_stored : StoredObject RedisZsetTTLObject.
Proof.
  refine {| so_object := ObjZsetTTL; so_order := list (bytes * Z);
    so_good t it := exists o ttl, t = zset_AddTTL o ttl /\ (zset_good o /\ zset_iter o it) /\ is_u64 ttl; so_type := TyTTLZset;
    so_length := zsetttl_SerializedLength; so_image o it := zsetttl_Serialize_str o it []; so_vec := zsetttl_Serialize_vec;
    so_read := zsetttl_Deserialize |}; [|intros a w; by eexists|done].
  intros t it (o & ttl & -> & [Ho Hi] & Ht). by apply (zset_images o it ttl Ho Hi).
Defined.

(** ** Any object *)

(** The walk over the table of an object, and the dispatch of the virtual calls. *)
Definition obj_order (obj : RedisEloqObject) : Type :=
  match obj with
  | ObjString _ | ObjStringTTL _ | ObjList _ | ObjListTTL _ => unit
  | ObjHash _ | ObjHashTTL _ => list HashEntry
  | ObjSet _ | ObjSetTTL _ => list EloqString
  | ObjZset _ | ObjZsetTTL _ => list (bytes * Z)
  end.

Definition obj_good (obj : RedisEloqObject) : obj_order obj -> Prop :=
  match obj with
  | ObjString o => so_good o
  | ObjStringTTL o => so_good o
  | ObjList o => so_good o
  | ObjListTTL o => so_good o
  | ObjHash o => so_good o
  | ObjHashTTL o => so_good o
  | ObjSet o => so_good o
  | ObjSetTTL o => so_good o
  | ObjZset o => so_good o
  | ObjZsetTTL o => so_good o
  end.

Definition SerializedLength (obj : RedisEloqObject) : Z :=
  match obj with
  | ObjString o => str_SerializedLength o
  | ObjStringTTL o => strttl_SerializedLength o
  | ObjList o => list_serialized_length_ o
  | ObjListTTL o => listttl_SerializedLength o
  | ObjHash o => hash_serialized_length_ o
  | ObjHashTTL o => hashttl_SerializedLength o
  | ObjSet o => set_serialized_length_ o
  | ObjSetTTL o => setttl_SerializedLength o
  | ObjZset o => zset_serialized_length_ o
  | ObjZsetTTL o => zsetttl_SerializedLength o
  end.

Definition Serialize_str (obj : RedisEloqObject) : obj_order obj -> bytes :=
  match obj with
  | ObjString o => fun _ => str_Serialize_str o []
  | ObjStringTTL o => fun _ => strttl_Serialize_str o []
  | ObjList o => fun _ => list_Serialize_str o []
  | ObjListTTL o => fun _ => listttl_Serialize_str o []
  | ObjHash o => fun it => hash_Serialize_str o it []
  | ObjHashTTL o => fun it => hashttl_Serialize_str o it []
  | ObjSet o => fun it => set_Serialize_str o it []
  | ObjSetTTL o => fun it => setttl_Serialize_str o it []
  | ObjZset o => fun it => zset_Serialize_str o it []
  | ObjZsetTTL o => fun it => zsetttl_Serialize_str o it []
  end.

Definition Serialize_vec (obj : RedisEloqObject) : obj_order obj -> bytes -> nat -> option (bytes * nat) :=
  match obj with
  | ObjString o => fun _ => str_Serialize_vec o
  | ObjStringTTL o => fun _ => strttl_Serialize_vec o
  | ObjList o => fun _ => list_Serialize_vec o
  | ObjListTTL o => fun _ => listttl_Serialize_vec o
  | ObjHash o => hash_Serialize_vec o
  | ObjHashTTL o => hashttl_Serialize_vec o
  | ObjSet o => set_Serialize_vec o
  | ObjSetTTL o => setttl_Serialize_vec o
  | ObjZset o => zset_Serialize_vec o
  | ObjZsetTTL o => zsetttl_Serialize_vec o
  end.

(** C18: an object of any of the ten classes, with its table walked in any order,
    announces the length of its image, writes the same bytes into a string and
    into a vector at an offset, and is restored from them by [DeserializeObject]
    whatever follows. *)
Theorem object_image_roundtrip (obj : RedisEloqObject) (w : obj_order obj) :
  obj_good obj w -> image_law (SerializedLength obj) (Serialize_str obj w) (Serialize_vec obj w) DeserializeObject obj.
Proof. destruct obj as [o|o|o|o|o|o|o|o|o|o]; intros H; exact (stored_restored o w H). Qed.

Lemma object_image_roundtrip_witness :
  let it := [(lit "b", z_two); (lit "a", z_one)] in
  image_law 31 (zset_Serialize_str z_ab it []) (zset_Serialize_vec z_ab it) DeserializeObject (ObjZset z_ab)
  /\ image_law 39 (zsetttl_Serialize_str (zset_AddTTL z_ab 1700000000000) it []) (zsetttl_Serialize_vec (zset_AddTTL z_ab 1700000000000) it)
       DeserializeObject (ObjZsetTTL (zset_AddTTL z_ab 1700000000000))
  /\ image_law 20 (list_Serialize_str abc []) (list_Serialize_vec abc) DeserializeObject (ObjList abc).
Proof.
  assert (zset_iter z_ab [(lit "b", z_two); (lit "a", z_one)]) as Hi
    by (unfold zset_iter; vm_compute; first [reflexivity|apply perm_swap]).
  split_and!.
  - exact (object_image_roundtrip (ObjZset z_ab) _ (conj z_ab_good Hi)).
  - refine (object_image_roundtrip (ObjZsetTTL (zset_AddTTL z_ab 1700000000000)) _ _).
    exists z_ab, 1700000000000. split; [reflexivity|]. split; [exact (conj z_ab_good Hi)|concrete].
  - refine (object_image_roundtrip (ObjList abc) tt _). split; [exact abc_wf|vm_compute; discriminate].
Defined.
