(* ===== verification/TxCommand.v ===== *)
(** * Commands as the engine sees them

    A command class of src/redis_command.cpp is a value of [CommandClass]: its
    fields, its result and its virtual methods.  What the engine may rely on when
    it logs a command and replays the log elsewhere is the class [Replayable]:
    [ExecuteOn] is defined on every sound object, what it announces is what
    [CommitOn] then does, and the image of the command in the log commits to the
    same object.  [replay_log] is proved from that interface for any family of
    classes; the files of the command families provide the instances. *)

From S2P Require Import Prelude Codec EloqString RedisTypes ListObject StringObject HashObject SetObject ZsetObject ZsetImage RedisObject.

(** ** Shared pieces *)

(** The calls a command makes on its [OutputHandler]. *)
Inductive ReplyEvent :=
| OnInt (n : Z)
| OnString (s : bytes)
| OnNil
| OnStatus (code : Z)
| OnStatusText (s : bytes)
| OnError (code : Z)
| OnErrorText (s : bytes)
| OnArrayStart (n : Z)
| OnArrayEnd.

Definition write_or_fail (st : CommandExecuteState) : ExecResult :=
  match st with Modified => ExecWrite | _ => ExecFail end.

Definition write_delete_or_fail (st : CommandExecuteState) : ExecResult :=
  match st with
  | NoChange => ExecFail
  | Modified => ExecWrite
  | ModifiedToEmpty => ExecDelete
  end.

(** [return empty_after_removal ? nullptr : obj_ptr]. *)
Definition null_if_empty {A : Type} (res : A * bool) : option A :=
  let '(o, empty) := res in if empty then None else Some o.

(** An element count and the elements. *)
Definition elements_str (elements_ : list EloqString) : bytes :=
  le_bytes 4 (zlen elements_) ++ concat ((fun e => lp_string (es_view e)) <$> elements_).

(** [Length()] and [Data()]. *)
Definition data_str (e : EloqString) : bytes := le_bytes 4 (es_length e) ++ es_data e.

Definition read_element : Reader EloqString := d <-- read_lp_string; rret (es_own d).

Definition read_elements : Reader (list EloqString) :=
  cnt <-- read_u32; read_times (Z.to_nat cnt) read_element.

(** A [bool] is one byte. *)
Definition bool_str (b : bool) : bytes := le_bytes 1 (Z.b2z b).
Definition read_bool : Reader bool := v <-- read_u8; rret (negb (v =? 0)).

Definition output_array (l : list bytes) : list ReplyEvent :=
  OnArrayStart (zlen l) :: (OnString <$> l) ++ [OnArrayEnd].

(** A string as it is read back from an image. *)
Definition own (e : EloqString) : EloqString := es_own (es_view e).

Lemma view_own e : es_view (own e) = es_view e.
Proof. done. Qed.

Lemma own_fits e : es_fits e -> es_fits (own e).
Proof. done. Qed.

Lemma views_own (els : list EloqString) : es_view <$> (own <$> els) = es_view <$> els.
Proof. rewrite <- list_fmap_compose. by apply list_fmap_ext. Qed.

Lemma owns_fit els : Forall es_fits els -> Forall es_fits (own <$> els).
Proof. rewrite Forall_fmap. apply Forall_impl. apply own_fits. Qed.

Lemma Reads_element e : es_fits e -> Reads read_element (lp_string (es_view e)) (own e).
Proof. intros H. eapply Reads_bind_ret; [by apply Reads_lp_string|done]. Qed.

Lemma data_str_fits e : es_fits e -> data_str e = lp_string (es_view e).
Proof. intros H. unfold data_str, lp_string, es_data, es_length. by rewrite u32_id. Qed.

Lemma Reads_data e : es_fits e -> Reads read_element (data_str e) (own e).
Proof. intros H. rewrite data_str_fits by done. by apply Reads_element. Qed.

Lemma Reads_elements els :
  Forall es_fits els -> is_u32 (zlen els) -> Reads read_elements (elements_str els) (own <$> els).
Proof.
  intros H Hn. unfold read_elements, elements_str.
  eapply Reads_bind; [by apply Reads_u32|]. rewrite to_nat_zlen.
  apply (Reads_times read_element (fun e => lp_string (es_view e)) own).
  intros e He. apply Reads_element. rewrite list.Forall_forall in H. auto.
Qed.

Lemma Reads_bool b : Reads read_bool (bool_str b) b.
Proof. eapply Reads_bind_ret; [apply Reads_u8; mach; destruct b; cbn; lia|by destruct b]. Qed.

#[export] Hint Resolve Reads_element Reads_data Reads_elements Reads_bool : codec.

(** The fields of an image one after the other. *)
Ltac reads :=
  lazymatch goal with
  | |- Reads (rbind _ _) (_ ++ _) _ => eapply Reads_bind; [solve [eauto with codec]|cbv beta iota; reads]
  | |- Reads (rbind _ _) _ _ => eapply Reads_bind_ret; [solve [eauto with codec]|]
  | |- Reads (rret _) [] _ => apply Reads_ret
  | |- _ => idtac
  end.

Lemma Reads_pair {A B} (ra : Reader A) (rb : Reader B) wa wb a b :
  Reads ra wa a -> Reads rb wb b ->
  Reads (x <-- ra; y <-- rb; rret (x, y)) (wa ++ wb) (a, b).
Proof. intros Ha Hb. eapply Reads_bind; [done|]. eapply Reads_bind_ret; done. Qed.

(** ** Objects in a slot *)

(** [static_cast] to the base class of the type: a commit changes the base of an
    object with a TTL in place and keeps its expiry.  [None]: the cast is wrong,
    or the commit itself is undefined; [Some None] is [nullptr]. *)
Definition in_slot {A : Type} (mk : A -> RedisEloqObject) (s : option (option A)) : option (option RedisEloqObject) :=
  match s with Some o => Some (option_map mk o) | None => None end.

Definition as_set (obj : RedisEloqObject) : option RedisHashSetObject :=
  match obj with
  | ObjSet o => Some o
  | ObjSetTTL o => Some (setttl_base o)
  | _ => None
  end.

Definition commit_list (f : RedisListObject -> option (option RedisListObject)) (obj : RedisEloqObject)
    : option (option RedisEloqObject) :=
  match obj with
  | ObjList o => in_slot ObjList (f o)
  | ObjListTTL t => in_slot (fun o => ObjListTTL (mkListTTL o (listttl_ttl_ t))) (f (listttl_base t))
  | _ => None
  end.

Definition commit_zset (f : RedisZsetObject -> option (option RedisZsetObject)) (obj : RedisEloqObject)
    : option (option RedisEloqObject) :=
  match obj with
  | ObjZset o => in_slot ObjZset (f o)
  | ObjZsetTTL t => in_slot (fun o => ObjZsetTTL (mkZsetTTL o (zsetttl_ttl_ t))) (f (zsetttl_base t))
  | _ => None
  end.

(** What every stored object satisfies: its fields agree with each other, it
    keeps within the size limit (which LMOVE may pass by the four bytes of a
    length prefix), and an expiry is a [uint64_t].  A string may be the one that
    a command has just created, which is null. *)
Definition sound_list (o : RedisListObject) : Prop := list_wf o /\ image_len (list_contents o) <= MAX_OBJECT_SIZE + 4.
Definition sound_string (o : RedisStringObject) : Prop := (str_wf o \/ o = str_new) /\ str_small (str_StringView o).
Definition sound_hash (o : RedisHashObject) : Prop := hash_wf o /\ hash_image_len (hash_contents o) <= MAX_OBJECT_SIZE.
Definition sound_set (o : RedisHashSetObject) : Prop := set_wf o /\ set_image_len (set_contents o) <= MAX_OBJECT_SIZE.

Definition sound (obj : RedisEloqObject) : Prop :=
  match obj with
  | ObjString o => sound_string o
  | ObjStringTTL t => sound_string (strttl_base t)
  | ObjList o => sound_list o
  | ObjListTTL t => sound_list (listttl_base t)
  | ObjHash o => sound_hash o
  | ObjHashTTL t => sound_hash (hashttl_base t)
  | ObjSet o => sound_set o
  | ObjSetTTL t => sound_set (setttl_base t)
  | ObjZset o => zset_good o
  | ObjZsetTTL t => zset_good (zsetttl_base t)
  end /\ is_u64 (GetTTL obj).

(** A container in a slot is never empty, since the commit that takes the last
    element gives up the slot, and a string in a slot is not null. *)
Definition inhabited (obj : RedisEloqObject) : Prop :=
  match obj with
  | ObjString o => str_wf o
  | ObjStringTTL t => str_wf (strttl_base t)
  | ObjList o => list_contents o <> []
  | ObjListTTL t => list_contents (listttl_base t) <> []
  | ObjHash o => hash_contents o <> ∅
  | ObjHashTTL t => hash_contents (hashttl_base t) <> ∅
  | ObjSet o => set_contents o <> ∅
  | ObjSetTTL t => set_contents (setttl_base t) <> ∅
  | ObjZset o => z_hash_map_ o <> ∅
  | ObjZsetTTL t => z_hash_map_ (zsetttl_base t) <> ∅
  end.

Definition slot_sound (s : option RedisEloqObject) : Prop :=
  match s with None => True | Some obj => sound obj /\ inhabited obj end.

(** A commit on a list works on the list inside the object, and puts the new one
    back with the same expiry; alike for the other types. *)
Lemma commit_list_lens obj o : sound obj -> as_list obj = Some o ->
  sound_list o /\ exists mk, (forall f, commit_list f obj = in_slot mk (f o))
    /\ forall o', sound_list o' -> list_contents o' <> [] -> slot_sound (Some (mk o')).
Proof.
  destruct obj as [| |x|t| | | | | |]; try done; cbn; intros [Hs Ht] [= <-]; (split; [exact Hs|]).
  - by exists ObjList.
  - by exists (fun o => ObjListTTL (mkListTTL o (listttl_ttl_ t))).
Qed.

Lemma commit_zset_lens obj o : sound obj -> as_zset obj = Some o ->
  zset_good o /\ exists mk, (forall f, commit_zset f obj = in_slot mk (f o))
    /\ forall o', zset_good o' -> z_hash_map_ o' <> ∅ -> slot_sound (Some (mk o')).
Proof.
  destruct obj as [| | | | | | | |x|t]; try done; cbn; intros [Hs Ht] [= <-]; (split; [exact Hs|]).
  - by exists ObjZset.
  - by exists (fun o => ObjZsetTTL (mkZsetTTL o (zsetttl_ttl_ t))).
Qed.

(** ** LoggedCommand classes *)

Record CommandClass := mkClass {
  cc_fields : Type;
  cc_result : Type;
  cc_codes : list Z;                                   (* the numbers its images start with *)
  ProceedOnNonExistentObject : cc_fields -> bool;
  CreateObject : option RedisEloqObject;               (* from a null image *)
  ExecuteOn : cc_fields -> RedisEloqObject -> cc_result -> option (cc_fields * cc_result * ExecResult);
  CommitOn : cc_fields -> RedisEloqObject -> option (option RedisEloqObject);
  Serialize : cc_fields -> bytes;
  Deserialize : Z -> Reader cc_fields;                 (* the number, then the bytes after it *)
  OutputResult : cc_fields -> cc_result -> option (list ReplyEvent)
}.

(** An image of the class: one of its numbers, then what [Deserialize] reads. *)
Definition read_image (C : CommandClass) : Reader (cc_fields C) :=
  code <-- read_u8; if bool_decide (code ∈ cc_codes C) then Deserialize C code else fun _ => None.

Lemma Reads_image (C : CommandClass) code body f : code ∈ cc_codes C -> is_u8 code ->
  Reads (Deserialize C code) body f -> Reads (read_image C) (le_bytes 1 code ++ body) f.
Proof. intros Hc Hu Hr. eapply Reads_bind; [by apply Reads_u8|]. by rewrite bool_decide_eq_true_2. Qed.

(** What the engine relies on.  [exec_ok f obj]: the fields are as the parsers
    make them; [image_ok f]: they fit their image; [reread f]: the fields that
    the image gives back. *)
Class Replayable (C : CommandClass) := {
  exec_ok : cc_fields C -> RedisEloqObject -> Prop;
  image_ok : cc_fields C -> Prop;
  reread : cc_fields C -> cc_fields C;
  create_sound obj : CreateObject C = Some obj -> sound obj;
  image_law f : image_ok f -> Reads (read_image C) (Serialize C f) (reread f);
  execute_law f obj r : sound obj -> exec_ok f obj -> is_Some (ExecuteOn C f obj r);
  commit_law f obj r f' r' v : sound obj -> exec_ok f obj ->
    ExecuteOn C f obj r = Some (f', r', v) -> v = ExecWrite \/ v = ExecDelete ->
    exists s, CommitOn C f' obj = Some s /\ CommitOn C (reread f') obj = Some s /\ image_ok f'
      /\ slot_sound s /\ (v = ExecDelete -> s = None)
}.

(** The command is decided on the object; if it is to be committed the commit is
    defined and leaves a sound slot, and its image in the log commits to the
    same one. *)
Definition engine_runs (C : CommandClass) (f : cc_fields C) (obj : RedisEloqObject) : Prop :=
  forall r, exists f' r' v, ExecuteOn C f obj r = Some (f', r', v)
  /\ (v = ExecWrite \/ v = ExecDelete ->
      exists s, CommitOn C f' obj = Some s /\ slot_sound s /\ (v = ExecDelete -> s = None)
      /\ exists f'', read_image C (Serialize C f') = Some (f'', []) /\ CommitOn C f'' obj = Some s).

Lemma engine_runs_ok (C : CommandClass) `{Replayable C} (f : cc_fields C) obj : sound obj -> exec_ok f obj -> engine_runs C f obj.
Proof.
  intros Hs Hok r. destruct (execute_law f obj r Hs Hok) as [[[f' r'] v] HE]. exists f', r', v. split; [done|]. intros Hv.
  destruct (commit_law f obj r f' r' v Hs Hok HE Hv) as (s & H1 & H2 & H3 & H4 & H5). exists s. split_and!; [done..|].
  exists (reread f'). split; [|done]. pose proof (image_law f' H3 []) as Hi. by rewrite app_nil_r in Hi.
Qed.

(** A class that only reads owes no commit. *)
Definition read_only_replayable (C : CommandClass) (ok : cc_fields C -> RedisEloqObject -> Prop) (fits : cc_fields C -> Prop)
    (again : cc_fields C -> cc_fields C) (new : forall obj, CreateObject C = Some obj -> sound obj)
    (image : forall f, fits f -> Reads (read_image C) (Serialize C f) (again f))
    (defined : forall f obj r, sound obj -> ok f obj -> is_Some (ExecuteOn C f obj r))
    (reads_only : forall f obj r f' r' v, ExecuteOn C f obj r = Some (f', r', v) -> v = ExecRead \/ v = ExecFail)
    : Replayable C.
Proof.
  refine {| exec_ok := ok; image_ok := fits; reread := again |}; [done..|].
  intros f obj r f' r' v _ _ HE Hv. destruct (reads_only f obj r f' r' v HE) as [-> | ->]; by destruct Hv.
Defined.

(** ** Replaying a log *)

Section Family.

Context {kind : Type} (class_of : kind -> CommandClass) (kind_of_code : Z -> option kind).
Context `{laws : forall k, Replayable (class_of k)}.
Hypothesis codes_dispatch : forall k code, code ∈ cc_codes (class_of k) -> kind_of_code code = Some k.

Definition LoggedCommand : Type := {k : kind & cc_fields (class_of k)}.

(** [CreateTxCommand]: the first byte of the image chooses the class. *)
Definition create_command : Reader LoggedCommand :=
  code <-- read_u8;
  match kind_of_code code with
  | Some k => f <-- Deserialize (class_of k) code; rret (existT k f)
  | None => fun _ => None
  end.

(** The object in a key's slot, or the one the command creates. *)
Definition slot_object (k : kind) (s : option RedisEloqObject) : option RedisEloqObject :=
  match s with Some obj => Some obj | None => CreateObject (class_of k) end.

(** Commands decided on the slot and committed to it one after the other, and the
    images they leave in the log. *)
Inductive history : option RedisEloqObject -> list bytes -> option RedisEloqObject -> Prop :=
| history_nil s : history s [] s
| history_commit s k f obj r f' r' v s1 log s2 :
    (s = None -> ProceedOnNonExistentObject (class_of k) f = true) ->
    slot_object k s = Some obj -> exec_ok f obj ->
    ExecuteOn (class_of k) f obj r = Some (f', r', v) ->
    v = ExecWrite \/ v = ExecDelete ->
    CommitOn (class_of k) f' obj = Some s1 ->
    history s1 log s2 ->
    history s (Serialize (class_of k) f' :: log) s2.

(** Reading the log back and committing what it says. *)
Fixpoint replay (s : option RedisEloqObject) (log : list bytes) : option (option RedisEloqObject) :=
  match log with
  | [] => Some s
  | image :: log' =>
      '(existT k f, _) ← create_command image;
      obj ← slot_object k s;
      s1 ← CommitOn (class_of k) f obj;
      replay s1 log'
  end.

Lemma slot_object_sound k s obj : slot_sound s -> slot_object k s = Some obj -> sound obj.
Proof. destruct s as [obj'|]; cbn; [intros [H _] [= <-]; exact H|intros _; apply create_sound]. Qed.

Lemma create_command_of k f : image_ok f ->
  Reads create_command (Serialize (class_of k) f) (existT k (reread f)).
Proof using codes_dispatch.
  intros Hf rest. pose proof (image_law f Hf rest) as H. revert H. unfold read_image, create_command, rbind.
  destruct (read_u8 _) as [[code buf]|]; [|done]. case_bool_decide as Hc; [|done].
  rewrite (codes_dispatch k code Hc). by intros ->.
Qed.

Lemma replay_log s log s' : history s log s' -> slot_sound s -> replay s log = Some s' /\ slot_sound s'.
Proof using codes_dispatch.
  induction 1 as [s|s k f obj r f' r' v s1 log s2 _ Hobj Hok HE Hv HC _ IH]; intros Hs; [done|].
  destruct (commit_law f obj r f' r' v (slot_object_sound k s obj Hs Hobj) Hok HE Hv)
    as (s1' & HC1 & HC2 & Him & Hs1 & _).
  rewrite HC in HC1. injection HC1 as <-. cbn [replay].
  pose proof (create_command_of k f' Him []) as Hcr. rewrite app_nil_r in Hcr. rewrite Hcr.
  cbn [mbind option_bind]. rewrite Hobj. cbn [mbind option_bind]. rewrite HC2. cbn [mbind option_bind]. by apply IH.
Qed.

End Family.
