(* ===== verification/ListCommand.v ===== *)
(** * The list commands

    The command objects of src/redis_command.cpp that act on one list: deciding
    on an object ([ExecuteOn]), mutating it ([CommitOn]), the image written to
    the log and sent to standbys ([Serialize], [Deserialize], and the dispatch
    of src/eloqkv_catalog_factory.cpp), and the reply ([OutputResult]).  The
    theorems relate the three: what was decided is what is committed, and what
    is replayed from the image is what was committed. *)

From S2P Require Import Prelude Codec EloqString RedisTypes ListObject RedisObject TxCommand.

(** ** Shared pieces *)

(** [CheckTypeMatch] in front of a command body. *)
Definition CheckTypeMatch_list (obj : RedisEloqObject) : bool :=
  bool_decide (ObjectType obj = TyList).

(** [ListCommand::CreateObject(nullptr)] and from an image. *)
Definition CreateObject_list (image : option bytes) : option RedisListObject :=
  match image with
  | None => Some list_new
  | Some im => match list_Deserialize im with Some (o, _) => Some o | None => None end
  end.

Definition wrong_type (r : RedisListResult) : RedisListResult * ExecResult :=
  (lr_set_err RD_ERR_WRONG_TYPE r, ExecFail).

(** A reply that is a number, 0 for a missing key. *)
Definition output_int_or_zero (r : RedisListResult) : list ReplyEvent :=
  if lr_err_code_ r =? RD_OK then [OnInt (lr_ret_ r)]
  else if lr_err_code_ r =? RD_NIL then [OnInt 0]
  else [OnError (lr_err_code_ r)].

(** ** LPUSH, RPUSH, LPUSHX, RPUSHX *)

Definition LPush_ExecuteOn (elements_ : list EloqString) (object : RedisEloqObject)
    (r : RedisListResult) : RedisListResult * ExecResult :=
  match as_list object with
  | None => wrong_type r
  | Some o => let '(r, st) := Execute_LPush o elements_ r in (r, write_or_fail st)
  end.

Definition LPush_CommitOn (elements_ : list EloqString) (o : RedisListObject) : option RedisListObject :=
  Some (CommitLPush o elements_).1.

Definition LPush_Serialize (elements_ : list EloqString) (str : bytes) : bytes :=
  str ++ le_bytes 1 47 ++ elements_str elements_.

Definition LPush_Deserialize : Reader (list EloqString) := read_elements.

Definition LPush_OutputResult (r : RedisListResult) : list ReplyEvent :=
  if lr_err_code_ r =? RD_OK then [OnInt (lr_ret_ r)] else [OnError (lr_err_code_ r)].

Definition RPush_ExecuteOn (elements_ : list EloqString) (object : RedisEloqObject)
    (r : RedisListResult) : RedisListResult * ExecResult :=
  match as_list object with
  | None => wrong_type r
  | Some o => let '(r, st) := Execute_RPush o elements_ r in (r, write_or_fail st)
  end.

Definition RPush_CommitOn (elements_ : list EloqString) (o : RedisListObject) : option RedisListObject :=
  Some (CommitRPush o elements_).1.

Definition RPush_Serialize (elements_ : list EloqString) (str : bytes) : bytes :=
  str ++ le_bytes 1 58 ++ elements_str elements_.

Definition RPush_Deserialize : Reader (list EloqString) := read_elements.

Definition RPush_OutputResult (r : RedisListResult) : list ReplyEvent :=
  if lr_err_code_ r =? RD_OK then [OnInt (lr_ret_ r)] else [OnError (lr_err_code_ r)].

Definition LPushX_ExecuteOn (elements_ : list EloqString) (object : RedisEloqObject)
    (r : RedisListResult) : RedisListResult * ExecResult :=
  match as_list object with
  | None => wrong_type r
  | Some o =>
      let '(r, st) := Execute_LPushX o elements_ (lr_set_err RD_OK r) in (r, write_or_fail st)
  end.

Definition LPushX_CommitOn (elements_ : list EloqString) (o : RedisListObject) : option RedisListObject :=
  Some (CommitLPush o elements_).1.

Definition LPushX_Serialize (elements_ : list EloqString) (str : bytes) : bytes :=
  str ++ le_bytes 1 48 ++ elements_str elements_.

Definition LPushX_Deserialize : Reader (list EloqString) := read_elements.

Definition LPushX_OutputResult (r : RedisListResult) : list ReplyEvent := output_int_or_zero r.

Definition RPushX_ExecuteOn (elements_ : list EloqString) (object : RedisEloqObject)
    (r : RedisListResult) : RedisListResult * ExecResult :=
  match as_list object with
  | None => wrong_type r
  | Some o =>
      let '(r, st) := Execute_RPushX o elements_ (lr_set_err RD_OK r) in (r, write_or_fail st)
  end.

Definition RPushX_CommitOn (elements_ : list EloqString) (o : RedisListObject) : option RedisListObject :=
  Some (CommitRPush o elements_).1.

Definition RPushX_Serialize (elements_ : list EloqString) (str : bytes) : bytes :=
  str ++ le_bytes 1 59 ++ elements_str elements_.

Definition RPushX_Deserialize : Reader (list EloqString) := read_elements.

Definition RPushX_OutputResult (r : RedisListResult) : list ReplyEvent := output_int_or_zero r.

(** ** LPOP and RPOP *)

Definition LPop_ExecuteOn (count_ : Z) (object : RedisEloqObject) (r : RedisListResult)
    : RedisListResult * ExecResult :=
  match as_list object with
  | None => wrong_type r
  | Some o => let '(r, st) := Execute_LPop o count_ r in (r, write_delete_or_fail st)
  end.

Definition LPop_CommitOn (count_ : Z) (o : RedisListObject) : option RedisListObject :=
  null_if_empty (CommitLPop o (if count_ =? -1 then 1 else count_)).

Definition LPop_Serialize (count_ : Z) (str : bytes) : bytes :=
  str ++ le_bytes 1 46 ++ le_bytes 8 count_.

Definition LPop_Deserialize : Reader Z := read_i64.

(** [None]: [std::get] on another alternative, or [[0]] of an empty vector. *)
Definition LPop_OutputResult (count_ : Z) (r : RedisListResult) : option (list ReplyEvent) :=
  if lr_err_code_ r =? RD_OK then
    match lr_result_ r with
    | LRStrings l =>
        if count_ =? -1 then (match l with s :: _ => Some [OnString s] | [] => None end)
        else Some (output_array l)
    | _ => None
    end
  else if lr_err_code_ r =? RD_NIL then Some [OnNil]
  else Some [OnError (lr_err_code_ r)].

Definition RPop_ExecuteOn (count_ : Z) (object : RedisEloqObject) (r : RedisListResult)
    : RedisListResult * ExecResult :=
  match as_list object with
  | None => wrong_type r
  | Some o => let '(r, st) := Execute_RPop o count_ r in (r, write_delete_or_fail st)
  end.

Definition RPop_CommitOn (count_ : Z) (o : RedisListObject) : option RedisListObject :=
  null_if_empty (CommitRPop o (if count_ =? -1 then 1 else count_)).

Definition RPop_Serialize (count_ : Z) (str : bytes) : bytes :=
  str ++ le_bytes 1 56 ++ le_bytes 8 count_.

Definition RPop_Deserialize : Reader Z := read_i64.

Definition RPop_OutputResult (count_ : Z) (r : RedisListResult) : option (list ReplyEvent) :=
  if lr_err_code_ r =? RD_OK then
    match lr_result_ r with
    | LRStrings l =>
        if count_ =? -1 then (match l with s :: _ => Some [OnString s] | [] => None end)
        else Some (output_array l)
    | _ => None
    end
  else if lr_err_code_ r =? RD_NIL then Some [OnNil]
  else Some [OnError (lr_err_code_ r)].

(** ** The two halves of LMOVE *)

Definition LMovePop_ExecuteOn (is_left_ : bool) (object : RedisEloqObject) (r : RedisListResult)
    : RedisListResult * ExecResult :=
  match as_list object with
  | None => wrong_type r
  | Some o => let '(r, st) := Execute_LMovePop o is_left_ r in (r, write_delete_or_fail st)
  end.

Definition LMovePop_CommitOn (is_left_ : bool) (o : RedisListObject) : option RedisListObject :=
  null_if_empty (CommitLMovePop o is_left_).

Definition LMovePop_Serialize (is_left_ : bool) (str : bytes) : bytes :=
  str ++ le_bytes 1 51 ++ bool_str is_left_.

Definition LMovePop_Deserialize : Reader bool := read_bool.

(** The code asks for the [std::string] alternative. *)
Definition LMovePop_OutputResult (r : RedisListResult) : option (list ReplyEvent) :=
  if lr_err_code_ r =? RD_OK then
    match lr_result_ r with LRString s => Some [OnString s] | _ => None end
  else if lr_err_code_ r =? RD_NIL then Some [OnNil]
  else Some [OnError (lr_err_code_ r)].

Definition LMovePush_ExecuteOn (element_ : EloqString) (object : RedisEloqObject)
    (r : RedisListResult) : RedisListResult * ExecResult :=
  match as_list object with
  | None => wrong_type r
  | Some o => let '(r, st) := Execute_LMovePush o element_ r in (r, write_or_fail st)
  end.

Definition LMovePush_CommitOn (is_left_ : bool) (element_ : EloqString)
    (is_in_the_middle_stage_ : bool) (o : RedisListObject) : option RedisListObject :=
  Some (CommitLMovePush o is_left_ element_ is_in_the_middle_stage_).1.

Definition LMovePush_Serialize (is_left_ : bool) (element_ : EloqString) (str : bytes) : bytes :=
  str ++ le_bytes 1 52 ++ bool_str is_left_ ++ lp_string (es_view element_).

Definition LMovePush_Deserialize : Reader (bool * EloqString) :=
  is_left_ <-- read_bool; element_ <-- read_element; rret (is_left_, element_).

Definition LMovePush_OutputResult (r : RedisListResult) : option (list ReplyEvent) :=
  if lr_err_code_ r =? RD_OK then
    match lr_result_ r with LREloq s => Some [OnString (es_view s)] | _ => None end
  else if lr_err_code_ r =? RD_NIL then Some [OnNil]
  else Some [OnError (lr_err_code_ r)].

(** ** The reading commands *)

(** The fields are [int32_t]; the constructor narrows its arguments. *)
Definition LRange_fields (start end_ : Z) : Z * Z := (i32 start, i32 end_).

Definition LRange_ExecuteOn (start_ end_ : Z) (object : RedisEloqObject) (r : RedisListResult)
    : RedisListResult * ExecResult :=
  match as_list object with
  | None => wrong_type r
  | Some o => (Execute_LRange o start_ end_ r, ExecRead)
  end.

Definition LRange_Serialize (start_ end_ : Z) (str : bytes) : bytes :=
  str ++ le_bytes 1 49 ++ le_bytes 4 start_ ++ le_bytes 4 end_.

Definition LRange_Deserialize : Reader (Z * Z) :=
  start_ <-- read_i32; end_ <-- read_i32; rret (start_, end_).

Definition LRange_OutputResult (r : RedisListResult) : option (list ReplyEvent) :=
  if lr_err_code_ r =? RD_OK then
    match lr_result_ r with LRStrings l => Some (output_array l) | _ => None end
  else if lr_err_code_ r =? RD_NIL then Some [OnArrayStart 0; OnArrayEnd]
  else Some [OnError (lr_err_code_ r)].

Definition LLen_ExecuteOn (object : RedisEloqObject) (r : RedisListResult)
    : RedisListResult * ExecResult :=
  match as_list object with
  | None => wrong_type r
  | Some o => (Execute_LLen o (lr_set_err RD_OK r), ExecRead)
  end.

Definition LLen_Serialize (str : bytes) : bytes := str ++ le_bytes 1 45.

Definition LLen_OutputResult (r : RedisListResult) : list ReplyEvent := output_int_or_zero r.

(** [index_] is updated; [None] is an access out of range. *)
Definition LIndex_ExecuteOn (index_ : Z) (object : RedisEloqObject) (r : RedisListResult)
    : option (Z * RedisListResult * ExecResult) :=
  match as_list object with
  | None => Some (index_, (wrong_type r).1, (wrong_type r).2)
  | Some o =>
      match Execute_LIndex o index_ (lr_set_err RD_OK r) with
      | Some (index_, r) => Some (index_, r, ExecRead)
      | None => None
      end
  end.

Definition LIndex_Serialize (index_ : Z) (str : bytes) : bytes :=
  str ++ le_bytes 1 42 ++ le_bytes 8 index_.

Definition LIndex_Deserialize : Reader Z := read_i64.

Definition LIndex_OutputResult (r : RedisListResult) : option (list ReplyEvent) :=
  if lr_err_code_ r =? RD_OK then
    match lr_result_ r with LRStrings (s :: _) => Some [OnString s] | _ => None end
  else if lr_err_code_ r =? RD_NIL then Some [OnNil]
  else Some [OnError (lr_err_code_ r)].

Definition LPos_ExecuteOn (element_ : EloqString) (rank_ count_ len_ : Z)
    (object : RedisEloqObject) (r : RedisListResult) : RedisListResult * ExecResult :=
  match as_list object with
  | None => wrong_type r
  | Some o => (Execute_LPos o element_ rank_ count_ len_ (lr_set_err RD_OK r), ExecRead)
  end.

Definition LPos_Serialize (element_ : EloqString) (rank_ count_ len_ : Z) (str : bytes) : bytes :=
  str ++ le_bytes 1 44 ++ lp_string (es_view element_) ++ le_bytes 8 rank_ ++ le_bytes 8 count_
      ++ le_bytes 8 len_.

Definition LPos_Deserialize : Reader (EloqString * Z * Z * Z) :=
  element_ <-- read_element; rank_ <-- read_i64; count_ <-- read_i64; len_ <-- read_u64;
  rret (element_, rank_, count_, len_).

Definition LPos_OutputResult (count_ : Z) (r : RedisListResult) : option (list ReplyEvent) :=
  if lr_err_code_ r =? RD_OK then
    match lr_result_ r with
    | LRInt64s l =>
        if negb (count_ =? -1) then Some (OnArrayStart (zlen l) :: (OnInt <$> l) ++ [OnArrayEnd])
        else (match l with i :: _ => Some [OnInt i] | [] => None end)
    | _ => None
    end
  else if lr_err_code_ r =? RD_NIL then
    Some (if negb (count_ =? -1) then [OnArrayStart 0; OnArrayEnd] else [OnNil])
  else Some [OnError (lr_err_code_ r)].

(** ** LTRIM, LINSERT, LSET, LREM *)

(** [start_] and [end_] are replaced by the normalized range. *)
Definition LTrim_ExecuteOn (start_ end_ : Z) (object : RedisEloqObject) (r : RedisListResult)
    : (Z * Z) * RedisListResult * ExecResult :=
  match as_list object with
  | None => ((start_, end_), (wrong_type r).1, (wrong_type r).2)
  | Some o =>
      let '(se, r, st) := Execute_LTrim o start_ end_ (lr_set_err RD_OK r) in
      (se, r, write_delete_or_fail st)
  end.

Definition LTrim_CommitOn (start_ end_ : Z) (o : RedisListObject) : option RedisListObject :=
  null_if_empty (CommitLTrim o start_ end_).

Definition LTrim_Serialize (start_ end_ : Z) (str : bytes) : bytes :=
  str ++ le_bytes 1 55 ++ le_bytes 8 start_ ++ le_bytes 8 end_.

Definition LTrim_Deserialize : Reader (Z * Z) :=
  start_ <-- read_i64; end_ <-- read_i64; rret (start_, end_).

Definition LTrim_OutputResult (r : RedisListResult) : list ReplyEvent :=
  if (lr_err_code_ r =? RD_OK) || (lr_err_code_ r =? RD_NIL)
  then [OnStatus RD_OK] else [OnError (lr_err_code_ r)].

Definition LInsert_ExecuteOn (pivot_ element_ : EloqString) (object : RedisEloqObject)
    (r : RedisListResult) : RedisListResult * ExecResult :=
  match as_list object with
  | None => wrong_type r
  | Some o =>
      let '(r, st) := Execute_LInsert o pivot_ element_ (lr_set_err RD_OK r) in
      (r, write_or_fail st)
  end.

Definition LInsert_CommitOn (is_before_ : bool) (pivot_ element_ : EloqString)
    (o : RedisListObject) : option RedisListObject :=
  Some (CommitLInsert o is_before_ pivot_ element_).1.

Definition LInsert_Serialize (is_before_ : bool) (pivot_ element_ : EloqString) (str : bytes)
    : bytes :=
  str ++ le_bytes 1 43 ++ bool_str is_before_ ++ lp_string (es_view pivot_)
      ++ lp_string (es_view element_).

Definition LInsert_Deserialize : Reader (bool * EloqString * EloqString) :=
  is_before_ <-- read_bool; pivot_ <-- read_element; element_ <-- read_element;
  rret (is_before_, pivot_, element_).

Definition LInsert_OutputResult (r : RedisListResult) : list ReplyEvent :=
  if (lr_err_code_ r =? RD_OK) || (lr_err_code_ r =? RD_NIL)
  then [OnInt (lr_ret_ r)] else [OnError (lr_err_code_ r)].

(** [index_] is replaced by the converted index. *)
Definition LSet_ExecuteOn (index_ : Z) (element_ : EloqString) (object : RedisEloqObject)
    (r : RedisListResult) : Z * RedisListResult * ExecResult :=
  match as_list object with
  | None => (index_, (wrong_type r).1, (wrong_type r).2)
  | Some o =>
      let '(index_, r, st) := Execute_LSet o index_ element_ (lr_set_err RD_OK r) in
      (index_, r, write_or_fail st)
  end.

(** The outer [None] is the iterator running out of the list. *)
Definition LSet_CommitOn (index_ : Z) (element_ : EloqString) (o : RedisListObject)
    : option (option RedisListObject) :=
  match CommitLSet o index_ element_ with
  | Some (o, _) => Some (Some o)
  | None => None
  end.

Definition LSet_Serialize (index_ : Z) (element_ : EloqString) (str : bytes) : bytes :=
  str ++ le_bytes 1 54 ++ le_bytes 8 index_ ++ lp_string (es_view element_).

Definition LSet_Deserialize : Reader (Z * EloqString) :=
  index_ <-- read_i64; element_ <-- read_element; rret (index_, element_).

Definition LSet_OutputResult (r : RedisListResult) : list ReplyEvent :=
  if lr_err_code_ r =? RD_OK then [OnStatus RD_OK]
  else if lr_err_code_ r =? RD_NIL then [OnError RD_ERR_NO_SUCH_KEY]
  else [OnError (lr_err_code_ r)].

Definition LRem_ExecuteOn (count_ : Z) (element_ : EloqString) (object : RedisEloqObject)
    (r : RedisListResult) : RedisListResult * ExecResult :=
  match as_list object with
  | None => wrong_type r
  | Some o =>
      let '(r, st) := Execute_LRem o count_ element_ (lr_set_err RD_OK r) in
      (r, write_delete_or_fail st)
  end.

Definition LRem_CommitOn (count_ : Z) (element_ : EloqString) (o : RedisListObject)
    : option RedisListObject :=
  null_if_empty (CommitLRem o count_ element_).

Definition LRem_Serialize (count_ : Z) (element_ : EloqString) (str : bytes) : bytes :=
  str ++ le_bytes 1 53 ++ lp_string (es_view element_) ++ le_bytes 8 count_.

Definition LRem_Deserialize : Reader (Z * EloqString) :=
  element_ <-- read_element; count_ <-- read_i64; rret (count_, element_).

Definition LRem_OutputResult (r : RedisListResult) : list ReplyEvent := output_int_or_zero r.

(** ** The blocking pop *)

(** The enumerators of [txservice::BlockOperation] that the commands name. *)
Inductive BlockOperation :=
| NoBlock | PopBlock | PopNoBlock | BlockLock | PopElement | Discard.

#[global] Instance BlockOperation_eq_dec : EqDecision BlockOperation.
Proof. solve_decision. Defined.

Definition BlockLPop_ExecuteOn (op_type_ : BlockOperation) (is_left_ : bool) (count_ : Z)
    (object : RedisEloqObject) (r : RedisListResult) : RedisListResult * ExecResult :=
  match as_list object with
  | None => wrong_type r
  | Some o =>
      let r := lr_set_err RD_OK r in
      let '(r, has_elements, empty_after_pop) :=
        match op_type_ with
        | BlockLock => (lr_set_ret (list_size o) r, 0 <? list_size o, false)
        | _ =>
            let '(r, st) := Execute_BlockLPop o is_left_ count_ r in
            (r, negb (bool_decide (st = NoChange)), bool_decide (st = ModifiedToEmpty))
        end in
      let for_pop := if empty_after_pop then ExecDelete else ExecWrite in
      (r, match op_type_ with
          | NoBlock => if has_elements then for_pop else ExecRead
          | PopBlock => if has_elements then for_pop else ExecBlock
          | PopNoBlock => if has_elements then for_pop else ExecUnlock
          | BlockLock => if has_elements then ExecRead else ExecBlock
          | PopElement => for_pop
          | Discard => ExecFail
          end)
  end.

Definition BlockLPop_CommitOn (is_left_ : bool) (count_ : Z) (o : RedisListObject)
    : option RedisListObject :=
  let '(o, not_empty) := CommitBlockPop o is_left_ count_ in
  if not_empty then Some o else None.

Definition AblePopBlockRequest (object : option RedisEloqObject) : bool :=
  match object with
  | None => false
  | Some object =>
      match as_list object with
      | None => false
      | Some o => negb (list_is_empty o)
      end
  end.

(** ** The commands *)

Inductive ListCmd :=
| LPushCommand (elements_ : list EloqString)
| RPushCommand (elements_ : list EloqString)
| LPushXCommand (elements_ : list EloqString)
| RPushXCommand (elements_ : list EloqString)
| LPopCommand (count_ : Z)
| RPopCommand (count_ : Z)
| LMovePopCommand (is_left_ : bool)
| LMovePushCommand (is_left_ : bool) (element_ : EloqString) (is_in_the_middle_stage_ : bool)
| LRangeCommand (start_ end_ : Z)
| LLenCommand
| LTrimCommand (start_ end_ : Z)
| LIndexCommand (index_ : Z)
| LInsertCommand (is_before_ : bool) (pivot_ element_ : EloqString)
| LPosCommand (element_ : EloqString) (rank_ count_ len_ : Z)
| LSetCommand (index_ : Z) (element_ : EloqString)
| LRemCommand (count_ : Z) (element_ : EloqString)
| BlockLPopCommand (op_type_ : BlockOperation) (is_left_ : bool) (count_ : Z)
| BlockDiscardCommand.

(** The virtual call: the command afterwards, its result and the verdict. *)
Definition List_ExecuteOn (c : ListCmd) (object : RedisEloqObject) (r : RedisListResult)
    : option (ListCmd * RedisListResult * ExecResult) :=
  let same (res : RedisListResult * ExecResult) := Some (c, res.1, res.2) in
  match c with
  | LPushCommand els => same (LPush_ExecuteOn els object r)
  | RPushCommand els => same (RPush_ExecuteOn els object r)
  | LPushXCommand els => same (LPushX_ExecuteOn els object r)
  | RPushXCommand els => same (RPushX_ExecuteOn els object r)
  | LPopCommand count => same (LPop_ExecuteOn count object r)
  | RPopCommand count => same (RPop_ExecuteOn count object r)
  | LMovePopCommand l => same (LMovePop_ExecuteOn l object r)
  | LMovePushCommand _ e _ => same (LMovePush_ExecuteOn e object r)
  | LRangeCommand s e => same (LRange_ExecuteOn s e object r)
  | LLenCommand => same (LLen_ExecuteOn object r)
  | LTrimCommand s e =>
      let '((s, e), r, v) := LTrim_ExecuteOn s e object r in Some (LTrimCommand s e, r, v)
  | LIndexCommand i =>
      match LIndex_ExecuteOn i object r with
      | Some (i, r, v) => Some (LIndexCommand i, r, v)
      | None => None
      end
  | LInsertCommand _ p e => same (LInsert_ExecuteOn p e object r)
  | LPosCommand e rank count len => same (LPos_ExecuteOn e rank count len object r)
  | LSetCommand i e =>
      let '(i, r, v) := LSet_ExecuteOn i e object r in Some (LSetCommand i e, r, v)
  | LRemCommand count e => same (LRem_ExecuteOn count e object r)
  | BlockLPopCommand op l count => same (BlockLPop_ExecuteOn op l count object r)
  | BlockDiscardCommand => Some (c, r, ExecFail)
  end.

(** [None]: the command has no commit, or it leaves the list; [Some None] is
    [nullptr]. *)
Definition List_CommitOn (c : ListCmd) (o : RedisListObject) : option (option RedisListObject) :=
  match c with
  | LPushCommand els => Some (LPush_CommitOn els o)
  | RPushCommand els => Some (RPush_CommitOn els o)
  | LPushXCommand els => Some (LPushX_CommitOn els o)
  | RPushXCommand els => Some (RPushX_CommitOn els o)
  | LPopCommand count => Some (LPop_CommitOn count o)
  | RPopCommand count => Some (RPop_CommitOn count o)
  | LMovePopCommand l => Some (LMovePop_CommitOn l o)
  | LMovePushCommand l e m => Some (LMovePush_CommitOn l e m o)
  | LTrimCommand s e => Some (LTrim_CommitOn s e o)
  | LInsertCommand b p e => Some (LInsert_CommitOn b p e o)
  | LSetCommand i e => LSet_CommitOn i e o
  | LRemCommand count e => Some (LRem_CommitOn count e o)
  | BlockLPopCommand _ l count => Some (BlockLPop_CommitOn l count o)
  | LRangeCommand _ _ | LLenCommand | LIndexCommand _ | LPosCommand _ _ _ _
  | BlockDiscardCommand => None
  end.

(** Whether the command runs on a missing key, on a freshly created object. *)
Definition List_ProceedOnNonExistentObject (c : ListCmd) : bool :=
  match c with
  | LPushCommand _ | RPushCommand _ | LMovePushCommand _ _ _ | BlockLPopCommand _ _ _ => true
  | _ => false
  end.

(** ** Command images

    The numbers of [txservice::BlockOperation] are not part of this code:
    [block_code] is the enumerator's value and [block_of] the cast back. *)

Section Image.

Context (block_code : BlockOperation -> Z) (block_of : Z -> BlockOperation).

Definition BlockLPop_Serialize (op_type_ : BlockOperation) (is_left_ : bool) (count_ : Z)
    (str : bytes) : bytes :=
  str ++ le_bytes 1 35 ++ le_bytes 1 (block_code op_type_) ++ le_bytes 1 (if is_left_ then 1 else 0)
      ++ le_bytes 4 count_.

Definition BlockLPop_Deserialize : Reader (BlockOperation * bool * Z) :=
  op_type <-- read_u8; is_left <-- read_u8; count_ <-- read_u32;
  rret (block_of op_type, negb (is_left =? 0), count_).

Definition BlockDiscard_Serialize (str : bytes) : bytes := str ++ le_bytes 1 36.

Definition List_Serialize (c : ListCmd) (str : bytes) : bytes :=
  match c with
  | LPushCommand els => LPush_Serialize els str
  | RPushCommand els => RPush_Serialize els str
  | LPushXCommand els => LPushX_Serialize els str
  | RPushXCommand els => RPushX_Serialize els str
  | LPopCommand count => LPop_Serialize count str
  | RPopCommand count => RPop_Serialize count str
  | LMovePopCommand l => LMovePop_Serialize l str
  | LMovePushCommand l e _ => LMovePush_Serialize l e str
  | LRangeCommand s e => LRange_Serialize s e str
  | LLenCommand => LLen_Serialize str
  | LTrimCommand s e => LTrim_Serialize s e str
  | LIndexCommand i => LIndex_Serialize i str
  | LInsertCommand b p e => LInsert_Serialize b p e str
  | LPosCommand e rank count len => LPos_Serialize e rank count len str
  | LSetCommand i e => LSet_Serialize i e str
  | LRemCommand count e => LRem_Serialize count e str
  | BlockLPopCommand op l count => BlockLPop_Serialize op l count str
  | BlockDiscardCommand => BlockDiscard_Serialize str
  end.

(** The list commands of the dispatch on the first byte; a fresh command has
    [is_in_the_middle_stage_{true}]. *)
Definition List_Deserialize (cmd_type : Z) : Reader ListCmd :=
  (if cmd_type =? 58 then els <-- RPush_Deserialize; rret (RPushCommand els)
   else if cmd_type =? 47 then els <-- LPush_Deserialize; rret (LPushCommand els)
   else if cmd_type =? 46 then n <-- LPop_Deserialize; rret (LPopCommand n)
   else if cmd_type =? 56 then n <-- RPop_Deserialize; rret (RPopCommand n)
   else if cmd_type =? 55 then se <-- LTrim_Deserialize; rret (LTrimCommand se.1 se.2)
   else if cmd_type =? 42 then i <-- LIndex_Deserialize; rret (LIndexCommand i)
   else if cmd_type =? 43 then
     bpe <-- LInsert_Deserialize; rret (LInsertCommand bpe.1.1 bpe.1.2 bpe.2)
   else if cmd_type =? 44 then
     p <-- LPos_Deserialize; rret (LPosCommand p.1.1.1 p.1.1.2 p.1.2 p.2)
   else if cmd_type =? 54 then ie <-- LSet_Deserialize; rret (LSetCommand ie.1 ie.2)
   else if cmd_type =? 53 then ce <-- LRem_Deserialize; rret (LRemCommand ce.1 ce.2)
   else if cmd_type =? 51 then l <-- LMovePop_Deserialize; rret (LMovePopCommand l)
   else if cmd_type =? 52 then le <-- LMovePush_Deserialize; rret (LMovePushCommand le.1 le.2 true)
   else if cmd_type =? 48 then els <-- LPushX_Deserialize; rret (LPushXCommand els)
   else if cmd_type =? 59 then els <-- RPushX_Deserialize; rret (RPushXCommand els)
   else if cmd_type =? 45 then rret LLenCommand
   else if cmd_type =? 49 then se <-- LRange_Deserialize; rret (LRangeCommand se.1 se.2)
   else if cmd_type =? 35 then
     b <-- BlockLPop_Deserialize; rret (BlockLPopCommand b.1.1 b.1.2 b.2)
   else if cmd_type =? 36 then rret BlockDiscardCommand
   else fun _ => None).

Definition List_CreateTxCommand : Reader ListCmd := cmd_type <-- read_u8; List_Deserialize cmd_type.

End Image.

(** ** Replies *)

(** [None]: [std::get] or an index would fail.  The last two commands only run
    as children of others and write nothing. *)
Definition List_OutputResult (c : ListCmd) (r : RedisListResult) : option (list ReplyEvent) :=
  match c with
  | LPushCommand _ => Some (LPush_OutputResult r)
  | RPushCommand _ => Some (RPush_OutputResult r)
  | LPushXCommand _ => Some (LPushX_OutputResult r)
  | RPushXCommand _ => Some (RPushX_OutputResult r)
  | LPopCommand count => LPop_OutputResult count r
  | RPopCommand count => RPop_OutputResult count r
  | LMovePopCommand _ => LMovePop_OutputResult r
  | LMovePushCommand _ _ _ => LMovePush_OutputResult r
  | LRangeCommand _ _ => LRange_OutputResult r
  | LLenCommand => Some (LLen_OutputResult r)
  | LTrimCommand _ _ => Some (LTrim_OutputResult r)
  | LIndexCommand _ => LIndex_OutputResult r
  | LInsertCommand _ _ _ => Some (LInsert_OutputResult r)
  | LPosCommand _ _ count _ => LPos_OutputResult count r
  | LSetCommand _ _ => Some (LSet_OutputResult r)
  | LRemCommand _ _ => Some (LRem_OutputResult r)
  | BlockLPopCommand _ _ _ | BlockDiscardCommand => Some []
  end.

(** ** Results sent between nodes *)

(** [RedisCommandResult::Serialize]. *)
Definition RedisCommandResult_Serialize (err_code_ : Z) (buf : bytes) : bytes :=
  buf ++ le_bytes 4 err_code_.

(** [None] is the alternative the code asserts away. *)
Definition RedisListResult_Serialize (r : RedisListResult) (buf : bytes) : option bytes :=
  let buf := RedisCommandResult_Serialize (lr_err_code_ r) (buf ++ le_bytes 1 3) ++ le_bytes 8 (lr_ret_ r) in
  match lr_result_ r with
  | LRInt64s l =>
      Some (buf ++ le_bytes 1 5 ++ le_bytes 4 (zlen l) ++ concat (le_bytes 8 <$> l))
  | LRStrings l =>
      Some (buf ++ le_bytes 1 4 ++ le_bytes 4 (zlen l) ++ concat (lp_string <$> l))
  | LREloq s => Some (buf ++ le_bytes 1 8 ++ le_bytes 4 (es_length s) ++ es_view s)
  | LRString _ => None
  end.

Definition RedisListResult_Deserialize : Reader RedisListResult :=
  _ <-- read_u8; err_code_ <-- read_i32; ret_ <-- read_i64; result_type <-- read_u8;
  (if result_type =? 5 then
     cnt <-- read_u32; l <-- read_times (Z.to_nat cnt) read_i64;
     rret (mkListResult err_code_ (LRInt64s l) ret_)
   else if result_type =? 4 then
     cnt <-- read_u32; l <-- read_times (Z.to_nat cnt) read_lp_string;
     rret (mkListResult err_code_ (LRStrings l) ret_)
   else if result_type =? 8 then
     e <-- read_element; rret (mkListResult err_code_ (LREloq e) ret_)
   else fun _ => None).

(** ** Round trips *)

(** Fields within their C++ types, and lengths that fit the [uint32_t] prefixes. *)
Definition cmd_ok (c : ListCmd) : Prop :=
  match c with
  | LPushCommand els | RPushCommand els | LPushXCommand els | RPushXCommand els =>
      Forall es_fits els /\ is_u32 (zlen els)
  | LPopCommand count | RPopCommand count => is_i64 count
  | LMovePushCommand _ e _ => es_fits e
  | LRangeCommand s e => is_i32 s /\ is_i32 e
  | LTrimCommand s e => is_i64 s /\ is_i64 e
  | LIndexCommand i => is_i64 i
  | LInsertCommand _ p e => es_fits p /\ es_fits e
  | LPosCommand e rank count len => es_fits e /\ is_i64 rank /\ is_i64 count /\ is_u64 len
  | LSetCommand i e => is_i64 i /\ es_fits e
  | LRemCommand count e => is_i64 count /\ es_fits e
  | BlockLPopCommand _ _ count => is_u32 count
  | LMovePopCommand _ | LLenCommand | BlockDiscardCommand => True
  end.

(** The command as it is read back: every string owned, and the flag that is
    not written at its default. *)
Definition own_cmd (c : ListCmd) : ListCmd :=
  match c with
  | LPushCommand els => LPushCommand (own <$> els)
  | RPushCommand els => RPushCommand (own <$> els)
  | LPushXCommand els => LPushXCommand (own <$> els)
  | RPushXCommand els => RPushXCommand (own <$> els)
  | LMovePushCommand l e _ => LMovePushCommand l (own e) true
  | LInsertCommand b p e => LInsertCommand b (own p) (own e)
  | LPosCommand e rank count len => LPosCommand (own e) rank count len
  | LSetCommand i e => LSetCommand i (own e)
  | LRemCommand count e => LRemCommand count (own e)
  | _ => c
  end.

Section ImageOk.

Context (block_code : BlockOperation -> Z) (block_of : Z -> BlockOperation).
Hypothesis block_code_u8 : forall op, is_u8 (block_code op).
Hypothesis block_of_code : forall op, block_of (block_code op) = op.

Lemma Reads_cmd (n : Z) (k : Z -> Reader ListCmd) w c :
  is_u8 n -> Reads (k n) w c -> Reads (rbind read_u8 k) (le_bytes 1 n ++ w) c.
Proof. intros Hn H. eapply Reads_bind; [by apply Reads_u8|done]. Qed.

Lemma Reads_insert b p e :
  es_fits p -> es_fits e ->
  Reads LInsert_Deserialize (bool_str b ++ lp_string (es_view p) ++ lp_string (es_view e)) (b, own p, own e).
Proof.
  intros. unfold LInsert_Deserialize. eapply Reads_bind; [apply Reads_bool|].
  eapply Reads_bind; [by apply Reads_element|]. eapply Reads_bind_ret; [by apply Reads_element|done].
Qed.

Lemma Reads_lpos e rank count len :
  es_fits e -> is_i64 rank -> is_i64 count -> is_u64 len ->
  Reads LPos_Deserialize (lp_string (es_view e) ++ le_bytes 8 rank ++ le_bytes 8 count ++ le_bytes 8 len)
    (own e, rank, count, len).
Proof.
  intros. unfold LPos_Deserialize. eapply Reads_bind; [by apply Reads_element|].
  eapply Reads_bind; [by apply Reads_i64|]. eapply Reads_bind; [by apply Reads_i64|].
  eapply Reads_bind_ret; [by apply Reads_u64|done].
Qed.

Lemma Reads_lrem count e :
  is_i64 count -> es_fits e ->
  Reads LRem_Deserialize (lp_string (es_view e) ++ le_bytes 8 count) (count, own e).
Proof.
  intros. eapply Reads_bind; [by apply Reads_element|]. eapply Reads_bind_ret; [by apply Reads_i64|done].
Qed.

Lemma Reads_block op (l : bool) count :
  is_u32 count ->
  Reads (BlockLPop_Deserialize block_of)
    (le_bytes 1 (block_code op) ++ le_bytes 1 (if l then 1 else 0) ++ le_bytes 4 count) (op, l, count).
Proof using block_code_u8 block_of_code.
  intros. unfold BlockLPop_Deserialize. eapply Reads_bind; [by apply Reads_u8|].
  eapply Reads_bind; [apply (Reads_u8 (if l then 1 else 0)); mach; destruct l; lia|].
  eapply Reads_bind_ret; [by apply Reads_u32|].
  rewrite block_of_code. by destruct l.
Qed.

Lemma List_CreateTxCommand_of c :
  cmd_ok c -> Reads (List_CreateTxCommand block_of) (List_Serialize block_code c []) (own_cmd c).
Proof using block_code_u8 block_of_code.
  intros H. unfold List_CreateTxCommand, List_Deserialize.
  destruct c; cbn [cmd_ok List_Serialize own_cmd] in *; destruct_and?;
    unfold LPush_Serialize, RPush_Serialize, LPushX_Serialize, RPushX_Serialize, LPop_Serialize,
      RPop_Serialize, LMovePop_Serialize, LMovePush_Serialize, LRange_Serialize, LLen_Serialize,
      LTrim_Serialize, LIndex_Serialize, LInsert_Serialize, LPos_Serialize, LSet_Serialize,
      LRem_Serialize, BlockLPop_Serialize, BlockDiscard_Serialize; rewrite app_nil_l.
  all: first [ apply Reads_cmd; [mach; lia|]
             | match goal with |- Reads _ ?w _ => rewrite <-(app_nil_r w) end; apply Reads_cmd; [mach; lia|] ].
  all: cbn [Z.eqb Pos.eqb]; try apply Reads_ret.
  all: eapply Reads_bind_ret;
    [first [ by apply Reads_insert | by apply Reads_lpos | by apply Reads_lrem | by apply Reads_block
           | (apply Reads_pair; eauto with codec) | (apply Reads_elements; done)
           | (apply Reads_i64; done) | apply Reads_bool ]|done].
Qed.

End ImageOk.

(** ** What a command does to the abstract list *)

(** LPOP and RPOP without a count pop one element. *)
Definition pop_count (count_ : Z) : Z := u64 (if count_ =? -1 then 1 else count_).

Definition spec_apply (c : ListCmd) (cs : list bytes) : list bytes :=
  match c with
  | LPushCommand els | LPushXCommand els => reverse (es_view <$> els) ++ cs
  | RPushCommand els | RPushXCommand els => cs ++ (es_view <$> els)
  | LPopCommand count => spec_pop true (Z.to_nat (pop_count count)) cs
  | RPopCommand count => spec_pop false (Z.to_nat (pop_count count)) cs
  | LMovePopCommand l => spec_pop l 1 cs
  | LMovePushCommand l e _ => if l then es_view e :: cs else cs ++ [es_view e]
  | LTrimCommand s e => spec_ltrim s e cs
  | LInsertCommand b p e => spec_insert b (es_view p) (es_view e) cs
  | LSetCommand i e => <[Z.to_nat (spec_index (zlen cs) i) := es_view e]> cs
  | LRemCommand count e => spec_lrem count (es_view e) cs
  | BlockLPopCommand _ l count => spec_pop l (Z.to_nat count) cs
  | LRangeCommand _ _ | LLenCommand | LIndexCommand _ | LPosCommand _ _ _ _
  | BlockDiscardCommand => cs
  end.

(** When a command may be committed on [cs]. *)
Definition commit_ok (c : ListCmd) (cs : list bytes) : Prop :=
  match c with
  | LPushCommand els | RPushCommand els | LPushXCommand els | RPushXCommand els =>
      Forall es_fits els /\ els <> []
  | LPopCommand _ | RPopCommand _ | LTrimCommand _ _ => True
  | LMovePopCommand _ => cs <> []
  | LMovePushCommand _ e _ => es_fits e
  | LInsertCommand _ _ e => es_fits e
  | LSetCommand i e => 0 <= spec_index (zlen cs) i < zlen cs /\ es_fits e
  | LRemCommand count _ => lrem_limit_exact count
  | BlockLPopCommand _ _ count => cs <> [] /\ is_u32 count /\ is_u32 (zlen cs)
  | LRangeCommand _ _ | LLenCommand | LIndexCommand _ | LPosCommand _ _ _ _
  | BlockDiscardCommand => False
  end.

(** The object after a commit: none when nothing is left. *)
Definition list_or_null (cs : list bytes) : option RedisListObject :=
  if decide (cs = []) then None else Some (list_of cs).

Lemma list_or_null_some cs : cs <> [] -> list_or_null cs = Some (list_of cs).
Proof. intros H. unfold list_or_null. by rewrite decide_False. Qed.

Lemma null_if_empty_of cs : null_if_empty (list_of cs, bool_decide (cs = [])) = list_or_null cs.
Proof. unfold list_or_null. cbn. by case_bool_decide; case_decide. Qed.

Lemma spec_pop_min l n cs :
  spec_pop l (Z.to_nat (Z.min n (zlen cs))) cs = spec_pop l (Z.to_nat n) cs.
Proof.
  destruct (Z.le_gt_cases n (zlen cs)); [by rewrite Z.min_l|].
  rewrite Z.min_r by lia. unfold spec_pop, zlen in *. rewrite Nat2Z.id. destruct l.
  - by rewrite !drop_ge by lia.
  - by replace (length cs - Z.to_nat n)%nat with (length cs - length cs)%nat by lia.
Qed.

Lemma CommitLPop_spec cs count :
  Forall fits cs -> null_if_empty (CommitLPop (list_of cs) count)
  = list_or_null (spec_pop true (Z.to_nat (u64 count)) cs).
Proof.
  intros H. rewrite CommitLPop_of, Z.min_comm by done.
  rewrite null_if_empty_of. f_equal. apply (spec_pop_min true).
Qed.

Lemma CommitRPop_spec cs count :
  Forall fits cs -> null_if_empty (CommitRPop (list_of cs) count)
  = list_or_null (spec_pop false (Z.to_nat (u64 count)) cs).
Proof.
  intros H. rewrite CommitRPop_of by done. rewrite null_if_empty_of, <-(spec_pop_min false).
  f_equal. unfold spec_pop, zlen. f_equal. pose proof (u64_range count) as Hr. mach. lia.
Qed.

Lemma spec_insert_nonempty b p e cs : spec_insert b p e cs <> [].
Proof.
  intros H. pose proof (spec_insert_perm b p e cs) as Hp. rewrite H in Hp.
  by apply Permutation_nil_cons in Hp.
Qed.

Lemma List_CommitOn_of c cs :
  Forall fits cs -> commit_ok c cs ->
  List_CommitOn c (list_of cs) = Some (list_or_null (spec_apply c cs)).
Proof.
  intros Hcs H. destruct c; cbn [commit_ok List_CommitOn spec_apply] in *; destruct_and?; try done; try f_equal.
  1,3: unfold LPush_CommitOn, LPushX_CommitOn; rewrite CommitLPush_of by done.
  3,4: unfold RPush_CommitOn, RPushX_CommitOn; rewrite CommitRPush_of by done.
  1,2: rewrite list_or_null_some; [done|]; intros [Hr _]%app_eq_nil; by destruct elements_ using rev_ind;
       [|rewrite fmap_app, reverse_app in Hr].
  1,2: rewrite list_or_null_some; [done|]; intros [_ Hr]%app_eq_nil; by destruct elements_.
  - by apply CommitLPop_spec.
  - by apply CommitRPop_spec.
  - unfold LMovePop_CommitOn. rewrite CommitLMovePop_of by done. apply null_if_empty_of.
  - unfold LMovePush_CommitOn. rewrite CommitLMovePush_of by done.
    rewrite list_or_null_some; [done|]. destruct is_left_; [done|]. by intros [_ ?]%app_eq_nil.
  - unfold LTrim_CommitOn. rewrite CommitLTrim_of by done. apply null_if_empty_of.
  - unfold LInsert_CommitOn. rewrite CommitLInsert_of by done.
    rewrite list_or_null_some; [done|]. apply spec_insert_nonempty.
  - unfold LSet_CommitOn. edestruct CommitLSet_of as [rem ->]; [done..|].
    rewrite list_or_null_some; [done|]. rewrite <-zlen_zero. unfold zlen in *.
    rewrite length_insert. lia.
  - unfold LRem_CommitOn. rewrite CommitLRem_of by done. apply null_if_empty_of.
  - unfold BlockLPop_CommitOn. rewrite CommitBlockPop_of by done. rewrite spec_pop_min.
    unfold list_or_null. case_bool_decide; by case_decide.
Qed.

(** ** The verdict of [ExecuteOn] *)

(** What the object's size is kept below: LMOVE may pass the limit by the four
    bytes of a length prefix. *)
Definition list_bounded (cs : list bytes) : Prop := image_len cs <= MAX_OBJECT_SIZE + 4.

(** What parsing and the engine guarantee before [ExecuteOn]: strings to push and
    an existing list unless the command proceeds without one; and, which they do
    not guarantee, a LREM count whose absolute value an [int] can hold.  The commit
    narrows the count and [ExecuteOn] does not, so that with other counts the two
    can differ ([lrem_count_narrowed]). *)
Definition list_exec_ok (c : ListCmd) (cs : list bytes) : Prop :=
  cmd_ok c /\ (List_ProceedOnNonExistentObject c = false -> cs <> []) /\
  match c with
  | LPushCommand els | RPushCommand els | LPushXCommand els | RPushXCommand els =>
      els <> [] /\ zsum elem_len (es_view <$> els) < 2 ^ 63
  | LRemCommand count _ => lrem_limit_exact count
  | BlockLPopCommand op _ _ => op <> Discard /\ (op = PopElement -> cs <> [])
  | _ => True
  end.

(** The verdict [v], with the command now [c'], is right about the list [cs]. *)
Definition decided (c : ListCmd) (cs : list bytes) (c' : ListCmd) (r' : RedisListResult)
    (v : ExecResult) : Prop :=
  match v with
  | ExecWrite =>
      commit_ok c' cs /\ spec_apply c' cs = spec_apply c cs /\ spec_apply c cs <> []
      /\ list_bounded (spec_apply c cs)
  | ExecDelete => commit_ok c' cs /\ spec_apply c' cs = spec_apply c cs /\ spec_apply c cs = []
  | ExecFail => spec_apply c cs = cs \/ lr_err_code_ r' <> RD_OK
  | ExecRead | ExecBlock | ExecUnlock =>
      spec_apply c cs = cs \/ (exists l n, c = BlockLPopCommand BlockLock l n)
  end.

Lemma list_bounded_sublist cs' cs : cs' `sublist_of` cs -> list_bounded cs -> list_bounded cs'.
Proof.
  intros H. unfold list_bounded, image_len.
  pose proof (zsum_sublist elem_len _ _ elem_len_nonneg H). lia.
Qed.

Lemma list_bounded_count cs : list_bounded cs -> is_u32 (zlen cs).
Proof.
  unfold list_bounded, image_len, MAX_OBJECT_SIZE. intros H.
  assert (zlen cs <= zsum elem_len cs); [|pose proof (zlen_nonneg cs); mach; lia].
  clear H. induction cs as [|c cs IH]; [done|]. zlen. cbn [zsum].
  pose proof (zlen_nonneg c). unfold elem_len at 1. lia.
Qed.

Lemma list_bounded_len cs : list_bounded cs -> list_serialized_length_ (list_of cs) = image_len cs.
Proof.
  unfold list_bounded, MAX_OBJECT_SIZE. intros H. cbn. apply u64_id.
  pose proof (image_len_pos cs). mach. lia.
Qed.

Lemma spec_pop_sublist l n cs : spec_pop l n cs `sublist_of` cs.
Proof. destruct l; cbn; [apply sublist_drop|apply sublist_take]. Qed.

Lemma spec_remove_sublist k x cs : spec_remove k x cs `sublist_of` cs.
Proof.
  revert k. induction cs as [|c cs IH]; intros [|k]; cbn; [done..|].
  case_decide; [by apply sublist_cons|by apply sublist_skip].
Qed.

Lemma spec_lrem_sublist count x cs : spec_lrem count x cs `sublist_of` cs.
Proof.
  unfold spec_lrem. repeat case_match; [apply spec_remove_sublist| |apply sublist_filter].
  rewrite <-(reverse_involutive cs) at 2. apply sublist_reverse, spec_remove_sublist.
Qed.

Lemma spec_ltrim_sublist s e cs : spec_ltrim s e cs `sublist_of` cs.
Proof.
  unfold spec_ltrim. case_match; [apply sublist_nil_l|].
  etrans; [apply sublist_take|apply sublist_drop].
Qed.

Lemma zlen_spec_pop l n cs :
  0 <= n -> zlen (spec_pop l (Z.to_nat n) cs) = zlen cs - Z.min n (zlen cs).
Proof. intros H. unfold zlen. rewrite length_spec_pop. lia. Qed.

(** The verdict of the commands that remove elements. *)
Lemma removal_decided c r' cs n :
  spec_apply c cs `sublist_of` cs -> n = zlen cs - zlen (spec_apply c cs) ->
  list_bounded cs -> commit_ok c cs \/ cs = [] ->
  decided c cs c r' (write_delete_or_fail (removal_state n (zlen cs))).
Proof.
  intros Hs -> Hb Hc. pose proof (sublist_length _ _ Hs) as Hl. unfold removal_state.
  pose proof (zlen_nonneg (spec_apply c cs)) as Hnn.
  assert (zlen cs - zlen (spec_apply c cs) <> 0 -> commit_ok c cs) as Hc'.
  { intros Hn. destruct Hc as [?| ->]; [done|]. cbn in Hl. unfold zlen in *. cbn in Hn. lia. }
  destruct (Z.eqb_spec (zlen cs - zlen (spec_apply c cs)) 0) as [H0|H0].
  - cbn [write_delete_or_fail decided]. left. apply sublist_eq_length; [done|]. unfold zlen in *. lia.
  - destruct (Z.leb_spec (zlen cs) (zlen cs - zlen (spec_apply c cs))) as [H1|H1];
      cbn [write_delete_or_fail decided].
    + split_and!; [auto|done|]. apply zlen_zero. lia.
    + split_and!; [auto|done| |by eapply list_bounded_sublist].
      intros E%zlen_zero. lia.
Qed.

(** A push is accepted exactly when the result stays within the limit. *)
Lemma Execute_Push_of cs els r :
  list_bounded cs -> Forall es_fits els -> zsum elem_len (es_view <$> els) < 2 ^ 63 ->
  Execute_Push (list_of cs) els r
  = if MAX_OBJECT_SIZE <? image_len cs + zsum elem_len (es_view <$> els)
    then (lr_set_err RD_ERR_OBJECT_TOO_BIG r, NoChange)
    else (lr_set_err RD_OK (lr_set_ret (zlen cs + zlen els) r), Modified).
Proof.
  intros Hb Hf Hs. unfold Execute_Push. rewrite list_bounded_len, list_size_of by done.
  rewrite <-u64_add_r, len_increased_sum, u64_add_r, Z.add_0_l by done.
  rewrite u64_id; [done|]. unfold list_bounded, MAX_OBJECT_SIZE in Hb.
  pose proof (zsum_nonneg elem_len (es_view <$> els) elem_len_nonneg).
  pose proof (image_len_pos cs). mach. lia.
Qed.

(** Both ends, and with or without the key-must-exist condition. *)
Lemma push_decided c cs els r :
  list_bounded cs -> Forall es_fits els -> els <> [] -> zsum elem_len (es_view <$> els) < 2 ^ 63 ->
  commit_ok c cs -> spec_apply c cs ≡ₚ cs ++ (es_view <$> els) ->
  let '(r', st) := Execute_Push (list_of cs) els r in decided c cs c r' (write_or_fail st).
Proof.
  intros Hb Hf Hne Hs Hc Hp. rewrite Execute_Push_of by done.
  destruct (Z.ltb_spec MAX_OBJECT_SIZE (image_len cs + zsum elem_len (es_view <$> els)));
    cbn [write_or_fail decided]; [by right|].
  split_and!; [done|done| |].
  - intros E. rewrite E in Hp. apply Permutation_nil_l in Hp. symmetry in Hp. apply app_eq_nil in Hp as [_ Hp]. by destruct els.
  - unfold list_bounded. rewrite (image_len_perm _ _ Hp), image_len_app. lia.
Qed.

Lemma lmovepush_decided l e m cs r :
  list_bounded cs -> es_fits e ->
  let '(r', st) := Execute_LMovePush (list_of cs) e r in
  decided (LMovePushCommand l e m) cs (LMovePushCommand l e m) r' (write_or_fail st).
Proof.
  intros Hb Hf. unfold Execute_LMovePush. rewrite list_bounded_len, es_length_fits by done.
  assert (is_u64 (image_len cs + zlen (es_view e))) as Hu.
  { unfold list_bounded, MAX_OBJECT_SIZE, es_fits, fits in *. pose proof (image_len_pos cs). mach. lia. }
  rewrite u64_id by done.
  destruct (Z.ltb_spec MAX_OBJECT_SIZE (image_len cs + zlen (es_view e)));
    cbn [write_or_fail decided]; [by right|].
  split_and!; [done|done| |]; cbn [spec_apply].
  - destruct l; [done|]. by intros [_ ?]%app_eq_nil.
  - unfold list_bounded. destruct l; [unfold image_len in *; cbn; unfold elem_len at 1; lia|].
    rewrite image_len_app. cbn. unfold elem_len. lia.
Qed.

Lemma ltrim_decided s e cs r :
  list_bounded cs -> cs <> [] ->
  let '(se, r', st) := Execute_LTrim (list_of cs) s e r in
  decided (LTrimCommand s e) cs (LTrimCommand se.1 se.2) r' (write_delete_or_fail st).
Proof.
  intros Hb Hne. unfold Execute_LTrim. rewrite list_size_of.
  destruct (NormalizeLTrimRange (list_of cs) s e) as [s' e'] eqn:E.
  pose proof (spec_ltrim_normalized _ _ _ _ _ E) as Hn.
  pose proof (ltrim_range_spec _ _ _ _ _ E) as Hs.
  pose proof (NormalizeLTrimRange_bounds _ _ _ _ _ E) as [Bs Be]. rewrite list_size_of in *.
  assert (0 < zlen cs) by (pose proof (zlen_nonneg cs); pose proof (zlen_zero cs); destruct (decide (zlen cs = 0)); [tauto|lia]).
  destruct (Z.leb_spec (e' - s' + 1) 0) as [H0|H0];
    [|destruct (Z.leb_spec (zlen cs) (e' - s' + 1)) as [H1|H1]];
    cbn [write_delete_or_fail decided fst snd spec_apply].
  - done.
  - left. rewrite Hs. replace (Z.to_nat s') with 0%nat by lia. rewrite drop_0. apply take_full. lia.
  - split_and!; [done|done| |].
    + rewrite Hs, <-zlen_zero. unfold zlen in *. rewrite length_take, length_drop. lia.
    + eapply list_bounded_sublist; [apply spec_ltrim_sublist|done].
Qed.

Lemma linsert_decided b p e cs r :
  list_bounded cs -> es_fits e ->
  let '(r', st) := Execute_LInsert (list_of cs) p e r in
  decided (LInsertCommand b p e) cs (LInsertCommand b p e) r' (write_or_fail st).
Proof.
  intros Hb Hf. unfold Execute_LInsert. rewrite list_bounded_len, es_length_fits by done.
  destruct (existsb _ _); [|by right].
  assert (is_u64 (image_len cs + 4 + zlen (es_view e))) as Hu.
  { unfold list_bounded, MAX_OBJECT_SIZE, es_fits, fits in *. pose proof (image_len_pos cs). mach. lia. }
  rewrite u64_id by done.
  destruct (Z.ltb_spec MAX_OBJECT_SIZE (image_len cs + 4 + zlen (es_view e)));
    cbn [write_or_fail decided]; [by right|].
  split_and!; [done|done|apply spec_insert_nonempty|].
  cbn [spec_apply]. unfold list_bounded. rewrite (image_len_perm _ _ (spec_insert_perm _ _ _ _)).
  unfold image_len in *. cbn. unfold elem_len at 1. lia.
Qed.

Lemma lset_decided i e cs r :
  list_bounded cs -> Forall fits cs -> es_fits e ->
  let '(i', r', st) := Execute_LSet (list_of cs) i e r in
  decided (LSetCommand i e) cs (LSetCommand i' e) r' (write_or_fail st).
Proof.
  intros Hb Hcs Hf. unfold Execute_LSet. rewrite list_size_of, list_bounded_len by done.
  replace (if i <? 0 then (ConvertListIndex (list_of cs) i).1 else i)
    with (spec_index (zlen cs) i)
    by (rewrite ConvertListIndex_spec, list_size_of; unfold spec_index; by destruct (Z.ltb_spec i 0)).
  remember (spec_index (zlen cs) i) as j eqn:Ej.
  destruct (Z.leb_spec 0 j) as [Hj|Hj]; cbn [andb]; [|by right].
  destruct (Z.ltb_spec j (zlen cs)) as [Hj'|Hj']; [|by right].
  assert (spec_index (zlen cs) j = j) as Hij by (unfold spec_index; by destruct (Z.ltb_spec j 0); [lia|]).
  destruct (lookup_lt_is_Some_2 cs (Z.to_nat j)) as [old Hold]; [unfold zlen in *; lia|].
  cbn [list_of list_object_]. rewrite list_lookup_fmap, Hold. cbn [fmap option_fmap option_map].
  assert (fits old) as Hfo by (by eapply Forall_lookup_1).
  rewrite es_length_own, es_length_fits by done.
  pose proof (zsum_elem_le elem_len cs old elem_len_nonneg (list_elem_of_lookup_2 _ _ _ Hold)) as Hle.
  rewrite u64_id; last first.
  { unfold list_bounded, MAX_OBJECT_SIZE, es_fits, fits, image_len, elem_len in *. mach.
    unfold elem_len in Hle. lia. }
  destruct (Z.ltb_spec MAX_OBJECT_SIZE (image_len cs - zlen old + zlen (es_view e)));
    cbn [write_or_fail decided]; [by right|].
  cbn [spec_apply commit_ok]. rewrite Hij, <-Ej. split_and!; [done..| |].
  - rewrite <-zlen_zero. unfold zlen in *. rewrite length_insert. lia.
  - unfold list_bounded, image_len in *. erewrite zsum_insert by done. unfold elem_len in *. lia.
Qed.

Lemma nonempty_zlen {A} (l : list A) : l <> [] -> 1 <= zlen l.
Proof. destruct l; [done|]. intros _. zlen. pose proof (zlen_nonneg l). lia. Qed.

Lemma pop_decided (from_left : bool) count cs r :
  list_bounded cs ->
  let c := if from_left then LPopCommand count else RPopCommand count in
  let '(r', st) := Execute_Pop from_left (list_of cs) count r in
  decided c cs c r' (write_delete_or_fail st).
Proof.
  intros Hb c. rewrite Execute_Pop_of. pose proof (u64_range (if count =? -1 then 1 else count)) as [Hu _].
  apply removal_decided; [| |done|left; by destruct from_left].
  - destruct from_left; apply spec_pop_sublist.
  - destruct from_left; cbn [c spec_apply]; rewrite zlen_spec_pop by done; unfold pop_count; lia.
Qed.

Lemma Execute_LMovePop_state cs l r :
  cs <> [] -> (Execute_LMovePop (list_of cs) l r).2 = removal_state 1 (zlen cs).
Proof.
  intros Hne. unfold Execute_LMovePop, removal_state. rewrite list_size_of.
  pose proof (nonempty_zlen cs Hne).
  replace (zlen cs =? 1) with (zlen cs <=? 1)
    by (apply Bool.eq_true_iff_eq; rewrite Z.leb_le, Z.eqb_eq; lia).
  destruct (if l then _ else _) eqn:E; [|done].
  exfalso. apply Hne. destruct l; cbn [list_of list_object_] in E; [by apply fmap_nil_inv in E|].
  apply (f_equal zlen) in E. rewrite zlen_reverse, zlen_fmap in E. change (zlen cs = 0) in E. lia.
Qed.

Lemma lmovepop_decided l cs r :
  list_bounded cs -> cs <> [] ->
  let '(r', st) := Execute_LMovePop (list_of cs) l r in
  decided (LMovePopCommand l) cs (LMovePopCommand l) r' (write_delete_or_fail st).
Proof.
  intros Hb Hne. pose proof (Execute_LMovePop_state cs l r Hne) as E.
  destruct (Execute_LMovePop _ _ _) as [r' st]. cbn [snd] in E. subst st.
  apply removal_decided; [apply spec_pop_sublist| |done|by left].
  cbn [spec_apply]. pose proof (zlen_spec_pop l 1 cs ltac:(lia)) as Hz.
  change (Z.to_nat 1) with 1%nat in Hz. rewrite Hz. pose proof (nonempty_zlen cs Hne). lia.
Qed.

Lemma lrem_decided count e cs r :
  list_bounded cs -> is_i64 count -> lrem_limit_exact count ->
  let '(r', st) := Execute_LRem (list_of cs) count e r in
  decided (LRemCommand count e) cs (LRemCommand count e) r' (write_delete_or_fail st).
Proof.
  intros Hb Hi Hl. rewrite Execute_LRem_of by (done || (unfold lrem_limit_exact in Hl; mach; lia)).
  apply removal_decided; [apply spec_lrem_sublist|done|done|by left].
Qed.

Lemma Execute_BlockLPop_of cs l count r :
  cs <> [] -> 0 <= count ->
  let cnt := Z.min count (zlen cs) in
  Execute_BlockLPop (list_of cs) l count r
  = (lr_set_result (LRStrings (spec_popped l (Z.to_nat cnt) cs)) (lr_set_ret cnt r),
     removal_state cnt (zlen cs)).
Proof.
  intros Hne Hc cnt. unfold Execute_BlockLPop. rewrite list_size_of. fold cnt.
  rewrite decide_False by (cbn; intros E%fmap_nil_inv; done).
  replace (collect_while _ _ _) with (spec_popped l (Z.to_nat cnt) cs).
  - do 3 f_equal. unfold spec_popped, zlen. rewrite length_take.
    destruct l; rewrite ?length_reverse; unfold cnt, zlen; lia.
  - unfold spec_popped. cbn [list_of list_object_].
    destruct l; [|rewrite <-fmap_reverse]; by rewrite collect_while_lt, Z.sub_0_r.
Qed.

Lemma block_decided op l count cs obj r :
  as_list obj = Some (list_of cs) -> list_bounded cs -> is_u32 count ->
  op <> Discard -> (op = PopElement -> cs <> []) ->
  let c := BlockLPopCommand op l count in
  let '(r', v) := BlockLPop_ExecuteOn op l count obj r in decided c cs c r' v.
Proof.
  intros Hobj Hb Hc Hdi Hpe c. unfold BlockLPop_ExecuteOn. rewrite Hobj.
  destruct (decide (op = BlockLock)) as [->|Hbl].
  { rewrite list_size_of. destruct (0 <? zlen cs); cbn; eauto. }
  destruct (decide (cs = [])) as [->|Hne].
  { assert (spec_apply c [] = []) as Es by (cbn; destruct l; cbn; [apply drop_nil|apply take_nil]).
    destruct op; try done; [by left..|by destruct (Hpe eq_refl)]. }
  rewrite Execute_BlockLPop_of by (done || (mach; lia)). pose proof (nonempty_zlen cs Hne).
  assert (commit_ok c cs) as Hco by (split_and!; [done|done|by apply list_bounded_count]).
  destruct (decide (count = 0)) as [->|H0].
  { assert (spec_apply c cs = cs) as Es by (cbn; destruct l; cbn; [done|apply take_ge; lia]).
    rewrite Z.min_l by lia. destruct op; try done; [by left..|].
    change (decided c cs c (lr_set_result (LRStrings (spec_popped l 0 cs)) (lr_set_ret 0 (lr_set_err RD_OK r))) ExecWrite).
    cbn [decided]. by rewrite Es. }
  assert (forall r', decided c cs c r' (write_delete_or_fail (removal_state (Z.min count (zlen cs)) (zlen cs)))) as Hd.
  { intros r'. apply removal_decided; [apply spec_pop_sublist| |done|by left].
    cbn [c spec_apply]. rewrite zlen_spec_pop by (mach; lia). lia. }
  unfold removal_state in *. destruct (Z.eqb_spec (Z.min count (zlen cs)) 0); [mach; lia|].
  destruct (_ <=? _); cbn [write_delete_or_fail] in Hd; destruct op; try done; apply Hd.
Qed.

Lemma Execute_LIndex_some cs i r : is_i64 i -> is_u32 (zlen cs) -> is_Some (Execute_LIndex (list_of cs) i r).
Proof.
  intros Hi Hn. unfold Execute_LIndex. rewrite list_size_of. cbn [list_of list_object_].
  assert (forall j, 0 <= j < zlen cs -> exists e, (es_own <$> cs) !! Z.to_nat j = Some e) as Hl.
  { intros j Hj. apply lookup_lt_is_Some_2. rewrite length_fmap. unfold zlen in *. lia. }
  destruct (Z.ltb_spec i 0).
  - rewrite i64_id by (mach; lia). destruct (Z.ltb_spec (zlen cs + i) 0); [done|].
    destruct (Hl (zlen cs + i)) as [e ->]; [lia|done].
  - destruct (Z.leb_spec (zlen cs) i); [done|]. destruct (Hl i) as [e ->]; [lia|done].
Qed.

(** The verdict of every command is right about its list. *)
Lemma List_ExecuteOn_decided c cs obj r :
  as_list obj = Some (list_of cs) -> Forall fits cs -> list_bounded cs -> list_exec_ok c cs ->
  exists c' r' v, List_ExecuteOn c obj r = Some (c', r', v) /\ decided c cs c' r' v.
Proof.
  intros Hobj Hcs Hb (Hok & Hex & Hc).
  destruct c; cbn [List_ExecuteOn cmd_ok List_ProceedOnNonExistentObject] in *; destruct_and?;
    try specialize (Hex eq_refl);
    unfold LPush_ExecuteOn, RPush_ExecuteOn, LPushX_ExecuteOn, RPushX_ExecuteOn, LPop_ExecuteOn,
      RPop_ExecuteOn, LMovePop_ExecuteOn, LMovePush_ExecuteOn, LRange_ExecuteOn, LLen_ExecuteOn,
      LTrim_ExecuteOn, LIndex_ExecuteOn, LInsert_ExecuteOn, LPos_ExecuteOn, LSet_ExecuteOn,
      LRem_ExecuteOn, Execute_LPush, Execute_RPush, Execute_LPushX, Execute_RPushX, Execute_LPop,
      Execute_RPop; rewrite ?Hobj.
  1-4: match goal with |- context [Execute_Push ?o ?els ?r] =>
         pose proof (fun c => push_decided c cs els r) as Hd; destruct (Execute_Push o els r) end;
       do 3 eexists; (split; [done|]); apply Hd; try done; cbn [spec_apply];
       rewrite ?reverse_Permutation; (done || apply Permutation_app_comm).
  - pose proof (pop_decided true count_ cs r Hb) as Hd. destruct (Execute_Pop _ _ _ _). eauto.
  - pose proof (pop_decided false count_ cs r Hb) as Hd. destruct (Execute_Pop _ _ _ _). eauto.
  - pose proof (lmovepop_decided is_left_ cs r Hb Hex) as Hd. destruct (Execute_LMovePop _ _ _). eauto.
  - pose proof (lmovepush_decided is_left_ element_ is_in_the_middle_stage_ cs r Hb Hok) as Hd.
    destruct (Execute_LMovePush _ _ _). eauto.
  - do 3 eexists. split; [done|]. by left.
  - do 3 eexists. split; [done|]. by left.
  - pose proof (ltrim_decided start_ end_ cs (lr_set_err RD_OK r) Hb Hex) as Hd.
    destruct (Execute_LTrim _ _ _ _) as [[[s e] r'] st]. eauto.
  - destruct (Execute_LIndex_some cs index_ (lr_set_err RD_OK r)) as [[i r'] ->];
      [done|by apply list_bounded_count|]. do 3 eexists. split; [done|]. by left.
  - pose proof (linsert_decided is_before_ pivot_ element_ cs (lr_set_err RD_OK r) Hb ltac:(done)) as Hd.
    destruct (Execute_LInsert _ _ _ _). eauto.
  - do 3 eexists. split; [done|]. by left.
  - pose proof (lset_decided index_ element_ cs (lr_set_err RD_OK r) Hb Hcs ltac:(done)) as Hd.
    destruct (Execute_LSet _ _ _ _) as [[i r'] st]. eauto.
  - pose proof (lrem_decided count_ element_ cs (lr_set_err RD_OK r) Hb ltac:(done) Hc) as Hd.
    destruct (Execute_LRem _ _ _ _). eauto.
  - pose proof (block_decided op_type_ is_left_ count_ cs obj r Hobj Hb Hok ltac:(done) ltac:(done)) as Hd.
    cbn zeta in Hd. destruct (BlockLPop_ExecuteOn _ _ _ _ _). eauto.
  - do 3 eexists. split; [done|]. by left.
Qed.

(** ** Replay *)

(** A commit depends on the strings of the command, not on how it holds them. *)
Lemma List_CommitOn_own c cs :
  Forall fits cs -> commit_ok c cs -> List_CommitOn (own_cmd c) (list_of cs) = List_CommitOn c (list_of cs).
Proof.
  intros Hcs H. rewrite (List_CommitOn_of c) by done.
  assert (commit_ok (own_cmd c) cs) as H'.
  { destruct c; cbn [commit_ok own_cmd] in *; try done;
      destruct H; (split; [by first [apply Forall_fmap|done]|by first [done|intros ?%fmap_nil_inv]]). }
  rewrite List_CommitOn_of by done.
  destruct c; cbn [own_cmd spec_apply]; by rewrite ?views_own, ?view_own.
Qed.

Lemma List_ExecuteOn_cmd_ok c obj cs r c' r' v :
  as_list obj = Some (list_of cs) -> list_bounded cs -> cmd_ok c ->
  List_ExecuteOn c obj r = Some (c', r', v) -> cmd_ok c'.
Proof.
  intros Hobj Hb Hok H. pose proof (list_bounded_count cs Hb) as Hn.
  destruct c; cbn [List_ExecuteOn] in H; simplify_eq; try done.
  - unfold LTrim_ExecuteOn, Execute_LTrim in H. rewrite Hobj in H.
    destruct (NormalizeLTrimRange _ _ _) as [s e] eqn:E.
    apply NormalizeLTrimRange_bounds in E. rewrite list_size_of in *.
    repeat case_match; simplify_eq; cbn; mach; lia.
  - unfold LIndex_ExecuteOn, Execute_LIndex in H. rewrite Hobj in H.
    repeat case_match; simplify_eq; cbn; by first [done|apply i64_range].
  - unfold LSet_ExecuteOn, Execute_LSet in H. rewrite Hobj in H.
    rewrite ConvertListIndex_spec, list_size_of in H. cbn [cmd_ok] in Hok.
    assert (is_i64 (spec_index (zlen cs) index_)) as Hs.
    { destruct Hok as [Hi _]. unfold spec_index. destruct (Z.ltb_spec index_ 0); mach; lia. }
    destruct (Z.ltb_spec index_ 0); repeat case_match; simplify_eq; cbn; tauto.
Qed.

Lemma list_bounded_fits cs : list_bounded cs -> Forall fits cs.
Proof.
  unfold list_bounded, image_len, MAX_OBJECT_SIZE. intros H. rewrite list.Forall_forall. intros c Hc.
  pose proof (zsum_elem_le elem_len cs c elem_len_nonneg Hc) as Hle.
  unfold elem_len in Hle at 1. unfold fits. pose proof (zlen_nonneg c). mach. lia.
Qed.

(** ** The list commands as the engine sees them *)

Section ListClass.

Context (block_code : BlockOperation -> Z) (block_of : Z -> BlockOperation).

Definition list_codes : list Z := [58; 47; 46; 56; 55; 42; 43; 44; 54; 53; 51; 52; 48; 59; 45; 49; 35; 36].

Definition ListCommands : CommandClass := {|
  cc_fields := ListCmd;
  cc_result := RedisListResult;
  cc_codes := list_codes;
  ProceedOnNonExistentObject := List_ProceedOnNonExistentObject;
  CreateObject := Some (ObjList list_new);
  ExecuteOn := List_ExecuteOn;
  CommitOn c := commit_list (List_CommitOn c);
  Serialize c := List_Serialize block_code c [];
  Deserialize := List_Deserialize block_of;
  OutputResult := List_OutputResult
|}.

(** A command runs on an object of any type; on a list its fields are as they
    should be. *)
Definition list_runs (c : ListCmd) (obj : RedisEloqObject) : Prop :=
  match as_list obj with Some o => list_exec_ok c (list_contents o) | None => True end.

Lemma list_image_law c : (forall op, is_u8 (block_code op)) -> (forall op, block_of (block_code op) = op) -> cmd_ok c ->
  Reads (read_image ListCommands) (Serialize ListCommands c) (own_cmd c).
Proof.
  intros Hu Ho Hc rest. pose proof (List_CreateTxCommand_of block_code block_of Hu Ho c Hc rest) as H.
  revert H. unfold List_CreateTxCommand, read_image, rbind. cbn [Serialize ListCommands cc_codes Deserialize].
  destruct (read_u8 _) as [[code buf]|]; [|done]. case_bool_decide as Hin; [done|].
  unfold list_codes in Hin. rewrite !not_elem_of_cons in Hin. destruct_and!.
  unfold List_Deserialize. by rewrite !(proj2 (Z.eqb_neq code _)) by done.
Qed.

Lemma list_wrong_type c obj r : as_list obj = None -> exists c' r' v,
  List_ExecuteOn c obj r = Some (c', r', v) /\ v <> ExecWrite /\ v <> ExecDelete.
Proof.
  intros H. destruct c; cbn [List_ExecuteOn];
    unfold LPush_ExecuteOn, RPush_ExecuteOn, LPushX_ExecuteOn, RPushX_ExecuteOn, LPop_ExecuteOn, RPop_ExecuteOn,
      LMovePop_ExecuteOn, LMovePush_ExecuteOn, LRange_ExecuteOn, LLen_ExecuteOn, LTrim_ExecuteOn, LIndex_ExecuteOn,
      LInsert_ExecuteOn, LPos_ExecuteOn, LSet_ExecuteOn, LRem_ExecuteOn, BlockLPop_ExecuteOn; rewrite ?H; eauto 10.
  all: do 3 eexists; (split; [done|]); try done.
Qed.

Lemma list_commit_law c obj r c' r' v :
  sound obj -> list_runs c obj -> List_ExecuteOn c obj r = Some (c', r', v) -> v = ExecWrite \/ v = ExecDelete ->
  exists s, CommitOn ListCommands c' obj = Some s /\ CommitOn ListCommands (own_cmd c') obj = Some s /\ cmd_ok c'
    /\ slot_sound s /\ (v = ExecDelete <-> s = None).
Proof.
  intros Hs Hr HE Hv. unfold list_runs in Hr. destruct (as_list obj) as [o|] eqn:Ho.
  2: { destruct (list_wrong_type c obj r Ho) as (? & ? & ? & E & ? & ?). rewrite HE in E. simplify_eq. tauto. }
  destruct (commit_list_lens obj o Hs Ho) as ([Hw Hb] & mk & Hmk & Hok).
  destruct (list_wf_canonical o Hw) as [Eo Hf]. rewrite Eo in *. set (cs := list_contents o) in *. clearbody cs. clear o Eo.
  rewrite list_contents_of in *.
  destruct (List_ExecuteOn_decided c cs obj r Ho Hf Hb Hr) as (c2 & r2 & v2 & HE' & Hd). rewrite HE in HE'. simplify_eq.
  assert (commit_ok c2 cs /\ (v2 = ExecDelete <-> spec_apply c2 cs = []) /\ (spec_apply c2 cs <> [] -> list_bounded (spec_apply c2 cs)))
    as (Hc & Hdel & Hb').
  { destruct Hv as [-> | ->]; cbn [decided] in Hd.
    - destruct Hd as (Hc & -> & Hne & Hb'). split_and!; [done| |done]. by split; intros ?.
    - destruct Hd as (Hc & -> & He). split_and!; done. }
  exists (mk <$> list_or_null (spec_apply c2 cs)). cbn [CommitOn ListCommands]. rewrite !Hmk, List_CommitOn_own, List_CommitOn_of by done.
  split_and!; [done|done| | |].
  - eapply (List_ExecuteOn_cmd_ok c obj); [done|done|by destruct Hr|done].
  - unfold list_or_null. case_decide as E; [done|]. apply Hok; [|by rewrite list_contents_of].
    split; [by apply list_wf_of, list_bounded_fits, Hb'|rewrite list_contents_of; by apply Hb'].
  - rewrite Hdel. unfold list_or_null. by case_decide.
Qed.

#[export] Instance list_replayable (block_code_u8 : forall op, is_u8 (block_code op))
    (block_of_code : forall op, block_of (block_code op) = op) : Replayable ListCommands.
Proof.
  refine {| exec_ok := list_runs : cc_fields ListCommands -> _; image_ok := cmd_ok : cc_fields ListCommands -> _;
            reread := own_cmd : cc_fields ListCommands -> _ |}.
  - intros obj [= <-]. split; [|concrete]. split; [by apply (list_wf_of [])|]. vm_compute. discriminate.
  - intros c. by apply list_image_law.
  - intros c obj r Hs Hr. cbn. unfold list_runs in Hr. destruct (as_list obj) as [o|] eqn:Ho.
    + destruct (commit_list_lens obj o Hs Ho) as ([Hw Hb] & _). destruct (list_wf_canonical o Hw) as [Eo Hf].
      rewrite Eo in Ho. destruct (List_ExecuteOn_decided c (list_contents o) obj r Ho Hf Hb Hr) as (? & ? & ? & -> & _). done.
    + by destruct (list_wrong_type c obj r Ho) as (? & ? & ? & -> & _).
  - intros c obj r c' r' v Hs Hok HE Hv. destruct (list_commit_law c obj r c' r' v Hs Hok HE Hv) as (s & ? & ? & ? & ? & ? & ?).
    exists s. auto.
Defined.

End ListClass.

(** ** Replies are well defined *)

Lemma pop_output_total from_left count cs r :
  cs <> [] ->
  is_Some (LPop_OutputResult count (Execute_Pop from_left (list_of cs) count r).1).
Proof.
  intros Hne. rewrite Execute_Pop_of. unfold LPop_OutputResult. cbn.
  destruct (Z.eqb_spec count (-1)) as [->|]; [|done].
  pose proof (nonempty_zlen cs Hne). change (u64 1) with 1. rewrite Z.min_l by lia.
  unfold spec_popped. change (Z.to_nat 1) with 1%nat.
  destruct (if from_left then cs else reverse cs) eqn:E; [|done].
  exfalso. apply (f_equal zlen) in E. destruct from_left; rewrite ?zlen_reverse, zlen_nil in E; lia.
Qed.

Lemma List_ExecuteOn_output c obj cs r c' r' v :
  as_list obj = Some (list_of cs) -> cs <> [] -> (forall l, c <> LMovePopCommand l) ->
  List_ExecuteOn c obj r = Some (c', r', v) -> is_Some (List_OutputResult c' r').
Proof.
  intros Hobj Hne Hl H. destruct c; cbn [List_ExecuteOn] in H; simplify_eq; try done; cbn [List_OutputResult].
  - unfold LPop_ExecuteOn, Execute_LPop. rewrite Hobj. pose proof (pop_output_total true count_ cs r Hne).
    by destruct (Execute_Pop _ _ _ _).
  - unfold RPop_ExecuteOn, Execute_RPop. rewrite Hobj. pose proof (pop_output_total false count_ cs r Hne).
    by destruct (Execute_Pop _ _ _ _).
  - by destruct (Hl is_left_).
  - unfold LMovePush_ExecuteOn, Execute_LMovePush. rewrite Hobj. by destruct (_ <? _).
  - unfold LRange_ExecuteOn. rewrite Hobj. cbn [fst]. destruct (Execute_LRange_of cs start_ end_ r) as [E1 E2].
    unfold LRange_OutputResult. by rewrite E1, E2.
  - unfold LTrim_ExecuteOn in H. repeat case_match; by simplify_eq.
  - unfold LIndex_ExecuteOn, Execute_LIndex in H. rewrite Hobj in H. repeat case_match; by simplify_eq.
  - unfold LPos_ExecuteOn, Execute_LPos. rewrite Hobj. cbn [fst].
    match goal with |- context [decide (?x = [])] => generalize x end. intros [|i l].
    + rewrite decide_True by done. unfold LPos_OutputResult. cbn. by destruct (count_ =? -1).
    + rewrite decide_False by done. unfold LPos_OutputResult. cbn. by destruct (count_ =? -1).
  - unfold LSet_ExecuteOn in H. repeat case_match; by simplify_eq.
Qed.

(** ** Results between nodes *)

Definition list_result_ok (r : RedisListResult) : Prop :=
  is_i32 (lr_err_code_ r) /\ is_i64 (lr_ret_ r) /\
  match lr_result_ r with
  | LRInt64s l => is_u32 (zlen l) /\ Forall is_i64 l
  | LRStrings l => is_u32 (zlen l) /\ Forall fits l
  | LREloq s => es_fits s
  | LRString _ => False
  end.

(** The result as the receiver holds it. *)
Definition own_result (r : RedisListResult) : RedisListResult :=
  match lr_result_ r with
  | LREloq s => lr_set_result (LREloq (own s)) r
  | _ => r
  end.

Lemma Reads_result_header {A} err ret tag (k : Z -> Z -> Z -> Reader A) w a :
  is_i32 err -> is_i64 ret -> is_u8 tag -> Reads (k err ret tag) w a ->
  Reads (_ <-- read_u8; e <-- read_i32; n <-- read_i64; t <-- read_u8; k e n t)
    (le_bytes 1 3 ++ le_bytes 4 err ++ le_bytes 8 ret ++ le_bytes 1 tag ++ w) a.
Proof.
  intros. eapply Reads_bind; [apply Reads_u8; mach; lia|]. eapply Reads_bind; [by apply Reads_i32|].
  eapply Reads_bind; [by apply Reads_i64|]. eapply Reads_bind; [by apply Reads_u8|done].
Qed.

Lemma RedisListResult_Deserialize_of r :
  list_result_ok r ->
  exists image, RedisListResult_Serialize r [] = Some image
  /\ Reads RedisListResult_Deserialize image (own_result r).
Proof.
  destruct r as [err res ret]. unfold list_result_ok. cbn [lr_err_code_ lr_ret_ lr_result_].
  intros (He & Hr & H). unfold RedisListResult_Serialize, RedisCommandResult_Serialize, own_result.
  cbn [lr_err_code_ lr_ret_ lr_result_].
  destruct res as [l|l|s|s]; [| |done|]; eexists; (split; [reflexivity|]);
    rewrite app_nil_l, <-!app_assoc;
    (apply Reads_result_header; [done|done|mach; lia|]); cbn [Z.eqb Pos.eqb].
  - destruct H as [Hn Hf]. eapply Reads_bind; [by apply Reads_u32|]. rewrite to_nat_zlen.
    eapply Reads_bind_ret; [|reflexivity].
    rewrite <-(list_fmap_id l) at 3. apply (Reads_times read_i64 (le_bytes 8) id).
    intros x Hx. apply Reads_i64. rewrite list.Forall_forall in Hf. auto.
  - destruct H as [Hn Hf]. eapply Reads_bind; [by apply Reads_u32|]. rewrite to_nat_zlen.
    eapply Reads_bind_ret; [|reflexivity].
    rewrite <-(list_fmap_id l) at 3. apply (Reads_times read_lp_string lp_string id).
    intros x Hx. apply Reads_lp_string. rewrite list.Forall_forall in Hf. by apply Hf.
  - eapply Reads_bind_ret; [|reflexivity]. rewrite es_length_fits, <-lp_string_small by done.
    by apply Reads_element.
Qed.

(** ** Properties *)

(** A numbering of the block operations, for the examples. *)
Definition ex_code (op : BlockOperation) : Z :=
  match op with
  | NoBlock => 0 | PopBlock => 1 | PopNoBlock => 2 | BlockLock => 3 | PopElement => 4 | Discard => 5
  end.
Definition ex_of (z : Z) : BlockOperation :=
  if z =? 0 then NoBlock else if z =? 1 then PopBlock else if z =? 2 then PopNoBlock
  else if z =? 3 then BlockLock else if z =? 4 then PopElement else Discard.

Lemma ex_code_u8 op : is_u8 (ex_code op).
Proof. destruct op; concrete. Qed.
Lemma ex_of_code op : ex_of (ex_code op) = op.
Proof. by destruct op. Qed.

Definition ex_a : EloqString := es_of_view [Init.Byte.x61].
Definition ex_b : EloqString := es_own [Init.Byte.x62].



(** C29: reading the image of a command gives the command back with every string
    owned, whatever follows the image; the image does not depend on how the
    command holds its strings. *)
Theorem command_image_roundtrip block_code block_of c rest :
  (forall op, is_u8 (block_code op)) -> (forall op, block_of (block_code op) = op) -> cmd_ok c ->
  List_CreateTxCommand block_of (List_Serialize block_code c [] ++ rest) = Some (own_cmd c, rest)
  /\ List_Serialize block_code (own_cmd c) [] = List_Serialize block_code c [].
Proof.
  intros Hu Ho Hc. split; [by apply List_CreateTxCommand_of|].
  assert (forall els, elements_str (own <$> els) = elements_str els) as He.
  { intros els. unfold elements_str. rewrite zlen_fmap, <-list_fmap_compose. done. }
  destruct c; cbn [own_cmd List_Serialize]; try done;
    unfold LPush_Serialize, RPush_Serialize, LPushX_Serialize, RPushX_Serialize; by rewrite He.
Qed.

Lemma command_image_roundtrip_witness :
  List_CreateTxCommand ex_of (List_Serialize ex_code (LInsertCommand true ex_a ex_b) [] ++ [Init.Byte.x00])
  = Some (own_cmd (LInsertCommand true ex_a ex_b), [Init.Byte.x00])
  /\ List_Serialize ex_code (own_cmd (LInsertCommand true ex_a ex_b)) []
     = List_Serialize ex_code (LInsertCommand true ex_a ex_b) [].
Proof.
  exact (command_image_roundtrip ex_code ex_of (LInsertCommand true ex_a ex_b) [Init.Byte.x00]
    ex_code_u8 ex_of_code ltac:(concrete)).
Defined.

(** LPUSH (and RPUSH, LPUSHX, RPUSHX, which decide alike) is accepted
    exactly when the list it commits stays within [MAX_OBJECT_SIZE], and then
    replies with the new length. *)
Theorem push_limit_exact o els r :
  list_wf o -> list_bounded (list_contents o) ->
  Forall es_fits els -> zsum elem_len (es_view <$> els) < 2 ^ 63 ->
  let '(r', st) := Execute_Push o els r in
  let o' := (CommitLPush o els).1 in
  (st = Modified <-> list_serialized_length_ o' <= MAX_OBJECT_SIZE)
  /\ (st = Modified -> lr_err_code_ r' = RD_OK /\ lr_ret_ r' = list_size o')
  /\ (st <> Modified -> st = NoChange /\ lr_err_code_ r' = RD_ERR_OBJECT_TOO_BIG).
Proof.
  intros H. canon_list H cs Hcs. rewrite list_contents_of. intros Hb Hf Hs.
  rewrite Execute_Push_of by done.
  assert (image_len (reverse (es_view <$> els) ++ cs) = image_len cs + zsum elem_len (es_view <$> els)) as Hi.
  { rewrite (image_len_perm _ (cs ++ (es_view <$> els))), image_len_app; [done|].
    rewrite reverse_Permutation. apply Permutation_app_comm. }
  pose proof (image_len_pos cs). pose proof (zsum_nonneg elem_len (es_view <$> els) elem_len_nonneg).
  assert (list_serialized_length_ (CommitLPush (list_of cs) els).1
          = image_len cs + zsum elem_len (es_view <$> els)) as Hl.
  { rewrite CommitLPush_of by done. cbn. rewrite Hi. apply u64_id.
    unfold list_bounded, MAX_OBJECT_SIZE in Hb. mach. lia. }
  destruct (Z.ltb_spec MAX_OBJECT_SIZE (image_len cs + zsum elem_len (es_view <$> els)));
    cbn zeta; rewrite Hl; split_and!; try done; try (split; (done || lia)).
  intros _. split; [done|]. rewrite CommitLPush_of, list_size_of by done. cbn [lr_ret_ lr_set_err lr_set_ret]. zlen. lia.
Qed.

Lemma push_limit_exact_witness :
  let '(r', st) := Execute_Push abc [ex_a; ex_b] list_result0 in
  let o' := (CommitLPush abc [ex_a; ex_b]).1 in
  (st = Modified <-> list_serialized_length_ o' <= MAX_OBJECT_SIZE)
  /\ (st = Modified -> lr_err_code_ r' = RD_OK /\ lr_ret_ r' = list_size o')
  /\ (st <> Modified -> st = NoChange /\ lr_err_code_ r' = RD_ERR_OBJECT_TOO_BIG).
Proof.
  exact (push_limit_exact abc [ex_a; ex_b] list_result0 abc_wf ltac:(concrete) ltac:(concrete) ltac:(concrete)).
Defined.

(** after any command but the popping half of LMOVE ran on a non-empty
    list, its reply is well defined: every [std::get] finds its alternative and
    every index is in range. *)
Theorem replies_defined c obj o r c' r' v :
  as_list obj = Some o -> list_wf o -> list_contents o <> [] -> (forall l, c <> LMovePopCommand l) ->
  List_ExecuteOn c obj r = Some (c', r', v) -> is_Some (List_OutputResult c' r').
Proof.
  intros Ho Hw Hne Hl HE. destruct (list_wf_canonical o Hw) as [E _]. rewrite E in Ho.
  by eapply List_ExecuteOn_output.
Qed.

Lemma replies_defined_witness :
  is_Some (List_OutputResult (LPopCommand (-1))
    (mkListResult RD_OK (LRStrings [[Init.Byte.x61]]) 1)).
Proof.
  exact (replies_defined (LPopCommand (-1)) (ObjList abc) abc list_result0 (LPopCommand (-1))
    (mkListResult RD_OK (LRStrings [[Init.Byte.x61]]) 1) ExecWrite
    eq_refl abc_wf ltac:(discriminate) ltac:(discriminate) ltac:(vm_compute; reflexivity)).
Defined.

(** a list result sent to another node is read back with the same code,
    number and strings. *)
Theorem list_result_roundtrip r rest :
  list_result_ok r ->
  exists image, RedisListResult_Serialize r [] = Some image
  /\ RedisListResult_Deserialize (image ++ rest) = Some (own_result r, rest).
Proof. intros H. destruct (RedisListResult_Deserialize_of r H) as (image & E & Hr). eauto. Qed.

Lemma list_result_roundtrip_witness :
  let r := mkListResult RD_OK (LRStrings [[Init.Byte.x61]; []]) (-1) in
  exists image, RedisListResult_Serialize r [] = Some image
  /\ RedisListResult_Deserialize (image ++ [Init.Byte.x07]) = Some (own_result r, [Init.Byte.x07]).
Proof.
  exact (list_result_roundtrip (mkListResult RD_OK (LRStrings [[Init.Byte.x61]; []]) (-1)) [Init.Byte.x07]
    ltac:(concrete)).
Defined.

(** LREM with count 2^32 decides that the only element goes and asks for
    the key to be deleted, but the commit narrows the count to [int] and leaves
    the list as it was. *)
Theorem lrem_count_narrowed :
  let o := list_of [[Init.Byte.x61]] in
  let c := LRemCommand (2 ^ 32) ex_a in
  List_ExecuteOn c (ObjList o) list_result0 = Some (c, mkListResult RD_OK (LRInt64s []) 1, ExecDelete)
  /\ List_CommitOn c o = Some (Some o).
Proof. split; vm_compute; reflexivity. Qed.

(** the pushing half of LMOVE accepts an element although the list it
    commits is larger than [MAX_OBJECT_SIZE]. *)
Theorem lmove_passes_size_limit :
  exists o e, list_wf o /\ list_serialized_length_ o <= MAX_OBJECT_SIZE
  /\ (LMovePush_ExecuteOn e (ObjList o) list_result0).2 = ExecWrite
  /\ exists o', LMovePush_CommitOn true e true o = Some o'
     /\ MAX_OBJECT_SIZE < list_serialized_length_ o'.
Proof.
  assert (exists big : bytes, zlen big = MAX_OBJECT_SIZE - 9) as [big Hz].
  { exists (replicate (Z.to_nat (MAX_OBJECT_SIZE - 9)) Init.Byte.x00).
    unfold zlen. rewrite length_replicate. unfold MAX_OBJECT_SIZE. lia. }
  assert (image_len [big] = MAX_OBJECT_SIZE) as Hi
    by (unfold image_len; cbn [zsum]; unfold elem_len; lia).
  assert (list_bounded [big]) as Hb by (unfold list_bounded; lia).
  exists (list_of [big]), (es_own []). split_and!.
  - by apply list_wf_of, list_bounded_fits.
  - by rewrite list_bounded_len, Hi.
  - unfold LMovePush_ExecuteOn, Execute_LMovePush. cbn [as_list].
    rewrite list_bounded_len, Hi by done. reflexivity.
  - exists (list_of ([] :: [big])). split.
    + unfold LMovePush_CommitOn. rewrite CommitLMovePush_of by concrete. done.
    + rewrite list_bounded_len; [|unfold list_bounded]; unfold image_len in *; cbn [zsum] in *;
        unfold elem_len in *; zlen; lia.
Qed.

(** after a successful pop for LMOVE the command's own reply cannot be
    written: it asks for another alternative of the result than was stored. *)
Theorem lmovepop_reply_fails l cs r :
  cs <> [] ->
  let '(r', _) := LMovePop_ExecuteOn l (ObjList (list_of cs)) r in
  lr_err_code_ r' = RD_OK /\ LMovePop_OutputResult r' = None.
Proof.
  intros Hne. unfold LMovePop_ExecuteOn, Execute_LMovePop. cbn [as_list].
  destruct (if l then _ else _) eqn:E; [|done].
  apply (f_equal zlen) in E. pose proof (nonempty_zlen cs Hne).
  destruct l; cbn [list_of list_object_] in E; rewrite ?zlen_reverse, zlen_fmap, zlen_nil in E; lia.
Qed.

Lemma lmovepop_reply_fails_witness :
  let '(r', _) := LMovePop_ExecuteOn true (ObjList abc) list_result0 in
  lr_err_code_ r' = RD_OK /\ LMovePop_OutputResult r' = None.
Proof.
  exact (lmovepop_reply_fails true [[Init.Byte.x61]; [Init.Byte.x62]; [Init.Byte.x61]] list_result0
    ltac:(discriminate)).
Defined.
