(* ===== verification/ZsetCommand.v ===== *)
(** * The sorted-set commands

    The command classes of src/redis_command.cpp that act on one sorted set, each
    a [CommandClass]: ZADD (with ZINCRBY), ZREM, ZPOPMIN and ZPOPMAX, ZREMRANGE,
    and the readers ZRANGE, ZCOUNT, ZLEXCOUNT, ZSCORE, ZMSCORE, ZCARD and ZRANK.
    Every class is shown to be [Replayable]. *)

From S2P Require Import Prelude Codec EloqString RedisTypes Encoding Double ListObject SetObject ZsetObject ZsetImage ZsetRange RedisObject TxCommand.

(** ** Shared pieces *)

(** [CheckTypeMatch], then [Execute] on the object, which stays as it is. *)
Definition zset_read {F : Type} (f : F) (execute : RedisZsetObject -> RedisZsetResult -> option RedisZsetResult)
    (object : RedisEloqObject) (r : RedisZsetResult) : option (F * RedisZsetResult * ExecResult) :=
  match as_zset object with
  | None => Some (f, zr_set_err RD_ERR_WRONG_TYPE r, ExecFail)
  | Some o => r ← execute o r; Some (f, r, ExecRead)
  end.

(** The same for a removal: the switch on the state. *)
Definition zset_remove {F : Type} (f : F) (execute : RedisZsetObject -> option (RedisZsetResult * CommandExecuteState))
    (object : RedisEloqObject) (r : RedisZsetResult) : option (F * RedisZsetResult * ExecResult) :=
  match as_zset object with
  | None => Some (f, zr_set_err RD_ERR_WRONG_TYPE r, ExecFail)
  | Some o => '(r, state) ← execute o; Some (f, r, write_delete_or_fail state)
  end.

(** [std::get<int>], 0 for a missing key; [None]: another alternative is held. *)
Definition zset_output_int (r : RedisZsetResult) : option (list ReplyEvent) :=
  if zr_err_code_ r =? RD_OK then match zr_result_ r with ZRInt n => Some [OnInt n] | _ => None end
  else if zr_err_code_ r =? RD_NIL then Some [OnInt 0]
  else Some [OnError (zr_err_code_ r)].

(** [std::get<std::vector<EloqString>>], an empty array for a missing key. *)
Definition zset_output_array (r : RedisZsetResult) : option (list ReplyEvent) :=
  if zr_err_code_ r =? RD_OK then
    match zr_result_ r with ZRStrings l => Some (output_array (es_view <$> l)) | _ => None end
  else if zr_err_code_ r =? RD_NIL then Some (output_array [])
  else Some [OnError (zr_err_code_ r)].

(** A class without [CommitOn]. *)
Definition no_commit {F : Type} (f : F) (obj : RedisEloqObject) : option (option RedisEloqObject) := None.

Section Printing.

Context (fpconv_dtoa : Z -> bytes).

(** ** ZADD *)

(** [type_] is the alternative that [elements_] holds. *)
Record ZAddFields := mkZAdd { za_elements_ : ZElements; za_flags : Z; za_is_in_the_middle_stage_ : bool }.

Definition ForceClear (flags : Z) : bool := has_flag ZADD_FORCE_CLEAR flags.

Definition ZAdd_ExecuteOn (c : ZAddFields) (object : RedisEloqObject) (r : RedisZsetResult)
    : option (ZAddFields * RedisZsetResult * ExecResult) :=
  let flags := za_flags c in
  if ForceClear flags then
    let new_size := match za_elements_ c with ElVector vct => zlen vct | _ => 0 end in
    Some (c, mkZsetResult RD_OK (ZRInt (i32 new_size)), if new_size =? 0 then ExecDelete else ExecWrite)
  else
    match as_zset object with
    | None => Some (c, zr_set_err RD_ERR_WRONG_TYPE r, ExecFail)
    | Some o =>
        '(r, elements, state) ← Execute_ZAdd fpconv_dtoa o (za_elements_ c) flags r;
        Some (mkZAdd elements flags (za_is_in_the_middle_stage_ c), r, write_or_fail state)
    end.

Definition ZAdd_CommitOn (c : ZAddFields) (obj_ptr : RedisEloqObject) : option (option RedisEloqObject) :=
  let commit o := '(o, _) ← CommitZAdd o (za_elements_ c) (za_flags c) (za_is_in_the_middle_stage_ c); Some (Some o) in
  if ForceClear (za_flags c) then
    match za_elements_ c with
    | ElMonostate => Some None
    | _ => in_slot ObjZset (commit zset_new)
    end
  else commit_zset commit obj_ptr.

(** The lambda [SerializeElement]. *)
Definition zelement_str (e : Z * EloqString) : bytes := le_bytes 8 e.1 ++ lp_string (es_view e.2).
Definition read_zelement : Reader (Z * EloqString) := num <-- read_u64; field <-- read_element; rret (num, field).

Definition ZAdd_Serialize (c : ZAddFields) : bytes :=
  le_bytes 1 76 ++ le_bytes 1 (za_flags c) ++
  match za_elements_ c with
  | ElVector v => le_bytes 1 2 ++ le_bytes 4 (zlen v) ++ concat (zelement_str <$> v)
  | ElPair num field => le_bytes 1 1 ++ zelement_str (num, field)
  | ElMonostate => le_bytes 1 0
  end.

Definition ZAdd_Deserialize : Reader ZAddFields :=
  flags <-- read_u8; element_type <-- read_u8;
  elements <-- (if element_type =? 2 then
                  ele_cnt <-- read_u32; v <-- read_times (Z.to_nat ele_cnt) read_zelement; rret (ElVector v)
                else if element_type =? 1 then e <-- read_zelement; rret (ElPair e.1 e.2)
                else rret ElMonostate);
  rret (mkZAdd elements flags false).

Definition ZAdd_OutputResult (c : ZAddFields) (r : RedisZsetResult) : option (list ReplyEvent) :=
  if zr_err_code_ r =? RD_OK then
    match zr_result_ r with
    | ZRInt n => Some [OnInt n]
    | ZRString s => Some [OnString (es_view s)]
    | _ => None
    end
  else if zr_err_code_ r =? RD_NIL then Some [if INCR (za_flags c) then OnNil else OnInt 0]
  else Some [OnError (zr_err_code_ r)].

(** The copy constructor that [Clone] calls. *)
Definition ZAdd_copy (rhs : ZAddFields) : ZAddFields :=
  mkZAdd match za_elements_ rhs with
         | ElVector v => ElVector ((fun e => (e.1, es_clone e.2)) <$> v)
         | ElPair score member => ElPair score (es_clone member)
         | ElMonostate => ElMonostate
         end (za_flags rhs) (za_is_in_the_middle_stage_ rhs).

Definition ZAddCommand : CommandClass := {|
  cc_fields := ZAddFields;
  cc_result := RedisZsetResult;
  cc_codes := [76];
  ProceedOnNonExistentObject c := negb (XX (za_flags c));
  CreateObject := Some (ObjZset zset_new);
  ExecuteOn := ZAdd_ExecuteOn;
  CommitOn := ZAdd_CommitOn;
  Serialize := ZAdd_Serialize;
  Deserialize _ := ZAdd_Deserialize;
  OutputResult := ZAdd_OutputResult
|}.

(** ** ZREM *)

Definition ZRemCommand : CommandClass := {|
  cc_fields := list EloqString;
  cc_result := RedisZsetResult;
  cc_codes := [81];
  ProceedOnNonExistentObject _ := false;
  CreateObject := Some (ObjZset zset_new);
  ExecuteOn elements_ := zset_remove elements_ (fun o => Some (Execute_ZRem o elements_));
  CommitOn elements_ := commit_zset (fun o => null_if_empty <$> CommitZRem o elements_);
  Serialize elements_ := le_bytes 1 81 ++ elements_str elements_;
  Deserialize _ := read_elements;
  OutputResult _ := zset_output_int
|}.

(** ** ZPOPMIN and ZPOPMAX *)

(** The number in the image stands for [pop_type_]. *)
Definition ZPopCommand : CommandClass := {|
  cc_fields := PopType * Z;
  cc_result := RedisZsetResult;
  cc_codes := [88; 89];
  ProceedOnNonExistentObject _ := false;
  CreateObject := Some (ObjZset zset_new);
  ExecuteOn '((pop_type_, count_) as c) := zset_remove c (fun o => Some (Execute_ZPop fpconv_dtoa o pop_type_ count_));
  CommitOn '(pop_type_, count_) := commit_zset (fun o => null_if_empty <$> CommitZPop o pop_type_ count_);
  Serialize '(pop_type_, count_) := le_bytes 1 (match pop_type_ with POPMIN => 88 | POPMAX => 89 end) ++ le_bytes 8 count_;
  Deserialize code := count_ <-- read_i64; rret (if code =? 88 then POPMIN else POPMAX, count_);
  OutputResult _ := zset_output_array
|}.

(** ** Range arguments in an image *)

(** The numbers are those of [ResultType]. *)
Definition bound_str (b : ZBound) : bytes :=
  match b with
  | BInt ival => le_bytes 1 2 ++ le_bytes 4 ival
  | BDouble dval => le_bytes 1 1 ++ le_bytes 8 dval
  | BString sval => le_bytes 1 0 ++ lp_string (es_view sval)
  end.

(** A number that no bound has leaves the default. *)
Definition read_bound : Reader ZBound :=
  type <-- read_u8;
  (if type =? 2 then n <-- read_i32; rret (BInt n)
   else if type =? 1 then d <-- read_u64; rret (BDouble d)
   else if type =? 0 then s <-- read_element; rret (BString s)
   else rret (BInt 0)).

(** The spec without [null_], which is not written and reads as [false]. *)
Definition spec_str (spec_ : ZRangeSpec) : bytes :=
  bool_str (minex_ spec_) ++ bool_str (maxex_ spec_) ++ bool_str (negative_ spec_) ++ bool_str (positive_ spec_)
  ++ bound_str (opt_start_ spec_) ++ bound_str (opt_end_ spec_).

Definition read_spec : Reader ZRangeSpec :=
  minex <-- read_bool; maxex <-- read_bool; negative <-- read_bool; positive <-- read_bool;
  start <-- read_bound; stop <-- read_bound;
  rret (mkSpec false minex maxex negative positive start stop).

Definition range_type_int (t : ZRangeType) : Z :=
  match t with ZRANGE_AUTO => 0 | ZRANGE_RANK => 1 | ZRANGE_SCORE => 2 | ZRANGE_LEX => 3 end.
Definition range_type_of (n : Z) : ZRangeType :=
  match n with 1 => ZRANGE_RANK | 2 => ZRANGE_SCORE | 3 => ZRANGE_LEX | _ => ZRANGE_AUTO end.
Definition direction_int (d : ZRangeDirection) : Z :=
  match d with ZRANGE_DIRECTION_AUTO => 0 | ZRANGE_DIRECTION_FORWARD => 1 | ZRANGE_DIRECTION_REVERSE => 2 end.
Definition direction_of (n : Z) : ZRangeDirection :=
  match n with 1 => ZRANGE_DIRECTION_FORWARD | 2 => ZRANGE_DIRECTION_REVERSE | _ => ZRANGE_DIRECTION_AUTO end.

(** ** ZREMRANGEBYRANK, BYSCORE and BYLEX *)

Definition ZRemRange_Serialize (range_type_ : ZRangeType) (spec_ : ZRangeSpec) : bytes :=
  le_bytes 1 86 ++ le_bytes 1 (range_type_int range_type_) ++ spec_str spec_.

Definition ZRemRange_Deserialize : Reader (ZRangeType * ZRangeSpec) :=
  t <-- read_u8; spec_ <-- read_spec; rret (range_type_of t, spec_).

Definition ZRemRangeCommand : CommandClass := {|
  cc_fields := ZRangeType * ZRangeSpec;
  cc_result := RedisZsetResult;
  cc_codes := [86];
  ProceedOnNonExistentObject _ := false;
  CreateObject := Some (ObjZset zset_new);
  ExecuteOn '((range_type_, spec_) as c) := zset_remove c (fun o => Execute_ZRemRange o range_type_ spec_);
  CommitOn '(range_type_, spec_) := commit_zset (fun o => null_if_empty <$> CommitZRemRange o range_type_ spec_);
  Serialize '(range_type_, spec_) := ZRemRange_Serialize range_type_ spec_;
  Deserialize _ := ZRemRange_Deserialize;
  OutputResult _ := zset_output_int
|}.

(** ** ZRANGE *)

Section Walk.

(** The order in which a set is walked. *)
Context (walk : RedisHashSetObject -> list EloqString).

(** [RedisHashSetObject::Execute(ZRangeCommand)]: every member has the score 1. *)
Definition Execute_ZRange_set (o : RedisHashSetObject) (opt_withscores : bool) : RedisZsetResult :=
  mkZsetResult RD_OK (ZRStrings (mjoin ((fun element =>
    es_clone element :: (if opt_withscores then [es_of_data (lit "1")] else [])) <$> walk o))).

Definition ZRange_ExecuteOn (c : ZRangeConstraint * ZRangeSpec * bool) (object : RedisEloqObject) (r : RedisZsetResult)
    : option (ZRangeConstraint * ZRangeSpec * bool * RedisZsetResult * ExecResult) :=
  let '(constraint_, spec_, multi_type_range_) := c in
  match as_zset object, as_set object with
  | Some o, _ =>
      '(r, constraint_) ← Execute_ZRange fpconv_dtoa o constraint_ spec_;
      Some (constraint_, spec_, multi_type_range_, r, ExecRead)
  | None, Some o =>
      if multi_type_range_ then Some (c, Execute_ZRange_set o (opt_withscores_ constraint_), ExecRead)
      else Some (c, zr_set_err RD_ERR_WRONG_TYPE r, ExecFail)
  | None, None => Some (c, zr_set_err RD_ERR_WRONG_TYPE r, ExecFail)
  end.

Definition ZRange_Serialize (c : ZRangeConstraint * ZRangeSpec * bool) : bytes :=
  let '(constraint_, spec_, multi_type_range_) := c in
  le_bytes 1 79 ++ bool_str (opt_withscores_ constraint_) ++ le_bytes 4 (opt_offset_ constraint_)
  ++ le_bytes 4 (opt_limit_ constraint_) ++ le_bytes 1 (range_type_int (rangetype_ constraint_))
  ++ le_bytes 1 (direction_int (direction_ constraint_)) ++ spec_str spec_ ++ bool_str multi_type_range_.

Definition ZRange_Deserialize : Reader (ZRangeConstraint * ZRangeSpec * bool) :=
  withscores <-- read_bool; offset <-- read_i32; limit <-- read_i32; t <-- read_u8; d <-- read_u8;
  spec_ <-- read_spec; multi <-- read_bool;
  rret (mkConstraint withscores offset limit (range_type_of t) (direction_of d), spec_, multi).

Definition ZRangeCommand : CommandClass := {|
  cc_fields := ZRangeConstraint * ZRangeSpec * bool;
  cc_result := RedisZsetResult;
  cc_codes := [79; 83; 84; 85; 99; 100; 101];
  ProceedOnNonExistentObject _ := false;
  CreateObject := Some (ObjZset zset_new);
  ExecuteOn := ZRange_ExecuteOn;
  CommitOn := no_commit;
  Serialize := ZRange_Serialize;
  Deserialize _ := ZRange_Deserialize;
  OutputResult _ := zset_output_array
|}.

End Walk.

(** ** ZCOUNT and ZLEXCOUNT *)

Definition ZCountCommand : CommandClass := {|
  cc_fields := ZRangeSpec;
  cc_result := RedisZsetResult;
  cc_codes := [77];
  ProceedOnNonExistentObject _ := false;
  CreateObject := Some (ObjZset zset_new);
  ExecuteOn spec_ := zset_read spec_ (fun o _ => Execute_ZCount o spec_);
  CommitOn := no_commit;
  Serialize spec_ :=
    le_bytes 1 77 ++ bool_str (minex_ spec_) ++ bool_str (maxex_ spec_)
    ++ bound_str (opt_start_ spec_) ++ bound_str (opt_end_ spec_);
  Deserialize _ :=
    minex <-- read_bool; maxex <-- read_bool; start <-- read_bound; stop <-- read_bound;
    rret (mkSpec false minex maxex false false start stop);
  OutputResult _ := zset_output_int
|}.

(** With [null_] the reader stops before the bounds, whatever was written. *)
Definition string_bound_str (b : ZBound) : bytes :=
  match b with BString sval => lp_string (es_view sval) | _ => [] end.

Definition ZLexCountCommand : CommandClass := {|
  cc_fields := ZRangeSpec;
  cc_result := RedisZsetResult;
  cc_codes := [87];
  ProceedOnNonExistentObject _ := false;
  CreateObject := Some (ObjZset zset_new);
  ExecuteOn spec_ := zset_read spec_ (fun o _ => Execute_ZLexCount o spec_);
  CommitOn := no_commit;
  Serialize spec_ :=
    le_bytes 1 87 ++ bool_str (null_ spec_) ++ bool_str (minex_ spec_) ++ bool_str (maxex_ spec_)
    ++ bool_str (negative_ spec_) ++ bool_str (positive_ spec_)
    ++ string_bound_str (opt_start_ spec_) ++ string_bound_str (opt_end_ spec_);
  Deserialize _ :=
    null <-- read_bool;
    if null : bool then rret (mkSpec true false false false false (BInt 0) (BInt 0))
    else
      minex <-- read_bool; maxex <-- read_bool; negative <-- read_bool; positive <-- read_bool;
      start <-- read_element; stop <-- read_element;
      rret (mkSpec false minex maxex negative positive (BString start) (BString stop));
  OutputResult _ := zset_output_int
|}.

(** ** ZSCORE, ZMSCORE, ZCARD, ZRANK *)

Definition ZScoreCommand : CommandClass := {|
  cc_fields := EloqString;
  cc_result := RedisZsetResult;
  cc_codes := [82];
  ProceedOnNonExistentObject _ := false;
  CreateObject := Some (ObjZset zset_new);
  ExecuteOn element_ := zset_read element_ (fun o r => Some (Execute_ZScore fpconv_dtoa o element_ r));
  CommitOn := no_commit;
  Serialize element_ := le_bytes 1 82 ++ lp_string (es_view element_);
  Deserialize _ := read_element;
  OutputResult _ r :=
    if zr_err_code_ r =? RD_OK then match zr_result_ r with ZRString s => Some [OnString (es_view s)] | _ => None end
    else if zr_err_code_ r =? RD_NIL then Some [OnNil]
    else Some [OnError (zr_err_code_ r)]
|}.

Definition ZMScoreCommand : CommandClass := {|
  cc_fields := list EloqString;
  cc_result := RedisZsetResult;
  cc_codes := [102];
  ProceedOnNonExistentObject _ := false;
  CreateObject := Some (ObjZset zset_new);
  ExecuteOn vct_elm_ := zset_read vct_elm_ (fun o _ => Some (Execute_ZMScore fpconv_dtoa o vct_elm_));
  CommitOn := no_commit;
  Serialize vct_elm_ := le_bytes 1 102 ++ elements_str vct_elm_;
  Deserialize _ := read_elements;
  OutputResult vct_elm_ r :=
    if zr_err_code_ r =? RD_OK then
      match zr_result_ r with
      | ZRStrings vct_res =>
          Some (OnArrayStart (zlen vct_res)
                :: ((fun elm => if es_length elm =? 0 then OnNil else OnString (es_view elm)) <$> vct_res) ++ [OnArrayEnd])
      | _ => None
      end
    else if zr_err_code_ r =? RD_NIL
    then Some (OnArrayStart (zlen vct_elm_) :: replicate (length vct_elm_) OnNil ++ [OnArrayEnd])
    else Some [OnError (zr_err_code_ r)]
|}.

Definition ZCardCommand : CommandClass := {|
  cc_fields := unit;
  cc_result := RedisZsetResult;
  cc_codes := [78];
  ProceedOnNonExistentObject _ := false;
  CreateObject := Some (ObjZset zset_new);
  ExecuteOn c := zset_read c (fun o _ => Some (Execute_ZCard o));
  CommitOn := no_commit;
  Serialize _ := le_bytes 1 78;
  Deserialize _ := rret tt;
  OutputResult _ := zset_output_int
|}.

(** [member_], [with_score_] and [is_rev_]. *)
Definition ZRankCommand : CommandClass := {|
  cc_fields := EloqString * bool * bool;
  cc_result := RedisZsetResult;
  cc_codes := [97];
  ProceedOnNonExistentObject _ := false;
  CreateObject := Some (ObjZset zset_new);
  ExecuteOn '((member_, with_score_, is_rev_) as c) :=
    zset_read c (fun o r => Some (Execute_ZRank fpconv_dtoa o member_ is_rev_ with_score_ r));
  CommitOn := no_commit;
  Serialize '(member_, with_score_, is_rev_) :=
    le_bytes 1 97 ++ lp_string (es_view member_) ++ bool_str with_score_ ++ bool_str is_rev_;
  Deserialize _ := m <-- read_element; w <-- read_bool; v <-- read_bool; rret (m, w, v);
  OutputResult _ r :=
    if zr_err_code_ r =? RD_OK then
      match zr_result_ r with
      | ZRInt ans => Some [OnInt ans]
      | ZRPair n s => Some [OnArrayStart 2; OnInt n; OnString s; OnArrayEnd]
      | _ => None
      end
    else if zr_err_code_ r =? RD_NIL then Some [OnNil]
    else Some [OnError (zr_err_code_ r)]
|}.

End Printing.

(** ** Images *)

Definition own_zelement (e : Z * EloqString) : Z * EloqString := (e.1, own e.2).
Definition own_zelements (e : ZElements) : ZElements :=
  match e with
  | ElVector v => ElVector (own_zelement <$> v)
  | ElPair num field => ElPair num (own field)
  | ElMonostate => ElMonostate
  end.

Definition zelement_fits (e : Z * EloqString) : Prop := is_u64 e.1 /\ es_fits e.2.
Definition zelements_fit (e : ZElements) : Prop :=
  match e with
  | ElVector v => Forall zelement_fits v /\ is_u32 (zlen v)
  | ElPair num field => zelement_fits (num, field)
  | ElMonostate => True
  end.

Definition zadd_fits (c : ZAddFields) : Prop := is_u8 (za_flags c) /\ zelements_fit (za_elements_ c).
Definition zadd_reread (c : ZAddFields) : ZAddFields := mkZAdd (own_zelements (za_elements_ c)) (za_flags c) false.

Lemma Reads_zelement e : zelement_fits e -> Reads read_zelement (zelement_str e) (own_zelement e).
Proof. intros [? ?]. unfold read_zelement, zelement_str. reads. done. Qed.

Lemma Reads_zelements v : Forall zelement_fits v ->
  Reads (read_times (length v) read_zelement) (concat (zelement_str <$> v)) (own_zelement <$> v).
Proof.
  intros H. apply (Reads_times read_zelement zelement_str own_zelement). intros e He. apply Reads_zelement.
  rewrite list.Forall_forall in H. auto.
Qed.

Lemma zadd_image fp c : zadd_fits c -> Reads (read_image (ZAddCommand fp)) (ZAdd_Serialize c) (zadd_reread c).
Proof.
  intros [Hf He]. apply Reads_image; [set_solver|mach; lia|]. cbn [Deserialize ZAddCommand]. unfold ZAdd_Deserialize.
  eapply Reads_bind; [by apply Reads_u8|]. unfold zadd_reread. destruct (za_elements_ c) as [|num field|v]; cbn [zelements_fit] in He.
  - eapply Reads_bind_ret; [apply Reads_u8; mach; lia|done].
  - eapply Reads_bind; [apply Reads_u8; mach; lia|]. cbn [Z.eqb Pos.eqb].
    eapply Reads_bind_ret; [|done]. eapply Reads_bind_ret; [by apply Reads_zelement|done].
  - destruct He as [He Hn]. eapply Reads_bind; [apply Reads_u8; mach; lia|]. cbn [Z.eqb Pos.eqb].
    eapply Reads_bind_ret; [|done]. eapply Reads_bind; [by apply Reads_u32|]. rewrite to_nat_zlen.
    eapply Reads_bind_ret; [by apply Reads_zelements|done].
Qed.

Definition own_bound (b : ZBound) : ZBound := match b with BString s => BString (own s) | _ => b end.
Definition bound_fits (b : ZBound) : Prop :=
  match b with BInt n => is_i32 n | BDouble d => is_u64 d | BString s => es_fits s end.

(** The spec as it is read back: [null_] is lost. *)
Definition spec_reread (spec : ZRangeSpec) : ZRangeSpec :=
  mkSpec false (minex_ spec) (maxex_ spec) (negative_ spec) (positive_ spec) (own_bound (opt_start_ spec)) (own_bound (opt_end_ spec)).
Definition spec_fits (spec : ZRangeSpec) : Prop := bound_fits (opt_start_ spec) /\ bound_fits (opt_end_ spec).

Lemma Reads_bound b : bound_fits b -> Reads read_bound (bound_str b) (own_bound b).
Proof.
  intros H. unfold read_bound, bound_str. destruct b; cbn [bound_fits] in H;
    (eapply Reads_bind; [apply Reads_u8; mach; lia|]); cbn [Z.eqb Pos.eqb]; reads; done.
Qed.
#[local] Hint Resolve Reads_bound : codec.

Lemma Reads_spec spec : spec_fits spec -> Reads read_spec (spec_str spec) (spec_reread spec).
Proof. intros [? ?]. unfold read_spec, spec_str. reads. done. Qed.
#[local] Hint Resolve Reads_spec : codec.

Lemma Reads_range_type t : Reads read_u8 (le_bytes 1 (range_type_int t)) (range_type_int t).
Proof. apply Reads_u8. destruct t; mach; cbn; lia. Qed.
Lemma Reads_direction d : Reads read_u8 (le_bytes 1 (direction_int d)) (direction_int d).
Proof. apply Reads_u8. destruct d; mach; cbn; lia. Qed.
#[local] Hint Resolve Reads_range_type Reads_direction : codec.

Lemma range_type_of_int t : range_type_of (range_type_int t) = t.
Proof. by destruct t. Qed.
Lemma direction_of_int d : direction_of (direction_int d) = d.
Proof. by destruct d. Qed.

Lemma zremrange_image rt spec : spec_fits spec ->
  Reads (read_image ZRemRangeCommand) (ZRemRange_Serialize rt spec) (rt, spec_reread spec).
Proof.
  intros H. apply Reads_image; [set_solver|mach; lia|]. cbn [Deserialize ZRemRangeCommand]. unfold ZRemRange_Deserialize.
  reads. by rewrite range_type_of_int.
Qed.

Definition constraint_fits (arg : ZRangeConstraint) : Prop := is_i32 (opt_offset_ arg) /\ is_i32 (opt_limit_ arg).

Lemma zrange_image fp walk arg spec multi : constraint_fits arg -> spec_fits spec ->
  Reads (read_image (ZRangeCommand fp walk)) (ZRange_Serialize (arg, spec, multi)) (arg, spec_reread spec, multi).
Proof.
  intros [? ?] ?. apply Reads_image; [set_solver|mach; lia|]. cbn [Deserialize ZRangeCommand]. unfold ZRange_Deserialize.
  reads. rewrite range_type_of_int, direction_of_int. by destruct arg.
Qed.

Lemma zrem_image els : Forall es_fits els -> is_u32 (zlen els) ->
  Reads (read_image ZRemCommand) (Serialize ZRemCommand els) (own <$> els).
Proof. intros ? ?. apply Reads_image; [set_solver|mach; lia|]. by apply Reads_elements. Qed.

Lemma zpop_image fp pop_type count : is_i64 count ->
  Reads (read_image (ZPopCommand fp)) (Serialize (ZPopCommand fp) (pop_type, count)) (pop_type, count).
Proof.
  intros ?. destruct pop_type; (apply Reads_image; [set_solver|mach; lia|]); cbn [Deserialize ZPopCommand]; reads; done.
Qed.

Lemma zcount_image spec : spec_fits spec -> negative_ spec = false -> positive_ spec = false ->
  Reads (read_image ZCountCommand) (Serialize ZCountCommand spec) (spec_reread spec).
Proof.
  intros [? ?] Hn Hp. apply Reads_image; [set_solver|mach; lia|]. cbn [Deserialize ZCountCommand]. reads.
  unfold spec_reread. by rewrite Hn, Hp.
Qed.

(** Unlike the others, ZLEXCOUNT writes [null_]; its reader then stops there. *)
Definition lex_fits (spec : ZRangeSpec) : Prop :=
  match opt_start_ spec, opt_end_ spec with
  | BString lo, BString hi => es_fits lo /\ es_fits hi
  | _, _ => False
  end.

Lemma zlexcount_image spec : lex_fits spec -> null_ spec = false ->
  Reads (read_image ZLexCountCommand) (Serialize ZLexCountCommand spec) (spec_reread spec).
Proof.
  intros Hf Hn. apply Reads_image; [set_solver|mach; lia|]. cbn [Deserialize ZLexCountCommand].
  unfold lex_fits in Hf. unfold spec_reread. destruct (opt_start_ spec) as [| |lo], (opt_end_ spec) as [| |hi]; try done.
  destruct Hf. rewrite Hn. cbn [string_bound_str own_bound]. reads. done.
Qed.

Lemma zscore_image fp e : es_fits e -> Reads (read_image (ZScoreCommand fp)) (Serialize (ZScoreCommand fp) e) (own e).
Proof. intros ?. apply Reads_image; [set_solver|mach; lia|]. by apply Reads_element. Qed.

Lemma zmscore_image fp els : Forall es_fits els -> is_u32 (zlen els) ->
  Reads (read_image (ZMScoreCommand fp)) (Serialize (ZMScoreCommand fp) els) (own <$> els).
Proof. intros ? ?. apply Reads_image; [set_solver|mach; lia|]. by apply Reads_elements. Qed.

Lemma zcard_image : Reads (read_image ZCardCommand) (Serialize ZCardCommand tt) tt.
Proof. change (le_bytes 1 78) with (le_bytes 1 78 ++ []). apply Reads_image; [set_solver|mach; lia|apply Reads_ret]. Qed.

Lemma zrank_image fp member with_score is_rev : es_fits member ->
  Reads (read_image (ZRankCommand fp)) (Serialize (ZRankCommand fp) (member, with_score, is_rev)) (own member, with_score, is_rev).
Proof. intros ?. apply Reads_image; [set_solver|mach; lia|]. cbn [Deserialize ZRankCommand]. reads. done. Qed.

(** ** Reading *)

Lemma zset_new_sound obj : Some (ObjZset zset_new) = Some obj -> sound obj.
Proof. intros [= <-]. split; [|concrete]. exists []. split_and!; [apply zl_ok_nil|done|vm_compute; discriminate]. Qed.

Lemma zset_read_verdict {F : Type} (f : F) exec obj r f' r' v :
  zset_read f exec obj r = Some (f', r', v) -> v = ExecRead \/ v = ExecFail.
Proof.
  unfold zset_read. destruct (as_zset obj) as [o|]; [|intros [= _ _ <-]; by right].
  destruct (exec o r); intros [= _ _ <-]. by left.
Qed.

Lemma zset_read_defined {F : Type} (f : F) exec obj r :
  sound obj -> (forall o, as_zset obj = Some o -> zset_good o -> is_Some (exec o r)) -> is_Some (zset_read f exec obj r).
Proof.
  intros Hs H. unfold zset_read. destruct (as_zset obj) as [o|] eqn:Ho; [|done].
  destruct (commit_zset_lens obj o Hs Ho) as [Hg _]. by destruct (H o eq_refl Hg) as [? ->].
Qed.

(** What holds of the sorted set in an object, when it is one. *)
Definition on_zset (P : RedisZsetObject -> Prop) (obj : RedisEloqObject) : Prop :=
  match as_zset obj with Some o => P o | None => True end.

#[export] Instance zscore_replayable fp : Replayable (ZScoreCommand fp).
Proof.
  apply (read_only_replayable (ZScoreCommand fp) (fun _ _ => True) es_fits own zset_new_sound).
  - intros e. apply zscore_image.
  - intros e obj r Hs _. by apply zset_read_defined.
  - intros e obj r f' r' v. apply zset_read_verdict.
Defined.

#[export] Instance zmscore_replayable fp : Replayable (ZMScoreCommand fp).
Proof.
  apply (read_only_replayable (ZMScoreCommand fp) (fun _ _ => True) (fun els => Forall es_fits els /\ is_u32 (zlen els))
           (fmap own) zset_new_sound).
  - intros els [? ?]. by apply zmscore_image.
  - intros els obj r Hs _. by apply zset_read_defined.
  - intros els obj r f' r' v. apply zset_read_verdict.
Defined.

#[export] Instance zcard_replayable : Replayable ZCardCommand.
Proof.
  apply (read_only_replayable ZCardCommand (fun _ _ => True) (fun _ => True) id zset_new_sound).
  - intros [] _. apply zcard_image.
  - intros c obj r Hs _. by apply zset_read_defined.
  - intros c obj r f' r' v. apply zset_read_verdict.
Defined.

#[export] Instance zrank_replayable fp : Replayable (ZRankCommand fp).
Proof.
  apply (read_only_replayable (ZRankCommand fp) (fun _ _ => True) (fun c => es_fits c.1.1) (fun c => (own c.1.1, c.1.2, c.2)) zset_new_sound).
  - intros [[m w] v] ?. by apply zrank_image.
  - intros [[m w] v] obj r Hs _. by apply zset_read_defined.
  - intros [[m w] d] obj r f' r' v. apply zset_read_verdict.
Defined.

#[export] Instance zcount_replayable : Replayable ZCountCommand.
Proof.
  apply (read_only_replayable ZCountCommand (fun spec => on_zset (fun o => spec_ok ZRANGE_SCORE spec (zset_pairs o)))
           (fun spec => spec_fits spec /\ negative_ spec = false /\ positive_ spec = false) spec_reread zset_new_sound).
  - intros spec (? & ? & ?). by apply zcount_image.
  - intros spec obj r Hs Hok. apply zset_read_defined; [done|]. intros o Ho (l & Hl & -> & Hn & _)%zset_good_small.
    unfold on_zset in Hok. rewrite Ho, zset_pairs_of in Hok. unfold Execute_ZCount. by rewrite ZCount_of.
  - intros spec obj r f' r' v. apply zset_read_verdict.
Defined.

#[export] Instance zlexcount_replayable : Replayable ZLexCountCommand.
Proof.
  apply (read_only_replayable ZLexCountCommand (fun spec => on_zset (fun o => spec_ok ZRANGE_LEX spec (zset_pairs o)))
           (fun spec => lex_fits spec /\ null_ spec = false) spec_reread zset_new_sound).
  - intros spec (? & ?). by apply zlexcount_image.
  - intros spec obj r Hs Hok. apply zset_read_defined; [done|]. intros o Ho (l & Hl & -> & Hn & _)%zset_good_small.
    unfold on_zset in Hok. rewrite Ho, zset_pairs_of in Hok. by rewrite (proj2 (ZRemRangeByLex_of l spec Hl Hn Hok)).
  - intros spec obj r f' r' v. apply zset_read_verdict.
Defined.

#[export] Instance zrange_replayable fp walk : Replayable (ZRangeCommand fp walk).
Proof.
  apply (read_only_replayable (ZRangeCommand fp walk)
           (fun '(arg, spec, _) => on_zset (fun o => limit_ok arg /\ spec_ok (rangetype_ arg) spec (zset_pairs o)))
           (fun '(arg, spec, _) => constraint_fits arg /\ spec_fits spec)
           (fun '(arg, spec, multi) => (arg, spec_reread spec, multi)) zset_new_sound).
  - intros [[arg spec] multi] [? ?]. by apply zrange_image.
  - intros [[arg spec] multi] obj r Hs Hok. unfold on_zset in Hok. cbn [ExecuteOn ZRangeCommand ZRange_ExecuteOn].
    destruct (as_zset obj) as [o|] eqn:Ho; [|by destruct (as_set obj), multi].
    destruct (commit_zset_lens obj o Hs Ho) as [(l & Hl & -> & Hn & _)%zset_good_small _]. rewrite zset_pairs_of in Hok. destruct Hok as [Hlim Hspec].
    by destruct (Execute_ZRange_of fp l arg spec Hl Hn Hlim Hspec) as [arg' ->].
  - intros [[arg spec] multi] obj r f' r' v. cbn [ExecuteOn ZRangeCommand ZRange_ExecuteOn].
    destruct (as_zset obj) as [o|]; [destruct (Execute_ZRange fp o arg spec) as [[? ?]|]|destruct (as_set obj), multi];
      intros [= _ _ <-]; auto.
Defined.

(** ** Removing *)

(** What a removal owes: it is decided, and an announced change is committed,
    also from the image, to a sound set, which is empty exactly when the verdict
    said so. *)
Definition removal_law (exec : RedisZsetObject -> option (RedisZsetResult * CommandExecuteState))
    (commit commit' : RedisZsetObject -> option (RedisZsetObject * bool)) (o : RedisZsetObject) : Prop :=
  exists r st, exec o = Some (r, st) /\ (st <> NoChange ->
    exists o', let e := bool_decide (z_hash_map_ o' = ∅) in
      commit o = Some (o', e) /\ commit' o = Some (o', e) /\ zset_good o' /\ (st = ModifiedToEmpty <-> e = true)).

Lemma zset_remove_defined {F : Type} (f : F) exec obj r :
  sound obj -> (forall o, as_zset obj = Some o -> zset_good o -> is_Some (exec o)) -> is_Some (zset_remove f exec obj r).
Proof.
  intros Hs H. unfold zset_remove. destruct (as_zset obj) as [o|] eqn:Ho; [|done].
  destruct (commit_zset_lens obj o Hs Ho) as [Hg _]. by destruct (H o eq_refl Hg) as [[? ?] ->].
Qed.

Lemma zset_remove_commits {F : Type} (f : F) exec commit commit' obj r f' r' v :
  sound obj -> (forall o, as_zset obj = Some o -> zset_good o -> removal_law exec commit commit' o) ->
  zset_remove f exec obj r = Some (f', r', v) -> v = ExecWrite \/ v = ExecDelete ->
  f' = f /\ is_Some (as_zset obj) /\ exists s, commit_zset (fun o => null_if_empty <$> commit o) obj = Some s
    /\ commit_zset (fun o => null_if_empty <$> commit' o) obj = Some s /\ slot_sound s /\ (v = ExecDelete -> s = None).
Proof.
  intros Hs H HE Hv. unfold zset_remove in HE. destruct (as_zset obj) as [o|] eqn:Ho; [|simplify_eq; by destruct Hv].
  destruct (commit_zset_lens obj o Hs Ho) as (Hg & mk & Hmk & Hok).
  destruct (H o eq_refl Hg) as (r1 & st & E & Hc). rewrite E in HE. cbn [mbind option_bind] in HE. simplify_eq.
  destruct Hc as (o' & H1 & H2 & Hg' & Hd); [intros ->; by destruct Hv|]. split; [done|]. split; [done|].
  rewrite !Hmk, H1, H2. cbn [fmap option_fmap option_map null_if_empty in_slot]. eexists. split_and!; [done|done| |].
  - case_bool_decide; [done|]. by apply Hok.
  - intros Ev. destruct st; try done. by rewrite (proj1 Hd eq_refl).
Qed.

Lemma zset_good_unique a b : zset_good a -> zset_good b -> z_hash_map_ a = z_hash_map_ b -> a = b.
Proof.
  intros (l & Hl & -> & _) (l' & Hl' & -> & _) E. cbn in E. by rewrite (zl_unique l l' Hl Hl' E).
Qed.

Lemma zrem_law o els : zset_good o -> NoDup (es_view <$> els) -> Forall es_fits els ->
  removal_law (fun o => Some (Execute_ZRem o els)) (fun o => CommitZRem o els) (fun o => CommitZRem o (own <$> els)) o.
Proof.
  intros Hg Hn Hf. destruct (zrem_agrees o els Hg Hn Hf) as (HE & o' & HC & Hg' & Hm).
  assert (es_view <$> (own <$> els) = es_view <$> els) as Hv by (by rewrite <- list_fmap_compose).
  destruct (zrem_agrees o (own <$> els) Hg) as (_ & o2 & HC2 & Hg2 & Hm2); [by rewrite Hv|by apply Forall_fmap|].
  rewrite Hv in *. assert (o2 = o') as -> by (apply zset_good_unique; congruence).
  eexists _, _. split; [by rewrite HE|]. intros Hst. exists o'. rewrite Hm. split_and!; [done|done|done|].
  rewrite bool_decide_eq_true. revert Hst. unfold removal_state. repeat case_decide; naive_solver.
Qed.

Definition zrem_fits (els : list EloqString) : Prop := Forall es_fits els /\ is_u32 (zlen els).

#[export] Instance zrem_replayable : Replayable ZRemCommand.
Proof.
  refine {| exec_ok := (fun els => on_zset (fun _ => NoDup (es_view <$> els) /\ zrem_fits els)) : cc_fields ZRemCommand -> _;
            image_ok := zrem_fits : cc_fields ZRemCommand -> _; reread := fmap own : cc_fields ZRemCommand -> _ |}.
  - apply zset_new_sound.
  - intros els [? ?]. by apply zrem_image.
  - intros els obj r Hs _. by apply zset_remove_defined.
  - intros els obj r f' r' v Hs Hok HE Hv. unfold on_zset in Hok.
    destruct (zset_remove_commits els (fun o => Some (Execute_ZRem o els)) (fun o => CommitZRem o els)
                (fun o => CommitZRem o (own <$> els)) obj r f' r' v Hs) as (-> & [o Ho] & s & H1 & H2 & H3 & H4); [|done..|].
    + intros o Ho Hg. rewrite Ho in Hok. destruct Hok as [Hn [Hf _]]. by apply zrem_law.
    + exists s. rewrite Ho in Hok. split_and!; try done. by destruct Hok.
Defined.

Lemma zpop_law fp o pop_type count : zset_good o -> 0 <= count ->
  removal_law (fun o => Some (Execute_ZPop fp o pop_type count)) (fun o => CommitZPop o pop_type count)
    (fun o => CommitZPop o pop_type count) o.
Proof.
  intros Hg Hc. pose proof (zpop_agrees fp o pop_type count Hg Hc) as H.
  destruct (pop_split pop_type (Z.to_nat count) (zset_pairs o)) as [popped rest]. destruct H as (HE & _ & o' & HC & Hg' & Hr).
  eexists _, _. split; [by rewrite HE|]. intros Hst. exists o'.
  assert (bool_decide (z_hash_map_ o' = ∅) = match rest with [] => true | _ => false end) as E.
  { destruct Hg' as (l & Hl & -> & _). rewrite zset_pairs_of in Hr. subst l.
    change (z_hash_map_ (zset_of rest)) with (list_to_map rest : gmap bytes Z). by rewrite <- zset_empty_of, zset_empty_list. }
  cbn zeta. rewrite E. split_and!; [done..|]. destruct popped; [done|]. by destruct rest.
Qed.

#[export] Instance zpop_replayable fp : Replayable (ZPopCommand fp).
Proof.
  refine {| exec_ok := (fun c => on_zset (fun _ => 0 <= c.2 /\ is_i64 c.2)) : cc_fields (ZPopCommand fp) -> _;
            image_ok := (fun c => is_i64 c.2) : cc_fields (ZPopCommand fp) -> _; reread := id : cc_fields (ZPopCommand fp) -> _ |}.
  - apply zset_new_sound.
  - intros [t n] ?. by apply zpop_image.
  - intros [t n] obj r Hs _. by apply zset_remove_defined.
  - intros [t n] obj r f' r' v Hs Hok HE Hv. unfold on_zset in Hok.
    destruct (zset_remove_commits (t, n) (fun o => Some (Execute_ZPop fp o t n)) (fun o => CommitZPop o t n)
                (fun o => CommitZPop o t n) obj r f' r' v Hs) as (-> & [o Ho] & s & H1 & H2 & H3 & H4); [|done..|].
    + intros o Ho Hg. rewrite Ho in Hok. destruct Hok. by apply zpop_law.
    + exists s. rewrite Ho in Hok. split_and!; try done. by destruct Hok.
Defined.

(** The image loses only what a range that selects something does not use. *)
Lemma selected_reread rt spec l : spec_ok rt spec l -> selected rt spec l <> [] ->
  spec_ok rt (spec_reread spec) l /\ selected rt (spec_reread spec) l = selected rt spec l.
Proof.
  unfold spec_ok, selected, zrange_select, spec_reread. destruct rt; cbn [rangetype_ opt_start_ opt_end_ null_];
    destruct (opt_start_ spec), (opt_end_ spec); cbn [own_bound]; try done; try (by intros -> ?).
  destruct (null_ spec); [done|]. done.
Qed.

Lemma zremrange_law o rt spec : zset_good o -> spec_ok rt spec (zset_pairs o) ->
  removal_law (fun o => Execute_ZRemRange o rt spec) (fun o => CommitZRemRange o rt spec)
    (fun o => CommitZRemRange o rt (spec_reread spec)) o.
Proof.
  intros (l & Hl & -> & Hn & Hs)%zset_good_small Hok. rewrite zset_pairs_of in Hok. eexists _, _. split; [by apply Execute_ZRemRange_of|]. intros Hst.
  assert (selected rt spec l <> []) as Hne by (intros E; by rewrite E in Hst).
  destruct (selected_reread rt spec l Hok Hne) as [Hok' E'].
  exists (zset_of (unselected (selected rt spec l) l)). rewrite (CommitZRemRange_of l rt (spec_reread spec)), E', CommitZRemRange_of by (done || by rewrite E').
  assert (zl_ok (unselected (selected rt spec l) l)) as Hl' by (by apply zl_filter).
  change (z_hash_map_ (zset_of (unselected (selected rt spec l) l))) with (list_to_map (unselected (selected rt spec l) l) : gmap bytes Z).
  rewrite <- zset_empty_of by done. split_and!; [done|done| |].
  - by apply (zset_of_sublist l); [apply sublist_filter|..].
  - rewrite zset_empty_list. destruct (selected rt spec l) as [|p sel]; [done|]. cbn [removal_verdict]. by destruct (unselected (p :: sel) l).
Qed.

#[export] Instance zremrange_replayable : Replayable ZRemRangeCommand.
Proof.
  refine {| exec_ok := (fun c => on_zset (fun o => spec_ok c.1 c.2 (zset_pairs o) /\ spec_fits c.2)) : cc_fields ZRemRangeCommand -> _;
            image_ok := (fun c => spec_fits c.2) : cc_fields ZRemRangeCommand -> _;
            reread := (fun c => (c.1, spec_reread c.2)) : cc_fields ZRemRangeCommand -> _ |}.
  - apply zset_new_sound.
  - intros [rt spec] ?. by apply zremrange_image.
  - intros [rt spec] obj r Hs Hok. unfold on_zset in Hok. apply zset_remove_defined; [done|].
    intros o Ho (l & Hl & -> & Hn & _)%zset_good_small. rewrite Ho, zset_pairs_of in Hok. destruct Hok. by rewrite Execute_ZRemRange_of.
  - intros [rt spec] obj r f' r' v Hs Hok HE Hv. unfold on_zset in Hok.
    destruct (zset_remove_commits (rt, spec) (fun o => Execute_ZRemRange o rt spec) (fun o => CommitZRemRange o rt spec)
                (fun o => CommitZRemRange o rt (spec_reread spec)) obj r f' r' v Hs) as (-> & [o Ho] & s & H1 & H2 & H3 & H4); [|done..|].
    + intros o Ho Hg. rewrite Ho in Hok. destruct Hok. by apply zremrange_law.
    + exists s. rewrite Ho in Hok. split_and!; try done. by destruct Hok.
Defined.

(** ** Adding *)

Lemma put_all_nonempty els : forall m, (m <> ∅ \/ els <> []) -> put_all m els <> ∅.
Proof.
  induction els as [|e els IH]; intros m H; [by destruct H|]. cbn. apply IH. left. apply insert_non_empty.
Qed.

Lemma put_all_own els : forall m, put_all m (own_zelement <$> els) = put_all m els.
Proof. induction els as [|e els IH]; intros m; [done|]. cbn. apply IH. Qed.

Lemma spec_zadd_nonempty rule els : forall m,
  let '(_, m', _, modified) := spec_zadd rule m els in modified = true \/ m <> ∅ -> m' <> ∅.
Proof.
  induction els as [|[num field] els IH]; intros m; cbn [spec_zadd]; [by intros [|]|].
  destruct (rule num (m !! es_view field)) as [[c b]|]; [|apply IH].
  specialize (IH (<[es_view field := num]> m)). destruct (spec_zadd rule _ els) as [[[kept m'] c'] b'].
  intros _. apply IH. right. apply insert_non_empty.
Qed.

(** The fields of ZADD as the parsers make them, and as the commands that store a
    result do. *)
Definition zstore_ok (c : ZAddFields) : Prop :=
  za_flags c = ZADD_FORCE_CLEAR /\
  match za_elements_ c with
  | ElMonostate => True
  | ElVector v =>
      v <> [] /\ Forall (fun e => es_fits e.2 /\ is_num e.1) v /\ is_u32 (zlen v) /\ 5 + elements_size v <= MAX_OBJECT_SIZE
  | ElPair _ _ => False
  end.

Definition zadd_ok (c : ZAddFields) : Prop :=
  is_u8 (za_flags c) /\ flags_ok (za_flags c) /\
  match za_elements_ c with
  | ElVector v => INCR (za_flags c) = false /\ Forall client_element v /\ is_u32 (zlen v) /\ elements_size v < 2 ^ 63
  | ElPair num field => INCR (za_flags c) = true /\ es_fits field /\ is_num num
  | ElMonostate => False
  end.

Definition zadd_runs (c : ZAddFields) (obj : RedisEloqObject) : Prop :=
  if ForceClear (za_flags c) then zstore_ok c else on_zset (fun _ => zadd_ok c) obj.

Lemma zstore_commit v keep : v <> [] -> Forall (fun e => es_fits e.2 /\ is_num e.1) v -> 5 + elements_size v <= MAX_OBJECT_SIZE ->
  exists o' rest, CommitZAdd zset_new (ElVector v) ZADD_FORCE_CLEAR keep = Some (o', rest) /\ zset_good o'
    /\ z_hash_map_ o' = put_all ∅ v /\ z_hash_map_ o' <> ∅.
Proof.
  intros Hne Hv Hs. destruct (update_elements_of keep v [] zl_ok_nil Hv) as (l' & rest & E & Hl & Hm & Hlen).
  exists (zset_of l'), (ElVector rest). cbn [CommitZAdd]. change (zset_of []) with zset_new in E.
  change (INCR ZADD_FORCE_CLEAR) with false. change (refilter zset_new v ZADD_FORCE_CLEAR) with (Some v).
  cbn [negb mbind option_bind]. rewrite E. cbn [mbind option_bind]. split_and!; [done| |done|].
  - exists l'. split_and!; [done|done|]. change (zset_image_len []) with 5 in Hlen. unfold elements_size in Hs. lia.
  - cbn. rewrite Hm. apply put_all_nonempty. by right.
Qed.

(** The elements that an accepted ZADD keeps fit its image, and a commit leaves
    the same sound set whether it has them as they are or read back. *)
Definition zadd_lands (o : RedisZsetObject) (flags : Z) (els : ZElements) : Prop :=
  zelements_fit els /\ exists o', zset_good o' /\ z_hash_map_ o' <> ∅
    /\ forall keep els', els' = els \/ els' = own_zelements els -> exists rest, CommitZAdd o els' flags keep = Some (o', rest).

Lemma zadd_vector_law fp o v flags r r' els : zset_good o -> flags_ok flags -> INCR flags = false -> Forall client_element v ->
  is_u32 (zlen v) -> elements_size v < 2 ^ 63 ->
  Execute_ZAdd fp o (ElVector v) flags r = Some (r', els, Modified) -> zadd_lands o flags els.
Proof.
  intros Hg Hfl Hi Hc Hn Hz HE. pose proof (zadd_executes fp o v flags r Hg Hfl Hi Hc Hz) as Hex.
  pose proof (spec_zadd_nonempty (ref_rule flags) v (z_hash_map_ o)) as Hne.
  pose proof (spec_zadd_kept_length (ref_rule flags) v (z_hash_map_ o)) as Hlen.
  pose proof (spec_zadd_kept _ (ref_rule flags) v (z_hash_map_ o) Hc) as Hk.
  destruct Hg as (l & Hl & -> & Hs). pose proof (fun keep => zadd_commits l v flags keep Hl Hfl Hi Hc) as Hcom.
  cbn [z_hash_map_ zset_serialized_length_ zset_of] in *. pose proof (zset_image_len_pos l).
  unfold MAX_OBJECT_SIZE in Hs. rewrite (u64_id (zset_image_len l)) in Hex by (mach; lia).
  destruct (spec_zadd (ref_rule flags) (list_to_map l) v) as [[[kept m'] c] b]. cbn [fst snd] in *.
  rewrite HE in Hex. destruct (Z.ltb_spec MAX_OBJECT_SIZE (zset_image_len l + elements_size v)); [by simplify_eq|].
  destruct b; simplify_eq. split.
  - split; [|unfold zlen in *; mach; lia]. eapply Forall_impl; [|exact Hk]. intros e (_ & ? & Hnum). split; [apply Hnum|done].
  - destruct (Hcom false ltac:(done) kept ltac:(by left)) as (o' & rest & _ & Hg' & Hm). exists o'. rewrite Hm. split_and!; [done|by apply Hne; left|].
    intros keep els' Hels. destruct (Hcom keep ltac:(done) (match els' with ElVector x => x | _ => [] end)) as (o2 & rest2 & E2 & Hg2 & Hm2).
    { destruct Hels as [-> | ->]; [by left|right; by left]. }
    assert (o2 = o') as -> by (apply zset_good_unique; congruence). destruct Hels as [-> | ->]; eauto.
Qed.

Lemma zadd_pair_law fp o num field flags r r' els : zset_good o -> flags_ok flags -> INCR flags = true -> es_fits field -> is_num num ->
  Execute_ZAdd fp o (ElPair num field) flags r = Some (r', els, Modified) -> zadd_lands o flags els.
Proof.
  intros Hg Hfl Hi Hf Hn HE.
  assert (zset_serialized_length_ o + znode_len (zlen (es_view field)) <= MAX_OBJECT_SIZE) as Hs.
  { destruct Hg as (l & Hl & -> & Hs). pose proof (zset_image_len_pos l). pose proof (zlen_nonneg (es_view field)).
    unfold Execute_ZAdd in HE. cbn [zset_serialized_length_ zset_of] in *. rewrite (es_length_fits field Hf) in HE. revert HE.
    unfold MAX_OBJECT_SIZE, es_fits, znode_len in *. rewrite !(u64_id (_ + zlen _)), !(u64_id (zset_image_len l)) by (mach; lia).
    rewrite (u64_id (zset_image_len l + _)) by (mach; lia). destruct (Z.ltb_spec (256 * 1024 * 1024) (zset_image_len l + (8 + 4 + zlen (es_view field)))); [done|].
    intros _. lia. }
  pose proof (fun keep => zincr_agrees fp o num field flags r keep Hg Hfl Hi Hf Hn Hs) as H1.
  pose proof (fun keep => zincr_agrees fp o num (own field) flags r keep Hg Hfl Hi Hf Hn Hs) as H2. cbn zeta in H1, H2.
  change (es_view (own field)) with (es_view field) in H2. destruct (incr_applies _ _ _).
  2: { destruct (H1 true) as (e & _ & E). by rewrite HE in E. }
  destruct (H1 true) as (E & o' & rest & _ & Hg' & Hm). rewrite HE in E. simplify_eq. split; [by split; [apply Hn|]|].
  exists o'. rewrite Hm. split_and!; [done|apply insert_non_empty|]. intros keep els' Hels.
  destruct (H1 keep) as (_ & o1 & rest1 & E1 & Hg1 & Hm1). destruct (H2 keep) as (_ & o2 & rest2 & E2 & Hg2 & Hm2).
  assert (o1 = o') as -> by (apply zset_good_unique; congruence). assert (o2 = o') as -> by (apply zset_good_unique; congruence).
  destruct Hels as [-> | ->]; eauto.
Qed.

Lemma zadd_lands_law fp o c r els r' st : zset_good o -> zadd_ok c ->
  Execute_ZAdd fp o (za_elements_ c) (za_flags c) r = Some (r', els, st) -> st = Modified -> zadd_lands o (za_flags c) els.
Proof.
  intros Hg (Hu & Hfl & He) HE ->. destruct (za_elements_ c) as [|num field|v]; [done|..].
  - destruct He as (? & ? & ?). by eapply zadd_pair_law.
  - destruct He as (? & ? & ? & ?). by eapply zadd_vector_law.
Qed.

Lemma Execute_ZAdd_defined fp o c r : zset_good o -> zadd_ok c -> is_Some (Execute_ZAdd fp o (za_elements_ c) (za_flags c) r).
Proof.
  intros Hg (Hu & Hfl & He). destruct (za_elements_ c) as [|num field|v]; [done|..].
  - destruct He as (Hi & ? & ?). unfold Execute_ZAdd. rewrite Hi. destruct (_ <? _); [done|]. by destruct (ZAddIncr _ _ _ _ _) as [[[? ?] ?] ?].
  - destruct He as (Hi & Hc & ? & ?). pose proof (zadd_executes fp o v (za_flags c) r Hg Hfl Hi Hc ltac:(done)) as Hx.
    destruct (spec_zadd _ _ _) as [[[? ?] ?] ?]. by rewrite Hx.
Qed.

Lemma zstore_law fp c obj r f' r' v : zstore_ok c -> ZAdd_ExecuteOn fp c obj r = Some (f', r', v) ->
  exists s, ZAdd_CommitOn f' obj = Some s /\ ZAdd_CommitOn (zadd_reread f') obj = Some s /\ zadd_fits f'
    /\ slot_sound s /\ (v = ExecDelete -> s = None).
Proof.
  intros [Hf He] HE. unfold ZAdd_ExecuteOn in HE. destruct c as [els flags mid]. cbn [za_flags za_elements_] in *. subst flags.
  change (ForceClear ZADD_FORCE_CLEAR) with true in HE. cbv iota in HE. simplify_eq.
  unfold ZAdd_CommitOn, zadd_reread, zadd_fits. cbn [za_flags za_elements_ za_is_in_the_middle_stage_].
  change (ForceClear ZADD_FORCE_CLEAR) with true. cbv iota. destruct els as [|num field|v]; [|done|].
  - exists None. split_and!; try done; concrete.
  - destruct He as (Hne & Hv & Hn & Hs). cbn [own_zelements].
    destruct (zstore_commit v mid Hne Hv Hs) as (o' & rest & -> & Hg & Hm & Hmne).
    destruct (zstore_commit (own_zelement <$> v) false) as (o2 & rest2 & -> & Hg2 & Hm2 & _).
    { by intros ?%fmap_nil_inv. }
    { apply Forall_fmap. eapply Forall_impl; [|exact Hv]. by intros e [? ?]. }
    { assert (elements_size (own_zelement <$> v) = elements_size v) as ->; [|done]. unfold elements_size. clear.
      induction v as [|e v IH]; cbn [fmap list_fmap zsum own_zelement snd es_view own es_own]; [done|]. by rewrite IH. }
    rewrite put_all_own in Hm2. assert (o2 = o') as -> by (apply zset_good_unique; congruence).
    exists (Some (ObjZset o')). split; [reflexivity|]. split; [reflexivity|]. split; [split; [concrete|]|split].
    + split; [|exact Hn]. eapply Forall_impl; [|exact Hv]. intros e [? Hnum]. split; [apply Hnum|done].
    + split; [split; [exact Hg|concrete]|exact Hmne].
    + destruct v; [done|]. by rewrite (proj2 (Z.eqb_neq _ _)) by (rewrite zlen_cons; pose proof (zlen_nonneg v); lia).
Qed.

#[export] Instance zadd_replayable fp : Replayable (ZAddCommand fp).
Proof.
  refine {| exec_ok := zadd_runs : cc_fields (ZAddCommand fp) -> _; image_ok := zadd_fits : cc_fields (ZAddCommand fp) -> _;
            reread := zadd_reread : cc_fields (ZAddCommand fp) -> _ |}.
  - apply zset_new_sound.
  - intros c. apply zadd_image.
  - intros c obj r Hs Hok. cbn [ExecuteOn ZAddCommand]. unfold ZAdd_ExecuteOn, zadd_runs, on_zset in *.
    destruct (ForceClear (za_flags c)); [done|]. destruct (as_zset obj) as [o|] eqn:Ho; [|done].
    destruct (commit_zset_lens obj o Hs Ho) as [Hg _]. by destruct (Execute_ZAdd_defined fp o c r Hg Hok) as [[[? ?] ?] ->].
  - intros c obj r f' r' v Hs Hok HE Hv. cbn [ExecuteOn CommitOn ZAddCommand] in *. unfold zadd_runs in Hok.
    destruct (ForceClear (za_flags c)) eqn:Hfc; [by eapply zstore_law|].
    unfold ZAdd_ExecuteOn, on_zset in *. rewrite Hfc in HE. destruct (as_zset obj) as [o|] eqn:Ho; [|simplify_eq; by destruct Hv].
    destruct (commit_zset_lens obj o Hs Ho) as (Hg & mk & Hmk & Hmkok).
    destruct (Execute_ZAdd fp o (za_elements_ c) (za_flags c) r) as [[[r1 els] st]|] eqn:E; cbn [mbind option_bind] in HE; simplify_eq.
    assert (st = Modified) as Hst by (destruct Hv; by destruct st).
    destruct (zadd_lands_law fp o c r els r' st Hg Hok E Hst) as (Hfit & o' & Hg' & Hne & Hcom). subst st.
    exists (Some (mk o')). unfold ZAdd_CommitOn, zadd_reread. cbn [za_flags za_elements_ za_is_in_the_middle_stage_]. rewrite Hfc, !Hmk.
    destruct (Hcom (za_is_in_the_middle_stage_ c) els ltac:(by left)) as [? ->].
    destruct (Hcom false (own_zelements els) ltac:(by right)) as [? ->]. split_and!; try done; [|by apply Hmkok].
    split; [|done]. by destruct Hok.
Defined.

(** ** Properties *)

(** a store command whose result is empty announces that the key goes away,
    whatever is in its slot, but the commit puts an empty sorted set there; only
    a command that carries no vector at all gives the slot up. *)
Theorem empty_store_keeps_key fp (flags : Z) (keep : bool) (obj : RedisEloqObject) (r : RedisZsetResult) :
  ForceClear flags = true ->
  let c := mkZAdd (ElVector []) flags keep in
  ExecuteOn (ZAddCommand fp) c obj r = Some (c, mkZsetResult RD_OK (ZRInt 0), ExecDelete)
  /\ CommitOn (ZAddCommand fp) c obj = Some (Some (ObjZset zset_new))
  /\ CommitOn (ZAddCommand fp) (mkZAdd ElMonostate flags keep) obj = Some None.
Proof.
  intros H. cbn [ExecuteOn CommitOn ZAddCommand]. unfold ZAdd_ExecuteOn, ZAdd_CommitOn. cbn [za_flags za_elements_ za_is_in_the_middle_stage_].
  rewrite H. split_and!; [done| |done]. cbn. destruct (INCR flags); [done|].
  unfold refilter. cbn. by destruct (LT flags), (GT flags), (NX flags), (XX flags).
Qed.

(** ZINTERSTORE over sets that share nothing. *)
Lemma empty_store_keeps_key_witness :
  CommitOn (ZAddCommand (fun _ => [])) (mkZAdd (ElVector []) ZADD_FORCE_CLEAR false) (ObjZset z_ab) = Some (Some (ObjZset zset_new)).
Proof. exact (proj1 (proj2 (empty_store_keeps_key (fun _ => []) ZADD_FORCE_CLEAR false (ObjZset z_ab) zset_result0 eq_refl))). Defined.

(** the image of ZREMRANGEBYLEX and of ZRANGE BYLEX has no room for the mark
    of a range that holds nothing by its syntax, which the parsers leave without
    bounds: where the command replies at once, the command read from its image
    asks for a string that is not there. *)
Theorem null_range_lost fp walk (arg : ZRangeConstraint) (o : RedisZsetObject) (r : RedisZsetResult) :
  constraint_fits arg -> rangetype_ arg = ZRANGE_LEX ->
  let spec := mkSpec true false false false false (BInt 0) (BInt 0) in
  is_Some (ExecuteOn ZRemRangeCommand (ZRANGE_LEX, spec) (ObjZset o) r)
  /\ is_Some (ExecuteOn (ZRangeCommand fp walk) (arg, spec, false) (ObjZset o) r)
  /\ (exists c, read_image ZRemRangeCommand (Serialize ZRemRangeCommand (ZRANGE_LEX, spec)) = Some (c, [])
      /\ ExecuteOn ZRemRangeCommand c (ObjZset o) r = None)
  /\ (exists c, read_image (ZRangeCommand fp walk) (Serialize (ZRangeCommand fp walk) (arg, spec, false)) = Some (c, [])
      /\ ExecuteOn (ZRangeCommand fp walk) c (ObjZset o) r = None).
Proof.
  intros Ha Ht spec. assert (spec_fits spec) as Hs by (split; concrete).
  pose proof (zremrange_image ZRANGE_LEX spec Hs []) as H1. pose proof (zrange_image fp walk arg spec false Ha Hs []) as H2.
  rewrite app_nil_r in H1, H2. split_and!.
  - cbn. by eexists.
  - cbn. unfold Execute_ZRange, GetZrangeResult. rewrite Ht. by eexists.
  - by exists (ZRANGE_LEX, spec_reread spec).
  - exists (arg, spec_reread spec, false). split; [done|]. cbn. unfold Execute_ZRange, GetZrangeResult. by rewrite Ht.
Qed.

(** ZREMRANGEBYLEX key + - and ZRANGE key + - BYLEX. *)
Lemma null_range_lost_witness :
  let spec := mkSpec true false false false false (BInt 0) (BInt 0) in
  exists c, read_image ZRemRangeCommand (Serialize ZRemRangeCommand (ZRANGE_LEX, spec)) = Some (c, [])
    /\ ExecuteOn ZRemRangeCommand c (ObjZset z_ab) zset_result0 = None.
Proof.
  destruct (null_range_lost (fun _ => []) (fun _ => []) (mkConstraint false 0 (-1) ZRANGE_LEX ZRANGE_DIRECTION_AUTO) z_ab zset_result0
    ltac:(split; concrete) eq_refl) as (_ & _ & H & _). exact H.
Defined.
