(* ===== verification/KeyCommand.v ===== *)
(** * Commands on keys of any type

    DEL and UNLINK, EXISTS and TYPE, EXPIRE with its relatives and PERSIST
    (src/redis_command.cpp): what they decide, what they commit on an object of
    any of the ten classes, and their images.  The clock is an argument. *)

From S2P Require Import Prelude Codec EloqString RedisTypes Encoding StringNum StringMatch ListObject StringObject HashObject SetObject ZsetObject ZsetImage RedisObject TxCommand.

Set Warnings "-clear-no-such-hyp".

(** ** DEL and UNLINK *)

(** The field is [lazy_delete_]; the reply is that of the command for all keys. *)
Definition DelCommand : CommandClass := {|
  cc_fields := bool;
  cc_result := RedisIntResult;
  cc_codes := [140; 174];
  ProceedOnNonExistentObject _ := false;
  CreateObject := None;
  ExecuteOn c _ _ := Some (c, mkIntResult RD_OK 1, ExecWrite);
  CommitOn _ _ := Some None;
  Serialize lazy_delete_ := le_bytes 1 (if lazy_delete_ then 174 else 140);
  Deserialize code := rret (code =? 174);
  OutputResult _ _ := None
|}.

(** ** EXISTS and TYPE *)

Definition ExistsCommand : CommandClass := {|
  cc_fields := Z;
  cc_result := RedisIntResult;
  cc_codes := [141];
  ProceedOnNonExistentObject _ := false;
  CreateObject := None;
  ExecuteOn cnt_ _ _ := Some (cnt_, mkIntResult RD_OK cnt_, ExecRead);
  CommitOn _ _ := None;
  Serialize cnt_ := le_bytes 1 141 ++ le_bytes 4 cnt_;
  Deserialize _ := read_i32;
  OutputResult _ _ := None
|}.

(** The name of a type. *)
Definition type_name (t : RedisObjectType) : option bytes :=
  match t with
  | TyString => Some (lit "string")
  | TyList => Some (lit "list")
  | TyHash => Some (lit "hash")
  | TyZset => Some (lit "zset")
  | TySet => Some (lit "set")
  | _ => None
  end.

Definition TypeCommand : CommandClass := {|
  cc_fields := unit;
  cc_result := RedisStringResult;
  cc_codes := [139];
  ProceedOnNonExistentObject _ := false;
  CreateObject := None;
  ExecuteOn c object r :=
    Some (c, sr_set_err RD_OK (sr_set_str (default (sr_str_ r) (type_name (ObjectType object))) r), ExecRead);
  CommitOn _ _ := None;
  Serialize _ := le_bytes 1 139;
  Deserialize _ := rret tt;
  OutputResult _ r :=
    Some [if sr_err_code_ r =? RD_OK then OnStatusText (sr_str_ r)
          else if sr_err_code_ r =? RD_NIL then OnStatusText (lit "none") else OnError (sr_err_code_ r)]
|}.

(** ** EXPIRE *)

Definition EXPIRE_NX : Z := 1.
Definition EXPIRE_XX : Z := 2.
Definition EXPIRE_GT : Z := 4.
Definition EXPIRE_LT : Z := 8.

(** [recover_ttl_obj_cmd_] holds an image of the object as it was. *)
Record ExpireFields := mkExpire { ex_expire_ts_ : Z; ex_flags_ : Z; ex_recover : option RedisEloqObject }.

Section Clock.

(** [ClockTsInMillseconds()]. *)
Context (now : Z).

(** The conditions of the flags. *)
Definition will_set_ttl (expire_ts_ flags_ : Z) (obj : RedisEloqObject) : bool :=
  let has f := has_flag f flags_ in
  if negb (flags_ =? 0) then
    if HasTTL obj then
      let old_expire_ts := GetTTL obj in
      if now <? old_expire_ts then
        if has EXPIRE_XX then (if has EXPIRE_LT then expire_ts_ <? old_expire_ts else true)
        else if has EXPIRE_GT && (old_expire_ts <? expire_ts_) then true
        else has EXPIRE_LT && (expire_ts_ <? old_expire_ts)
      else false
    else if has EXPIRE_NX then true
    else has EXPIRE_LT && negb (has EXPIRE_XX)
  else true.

Definition Expire_ExecuteOn (c : ExpireFields) (obj : RedisEloqObject) (r : RedisIntResult)
    : option (ExpireFields * RedisIntResult * ExecResult) :=
  if will_set_ttl (ex_expire_ts_ c) (ex_flags_ c) obj then
    let recover := if HasTTL obj then Some obj else ex_recover c in
    Some (mkExpire (ex_expire_ts_ c) (ex_flags_ c) recover, mkIntResult RD_OK (ir_int_val_ r), ExecWrite)
  else Some (c, mkIntResult RD_NIL (ir_int_val_ r), ExecRead).

End Clock.

(** [ObjectType] never names a class with a TTL, so that [AddTTL] of the base is
    called whether there is an expiry or not. *)
Definition Expire_CommitOn (expire_ts_ : Z) (obj : RedisEloqObject) : RedisEloqObject :=
  match obj with
  | ObjString o => ObjStringTTL (str_AddTTL o expire_ts_)
  | ObjStringTTL t => ObjStringTTL (str_AddTTL (strttl_base t) expire_ts_)
  | ObjList o => ObjListTTL (list_AddTTL o expire_ts_)
  | ObjListTTL t => ObjListTTL (list_AddTTL (listttl_base t) expire_ts_)
  | ObjHash o => ObjHashTTL (hash_AddTTL o expire_ts_)
  | ObjHashTTL t => ObjHashTTL (hash_AddTTL (hashttl_base t) expire_ts_)
  | ObjSet o => ObjSetTTL (set_AddTTL o expire_ts_)
  | ObjSetTTL t => ObjSetTTL (set_AddTTL (setttl_base t) expire_ts_)
  | ObjZset o => ObjZsetTTL (zset_AddTTL o expire_ts_)
  | ObjZsetTTL t => ObjZsetTTL (zset_AddTTL (zsetttl_base t) expire_ts_)
  end.

Definition one_or_zero (r : RedisIntResult) : option (list ReplyEvent) :=
  Some [if ir_err_code_ r =? RD_OK then OnInt 1
        else if ir_err_code_ r =? RD_NIL then OnInt 0 else OnError (ir_err_code_ r)].

(** The flags are written as they are and read as an [int8_t] into a [uint8_t].
    The time that an execution reads comes with its result. *)
Definition ExpireCommand : CommandClass := {|
  cc_fields := ExpireFields;
  cc_result := RedisIntResult * Z;
  cc_codes := [161];
  ProceedOnNonExistentObject _ := false;
  CreateObject := None;
  ExecuteOn c obj '(r, now) := '(c, r, v) ← Expire_ExecuteOn now c obj r; Some (c, (r, now), v);
  CommitOn c obj := Some (Some (Expire_CommitOn (ex_expire_ts_ c) obj));
  Serialize c := le_bytes 1 161 ++ le_bytes 8 (ex_expire_ts_ c) ++ le_bytes 1 (ex_flags_ c);
  Deserialize _ := ts <-- read_u64; flags <-- read_u8; rret (mkExpire ts flags None);
  OutputResult _ r := one_or_zero r.1
|}.

(** ** PERSIST *)

(** The field is [recover_ttl_obj_cmd_]. *)
Definition Persist_CommitOn (obj : RedisEloqObject) : RedisEloqObject :=
  match obj with
  | ObjStringTTL t => ObjString (str_RemoveTTL t)
  | ObjListTTL t => ObjList (list_RemoveTTL t)
  | ObjHashTTL t => ObjHash (hash_RemoveTTL t)
  | ObjSetTTL t => ObjSet (set_RemoveTTL t)
  | ObjZsetTTL t => ObjZset (zset_RemoveTTL t)
  | _ => obj
  end.

Definition PersistCommand : CommandClass := {|
  cc_fields := option RedisEloqObject;
  cc_result := RedisIntResult;
  cc_codes := [165];
  ProceedOnNonExistentObject _ := false;
  CreateObject := None;
  ExecuteOn c obj r :=
    if HasTTL obj then Some (Some obj, mkIntResult RD_OK (ir_int_val_ r), ExecWrite)
    else Some (c, mkIntResult RD_NIL (ir_int_val_ r), ExecRead);
  CommitOn _ obj := Some (Some (Persist_CommitOn obj));
  Serialize _ := le_bytes 1 165;
  Deserialize _ := rret None;
  OutputResult _ := one_or_zero
|}.

(** ** Expiry of a sound object *)

Lemma str_AddTTL_of o ttl : str_wf o \/ o = str_new -> str_AddTTL o ttl = mkStrTTL o ttl.
Proof.
  intros [H | ->]; [|done]. destruct (str_wf_canonical o H) as [-> _]. unfold str_AddTTL. cbn [str_of str_obj_]. by rewrite es_move_own.
Qed.

Lemma list_AddTTL_of o ttl : list_wf o -> list_AddTTL o ttl = mkListTTL o ttl.
Proof.
  intros H. destruct (list_wf_canonical o H) as [E Hf]. unfold list_AddTTL.
  assert (list_copy o = o) as ->; [|done]. rewrite E at 1. by rewrite list_copy_of.
Qed.

Lemma zset_AddTTL_of o ttl : zset_good o -> zset_AddTTL o ttl = mkZsetTTL o ttl.
Proof. intros (l & Hl & -> & _). unfold zset_AddTTL. by rewrite zset_copy_of. Qed.

(** The object with the given expiry, and without one. *)
Definition with_ttl (ttl : Z) (obj : RedisEloqObject) : RedisEloqObject :=
  match obj with
  | ObjString o | ObjStringTTL (mkStrTTL o _) => ObjStringTTL (mkStrTTL o ttl)
  | ObjList o | ObjListTTL (mkListTTL o _) => ObjListTTL (mkListTTL o ttl)
  | ObjHash o | ObjHashTTL (mkHashTTL o _) => ObjHashTTL (mkHashTTL o ttl)
  | ObjSet o | ObjSetTTL (mkSetTTL o _) => ObjSetTTL (mkSetTTL o ttl)
  | ObjZset o | ObjZsetTTL (mkZsetTTL o _) => ObjZsetTTL (mkZsetTTL o ttl)
  end.

Definition without_ttl (obj : RedisEloqObject) : RedisEloqObject :=
  match obj with
  | ObjStringTTL (mkStrTTL o _) => ObjString o
  | ObjListTTL (mkListTTL o _) => ObjList o
  | ObjHashTTL (mkHashTTL o _) => ObjHash o
  | ObjSetTTL (mkSetTTL o _) => ObjSet o
  | ObjZsetTTL (mkZsetTTL o _) => ObjZset o
  | _ => obj
  end.

Lemma with_ttl_sound ttl obj : is_u64 ttl -> sound obj -> sound (with_ttl ttl obj).
Proof. intros Ht [Hs _]. by destruct obj as [?|[]|?|[]|?|[]|?|[]|?|[]]; split. Qed.

Lemma without_ttl_sound obj : sound obj -> sound (without_ttl obj).
Proof. intros [Hs Ht]. destruct obj as [?|[]|?|[]|?|[]|?|[]|?|[]]; (split; [exact Hs|concrete]). Qed.

Lemma Expire_CommitOn_of ttl obj : sound obj -> Expire_CommitOn ttl obj = with_ttl ttl obj.
Proof.
  intros [Hs _]. destruct obj as [?|[]|?|[]|?|[]|?|[]|?|[]]; cbn in *;
    rewrite ?str_AddTTL_of, ?list_AddTTL_of, ?zset_AddTTL_of by (done || apply Hs); done.
Qed.

Lemma Persist_CommitOn_of obj : sound obj -> Persist_CommitOn obj = without_ttl obj.
Proof.
  intros [Hs _]. destruct obj as [?|[o ?]|?|[]|?|[]|?|[]|?|[]]; try done. cbn in *. f_equal.
  destruct Hs as [[Hs | ->] _]; [|done]. destruct (str_wf_canonical o Hs) as [E _]. rewrite E at 1. unfold str_RemoveTTL.
  cbn [strttl_base str_of str_obj_]. by rewrite es_move_own.
Qed.

Lemma with_ttl_inhabited ttl obj : inhabited obj -> inhabited (with_ttl ttl obj).
Proof. by destruct obj as [?|[]|?|[]|?|[]|?|[]|?|[]]. Qed.
Lemma without_ttl_inhabited obj : inhabited obj -> inhabited (without_ttl obj).
Proof. by destruct obj as [?|[]|?|[]|?|[]|?|[]|?|[]]. Qed.

(** ** The commands as the engine sees them *)

(** DEL runs on whatever is there. *)
#[export] Instance del_replayable : Replayable DelCommand.
Proof.
  refine {| exec_ok := (fun _ _ => True) : cc_fields DelCommand -> _; image_ok := (fun _ => True) : cc_fields DelCommand -> _;
            reread := id : cc_fields DelCommand -> _ |}; try done.
  - intros lazy _. cbn [Serialize DelCommand]. rewrite <- (app_nil_r (le_bytes 1 _)).
    destruct lazy; (apply Reads_image; [set_solver|mach; lia|apply Reads_ret]).
  - intros c obj r c' r' v _ _ _ Hv. by exists None.
Defined.

#[export] Instance exists_replayable : Replayable ExistsCommand.
Proof.
  apply (read_only_replayable ExistsCommand (fun _ _ => True) is_i32 id); try done.
  - intros cnt Hc. apply Reads_image; [set_solver|mach; lia|]. by apply Reads_i32.
  - intros cnt obj r c' r' v [= _ _ <-]. by left.
Defined.

#[export] Instance type_replayable : Replayable TypeCommand.
Proof.
  apply (read_only_replayable TypeCommand (fun _ _ => True) (fun _ => True) id); try done.
  - intros [] _. change (Serialize TypeCommand tt) with (le_bytes 1 139 ++ []). apply Reads_image; [set_solver|mach; lia|apply Reads_ret].
  - intros c obj r c' r' v [= _ _ <-]. by left.
Defined.

Definition expire_fits (c : ExpireFields) : Prop := is_u64 (ex_expire_ts_ c) /\ is_u8 (ex_flags_ c).

(** EXPIRE and PERSIST run on an existing key. *)
#[export] Instance expire_replayable : Replayable ExpireCommand.
Proof.
  refine {| exec_ok := (fun c obj => expire_fits c /\ inhabited obj) : cc_fields ExpireCommand -> _;
            image_ok := expire_fits : cc_fields ExpireCommand -> _;
            reread := (fun c => mkExpire (ex_expire_ts_ c) (ex_flags_ c) None) : cc_fields ExpireCommand -> _ |}; try done.
  - intros c [? ?]. apply Reads_image; [set_solver|mach; lia|]. cbn [Deserialize ExpireCommand]. reads. done.
  - intros c obj [r now] _ _. cbn. unfold Expire_ExecuteOn. by destruct (will_set_ttl _ _ _ _).
  - intros c obj [r now] c' r' v Hs [Hc Hi] HE Hv. cbn in HE. unfold Expire_ExecuteOn in HE.
    destruct (will_set_ttl _ _ _ _); cbn in HE; simplify_eq; [|by destruct Hv]. exists (Some (with_ttl (ex_expire_ts_ c) obj)).
    cbn [CommitOn ExpireCommand ex_expire_ts_]. rewrite Expire_CommitOn_of by done. split_and!; try done.
    split; [by apply with_ttl_sound; [apply Hc|]|by apply with_ttl_inhabited].
Defined.

#[export] Instance persist_replayable : Replayable PersistCommand.
Proof.
  refine {| exec_ok := (fun _ obj => inhabited obj) : cc_fields PersistCommand -> _;
            image_ok := (fun _ => True) : cc_fields PersistCommand -> _; reread := (fun _ => None) : cc_fields PersistCommand -> _ |}; try done.
  - intros c _. change (Serialize PersistCommand c) with (le_bytes 1 165 ++ []). apply Reads_image; [set_solver|mach; lia|apply Reads_ret].
  - intros c obj r _ _. cbn. by destruct (HasTTL obj).
  - intros c obj r c' r' v Hs Hi HE Hv. exists (Some (without_ttl obj)). cbn in HE.
    cbn [CommitOn PersistCommand]. rewrite Persist_CommitOn_of by done.
    split_and!; try done; [split; [by apply without_ttl_sound|by apply without_ttl_inhabited]|].
    intros ->. by destruct (HasTTL obj); simplify_eq.
Defined.

(** ** Properties *)

(** The conditions that the flags stand for; no expiry counts as one that never
    comes. *)
Definition expiry_allowed (expire_ts flags : Z) (obj : RedisEloqObject) : Prop :=
  (has_flag EXPIRE_NX flags = true -> HasTTL obj = false)
  /\ (has_flag EXPIRE_XX flags = true -> HasTTL obj = true)
  /\ (has_flag EXPIRE_GT flags = true -> HasTTL obj = true /\ GetTTL obj < expire_ts)
  /\ (has_flag EXPIRE_LT flags = true -> HasTTL obj = true -> expire_ts < GetTTL obj).

(** The combinations that the parser lets through. *)
Definition expire_flags_ok (flags : Z) : Prop := flags ∈ [0; 1; 2; 4; 6; 8; 10].

(** C19: EXPIRE and its relatives, with any flags the parser lets through, set the
    expiry of a key that has not expired exactly when the conditions of the flags
    hold, where XX together with GT asks only for XX; the commit then gives the
    object that expiry and leaves its contents, whatever its type, and PERSIST
    gives back the object without expiry.  The object is sound, and the new
    expiry is any 64-bit number. *)
Theorem expire_correct now (obj : RedisEloqObject) (expire_ts flags : Z) (r : RedisIntResult) :
  sound obj -> expire_flags_ok flags -> is_u64 expire_ts -> (HasTTL obj = true -> now < GetTTL obj) ->
  exists c r' v, ExecuteOn ExpireCommand (mkExpire expire_ts flags None) obj (r, now) = Some (c, (r', now), v)
  /\ (v = ExecWrite \/ v = ExecRead)
  /\ (v = ExecWrite <-> if decide (flags = Z.lor EXPIRE_XX EXPIRE_GT) then HasTTL obj = true else expiry_allowed expire_ts flags obj)
  /\ (v = ExecWrite -> exists obj', CommitOn ExpireCommand c obj = Some (Some obj')
        /\ HasTTL obj' = true /\ GetTTL obj' = expire_ts /\ ObjectType obj' = ObjectType obj
        /\ without_ttl obj' = without_ttl obj
        /\ CommitOn PersistCommand None obj' = Some (Some (without_ttl obj))).
Proof.
  intros Hs Hfl Hu Hlive. cbn [ExecuteOn ExpireCommand]. unfold Expire_ExecuteOn. cbn [ex_expire_ts_ ex_flags_].
  assert (will_set_ttl now expire_ts flags obj = true
    <-> if decide (flags = Z.lor EXPIRE_XX EXPIRE_GT) then HasTTL obj = true else expiry_allowed expire_ts flags obj) as Hw.
  { unfold will_set_ttl, expiry_allowed. assert (HasTTL obj = true -> (now <? GetTTL obj) = true) as Hl by (intros ?; apply Z.ltb_lt; auto).
    unfold expire_flags_ok in Hfl. rewrite !elem_of_cons, elem_of_nil in Hfl.
    destruct (HasTTL obj); [rewrite Hl by done|]; destruct Hfl as [-> |[-> |[-> |[-> |[-> |[-> |[-> |[]]]]]]]]; cbn;
      destruct (Z.ltb_spec (GetTTL obj) expire_ts), (Z.ltb_spec expire_ts (GetTTL obj)); cbn; naive_solver lia. }
  destruct (will_set_ttl now expire_ts flags obj).
  - eexists _, _, ExecWrite. split; [done|]. split; [by left|]. split; [tauto|]. intros _.
    exists (with_ttl expire_ts obj). cbn [CommitOn ExpireCommand PersistCommand ex_expire_ts_].
    rewrite Expire_CommitOn_of, Persist_CommitOn_of by (done || by apply with_ttl_sound).
    by destruct obj as [?|[]|?|[]|?|[]|?|[]|?|[]].
  - eexists _, _, ExecRead. split; [done|]. split; [by right|]. split; [|done]. split; [done|]. intros H. by apply Hw in H.
Qed.

(** EXPIRE with LT on the sorted set [{a: 1, b: 2}] that expires later. *)
Lemma expire_correct_witness :
  let obj := ObjZsetTTL (mkZsetTTL z_ab 5000) in
  exists obj', CommitOn ExpireCommand (mkExpire 3000 EXPIRE_LT (Some obj)) obj = Some (Some obj')
    /\ HasTTL obj' = true /\ GetTTL obj' = 3000 /\ without_ttl obj' = ObjZset z_ab.
Proof.
  destruct (expire_correct 1000 (ObjZsetTTL (mkZsetTTL z_ab 5000)) 3000 EXPIRE_LT int_result0
    ltac:(split; [exact z_ab_good|concrete]) ltac:(unfold expire_flags_ok, EXPIRE_LT; set_solver) ltac:(concrete) ltac:(done))
    as (c & r' & v & HE & _ & _ & HC).
  injection HE as <- _ <-. destruct (HC eq_refl) as (obj' & H1 & H2 & H3 & _ & H4 & _). exists obj'. split_and!; assumption.
Defined.
