(* ===== verification/StringCommand.v ===== *)
(** * The string commands

    The command classes of src/redis_command.cpp that act on one string, each a
    [CommandClass]: SET with its relatives, GETDEL, GETEX, SETBIT, SETRANGE,
    APPEND, INCRBY and BITFIELD, and the readers GET, STRLEN, GETBIT, GETRANGE,
    BITCOUNT and BITPOS.  Every class is shown to be [Replayable]; for SET only
    where it replaces a string, and the properties say what happens elsewhere. *)

From S2P Require Import Prelude Codec EloqString RedisTypes Encoding StringNum ListObject StringObject ZsetObject RedisObject TxCommand KeyCommand.

Set Warnings "-clear-no-such-hyp".

(** ** Shared pieces *)

Definition as_string (obj : RedisEloqObject) : option RedisStringObject :=
  match obj with
  | ObjString o => Some o
  | ObjStringTTL t => Some (strttl_base t)
  | _ => None
  end.

Definition commit_string (f : RedisStringObject -> option RedisStringObject) (obj : RedisEloqObject)
    : option (option RedisEloqObject) :=
  match obj with
  | ObjString o => o ← f o; Some (Some (ObjString o))
  | ObjStringTTL t => o ← f (strttl_base t); Some (Some (ObjStringTTL (mkStrTTL o (strttl_ttl_ t))))
  | _ => None
  end.

(** [CheckTypeMatch], then [Execute] on the object, which stays as it is. *)
Definition str_read {F : Type} (execute : RedisStringObject -> RedisStringResult -> option (F * RedisStringResult))
    (f : F) (object : RedisEloqObject) (r : RedisStringResult) : option (F * RedisStringResult * ExecResult) :=
  match as_string object with
  | None => Some (f, sr_set_err RD_ERR_WRONG_TYPE r, ExecFail)
  | Some o => '(f, r) ← execute o r; Some (f, r, ExecRead)
  end.

(** The same where [Execute] says whether the commit may follow. *)
Definition str_write {F : Type} (execute : RedisStringObject -> RedisStringResult -> RedisStringResult * bool)
    (f : F) (object : RedisEloqObject) (r : RedisStringResult) : option (F * RedisStringResult * ExecResult) :=
  match as_string object with
  | None => Some (f, sr_set_err RD_ERR_WRONG_TYPE r, ExecFail)
  | Some o => let '(r, success) := execute o r in Some (f, r, if success : bool then ExecWrite else ExecFail)
  end.

Definition str_output_int (missing : ReplyEvent) (r : RedisStringResult) : option (list ReplyEvent) :=
  Some [if sr_err_code_ r =? RD_OK then OnInt (sr_int_ret_ r)
        else if sr_err_code_ r =? RD_NIL then missing else OnError (sr_err_code_ r)].

Definition str_output_string (r : RedisStringResult) : option (list ReplyEvent) :=
  Some [if sr_err_code_ r =? RD_OK then OnString (sr_str_ r)
        else if sr_err_code_ r =? RD_NIL then OnNil else OnError (sr_err_code_ r)].

(** ** SET, SETNX, SETEX, PSETEX and GETSET *)

Definition OBJ_SET_NX : Z := 1.
Definition OBJ_SET_XX : Z := 2.
Definition OBJ_SET_SETNX : Z := 4.
Definition OBJ_GET_SET : Z := 8.
Definition OBJ_SET_EX : Z := 16.
Definition OBJ_SET_KEEPTTL : Z := 16.

(** The expiry [UINT64_MAX] means none. *)
Record SetFields := mkSetCmd { set_value_ : EloqString; set_flag_ : Z; set_obj_expire_ts_ : Z }.

Definition Set_ProceedOnExistentObject (c : SetFields) : bool :=
  negb (has_flag OBJ_SET_NX (set_flag_ c) && negb (has_flag OBJ_GET_SET (set_flag_ c))).

Definition Set_ExecuteOn (c : SetFields) (object : RedisEloqObject) (r : RedisStringResult)
    : option (SetFields * RedisStringResult * ExecResult) :=
  let flag_ := set_flag_ c in
  if has_flag OBJ_GET_SET flag_ then
    match as_string object with
    | None => Some (c, sr_set_err RD_ERR_WRONG_TYPE r, ExecFail)
    | Some str_obj =>
        if es_is_null (str_obj_ str_obj) then
          Some (c, sr_set_err RD_NIL r, if has_flag OBJ_SET_XX flag_ then ExecRead else ExecWrite)
        else
          let r := sr_set_err RD_OK (sr_set_str (str_StringView str_obj) r) in
          if has_flag OBJ_SET_NX flag_ then Some (c, r, ExecRead)
          else if negb (CheckSerializedLength (es_length (set_value_ c)))
          then Some (c, sr_set_err RD_ERR_OBJECT_TOO_BIG r, ExecRead)
          else Some (c, r, ExecWrite)
    end
  else if negb (CheckSerializedLength (es_length (set_value_ c)))
  then Some (c, sr_set_err RD_ERR_OBJECT_TOO_BIG r, ExecFail)
  else Some (c, sr_set_int 1 (sr_set_err RD_OK r), ExecWrite).

(** Over an object of another type the value is committed twice; the second time
    it is what the first has left in the command. *)
Definition Set_CommitOn (c : SetFields) (obj_ptr : RedisEloqObject) : RedisEloqObject :=
  let obj_expire_ts_ := set_obj_expire_ts_ c in
  match obj_ptr with
  | ObjString o =>
      let o := (CommitSet o (set_value_ c)).1 in
      if negb (obj_expire_ts_ =? UINT64_MAX) then ObjStringTTL (str_AddTTL o obj_expire_ts_) else ObjString o
  | ObjStringTTL t =>
      let t := mkStrTTL (CommitSet (strttl_base t) (set_value_ c)).1 (strttl_ttl_ t) in
      if negb (obj_expire_ts_ =? UINT64_MAX) then ObjStringTTL (mkStrTTL (strttl_base t) obj_expire_ts_)
      else if negb (has_flag OBJ_SET_KEEPTTL (set_flag_ c)) then ObjString (str_RemoveTTL t)
      else ObjStringTTL t
  | _ =>
      let '(o, value_) := CommitSet str_new (set_value_ c) in
      let o := (CommitSet o value_).1 in
      if negb (obj_expire_ts_ =? UINT64_MAX) then ObjStringTTL (mkStrTTL o obj_expire_ts_) else ObjString o
  end.

(** SET on a slot: a command that is not to proceed is not run and keeps its
    result. *)
Definition Set_run (c : SetFields) (slot : option RedisEloqObject) (r : RedisStringResult)
    : option (RedisStringResult * option RedisEloqObject) :=
  let run obj :=
    '(c, r, v) ← Set_ExecuteOn c obj r;
    Some (r, match v with ExecWrite => Some (Set_CommitOn c obj) | _ => slot end) in
  match slot with
  | Some obj => if Set_ProceedOnExistentObject c then run obj else Some (r, slot)
  | None => if negb (has_flag OBJ_SET_XX (set_flag_ c)) then run (ObjString str_new) else Some (r, None)
  end.

Definition Set_OutputResult (c : SetFields) (r : RedisStringResult) : option (list ReplyEvent) :=
  if has_flag OBJ_SET_SETNX (set_flag_ c) then Some [OnInt (sr_int_ret_ r)]
  else if has_flag OBJ_GET_SET (set_flag_ c) then str_output_string r
  else Some [if sr_err_code_ r =? RD_OK then OnStatus RD_OK
             else if sr_err_code_ r =? RD_NIL then OnNil else OnError (sr_err_code_ r)].

Definition SetCommand : CommandClass := {|
  cc_fields := SetFields;
  cc_result := RedisStringResult;
  cc_codes := [9];
  ProceedOnNonExistentObject c := negb (has_flag OBJ_SET_XX (set_flag_ c));
  CreateObject := Some (ObjString str_new);
  ExecuteOn := Set_ExecuteOn;
  CommitOn c obj_ptr := Some (Some (Set_CommitOn c obj_ptr));
  Serialize c :=
    le_bytes 1 9 ++ le_bytes 4 (set_flag_ c) ++ lp_string (es_view (set_value_ c)) ++ le_bytes 8 (set_obj_expire_ts_ c);
  Deserialize _ := flag <-- read_i32; value <-- read_element; ts <-- read_u64; rret (mkSetCmd value flag ts);
  OutputResult := Set_OutputResult
|}.

(** ** GET, GETDEL and GETEX *)

Definition GetCommand : CommandClass := {|
  cc_fields := unit;
  cc_result := RedisStringResult;
  cc_codes := [8];
  ProceedOnNonExistentObject _ := false;
  CreateObject := Some (ObjString str_new);
  ExecuteOn c := str_read (fun o r => Some (c, Execute_Get o r)) c;
  CommitOn _ _ := None;
  Serialize _ := le_bytes 1 8;
  Deserialize _ := rret tt;
  OutputResult _ := str_output_string
|}.

Definition GetDelCommand : CommandClass := {|
  cc_fields := unit;
  cc_result := RedisStringResult;
  cc_codes := [10];
  ProceedOnNonExistentObject _ := false;
  CreateObject := Some (ObjString str_new);
  ExecuteOn c object r :=
    match as_string object with
    | None => Some (c, sr_set_err RD_ERR_WRONG_TYPE r, ExecFail)
    | Some o => Some (c, Execute_GetDel o r, ExecDelete)
    end;
  CommitOn _ _ := Some None;
  Serialize _ := le_bytes 1 10;
  Deserialize _ := rret tt;
  OutputResult _ := str_output_string
|}.

(** [recover_ttl_obj_cmd_] holds an image of the object as it was. *)
Record GetExFields := mkGetEx { gx_expire_ts_ : Z; gx_is_persist_ : bool; gx_recover : option RedisEloqObject }.

Definition GetEx_ExecuteOn (c : GetExFields) (object : RedisEloqObject) (r : RedisStringResult)
    : option (GetExFields * RedisStringResult * ExecResult) :=
  match as_string object with
  | None => Some (c, sr_set_err RD_ERR_WRONG_TYPE r, ExecFail)
  | Some o =>
      let r := Execute_Get o r in
      if ((gx_expire_ts_ c =? UINT64_MAX) && negb (gx_is_persist_ c)) || (gx_is_persist_ c && negb (HasTTL object))
      then Some (c, r, ExecRead)
      else Some (mkGetEx (gx_expire_ts_ c) (gx_is_persist_ c) (Some object), sr_set_err RD_OK r, ExecWrite)
  end.

(** [None]: not a string, or PERSIST of a string without an expiry. *)
Definition GetEx_CommitOn (c : GetExFields) (obj_ptr : RedisEloqObject) : option (option RedisEloqObject) :=
  let expire_ts_ := gx_expire_ts_ c in
  match obj_ptr with
  | ObjString o =>
      if expire_ts_ <? UINT64_MAX then Some (Some (ObjStringTTL (str_AddTTL o expire_ts_)))
      else if gx_is_persist_ c then None else Some (Some obj_ptr)
  | ObjStringTTL t =>
      Some (Some (if expire_ts_ <? UINT64_MAX then ObjStringTTL (mkStrTTL (strttl_base t) expire_ts_)
                  else if gx_is_persist_ c then ObjString (str_RemoveTTL t) else obj_ptr))
  | _ => None
  end.

Definition GetExCommand : CommandClass := {|
  cc_fields := GetExFields;
  cc_result := RedisStringResult;
  cc_codes := [166];
  ProceedOnNonExistentObject _ := false;
  CreateObject := Some (ObjString str_new);
  ExecuteOn := GetEx_ExecuteOn;
  CommitOn := GetEx_CommitOn;
  Serialize c := le_bytes 1 166 ++ le_bytes 8 (gx_expire_ts_ c) ++ bool_str (gx_is_persist_ c);
  Deserialize _ := ts <-- read_u64; persist <-- read_bool; rret (mkGetEx ts persist None);
  OutputResult _ := str_output_string
|}.

(** ** STRLEN, GETBIT, GETRANGE, BITCOUNT and BITPOS *)

Definition StrLenCommand : CommandClass := {|
  cc_fields := unit;
  cc_result := RedisStringResult;
  cc_codes := [16];
  ProceedOnNonExistentObject _ := false;
  CreateObject := Some (ObjString str_new);
  ExecuteOn c := str_read (fun o r => Some (c, Execute_StrLen o r)) c;
  CommitOn _ _ := None;
  Serialize _ := le_bytes 1 16;
  Deserialize _ := rret tt;
  OutputResult _ := str_output_int (OnInt 0)
|}.

Definition GetBitCommand : CommandClass := {|
  cc_fields := Z;
  cc_result := RedisStringResult;
  cc_codes := [19];
  ProceedOnNonExistentObject _ := false;
  CreateObject := Some (ObjString str_new);
  ExecuteOn offset_ := str_read (fun o r => Some (offset_, Execute_GetBit o offset_ r)) offset_;
  CommitOn _ _ := None;
  Serialize offset_ := le_bytes 1 19 ++ le_bytes 8 offset_;
  Deserialize _ := read_i64;
  OutputResult _ := str_output_int (OnInt 0)
|}.

(** [Execute] leaves the converted offsets in the command. *)
Definition GetRangeCommand : CommandClass := {|
  cc_fields := Z * Z;
  cc_result := RedisStringResult;
  cc_codes := [20; 25];
  ProceedOnNonExistentObject _ := false;
  CreateObject := Some (ObjString str_new);
  ExecuteOn '((start_, end_) as c) := str_read (fun o r => Some (Execute_GetRange o start_ end_ r)) c;
  CommitOn _ _ := None;
  Serialize '(start_, end_) := le_bytes 1 20 ++ le_bytes 8 start_ ++ le_bytes 8 end_;
  Deserialize _ := start <-- read_i64; stop <-- read_i64; rret (start, stop);
  OutputResult _ r :=
    Some [if (sr_err_code_ r =? RD_OK) || (sr_err_code_ r =? RD_NIL) then OnString (sr_str_ r) else OnError (sr_err_code_ r)]
|}.

(** [type_] is whether the offsets count bits; BIT is 0. *)
Definition BitCountCommand : CommandClass := {|
  cc_fields := Z * Z * bool;
  cc_result := RedisStringResult;
  cc_codes := [30];
  ProceedOnNonExistentObject _ := false;
  CreateObject := Some (ObjString str_new);
  ExecuteOn '((start_, end_, by_bit) as c) := str_read (fun o r => r ← Execute_BitCount o by_bit start_ end_ r; Some (c, r)) c;
  CommitOn _ _ := None;
  Serialize '(start_, end_, by_bit) :=
    le_bytes 1 30 ++ le_bytes 8 start_ ++ le_bytes 8 end_ ++ le_bytes 1 (if by_bit : bool then 0 else 1);
  Deserialize _ := start <-- read_i64; stop <-- read_i64; t <-- read_u8; rret (start, stop, t =? 0);
  OutputResult _ r :=
    Some [if (sr_err_code_ r =? RD_OK) || (sr_err_code_ r =? RD_NIL) then OnInt (sr_int_ret_ r) else OnError (sr_err_code_ r)]
|}.

(** The fields are [bit_val_], [start_] and [end_]. *)
Definition BitPosCommand : CommandClass := {|
  cc_fields := Z * Z * Z;
  cc_result := RedisStringResult;
  cc_codes := [33];
  ProceedOnNonExistentObject _ := false;
  CreateObject := Some (ObjString str_new);
  ExecuteOn '((bit_val_, start_, end_) as c) object r :=
    match as_string object with
    | None => Some (c, sr_set_err RD_ERR_WRONG_TYPE r, ExecFail)
    | Some o => r ← Execute_BitPos o bit_val_ start_ end_ (sr_set_err RD_OK r); Some (c, r, ExecRead)
    end;
  CommitOn _ _ := None;
  Serialize '(bit_val_, start_, end_) := le_bytes 1 33 ++ le_bytes 1 bit_val_ ++ le_bytes 8 start_ ++ le_bytes 8 end_;
  Deserialize _ := bit <-- read_u8; start <-- read_i64; stop <-- read_i64; rret (bit, start, stop);
  OutputResult '(bit_val_, _, _) := str_output_int (OnInt (if bit_val_ =? 0 then 0 else -1))
|}.

(** ** SETBIT, SETRANGE, APPEND and INCRBY *)

(** A byte read as an [int8_t]. *)
Definition i8 (n : Z) : Z := if n <? 128 then n else n - 256.

Definition SetBitCommand : CommandClass := {|
  cc_fields := Z * Z;
  cc_result := RedisStringResult;
  cc_codes := [22];
  ProceedOnNonExistentObject _ := true;
  CreateObject := Some (ObjString str_new);
  ExecuteOn '((offset_, value_) as c) := str_write (fun o => Execute_SetBit o offset_) c;
  CommitOn '(offset_, value_) := commit_string (fun o => CommitSetBit o offset_ value_);
  Serialize '(offset_, value_) := le_bytes 1 22 ++ le_bytes 8 offset_ ++ le_bytes 1 value_;
  Deserialize _ := offset <-- read_i64; value <-- read_u8; rret (offset, i8 value);
  OutputResult _ r := Some [if sr_err_code_ r =? RD_OK then OnInt (sr_int_ret_ r) else OnError (sr_err_code_ r)]
|}.

Definition SetRangeCommand : CommandClass := {|
  cc_fields := Z * EloqString;
  cc_result := RedisStringResult;
  cc_codes := [23];
  ProceedOnNonExistentObject '(_, value_) := 0 <? es_length value_;
  CreateObject := Some (ObjString str_new);
  ExecuteOn '((offset_, value_) as c) := str_write (fun o => Execute_SetRange o offset_ value_) c;
  CommitOn '(offset_, value_) := commit_string (fun o => CommitSetRange o offset_ value_);
  Serialize '(offset_, value_) := le_bytes 1 23 ++ le_bytes 8 offset_ ++ data_str value_;
  Deserialize _ := offset <-- read_i64; value <-- read_element; rret (offset, value);
  OutputResult _ r :=
    Some [if (sr_err_code_ r =? RD_OK) || (sr_err_code_ r =? RD_NIL) then OnInt (sr_int_ret_ r) else OnError (sr_err_code_ r)]
|}.

Definition AppendCommand : CommandClass := {|
  cc_fields := EloqString;
  cc_result := RedisStringResult;
  cc_codes := [24];
  ProceedOnNonExistentObject _ := true;
  CreateObject := Some (ObjString str_new);
  ExecuteOn value_ := str_write (fun o => Execute_Append o value_) value_;
  CommitOn value_ := commit_string (fun o => CommitAppend o value_);
  Serialize value_ := le_bytes 1 24 ++ data_str value_;
  Deserialize _ := read_element;
  OutputResult _ r := Some [if sr_err_code_ r =? RD_OK then OnInt (sr_int_ret_ r) else OnError (sr_err_code_ r)]
|}.

(** INCR, DECR and DECRBY make the same command. *)
Definition IntOpCommand : CommandClass := {|
  cc_fields := Z;
  cc_result := RedisIntResult;
  cc_codes := [26; 27; 28; 29];
  ProceedOnNonExistentObject _ := true;
  CreateObject := Some (ObjString str_new);
  ExecuteOn incr_ object r :=
    match as_string object with
    | None => Some (incr_, mkIntResult RD_ERR_WRONG_TYPE (ir_int_val_ r), ExecFail)
    | Some o => let '(r, success) := Execute_IntOp o incr_ r in Some (incr_, r, if success : bool then ExecWrite else ExecFail)
    end;
  CommitOn incr_ := commit_string (fun o => Some (CommitIncrDecr o incr_));
  Serialize incr_ := le_bytes 1 27 ++ le_bytes 8 incr_;
  Deserialize _ := read_i64;
  OutputResult _ r := Some [if ir_err_code_ r =? RD_OK then OnInt (ir_int_val_ r) else OnError (ir_err_code_ r)]
|}.

(** ** BITFIELD *)

Definition op_type_int (t : BitFieldOpType) : Z := match t with BF_GET => 0 | BF_SET => 1 | BF_INCR => 2 end.
Definition op_type_of (n : Z) : option BitFieldOpType :=
  match n with 0 => Some BF_GET | 1 => Some BF_SET | 2 => Some BF_INCR | _ => None end.
Definition overflow_int (t : BitFieldOverflow) : Z := match t with BF_WRAP => 0 | BF_SAT => 1 | BF_FAIL => 2 end.
Definition overflow_of (n : Z) : option BitFieldOverflow :=
  match n with 0 => Some BF_WRAP | 1 => Some BF_SAT | 2 => Some BF_FAIL | _ => None end.

(** A [SubCommand] as it lies in memory, with the four bytes of padding that the
    compiler leaves before the first [int64_t]. *)
Definition sub_str (padding : bytes) (c : BitFieldSubCommand) : bytes :=
  le_bytes 1 (op_type_int (scmd_op_type_ c)) ++ bool_str (scmd_encoding_i_ c) ++ le_bytes 1 (scmd_encoding_bits_ c)
  ++ le_bytes 1 (overflow_int (scmd_ovf_ c)) ++ padding ++ le_bytes 8 (scmd_offset_ c) ++ le_bytes 8 (scmd_value_ c).

(** [None]: no enumerator has the number. *)
Definition read_enum {A : Type} (decode : Z -> option A) : Reader A :=
  n <-- read_u8; match decode n with Some a => rret a | None => fun _ => None end.

Definition read_sub : Reader BitFieldSubCommand :=
  op <-- read_enum op_type_of; sgn <-- read_bool; bits <-- read_u8; ovf <-- read_enum overflow_of;
  _ <-- read_bytes 4; offset <-- read_i64; value <-- read_i64;
  rret (mkSub op sgn (i8 bits) ovf offset value).

Definition BitField_OutputResult (r : RedisStringResult) : option (list ReplyEvent) :=
  Some (if sr_err_code_ r =? RD_OK then
          OnArrayStart (zlen (sr_vct_int_ r))
          :: ((fun val : bool * Z => if val.1 then OnInt val.2 else OnNil) <$> sr_vct_int_ r) ++ [OnArrayEnd]
        else [OnError (sr_err_code_ r)]).

Definition BitFieldCommand (padding : bytes) : CommandClass := {|
  cc_fields := list BitFieldSubCommand;
  cc_result := RedisStringResult;
  cc_codes := [31; 32];
  ProceedOnNonExistentObject _ := true;
  CreateObject := Some (ObjString str_new);
  ExecuteOn vct_sub_cmd_ object r :=
    match as_string object with
    | None => Some (vct_sub_cmd_, sr_set_err RD_ERR_WRONG_TYPE r, ExecFail)
    | Some o => '(r, update) ← Execute_BitField o vct_sub_cmd_ r; Some (vct_sub_cmd_, r, if update : bool then ExecWrite else ExecRead)
    end;
  CommitOn vct_sub_cmd_ := commit_string (fun o => CommitBitField o vct_sub_cmd_);
  Serialize vct_sub_cmd_ := le_bytes 1 31 ++ le_bytes 4 (zlen vct_sub_cmd_) ++ concat (sub_str padding <$> vct_sub_cmd_);
  Deserialize _ := len <-- read_u32; read_times (Z.to_nat len) read_sub;
  OutputResult _ := BitField_OutputResult
|}.

(** ** A string in a slot *)

(** The object that a command has just created shows no bytes, and is treated as
    the empty string by everything but SET with GET. *)
Inductive shows : RedisStringObject -> bytes -> Prop :=
| shows_stored c : str_small c -> shows (str_of c) c
| shows_new : shows str_new [].

Lemma sound_string_shows o : sound_string o -> shows o (str_StringView o).
Proof.
  intros [[Hw | ->] Hs]; [|constructor]. destruct (str_wf_canonical o Hw) as [E _].
  rewrite E at 1. by constructor.
Qed.

Lemma str_of_small c : str_small c -> str_wf (str_of c) /\ sound_string (str_of c).
Proof. intros H. assert (str_wf (str_of c)) by (by apply str_wf_of, str_small_u32). split; [done|]. by split; [left|]. Qed.

Lemma as_string_sound obj o : sound obj -> as_string obj = Some o -> shows o (str_StringView o).
Proof. intros [Hs _] Ho. apply sound_string_shows. by destruct obj; simplify_eq/=. Qed.

(** A commit on a string works on the string inside the object, and puts the new
    one back with the same expiry. *)
Lemma commit_string_lens obj o : sound obj -> as_string obj = Some o ->
  exists mk, (forall f, commit_string f obj = o' ← f o; Some (Some (mk o')))
    /\ forall c, str_small c -> slot_sound (Some (mk (str_of c))).
Proof.
  destruct obj as [x|t| | | | | | | |]; try done; intros [Hs Ht] [= <-].
  - exists ObjString. split; [done|]. intros c Hc. destruct (str_of_small c Hc). by split.
  - exists (fun o => ObjStringTTL (mkStrTTL o (strttl_ttl_ t))). split; [done|].
    intros c Hc. destruct (str_of_small c Hc). by split.
Qed.

(** A function of the object that takes the new string for the empty one. *)
Definition new_as_empty {A : Type} (g : RedisStringObject -> A) : Prop := g str_new = g (str_of []).

Lemma shows_of {A} (g : RedisStringObject -> A) o c : new_as_empty g -> shows o c -> g o = g (str_of c).
Proof. by intros Hg []. Qed.

Lemma shows_small o c : shows o c -> str_small c.
Proof. by intros []. Qed.

Lemma str_new_sound obj : Some (ObjString str_new) = Some obj -> sound obj.
Proof. intros [= <-]. split; [split; [by right|concrete]|concrete]. Qed.

(** ** The readers as the engine sees them *)

Lemma str_read_defined {F} execute (f : F) obj r :
  sound obj -> (forall o c, as_string obj = Some o -> shows o c -> is_Some (execute o r)) -> is_Some (str_read execute f obj r).
Proof.
  intros Hs H. unfold str_read. destruct (as_string obj) as [o|] eqn:Ho; [|done].
  by destruct (H o _ eq_refl (as_string_sound obj o Hs Ho)) as [[? ?] ->].
Qed.

Lemma str_read_verdict {F} execute (f : F) obj r f' r' v :
  str_read execute f obj r = Some (f', r', v) -> v = ExecRead \/ v = ExecFail.
Proof.
  unfold str_read. destruct (as_string obj); [|intros; simplify_eq; by right].
  destruct (execute _ _) as [[? ?]|]; intros; simplify_eq/=. by left.
Qed.

#[export] Instance get_replayable : Replayable GetCommand.
Proof.
  apply (read_only_replayable GetCommand (fun _ _ => True) (fun _ => True) id str_new_sound).
  - intros [] _. apply (Reads_image GetCommand 8 [] tt); [set_solver|mach; lia|apply Reads_ret].
  - intros c obj r Hs _. by apply str_read_defined.
  - intros c obj r f' r' v. apply str_read_verdict.
Defined.

#[export] Instance strlen_replayable : Replayable StrLenCommand.
Proof.
  apply (read_only_replayable StrLenCommand (fun _ _ => True) (fun _ => True) id str_new_sound).
  - intros [] _. apply (Reads_image StrLenCommand 16 [] tt); [set_solver|mach; lia|apply Reads_ret].
  - intros c obj r Hs _. by apply str_read_defined.
  - intros c obj r f' r' v. apply str_read_verdict.
Defined.

#[export] Instance getbit_replayable : Replayable GetBitCommand.
Proof.
  apply (read_only_replayable GetBitCommand (fun _ _ => True) is_i64 id str_new_sound).
  - intros off Ho. apply Reads_image; [set_solver|mach; lia|by apply Reads_i64].
  - intros c obj r Hs _. by apply str_read_defined.
  - intros c obj r f' r' v. apply str_read_verdict.
Defined.

#[export] Instance getrange_replayable : Replayable GetRangeCommand.
Proof.
  apply (read_only_replayable GetRangeCommand (fun _ _ => True) (fun c => is_i64 c.1 /\ is_i64 c.2) id str_new_sound).
  - intros [a b] [Ha Hb]. apply Reads_image; [set_solver|mach; lia|]. cbn [Deserialize GetRangeCommand fst snd] in *. by reads.
  - intros [a b] obj r Hs _. by apply str_read_defined.
  - intros [a b] obj r f' r' v. apply str_read_verdict.
Defined.

#[export] Instance bitcount_replayable : Replayable BitCountCommand.
Proof.
  apply (read_only_replayable BitCountCommand (fun _ _ => True) (fun c => is_i64 c.1.1 /\ is_i64 c.1.2) id str_new_sound).
  - intros [[a b] t] [Ha Hb]. apply Reads_image; [set_solver|mach; lia|]. cbn [Deserialize BitCountCommand fst snd] in *.
    assert (is_u8 (if t then 0 else 1)) by (destruct t; mach; lia). reads. by destruct t.
  - intros [[a b] t] obj r Hs _. apply str_read_defined; [done|]. intros o c _ Ho.
    rewrite (shows_of (fun o => Execute_BitCount o t a b r) o c eq_refl Ho).
    pose proof (Execute_BitCount_of c t a b r (str_small_u32 c (shows_small o c Ho))) as E.
    destruct (spec_range _ _ _). by rewrite E.
  - intros [[a b] t] obj r f' r' v. apply str_read_verdict.
Defined.

#[export] Instance bitpos_replayable : Replayable BitPosCommand.
Proof.
  apply (read_only_replayable BitPosCommand (fun c _ => c.1.1 = 0 \/ c.1.1 = 1)
    (fun c => is_u8 c.1.1 /\ is_i64 c.1.2 /\ is_i64 c.2) id str_new_sound).
  - intros [[bit a] b] (Hv & Ha & Hb). apply Reads_image; [set_solver|mach; lia|]. cbn [Deserialize BitPosCommand fst snd] in *. by reads.
  - intros [[bit a] b] obj r Hs Hbit. cbn [ExecuteOn BitPosCommand]. destruct (as_string obj) as [o|] eqn:Ho; [|done].
    pose proof (as_string_sound obj o Hs Ho) as Hsh. revert Hsh. generalize (str_StringView o). intros c Hsh.
    rewrite (shows_of (fun o => Execute_BitPos o bit a b (sr_set_err RD_OK r)) o c eq_refl Hsh).
    assert (exists v, bit = Z.b2z v) as [v ->] by (destruct Hbit as [E|E]; cbn in E; subst; [by exists false|by exists true]).
    pose proof (Execute_BitPos_of c v a b (sr_set_err RD_OK r) (shows_small o c Hsh)) as E.
    destruct (spec_range _ _ _). by rewrite E.
  - intros [[bit a] b] obj r f' r' v. cbn [ExecuteOn BitPosCommand]. destruct (as_string obj); [|intros; simplify_eq; by right].
    destruct (Execute_BitPos _ _ _ _ _); intros; simplify_eq/=. by left.
Defined.

(** ** The writers as the engine sees them *)

(** [accept] and its commit, first for the command that ran and then for the one
    that was read from the log. *)
Definition accepted (accept : RedisStringObject -> bool) (commit commit' : RedisStringObject -> option RedisStringObject) : Prop :=
  forall o c, shows o c -> accept o = true ->
  exists c', str_small c' /\ commit o = Some (str_of c') /\ commit' o = Some (str_of c').

Lemma accepted_commits accept commit commit' obj o :
  accepted accept commit commit' -> sound obj -> as_string obj = Some o -> accept o = true ->
  exists s, commit_string commit obj = Some s /\ commit_string commit' obj = Some s /\ slot_sound s.
Proof.
  intros H Hs Ho Ha. destruct (commit_string_lens obj o Hs Ho) as (mk & Hmk & Hok).
  destruct (H o _ (as_string_sound obj o Hs Ho) Ha) as (c' & Hc & E1 & E2).
  exists (Some (mk (str_of c'))). rewrite !Hmk, E1, E2. split; [done|]. split; [done|]. by apply Hok.
Qed.

Lemma str_write_law {F} execute commit commit' (f : F) obj r f' r' v :
  accepted (fun o => (execute o r).2) commit commit' -> sound obj ->
  str_write execute f obj r = Some (f', r', v) -> v = ExecWrite \/ v = ExecDelete ->
  f' = f /\ v <> ExecDelete
  /\ exists s, commit_string commit obj = Some s /\ commit_string commit' obj = Some s /\ slot_sound s.
Proof.
  intros H Hs HE Hv. unfold str_write in HE. destruct (as_string obj) as [o|] eqn:Ho; [|simplify_eq; by destruct Hv].
  destruct (execute o r) as [r1 ok] eqn:E. destruct ok; simplify_eq; [|by destruct Hv]. split; [done|]. split; [done|].
  apply (accepted_commits _ _ _ obj o H Hs Ho). by rewrite E.
Qed.

Lemma str_write_defined {F} execute (f : F) obj r : is_Some (str_write execute f obj r).
Proof. unfold str_write. destruct (as_string obj); [|done]. by destruct (execute _ r). Qed.

(** *** SETBIT *)

Definition setbit_ok (c : Z * Z) : Prop := 0 <= c.1 < 2 ^ 34 /\ (c.2 = 0 \/ c.2 = 1).

Lemma setbit_accepted off val r : setbit_ok (off, val) ->
  accepted (fun o => (Execute_SetBit o off r).2) (fun o => CommitSetBit o off val) (fun o => CommitSetBit o off val).
Proof.
  intros [Ho Hv] o c Hc. cbn [fst snd] in *. rewrite (shows_of (fun o => CommitSetBit o off val) o c eq_refl Hc).
  rewrite (shows_of (fun o => (Execute_SetBit o off r).2) o c eq_refl Hc), Execute_SetBit_of by lia.
  apply shows_small in Hc. case_decide as Hd; [done|]. intros _. exists (spec_setbit c off (negb (val =? 0))).
  rewrite CommitSetBit_of by (done || by apply str_small_u32). split; [|done].
  unfold str_small, MAX_OBJECT_SIZE in *. rewrite zlen_spec_setbit by lia. lia.
Qed.

#[export] Instance setbit_replayable : Replayable SetBitCommand.
Proof.
  refine {| exec_ok := (fun c _ => setbit_ok c) : cc_fields SetBitCommand -> _; image_ok := setbit_ok : cc_fields SetBitCommand -> _;
            reread := id : cc_fields SetBitCommand -> _ |}.
  - apply str_new_sound.
  - intros [off val] [Ho Hv]. cbn [fst snd] in *. apply Reads_image; [set_solver|mach; lia|]. cbn [Deserialize SetBitCommand].
    assert (is_i64 off) by (mach; lia). assert (is_u8 val) by (mach; lia). reads. unfold i8. by destruct Hv as [-> | ->].
  - intros [off val] obj r _ _. apply str_write_defined.
  - intros [off val] obj r f' r' v Hs Hok HE Hv.
    destruct (str_write_law _ _ _ _ obj r f' r' v (setbit_accepted off val r Hok) Hs HE Hv) as (-> & Hd & s & H1 & H2 & H3).
    by exists s.
Defined.

(** *** SETRANGE *)

Definition setrange_ok (c : Z * EloqString) : Prop := 0 <= c.1 /\ es_fits c.2 /\ c.1 + zlen (es_view c.2) <= MAX_OBJECT_SIZE.

Lemma CommitSetRange_new off v : setrange_ok (off, v) -> new_as_empty (fun o => CommitSetRange o off v).
Proof.
  intros (Ho & Hv & Hs). cbn [fst snd] in *. unfold new_as_empty, CommitSetRange. cbn [str_new str_of str_obj_].
  change (es_length es_null) with 0. change (es_length (es_own [])) with 0. unfold MAX_OBJECT_SIZE in Hs.
  pose proof (zlen_nonneg (es_view v)). rewrite es_length_fits, i64_id by (done || (mach; lia)). by rewrite (proj2 (Z.leb_le _ _)) by lia.
Qed.

Lemma setrange_accepted off v r : setrange_ok (off, v) ->
  accepted (fun o => (Execute_SetRange o off v r).2) (fun o => CommitSetRange o off v) (fun o => CommitSetRange o off (own v)).
Proof.
  intros Hok o c Hc. pose proof Hok as (Ho & Hv & Hs). cbn [fst snd] in *.
  rewrite (shows_of (fun o => CommitSetRange o off v) o c (CommitSetRange_new off v Hok) Hc).
  rewrite (shows_of (fun o => CommitSetRange o off (own v)) o c (CommitSetRange_new off (own v) Hok) Hc).
  rewrite (shows_of (fun o => (Execute_SetRange o off v r).2) o c eq_refl Hc).
  unfold MAX_OBJECT_SIZE in Hs. pose proof (zlen_nonneg (es_view v)). apply shows_small in Hc.
  rewrite Execute_SetRange_of by (done || lia || by apply str_small_u32). case_decide as Hd; [done|]. intros _.
  exists (spec_setrange c off (es_view v)).
  rewrite !CommitSetRange_of by (done || (cbn; lia) || by apply str_small_u32). split; [|done].
  unfold str_small, MAX_OBJECT_SIZE in *. rewrite zlen_spec_setrange by lia. lia.
Qed.

#[export] Instance setrange_replayable : Replayable SetRangeCommand.
Proof.
  refine {| exec_ok := (fun c _ => setrange_ok c) : cc_fields SetRangeCommand -> _;
            image_ok := setrange_ok : cc_fields SetRangeCommand -> _;
            reread := (fun c => (c.1, own c.2)) : cc_fields SetRangeCommand -> _ |}.
  - apply str_new_sound.
  - intros [off v] (Ho & Hv & Hs). cbn [fst snd] in *. apply Reads_image; [set_solver|mach; lia|].
    cbn [Deserialize SetRangeCommand].
    unfold MAX_OBJECT_SIZE in Hs. pose proof (zlen_nonneg (es_view v)). assert (is_i64 off) by (mach; lia). by reads.
  - intros [off v] obj r _ _. apply str_write_defined.
  - intros [off val] obj r f' r' v Hs Hok HE Hv.
    destruct (str_write_law _ _ _ _ obj r f' r' v (setrange_accepted off val r Hok) Hs HE Hv) as (-> & Hd & s & H1 & H2 & H3).
    by exists s.
Defined.

(** *** APPEND *)

Lemma append_accepted v r : es_fits v ->
  accepted (fun o => (Execute_Append o v r).2) (fun o => CommitAppend o v) (fun o => CommitAppend o (own v)).
Proof.
  intros Hv o c Hc. rewrite (shows_of (fun o => CommitAppend o v) o c eq_refl Hc).
  rewrite (shows_of (fun o => CommitAppend o (own v)) o c eq_refl Hc).
  rewrite (shows_of (fun o => (Execute_Append o v r).2) o c eq_refl Hc).
  apply shows_small in Hc. pose proof (str_small_u32 c Hc) as Hu. pose proof (zlen_nonneg (es_view v)). pose proof (zlen_nonneg c).
  unfold Execute_Append, str_SerializedLength. change (str_obj_ (str_of c)) with (es_own c).
  rewrite str_length_of, es_length_fits, u64_id by (done || (unfold es_fits in *; mach; lia)).
  unfold str_small in Hc. destruct (Z.ltb_spec MAX_OBJECT_SIZE (1 + 4 + zlen c + zlen (es_view v))); [done|]. intros _.
  exists (c ++ es_view v). unfold MAX_OBJECT_SIZE in *.
  rewrite !CommitAppend_of by (done || (cbn; lia)). split; [|done]. unfold str_small, MAX_OBJECT_SIZE. zlen. lia.
Qed.

#[export] Instance append_replayable : Replayable AppendCommand.
Proof.
  refine {| exec_ok := (fun v _ => es_fits v) : cc_fields AppendCommand -> _; image_ok := es_fits : cc_fields AppendCommand -> _;
            reread := own : cc_fields AppendCommand -> _ |}.
  - apply str_new_sound.
  - intros v Hv. apply Reads_image; [set_solver|mach; lia|]. cbn [Deserialize AppendCommand].
    by apply Reads_data.
  - intros v obj r _ _. apply str_write_defined.
  - intros val obj r f' r' v Hs Hok HE Hv.
    destruct (str_write_law _ _ _ _ obj r f' r' v (append_accepted val r Hok) Hs HE Hv) as (-> & Hd & s & H1 & H2 & H3).
    by exists s.
Defined.

(** *** INCRBY *)

Lemma CommitIncrDecr_new incr : new_as_empty (fun o => CommitIncrDecr o incr).
Proof.
  unfold new_as_empty, CommitIncrDecr. change (str_StringView str_new) with (@nil byte).
  change (str_StringView (str_of [])) with (@nil byte). change (zlen (@nil byte) =? 0) with true. cbv beta iota zeta.
  change (0 <? 0) with false. by rewrite !andb_false_r.
Qed.

Lemma incrby_accepted incr r : is_i64 incr ->
  accepted (fun o => (Execute_IntOp o incr r).2) (fun o => Some (CommitIncrDecr o incr)) (fun o => Some (CommitIncrDecr o incr)).
Proof.
  intros Hi o c Hc. rewrite (shows_of (fun o => CommitIncrDecr o incr) o c (CommitIncrDecr_new incr) Hc).
  rewrite (shows_of (fun o => (Execute_IntOp o incr r).2) o c eq_refl Hc), Execute_IntOp_of by done.
  destruct (counter c) as [old|] eqn:E; [|done]. case_decide as Hd; [done|]. intros _.
  assert (is_i64 (old + incr)) as Hr by (by apply incr_accepted_range; [eapply counter_range|..]).
  exists (to_string (old + incr)). rewrite (CommitIncrDecr_of c old) by done. split; [|done].
  pose proof (to_string_short _ Hr). unfold str_small, MAX_OBJECT_SIZE. lia.
Qed.

#[export] Instance intop_replayable : Replayable IntOpCommand.
Proof.
  refine {| exec_ok := (fun incr _ => is_i64 incr) : cc_fields IntOpCommand -> _; image_ok := is_i64 : cc_fields IntOpCommand -> _;
            reread := id : cc_fields IntOpCommand -> _ |}.
  - apply str_new_sound.
  - intros incr Hi. apply Reads_image; [set_solver|mach; lia|by apply Reads_i64].
  - intros incr obj r _ _. cbn [ExecuteOn IntOpCommand]. destruct (as_string obj); [|done]. by destruct (Execute_IntOp _ _ _).
  - intros incr obj r f' r' v Hs Hok HE Hv. cbn [ExecuteOn CommitOn IntOpCommand] in *.
    destruct (as_string obj) as [o|] eqn:Ho; [|simplify_eq; by destruct Hv].
    destruct (Execute_IntOp o incr r) as [r1 ok] eqn:E. injection HE as <- <- <-. destruct ok; [|by destruct Hv].
    destruct (accepted_commits _ _ _ obj o (incrby_accepted incr r Hok) Hs Ho) as (s & H1 & H2 & H3); [by rewrite E|].
    by exists s.
Defined.

(** *** GETDEL and GETEX *)

#[export] Instance getdel_replayable : Replayable GetDelCommand.
Proof.
  refine {| exec_ok := (fun _ _ => True) : cc_fields GetDelCommand -> _; image_ok := (fun _ => True) : cc_fields GetDelCommand -> _;
            reread := id : cc_fields GetDelCommand -> _ |}.
  - apply str_new_sound.
  - intros [] _. apply (Reads_image GetDelCommand 10 [] tt); [set_solver|mach; lia|apply Reads_ret].
  - intros c obj r _ _. cbn. by destruct (as_string obj).
  - intros c obj r f' r' v _ _ _ _. by exists None.
Defined.

Definition getex_fits (c : GetExFields) : Prop := is_u64 (gx_expire_ts_ c).

Lemma GetEx_CommitOn_of c obj : sound obj -> is_Some (as_string obj) -> is_u64 (gx_expire_ts_ c) ->
  (gx_expire_ts_ c = UINT64_MAX -> gx_is_persist_ c = true /\ HasTTL obj = true) ->
  GetEx_CommitOn c obj
  = Some (Some (if gx_expire_ts_ c <? UINT64_MAX then with_ttl (gx_expire_ts_ c) obj else without_ttl obj)).
Proof.
  intros Hs Ho Hu Hp. pose proof (Expire_CommitOn_of (gx_expire_ts_ c) obj Hs) as He. pose proof (Persist_CommitOn_of obj Hs) as Hper.
  destruct obj as [o|[o t]| | | | | | | |]; try (by destruct Ho); cbn in *; destruct (Z.ltb_spec (gx_expire_ts_ c) UINT64_MAX).
  - by rewrite He.
  - destruct Hp; [mach; lia|done].
  - done.
  - destruct Hp as [-> _]; [mach; lia|]. by rewrite Hper.
Qed.

#[export] Instance getex_replayable : Replayable GetExCommand.
Proof.
  refine {| exec_ok := (fun c obj => getex_fits c /\ inhabited obj) : cc_fields GetExCommand -> _;
            image_ok := getex_fits : cc_fields GetExCommand -> _;
            reread := (fun c => mkGetEx (gx_expire_ts_ c) (gx_is_persist_ c) None) : cc_fields GetExCommand -> _ |}.
  - apply str_new_sound.
  - intros c Hc. apply Reads_image; [set_solver|mach; lia|]. unfold getex_fits in Hc. cbn [Deserialize GetExCommand]. by reads.
  - intros c obj r _ _. cbn. unfold GetEx_ExecuteOn. destruct (as_string obj); [|done]. by destruct (_ || _).
  - intros c obj r f' r' v Hs [Hc Hi] HE Hv. cbn [ExecuteOn CommitOn GetExCommand] in *. unfold GetEx_ExecuteOn in HE.
    destruct (as_string obj) as [o|] eqn:Ho; [|simplify_eq; by destruct Hv].
    destruct (_ || _) eqn:E; simplify_eq; [by destruct Hv|]. apply orb_false_iff in E as [E1 E2].
    exists (Some (if gx_expire_ts_ c <? UINT64_MAX then with_ttl (gx_expire_ts_ c) obj else without_ttl obj)).
    assert (gx_expire_ts_ c = UINT64_MAX -> gx_is_persist_ c = true /\ HasTTL obj = true) as Hp.
    { intros Hm. rewrite Hm, Z.eqb_refl in E1. destruct (gx_is_persist_ c), (HasTTL obj); done. }
    rewrite !GetEx_CommitOn_of by (done || by rewrite Ho). split; [done|]. split; [done|]. split; [done|]. split; [|done].
    destruct (_ <? _); split; [by apply with_ttl_sound|by apply with_ttl_inhabited|by apply without_ttl_sound|by apply without_ttl_inhabited].
Defined.

(** *** SET *)

Definition setcmd_fits (c : SetFields) : Prop := es_fits (set_value_ c) /\ is_i32 (set_flag_ c) /\ is_u64 (set_obj_expire_ts_ c).

(** SET replaces a string; on a key that is missing GET has it pass the size
    limit by. *)
Definition set_ok (c : SetFields) (obj : RedisEloqObject) : Prop :=
  setcmd_fits c /\ exists o, as_string obj = Some o
  /\ (es_is_null (str_obj_ o) = true -> has_flag OBJ_GET_SET (set_flag_ c) = true -> str_small (es_view (set_value_ c))).

(** What SET leaves in the slot: the value, with the expiry of the command, or the
    one of the string it replaces where that is to be kept. *)
Definition after_set (c : SetFields) (obj : RedisEloqObject) : RedisEloqObject :=
  let o := str_of (es_view (set_value_ c)) in
  if negb (set_obj_expire_ts_ c =? UINT64_MAX) then ObjStringTTL (mkStrTTL o (set_obj_expire_ts_ c))
  else match obj with
       | ObjStringTTL t => if has_flag OBJ_SET_KEEPTTL (set_flag_ c) then ObjStringTTL (mkStrTTL o (strttl_ttl_ t)) else ObjString o
       | _ => ObjString o
       end.

Lemma CommitSet_of o v : es_fits v -> (CommitSet o v).1 = str_of (es_view v).
Proof. intros H. unfold CommitSet. pose proof (es_take_own false v H) as E. destruct (es_take false v). cbn in *. by subst. Qed.

Lemma Set_CommitOn_of c obj : es_fits (set_value_ c) -> is_Some (as_string obj) -> Set_CommitOn c obj = after_set c obj.
Proof.
  intros Hf Ho. unfold Set_CommitOn, after_set.
  destruct obj as [o|t| | | | | | | |]; try (by destruct Ho); rewrite !CommitSet_of by done; destruct (negb (_ =? _)); try done.
  - unfold str_AddTTL. cbn [str_obj_ str_of]. by rewrite es_move_own.
  - unfold str_RemoveTTL. cbn [str_obj_ str_of strttl_base strttl_ttl_]. rewrite es_move_own. by destruct (has_flag _ _).
Qed.

Lemma CheckSerializedLength_of v : es_fits v -> CheckSerializedLength (es_length v) = bool_decide (str_small (es_view v)).
Proof.
  intros H. unfold CheckSerializedLength, str_small, MAX_OBJECT_SIZE. pose proof (zlen_nonneg (es_view v)).
  rewrite es_length_fits, u64_id by (done || (unfold es_fits in H; mach; lia)).
  case_bool_decide; [apply Z.leb_le|apply Z.leb_gt]; lia.
Qed.

Lemma Set_accepted_small c obj r c' r' v : set_ok c obj -> Set_ExecuteOn c obj r = Some (c', r', v) ->
  c' = c /\ v <> ExecDelete /\ (v = ExecWrite -> str_small (es_view (set_value_ c))).
Proof.
  intros [(Hf & _ & _) (o & Ho & Hn)]. unfold Set_ExecuteOn. rewrite Ho, CheckSerializedLength_of by done.
  case_bool_decide as Hb; intros HE; repeat case_match; simplify_eq/=; (split; [done|]); (split; [done|]); try done; auto.
Qed.

Lemma after_set_sound c obj : setcmd_fits c -> sound obj -> str_small (es_view (set_value_ c)) -> slot_sound (Some (after_set c obj)).
Proof.
  intros (Hf & _ & Hu) [_ Ht] Hs. destruct (str_of_small _ Hs) as [Hw Hso]. unfold after_set.
  destruct (negb _); [by split|]. destruct obj as [|t| | | | | | | |]; try (split; [split; [done|concrete]|done]).
  destruct (has_flag _ _); [by split|]. split; [split; [done|concrete]|done].
Qed.

#[export] Instance set_replayable : Replayable SetCommand.
Proof.
  refine {| exec_ok := set_ok : cc_fields SetCommand -> _; image_ok := setcmd_fits : cc_fields SetCommand -> _;
            reread := (fun c => mkSetCmd (own (set_value_ c)) (set_flag_ c) (set_obj_expire_ts_ c)) : cc_fields SetCommand -> _ |}.
  - apply str_new_sound.
  - intros c (Hv & Hfl & Hu). apply Reads_image; [set_solver|mach; lia|]. cbn [Deserialize SetCommand]. by reads.
  - intros c obj r _ _. cbn. unfold Set_ExecuteOn. by repeat case_match.
  - intros c obj r f' r' v Hs Hok HE Hv. destruct (Set_accepted_small c obj r f' r' v Hok HE) as (-> & Hd & Hsm).
    assert (v = ExecWrite) as Hw by (by destruct Hv). destruct Hok as [Hf (o & Ho & _)]. exists (Some (after_set c obj)).
    cbn [CommitOn SetCommand]. rewrite !Set_CommitOn_of by (apply Hf || by rewrite Ho).
    split; [done|]. split; [done|]. split; [done|]. split; [by apply after_set_sound; [..|apply Hsm]|done].
Defined.

(** *** BITFIELD *)

(** A subcommand as the parser makes it, within the bits that an object may have;
    INCRBY is not to wrap a signed field of 64 bits. *)
Definition sub_ok (s : BitFieldSubCommand) : Prop :=
  let '(mkSub op sgn bits ovf off val) := s in
  bf_width sgn bits /\ 0 <= off /\ off + bits <= 8 * (MAX_OBJECT_SIZE - 5) /\ is_i64 val
  /\ (op = BF_INCR -> bits = 64 -> ovf <> BF_WRAP).

Lemma bitfield_exec1_defined p s : sub_ok s -> scmd_offset_ s + scmd_encoding_bits_ s <= 8 * zlen p ->
  exists p' v u, bitfield_exec1 p s = Some (p', v, u) /\ length p' = length p.
Proof.
  destruct s as [op sgn bits ovf off val]. intros (Hw & Ho & Hb & Hv & Hovf) Hp. cbn [scmd_offset_ scmd_encoding_bits_] in Hp.
  assert (1 <= bits) as H1 by (unfold bf_width in Hw; lia). unfold bitfield_exec1. rewrite GetBitFieldValue_of by done.
  set (old := bf_norm sgn bits (bits_value p off (Z.to_nat bits))).
  assert (in_field sgn bits old) as Hold by (by apply bf_norm_in_field).
  assert (forall v i, is_i64 v -> is_i64 i -> in_field sgn bits v \/ i = 0 -> (bits = 64 -> ovf = BF_WRAP -> in_field sgn bits (v + i)) ->
            exists ok limit, IsBitfieldUnoverflow v i bits sgn ovf = Some (ok, limit)) as Hun.
  { intros v i Hv' Hi Hor Hw64. rewrite IsBitfieldUnoverflow_of by done. case_decide as Hd; [by eauto|].
    destruct ovf; [|by eauto..]. destruct (Z.eqb_spec bits 64); [by destruct Hd; apply Hw64|by eauto]. }
  assert (forall v, exists p', SetBitFieldValue p v off bits = Some p' /\ length p' = length p) as Hset.
  { intros v. destruct (SetBitFieldValue_of p v off bits) as (p' & ? & ? & _); [done..|]. by exists p'. }
  destruct op; [by eauto 6| |].
  - assert (bits = 64 -> in_field sgn bits (val + 0)) as H64.
    { intros ->. destruct sgn; [|unfold bf_width in Hw; lia]. unfold in_field, bf_min, bf_max. mach. lia. }
    destruct (Hun val 0 Hv ltac:(concrete) ltac:(by right) ltac:(by auto)) as (ok & limit & ->). destruct ok; [|by eauto 6].
    destruct (Hset limit) as (p' & -> & Hl). by eauto 6.
  - destruct (Hun old val ltac:(by eapply in_field_i64) Hv ltac:(by left) ltac:(intros H64 Hw64; by destruct (Hovf eq_refl H64))) as (ok & limit & ->). destruct ok; [|by eauto 6].
    destruct (Hset limit) as (p' & -> & Hl). by eauto 6.
Qed.

Lemma bitfield_loop_defined vct p out b : Forall sub_ok vct ->
  Forall (fun s => scmd_offset_ s + scmd_encoding_bits_ s <= 8 * zlen p) vct ->
  exists p' out' b', bitfield_exec_loop p out b vct = Some (p', out', b') /\ length p' = length p.
Proof.
  revert p out b. induction vct as [|s vct IH]; intros p out b Hok Hp; [by cbn; eauto 6|].
  apply list.Forall_cons in Hok as [Hs Hok]. apply list.Forall_cons in Hp as [Hps Hp].
  cbn. destruct (bitfield_exec1_defined p s Hs Hps) as (p1 & v & u & -> & Hl).
  destruct (IH p1 (out ++ [v]) (b || u) Hok) as (p' & out' & b' & -> & Hl').
  { unfold zlen in *. by rewrite Hl. }
  exists p', out', b'. split; [done|]. by rewrite Hl'.
Qed.

Lemma bitfield_end_bounds vct b : Forall sub_ok vct -> 0 <= b <= 8 * (MAX_OBJECT_SIZE - 5) ->
  b <= bitfield_end b vct <= 8 * (MAX_OBJECT_SIZE - 5)
  /\ Forall (fun s => scmd_offset_ s + scmd_encoding_bits_ s <= bitfield_end b vct) vct.
Proof.
  unfold MAX_OBJECT_SIZE. revert b. induction vct as [|s vct IH]; intros b Hok Hb; [by split; [cbn; lia|]|].
  apply list.Forall_cons in Hok as [Hs Hok]. cbn [bitfield_end].
  assert (i64 (scmd_offset_ s + scmd_encoding_bits_ s) = scmd_offset_ s + scmd_encoding_bits_ s
          /\ 0 <= scmd_offset_ s + scmd_encoding_bits_ s <= 8 * (256 * 1024 * 1024 - 5)) as [-> Hl].
  { destruct s as [op sgn bits ovf off val]. destruct Hs as (Hw & Ho & Hs & _). unfold bf_width, MAX_OBJECT_SIZE in *.
    cbn [scmd_offset_ scmd_encoding_bits_]. rewrite i64_id by (mach; lia). lia. }
  destruct (Z.ltb_spec b (scmd_offset_ s + scmd_encoding_bits_ s)).
  - destruct (IH _ Hok Hl) as [H1 H2]. split; [lia|]. constructor; [lia|done].
  - destruct (IH b Hok Hb) as [H1 H2]. split; [lia|]. constructor; [lia|done].
Qed.

Lemma bitfield_runs c vct out : str_small c -> Forall sub_ok vct ->
  exists p out' b, bitfield_exec_loop (bitfield_buffer (str_of c) vct) out false vct = Some (p, out', b) /\ str_small p.
Proof.
  intros Hc Hok. destruct (bitfield_end_bounds vct 0 Hok ltac:(unfold MAX_OBJECT_SIZE; lia)) as [He Hin].
  pose proof (zlen_bitfield_buffer c vct (str_small_u32 c Hc) ltac:(lia)) as Hl.
  pose proof (Z.div_mod (bitfield_end 0 vct + 7) 8 ltac:(lia)). pose proof (Z.mod_pos_bound (bitfield_end 0 vct + 7) 8 ltac:(lia)).
  destruct (bitfield_loop_defined vct (bitfield_buffer (str_of c) vct) out false Hok) as (p & out' & b & E & Hp).
  { eapply Forall_impl; [|exact Hin]. intros s Hs. cbn beta in *. rewrite Hl. lia. }
  exists p, out', b. split; [done|]. unfold str_small, MAX_OBJECT_SIZE in *.
  assert (zlen p = zlen (bitfield_buffer (str_of c) vct)) as -> by (unfold zlen; by rewrite Hp). rewrite Hl. lia.
Qed.

(** With an update the new string takes the place of the old; without one the
    commit is not reached. *)
Lemma bitfield_accepted vct r : Forall sub_ok vct ->
  accepted (fun o => match Execute_BitField o vct r with Some (_, b) => b | None => false end)
    (fun o => CommitBitField o vct) (fun o => CommitBitField o vct).
Proof.
  intros Hok o c Hc Hb. pose proof (shows_small o c Hc) as Hs.
  destruct (bitfield_runs c vct (sr_vct_int_ r) Hs Hok) as (p & out' & b & E & Hp).
  rewrite (shows_of (fun o => match Execute_BitField o vct r with Some (_, b) => b | None => false end) o c eq_refl Hc) in Hb.
  unfold Execute_BitField in Hb. rewrite E in Hb. subst b.
  destruct (bitfield_exec_commit _ _ _ _ _ _ _ false E ltac:(done)) as (ub & Hub & Hu). specialize (Hu eq_refl). subst ub.
  exists p. assert (CommitBitField o vct = Some (str_of p)) as ->; [|done].
  unfold CommitBitField. rewrite (shows_of (fun o => bitfield_buffer o vct) o c eq_refl Hc), Hub.
  by rewrite es_of_data_own by by apply str_small_u32.
Qed.

Lemma Reads_enum {A} (decode : Z -> option A) n a : is_u8 n -> decode n = Some a -> Reads (read_enum decode) (le_bytes 1 n) a.
Proof. intros Hn Hd. rewrite <- (app_nil_r (le_bytes 1 n)). eapply Reads_bind; [by apply Reads_u8|]. rewrite Hd. apply Reads_ret. Qed.

Lemma Reads_op_type op : Reads (read_enum op_type_of) (le_bytes 1 (op_type_int op)) op.
Proof. by destruct op; (apply Reads_enum; [concrete|]). Qed.
Lemma Reads_overflow ovf : Reads (read_enum overflow_of) (le_bytes 1 (overflow_int ovf)) ovf.
Proof. by destruct ovf; (apply Reads_enum; [concrete|]). Qed.
Lemma Reads_padding w : length w = 4%nat -> Reads (read_bytes 4) w w.
Proof. intros H. apply Reads_bytes. unfold zlen. by rewrite H. Qed.
#[export] Hint Resolve Reads_op_type Reads_overflow Reads_padding : codec.

Lemma Reads_sub padding s : length padding = 4%nat -> sub_ok s -> Reads read_sub (sub_str padding s) s.
Proof.
  intros Hpad Hs. destruct s as [op sgn bits ovf off val]. destruct Hs as (Hw & Ho & Hb & Hv & _).
  assert (1 <= bits <= 64) by (unfold bf_width in Hw; destruct sgn; lia). unfold MAX_OBJECT_SIZE in Hb.
  assert (is_u8 bits) by (mach; lia). assert (is_i64 off) by (mach; lia).
  unfold sub_str, read_sub. cbn [scmd_op_type_ scmd_encoding_i_ scmd_encoding_bits_ scmd_ovf_ scmd_offset_ scmd_value_].
  reads.
  unfold i8. by rewrite (proj2 (Z.ltb_lt bits 128)) by lia.
Qed.

#[export] Instance bitfield_replayable padding (Hpad : length padding = 4%nat) : Replayable (BitFieldCommand padding).
Proof.
  refine {| exec_ok := (fun vct _ => Forall sub_ok vct /\ is_u32 (zlen vct)) : cc_fields (BitFieldCommand padding) -> _;
            image_ok := (fun vct => Forall sub_ok vct /\ is_u32 (zlen vct)) : cc_fields (BitFieldCommand padding) -> _;
            reread := id : cc_fields (BitFieldCommand padding) -> _ |}.
  - apply str_new_sound.
  - intros vct [Hok Hn]. apply Reads_image; [set_solver|mach; lia|]. cbn [Deserialize BitFieldCommand].
    eapply Reads_bind; [by apply Reads_u32|]. rewrite to_nat_zlen. change (id vct) with vct. rewrite <- (list_fmap_id vct) at 3.
    apply (Reads_times read_sub (sub_str padding) id). intros s Hs. apply Reads_sub; [done|].
    rewrite list.Forall_forall in Hok. auto.
  - intros vct obj r Hs [Hok _]. cbn [ExecuteOn BitFieldCommand]. destruct (as_string obj) as [o|] eqn:Ho; [|done].
    pose proof (as_string_sound obj o Hs Ho) as Hsh. revert Hsh. generalize (str_StringView o). intros c Hsh.
    rewrite (shows_of (fun o => Execute_BitField o vct r) o c eq_refl Hsh).
    destruct (bitfield_runs c vct (sr_vct_int_ r) (shows_small o c Hsh) Hok) as (p & out' & b & E & _).
    unfold Execute_BitField. by rewrite E.
  - intros vct obj r f' r' v Hs [Hok Hn] HE Hv. cbn [ExecuteOn CommitOn BitFieldCommand] in *.
    destruct (as_string obj) as [o|] eqn:Ho; [|simplify_eq; by destruct Hv].
    destruct (Execute_BitField o vct r) as [[r1 b]|] eqn:E; [|done]. cbn [mbind option_bind] in HE. injection HE as <- <- <-.
    destruct b; [|by destruct Hv].
    destruct (accepted_commits _ _ _ obj o (bitfield_accepted vct r Hok) Hs Ho) as (s & H1 & H2 & H3); [by rewrite E|].
    by exists s.
Defined.

(** ** Properties *)

Lemma stored_not_null obj o : slot_sound (Some obj) -> as_string obj = Some o -> es_is_null (str_obj_ o) = false.
Proof.
  intros [_ Hi] Ho. apply bool_decide_eq_false. intros Hn. assert (str_wf o) as [Hw _] by (destruct obj; by simplify_eq/=).
  by rewrite Hn in Hw.
Qed.

Lemma Set_CommitOn_string c obj : es_fits (set_value_ c) -> is_Some (as_string obj) ->
  as_string (Set_CommitOn c obj) = Some (str_of (es_view (set_value_ c)))
  /\ GetTTL (Set_CommitOn c obj) = if negb (set_obj_expire_ts_ c =? UINT64_MAX) then set_obj_expire_ts_ c
                                  else if has_flag OBJ_SET_KEEPTTL (set_flag_ c) then GetTTL obj else UINT64_MAX.
Proof.
  intros Hf Ho. rewrite Set_CommitOn_of by done. unfold after_set. destruct (negb _); [done|].
  destruct obj as [|t| | | | | | | |]; try (by destruct Ho); by destruct (has_flag _ _).
Qed.

(** Whether SET writes: what its options ask of the key, with GET no other type,
    and the size limit, which does not count with GET on a missing key. *)
Definition set_writes (c : SetFields) (slot : option RedisEloqObject) : bool :=
  let has f := has_flag f (set_flag_ c) in
  let small := bool_decide (str_small (es_view (set_value_ c))) in
  match slot with
  | None => negb (has OBJ_SET_XX) && (has OBJ_GET_SET || small)
  | Some obj => negb (has OBJ_SET_NX) && small && (negb (has OBJ_GET_SET) || bool_decide (is_Some (as_string obj)))
  end.

(** The reply of SET and GETSET; SETNX has its own. *)
Definition set_reply (c : SetFields) (slot : option RedisEloqObject) : ReplyEvent :=
  let has f := has_flag f (set_flag_ c) in
  let small := bool_decide (str_small (es_view (set_value_ c))) in
  if has OBJ_GET_SET then
    match slot with
    | None => OnNil
    | Some obj =>
        match as_string obj with
        | None => OnError RD_ERR_WRONG_TYPE
        | Some o => if has OBJ_SET_NX || small then OnString (str_StringView o) else OnError RD_ERR_OBJECT_TOO_BIG
        end
    end
  else if match slot with None => has OBJ_SET_XX | Some _ => has OBJ_SET_NX end then OnNil
  else if small then OnStatus RD_OK else OnError RD_ERR_OBJECT_TOO_BIG.

(** What a write stores.  Over another type a value that the command owns is
    lost. *)
Definition set_stores (c : SetFields) (slot : option RedisEloqObject) : bytes :=
  match slot with
  | Some obj => if bool_decide (is_Some (as_string obj)) || es_is_view (set_value_ c) then es_view (set_value_ c) else []
  | None => es_view (set_value_ c)
  end.

(** The expiry that KEEPTTL keeps: that of a string. *)
Definition kept_expiry (slot : option RedisEloqObject) : Z :=
  match slot with Some obj => if bool_decide (is_Some (as_string obj)) then GetTTL obj else UINT64_MAX | None => UINT64_MAX end.

Lemma Set_CommitOn_other c obj : es_fits (set_value_ c) -> as_string obj = None ->
  as_string (Set_CommitOn c obj) = Some (str_of (if es_is_view (set_value_ c) then es_view (set_value_ c) else []))
  /\ GetTTL (Set_CommitOn c obj) = set_obj_expire_ts_ c.
Proof.
  intros Hv Ho. assert (Set_CommitOn c obj = let '(o, value_) := CommitSet str_new (set_value_ c) in
    let o := (CommitSet o value_).1 in
    if negb (set_obj_expire_ts_ c =? UINT64_MAX) then ObjStringTTL (mkStrTTL o (set_obj_expire_ts_ c)) else ObjString o) as -> by (by destruct obj).
  split.
  - unfold CommitSet at 1, es_take, es_move. rewrite orb_false_r.
    destruct (es_is_view (set_value_ c)); [rewrite CommitSet_of by done|]; by destruct (negb _).
  - destruct (CommitSet str_new (set_value_ c)) as [o v].
    destruct (Z.eqb_spec (set_obj_expire_ts_ c) UINT64_MAX) as [->|]; reflexivity.
Qed.

(** C20: SET, SETNX, SETEX, PSETEX and GETSET on any slot: NX writes only to a
    missing key, XX only to one that exists, GET replies the string that was
    there and refuses another type, and a value over the size limit is refused
    except with GET on a missing key.  A write leaves a string with the value of
    the command and its expiry, or without one, where KEEPTTL leaves the expiry
    of the string that was there; otherwise the slot is as it was.  Over an
    object of another type the value is stored only if it is a view of the
    request, as the parser makes it; one that the command owns is lost.
    The slot is sound, and the value is shorter than 2^32 bytes. *)
Theorem set_correct (c : SetFields) (slot : option RedisEloqObject) :
  setcmd_fits c -> slot_sound slot ->
  let has f := has_flag f (set_flag_ c) in
  exists r slot', Set_run c slot string_result0 = Some (r, slot')
  /\ Set_OutputResult c r = Some [if has OBJ_SET_SETNX then OnInt (if set_writes c slot && negb (has OBJ_GET_SET) then 1 else 0)
                                  else set_reply c slot]
  /\ if set_writes c slot
     then exists obj', slot' = Some obj' /\ as_string obj' = Some (str_of (set_stores c slot))
          /\ GetTTL obj' = if negb (set_obj_expire_ts_ c =? UINT64_MAX) then set_obj_expire_ts_ c
                           else if has OBJ_SET_KEEPTTL then kept_expiry slot else UINT64_MAX
     else slot' = slot.
Proof.
  intros Hf Hs. cbn zeta. unfold Set_run, Set_ProceedOnExistentObject, Set_OutputResult, set_writes, set_reply.
  destruct slot as [obj|].
  - unfold Set_ExecuteOn, set_stores, kept_expiry. rewrite CheckSerializedLength_of by apply Hf. destruct (as_string obj) as [o|] eqn:Ho.
    + assert (es_is_null (str_obj_ o) = false) as -> by (by eapply stored_not_null).
      rewrite (bool_decide_true (is_Some (Some o))) by done. pose proof (Set_CommitOn_string c obj (proj1 Hf) ltac:(by rewrite Ho)) as Hc.
      case_bool_decide; destruct (has_flag OBJ_GET_SET _), (has_flag OBJ_SET_NX _), (has_flag OBJ_SET_SETNX _); cbn;
        eexists _, _; (split; [reflexivity|]); (split; [done|]); done || by eexists.
    + rewrite (bool_decide_false (is_Some None)) by (by intros []). destruct (Set_CommitOn_other c obj (proj1 Hf) Ho) as [H1 H2].
      case_bool_decide; destruct (has_flag OBJ_GET_SET _), (has_flag OBJ_SET_NX _), (has_flag OBJ_SET_SETNX _); cbn;
        eexists _, _; (split; [reflexivity|]); (split; [done|]); try done; eexists; (split; [done|]); (split; [done|]);
        rewrite H2; (destruct (Z.eqb_spec (set_obj_expire_ts_ c) UINT64_MAX) as [E|]; cbn [negb]; [rewrite E; by destruct (has_flag _ _)|done]).
  - pose proof (Set_CommitOn_string c (ObjString str_new) (proj1 Hf) ltac:(done)) as Hc.
    unfold Set_ExecuteOn. cbn [as_string]. rewrite CheckSerializedLength_of by apply Hf.
    change (es_is_null (str_obj_ str_new)) with true.
    case_bool_decide; destruct (has_flag OBJ_SET_XX _), (has_flag OBJ_GET_SET _), (has_flag OBJ_SET_SETNX _); cbn;
      eexists _, _; (split; [reflexivity|]); (split; [done|]); done || by eexists.
Qed.

(** SET k v KEEPTTL GET over a string that expires. *)
Lemma set_correct_witness :
  let c := mkSetCmd (es_of_view (lit "v")) (Z.lor OBJ_GET_SET OBJ_SET_KEEPTTL) UINT64_MAX in
  exists r obj', Set_run c (Some (ObjStringTTL (mkStrTTL s_ab 7))) string_result0 = Some (r, Some obj')
    /\ Set_OutputResult c r = Some [OnString (lit "ab")] /\ as_string obj' = Some (str_of (lit "v")) /\ GetTTL obj' = 7.
Proof.
  destruct (set_correct (mkSetCmd (es_of_view (lit "v")) (Z.lor OBJ_GET_SET OBJ_SET_KEEPTTL) UINT64_MAX) (Some (ObjStringTTL (mkStrTTL s_ab 7)))
    ltac:(split_and!; concrete) ltac:(split; [split; [split; [left; exact s_ab_wf|concrete]|concrete]|exact s_ab_wf])) as (r & slot' & H1 & H2 & obj' & -> & H3 & H4).
  exists r, obj'. split_and!; assumption.
Defined.

(** C39: over an object of another type SET commits its value twice.  A value that
    is a view of the client's buffer survives this; one that the command owns,
    as every command read from the log does, is moved by the first commit, and
    the key is left with the empty string. *)
Theorem set_over_other_type_loses_value (c : SetFields) (obj : RedisEloqObject) :
  setcmd_fits c -> as_string obj = None ->
  exists obj' image', CommitOn SetCommand c obj = Some (Some obj')
  /\ as_string obj' = Some (str_of (if es_is_view (set_value_ c) then es_view (set_value_ c) else []))
  /\ read_image SetCommand (Serialize SetCommand c) = Some (image', [])
  /\ exists obj'', CommitOn SetCommand image' obj = Some (Some obj'') /\ as_string obj'' = Some (str_of []).
Proof.
  intros Hf Ho. pose proof (image_law (C := SetCommand) c Hf []) as Him. rewrite app_nil_r in Him.
  exists (Set_CommitOn c obj), (mkSetCmd (own (set_value_ c)) (set_flag_ c) (set_obj_expire_ts_ c)).
  split; [done|]. split; [by apply Set_CommitOn_other; [apply Hf|]|]. split; [exact Him|]. eexists. split; [reflexivity|].
  rewrite (proj1 (Set_CommitOn_other (mkSetCmd (own (set_value_ c)) (set_flag_ c) (set_obj_expire_ts_ c)) obj (proj1 Hf) Ho)). do 2 f_equal. cbn [set_value_ own es_own]. unfold es_is_view. cbn.
  by destruct (owned_type _) eqn:E; [..|destruct (owned_type_not_view _ E)].
Qed.

(** SET k v over the sorted set [{a: 1, b: 2}]. *)
Lemma set_over_other_type_loses_value_witness :
  let c := mkSetCmd (es_of_view (lit "v")) 0 UINT64_MAX in
  exists obj' image', CommitOn SetCommand c (ObjZset z_ab) = Some (Some obj') /\ as_string obj' = Some (str_of (lit "v"))
  /\ read_image SetCommand (Serialize SetCommand c) = Some (image', [])
  /\ exists obj'', CommitOn SetCommand image' (ObjZset z_ab) = Some (Some obj'') /\ as_string obj'' = Some (str_of []).
Proof.
  exact (set_over_other_type_loses_value (mkSetCmd (es_of_view (lit "v")) 0 UINT64_MAX) (ObjZset z_ab) ltac:(split_and!; concrete) eq_refl).
Defined.

(** on a key that is missing SET with GET accepts a value of any size: the
    object it stores does not respect the limit that SET without GET enforces. *)
Theorem set_get_skips_limit (value : EloqString) (r : RedisStringResult) :
  es_fits value -> ~ str_small (es_view value) ->
  let stored := Some (Some (ObjString (str_of (es_view value)))) in
  ExecuteOn SetCommand (mkSetCmd value OBJ_GET_SET UINT64_MAX) (ObjString str_new) r
    = Some (mkSetCmd value OBJ_GET_SET UINT64_MAX, sr_set_err RD_NIL r, ExecWrite)
  /\ CommitOn SetCommand (mkSetCmd value OBJ_GET_SET UINT64_MAX) (ObjString str_new) = stored
  /\ ~ sound (ObjString (str_of (es_view value)))
  /\ ExecuteOn SetCommand (mkSetCmd value 0 UINT64_MAX) (ObjString str_new) r
     = Some (mkSetCmd value 0 UINT64_MAX, sr_set_err RD_ERR_OBJECT_TOO_BIG r, ExecFail).
Proof.
  intros Hf Hb. cbn zeta. cbn [ExecuteOn CommitOn SetCommand].
  split; [reflexivity|]. split; [by rewrite Set_CommitOn_of|]. split; [by intros [[_ ?] _]|].
  unfold Set_ExecuteOn. cbn [set_flag_ set_value_]. change (has_flag OBJ_GET_SET 0) with false. cbv iota.
  rewrite CheckSerializedLength_of by done. by rewrite bool_decide_eq_false_2.
Qed.

(** 256 MB of zeros. *)
Lemma set_get_skips_limit_witness :
  exists value, ~ str_small (es_view value)
  /\ CommitOn SetCommand (mkSetCmd value OBJ_GET_SET UINT64_MAX) (ObjString str_new) = Some (Some (ObjString (str_of (es_view value)))).
Proof.
  assert (~ str_small (es_view (es_of_view (zeros MAX_OBJECT_SIZE)))) as Hb.
  { unfold str_small. cbn [es_view es_of_view]. rewrite zlen_zeros by (unfold MAX_OBJECT_SIZE; lia). lia. }
  assert (es_fits (es_of_view (zeros MAX_OBJECT_SIZE))) as Hf.
  { unfold es_fits. cbn [es_view es_of_view]. rewrite zlen_zeros by (unfold MAX_OBJECT_SIZE; lia). unfold MAX_OBJECT_SIZE. mach. lia. }
  exists (es_of_view (zeros MAX_OBJECT_SIZE)). split; [exact Hb|].
  exact (proj1 (proj2 (set_get_skips_limit (es_of_view (zeros MAX_OBJECT_SIZE)) string_result0 Hf Hb))).
Defined.
