(* ===== verification/HashCommand.v ===== *)
(** * The hash commands

    The command classes of src/redis_command.cpp that act on one hash, each a
    [CommandClass]: HSET with HMSET, HSETNX, HDEL and HINCRBY, and the readers
    HGET, HMGET, HLEN, HSTRLEN, HEXISTS, HKEYS, HVALS and HGETALL.  Every class
    is shown to be [Replayable].  The order in which a hash is walked is an
    argument. *)

From S2P Require Import Prelude Codec EloqString RedisTypes StringNum ListObject StringObject HashObject RedisObject TxCommand.

Set Warnings "-clear-no-such-hyp".

(** ** Shared pieces *)

Definition as_hash (obj : RedisEloqObject) : option RedisHashObject :=
  match obj with
  | ObjHash o => Some o
  | ObjHashTTL t => Some (hashttl_base t)
  | _ => None
  end.

(** [None] inside is [nullptr]. *)
Definition commit_hash (f : RedisHashObject -> option RedisHashObject) (obj : RedisEloqObject) : option (option RedisEloqObject) :=
  match obj with
  | ObjHash o => in_slot ObjHash (Some (f o))
  | ObjHashTTL t => in_slot (fun o => ObjHashTTL (mkHashTTL o (hashttl_ttl_ t))) (Some (f (hashttl_base t)))
  | _ => None
  end.

(** [CheckTypeMatch], then [Execute] on the object, which stays as it is. *)
Definition hash_read {F : Type} (execute : RedisHashObject -> RedisHashResult -> RedisHashResult)
    (f : F) (object : RedisEloqObject) (r : RedisHashResult) : option (F * RedisHashResult * ExecResult) :=
  match as_hash object with
  | None => Some (f, hr_set_err RD_ERR_WRONG_TYPE r, ExecFail)
  | Some o => Some (f, execute o r, ExecRead)
  end.

(** The same where [Execute] says whether the commit may follow. *)
Definition hash_write {F : Type} (execute : RedisHashObject -> RedisHashResult -> RedisHashResult * bool)
    (f : F) (object : RedisEloqObject) (r : RedisHashResult) : option (F * RedisHashResult * ExecResult) :=
  match as_hash object with
  | None => Some (f, hr_set_err RD_ERR_WRONG_TYPE r, ExecFail)
  | Some o => let '(r, pass) := execute o r in Some (f, r, if pass : bool then ExecWrite else ExecFail)
  end.

(** [std::get<int64_t>], 0 for a missing key; [None]: another alternative is held. *)
Definition hash_output_int (r : RedisHashResult) : option (list ReplyEvent) :=
  if hr_err_code_ r =? RD_OK then match hr_result_ r with HRInt n => Some [OnInt n] | _ => None end
  else if hr_err_code_ r =? RD_NIL then Some [OnInt 0]
  else Some [OnError (hr_err_code_ r)].

(** [std::get<std::vector<std::string>>], an empty array for a missing key. *)
Definition hash_output_array (r : RedisHashResult) : option (list ReplyEvent) :=
  if hr_err_code_ r =? RD_OK then match hr_result_ r with HRStrings l => Some (output_array l) | _ => None end
  else if hr_err_code_ r =? RD_NIL then Some (output_array [])
  else Some [OnError (hr_err_code_ r)].

(** 1 for a field that is there, or was set. *)
Definition hash_output_flag (r : RedisHashResult) : option (list ReplyEvent) :=
  Some [if hr_err_code_ r =? RD_OK then OnInt 1
        else if hr_err_code_ r =? RD_NIL then OnInt 0 else OnError (hr_err_code_ r)].

(** ** HSET and HMSET *)

(** The two lengths come before the two strings. *)
Definition pair_str_of (e : HashEntry) : bytes :=
  le_bytes 4 (es_length e.1) ++ le_bytes 4 (es_length e.2) ++ es_data e.1 ++ es_data e.2.

Definition read_pair : Reader HashEntry :=
  field_size <-- read_u32; value_size <-- read_u32; field <-- read_bytes field_size; value <-- read_bytes value_size;
  rret (es_own field, es_own value).

(** HMSET replies with a status.  The image does not say which of the two it was. *)
Inductive HSetSubType := HSET | HMSET.

Definition HSet_OutputResult (sub_type_ : HSetSubType) (r : RedisHashResult) : option (list ReplyEvent) :=
  if hr_err_code_ r =? RD_OK then
    match sub_type_ with
    | HSET => match hr_result_ r with HRInt n => Some [OnInt n] | _ => None end
    | HMSET => Some [OnStatus RD_OK]
    end
  else Some [OnError (hr_err_code_ r)].

Definition HSetCommand : CommandClass := {|
  cc_fields := HSetSubType * list HashEntry;
  cc_result := RedisHashResult;
  cc_codes := [62];
  ProceedOnNonExistentObject _ := true;
  CreateObject := Some (ObjHash hash_new);
  ExecuteOn c := hash_write (fun o => Execute_HSet o c.2) c;
  CommitOn c := commit_hash (fun o => Some (CommitHset o c.2));
  Serialize c := le_bytes 1 62 ++ le_bytes 4 (zlen c.2) ++ concat (pair_str_of <$> c.2);
  Deserialize _ := cnt <-- read_u32; pairs <-- read_times (Z.to_nat cnt) read_pair; rret (HSET, pairs);
  OutputResult c := HSet_OutputResult c.1
|}.

(** ** HSETNX *)

Definition HSetNxCommand : CommandClass := {|
  cc_fields := HashEntry;
  cc_result := RedisHashResult;
  cc_codes := [63];
  ProceedOnNonExistentObject _ := true;
  CreateObject := Some (ObjHash hash_new);
  ExecuteOn c := hash_write (fun o => Execute_HSetNx o c.1 c.2) c;
  CommitOn c := commit_hash (fun o => Some (CommitHSetNx o c.1 c.2));
  Serialize c := le_bytes 1 63 ++ data_str c.1 ++ data_str c.2;
  Deserialize _ := key <-- read_element; value <-- read_element; rret (key, value);
  OutputResult _ := hash_output_flag
|}.

(** ** HINCRBY *)

Definition HIncrByCommand : CommandClass := {|
  cc_fields := EloqString * Z;
  cc_result := RedisHashResult;
  cc_codes := [66];
  ProceedOnNonExistentObject _ := true;
  CreateObject := Some (ObjHash hash_new);
  ExecuteOn c := hash_write (fun o => Execute_HIncrBy o c.1 c.2) c;
  CommitOn c := commit_hash (fun o => Some (CommitHincrby o c.1 c.2));
  Serialize c := le_bytes 1 66 ++ data_str c.1 ++ le_bytes 8 c.2;
  Deserialize _ := field <-- read_element; score <-- read_i64; rret (field, score);
  OutputResult _ r :=
    if hr_err_code_ r =? RD_OK then match hr_result_ r with HRInt n => Some [OnInt n] | _ => None end
    else Some [OnError (hr_err_code_ r)]
|}.

(** ** HDEL *)

Definition HDelCommand : CommandClass := {|
  cc_fields := list EloqString;
  cc_result := RedisHashResult;
  cc_codes := [73];
  ProceedOnNonExistentObject _ := false;
  CreateObject := Some (ObjHash hash_new);
  ExecuteOn del_list_ object r :=
    match as_hash object with
    | None => Some (del_list_, hr_set_err RD_ERR_WRONG_TYPE r, ExecFail)
    | Some o => let '(r, state) := Execute_HDel o del_list_ r in Some (del_list_, r, write_delete_or_fail state)
    end;
  CommitOn del_list_ := commit_hash (fun o => null_if_empty (CommitHdel o del_list_));
  Serialize del_list_ := le_bytes 1 73 ++ elements_str del_list_;
  Deserialize _ := read_elements;
  OutputResult _ := hash_output_int
|}.

(** ** HGET, HSTRLEN, HEXISTS, HMGET and HLEN *)

Definition HGetCommand : CommandClass := {|
  cc_fields := EloqString;
  cc_result := RedisHashResult;
  cc_codes := [61];
  ProceedOnNonExistentObject _ := false;
  CreateObject := Some (ObjHash hash_new);
  ExecuteOn field_ := hash_read (fun o => Execute_HGet o field_) field_;
  CommitOn _ _ := None;
  Serialize field_ := le_bytes 1 61 ++ lp_string (es_view field_);
  Deserialize _ := read_element;
  OutputResult _ r :=
    if hr_err_code_ r =? RD_OK then match hr_result_ r with HRString s => Some [OnString s] | _ => None end
    else if hr_err_code_ r =? RD_NIL then Some [OnNil]
    else Some [OnError (hr_err_code_ r)]
|}.

Definition HStrLenCommand : CommandClass := {|
  cc_fields := EloqString;
  cc_result := RedisHashResult;
  cc_codes := [65];
  ProceedOnNonExistentObject _ := false;
  CreateObject := Some (ObjHash hash_new);
  ExecuteOn field_ := hash_read (fun o => Execute_HStrLen o field_) field_;
  CommitOn _ _ := None;
  Serialize field_ := le_bytes 1 65 ++ data_str field_;
  Deserialize _ := read_element;
  OutputResult _ := hash_output_int
|}.

Definition HExistsCommand : CommandClass := {|
  cc_fields := EloqString;
  cc_result := RedisHashResult;
  cc_codes := [72];
  ProceedOnNonExistentObject _ := false;
  CreateObject := Some (ObjHash hash_new);
  ExecuteOn key_ := hash_read (fun o => Execute_HExists o key_) key_;
  CommitOn _ _ := None;
  Serialize key_ := le_bytes 1 72 ++ data_str key_;
  Deserialize _ := read_element;
  OutputResult _ := hash_output_flag
|}.

(** A nil for every field that is not there, and for every field of a missing key. *)
Definition HMGet_OutputResult (fields_ : list EloqString) (r : RedisHashResult) : option (list ReplyEvent) :=
  let array (l : list ReplyEvent) := OnArrayStart (zlen l) :: l ++ [OnArrayEnd] in
  if hr_err_code_ r =? RD_OK then
    match hr_result_ r with
    | HRNilable values => Some (array ((fun v => match v with Some s => OnString s | None => OnNil end) <$> values))
    | _ => None
    end
  else if hr_err_code_ r =? RD_NIL then Some (array ((fun _ => OnNil) <$> fields_))
  else Some [OnError (hr_err_code_ r)].

Definition HMGetCommand : CommandClass := {|
  cc_fields := list EloqString;
  cc_result := RedisHashResult;
  cc_codes := [68];
  ProceedOnNonExistentObject _ := false;
  CreateObject := Some (ObjHash hash_new);
  ExecuteOn fields_ := hash_read (fun o => Execute_HMGet o fields_) fields_;
  CommitOn _ _ := None;
  Serialize fields_ := le_bytes 1 68 ++ le_bytes 4 (zlen fields_) ++ concat (data_str <$> fields_);
  Deserialize _ := read_elements;
  OutputResult := HMGet_OutputResult
|}.

Definition HLenCommand : CommandClass := {|
  cc_fields := unit;
  cc_result := RedisHashResult;
  cc_codes := [64];
  ProceedOnNonExistentObject _ := false;
  CreateObject := Some (ObjHash hash_new);
  ExecuteOn := hash_read Execute_HLen;
  CommitOn _ _ := None;
  Serialize _ := le_bytes 1 64;
  Deserialize _ := rret tt;
  OutputResult _ := hash_output_int
|}.

(** ** HKEYS, HVALS and HGETALL *)

Section Walk.

Context (walk : RedisHashObject -> list HashEntry).

Definition HKeysCommand : CommandClass := {|
  cc_fields := unit;
  cc_result := RedisHashResult;
  cc_codes := [69];
  ProceedOnNonExistentObject _ := false;
  CreateObject := Some (ObjHash hash_new);
  ExecuteOn := hash_read (fun o => Execute_HKeys (walk o));
  CommitOn _ _ := None;
  Serialize _ := le_bytes 1 69;
  Deserialize _ := rret tt;
  OutputResult _ := hash_output_array
|}.

Definition HValsCommand : CommandClass := {|
  cc_fields := unit;
  cc_result := RedisHashResult;
  cc_codes := [70];
  ProceedOnNonExistentObject _ := false;
  CreateObject := Some (ObjHash hash_new);
  ExecuteOn := hash_read (fun o => Execute_HVals (walk o));
  CommitOn _ _ := None;
  Serialize _ := le_bytes 1 70;
  Deserialize _ := rret tt;
  OutputResult _ := hash_output_array
|}.

Definition HGetAllCommand : CommandClass := {|
  cc_fields := unit;
  cc_result := RedisHashResult;
  cc_codes := [71];
  ProceedOnNonExistentObject _ := false;
  CreateObject := Some (ObjHash hash_new);
  ExecuteOn := hash_read (fun o => Execute_HGetAll (walk o));
  CommitOn _ _ := None;
  Serialize _ := le_bytes 1 71;
  Deserialize _ := rret tt;
  OutputResult _ := hash_output_array
|}.

End Walk.

(** ** A hash in a slot *)

(** The abstract contents of a hash that a slot may hold, or that a command has
    just created. *)
Definition hash_small (m : gmap bytes bytes) : Prop := hash_fits m /\ hash_image_len m <= MAX_OBJECT_SIZE.

Lemma sound_hash_of o : sound_hash o -> exists m, o = hash_of m /\ hash_small m.
Proof. intros [Hw Hl]. destruct (hash_wf_canonical o Hw) as [E Hf]. by exists (hash_contents o). Qed.

Lemma hash_of_sound m : hash_small m -> sound_hash (hash_of m).
Proof. intros [Hf Hl]. split; [by apply hash_wf_of|by rewrite hash_contents_of]. Qed.

(** A commit on a hash works on the hash inside the object, and puts the new one
    back with the same expiry. *)
Lemma commit_hash_lens obj o : sound obj -> as_hash obj = Some o ->
  exists m mk, o = hash_of m /\ hash_small m /\ (forall f, commit_hash f obj = Some (option_map mk (f o)))
    /\ forall m', hash_small m' -> m' <> ∅ -> slot_sound (Some (mk (hash_of m'))).
Proof.
  destruct obj as [| | | |x|t| | | |]; try done; intros [Hs Ht] [= <-]; destruct (sound_hash_of _ Hs) as (m & Hm & Hsm).
  - exists m, ObjHash. split_and!; [done..|]. intros m' Hm' Hne. split; [split; [by apply hash_of_sound|done]|].
    cbn [inhabited]. by rewrite hash_contents_of.
  - exists m, (fun o => ObjHashTTL (mkHashTTL o (hashttl_ttl_ t))). split_and!; [done..|]. intros m' Hm' Hne.
    split; [split; [by apply hash_of_sound|done]|]. cbn [inhabited hashttl_base]. by rewrite hash_contents_of.
Qed.

Lemma hash_empty_small : hash_small ∅.
Proof. split; [by apply map_Forall_empty|]. unfold hash_image_len. rewrite map_to_list_empty. concrete. Qed.

Lemma hash_new_of : hash_new = hash_of ∅.
Proof. unfold hash_of, hash_new, hash_image_len. by rewrite map_to_list_empty. Qed.

Lemma hash_new_sound obj : Some (ObjHash hash_new) = Some obj -> sound obj.
Proof.
  intros [= <-]. split; [|concrete]. unfold sound. rewrite hash_new_of. apply hash_of_sound, hash_empty_small.
Qed.

(** ** The readers as the engine sees them *)

Lemma hash_read_defined {F} execute (f : F) obj r : is_Some (hash_read execute f obj r).
Proof. unfold hash_read. by destruct (as_hash obj). Qed.

Lemma hash_read_verdict {F} execute (f : F) obj r f' r' v :
  hash_read execute f obj r = Some (f', r', v) -> v = ExecRead \/ v = ExecFail.
Proof. unfold hash_read. destruct (as_hash obj); intros; simplify_eq; auto. Qed.

(** A reader with one string. *)
Ltac hash_reader C :=
  apply (read_only_replayable C (fun _ _ => True) es_fits own hash_new_sound);
  [intros e He; apply Reads_image; [set_solver|mach; lia|]; cbn [Deserialize C]; eauto with codec
  |intros f obj r _ _; apply hash_read_defined
  |intros f obj r f' r' v; apply hash_read_verdict].

#[export] Instance hget_replayable : Replayable HGetCommand.
Proof. hash_reader HGetCommand. Defined.
#[export] Instance hstrlen_replayable : Replayable HStrLenCommand.
Proof. hash_reader HStrLenCommand. Defined.
#[export] Instance hexists_replayable : Replayable HExistsCommand.
Proof. hash_reader HExistsCommand. Defined.

#[export] Instance hmget_replayable : Replayable HMGetCommand.
Proof.
  apply (read_only_replayable HMGetCommand (fun _ _ => True) (fun els => Forall es_fits els /\ is_u32 (zlen els)) (fmap own) hash_new_sound).
  - intros els [Hf Hn]. apply Reads_image; [set_solver|mach; lia|].
    assert (le_bytes 4 (zlen els) ++ concat (data_str <$> els) = elements_str els) as E.
    { unfold elements_str. do 2 f_equal. apply list_fmap_ext. intros i e He. apply data_str_fits.
      rewrite list.Forall_forall in Hf. apply Hf. by eapply list_elem_of_lookup_2. }
    cbn [Deserialize HMGetCommand]. rewrite E. by apply Reads_elements.
  - intros f obj r _ _. apply hash_read_defined.
  - intros f obj r f' r' v. apply hash_read_verdict.
Defined.

(** A reader without arguments. *)
Ltac hash_reader0 C code :=
  apply (read_only_replayable C (fun _ _ => True) (fun _ => True) id hash_new_sound);
  [intros [] _; apply (Reads_image C code [] tt); [set_solver|mach; lia|apply Reads_ret]
  |intros f obj r _ _; apply hash_read_defined
  |intros f obj r f' r' v; apply hash_read_verdict].

#[export] Instance hlen_replayable : Replayable HLenCommand.
Proof. hash_reader0 HLenCommand 64. Defined.
#[export] Instance hkeys_replayable walk : Replayable (HKeysCommand walk).
Proof. hash_reader0 (HKeysCommand walk) 69. Defined.
#[export] Instance hvals_replayable walk : Replayable (HValsCommand walk).
Proof. hash_reader0 (HValsCommand walk) 70. Defined.
#[export] Instance hgetall_replayable walk : Replayable (HGetAllCommand walk).
Proof. hash_reader0 (HGetAllCommand walk) 71. Defined.

(** ** The writers as the engine sees them *)

(** What is accepted is committed, by the command that ran and by the one that was
    read from the log. *)
Definition hash_accepted (accept : RedisHashObject -> bool) (commit commit' : RedisHashObject -> RedisHashObject) : Prop :=
  forall m, hash_small m -> accept (hash_of m) = true ->
  exists m', hash_small m' /\ m' <> ∅ /\ commit (hash_of m) = hash_of m' /\ commit' (hash_of m) = hash_of m'.

Lemma hash_write_law {F} execute commit commit' (f : F) obj r f' r' v :
  hash_accepted (fun o => (execute o r).2) commit commit' -> sound obj ->
  hash_write execute f obj r = Some (f', r', v) -> v = ExecWrite \/ v = ExecDelete ->
  f' = f /\ v <> ExecDelete
  /\ exists s, commit_hash (fun o => Some (commit o)) obj = Some s /\ commit_hash (fun o => Some (commit' o)) obj = Some s /\ slot_sound s.
Proof.
  intros H Hs HE Hv. unfold hash_write in HE. destruct (as_hash obj) as [o|] eqn:Ho; [|simplify_eq; by destruct Hv].
  destruct (execute o r) as [r1 ok] eqn:E. destruct ok; simplify_eq; [|by destruct Hv]. split; [done|]. split; [done|].
  destruct (commit_hash_lens obj o Hs Ho) as (m & mk & -> & Hm & Hmk & Hok).
  destruct (H m Hm) as (m' & Hm' & Hne & E1 & E2); [by rewrite E|].
  exists (Some (mk (hash_of m'))). rewrite !Hmk, E1, E2. split; [done|]. split; [done|]. by apply Hok.
Qed.

Lemma hash_write_defined {F} execute (f : F) obj r : is_Some (hash_write execute f obj r).
Proof. unfold hash_write. destruct (as_hash obj); [|done]. by destruct (execute _ r). Qed.

Definition own_pair_of (e : HashEntry) : HashEntry := (own e.1, own e.2).

(** *** HSET *)

Lemma image_len_insert_le m k v : hash_image_len (<[k := v]> m) <= hash_image_len m + entry_len (k, v).
Proof.
  destruct (m !! k) as [w|] eqn:E; [|by rewrite image_len_insert_new].
  rewrite (image_len_insert_old m k v w E). unfold entry_len. cbn. pose proof (zlen_nonneg k). pose proof (zlen_nonneg w). lia.
Qed.

Lemma hset_all_len m l : hash_image_len (hset_all m l) <= hash_image_len m + zsum entry_len l.
Proof.
  revert m. induction l as [|[k v] l IH]; intros m; cbn [hset_all foldl zsum fst snd]; [lia|].
  specialize (IH (<[k := v]> m)). pose proof (image_len_insert_le m k v). unfold hset_all in IH. lia.
Qed.

Lemma hset_all_nonempty m l : m <> ∅ \/ l <> [] -> hset_all m l <> ∅.
Proof.
  revert m. induction l as [|[k v] l IH]; intros m H; cbn; [by destruct H|].
  apply IH. left. apply insert_non_empty.
Qed.

Definition hset_ok (els : list HashEntry) : Prop :=
  els <> [] /\ Forall pair_ok els /\ NoDup (views els).*1 /\ zlen els <= INT32_MAX /\ zsum entry_len (views els) < 2 ^ 63.

Definition hset_fits (els : list HashEntry) : Prop := Forall pair_ok els /\ is_u32 (zlen els).

Lemma pair_views_own els : views (own_pair_of <$> els) = views els.
Proof. unfold views. rewrite <- list_fmap_compose. by apply list_fmap_ext. Qed.

Lemma pairs_own els : Forall pair_ok els -> Forall pair_ok (own_pair_of <$> els).
Proof.
  intros H. apply Forall_fmap. eapply Forall_impl; [|exact H]. intros e (Hf & Hv & _). split_and!; [done..|]. intros _.
  unfold es_is_view. cbn. by destruct (owned_type (es_view e.2)) eqn:E; [..|destruct (owned_type_not_view _ E)].
Qed.

Lemma hset_accepted els r : hset_ok els ->
  hash_accepted (fun o => (Execute_HSet o els r).2) (fun o => CommitHset o els) (fun o => CommitHset o (own_pair_of <$> els)).
Proof.
  intros (Hne & Hp & Hnd & Hl & Hsz) m [Hf Hm]. pose proof (hset_all_len m (views els)) as Hlen.
  assert (hash_image_len (hset_all m (views els)) < 2 ^ 64) by (unfold MAX_OBJECT_SIZE in Hm; lia).
  rewrite Execute_HSet_of by done. case_decide as Hd; [done|]. intros _. exists (hset_all m (views els)).
  destruct (CommitHset_of m els Hf Hp) as [E1 Hf']. destruct (CommitHset_of m (own_pair_of <$> els) Hf (pairs_own els Hp)) as [E2 _].
  rewrite pair_views_own in E2. split_and!; [by split; [done|lia]| |done|done].
  apply hset_all_nonempty. right. by destruct els.
Qed.

Lemma Reads_pair_of e : pair_ok e -> Reads read_pair (pair_str_of e) (own_pair_of e).
Proof.
  intros (Hf & Hv & _). unfold read_pair, pair_str_of. rewrite !es_length_fits, !es_data_fits by done.
  eapply Reads_bind; [by apply Reads_u32|]. eapply Reads_bind; [by apply Reads_u32|].
  eapply Reads_bind; [by apply Reads_bytes|]. by eapply Reads_bind_ret; [apply Reads_bytes|].
Qed.

#[export] Instance hset_replayable : Replayable HSetCommand.
Proof.
  refine {| exec_ok := (fun c _ => hset_ok c.2) : cc_fields HSetCommand -> _; image_ok := (fun c => hset_fits c.2) : cc_fields HSetCommand -> _;
            reread := (fun c => (HSET, own_pair_of <$> c.2)) : cc_fields HSetCommand -> _ |}.
  - apply hash_new_sound.
  - intros [t els] [Hp Hn]. cbn [snd] in *. apply Reads_image; [set_solver|mach; lia|]. cbn [Deserialize HSetCommand snd].
    eapply Reads_bind; [by apply Reads_u32|]. rewrite to_nat_zlen. eapply Reads_bind_ret; [|done].
    apply (Reads_times read_pair pair_str_of own_pair_of). intros e He. apply Reads_pair_of. rewrite list.Forall_forall in Hp. auto.
  - intros c obj r _ _. apply hash_write_defined.
  - intros [t els] obj r f' r' v Hs Hok HE Hv. cbn [snd] in Hok.
    destruct (hash_write_law _ _ _ _ obj r f' r' v (hset_accepted els r Hok) Hs HE Hv) as (-> & Hd & s & H1 & H2 & H3).
    exists s. split; [done|]. split; [done|]. split; [|done]. destruct Hok as (_ & Hp & _ & Hl & _). split; [done|].
    cbn. pose proof (zlen_nonneg els). mach. lia.
Defined.

(** *** HSETNX *)

Lemma hash_len_small m : hash_small m -> hash_serialized_length_ (hash_of m) = hash_image_len m.
Proof. intros [_ H]. cbn. pose proof (hash_image_len_pos m). unfold MAX_OBJECT_SIZE in H. apply u64_id. mach. lia. Qed.

Lemma hsetnx_accepted f v f' v' r : pair_ok (f, v) -> pair_ok (f', v') -> es_view f' = es_view f -> es_view v' = es_view v ->
  hash_accepted (fun o => (Execute_HSetNx o f v r).2) (fun o => CommitHSetNx o f v) (fun o => CommitHSetNx o f' v').
Proof.
  intros Hp Hp' Ef Ev m [Hf Hm]. unfold Execute_HSetNx. rewrite hash_find_of.
  destruct (m !! es_view f) eqn:E; [done|]. cbn [fmap option_fmap option_map].
  destruct Hp as (Hff & Hfv & Hview). cbn [fst snd] in *. rewrite hash_len_small, !es_length_fits by done.
  pose proof (hash_image_len_pos m). pose proof (zlen_nonneg (es_view f)). pose proof (zlen_nonneg (es_view v)).
  rewrite u64_id by (unfold es_fits, MAX_OBJECT_SIZE in *; mach; lia).
  destruct (Z.ltb_spec MAX_OBJECT_SIZE (hash_image_len m + 4 * 2 + zlen (es_view f) + zlen (es_view v))) as [|Hle]; [done|]. intros _.
  exists (<[es_view f := es_view v]> m). split_and!.
  - split; [by apply hash_fits_insert|]. rewrite image_len_insert_new by done. unfold entry_len. cbn [fst snd]. lia.
  - apply insert_non_empty.
  - by apply CommitHSetNx_of.
  - rewrite CommitHSetNx_of; [by rewrite Ef, Ev|done|by rewrite Ef].
Qed.

#[export] Instance hsetnx_replayable : Replayable HSetNxCommand.
Proof.
  refine {| exec_ok := (fun c _ => pair_ok c) : cc_fields HSetNxCommand -> _; image_ok := pair_ok : cc_fields HSetNxCommand -> _;
            reread := own_pair_of : cc_fields HSetNxCommand -> _ |}.
  - apply hash_new_sound.
  - intros [f v] (Hf & Hv & _). cbn [fst snd] in *. apply Reads_image; [set_solver|mach; lia|]. cbn [Deserialize HSetNxCommand fst snd]. by reads.
  - intros c obj r _ _. apply hash_write_defined.
  - intros [f val] obj r f' r' v Hs Hok HE Hv. pose proof (pairs_own [(f, val)] ltac:(by constructor)) as Hown.
    apply list.Forall_cons in Hown as [Hown _].
    destruct (hash_write_law _ _ _ _ obj r f' r' v (hsetnx_accepted f val (own f) (own val) r Hok Hown eq_refl eq_refl) Hs HE Hv)
      as (-> & Hd & s & H1 & H2 & H3). by exists s.
Defined.

(** *** HINCRBY *)

Lemma CommitHincrby_view m f f' old score : hash_fits m -> es_fits f -> es_fits f' -> es_view f' = es_view f -> is_i64 score ->
  field_counter m (es_view f) = Some old -> ~ incr_refused old score ->
  CommitHincrby (hash_of m) f' score = hash_of (<[es_view f := to_string (old + score)]> m).
Proof. intros Hm Hf Hf' E Hs Ho Hr. rewrite (CommitHincrby_of m f' old); [by rewrite E|done..|by rewrite E|done]. Qed.

Lemma hincrby_accepted f score r : es_fits f -> is_i64 score ->
  hash_accepted (fun o => (Execute_HIncrBy o f score r).2) (fun o => CommitHincrby o f score) (fun o => CommitHincrby o (own f) score).
Proof.
  intros Hf Hi m [Hm Hl]. assert (hincr_bound m (es_view f) < 2 ^ 64) as Hb.
  { unfold hincr_bound. unfold es_fits, MAX_OBJECT_SIZE in *. destruct (m !! es_view f) as [w|]; [pose proof (zlen_nonneg w)|]; mach; lia. }
  rewrite Execute_HIncrBy_of by done. destruct (field_counter m (es_view f)) as [old|] eqn:Eo; [|done].
  case_decide as Hd; [done|]. case_decide as Hd2; [done|]. intros _.
  assert (is_i64 (old + score)) as Hr by (by apply incr_accepted_range; [eapply field_counter_range|..]).
  pose proof (to_string_short _ Hr) as Hsh. pose proof (hincr_bound_insert m (es_view f) _ Hsh).
  exists (<[es_view f := to_string (old + score)]> m). split_and!.
  - split; [|lia]. apply hash_fits_insert; [done..|]. unfold fits. pose proof (zlen_nonneg (to_string (old + score))). mach. lia.
  - apply insert_non_empty.
  - by apply CommitHincrby_of.
  - by apply CommitHincrby_view.
Qed.

#[export] Instance hincrby_replayable : Replayable HIncrByCommand.
Proof.
  refine {| exec_ok := (fun c _ => es_fits c.1 /\ is_i64 c.2) : cc_fields HIncrByCommand -> _;
            image_ok := (fun c => es_fits c.1 /\ is_i64 c.2) : cc_fields HIncrByCommand -> _;
            reread := (fun c => (own c.1, c.2)) : cc_fields HIncrByCommand -> _ |}.
  - apply hash_new_sound.
  - intros [f n] [Hf Hn]. cbn [fst snd] in *. apply Reads_image; [set_solver|mach; lia|]. cbn [Deserialize HIncrByCommand fst snd]. by reads.
  - intros c obj r _ _. apply hash_write_defined.
  - intros [f n] obj r f' r' v Hs [Hf Hn] HE Hv. cbn [fst snd] in *.
    destruct (hash_write_law _ _ _ _ obj r f' r' v (hincrby_accepted f n r Hf Hn) Hs HE Hv) as (-> & Hd & s & H1 & H2 & H3).
    by exists s.
Defined.

(** *** HDEL *)

Lemma hdel_all_len m l : hash_image_len (hdel_all m l) <= hash_image_len m.
Proof.
  revert m. induction l as [|k l IH]; intros m; cbn [hdel_all foldl]; [lia|]. specialize (IH (delete k m)). unfold hdel_all in IH.
  destruct (m !! k) as [v|] eqn:E; [|by rewrite delete_id in * by done].
  rewrite (image_len_delete m k v E) in IH. pose proof (entry_len_nonneg (k, v)). lia.
Qed.

Definition hdel_ok (els : list EloqString) : Prop := Forall es_fits els /\ NoDup (es_view <$> els) /\ zlen els <= INT32_MAX.

#[export] Instance hdel_replayable : Replayable HDelCommand.
Proof.
  refine {| exec_ok := (fun els _ => hdel_ok els) : cc_fields HDelCommand -> _; image_ok := hdel_ok : cc_fields HDelCommand -> _;
            reread := fmap own : cc_fields HDelCommand -> _ |}.
  - apply hash_new_sound.
  - intros els (Hf & _ & Hl). apply Reads_image; [set_solver|mach; lia|]. apply Reads_elements; [done|].
    pose proof (zlen_nonneg els). mach. lia.
  - intros els obj r _ _. cbn. destruct (as_hash obj); [|done]. by destruct (Execute_HDel _ _ _).
  - intros els obj r f' r' v Hs (Hf & Hnd & Hl) HE Hv. cbn [ExecuteOn CommitOn HDelCommand] in *.
    destruct (as_hash obj) as [o|] eqn:Ho; [|simplify_eq; by destruct Hv].
    destruct (commit_hash_lens obj o Hs Ho) as (m & mk & -> & [Hm Hsm] & Hmk & Hok).
    rewrite Execute_HDel_of in HE by done. injection HE as <- <- <-. rewrite !Hmk, !CommitHdel_of by done.
    rewrite views_own.
    eexists. split; [reflexivity|]. split; [reflexivity|]. split; [done|]. destruct (hdel_loop_of m els Hm) as [_ Hf'].
    pose proof (hdel_all_len m (es_view <$> els)). unfold null_if_empty. case_bool_decide as Hemp.
    + by split.
    + split; [apply Hok; [by split; [done|lia]|done]|]. case_decide; [by destruct Hv|]. by rewrite decide_False.
Defined.
