(* ===== verification/HashSetCommand.v ===== *)
(** * The set commands

    The command classes of src/redis_command.cpp that act on one set, each a
    [CommandClass]: SADD (also as the last step of the store commands), SREM and
    SPOP, and the readers SMEMBERS, SCARD, SISMEMBER, SMISMEMBER and
    SRANDMEMBER.  Every class is shown to be [Replayable].  The order in which a
    set is walked, its number of buckets and the random numbers are arguments. *)

From S2P Require Import Prelude Codec EloqString RedisTypes StringNum ListObject SetObject Sampling RedisObject TxCommand.

Set Warnings "-clear-no-such-hyp".

(** ** Shared pieces *)

(** [None] inside is [nullptr]. *)
Definition commit_set (f : RedisHashSetObject -> option RedisHashSetObject) (obj : RedisEloqObject) : option (option RedisEloqObject) :=
  match obj with
  | ObjSet o => in_slot ObjSet (Some (f o))
  | ObjSetTTL t => in_slot (fun o => ObjSetTTL (mkSetTTL o (setttl_ttl_ t))) (Some (f (setttl_base t)))
  | _ => None
  end.

(** [CheckTypeMatch], then [Execute] on the object, which stays as it is. *)
Definition set_read {F : Type} (execute : RedisHashSetObject -> RedisHashSetResult -> option RedisHashSetResult)
    (f : F) (object : RedisEloqObject) (r : RedisHashSetResult) : option (F * RedisHashSetResult * ExecResult) :=
  match as_set object with
  | None => Some (f, ss_set_err RD_ERR_WRONG_TYPE r, ExecFail)
  | Some o => r ← execute o r; Some (f, r, ExecRead)
  end.

Definition output_members (r : RedisHashSetResult) : list ReplyEvent := output_array (es_view <$> ss_string_list_ r).

(** [ret_], also for a missing key. *)
Definition set_output_ret (r : RedisHashSetResult) : option (list ReplyEvent) :=
  Some [if (ss_err_code_ r =? RD_OK) || (ss_err_code_ r =? RD_NIL) then OnInt (ss_ret_ r) else OnError (ss_err_code_ r)].

(** One member, or an array of them when the client gave a count.  [None]: the
    first member of an empty list. *)
Definition set_output_picked (array : bool) (r : RedisHashSetResult) : option (list ReplyEvent) :=
  if ss_err_code_ r =? RD_OK then
    if array then Some (output_members r)
    else match ss_string_list_ r with str :: _ => Some [OnString (es_view str)] | [] => None end
  else if ss_err_code_ r =? RD_NIL then Some (if array then output_array [] else [OnNil])
  else Some [OnError (ss_err_code_ r)].

(** ** SADD *)

Record SAddFields := mkSAdd {
  sa_vct_paras_ : list EloqString;
  sa_force_remove_add_ : bool;
  sa_is_in_the_middle_stage_ : bool
}.

(** A store command replaces whatever is there; its size test leaves out the
    header of the image and counts eight bytes for the length of a member. *)
Definition SAdd_ExecuteOn (c : SAddFields) (object : RedisEloqObject) (r : RedisHashSetResult)
    : option (SAddFields * RedisHashSetResult * ExecResult) :=
  let vct_paras_ := sa_vct_paras_ c in
  if sa_force_remove_add_ c then
    let len := foldl (fun len str => u64 (len + (8 + es_length str))) 0 vct_paras_ in
    if MAX_OBJECT_SIZE <? len then Some (c, ss_set_err RD_ERR_OBJECT_TOO_BIG r, ExecFail)
    else Some (c, ss_set_ret (i32 (zlen vct_paras_)) (ss_set_err RD_OK r),
               match vct_paras_ with [] => ExecDelete | _ => ExecWrite end)
  else
    match as_set object with
    | None => Some (c, ss_set_err RD_ERR_WRONG_TYPE r, ExecFail)
    | Some o => let '(r, state) := Execute_SAdd o vct_paras_ r in Some (c, r, write_or_fail state)
    end.

Definition SAdd_CommitOn (c : SAddFields) (obj_ptr : RedisEloqObject) : option (option RedisEloqObject) :=
  let commit o := null_if_empty (CommitSAdd o (sa_vct_paras_ c) (sa_is_in_the_middle_stage_ c)) in
  if sa_force_remove_add_ c then
    match sa_vct_paras_ c with
    | [] => Some None
    | _ => Some (option_map ObjSet (commit set_new))
    end
  else commit_set commit obj_ptr.

(** The strings are written by [Length()] and [Data()]. *)
Definition datas_str (els : list EloqString) : bytes := le_bytes 4 (zlen els) ++ concat (data_str <$> els).

(** The copy constructor that [Clone] calls. *)
Definition SAdd_copy (rhs : SAddFields) : SAddFields :=
  mkSAdd (es_clone <$> sa_vct_paras_ rhs) (sa_force_remove_add_ rhs) false.

Definition SAddCommand : CommandClass := {|
  cc_fields := SAddFields;
  cc_result := RedisHashSetResult;
  cc_codes := [108];
  ProceedOnNonExistentObject _ := true;
  CreateObject := Some (ObjSet set_new);
  ExecuteOn := SAdd_ExecuteOn;
  CommitOn := SAdd_CommitOn;
  Serialize c := le_bytes 1 108 ++ le_bytes 1 (if sa_force_remove_add_ c then 1 else 0) ++ datas_str (sa_vct_paras_ c);
  Deserialize _ := force <-- read_u8; els <-- read_elements; rret (mkSAdd els (force =? 1) false);
  OutputResult _ r := Some [if ss_err_code_ r =? RD_OK then OnInt (ss_ret_ r) else OnError (ss_err_code_ r)]
|}.

(** ** SREM *)

Definition SRemCommand : CommandClass := {|
  cc_fields := list EloqString;
  cc_result := RedisHashSetResult;
  cc_codes := [110];
  ProceedOnNonExistentObject _ := true;
  CreateObject := Some (ObjSet set_new);
  ExecuteOn vct_paras_ object r :=
    match as_set object with
    | None => Some (vct_paras_, ss_set_err RD_ERR_WRONG_TYPE r, ExecFail)
    | Some o => let '(r, state) := Execute_SRem o vct_paras_ r in Some (vct_paras_, r, write_delete_or_fail state)
    end;
  CommitOn vct_paras_ := commit_set (fun o => null_if_empty (CommitSRem o vct_paras_));
  Serialize vct_paras_ := le_bytes 1 110 ++ datas_str vct_paras_;
  Deserialize _ := read_elements;
  OutputResult _ r := Some [if ss_err_code_ r =? RD_OK then OnInt (ss_ret_ r) else OnError (ss_err_code_ r)]
|}.

(** ** The readers SCARD, SISMEMBER and SMISMEMBER *)

Definition SCardCommand : CommandClass := {|
  cc_fields := unit;
  cc_result := RedisHashSetResult;
  cc_codes := [111];
  ProceedOnNonExistentObject _ := false;
  CreateObject := Some (ObjSet set_new);
  ExecuteOn := set_read (fun o r => Some (Execute_SCard o r));
  CommitOn _ _ := None;
  Serialize _ := le_bytes 1 111;
  Deserialize _ := rret tt;
  OutputResult _ := set_output_ret
|}.

Definition SIsMemberCommand : CommandClass := {|
  cc_fields := EloqString;
  cc_result := RedisHashSetResult;
  cc_codes := [117];
  ProceedOnNonExistentObject _ := false;
  CreateObject := Some (ObjSet set_new);
  ExecuteOn str_member_ := set_read (fun o r => Some (Execute_SIsMember o str_member_ r)) str_member_;
  CommitOn _ _ := None;
  Serialize str_member_ := le_bytes 1 117 ++ data_str str_member_;
  Deserialize _ := read_element;
  OutputResult _ := set_output_ret
|}.

(** A flag is told by its first character. *)
Definition SMIsMember_OutputResult (members_ : list EloqString) (r : RedisHashSetResult) : option (list ReplyEvent) :=
  let array (l : list ReplyEvent) := OnArrayStart (zlen l) :: l ++ [OnArrayEnd] in
  let flag str := match es_view str with c :: _ => Some (OnInt (if c2z c =? 49 then 1 else 0)) | [] => None end in
  if ss_err_code_ r =? RD_OK then l ← mapM flag (ss_string_list_ r); Some (array l)
  else if ss_err_code_ r =? RD_NIL then Some (array ((fun _ => OnInt 0) <$> members_))
  else Some [OnError (ss_err_code_ r)].

Definition SMIsMemberCommand : CommandClass := {|
  cc_fields := list EloqString;
  cc_result := RedisHashSetResult;
  cc_codes := [118];
  ProceedOnNonExistentObject _ := false;
  CreateObject := Some (ObjSet set_new);
  ExecuteOn members_ := set_read (fun o r => Some (Execute_SMIsMember o members_ r)) members_;
  CommitOn _ _ := None;
  Serialize members_ := le_bytes 1 118 ++ datas_str members_;
  Deserialize _ := read_elements;
  OutputResult := SMIsMember_OutputResult
|}.

(** ** SMEMBERS, SRANDMEMBER and SPOP *)

Section Walk.

Context (walk : RedisHashSetObject -> list EloqString).

Definition SMembersCommand : CommandClass := {|
  cc_fields := unit;
  cc_result := RedisHashSetResult;
  cc_codes := [109];
  ProceedOnNonExistentObject _ := false;
  CreateObject := Some (ObjSet set_new);
  ExecuteOn := set_read (fun o r => Some (Execute_SMembers o (walk o) r));
  CommitOn _ _ := None;
  Serialize _ := le_bytes 1 109;
  Deserialize _ := rret tt;
  OutputResult _ r :=
    Some (if (ss_err_code_ r =? RD_OK) || (ss_err_code_ r =? RD_NIL) then output_members r else [OnError (ss_err_code_ r)])
|}.

End Walk.

(** What one execution meets beyond the members: the order in which it walks the
    set, the number of buckets and the random numbers it draws.  The draw travels
    with the fields of the command, of which it is not one, and an image does not
    hold it. *)
Record Draw := mkDraw {
  dr_walk : list EloqString;
  dr_bucket_count : Z;
  dr_rands : list Z
}.

Definition no_draw : Draw := mkDraw [] 0 [].

Record SRandMemberFields := mkSRandMember {
  srm_count_ : Z;
  srm_count_provided_ : bool;
  srm_draw : Draw
}.

(** The image leaves [count_provided_] out, and a command made for an image leaves
    it [unset]. *)
Definition SRandMemberCommand (unset : bool) : CommandClass := {|
  cc_fields := SRandMemberFields;
  cc_result := RedisHashSetResult;
  cc_codes := [121];
  ProceedOnNonExistentObject _ := false;
  CreateObject := Some (ObjSet set_new);
  ExecuteOn c :=
    set_read (fun o r => let d := srm_draw c in
      Execute_SRandMember o (dr_walk d) (dr_bucket_count d) (dr_rands d) (srm_count_ c) r) c;
  CommitOn _ _ := None;
  Serialize c := le_bytes 1 121 ++ le_bytes 8 (srm_count_ c);
  Deserialize _ := count <-- read_i64; rret (mkSRandMember count unset no_draw);
  OutputResult c := set_output_picked (srm_count_provided_ c)
|}.

Record SPopFields := mkSPop {
  sp_count_ : Z;
  sp_string_list_ : list EloqString;     (* the members of [result_] *)
  sp_draw : Draw
}.

(** The commit removes the members of the result, and the image lists them: a
    replay must not draw again. *)
Definition SPopCommand : CommandClass := {|
  cc_fields := SPopFields;
  cc_result := RedisHashSetResult;
  cc_codes := [120];
  ProceedOnNonExistentObject _ := true;
  CreateObject := Some (ObjSet set_new);
  ExecuteOn c object r :=
    match as_set object with
    | None => Some (c, ss_set_err RD_ERR_WRONG_TYPE r, ExecFail)
    | Some o =>
        let d := sp_draw c in
        '(r, state) ← Execute_SPop o (dr_walk d) (dr_bucket_count d) (dr_rands d) (sp_count_ c) (ss_set_list (sp_string_list_ c) r);
        Some (mkSPop (sp_count_ c) (ss_string_list_ r) d, r, write_delete_or_fail state)
    end;
  CommitOn c := commit_set (fun o => null_if_empty (CommitSPop o (sp_string_list_ c)));
  Serialize c :=
    le_bytes 1 120 ++ le_bytes 8 (sp_count_ c) ++ le_bytes 4 (zlen (sp_string_list_ c))
    ++ concat ((fun member => le_bytes 4 (es_length member) ++ es_view member) <$> sp_string_list_ c);
  Deserialize _ := count <-- read_i64; members <-- read_elements; rret (mkSPop count members no_draw);
  OutputResult c := set_output_picked (negb (sp_count_ c =? -1))
|}.

(** ** A set in a slot *)

Definition set_small (s : gset bytes) : Prop := set_fits s /\ set_image_len s <= MAX_OBJECT_SIZE.

Lemma sound_set_of o : sound_set o -> exists s, o = set_of s /\ set_small s.
Proof. intros [Hw Hl]. destruct (set_wf_canonical o Hw) as [E Hf]. by exists (set_contents o). Qed.

Lemma set_of_sound s : set_small s -> sound_set (set_of s).
Proof. intros [Hf Hl]. split; [by apply set_wf_of|by rewrite set_contents_of]. Qed.

(** A commit on a set works on the set inside the object, and puts the new one back
    with the same expiry. *)
Lemma commit_set_lens obj o : sound obj -> as_set obj = Some o ->
  exists s mk, o = set_of s /\ set_small s /\ (forall f, commit_set f obj = Some (option_map mk (f o)))
    /\ forall s', set_small s' -> s' <> ∅ -> slot_sound (Some (mk (set_of s'))).
Proof.
  destruct obj as [| | | | | |x|t| |]; try done; intros [Hs Ht] [= <-]; destruct (sound_set_of _ Hs) as (s & Hm & Hsm).
  - exists s, ObjSet. split_and!; [done..|]. intros s' Hs' Hne. split; [split; [by apply set_of_sound|done]|].
    cbn [inhabited]. by rewrite set_contents_of.
  - exists s, (fun o => ObjSetTTL (mkSetTTL o (setttl_ttl_ t))). split_and!; [done..|]. intros s' Hs' Hne.
    split; [split; [by apply set_of_sound|done]|]. cbn [inhabited setttl_base]. by rewrite set_contents_of.
Qed.

Lemma set_empty_small : set_small ∅.
Proof. split; [set_solver|]. unfold set_image_len. rewrite elements_empty. concrete. Qed.

Lemma set_new_of : set_new = set_of ∅.
Proof. reflexivity. Qed.

Lemma set_new_sound obj : Some (ObjSet set_new) = Some obj -> sound obj.
Proof. intros [= <-]. split; [|concrete]. unfold sound. rewrite set_new_of. apply set_of_sound, set_empty_small. Qed.

(** A member takes four bytes at least. *)
Lemma set_small_size s : set_small s -> Z.of_nat (size s) <= INT32_MAX.
Proof.
  intros [_ H]. unfold set_image_len, MAX_OBJECT_SIZE in H. rewrite <- (order_length s (elements s)) by done.
  assert (forall l, 4 * Z.of_nat (length l) <= zsum elem_len l) as Hl.
  { induction l as [|k l IH]; cbn [length zsum]; [lia|]. unfold elem_len at 1. pose proof (zlen_nonneg k). lia. }
  specialize (Hl (elements s)). mach. lia.
Qed.

(** ** The readers as the engine sees them *)

Lemma set_read_defined {F} execute (f : F) obj r :
  sound obj -> (forall s, as_set obj = Some (set_of s) -> set_small s -> is_Some (execute (set_of s) r)) -> is_Some (set_read execute f obj r).
Proof.
  intros Hs H. unfold set_read. destruct (as_set obj) as [o|] eqn:Ho; [|done].
  destruct (commit_set_lens obj o Hs Ho) as (s & _ & -> & Hsm & _). by destruct (H s eq_refl Hsm) as [? ->].
Qed.

Lemma set_read_verdict {F} execute (f : F) obj r f' r' v :
  set_read execute f obj r = Some (f', r', v) -> v = ExecRead \/ v = ExecFail.
Proof.
  unfold set_read. destruct (as_set obj); [|intros; simplify_eq; by right].
  destruct (execute _ _); intros; simplify_eq/=. by left.
Qed.

Lemma Reads_datas els : Forall es_fits els -> is_u32 (zlen els) -> Reads read_elements (datas_str els) (own <$> els).
Proof.
  intros Hf Hn. assert (datas_str els = elements_str els) as ->; [|by apply Reads_elements].
  unfold datas_str, elements_str. do 2 f_equal. apply list_fmap_ext. intros i e He. apply data_str_fits.
  rewrite list.Forall_forall in Hf. apply Hf. by eapply list_elem_of_lookup_2.
Qed.

Lemma lengths_str els : Forall es_fits els ->
  le_bytes 4 (zlen els) ++ concat ((fun member => le_bytes 4 (es_length member) ++ es_view member) <$> els) = elements_str els.
Proof.
  intros Hf. unfold elements_str. do 2 f_equal. induction Hf as [|e els He _ IH]; [done|]. cbn [fmap list_fmap]. rewrite IH. f_equal.
  unfold lp_string, es_length. rewrite u32_id by done. by rewrite to_nat_zlen, firstn_all.
Qed.
#[export] Hint Resolve Reads_datas : codec.

#[export] Instance scard_replayable : Replayable SCardCommand.
Proof.
  apply (read_only_replayable SCardCommand (fun _ _ => True) (fun _ => True) id set_new_sound).
  - intros [] _. apply (Reads_image SCardCommand 111 [] tt); [set_solver|mach; lia|apply Reads_ret].
  - intros c obj r Hs _. by apply set_read_defined.
  - intros c obj r f' r' v. apply set_read_verdict.
Defined.

#[export] Instance smembers_replayable walk : Replayable (SMembersCommand walk).
Proof.
  apply (read_only_replayable (SMembersCommand walk) (fun _ _ => True) (fun _ => True) id set_new_sound).
  - intros [] _. apply (Reads_image (SMembersCommand walk) 109 [] tt); [set_solver|mach; lia|apply Reads_ret].
  - intros c obj r Hs _. by apply set_read_defined.
  - intros c obj r f' r' v. apply set_read_verdict.
Defined.

#[export] Instance sismember_replayable : Replayable SIsMemberCommand.
Proof.
  apply (read_only_replayable SIsMemberCommand (fun _ _ => True) es_fits own set_new_sound).
  - intros e He. apply Reads_image; [set_solver|mach; lia|by apply Reads_data].
  - intros c obj r Hs _. by apply set_read_defined.
  - intros c obj r f' r' v. apply set_read_verdict.
Defined.

#[export] Instance smismember_replayable : Replayable SMIsMemberCommand.
Proof.
  apply (read_only_replayable SMIsMemberCommand (fun _ _ => True) (fun els => Forall es_fits els /\ is_u32 (zlen els)) (fmap own) set_new_sound).
  - intros els [Hf Hn]. apply Reads_image; [set_solver|mach; lia|by apply Reads_datas].
  - intros c obj r Hs _. by apply set_read_defined.
  - intros c obj r f' r' v. apply set_read_verdict.
Defined.

(** What the draws of a command must provide on the set it meets. *)
Definition on_set (P : gset bytes -> Prop) (obj : RedisEloqObject) : Prop :=
  match as_set obj with Some o => P (set_contents o) | None => True end.

(** The walk visits every member once, and there are enough random numbers. *)
Definition draw_ok (n : Z) (d : Draw) (s : gset bytes) : Prop := set_iter (set_of s) (dr_walk d) /\ rands_ok n (dr_rands d).

Definition srandmember_ok (c : SRandMemberFields) (s : gset bytes) : Prop :=
  s <> ∅ /\ INT64_MIN < srm_count_ c <= INT64_MAX
  /\ draw_ok (if srm_count_ c <? 0 then - srm_count_ c else Z.min (srm_count_ c) (Z.of_nat (size s))) (srm_draw c) s.

#[export] Instance srandmember_replayable unset : Replayable (SRandMemberCommand unset).
Proof.
  apply (read_only_replayable (SRandMemberCommand unset) (fun c => on_set (srandmember_ok c))
    (fun c => is_i64 (srm_count_ c)) (fun c => mkSRandMember (srm_count_ c) unset no_draw) set_new_sound).
  - intros c Hn. apply Reads_image; [set_solver|mach; lia|]. cbn [Deserialize SRandMemberCommand] in *. by reads.
  - intros c obj r Hs Hok. apply set_read_defined; [done|]. intros s Ho Hsm. unfold on_set in Hok. rewrite Ho, set_contents_of in Hok.
    destruct Hok as (Hne & Hc & Hw & Hr). cbn zeta.
    destruct (Execute_SRandMember_of s _ (dr_bucket_count (srm_draw c)) _ _ r (proj1 Hsm) Hw Hne (set_small_size s Hsm) Hc Hr)
      as (picked & _ & _ & ->). done.
  - intros c obj r f' r' v. apply set_read_verdict.
Defined.

(** ** The writers as the engine sees them *)

Lemma set_image_len_add s l : set_image_len (add_all s l) <= set_image_len s + zsum elem_len l.
Proof.
  revert s. induction l as [|k l IH]; intros s.
  { unfold add_all. cbn. rewrite union_empty_l_L. lia. }
  rewrite add_all_cons. cbn [zsum]. specialize (IH ({[k]} ∪ s)). destruct (decide (k ∈ s)) as [Hin|Hin].
  - replace ({[k]} ∪ s) with s in * by set_solver. pose proof (elem_len_nonneg k). lia.
  - rewrite set_image_len_insert in IH by done. lia.
Qed.

Lemma set_image_len_remove s l : set_image_len (remove_all s l) <= set_image_len s.
Proof.
  revert s. induction l as [|k l IH]; intros s.
  { unfold remove_all. cbn. by rewrite difference_empty_L. }
  rewrite remove_all_cons. specialize (IH (s ∖ {[k]})). destruct (decide (k ∈ s)) as [Hin|Hin].
  - rewrite set_image_len_delete in IH by done. pose proof (elem_len_nonneg k). lia.
  - replace (s ∖ {[k]}) with s in * by set_solver. lia.
Qed.

Lemma remove_small s l : set_small s -> set_small (remove_all s l).
Proof. intros [Hf Hl]. split; [by apply set_fits_remove|]. pose proof (set_image_len_remove s l). lia. Qed.

(** Members of a command: at most 2^31 of them, of less than 2^32 bytes. *)
Definition members_ok (els : list EloqString) : Prop := Forall es_fits els /\ zlen els <= INT32_MAX.

Lemma members_len els : Forall es_fits els -> zsum elem_len (es_view <$> els) <= zlen els * (2 ^ 32 + 4).
Proof.
  induction 1 as [|e els He _ IH]; [done|]. rewrite zlen_cons. cbn [fmap list_fmap zsum] in *. unfold elem_len at 1.
  unfold es_fits, fits in He. mach. lia.
Qed.

(** The size a store command adds up. *)
Lemma store_len_of els : members_ok els ->
  foldl (fun len str => u64 (len + (8 + es_length str))) 0 els = zsum elem_len (es_view <$> els) + 4 * zlen els.
Proof.
  intros [Hf Hl]. assert (forall n, 0 <= n -> n + zlen els <= INT32_MAX + 0 -> forall len, 0 <= len <= n * (2 ^ 32 + 8) ->
    foldl (fun len str => u64 (len + (8 + es_length str))) len els = len + zsum elem_len (es_view <$> els) + 4 * zlen els) as H;
    [|rewrite (H 0); lia].
  clear Hl. induction Hf as [|e els He _ IH]; intros n Hn Hl len Hlen; [cbn [foldl fmap list_fmap zsum]; unfold zlen; cbn [length]; lia|].
  cbn [foldl fmap list_fmap zsum] in *. rewrite zlen_cons in *. rewrite es_length_fits by done. pose proof (zlen_nonneg els).
  assert (0 <= zlen (es_view e) < 2 ^ 32) by (unfold es_fits, fits in He; mach; lia).
  rewrite u64_id by (mach; lia). rewrite (IH (n + 1)) by lia. unfold elem_len at 2. lia.
Qed.

(** Plain SADD is given distinct members by its parser.  The test of a store
    command lets pass one size that is over the limit. *)
Definition sadd_ok (c : SAddFields) : Prop :=
  members_ok (sa_vct_paras_ c)
  /\ if sa_force_remove_add_ c then image_len (es_view <$> sa_vct_paras_ c) <> MAX_OBJECT_SIZE + 1
     else NoDup (es_view <$> sa_vct_paras_ c).

Definition sadd_reread (c : SAddFields) : SAddFields := mkSAdd (own <$> sa_vct_paras_ c) (sa_force_remove_add_ c) false.

Lemma CommitSAdd_reread s els keep : Forall es_fits els -> CommitSAdd (set_of s) (own <$> els) false = CommitSAdd (set_of s) els keep.
Proof. intros Hf. rewrite !CommitSAdd_of by (done || by apply owns_fit). by rewrite views_own. Qed.

Lemma add_all_nonempty s k l : add_all s (k :: l) <> ∅.
Proof. unfold add_all. set_solver. Qed.

Lemma set_image_len_empty : set_image_len ∅ = 5.
Proof. unfold set_image_len. by rewrite elements_empty. Qed.

(** A store command that passes its test leaves a sound set. *)
Lemma store_small els : members_ok els -> image_len (es_view <$> els) <> MAX_OBJECT_SIZE + 1 ->
  foldl (fun len str => u64 (len + (8 + es_length str))) 0 els <= MAX_OBJECT_SIZE -> set_small (add_all ∅ (es_view <$> els)).
Proof.
  intros Hok Hne. rewrite store_len_of by done. intros Hl. destruct Hok as [Hf _].
  split; [apply set_fits_add; [set_solver|by apply es_fits_views]|].
  pose proof (set_image_len_add ∅ (es_view <$> els)) as H. rewrite set_image_len_empty in H. unfold image_len in Hne.
  destruct els as [|e [|e' els]]; [cbn in *; unfold MAX_OBJECT_SIZE; lia| |]; rewrite ?zlen_cons in *; cbn [fmap list_fmap zsum] in *.
  - unfold zlen in *; cbn [length] in *. lia.
  - pose proof (zlen_nonneg els). lia.
Qed.

#[export] Instance sadd_replayable : Replayable SAddCommand.
Proof.
  refine {| exec_ok := (fun c _ => sadd_ok c) : cc_fields SAddCommand -> _;
            image_ok := (fun c => members_ok (sa_vct_paras_ c)) : cc_fields SAddCommand -> _; reread := sadd_reread : cc_fields SAddCommand -> _ |}.
  - apply set_new_sound.
  - intros [els force mid] [Hf Hl]. cbn [sa_vct_paras_] in *. apply Reads_image; [set_solver|mach; lia|].
    cbn [Deserialize SAddCommand sa_force_remove_add_ sa_vct_paras_]. eapply Reads_bind; [apply Reads_u8; mach; destruct force; lia|].
    eapply Reads_bind_ret; [apply Reads_datas; [done|]; pose proof (zlen_nonneg els); mach; lia|]. by destruct force.
  - intros [els force mid] obj r _ _. cbn. unfold SAdd_ExecuteOn. destruct force; cbn; [by case_match|].
    destruct (as_set obj); [|done]. by destruct (Execute_SAdd _ _ _).
  - intros [els force mid] obj r f' r' v Hs [[Hf Hl] Hc] HE Hv. cbn [ExecuteOn CommitOn SAddCommand sa_vct_paras_ sa_force_remove_add_] in *.
    unfold SAdd_ExecuteOn, SAdd_CommitOn in *. cbn [sa_vct_paras_ sa_force_remove_add_ sa_is_in_the_middle_stage_] in *. destruct force.
    + destruct (Z.ltb_spec MAX_OBJECT_SIZE (foldl (fun len str => u64 (len + (8 + es_length str))) 0 els)) as [Hbig|Hbig];
        [simplify_eq; by destruct Hv|]. injection HE as <- <- <-. cbn [sa_vct_paras_ sa_force_remove_add_ sa_is_in_the_middle_stage_ sadd_reread].
      pose proof (store_small els (conj Hf Hl) Hc Hbig) as Hsm. destruct els as [|e els]; [by exists None|].
      rewrite set_new_of. cbn [fmap list_fmap]. change (own e :: _) with (own <$> (e :: els)).
      rewrite (CommitSAdd_reread ∅ (e :: els) mid) by done. rewrite CommitSAdd_of by done. unfold null_if_empty.
      pose proof (add_all_nonempty ∅ (es_view e) (es_view <$> els)) as Hne.
      rewrite bool_decide_false by exact Hne. eexists. split; [reflexivity|]. split; [reflexivity|]. split; [done|].
      split; [|done]. split; [split; [by apply set_of_sound|done]|]. cbn [inhabited option_map]. by rewrite set_contents_of.
    + destruct (as_set obj) as [o|] eqn:Ho; [|simplify_eq; by destruct Hv].
      destruct (commit_set_lens obj o Hs Ho) as (s & mk & -> & [Hfs Hsm] & Hmk & Hok).
      pose proof (set_image_len_add s (es_view <$> els)) as Hadd. pose proof (members_len els Hf).
      rewrite Execute_SAdd_of in HE by (done || (unfold MAX_OBJECT_SIZE in *; mach; lia)).
      case_decide as Hd; [simplify_eq; by destruct Hv|]. injection HE as <- <- <-. rewrite !Hmk.
      cbn [sa_vct_paras_ sa_is_in_the_middle_stage_ sadd_reread]. rewrite (CommitSAdd_reread s els mid) by done. rewrite CommitSAdd_of by done.
      eexists. split; [reflexivity|]. split; [reflexivity|]. split; [done|]. unfold null_if_empty.
      destruct (Z.ltb_spec 0 (Z.of_nat (size (add_all s (es_view <$> els))) - Z.of_nat (size s))) as [Hn|Hn]; [|by destruct Hv].
      rewrite bool_decide_false by (intros E; rewrite E, size_empty in Hn; lia).
      split; [|done]. apply Hok; [|intros E; rewrite E, size_empty in Hn; lia].
      split; [apply set_fits_add; [done|by apply es_fits_views]|lia].
Defined.

#[export] Instance srem_replayable : Replayable SRemCommand.
Proof.
  refine {| exec_ok := (fun els _ => members_ok els /\ NoDup (es_view <$> els)) : cc_fields SRemCommand -> _;
            image_ok := members_ok : cc_fields SRemCommand -> _; reread := fmap own : cc_fields SRemCommand -> _ |}.
  - apply set_new_sound.
  - intros els [Hf Hl]. apply Reads_image; [set_solver|mach; lia|]. apply Reads_datas; [done|]. pose proof (zlen_nonneg els). mach. lia.
  - intros els obj r _ _. cbn. destruct (as_set obj); [|done]. by case_match.
  - intros els obj r f' r' v Hs [[Hf Hl] Hnd] HE Hv. cbn [ExecuteOn CommitOn SRemCommand] in *.
    destruct (as_set obj) as [o|] eqn:Ho; [|simplify_eq; by destruct Hv].
    destruct (commit_set_lens obj o Hs Ho) as (s & mk & -> & Hsm & Hmk & Hok).
    rewrite Execute_SRem_of in HE by done. injection HE as <- <- <-. rewrite !Hmk, !CommitSRem_of by (done || by apply owns_fit).
    rewrite views_own. eexists. split; [reflexivity|]. split; [reflexivity|]. split; [done|]. unfold null_if_empty.
    case_bool_decide as Hemp; [by split|]. split; [by apply Hok; [apply remove_small|]|].
    case_decide; [by destruct Hv|]. by rewrite decide_False.
Defined.

(** The members an earlier execution has left in the result are given up: the
    list is cut or padded to the size of the draw before it is filled. *)
Definition spop_ok (c : SPopFields) (s : gset bytes) : Prop :=
  -1 <= sp_count_ c <= INT64_MAX /\ draw_ok (spop_count (sp_count_ c) s) (sp_draw c) s.

Lemma spop_members s n popped : set_small s -> sample s n popped -> NoDup popped ->
  members_ok (es_own <$> popped) /\ (n = Z.of_nat (size s) -> remove_all s (es_view <$> (es_own <$> popped)) = ∅).
Proof.
  intros Hsm [Hn Hin] Hnd. assert (es_view <$> (es_own <$> popped) = popped) as -> by (rewrite <- list_fmap_compose; apply list_fmap_id).
  pose proof (size_remove_all s popped Hnd Hin) as Hsz. pose proof (set_small_size s Hsm). split.
  - split; [|unfold zlen in *; rewrite length_fmap; lia]. rewrite Forall_fmap, list.Forall_forall. intros k Hk. by apply (proj1 Hsm), Hin.
  - intros E. apply empty_size. lia.
Qed.

(** What SPOP decides on a sound object. *)
Lemma spop_decided c obj o r : sound obj -> on_set (spop_ok c) obj -> as_set obj = Some o ->
  exists s popped err, o = set_of s /\ set_small s /\ members_ok (es_own <$> popped)
  /\ (spop_count (sp_count_ c) s = Z.of_nat (size s) -> remove_all s (es_view <$> (es_own <$> popped)) = ∅)
  /\ ExecuteOn SPopCommand c obj r
     = Some (mkSPop (sp_count_ c) (es_own <$> popped) (sp_draw c), ss_set_list (es_own <$> popped) (ss_set_err err (ss_set_list (sp_string_list_ c) r)),
             write_delete_or_fail (if decide (spop_count (sp_count_ c) s = 0) then NoChange
                                   else if decide (spop_count (sp_count_ c) s = Z.of_nat (size s)) then ModifiedToEmpty else Modified)).
Proof.
  intros Hs Hok Ho. unfold on_set in Hok. rewrite Ho in Hok. cbn [ExecuteOn SPopCommand]. rewrite Ho.
  destruct (commit_set_lens obj o Hs Ho) as (s & _ & -> & Hsm & _). rewrite set_contents_of in Hok. destruct Hok as (Hc & Hw & Hr).
  destruct (Execute_SPop_of s _ (dr_bucket_count (sp_draw c)) _ _ (ss_set_list (sp_string_list_ c) r) (proj1 Hsm) Hw
    (set_small_size s Hsm) (proj1 Hc) Hr) as (popped & err & Hsam & Hnd & HE & _).
  destruct (spop_members s _ popped Hsm Hsam Hnd) as [Hm He]. exists s, popped, err. rewrite HE. done.
Qed.

#[export] Instance spop_replayable : Replayable SPopCommand.
Proof.
  refine {| exec_ok := (fun c obj => -1 <= sp_count_ c <= INT64_MAX /\ on_set (spop_ok c) obj) : cc_fields SPopCommand -> _;
            image_ok := (fun c => is_i64 (sp_count_ c) /\ members_ok (sp_string_list_ c)) : cc_fields SPopCommand -> _;
            reread := (fun c => mkSPop (sp_count_ c) (own <$> sp_string_list_ c) no_draw) : cc_fields SPopCommand -> _ |}.
  - apply set_new_sound.
  - intros [n els d] [Hn [Hf Hl]]. apply Reads_image; [set_solver|mach; lia|]. cbn [sp_count_ sp_string_list_] in *.
    cbn [Deserialize SPopCommand]. eapply Reads_bind; [by apply Reads_i64|]. eapply Reads_bind_ret; [|done].
    rewrite lengths_str by done. apply Reads_elements; [done|]. pose proof (zlen_nonneg els). mach. lia.
  - intros c obj r Hs [_ Hok]. destruct (as_set obj) as [o|] eqn:Ho; [|cbn; by rewrite Ho].
    by destruct (spop_decided c obj o r Hs Hok Ho) as (s & popped & err & _ & _ & _ & _ & ->).
  - intros c obj r f' r' v Hs [Hc Hok] HE Hv. destruct (as_set obj) as [o|] eqn:Ho; [|cbn in HE; rewrite Ho in HE; simplify_eq; by destruct Hv].
    destruct (spop_decided c obj o r Hs Hok Ho) as (s0 & popped & err & E0 & _ & Hm & He & HE'). rewrite HE' in HE. injection HE as <- <- <-.
    destruct (commit_set_lens obj o Hs Ho) as (s & mk & Eo & Hsm & Hmk & Hput). assert (s0 = s) as ->.
    { rewrite <- (set_contents_of s0), <- (set_contents_of s). by rewrite <- E0, <- Eo. }
    cbn [CommitOn SPopCommand sp_count_ sp_string_list_]. rewrite !Hmk, Eo. unfold CommitSPop.
    rewrite !srem_loop_of by (apply Hm || apply owns_fit, Hm). rewrite views_own, !set_empty_of.
    eexists. split; [reflexivity|]. split; [reflexivity|]. split; [split; [mach; lia|done]|]. unfold null_if_empty.
    case_bool_decide as Hemp; [by split|]. split; [by apply Hput; [apply remove_small|]|].
    case_decide; [by destruct Hv|]. case_decide as Hd; [|done]. destruct Hemp. by apply He.
Defined.

(** ** The limit of a store command *)

(** A store of one member passes the size test of the command with an image one
    byte over the limit. *)
Lemma store_one_over_limit (v : bytes) (obj : RedisEloqObject) (r : RedisHashSetResult) :
  zlen v = MAX_OBJECT_SIZE - 8 ->
  let c := mkSAdd [es_own v] true false in
  (exists r', ExecuteOn SAddCommand c obj r = Some (c, r', ExecWrite))
  /\ CommitOn SAddCommand c obj = Some (Some (ObjSet (set_of {[v]})))
  /\ set_image_len {[v]} = MAX_OBJECT_SIZE + 1.
Proof.
  intros Hv c. assert (es_fits (es_own v)) as Hf by (unfold es_fits, fits; cbn; rewrite Hv; concrete).
  assert (add_all ∅ [v] = {[v]}) as Ha by (unfold add_all; set_solver).
  split; [|split].
  - eexists. cbn [ExecuteOn SAddCommand]. unfold SAdd_ExecuteOn. cbn [sa_force_remove_add_ sa_vct_paras_ c foldl].
    rewrite es_length_fits by done. cbn [es_view es_own]. rewrite Hv. reflexivity.
  - cbn [CommitOn SAddCommand]. unfold SAdd_CommitOn. cbn [sa_force_remove_add_ sa_vct_paras_ sa_is_in_the_middle_stage_ c].
    rewrite set_new_of, CommitSAdd_of by by constructor. cbn [fmap list_fmap es_view es_own]. rewrite Ha.
    unfold null_if_empty. by rewrite bool_decide_false by set_solver.
  - rewrite <- (union_empty_r_L {[v]}), set_image_len_insert by set_solver. rewrite set_image_len_empty. unfold elem_len. rewrite Hv. concrete.
Qed.
