(* ===== verification/CommandParse.v ===== *)
(** * Parsing string and expiry commands

    The [Parsing...Command] functions of src/redis_command.cpp for the commands of
    the files StringCommand and KeyCommand, from the arguments of the client to
    the fields of the command or the error that is replied.  The clock is an
    argument.  The properties say that what a parser accepts is what the engine
    may run, that options mean what they say, and where they do not. *)

From S2P Require Import Prelude Codec EloqString RedisTypes Encoding StringNum StringMatch ListObject StringObject ZsetObject RedisObject TxCommand KeyCommand StringCommand.

Set Warnings "-clear-no-such-hyp".

(** ** The outcome of a parser *)

(** An accepted command; an error that was sent; or an argument was read that is
    not there, or a signed number overflowed. *)
Inductive Parsing (A : Type) :=
| Parsed (a : A)
| Refused (e : ReplyEvent)
| Undefined.
Arguments Parsed {A} a.
Arguments Refused {A} e.
Arguments Undefined {A}.

#[export] Instance parse_bind : MBind Parsing := fun A B f p =>
  match p with Parsed a => f a | Refused e => Refused e | Undefined => Undefined end.

(** [output->OnError("...")]. *)
Definition err (s : bytes) : ReplyEvent := OnErrorText s.

(** [string2ll], or the error. *)
Definition parse_ll (arg : bytes) (e : ReplyEvent) : Parsing Z :=
  match string2ll arg with Some n => Parsed n | None => Refused e end.

(** [if (args.size() != n)] for a command with no more arguments than its key. *)
Definition parse_key {A : Type} (args : list bytes) (e : ReplyEvent) (a : A) : Parsing (bytes * A) :=
  match args with [_; key] => Parsed (key, a) | _ => Refused e end.

Section Clock.

(** [ClockTsInMillseconds()]. *)
Context (now : Z).

(** ** Expiries *)

Definition in_ms (n : Z) (e : ReplyEvent) : Parsing Z :=
  if will_multiplication_overflow n 1000 then Refused e else Parsed (n * 1000).

(** The sum of [uint64_t] and [int64_t] is unsigned, and never below zero. *)
Definition from_now (n : Z) (e : ReplyEvent) : Parsing Z :=
  if will_addition_overflow (i64 now) n then Refused e
  else Parsed (let sum := u64 (now + n) in if sum <? 0 then 0 else sum).

(** [expire_ts_tmp < 0 ? 0 : expire_ts_tmp]. *)
Definition at_least_now (n : Z) : Z := if n <? 0 then 0 else n.

(** ** EXPIRE, PEXPIRE, EXPIREAT and PEXPIREAT *)

Definition expire_option (arg : bytes) : Parsing Z :=
  if stringcomp arg (lit "nx") true then Parsed EXPIRE_NX
  else if stringcomp arg (lit "xx") true then Parsed EXPIRE_XX
  else if stringcomp arg (lit "gt") true then Parsed EXPIRE_GT
  else if stringcomp arg (lit "lt") true then Parsed EXPIRE_LT
  else Refused (err (lit "ERR Unsupported option " ++ arg)).

Definition expire_time (arg : bytes) (is_pexpire is_expireat : bool) : Parsing Z :=
  expire_ts_tmp ← parse_ll arg (err (lit "not an integer"));
  if is_expireat then
    expire_ts_tmp ← (if is_pexpire then Parsed expire_ts_tmp
                     else in_ms expire_ts_tmp (err (lit "ERR invalid expire time in 'pexpire' command")));
    Parsed (at_least_now expire_ts_tmp)
  else
    expire_ts_tmp ← (if is_pexpire then Parsed expire_ts_tmp
                     else in_ms expire_ts_tmp (err (lit "ERR invalid expire time in 'expire' command")));
    from_now expire_ts_tmp (err (lit "ERR invalid expire time in '" ++ lit (if is_pexpire then "pexpire" else "expire") ++ lit "' command")).

Definition ParseExpireCommand (args : list bytes) (is_pexpire is_expireat : bool) : Parsing (bytes * ExpireFields) :=
  match args with
  | _ :: key :: arg :: opts =>
      if (2 <? length opts)%nat then Refused (err (lit "Wrong number of arguments for 'expire' command"))
      else
        expire_ts ← expire_time arg is_pexpire is_expireat;
        f1 ← match opts with [] => Parsed 0 | o :: _ => expire_option o end;
        f2 ← match opts with [_; o] => expire_option o | _ => Parsed 0 end;
        let flags := Z.lor f1 f2 in
        let has f := has_flag f flags in
        if has EXPIRE_LT && has EXPIRE_GT then Refused (err (lit "ERR GT and LT options at the same time are not compatible"))
        else if (has EXPIRE_NX && has EXPIRE_GT) || (has EXPIRE_NX && has EXPIRE_LT) || (has EXPIRE_NX && has EXPIRE_XX)
        then Refused (err (lit "ERR NX and XX, GT or LT options at the same time are not compatible"))
        else Parsed (key, mkExpire expire_ts flags None)
  | _ => Refused (err (lit "Wrong number of arguments for 'expire' command"))
  end.

(** ** GETEX *)

(** Two spellings of an option. *)
Definition spelled (arg lower upper : bytes) : bool := bool_decide (arg = lower) || bool_decide (arg = upper).

(** The unit and whether the number is a point in time. *)
Definition getex_option (arg : bytes) : Parsing (bool * bool) :=
  if spelled arg (lit "ex") (lit "EX") then Parsed (false, false)
  else if spelled arg (lit "px") (lit "PX") then Parsed (true, false)
  else if spelled arg (lit "exat") (lit "EXAT") then Parsed (false, true)
  else if spelled arg (lit "pxat") (lit "PXAT") then Parsed (true, true)
  else Refused (err (lit "wrong argument of " ++ arg ++ lit " for 'getex' command")).

Definition ParseGetExCommand (args : list bytes) : Parsing (bytes * GetExFields) :=
  let invalid := err (lit "ERR invalid expire time in 'getex' command") in
  match args with
  | [_; key] => Parsed (key, mkGetEx UINT64_MAX false None)
  | [_; key; opt] =>
      if spelled opt (lit "persist") (lit "PERSIST") then Parsed (key, mkGetEx UINT64_MAX true None)
      else Refused (err (lit "wrong argument of " ++ opt ++ lit " for 'getex' command"))
  | [_; key; opt; arg] =>
      '(is_px, is_at) ← getex_option opt;
      expire_ts_tmp ← parse_ll arg invalid;
      expire_ts_tmp ← (if is_px : bool then Parsed expire_ts_tmp else in_ms expire_ts_tmp invalid);
      expire_ts ← (if is_at : bool then Parsed (u64 expire_ts_tmp) else from_now expire_ts_tmp invalid);
      Parsed (key, mkGetEx expire_ts false None)
  | _ => Refused (err (lit "Wrong number of arguments for 'getex' command"))
  end.

(** ** SET, SETNX, GETSET, SETEX and PSETEX *)

Definition ParseSetNx (args : list bytes) : Parsing (bytes * SetFields) :=
  match args with
  | [_; key; value] => Parsed (key, mkSetCmd (es_of_view value) (Z.lor OBJ_SET_SETNX OBJ_SET_NX) UINT64_MAX)
  | _ => Refused (err (lit "ERR wrong number of arguments for 'setnx' command"))
  end.

Definition ParseGetSet (args : list bytes) : Parsing (bytes * SetFields) :=
  match args with
  | [_; key; value] => Parsed (key, mkSetCmd (es_of_view value) OBJ_GET_SET UINT64_MAX)
  | _ => Refused (err (lit "ERR wrong number of arguments for 'getset' command"))
  end.

Definition ParseSetEx (args : list bytes) : Parsing (bytes * SetFields) :=
  let invalid := err (lit "ERR invalid expire time in 'setex' command") in
  match args with
  | [_; key; arg; value] =>
      expire_ts_tmp ← parse_ll arg invalid;
      if expire_ts_tmp <? 0 then Refused (err (lit "invalid expire"))
      else
        expire_ts_tmp ← in_ms expire_ts_tmp invalid;
        expire_ts ← from_now expire_ts_tmp invalid;
        Parsed (key, mkSetCmd (es_of_view value) OBJ_SET_EX expire_ts)
  | _ => Refused (err (lit "ERR wrong number of arguments for 'setex' command"))
  end.

Definition ParsePSetEx (args : list bytes) : Parsing (bytes * SetFields) :=
  match args with
  | [_; key; arg; value] =>
      expire_ts_tmp ← parse_ll arg (OnError RD_ERR_DIGITAL_INVALID);
      expire_ts ← from_now expire_ts_tmp (err (lit "ERR invalid expire time in 'psetex' command"));
      Parsed (key, mkSetCmd (es_of_view value) OBJ_SET_EX expire_ts)
  | _ => Refused (err (lit "ERR wrong number of arguments for 'psetex' command"))
  end.

(** Two characters, each in either case. *)
Definition letters (arg upper lower : bytes) : bool :=
  match arg, upper, lower with
  | [x; y], [ux; uy], [lx; ly] => (bool_decide (x = ux) || bool_decide (x = lx)) && (bool_decide (y = uy) || bool_decide (y = ly))
  | _, _, _ => false
  end.

(** [args[i].length() == n && stringcomp("...", args[i], 1)]. *)
Definition option_is (name arg : bytes) : bool := (zlen arg =? zlen name) && stringcomp name arg true.

(** The loop over the options.  An expiry takes the next argument without asking
    whether there is one; KEEPTTL steps over the next argument too. *)
Fixpoint set_options (args : list bytes) (flag expire_ts : Z) : Parsing (Z * Z) :=
  match args with
  | [] => Parsed (flag, expire_ts)
  | arg :: rest =>
      if letters arg (lit "NX") (lit "nx") && negb (has_flag OBJ_SET_XX flag) then set_options rest (Z.lor flag OBJ_SET_NX) expire_ts
      else if letters arg (lit "XX") (lit "xx") && negb (has_flag OBJ_SET_NX flag) then set_options rest (Z.lor flag OBJ_SET_XX) expire_ts
      else if option_is (lit "get") arg then set_options rest (Z.lor flag OBJ_GET_SET) expire_ts
      else if option_is (lit "px") arg then
        match rest with
        | [] => Undefined
        | num :: rest =>
            expire_ts_tmp ← parse_ll num (OnError RD_ERR_DIGITAL_INVALID);
            expire_ts ← from_now expire_ts_tmp (err (lit "ERR invalid expire time in 'psetex' command"));
            set_options rest (Z.lor flag OBJ_SET_EX) expire_ts
        end
      else if option_is (lit "ex") arg then
        match rest with
        | [] => Undefined
        | num :: rest =>
            expire_ts_tmp ← parse_ll num (err (lit " ERR invalid expire time in 'set' command"));
            expire_ts_tmp ← in_ms expire_ts_tmp (err (lit "ERR invalid expire time in 'set' command"));
            expire_ts ← from_now expire_ts_tmp (err (lit "ERR invalid expire time in 'set' command"));
            set_options rest (Z.lor flag OBJ_SET_EX) expire_ts
        end
      else if option_is (lit "exat") arg then
        match rest with
        | [] => Undefined
        | num :: rest =>
            expire_ts_tmp ← parse_ll num (err (lit " ERR invalid expire time in 'set' command"));
            expire_ts_tmp ← in_ms expire_ts_tmp (err (lit "ERR invalid expire time in 'set' command"));
            set_options rest (Z.lor flag OBJ_SET_EX) (at_least_now expire_ts_tmp)
        end
      else if option_is (lit "pxat") arg then
        match rest with
        | [] => Undefined
        | num :: rest =>
            expire_ts_tmp ← parse_ll num (err (lit " ERR invalid expire time in 'set' command"));
            set_options rest (Z.lor flag OBJ_SET_EX) (at_least_now expire_ts_tmp)
        end
      else if option_is (lit "keepttl") arg then
        match rest with
        | [] => Parsed (Z.lor flag OBJ_SET_KEEPTTL, expire_ts)
        | _ :: rest => set_options rest (Z.lor flag OBJ_SET_KEEPTTL) expire_ts
        end
      else Refused (OnError RD_ERR_SYNTAX)
  end.

Definition ParseSetCommand (args : list bytes) : Parsing (bytes * SetFields) :=
  let is_name name := match args with arg :: _ => bool_decide (arg = name) | [] => false end in
  if is_name (lit "setnx") then ParseSetNx args
  else if is_name (lit "getset") then ParseGetSet args
  else if is_name (lit "setex") then ParseSetEx args
  else if is_name (lit "psetex") then ParsePSetEx args
  else match args with
       | _ :: key :: value :: opts =>
           '(flag, expire_ts) ← set_options opts 0 UINT64_MAX;
           Parsed (key, mkSetCmd (es_of_view value) flag expire_ts)
       | _ => Refused (err (lit "ERR wrong number of args for 'set' command"))
       end.

End Clock.

(** ** Commands with positional arguments *)

Definition ParseGetCommand (args : list bytes) : Parsing (bytes * unit) :=
  parse_key args (err (lit "ERR wrong number of args for 'get' command")) tt.

Definition ParseGetDelCommand (args : list bytes) : Parsing (bytes * unit) :=
  parse_key args (err (lit "ERR wrong number of args for 'getdel' command")) tt.

Definition ParseStrLenCommand (args : list bytes) : Parsing (bytes * unit) :=
  parse_key args (err (lit "ERR wrong number of arguments for 'strlen' command")) tt.

Definition ParseGetBitCommand (args : list bytes) : Parsing (bytes * Z) :=
  match args with
  | [_; key; arg] =>
      let e := err (lit "ERR bit offset is not an integer or out of range") in
      offset ← parse_ll arg e;
      if (offset <? 0) || (4 * 1024 * 1024 * 1024 <=? offset) then Refused e else Parsed (key, offset)
  | _ => Refused (err (lit "ERR wrong number of arguments for 'getbit' command"))
  end.

(** GETRANGE, and SUBSTR under its own name. *)
Definition parse_range (args : list bytes) (e : ReplyEvent) : Parsing (bytes * (Z * Z)) :=
  match args with
  | [_; key; a; b] =>
      start ← parse_ll a (OnError RD_ERR_DIGITAL_INVALID);
      stop ← parse_ll b (OnError RD_ERR_DIGITAL_INVALID);
      Parsed (key, (start, stop))
  | _ => Refused e
  end.

Definition ParseGetRangeCommand (args : list bytes) : Parsing (bytes * (Z * Z)) :=
  parse_range args (err (lit "ERR wrong number of arguments for 'getrange' command")).

Definition ParseSubStrCommand (args : list bytes) : Parsing (bytes * (Z * Z)) :=
  parse_range args (err (lit "ERR wrong number of arguments for 'substr' command")).

Definition ParseSetBitCommand (args : list bytes) : Parsing (bytes * (Z * Z)) :=
  match args with
  | [_; key; arg; bit] =>
      let e := err (lit "ERR bit offset is not an integer or out of range") in
      offset ← parse_ll arg e;
      if (offset <? 0) || (MAX_OBJECT_SIZE * 8 <=? u64 offset) then Refused e
      else if bool_decide (bit = lit "1") then Parsed (key, (offset, 1))
      else if bool_decide (bit = lit "0") then Parsed (key, (offset, 0))
      else Refused e
  | _ => Refused (err (lit "ERR wrong number of arguments for 'setbit' command"))
  end.

(** [offset + args[3].size()] is unsigned. *)
Definition ParseSetRangeCommand (args : list bytes) : Parsing (bytes * (Z * EloqString)) :=
  match args with
  | [_; key; arg; value] =>
      offset ← parse_ll arg (OnError RD_ERR_DIGITAL_INVALID);
      if offset <? 0 then Refused (err (lit "ERR offset is out of range"))
      else if MAX_OBJECT_SIZE <? u64 (offset + zlen value)
      then Refused (err (lit "ERR string exceeds maximum allowed size (MAX_OBJECT_SIZE)"))
      else Parsed (key, (offset, es_of_view value))
  | _ => Refused (err (lit "ERR wrong number of arguments for 'setrange' command"))
  end.

Definition bitcount_type (opts : list bytes) : Parsing bool :=
  match opts with
  | [] => Parsed false
  | arg :: _ =>
      if stringcomp arg (lit "bit") true then Parsed true
      else if stringcomp arg (lit "byte") true then Parsed false
      else Refused (OnError RD_ERR_SYNTAX)
  end.

Definition ParseBitCountCommand (args : list bytes) : Parsing (bytes * (Z * Z * bool)) :=
  match args with
  | [_; key] => Parsed (key, (0, INT64_MAX, false))
  | _ :: key :: a :: b :: opts =>
      if (1 <? length opts)%nat then Refused (OnError RD_ERR_SYNTAX)
      else
        start_offset ← parse_ll a (OnError RD_ERR_DIGITAL_INVALID);
        end_offset ← parse_ll b (OnError RD_ERR_DIGITAL_INVALID);
        by_bit ← bitcount_type opts;
        Parsed (key, (start_offset, end_offset, by_bit))
  | _ :: _ :: _ => Refused (OnError RD_ERR_SYNTAX)
  | _ => Refused (err (lit "ERR wrong number of arguments for 'bitcount' command"))
  end.

Definition ParseAppendCommand (args : list bytes) : Parsing (bytes * EloqString) :=
  match args with
  | [_; key; value] => Parsed (key, es_of_view value)
  | _ => Refused (err (lit "ERR wrong number of arguments for 'append' command"))
  end.

(** The byte offsets become bit offsets in 64 bits. *)
Definition ParseBitPosCommand (args : list bytes) : Parsing (bytes * (Z * Z * Z)) :=
  match args with
  | _ :: key :: bit :: opts =>
      if (3 <? length opts)%nat then Refused (err (lit "ERR syntax error"))
      else
        let e := err (lit "ERR value is not an integer or out of range") in
        bit_val ← parse_ll bit e;
        if negb (bit_val =? 0) && negb (bit_val =? 1) then Refused (err (lit "ERR The bit argument must be 1 or 0."))
        else
          start ← match opts with a :: _ => parse_ll a e | _ => Parsed 0 end;
          stop ← match opts with _ :: b :: _ => parse_ll b e | _ => Parsed INT64_MAX end;
          is_byte ← match opts with
                    | [_; _; unit] =>
                        if stringcomp unit (lit "bit") true then Parsed false
                        else if negb (stringcomp unit (lit "byte") true) then Refused (err (lit "ERR syntax error"))
                        else Parsed true
                    | _ => Parsed true
                    end;
          if is_byte : bool
          then Parsed (key, (bit_val, i64 (Z.shiftl start 3), if negb (stop =? INT64_MAX) then i64 (i64 (Z.shiftl stop 3) + 7) else stop))
          else Parsed (key, (bit_val, start, stop))
  | _ => Refused (err (lit "ERR wrong number of arguments for 'bitpos' command"))
  end.

Definition ParseIncrCommand (args : list bytes) : Parsing (bytes * Z) :=
  parse_key args (err (lit "ERR wrong number of arguments for 'incr' command")) 1.

Definition ParseDecrCommand (args : list bytes) : Parsing (bytes * Z) :=
  parse_key args (err (lit "ERR wrong number of arguments for 'decr' command")) (-1).

Definition ParseIncrByCommand (args : list bytes) : Parsing (bytes * Z) :=
  match args with
  | [_; key; arg] => incr ← parse_ll arg (OnError RD_ERR_DIGITAL_INVALID); Parsed (key, incr)
  | _ => Refused (err (lit "ERR wrong number of arguments for 'incrby' command"))
  end.

(** The number is negated, which the least one does not survive. *)
Definition ParseDecrByCommand (args : list bytes) : Parsing (bytes * Z) :=
  match args with
  | [_; key; arg] =>
      decr ← parse_ll arg (OnError RD_ERR_DIGITAL_INVALID);
      if decr =? INT64_MIN then Undefined else Parsed (key, - decr)
  | _ => Refused (err (lit "ERR wrong number of arguments for 'decrby' command"))
  end.

(** ** BITFIELD and BITFIELD_RO *)

Definition bitfield_overflow (arg : bytes) : Parsing BitFieldOverflow :=
  if stringcomp arg (lit "wrap") true then Parsed BF_WRAP
  else if stringcomp arg (lit "sat") true then Parsed BF_SAT
  else if stringcomp arg (lit "fail") true then Parsed BF_FAIL
  else Refused (err (lit "ERR Invalid OVERFLOW type specified")).

(** The sign and the width of a field.  The first character of an argument without
    one is read past its end. *)
Definition bitfield_type (arg : bytes) : Parsing (bool * Z) :=
  let e := err (lit "ERR Invalid bitfield type. Use something like i16 u8. Note that u64 is not supported but i64 is.") in
  match arg with
  | [] => Undefined
  | c :: digits =>
      encoding_i ← (if bool_decide (c ∈ lit "Uu") then Parsed false else if bool_decide (c ∈ lit "Ii") then Parsed true else Refused e);
      num ← parse_ll digits e;
      if (num <=? 0) || (64 <? num) || ((64 <=? num) && negb encoding_i) then Refused e else Parsed (encoding_i, num)
  end.

Definition UINT32_MAX : Z := 2 ^ 32 - 1.

(** The offset in bits, or with a hash mark in fields.  It is not asked whether
    the number is negative. *)
Definition bitfield_offset (arg : bytes) (bits : Z) : Parsing Z :=
  let e := err (lit "ERR bit offset is not an integer or out of range") in
  match arg with
  | [] => Undefined
  | c :: digits =>
      if bool_decide ([c] = lit "#") then
        num ← parse_ll digits e;
        if Z.shiftr UINT32_MAX 3 <=? num then Refused e
        else if (INT64_MIN <=? num * bits) && (num * bits <=? INT64_MAX) then Parsed (num * bits) else Undefined
      else num ← parse_ll arg e; if UINT32_MAX <=? num then Refused e else Parsed num
  end.

Section Uninitialized.

(** [value_] of a GET is never assigned. *)
Context (garbage : Z).

Definition syntax_error : ReplyEvent := err (lit "ERR syntax error").

(** The loop, with the policy that the last OVERFLOW set. *)
Fixpoint bitfield_loop (args : list bytes) (ovf : BitFieldOverflow) : Parsing (list BitFieldSubCommand) :=
  let get ovf rest :=
    match rest with
    | type :: off :: rest =>
        '(sgn, bits) ← bitfield_type type;
        offset ← bitfield_offset off bits;
        vct ← bitfield_loop rest ovf;
        Parsed (mkSub BF_GET sgn bits ovf offset garbage :: vct)
    | _ => Refused syntax_error
    end in
  let update op ovf rest :=
    match rest with
    | type :: off :: num :: rest =>
        '(sgn, bits) ← bitfield_type type;
        offset ← bitfield_offset off bits;
        value ← parse_ll num (err (lit "ERR bit offset is not an integer or out of range"));
        vct ← bitfield_loop rest ovf;
        Parsed (mkSub op sgn bits ovf offset value :: vct)
    | _ => Refused syntax_error
    end in
  let operation op ovf (bovf : bool) rest :=
    if stringcomp op (lit "get") true then if bovf then Refused syntax_error else get ovf rest
    else if stringcomp op (lit "set") true then update BF_SET ovf rest
    else if stringcomp op (lit "incrby") true then update BF_INCR ovf rest
    else Refused syntax_error in
  match args with
  | [] => Parsed []
  | arg :: rest =>
      if stringcomp arg (lit "overflow") true then
        match rest with
        | policy :: op :: rest => ovf ← bitfield_overflow policy; operation op ovf true rest
        | _ => Refused syntax_error
        end
      else operation arg ovf false rest
  end.

Definition ParseBitFieldCommand (args : list bytes) : Parsing (bytes * list BitFieldSubCommand) :=
  match args with
  | _ :: key :: rest => vct ← bitfield_loop rest BF_WRAP; Parsed (key, vct)
  | _ => Refused (err (lit "ERR wrong number of arguments for 'bitfield' command"))
  end.

(** Only GET, with a policy that each subcommand sets for itself. *)
Fixpoint bitfield_ro_loop (args : list bytes) : Parsing (list BitFieldSubCommand) :=
  let operation op ovf rest :=
    if stringcomp op (lit "get") true then
      match rest with
      | type :: off :: rest =>
          '(sgn, bits) ← bitfield_type type;
          offset ← bitfield_offset off bits;
          vct ← bitfield_ro_loop rest;
          Parsed (mkSub BF_GET sgn bits ovf offset garbage :: vct)
      | _ => Refused syntax_error
      end
    else if stringcomp op (lit "set") true || stringcomp op (lit "incrby") true
    then Refused (err (lit "ERR BITFIELD_RO only supports the GET subcommand"))
    else Refused syntax_error in
  match args with
  | [] => Parsed []
  | arg :: rest =>
      if stringcomp arg (lit "overflow") true then
        match rest with
        | policy :: op :: rest => ovf ← bitfield_overflow policy; operation op ovf rest
        | _ => Refused syntax_error
        end
      else operation arg BF_WRAP rest
  end.

Definition ParseBitFieldRoCommand (args : list bytes) : Parsing (bytes * list BitFieldSubCommand) :=
  match args with
  | _ :: key :: rest => vct ← bitfield_ro_loop rest; Parsed (key, vct)
  | _ => Refused (err (lit "ERR wrong number of arguments for 'bitfield_ro' command"))
  end.

End Uninitialized.

(** ** Facts *)

Lemma parse_ll_print n e : is_i64 n -> parse_ll (to_string n) e = Parsed n.
Proof. intros H. unfold parse_ll. by rewrite string2ll_print. Qed.

Lemma parse_ll_inv arg e n : parse_ll arg e = Parsed n -> is_i64 n.
Proof. unfold parse_ll. destruct (string2ll arg) eqn:E; [|done]. intros [= <-]. by apply print_string2ll in E as [? _]. Qed.

Lemma in_ms_of n e : 0 <= n -> 1000 * n <= INT64_MAX -> in_ms n e = Parsed (1000 * n).
Proof.
  intros H0 H. unfold in_ms. destruct (will_multiplication_overflow n 1000) eqn:E; [|by rewrite Z.mul_comm].
  apply will_multiplication_overflow_iff in E; mach; lia.
Qed.

Lemma from_now_of now n e : 0 <= now -> 0 <= n -> now + n <= INT64_MAX -> from_now now n e = Parsed (now + n).
Proof.
  intros Hn H0 H. unfold from_now. rewrite i64_id by (mach; lia).
  destruct (will_addition_overflow now n) eqn:E; [apply will_addition_overflow_iff in E; mach; lia|].
  rewrite u64_id by (mach; lia). by rewrite (proj2 (Z.ltb_ge (now + n) 0)) by lia.
Qed.

Lemma has_flag_lor f a b : has_flag f (Z.lor a b) = has_flag f a || has_flag f b.
Proof.
  unfold has_flag. rewrite Z.land_lor_distr_l.
  destruct (Z.eqb_spec (Z.lor (Z.land a f) (Z.land b f)) 0) as [E|E].
  - apply Z.lor_eq_0_iff in E as [-> ->]. done.
  - destruct (Z.eqb_spec (Z.land a f) 0) as [E1|]; [|done]. destruct (Z.eqb_spec (Z.land b f) 0) as [E2|]; [|done].
    rewrite E1, E2 in E. done.
Qed.

(** ** The options of SET *)

Inductive SetOption :=
| OptNx | OptXx | OptGet
| OptPx (n : Z) | OptEx (n : Z) | OptPxat (n : Z) | OptExat (n : Z)
| OptKeepTtl (ignored : bytes).                                      (* with the argument it steps over *)

Definition option_args (o : SetOption) : list bytes :=
  match o with
  | OptNx => [lit "nx"] | OptXx => [lit "xx"] | OptGet => [lit "get"]
  | OptPx n => [lit "px"; to_string n] | OptEx n => [lit "ex"; to_string n]
  | OptPxat n => [lit "pxat"; to_string n] | OptExat n => [lit "exat"; to_string n]
  | OptKeepTtl ignored => [lit "keepttl"; ignored]
  end.

Definition option_flag (o : SetOption) : Z :=
  match o with OptNx => OBJ_SET_NX | OptXx => OBJ_SET_XX | OptGet => OBJ_GET_SET | OptKeepTtl _ => OBJ_SET_KEEPTTL | _ => OBJ_SET_EX end.

(** The point in time, in milliseconds. *)
Definition option_expiry (now : Z) (o : SetOption) : option Z :=
  match o with
  | OptPx n => Some (now + n) | OptEx n => Some (now + 1000 * n)
  | OptPxat n => Some n | OptExat n => Some (1000 * n)
  | _ => None
  end.

Definition option_ok (now : Z) (o : SetOption) : Prop :=
  match o with
  | OptPx n => 0 <= n /\ now + n <= INT64_MAX
  | OptEx n => 0 <= n /\ now + 1000 * n <= INT64_MAX
  | OptPxat n => 0 <= n <= INT64_MAX
  | OptExat n => 0 <= n /\ 1000 * n <= INT64_MAX
  | _ => True
  end.

(** The options leave their flags, and the last expiry stands. *)
Definition options_flag (flag : Z) (opts : list SetOption) : Z := foldl (fun f o => Z.lor f (option_flag o)) flag opts.
Definition options_expiry (now ts : Z) (opts : list SetOption) : Z := foldl (fun t o => default t (option_expiry now o)) ts opts.

Lemma set_options_step now o rest flag ts : 0 <= now -> option_ok now o ->
  (o = OptNx -> has_flag OBJ_SET_XX flag = false) -> (o = OptXx -> has_flag OBJ_SET_NX flag = false) ->
  set_options now (option_args o ++ rest) flag ts
  = set_options now rest (Z.lor flag (option_flag o)) (default ts (option_expiry now o)).
Proof.
  intros Hn Hok H1 H2. destruct o as [| | |n|n|n|n|x]; cbn [option_args app option_ok option_flag option_expiry default] in *.
  - transitivity (if negb (has_flag OBJ_SET_XX flag) then set_options now rest (Z.lor flag OBJ_SET_NX) ts
                  else Refused (OnError RD_ERR_SYNTAX)); [reflexivity|]. by rewrite H1.
  - transitivity (if negb (has_flag OBJ_SET_NX flag) then set_options now rest (Z.lor flag OBJ_SET_XX) ts
                  else Refused (OnError RD_ERR_SYNTAX)); [reflexivity|]. by rewrite H2.
  - reflexivity.
  - transitivity (t ← parse_ll (to_string n) (OnError RD_ERR_DIGITAL_INVALID);
                  ts ← from_now now t (err (lit "ERR invalid expire time in 'psetex' command"));
                  set_options now rest (Z.lor flag OBJ_SET_EX) ts); [reflexivity|].
    rewrite parse_ll_print by (mach; lia). cbn [mbind parse_bind]. by rewrite from_now_of by lia.
  - transitivity (t ← parse_ll (to_string n) (err (lit " ERR invalid expire time in 'set' command"));
                  t ← in_ms t (err (lit "ERR invalid expire time in 'set' command"));
                  ts ← from_now now t (err (lit "ERR invalid expire time in 'set' command"));
                  set_options now rest (Z.lor flag OBJ_SET_EX) ts); [reflexivity|].
    rewrite parse_ll_print by (mach; lia). cbn [mbind parse_bind]. rewrite in_ms_of by lia. cbn [mbind parse_bind]. by rewrite from_now_of by lia.
  - transitivity (t ← parse_ll (to_string n) (err (lit " ERR invalid expire time in 'set' command"));
                  set_options now rest (Z.lor flag OBJ_SET_EX) (at_least_now t)); [reflexivity|].
    rewrite parse_ll_print by (mach; lia). cbn [mbind parse_bind]. unfold at_least_now. by rewrite (proj2 (Z.ltb_ge n 0)) by lia.
  - transitivity (t ← parse_ll (to_string n) (err (lit " ERR invalid expire time in 'set' command"));
                  t ← in_ms t (err (lit "ERR invalid expire time in 'set' command"));
                  set_options now rest (Z.lor flag OBJ_SET_EX) (at_least_now t)); [reflexivity|].
    rewrite parse_ll_print by (mach; lia). cbn [mbind parse_bind]. rewrite in_ms_of by lia. cbn [mbind parse_bind].
    unfold at_least_now. by rewrite (proj2 (Z.ltb_ge (1000 * n) 0)) by lia.
  - reflexivity.
Qed.

(** KEEPTTL at the end. *)
Definition keepttl_args (keep : bool) : list bytes := if keep then [lit "keepttl"] else [].

Lemma set_options_all now opts keep flag ts : 0 <= now -> Forall (option_ok now) opts ->
  ~ (OptNx ∈ opts /\ (OptXx ∈ opts \/ has_flag OBJ_SET_XX flag = true)) -> ~ (OptXx ∈ opts /\ has_flag OBJ_SET_NX flag = true) ->
  set_options now (concat (option_args <$> opts) ++ keepttl_args keep) flag ts
  = Parsed (if keep then Z.lor (options_flag flag opts) OBJ_SET_KEEPTTL else options_flag flag opts, options_expiry now ts opts).
Proof.
  intros Hn. revert flag ts. induction opts as [|o opts IH]; intros flag ts Hok H1 H2; [by destruct keep|].
  apply list.Forall_cons in Hok as [Ho Hok]. cbn [fmap list_fmap concat]. rewrite <- app_assoc, set_options_step; [|done..| |].
  - rewrite IH; [done|done| |]; rewrite has_flag_lor, orb_true_iff; intros Hx; [apply H1|].
    + rewrite !elem_of_cons. destruct Hx as [Hnx [Hxx|[Hxx|Hxx]]]; [by auto..|]. destruct o; try discriminate Hxx. by auto.
    + destruct Hx as [Hxx [Hnx|Hnx]]; [by apply H2; rewrite elem_of_cons; auto|].
      destruct o; try discriminate Hnx. apply H1. rewrite !elem_of_cons. by auto.
  - intros ->. apply not_true_is_false. intros Hx. apply H1. rewrite elem_of_cons. by auto.
  - intros ->. apply not_true_is_false. intros Hx. apply H2. rewrite elem_of_cons. by auto.
Qed.

(** ** Subcommands of BITFIELD *)

Definition overflow_name (ovf : BitFieldOverflow) : bytes :=
  match ovf with BF_WRAP => lit "wrap" | BF_SAT => lit "sat" | BF_FAIL => lit "fail" end.

Definition sub_args (s : BitFieldSubCommand) : list bytes :=
  let '(mkSub op sgn bits ovf off val) := s in
  let type := lit (if sgn then "i" else "u") ++ to_string bits in
  match op with
  | BF_GET => [lit "get"; type; to_string off]
  | BF_SET => [lit "overflow"; overflow_name ovf; lit "set"; type; to_string off; to_string val]
  | BF_INCR => [lit "overflow"; overflow_name ovf; lit "incrby"; type; to_string off; to_string val]
  end.

Definition sub_parses (garbage : Z) (ovf : BitFieldOverflow) (s : BitFieldSubCommand) : Prop :=
  bf_width (scmd_encoding_i_ s) (scmd_encoding_bits_ s) /\ is_i64 (scmd_offset_ s) /\ scmd_offset_ s < UINT32_MAX
  /\ is_i64 (scmd_value_ s) /\ (scmd_op_type_ s = BF_GET -> scmd_ovf_ s = ovf /\ scmd_value_ s = garbage).

(** A GET is under the policy of the subcommand before it. *)
Fixpoint subs_parse (garbage : Z) (ovf : BitFieldOverflow) (vct : list BitFieldSubCommand) : Prop :=
  match vct with
  | [] => True
  | s :: vct => sub_parses garbage ovf s /\ subs_parse garbage (scmd_ovf_ s) vct
  end.

Lemma bitfield_type_of sgn bits : bf_width sgn bits -> bitfield_type (lit (if sgn then "i" else "u") ++ to_string bits) = Parsed (sgn, bits).
Proof.
  intros Hw. assert (1 <= bits <= 64) by (unfold bf_width in Hw; destruct sgn; lia).
  assert (((bits <=? 0) || (64 <? bits)) || ((64 <=? bits) && negb sgn) = false) as Ht.
  { unfold bf_width in Hw. destruct sgn; cbn; [|destruct (Z.leb_spec 64 bits); [lia|]]; lia. }
  transitivity (num ← parse_ll (to_string bits) (err (lit "ERR Invalid bitfield type. Use something like i16 u8. Note that u64 is not supported but i64 is."));
    if ((num <=? 0) || (64 <? num)) || ((64 <=? num) && negb sgn)
    then Refused (err (lit "ERR Invalid bitfield type. Use something like i16 u8. Note that u64 is not supported but i64 is."))
    else Parsed (sgn, num)); [by destruct sgn|].
  rewrite parse_ll_print by (mach; lia). cbn [mbind parse_bind]. by rewrite Ht.
Qed.

Lemma string2ll_hash d : string2ll (lit "#" ++ d) = None.
Proof.
  unfold string2ll. destruct (_ || _); [done|]. case_bool_decide as E; [done|]. reflexivity.
Qed.

Lemma bitfield_offset_of off bits : is_i64 off -> off < UINT32_MAX -> bitfield_offset (to_string off) bits = Parsed off.
Proof.
  intros Hi Hu. unfold bitfield_offset. destruct (to_string off) as [|c d] eqn:E; [by destruct (to_string_nonempty off Hi)|].
  case_bool_decide as Hc.
  - pose proof (string2ll_print off Hi) as P. rewrite E in P. change (c :: d) with ([c] ++ d) in P. by rewrite Hc, string2ll_hash in P.
  - rewrite <- E, parse_ll_print by done. cbn [mbind parse_bind]. by rewrite (proj2 (Z.leb_gt _ _)) by lia.
Qed.

Lemma bitfield_loop_of garbage vct ovf : subs_parse garbage ovf vct ->
  bitfield_loop garbage (concat (sub_args <$> vct)) ovf = Parsed vct.
Proof.
  revert ovf. induction vct as [|s vct IH]; intros ovf; [done|]. destruct s as [op sgn bits ovf' off val].
  intros [(Hw & Hi & Hu & Hv & Hg) Hvct]. cbn [scmd_encoding_i_ scmd_encoding_bits_ scmd_offset_ scmd_value_ scmd_op_type_ scmd_ovf_] in *.
  cbn [fmap list_fmap concat]. set (rest := concat (sub_args <$> vct)) in *.
  assert (forall op ovf num, is_i64 num -> bitfield_loop garbage rest ovf = Parsed vct ->
    ('(sgn, bits) ← bitfield_type (lit (if sgn then "i" else "u") ++ to_string bits);
     offset ← bitfield_offset (to_string off) bits;
     value ← parse_ll (to_string num) (err (lit "ERR bit offset is not an integer or out of range"));
     vct ← bitfield_loop garbage rest ovf; Parsed (mkSub op sgn bits ovf offset value :: vct)) = Parsed (mkSub op sgn bits ovf off num :: vct)) as Hupd.
  { intros op' ovf1 num Hnum E. rewrite bitfield_type_of by done. cbn [mbind parse_bind]. rewrite bitfield_offset_of by done.
    cbn [mbind parse_bind]. rewrite parse_ll_print by done. cbn [mbind parse_bind]. by rewrite E. }
  destruct op.
  - destruct (Hg eq_refl) as [-> ->].
    transitivity ('(sgn, bits) ← bitfield_type (lit (if sgn then "i" else "u") ++ to_string bits);
      offset ← bitfield_offset (to_string off) bits;
      vct ← bitfield_loop garbage rest ovf; Parsed (mkSub BF_GET sgn bits ovf offset garbage :: vct)); [reflexivity|].
    rewrite bitfield_type_of by done. cbn [mbind parse_bind]. rewrite bitfield_offset_of by done. cbn [mbind parse_bind]. by rewrite (IH ovf Hvct).
  - rewrite <- (Hupd BF_SET ovf' val Hv (IH ovf' Hvct)). by destruct ovf'.
  - rewrite <- (Hupd BF_INCR ovf' val Hv (IH ovf' Hvct)). by destruct ovf'.
Qed.

(** ** What a parser accepts *)

Ltac parsed :=
  repeat match goal with
  | H : Parsed _ = Parsed _ |- _ => injection H as H; subst
  | H : Refused _ = Parsed _ |- _ => discriminate H
  | H : Undefined = Parsed _ |- _ => discriminate H
  | H : (_, _) = (_, _) |- _ => injection H as; subst
  | H : context [mbind _ (parse_ll ?a ?e)] |- _ =>
      let E := fresh "E" in destruct (parse_ll a e) eqn:E; cbn [mbind parse_bind] in H; [apply parse_ll_inv in E| |]
  | H : context [if ?b then _ else _] |- _ => let E := fresh "E" in destruct b eqn:E
  end.

Lemma lor_below a b : 0 <= a < 32 -> 0 <= b < 32 -> 0 <= Z.lor a b < 32.
Proof.
  intros Ha Hb. assert (Z.lor a b = Z.lor a b mod 2 ^ 5) as ->; [|apply Z.mod_pos_bound; lia].
  rewrite <- Z.land_ones, Z.land_lor_distr_l, !Z.land_ones, !Z.mod_small by lia. done.
Qed.

Lemma from_now_inv now n e ts : from_now now n e = Parsed ts -> is_u64 ts.
Proof.
  unfold from_now. destruct (will_addition_overflow _ _); [done|]. intros [= <-]. cbn zeta.
  destruct (_ <? 0); [concrete|apply u64_range].
Qed.

Lemma at_least_now_u64 n : is_i64 n -> is_u64 (at_least_now n).
Proof. unfold at_least_now. destruct (Z.ltb_spec n 0); mach; lia. Qed.

Lemma in_ms_inv n e m : is_i64 n -> in_ms n e = Parsed m -> is_i64 m.
Proof.
  unfold in_ms. destruct (will_multiplication_overflow n 1000) eqn:E; [done|]. intros Hn [= <-].
  destruct (decide (is_i64 (n * 1000))) as [H|H]; [done|].
  apply (will_multiplication_overflow_iff n 1000) in H; [congruence|done|concrete].
Qed.

(** The next expiry, and the options after it. *)
Lemma set_options_inv now args flag ts flag' ts' : 0 <= flag < 32 -> is_u64 ts ->
  set_options now args flag ts = Parsed (flag', ts') -> 0 <= flag' < 32 /\ is_u64 ts'.
Proof.
  assert (forall f, 0 <= f < 32 -> 0 <= Z.lor f OBJ_SET_NX < 32 /\ 0 <= Z.lor f OBJ_SET_XX < 32 /\ 0 <= Z.lor f OBJ_GET_SET < 32
            /\ 0 <= Z.lor f OBJ_SET_EX < 32) as Hor.
  { intros f Hf. split_and!; apply lor_below; done || (unfold OBJ_SET_NX, OBJ_SET_XX, OBJ_GET_SET, OBJ_SET_EX; lia). }
  revert flag ts. induction args as [args IH] using (induction_ltof1 _ (@length bytes)). unfold ltof in IH.
  intros flag ts Hf Ht. destruct (Hor flag Hf) as (H1 & H2 & H3 & H4). destruct args as [|arg rest]; [by intros [= <- <-]|].
  assert (forall l f t, (length l <= length rest)%nat -> 0 <= f < 32 -> is_u64 t -> set_options now l f t = Parsed (flag', ts') ->
            0 <= flag' < 32 /\ is_u64 ts') as IH' by (intros l f t Hl; apply IH; cbn; lia). clear IH.
  cbn [set_options]. repeat (destruct (_ && _) || destruct (option_is _ _)); try by (apply IH').
  all: destruct rest as [|num rest]; try done; try (by intros [= <- <-]); cbn [length] in IH'.
  all: try (by apply IH'; [lia|..]).
  all: destruct (parse_ll num _) as [n| |] eqn:En; try done; apply parse_ll_inv in En; cbn [mbind parse_bind].
  - destruct (from_now now n _) as [t| |] eqn:Et; try done. apply from_now_inv in Et. by apply IH'; [lia|..].
  - destruct (in_ms n _) as [m| |] eqn:Em; try done. cbn [mbind parse_bind].
    destruct (from_now now m _) as [t| |] eqn:Et; try done. apply from_now_inv in Et. by apply IH'; [lia|..].
  - destruct (in_ms n _) as [m| |] eqn:Em; try done. cbn [mbind parse_bind]. apply in_ms_inv in Em; [|done].
    apply IH'; [lia|done|by apply at_least_now_u64].
  - apply IH'; [lia|done|by apply at_least_now_u64].
Qed.

Lemma setbit_parsed args key f : ParseSetBitCommand args = Parsed (key, f) -> setbit_ok f.
Proof.
  unfold ParseSetBitCommand. intros H. destruct args as [|? [|? [|? [|? []]]]]; try done. parsed;
    (apply orb_false_iff in E0 as [Ea Eb]; unfold MAX_OBJECT_SIZE in Eb; apply Z.ltb_ge in Ea; apply Z.leb_gt in Eb;
     rewrite u64_id in Eb by (mach; lia); split; [cbn; lia|by auto]).
Qed.

Lemma setrange_parsed args key f : Forall fits args -> ParseSetRangeCommand args = Parsed (key, f) -> setrange_ok f.
Proof.
  unfold ParseSetRangeCommand. intros Ha H. destruct args as [|? [|? [|? [|v []]]]]; try done.
  repeat (apply list.Forall_cons in Ha as [?Hx Ha]). parsed.
  apply Z.ltb_ge in E0, E1. pose proof (zlen_nonneg v). unfold fits, MAX_OBJECT_SIZE in *. rewrite u64_id in E1 by (mach; lia).
  split_and!; [done|done|]. unfold MAX_OBJECT_SIZE. cbn. lia.
Qed.

Lemma append_parsed args key f : Forall fits args -> ParseAppendCommand args = Parsed (key, f) -> es_fits f.
Proof.
  unfold ParseAppendCommand. intros Ha H. destruct args as [|? [|? [|v []]]]; try done. parsed.
  repeat (apply list.Forall_cons in Ha as [?Hx Ha]). done.
Qed.

(** The four parsers of counters. *)
Definition counter_parsers : list (list bytes -> Parsing (bytes * Z)) :=
  [ParseIncrCommand; ParseDecrCommand; ParseIncrByCommand; ParseDecrByCommand].

Lemma counter_parsed p args key f : p ∈ counter_parsers -> p args = Parsed (key, f) -> is_i64 f.
Proof.
  unfold counter_parsers. rewrite !elem_of_cons, elem_of_nil. intros [-> |[-> |[-> |[-> |[]]]]] H.
  - unfold ParseIncrCommand, parse_key in H. destruct args as [|? [|? []]]; try done. parsed. concrete.
  - unfold ParseDecrCommand, parse_key in H. destruct args as [|? [|? []]]; try done. parsed. concrete.
  - unfold ParseIncrByCommand in H. destruct args as [|? [|? [|? []]]]; try done. by parsed.
  - unfold ParseDecrByCommand in H. destruct args as [|? [|? [|? []]]]; try done. parsed. apply Z.eqb_neq in E0. mach. lia.
Qed.

Lemma bitfield_type_inv arg sgn bits : bitfield_type arg = Parsed (sgn, bits) -> bf_width sgn bits.
Proof.
  unfold bitfield_type. destruct arg as [|c digits]; [done|]. intros H.
  assert (forall e b, (num ← parse_ll digits e; if (num <=? 0) || (64 <? num) || ((64 <=? num) && negb b) then Refused e else Parsed (b, num))
    = Parsed (sgn, bits) -> bf_width sgn bits) as Hw.
  { clear H. intros e b H. parsed. unfold bf_width. destruct sgn; cbn in *; lia. }
  repeat case_bool_decide; cbn [mbind parse_bind] in H; [by apply Hw in H|by apply Hw in H|done].
Qed.

(** What a subcommand is like when its fields are read from arguments. *)
Lemma bitfield_loop_inv garbage args : is_i64 garbage -> forall ovf vct, bitfield_loop garbage args ovf = Parsed vct ->
  Forall (fun s => bf_width (scmd_encoding_i_ s) (scmd_encoding_bits_ s) /\ is_i64 (scmd_value_ s)) vct /\ (length vct <= length args)%nat.
Proof.
  intros Hg. induction args as [args IH] using (induction_ltof1 _ (@length bytes)). unfold ltof in IH. intros ovf vct.
  destruct args as [|arg rest]; [by intros [= <-]|].
  assert (forall rest' ovf' vct' s, (length rest' <= length rest)%nat -> (v ← bitfield_loop garbage rest' ovf'; Parsed (s :: v)) = Parsed vct' ->
    bf_width (scmd_encoding_i_ s) (scmd_encoding_bits_ s) -> is_i64 (scmd_value_ s) ->
    Forall (fun s => bf_width (scmd_encoding_i_ s) (scmd_encoding_bits_ s) /\ is_i64 (scmd_value_ s)) vct' /\ (length vct' <= S (length rest'))%nat) as Hcons.
  { intros rest' ovf' vct' s Hl H Hw Hv. destruct (bitfield_loop garbage rest' ovf') as [v| |] eqn:E; try done. injection H as <-.
    destruct (IH rest' ltac:(cbn; lia) ovf' v E) as [H1 H2]. split; [by constructor|cbn; lia]. }
  assert (forall op rest' ovf' vct', (length rest' <= length rest)%nat ->
    match rest' with
    | type :: off :: num :: rest'' =>
        '(sgn, bits) ← bitfield_type type; offset ← bitfield_offset off bits;
        value ← parse_ll num (err (lit "ERR bit offset is not an integer or out of range"));
        v ← bitfield_loop garbage rest'' ovf'; Parsed (mkSub op sgn bits ovf' offset value :: v)
    | _ => Refused syntax_error
    end = Parsed vct' ->
    Forall (fun s => bf_width (scmd_encoding_i_ s) (scmd_encoding_bits_ s) /\ is_i64 (scmd_value_ s)) vct' /\ (length vct' <= length rest')%nat) as Hupd.
  { intros op rest' ovf' vct' Hl H. destruct rest' as [|type [|off [|num rest'']]]; try done. cbn [length] in Hl.
    destruct (bitfield_type type) as [[sgn bits]| |] eqn:Et; try done. apply bitfield_type_inv in Et. cbn [mbind parse_bind] in H.
    destruct (bitfield_offset off bits) as [o| |]; try done. cbn [mbind parse_bind] in H.
    destruct (parse_ll num _) as [n| |] eqn:En; try done. apply parse_ll_inv in En. cbn [mbind parse_bind] in H.
    destruct (Hcons rest'' ovf' vct' _ ltac:(lia) H Et En). split; [done|cbn; lia]. }
  assert (forall rest' ovf' vct', (length rest' <= length rest)%nat ->
    match rest' with
    | type :: off :: rest'' =>
        '(sgn, bits) ← bitfield_type type; offset ← bitfield_offset off bits;
        v ← bitfield_loop garbage rest'' ovf'; Parsed (mkSub BF_GET sgn bits ovf' offset garbage :: v)
    | _ => Refused syntax_error
    end = Parsed vct' ->
    Forall (fun s => bf_width (scmd_encoding_i_ s) (scmd_encoding_bits_ s) /\ is_i64 (scmd_value_ s)) vct' /\ (length vct' <= length rest')%nat) as Hget.
  { intros rest' ovf' vct' Hl H. destruct rest' as [|type [|off rest'']]; try done. cbn [length] in Hl.
    destruct (bitfield_type type) as [[sgn bits]| |] eqn:Et; try done. apply bitfield_type_inv in Et. cbn [mbind parse_bind] in H.
    destruct (bitfield_offset off bits) as [o| |]; try done. cbn [mbind parse_bind] in H.
    destruct (Hcons rest'' ovf' vct' _ ltac:(lia) H Et Hg). split; [done|cbn; lia]. }
  cbn [bitfield_loop]. destruct (stringcomp arg (lit "overflow") true).
  - destruct rest as [|policy [|op rest]]; try done. destruct (bitfield_overflow policy) as [o| |]; try done. cbn [mbind parse_bind].
    cbn [length] in *. intros H.
    destruct (stringcomp op (lit "get") true); [done|].
    destruct (stringcomp op (lit "set") true); [apply Hupd in H as [? ?]; [|lia]; split; [done|lia]|].
    destruct (stringcomp op (lit "incrby") true); [apply Hupd in H as [? ?]; [|lia]; split; [done|lia]|done].
  - intros H. cbn [length].
    destruct (stringcomp arg (lit "get") true); [apply Hget in H as [? ?]; [|lia]; split; [done|lia]|].
    destruct (stringcomp arg (lit "set") true); [apply Hupd in H as [? ?]; [|lia]; split; [done|lia]|].
    destruct (stringcomp arg (lit "incrby") true); [apply Hupd in H as [? ?]; [|lia]; split; [done|lia]|done].
Qed.

(** The fields that BITFIELD can work on. *)
Definition field_runs (s : BitFieldSubCommand) : Prop :=
  0 <= scmd_offset_ s /\ scmd_offset_ s + scmd_encoding_bits_ s <= 8 * (MAX_OBJECT_SIZE - 5)
  /\ (scmd_op_type_ s = BF_INCR -> scmd_encoding_bits_ s = 64 -> scmd_ovf_ s <> BF_WRAP).

Lemma bitfield_command_parsed garbage args key f : is_i64 garbage -> is_u32 (zlen args) -> ParseBitFieldCommand garbage args = Parsed (key, f) ->
  Forall field_runs f -> Forall sub_ok f /\ is_u32 (zlen f).
Proof.
  intros Hg Hn H Hf. destruct args as [|name [|k rest]]; try done. cbn [ParseBitFieldCommand] in H.
  destruct (bitfield_loop garbage rest BF_WRAP) as [vct| |] eqn:E; try done. cbn in H. injection H as <- <-.
  destruct (bitfield_loop_inv garbage rest Hg BF_WRAP vct E) as [Hw Hl]. split.
  - rewrite list.Forall_forall in Hf, Hw |- *. intros s Hs. specialize (Hf s Hs). specialize (Hw s Hs).
    destruct s as [op sgn bits ovf off val]. destruct Hf as (? & ? & ?), Hw. split_and!; done.
  - unfold zlen in *. cbn [length] in Hn. mach. lia.
Qed.

Lemma expire_parsed now args pexpire at_ key f : ParseExpireCommand now args pexpire at_ = Parsed (key, f) -> expire_fits f.
Proof.
  assert (forall arg n, expire_option arg = Parsed n -> 0 <= n < 32) as Hopt.
  { intros arg n. unfold expire_option, EXPIRE_NX, EXPIRE_XX, EXPIRE_GT, EXPIRE_LT. intros H. parsed; lia. }
  unfold ParseExpireCommand. intros H. destruct args as [|? [|? [|arg opts]]]; try done. destruct (2 <? _)%nat; [done|].
  assert (forall ts, expire_time now arg pexpire at_ = Parsed ts -> is_u64 ts) as Hts.
  { clear H. intros ts H. unfold expire_time in H. parsed; try (by eapply from_now_inv);
      try (destruct (in_ms _ _) eqn:Em in H; try done; apply in_ms_inv in Em; [|done]; cbn [mbind parse_bind] in H);
      cbn [mbind parse_bind] in H; parsed; try (by eapply from_now_inv); by apply at_least_now_u64. }
  destruct (expire_time _ _ _ _) as [ts| |]; try done. specialize (Hts ts eq_refl). cbn [mbind parse_bind] in H.
  destruct (match opts with [] => Parsed 0 | o :: _ => expire_option o end) as [f1| |] eqn:E1; try done. cbn [mbind parse_bind] in H.
  destruct (match opts with [_; o] => expire_option o | _ => Parsed 0 end) as [f2| |] eqn:E2; try done. cbn [mbind parse_bind] in H.
  assert (0 <= f1 < 32) by (destruct opts; [injection E1 as <-; lia|by eapply Hopt]).
  assert (0 <= f2 < 32) by (destruct opts as [|? [|? []]]; (injection E2 as <-; lia) || by eapply Hopt).
  pose proof (lor_below f1 f2). destruct (_ && _); [done|]. destruct (_ || _); [done|]. parsed. split; [done|]. cbn. mach. lia.
Qed.

Lemma getex_parsed now args key f : ParseGetExCommand now args = Parsed (key, f) -> getex_fits f.
Proof.
  unfold ParseGetExCommand, getex_fits. intros H. destruct args as [|? [|? [|opt [|arg []]]]]; try done; [by parsed; concrete|by parsed; concrete|].
  destruct (getex_option opt) as [[px at_]| |]; try done. cbn [mbind parse_bind] in H.
  destruct (parse_ll arg _) as [n| |] eqn:En; try done. apply parse_ll_inv in En. cbn [mbind parse_bind] in H.
  destruct (if px then Parsed n else _) as [m| |]; try done. cbn [mbind parse_bind] in H.
  destruct (if at_ then Parsed (u64 m) else _) as [ts| |] eqn:Et; try done. injection H as _ <-. cbn.
  destruct at_; [injection Et as <-; apply u64_range|by eapply from_now_inv].
Qed.

Lemma set_parsed now args key f : Forall fits args -> ParseSetCommand now args = Parsed (key, f) -> setcmd_fits f.
Proof.
  intros Ha H. unfold ParseSetCommand in H. destruct args as [|name args]; [done|]. apply list.Forall_cons in Ha as [_ Ha].
  repeat case_bool_decide; unfold ParseSetNx, ParseGetSet, ParseSetEx, ParsePSetEx in H;
    repeat (destruct args as [|? args]; try done; [idtac]; apply list.Forall_cons in Ha as [?Hx Ha]).
  all: try (destruct args; [|done]).
  - parsed. split_and!; [done|concrete..].
  - parsed. split_and!; [done|concrete..].
  - parsed. destruct (in_ms _ _) in H; try done. cbn [mbind parse_bind] in H. destruct (from_now _ _ _) eqn:E1 in H; try done.
    apply from_now_inv in E1. cbn [mbind parse_bind] in H. parsed. split_and!; [done|concrete|done].
  - parsed. destruct (from_now _ _ _) eqn:E1 in H; try done. apply from_now_inv in E1. cbn [mbind parse_bind] in H. parsed.
    split_and!; [done|concrete|done].
  - destruct (set_options _ _ _ _) as [[fl ts]| |] eqn:E; try done. cbn [mbind parse_bind] in H. parsed.
    apply set_options_inv in E as [? ?]; [|lia|concrete]. split_and!; [done|cbn; mach; lia|done].
Qed.

(** ** Properties *)

(** C21: SET understands its options: conditions (not NX together with XX), GET
    and expiries, in lower case and any order, give the flags that they stand
    for and the last expiry as a point in time in milliseconds, for numbers that
    are not negative and a time that an [int64_t] can hold.  KEEPTTL gives its flag, and unless
    it is the last argument the one after it is ignored, whatever it is. *)
Theorem set_options_parsed now (key value : bytes) (opts : list SetOption) (keep : bool) :
  0 <= now -> Forall (option_ok now) opts -> ~ (OptNx ∈ opts /\ OptXx ∈ opts) ->
  ParseSetCommand now (lit "set" :: key :: value :: concat (option_args <$> opts) ++ keepttl_args keep)
  = Parsed (key, mkSetCmd (es_of_view value)
                   (if keep then Z.lor (options_flag 0 opts) OBJ_SET_KEEPTTL else options_flag 0 opts)
                   (options_expiry now UINT64_MAX opts)).
Proof.
  intros Hn Hok Hx. unfold ParseSetCommand. cbn -[set_options concat app]. rewrite set_options_all; [done|done|done|..].
  - intros [? [?|Hf]]; [by apply Hx|done].
  - by intros [_ Hf].
Qed.

(** SET k v EX 10 NX GET at the time 1000. *)
Lemma set_options_parsed_witness :
  ParseSetCommand 1000 [lit "set"; lit "k"; lit "v"; lit "ex"; lit "10"; lit "nx"; lit "get"]
  = Parsed (lit "k", mkSetCmd (es_of_view (lit "v")) 25 11000).
Proof.
  apply (set_options_parsed 1000 (lit "k") (lit "v") [OptEx 10; OptNx; OptGet] false).
  - done.
  - repeat constructor; cbn; concrete.
  - rewrite !elem_of_cons, !elem_of_nil. intros [_ [H|[H|[H|H]]]]; done.
Defined.

(** KEEPTTL steps over the argument after it, whatever that is: SET with
    KEEPTTL and then NX or XX sets the key unconditionally, and an argument that
    is no option is not refused. *)
Theorem keepttl_swallows_option now (key value ignored : bytes) :
  ParseSetCommand now [lit "set"; key; value; lit "keepttl"; ignored]
  = ParseSetCommand now [lit "set"; key; value; lit "keepttl"]
  /\ ParseSetCommand now [lit "set"; key; value; lit "keepttl"]
     = Parsed (key, mkSetCmd (es_of_view value) OBJ_SET_KEEPTTL UINT64_MAX)
  /\ ParseSetCommand now [lit "set"; key; value; lit "nx"; lit "keepttl"]
     = Parsed (key, mkSetCmd (es_of_view value) (Z.lor OBJ_SET_NX OBJ_SET_KEEPTTL) UINT64_MAX).
Proof. split; [reflexivity|]. split; reflexivity. Qed.

(** BITFIELD reads back the subcommands from their arguments, each with its
    width, sign, offset and value and under the last policy that was set. *)
Theorem bitfield_parsed (garbage : Z) (key : bytes) (vct : list BitFieldSubCommand) :
  subs_parse garbage BF_WRAP vct ->
  ParseBitFieldCommand garbage (lit "bitfield" :: key :: concat (sub_args <$> vct)) = Parsed (key, vct).
Proof. intros H. cbn [ParseBitFieldCommand]. rewrite bitfield_loop_of by done. done. Qed.

Lemma bitfield_parsed_witness :
  ParseBitFieldCommand 0 [lit "bitfield"; lit "k"; lit "overflow"; lit "sat"; lit "incrby"; lit "i5"; lit "100"; lit "-1"; lit "get"; lit "u4"; lit "0"]
  = Parsed (lit "k", [mkSub BF_INCR true 5 BF_SAT 100 (-1); mkSub BF_GET false 4 BF_SAT 0 0]).
Proof.
  apply (bitfield_parsed 0 (lit "k") [mkSub BF_INCR true 5 BF_SAT 100 (-1); mkSub BF_GET false 4 BF_SAT 0 0]).
  split; [split_and!; concrete|]. split; [split_and!; concrete|]. exact I.
Defined.

(** BITFIELD accepts a negative offset, and a subcommand at one touches
    memory before the string: it cannot be executed on any string. *)
Theorem bitfield_negative_offset (garbage : Z) (padding key : bytes) (off val : Z) (obj : RedisEloqObject)
    (o : RedisStringObject) (r : RedisStringResult) :
  is_i64 off -> off < 0 -> 0 <= val < 256 -> as_string obj = Some o ->
  ParseBitFieldCommand garbage [lit "bitfield"; key; lit "set"; lit "u8"; to_string off; to_string val]
    = Parsed (key, [mkSub BF_SET false 8 BF_WRAP off val])
  /\ ExecuteOn (BitFieldCommand padding) [mkSub BF_SET false 8 BF_WRAP off val] obj r = None.
Proof.
  intros Hi Hn Hv Ho. split.
  - transitivity (vct ← ('(sgn, bits) ← bitfield_type (lit "u8");
        offset ← bitfield_offset (to_string off) bits;
        value ← parse_ll (to_string val) (err (lit "ERR bit offset is not an integer or out of range"));
        vct ← bitfield_loop garbage [] BF_WRAP; Parsed (mkSub BF_SET sgn bits BF_WRAP offset value :: vct)); Parsed (key, vct)); [reflexivity|].
    change (bitfield_type (lit "u8")) with (Parsed (false, 8)). cbn [mbind parse_bind].
    rewrite bitfield_offset_of by (done || (unfold UINT32_MAX; lia)). cbn [mbind parse_bind]. by rewrite parse_ll_print by (mach; lia).
  - cbn [ExecuteOn BitFieldCommand]. rewrite Ho. unfold Execute_BitField. cbn [bitfield_exec_loop bitfield_exec1].
    rewrite IsBitfieldUnoverflow_of; [|unfold bf_width; lia|mach; lia|concrete|by right].
    rewrite decide_True by (unfold in_field, bf_min, bf_max; lia).
    unfold GetBitFieldValue. change (Z.to_nat 8) with 8%nat. cbn [get_bits_loop]. unfold byte_at at 1.
    rewrite (proj2 (Z.ltb_lt (Z.shiftr off 3) 0)); [done|]. by apply Z.shiftr_neg.
Qed.

Lemma bitfield_negative_offset_witness :
  ParseBitFieldCommand 0 [lit "bitfield"; lit "k"; lit "set"; lit "u8"; lit "-800"; lit "255"]
    = Parsed (lit "k", [mkSub BF_SET false 8 BF_WRAP (-800) 255])
  /\ ExecuteOn (BitFieldCommand [Init.Byte.x00; Init.Byte.x00; Init.Byte.x00; Init.Byte.x00])
       [mkSub BF_SET false 8 BF_WRAP (-800) 255] (ObjString s_ab) string_result0 = None.
Proof.
  exact (bitfield_negative_offset 0 [Init.Byte.x00; Init.Byte.x00; Init.Byte.x00; Init.Byte.x00] (lit "k") (-800) 255 (ObjString s_ab) s_ab
    string_result0 ltac:(concrete) ltac:(done) ltac:(lia) eq_refl).
Defined.

(** EXPIRE with XX and GT, which the parser lets through, sets the expiry
    of a key that has one even when the new one is not greater. *)
Theorem expire_xx_ignores_gt now (key : bytes) (expire_ts : Z) (obj : RedisEloqObject) (r : RedisIntResult) :
  0 <= expire_ts <= INT64_MAX -> HasTTL obj = true -> now < GetTTL obj -> expire_ts <= GetTTL obj ->
  let flags := Z.lor EXPIRE_XX EXPIRE_GT in
  ParseExpireCommand now [lit "pexpireat"; key; to_string expire_ts; lit "xx"; lit "gt"] true true
    = Parsed (key, mkExpire expire_ts flags None)
  /\ ~ expiry_allowed expire_ts flags obj
  /\ exists c, ExecuteOn ExpireCommand (mkExpire expire_ts flags None) obj (r, now)
     = Some (c, (mkIntResult RD_OK (ir_int_val_ r), now), ExecWrite).
Proof.
  intros He Ht Hl Hle. cbn zeta. split; [|split].
  - transitivity (ts ← (t ← parse_ll (to_string expire_ts) (err (lit "not an integer")); Parsed (at_least_now t));
                  Parsed (key, mkExpire ts (Z.lor EXPIRE_XX EXPIRE_GT) None)); [reflexivity|].
    rewrite parse_ll_print by (mach; lia). cbn [mbind parse_bind]. unfold at_least_now. by rewrite (proj2 (Z.ltb_ge expire_ts 0)) by lia.
  - intros (_ & _ & H & _). destruct (H eq_refl). lia.
  - cbn [ExecuteOn ExpireCommand]. unfold Expire_ExecuteOn, will_set_ttl. cbn [ex_expire_ts_ ex_flags_].
    rewrite Ht, (proj2 (Z.ltb_lt _ _) Hl). cbn. by eexists.
Qed.

Lemma expire_xx_ignores_gt_witness :
  exists c, ExecuteOn ExpireCommand (mkExpire 1001 (Z.lor EXPIRE_XX EXPIRE_GT) None) (ObjZsetTTL (mkZsetTTL z_ab 5000)) (int_result0, 1000)
     = Some (c, (mkIntResult RD_OK 0, 1000), ExecWrite).
Proof.
  exact (proj2 (proj2 (expire_xx_ignores_gt 1000 (lit "k") 1001 (ObjZsetTTL (mkZsetTTL z_ab 5000)) int_result0
    ltac:(concrete) ltac:(done) ltac:(done) ltac:(done)))).
Defined.

(** a relative expiry before the epoch is not one that has passed: the sum
    with the clock is unsigned, and a key is given an expiry billions of years
    away instead of being expired at once. *)
Theorem negative_expiry_is_far now (arg : bytes) (ms : Z) :
  0 <= now <= INT64_MAX -> string2ll arg = Some ms -> is_i64 ms -> now + ms < 0 ->
  expire_time now arg true false = Parsed (2 ^ 64 + now + ms) /\ INT64_MAX < 2 ^ 64 + now + ms
  /\ expire_time now arg true true = Parsed 0.
Proof.
  intros Hn Hs Hm Hlt. unfold expire_time, parse_ll. rewrite Hs. cbn [mbind parse_bind]. unfold from_now, at_least_now.
  assert (i64 now = now) as -> by (apply i64_id; mach; lia).
  assert (will_addition_overflow now ms = false) as ->.
  { unfold will_addition_overflow. rewrite (proj2 (Z.ltb_ge 0 ms)), andb_false_r by lia. cbn.
    rewrite (proj2 (Z.ltb_ge now 0)) by lia. done. }
  assert (u64 (now + ms) = 2 ^ 64 + now + ms) as ->.
  { unfold u64. rewrite <- (Z.mod_add _ 1) by lia. rewrite Z.mod_small; mach; lia. }
  rewrite (proj2 (Z.ltb_ge _ 0)), (proj2 (Z.ltb_lt ms 0)) by (mach; lia). split_and!; [done|mach; lia|done].
Qed.

Lemma negative_expiry_is_far_witness :
  expire_time 1700000000000 (lit "-1700000000001") true false = Parsed (2 ^ 64 + 1700000000000 + -1700000000001)
  /\ INT64_MAX < 2 ^ 64 + 1700000000000 + -1700000000001
  /\ expire_time 1700000000000 (lit "-1700000000001") true true = Parsed 0.
Proof.
  exact (negative_expiry_is_far 1700000000000 (lit "-1700000000001") (-1700000000001)
    ltac:(concrete) ltac:(vm_compute; reflexivity) ltac:(concrete) ltac:(done)).
Defined.

(** C9: what these parsers accept, of arguments shorter than 2^32 bytes, the engine
    can run, which means that the command
    is decided on the object, and if it announces a write the commit is defined,
    leaves a sound object, and the image in the log commits to the same one.
    This holds on every sound object for SETBIT, SETRANGE, APPEND and the
    counters, and for BITFIELD if its fields lie within the greatest string and
    INCRBY does not wrap a field of 64 bits (and there are fewer than 2^32
    arguments); on an existing key for EXPIRE and
    GETEX; for SET over an existing string, and on a missing key unless it has
    GET and a value over the limit.  SET over an object of another type is left
    out. *)
Theorem parsed_commands_run now (garbage : Z) (padding : bytes) (args : list bytes) (key : bytes) (obj : RedisEloqObject) :
  Forall fits args -> sound obj ->
  (forall f, ParseSetBitCommand args = Parsed (key, f) -> engine_runs SetBitCommand f obj)
  /\ (forall f, ParseSetRangeCommand args = Parsed (key, f) -> engine_runs SetRangeCommand f obj)
  /\ (forall f, ParseAppendCommand args = Parsed (key, f) -> engine_runs AppendCommand f obj)
  /\ (forall p f, p ∈ counter_parsers -> p args = Parsed (key, f) -> engine_runs IntOpCommand f obj)
  /\ (forall f, ParseBitFieldCommand garbage args = Parsed (key, f) -> is_i64 garbage -> length padding = 4%nat -> is_u32 (zlen args) ->
      Forall field_runs f -> engine_runs (BitFieldCommand padding) f obj)
  /\ (forall pexpire at_ f, ParseExpireCommand now args pexpire at_ = Parsed (key, f) -> inhabited obj ->
      engine_runs ExpireCommand f obj)
  /\ (forall f, ParseGetExCommand now args = Parsed (key, f) -> inhabited obj -> engine_runs GetExCommand f obj)
  /\ (forall f, ParseSetCommand now args = Parsed (key, f) ->
      inhabited obj /\ is_Some (as_string obj)
      \/ obj = ObjString str_new /\ (has_flag OBJ_GET_SET (set_flag_ f) = true -> str_small (es_view (set_value_ f))) ->
      engine_runs SetCommand f obj).
Proof.
  intros Ha Hs. split_and!.
  - intros f H. apply (engine_runs_ok SetBitCommand); [done|]. by eapply setbit_parsed.
  - intros f H. apply (engine_runs_ok SetRangeCommand); [done|]. by eapply setrange_parsed.
  - intros f H. apply (engine_runs_ok AppendCommand); [done|]. by eapply append_parsed.
  - intros p f Hp H. apply (engine_runs_ok IntOpCommand); [done|]. by eapply counter_parsed.
  - intros f H Hg Hpad Hn Hf. apply (@engine_runs_ok (BitFieldCommand padding) (bitfield_replayable padding Hpad)); [done|].
    by eapply bitfield_command_parsed.
  - intros pexpire at_ f H Hi. apply (engine_runs_ok ExpireCommand); [done|]. split; [by eapply expire_parsed|done].
  - intros f H Hi. apply (engine_runs_ok GetExCommand); [done|]. split; [by eapply getex_parsed|done].
  - intros f H Hcase. apply (engine_runs_ok SetCommand); [done|]. split; [by eapply set_parsed|].
    destruct Hcase as [[Hi [o Ho]]|[-> Hsmall]]; [|by exists str_new].
    exists o. split; [done|]. intros Hn. by rewrite (stored_not_null obj o ltac:(by split) Ho) in Hn.
Qed.

(** APPEND k c to the string [ab] that expires. *)
Lemma parsed_commands_run_witness : engine_runs AppendCommand (es_of_view (lit "c")) (ObjStringTTL (mkStrTTL s_ab 7)).
Proof.
  destruct (parsed_commands_run 0 0 [] [lit "append"; lit "k"; lit "c"] (lit "k") (ObjStringTTL (mkStrTTL s_ab 7))
    ltac:(repeat constructor; concrete) ltac:(split; [split; [left; exact s_ab_wf|concrete]|concrete])) as (_ & _ & H & _).
  exact (H (es_of_view (lit "c")) eq_refl).
Defined.

(** DECRBY negates its argument: every number but the least one is accepted
    as the opposite increment, and on that one the negation overflows. *)
Theorem decrby_negates (key : bytes) (n : Z) :
  is_i64 n ->
  ParseDecrByCommand [lit "decrby"; key; to_string n] = (if n =? INT64_MIN then Undefined else Parsed (key, - n))
  /\ ParseIncrByCommand [lit "incrby"; key; to_string n] = Parsed (key, n).
Proof. intros H. unfold ParseDecrByCommand, ParseIncrByCommand. by rewrite !parse_ll_print. Qed.

Lemma decrby_negates_witness :
  ParseDecrByCommand [lit "decrby"; lit "k"; lit "-9223372036854775808"] = Undefined.
Proof. exact (proj1 (decrby_negates (lit "k") INT64_MIN ltac:(concrete))). Defined.
