(* ===== verification/MultiCommand.v ===== *)
(** * Commands on several keys

    The driver [RedisServiceImpl::ExecuteMultiObjTxRequest] of
    src/redis_service.cpp, which takes a [RedisMultiObjectCommand] through its
    steps and ends its transaction, and the commands of src/redis_command.cpp
    that it runs: DEL, EXISTS, MSET, MSETNX and MGET, the set operations with
    their store forms, SMOVE, LMOVE, LMPOP and BITOP.  Their children are the
    commands on one key of the other files. *)

From S2P Require Import Prelude Codec EloqString RedisTypes Encoding ListObject StringObject SetObject RedisObject TxCommand ListCommand KeyCommand StringCommand HashSetCommand.

Set Warnings "-clear-no-such-hyp".

(** ** One command in a transaction *)

Abbreviation Db := (gmap bytes RedisEloqObject).

Definition put (key : bytes) (s : option RedisEloqObject) (db : Db) : Db := partial_alter (fun _ => s) key db.

(** The engine looks up the slot, decides the command on the object there, or on
    the one the command creates if it is to run on a missing key, and performs it
    when the verdict says so.  A command that does not run keeps its result. *)
Definition tx_apply (C : CommandClass) (f : cc_fields C) (r : cc_result C) (s : option RedisEloqObject)
    : option (cc_fields C * cc_result C * option RedisEloqObject) :=
  let run obj :=
    '(f', r', v) ← ExecuteOn C f obj r;
    match v with
    | ExecWrite | ExecDelete => s' ← CommitOn C f' obj; Some (f', r', s')
    | _ => Some (f', r', s)
    end in
  match s with
  | Some obj => run obj
  | None => if ProceedOnNonExistentObject C f then obj ← CreateObject C; run obj else Some (f, r, None)
  end.

Definition tx_on (C : CommandClass) (f : cc_fields C) (r : cc_result C) (key : bytes) (db : Db)
    : option (cc_fields C * cc_result C * Db) :=
  '(f, r, s) ← tx_apply C f r (db !! key); Some (f, r, put key s db).

(** The commands of one step, one after the other on their keys. *)
Fixpoint tx_all (C : CommandClass) (cmds : list (bytes * cc_fields C * cc_result C)) (db : Db)
    : option (list (bytes * cc_fields C * cc_result C) * Db) :=
  match cmds with
  | [] => Some ([], db)
  | (key, f, r) :: cmds =>
      '(f, r, db) ← tx_on C f r key db;
      '(cmds, db) ← tx_all C cmds db;
      Some ((key, f, r) :: cmds, db)
  end.

(** ** Commands in several steps *)

(** A command with its children is [mo_state]; a method that asks [curr_step_] is
    given it. *)
Record MultiCommand := mkMulti {
  mo_state : Type;
  mo_init : mo_state;
  CmdSteps : nat;
  run_step : nat -> mo_state -> Db -> option (mo_state * Db);
  HandleMiddleResult : mo_state -> option (mo_state * bool);
  IsPassed : nat -> mo_state -> option bool;
  MultiOutput : nat -> mo_state -> option (list ReplyEvent)
}.

(** What becomes of the transaction: it is committed, aborted, or left to the
    MULTI around the command. *)
Inductive TxEnd := TxCommitted | TxAborted | TxLeft.

Section Driver.

(** Whether the engine takes the request of a step, and whether it commits a
    request that it is to commit itself, given what [IsPassed] says. *)
Context (sent : nat -> bool) (auto_commits : bool -> bool).

(** The loop; [todo] counts the steps after this one.  The first component is
    whether the last request was taken. *)
Fixpoint multi_loop (M : MultiCommand) (todo step : nat) (st : mo_state M) (db : Db) : option (bool * nat * mo_state M * Db) :=
  if sent step then
    '(st, db) ← run_step M step st db;
    match todo with
    | O => Some (true, step, st, db)
    | S todo =>
        '(st, more) ← HandleMiddleResult M st;
        if more : bool then multi_loop M todo (S step) st db else Some (true, step, st, db)
    end
  else Some (false, step, st, db).

(** The request commits itself at the last step only, where [auto_commit_] has its
    initial value again. *)
Definition ExecuteMultiObjTxRequest (M : MultiCommand) (auto_commit : bool) (db : Db)
    : option (bool * list ReplyEvent * TxEnd * Db) :=
  '(success, step, st, db') ← multi_loop M (CmdSteps M - 1) 0 (mo_init M) db;
  let auto_now := auto_commit && (S step =? CmdSteps M)%nat in
  if success : bool then
    reply ← MultiOutput M step st;
    end_ ← (if auto_commit then
              passed ← IsPassed M step st;
              Some (if (if auto_now then auto_commits passed else passed) : bool then TxCommitted else TxAborted)
            else Some TxLeft);
    Some (true, reply, end_, db')
  else Some (false, [], if auto_commit then TxAborted else TxLeft, db').

End Driver.

(** The end of a command that is committed when it has passed, alone or inside
    MULTI. *)
Definition tx_end (auto_commit passed : bool) : TxEnd := if auto_commit then (if passed then TxCommitted else TxAborted) else TxLeft.

(** The data after the command: an aborted transaction leaves none of its
    writes. *)
Definition db_after (end_ : TxEnd) (old new : Db) : Db := match end_ with TxAborted => old | _ => new end.

(** ** Set operations *)

Section SetOperations.

(** The order of the hash tables, and what [IsPassed] of the class of the engine
    says, which these commands do not override. *)
Context (walk : RedisHashSetObject -> list EloqString) (order : gset bytes -> list bytes) (base_passed : bool).

(** The results of the SMEMBERS commands on the keys. *)
Definition read_sets (keys : list bytes) (db : Db) : option (list RedisHashSetResult) :=
  match tx_all (SMembersCommand walk) (map (fun key => (key, tt, set_result0)) keys) db with
  | Some (cmds, _) => Some (map snd cmds)
  | None => None
  end.

(** The first result that is neither good nor that of a missing key.  The code
    looks at [cmds_[0]] first. *)
Fixpoint first_error (results : list RedisHashSetResult) : option Z :=
  match results with
  | [] => None
  | r :: results => if (ss_err_code_ r =? RD_OK) || (ss_err_code_ r =? RD_NIL) then first_error results else Some (ss_err_code_ r)
  end.

Definition members_of (results : list RedisHashSetResult) : gset bytes :=
  list_to_set (concat ((fun r => es_view <$> ss_string_list_ r) <$> results)).

(** The strings of the first result that no other one has. *)
Definition diff_elements (results : list RedisHashSetResult) : list EloqString :=
  match results with
  | [] => []
  | target :: others => filter (fun str => es_view str ∉ members_of others) (ss_string_list_ target)
  end.

Definition SDiff_OutputResult (results : list RedisHashSetResult) : option (list ReplyEvent) :=
  match results with
  | [] => None
  | _ => Some (match first_error results with
               | Some e => [OnError e]
               | None => output_array (es_view <$> diff_elements results)
               end)
  end.

(** [FindSetResultInter]: the position of the shortest result, the first of them,
    and the loop over the others. *)
Fixpoint smallest_index (results : list RedisHashSetResult) (i smallest : nat) (len : nat) : nat :=
  match results with
  | [] => smallest
  | r :: results =>
      if (length (ss_string_list_ r) <? len)%nat then smallest_index results (S i) i (length (ss_string_list_ r))
      else smallest_index results (S i) smallest len
  end.

Fixpoint inter_loop (results : list RedisHashSetResult) (i smallest : nat) (base_set : list EloqString) : list EloqString :=
  match results with
  | [] => base_set
  | r :: results =>
      if (i =? smallest)%nat then inter_loop results (S i) smallest base_set
      else inter_loop results (S i) smallest (filter (fun str => es_view str ∈ members_of [r]) base_set)
  end.

Definition FindSetResultInter (results : list RedisHashSetResult) (limit : Z) : option (list EloqString) :=
  first ← head results;
  let smallest := smallest_index (tail results) 1 0 (length (ss_string_list_ first)) in
  target ← results !! smallest;
  let base_set := inter_loop results 0 smallest (ss_string_list_ target) in
  Some (if limit <? zlen base_set then take (Z.to_nat limit) base_set else base_set).

Definition SInter_OutputResult (results : list RedisHashSetResult) : option (list ReplyEvent) :=
  vct ← FindSetResultInter results UINT64_MAX;
  Some (match first_error results with Some e => [OnError e] | None => output_array (es_view <$> vct) end).

(** [limit_] is an [int64_t] and is passed as a [size_t]. *)
Definition SInterCard_OutputResult (limit_ : Z) (results : list RedisHashSetResult) : option (list ReplyEvent) :=
  vct ← FindSetResultInter results (u64 limit_);
  Some (match first_error results with Some e => [OnError e] | None => [OnInt (zlen vct)] end).

(** The union so far; a wrong type ends the loop. *)
Fixpoint union_loop (results : list RedisHashSetResult) (set : gset bytes) : option (gset bytes) :=
  match results with
  | [] => Some set
  | r :: results =>
      if ss_err_code_ r =? RD_ERR_WRONG_TYPE then None
      else if ss_ret_ r =? 0 then union_loop results set
      else union_loop results (set ∪ members_of [r])
  end.

Definition SUnion_OutputResult (results : list RedisHashSetResult) : option (list ReplyEvent) :=
  Some (match union_loop results ∅ with
        | None => [OnError RD_ERR_WRONG_TYPE]
        | Some set => output_array (order set)
        end).

(** SDIFF, SINTER, SINTERCARD and SUNION have one step. *)
Definition set_reader (keys : list bytes) (output : list RedisHashSetResult -> option (list ReplyEvent)) : MultiCommand := {|
  mo_state := list RedisHashSetResult;
  mo_init := (fun _ => set_result0) <$> keys;
  CmdSteps := 1;
  run_step _ _ db := results ← read_sets keys db; Some (results, db);
  HandleMiddleResult st := Some (st, true);
  IsPassed _ _ := Some base_passed;
  MultiOutput _ := output
|}.

Definition SDiffCommand (keys : list bytes) : MultiCommand := set_reader keys SDiff_OutputResult.
Definition SInterCommand (keys : list bytes) : MultiCommand := set_reader keys SInter_OutputResult.
Definition SInterCardCommand (keys : list bytes) (limit_ : Z) : MultiCommand := set_reader keys (SInterCard_OutputResult limit_).
Definition SUnionCommand (keys : list bytes) : MultiCommand := set_reader keys SUnion_OutputResult.

(** The strings that the store forms hand to the SADD of the second step, moved
    out of the results; [None] inside is a result of a wrong type. *)
Definition moved_out (l : list EloqString) : list EloqString := (fun str => (es_move str).1) <$> l.

Definition SDiffStore_middle (results : list RedisHashSetResult) : option (option (list EloqString)) :=
  match results with
  | [] => None
  | _ => Some (match first_error results with
               | Some _ => None
               | None => Some (moved_out (diff_elements results))
               end)
  end.

Definition SInterStore_middle (results : list RedisHashSetResult) : option (option (list EloqString)) :=
  vct ← FindSetResultInter results UINT64_MAX;
  Some (match first_error results with Some _ => None | None => Some (moved_out vct) end).

(** The elements of an [std::unordered_set] are constant and are copied. *)
Definition SUnionStore_middle (results : list RedisHashSetResult) : option (option (list EloqString)) :=
  Some (match union_loop results ∅ with
        | None => None
        | Some set => Some ((fun str => es_copy (es_own str)) <$> order set)
        end).

Record SetStoreState := mkSetStore {
  sst_results : list RedisHashSetResult;
  sst_store : SAddFields;
  sst_store_result : RedisHashSetResult
}.

Definition set_store (keys : list bytes) (key_store : bytes)
    (middle : list RedisHashSetResult -> option (option (list EloqString))) : MultiCommand := {|
  mo_state := SetStoreState;
  mo_init := mkSetStore ((fun _ => set_result0) <$> keys) (mkSAdd [] true true) set_result0;
  CmdSteps := 2;
  run_step step st db :=
    match step with
    | O => results ← read_sets keys db; Some (mkSetStore results (sst_store st) (sst_store_result st), db)
    | _ => '(store, result, db) ← tx_on SAddCommand (sst_store st) (sst_store_result st) key_store db;
           Some (mkSetStore (sst_results st) store result, db)
    end;
  HandleMiddleResult st :=
    vct ← middle (sst_results st);
    Some (match vct with
          | None => (st, false)
          | Some vct =>
              (mkSetStore (sst_results st) (mkSAdd (sa_vct_paras_ (sst_store st) ++ vct) true true) (sst_store_result st), true)
          end);
  IsPassed _ _ := Some base_passed;
  MultiOutput step st :=
    Some (match step with
          | O => [OnError RD_ERR_WRONG_TYPE]
          | _ => [OnInt (zlen (sa_vct_paras_ (sst_store st)))]
          end)
|}.

Definition SDiffStoreCommand (keys : list bytes) (key : bytes) : MultiCommand := set_store keys key SDiffStore_middle.
Definition SInterStoreCommand (keys : list bytes) (key : bytes) : MultiCommand := set_store keys key SInterStore_middle.
Definition SUnionStoreCommand (keys : list bytes) (key : bytes) : MultiCommand := set_store keys key SUnionStore_middle.

End SetOperations.

(** ** SMOVE *)

Record SMoveState := mkSMove {
  sm_src : list EloqString;              (* [cmd_src_->vct_paras_] *)
  sm_src_result : RedisHashSetResult;
  sm_dst : SAddFields;
  sm_dst_result : RedisHashSetResult
}.

Definition SMove_middle (st : SMoveState) : option (SMoveState * bool) :=
  let r := sm_src_result st in
  if ss_err_code_ r =? RD_ERR_WRONG_TYPE then Some (st, false)
  else if ss_ret_ r =? 1 then
    member ← head (sm_src st);
    let dst := sm_dst st in
    Some (mkSMove (sm_src st) r
            (mkSAdd (sa_vct_paras_ dst ++ [es_of_view (es_view member)]) (sa_force_remove_add_ dst) (sa_is_in_the_middle_stage_ dst))
            (sm_dst_result st), true)
  else Some (st, true).

Definition SMoveCommand (key_src key_dst member : bytes) : MultiCommand := {|
  mo_state := SMoveState;
  mo_init := mkSMove [es_of_view member] set_result0 (mkSAdd [] false false) set_result0;
  CmdSteps := 2;
  run_step step st db :=
    match step with
    | O => '(src, r, db) ← tx_on SRemCommand (sm_src st) (sm_src_result st) key_src db;
           Some (mkSMove src r (sm_dst st) (sm_dst_result st), db)
    | _ => '(dst, r, db) ← tx_on SAddCommand (sm_dst st) (sm_dst_result st) key_dst db;
           Some (mkSMove (sm_src st) (sm_src_result st) dst r, db)
    end;
  HandleMiddleResult := SMove_middle;
  IsPassed _ st := Some ((ss_err_code_ (sm_src_result st) =? RD_OK) && (ss_err_code_ (sm_dst_result st) =? RD_OK));
  MultiOutput step st :=
    Some [match step with
          | O => OnError (ss_err_code_ (sm_src_result st))
          | _ => if ss_err_code_ (sm_dst_result st) =? RD_OK then OnInt (ss_ret_ (sm_src_result st))
                 else OnError (ss_err_code_ (sm_dst_result st))
          end]
|}.

(** ** LMOVE, RPOPLPUSH and LMPOP *)

Section ListMoves.

Context (block_code : BlockOperation -> Z) (block_of : Z -> BlockOperation).

Record LMoveState := mkLMove {
  lm_src_result : RedisListResult;
  lm_dst : ListCmd;
  lm_dst_result : RedisListResult
}.

Definition LMove_middle (is_left_for_dst : bool) (st : LMoveState) : option (LMoveState * bool) :=
  let r := lm_src_result st in
  if lr_err_code_ r =? RD_ERR_WRONG_TYPE then Some (st, false)
  else if lr_ret_ r =? 1 then
    match lr_result_ r with
    | LREloq e =>
        let '(e, rest) := es_move e in
        Some (mkLMove (lr_set_result (LREloq rest) r) (LMovePushCommand is_left_for_dst e true) (lm_dst_result st), true)
    | _ => None
    end
  else Some (st, false).

Definition LMoveCommand (key_src : bytes) (is_left_for_src : bool) (key_dst : bytes) (is_left_for_dst : bool) : MultiCommand := {|
  mo_state := LMoveState;
  mo_init := mkLMove list_result0 (LMovePushCommand is_left_for_dst es_null true) list_result0;
  CmdSteps := 2;
  run_step step st db :=
    match step with
    | O => match tx_on (ListCommands block_code block_of) (LMovePopCommand is_left_for_src) (lm_src_result st) key_src db with
           | Some (_, r, db) => Some (mkLMove r (lm_dst st) (lm_dst_result st), db)
           | None => None
           end
    | _ => match tx_on (ListCommands block_code block_of) (lm_dst st) (lm_dst_result st) key_dst db with
           | Some (dst, r, db) => Some (mkLMove (lm_src_result st) dst r, db)
           | None => None
           end
    end;
  HandleMiddleResult := LMove_middle is_left_for_dst;
  IsPassed _ st := Some ((lr_err_code_ (lm_src_result st) =? RD_OK) && (lr_err_code_ (lm_dst_result st) =? RD_OK));
  MultiOutput step st :=
    match step with
    | O => let r := lm_src_result st in
           Some [if lr_err_code_ r =? RD_NIL then OnNil else OnError (lr_err_code_ r)]
    | _ => let r := lm_dst_result st in
           if lr_err_code_ r =? RD_OK then
             match lr_result_ r with LREloq e => Some [OnString (es_view e)] | _ => None end
           else Some [OnError (lr_err_code_ r)]
    end
|}.

Definition RPopLPushCommand (key_src key_dst : bytes) : MultiCommand := LMoveCommand key_src false key_dst true.

Definition pop_cmd_ (from_left : bool) (count : Z) : ListCmd := if from_left then LPopCommand (i32 count) else RPopCommand (i32 count).

(** One pop command goes from key to key with its result. *)
Definition LMPopCommand (keys_ : list bytes) (from_left : bool) (count : Z) : MultiCommand := {|
  mo_state := RedisListResult;
  mo_init := list_result0;
  CmdSteps := length keys_;
  run_step step r db :=
    key ← keys_ !! step;
    match tx_on (ListCommands block_code block_of) (pop_cmd_ from_left count) r key db with
    | Some (_, r, db) => Some (r, db)
    | None => None
    end;
  HandleMiddleResult r := Some (r, (lr_err_code_ r =? RD_NIL) || ((lr_err_code_ r =? RD_OK) && (lr_ret_ r =? 0)));
  IsPassed _ r := Some ((lr_err_code_ r =? RD_OK) || (lr_err_code_ r =? RD_NIL));
  MultiOutput step r :=
    if lr_err_code_ r =? RD_OK then
      if lr_ret_ r =? 0 then Some [OnNil]
      else
        key ← keys_ !! step;
        match lr_result_ r with
        | LRStrings l => Some (OnArrayStart 2 :: OnString key :: output_array l ++ [OnArrayEnd])
        | _ => None
        end
    else Some [if lr_err_code_ r =? RD_NIL then OnNil else OnError (lr_err_code_ r)]
|}.

End ListMoves.

(** ** DEL, EXISTS, MGET, MSET and MSETNX *)

(** The commands of one step, by class. *)
Abbreviation Children C := (list (bytes * cc_fields C * cc_result C)).

Definition one_step (C : CommandClass) (passed : bool) (cmds : Children C) (output : Children C -> option (list ReplyEvent)) : MultiCommand := {|
  mo_state := Children C;
  mo_init := cmds;
  CmdSteps := 1;
  run_step _ := tx_all C;
  HandleMiddleResult st := Some (st, true);
  IsPassed _ _ := Some passed;
  MultiOutput _ := output
|}.

(** [cnt] is an [int64_t] that the counts of the commands cannot pass. *)
Definition sum_output (results : list RedisIntResult) : option (list ReplyEvent) := Some [OnInt (zsum ir_int_val_ results)].

Definition MDelCommand (passed : bool) (keys : list bytes) (lazy_delete : bool) : MultiCommand :=
  one_step DelCommand passed (map (fun key => (key, lazy_delete, int_result0)) keys) (fun cmds => sum_output (map snd cmds)).

Definition exist_children (counts : list (bytes * Z)) : Children ExistsCommand := map (fun kc => (kc.1, kc.2, int_result0)) counts.

Definition MExistsCommand (passed : bool) (counts : list (bytes * Z)) : MultiCommand :=
  one_step ExistsCommand passed (exist_children counts) (fun cmds => sum_output (map snd cmds)).

(** A wrong type counts as a missing key. *)
Definition mget_reply (r : RedisStringResult) : option (list ReplyEvent) :=
  if (sr_err_code_ r =? RD_OK) || (sr_err_code_ r =? RD_NIL) then str_output_string r else Some [OnNil].

(** The reply goes through the commands in the order of the arguments; [raw_cmds_]
    are their positions. *)
Definition mget_output (raw_cmds_ : list nat) (results : list RedisStringResult) : option (list ReplyEvent) :=
  replies ← mapM (fun i => r ← results !! i; mget_reply r) raw_cmds_;
  Some (OnArrayStart (zlen raw_cmds_) :: concat replies ++ [OnArrayEnd]).

Definition get_children (keys : list bytes) : Children GetCommand := map (fun key => (key, tt, string_result0)) keys.

Definition MGetCommand (passed : bool) (keys : list bytes) (raw_cmds_ : list nat) : MultiCommand :=
  one_step GetCommand passed (get_children keys) (fun cmds => mget_output raw_cmds_ (map snd cmds)).

(** [SetCommand(value)]. *)
Definition plain_set (value : bytes) : SetFields := mkSetCmd (es_of_view value) 0 UINT64_MAX.

Definition set_children (pairs : list (bytes * bytes)) : Children SetCommand :=
  map (fun kv => (kv.1, plain_set kv.2, string_result0)) pairs.

Definition MSetCommand (passed : bool) (pairs : list (bytes * bytes)) : MultiCommand :=
  one_step SetCommand passed (set_children pairs) (fun _ => Some [OnStatus RD_OK]).

(** The loop over [exist_cmds_]; [None]: an assertion fails. *)
Definition exist_asserted (cmd : bytes * Z * RedisIntResult) : bool := (ir_err_code_ cmd.2 =? RD_OK) || (ir_err_code_ cmd.2 =? RD_NIL).

Fixpoint MSetNx_middle (exist_cmds_ : Children ExistsCommand) : option bool :=
  match exist_cmds_ with
  | [] => Some true
  | cmd :: cmds =>
      if negb (exist_asserted cmd) then None
      else if negb (ir_int_val_ cmd.2 =? 0) then Some false
      else MSetNx_middle cmds
  end.

(** The keys are asked for first, and set only if none exists.  [IsPassed] is true
    whenever its assertions hold. *)
Definition MSetNxCommand (counts : list (bytes * Z)) (pairs : list (bytes * bytes)) : MultiCommand := {|
  mo_state := Children ExistsCommand * Children SetCommand;
  mo_init := (exist_children counts, set_children pairs);
  CmdSteps := 2;
  run_step step st db :=
    match step with
    | O => '(cmds, db) ← tx_all ExistsCommand st.1 db; Some ((cmds, st.2), db)
    | _ => '(cmds, db) ← tx_all SetCommand st.2 db; Some ((st.1, cmds), db)
    end;
  HandleMiddleResult st := more ← MSetNx_middle st.1; Some (st, more);
  IsPassed step st :=
    if match step with
       | O => forallb exist_asserted st.1
       | _ => forallb (fun cmd => sr_err_code_ cmd.2 =? RD_OK) st.2
       end
    then Some true else None;
  MultiOutput step _ := Some [match step with O => OnInt 0 | _ => OnInt 1 end]
|}.

(** ** BITOP *)

Inductive BitOpType := BitAnd | BitOr | BitXor | BitNot.

#[export] Instance BitOpType_eq_dec : EqDecision BitOpType.
Proof. solve_decision. Defined.

(** [pv[j] = pv[j] op str[j]]; NOT has one source and is done before. *)
Definition bit_op (op : BitOpType) (x y : byte) : byte :=
  match op with
  | BitAnd => z2b (Z.land (b2z x) (b2z y))
  | BitOr => z2b (Z.lor (b2z x) (b2z y))
  | BitXor => z2b (Z.lxor (b2z x) (b2z y))
  | BitNot => x
  end.

Definition pad (len : nat) (s : bytes) : bytes := s ++ replicate (len - length s) Init.Byte.x00.

(** [pv[j]] where the source has ended. *)
Definition bit_rest (op : BitOpType) (x : byte) : byte :=
  match op with
  | BitAnd => Init.Byte.x00
  | BitXor => z2b (Z.lxor (b2z x) 0)
  | _ => x
  end.

(** One more source. *)
Definition bitop_source (op : BitOpType) (pv str : bytes) : bytes :=
  zip_with (bit_op op) pv str ++ (bit_rest op <$> drop (length str) pv).

Definition bitop_dest (op : BitOpType) (sources : list bytes) : option bytes :=
  match sources with
  | [] => None
  | first :: rest =>
      let len := foldr (fun s n => Nat.max (length s) n) 0%nat sources in
      let pv := match op with
                | BitNot => (fun c => z2b (255 - b2z c)) <$> first
                | _ => pad len first
                end in
      Some (foldl (bitop_source op) pv rest)
  end.

(** The position of the first source whose command failed. *)
Fixpoint bitop_error (results : list RedisStringResult) (i : Z) : option Z :=
  match results with
  | [] => None
  | r :: results => if (sr_err_code_ r =? RD_NIL) || (sr_err_code_ r =? RD_OK) then bitop_error results (i + 1) else Some i
  end.

Record BitOpState := mkBitOp {
  bo_sources : Children GetCommand;
  bo_set : SetFields * RedisStringResult;
  bo_del : RedisIntResult;
  bo_to_del_ : bool;
  bo_err_pos_ : Z;
  bo_str_dest_ : bytes
}.

Definition BitOp_middle (op : BitOpType) (st : BitOpState) : option (BitOpState * bool) :=
  let results := map snd (bo_sources st) in
  match bitop_error results 0 with
  | Some i => Some (mkBitOp (bo_sources st) (bo_set st) (bo_del st) (bo_to_del_ st) i (bo_str_dest_ st), false)
  | None =>
      dest ← bitop_dest op (sr_str_ <$> results);
      Some (match dest with
            | [] => mkBitOp (bo_sources st) (bo_set st) (bo_del st) true (bo_err_pos_ st) dest
            | _ => mkBitOp (bo_sources st) (plain_set dest, (bo_set st).2) (bo_del st) (bo_to_del_ st) (bo_err_pos_ st) dest
            end, true)
  end.

Definition BitOpCommand (op : BitOpType) (s_keys : list bytes) (dst_key : bytes) : MultiCommand := {|
  mo_state := BitOpState;
  mo_init := mkBitOp (get_children s_keys) (mkSetCmd es_null 0 UINT64_MAX, string_result0) int_result0 false (-1) [];
  CmdSteps := 2;
  run_step step st db :=
    match step with
    | O => match tx_all GetCommand (bo_sources st) db with
           | Some (cmds, db) => Some (mkBitOp cmds (bo_set st) (bo_del st) (bo_to_del_ st) (bo_err_pos_ st) (bo_str_dest_ st), db)
           | None => None
           end
    | _ => if bo_to_del_ st then
             match tx_on DelCommand false (bo_del st) dst_key db with
             | Some (_, r, db) => Some (mkBitOp (bo_sources st) (bo_set st) r (bo_to_del_ st) (bo_err_pos_ st) (bo_str_dest_ st), db)
             | None => None
             end
           else
             match tx_on SetCommand (bo_set st).1 (bo_set st).2 dst_key db with
             | Some (f, r, db) => Some (mkBitOp (bo_sources st) (f, r) (bo_del st) (bo_to_del_ st) (bo_err_pos_ st) (bo_str_dest_ st), db)
             | None => None
             end
    end;
  HandleMiddleResult := BitOp_middle op;
  IsPassed step st :=
    Some (match step with
          | O => 0 <=? bo_err_pos_ st
          | _ => if bo_to_del_ st then ir_err_code_ (bo_del st) =? RD_OK else sr_err_code_ (bo_set st).2 =? RD_OK
          end);
  MultiOutput step st :=
    match step with
    | O => cmd ← bo_sources st !! Z.to_nat (bo_err_pos_ st); Some [OnError (sr_err_code_ cmd.2)]
    | _ =>
        Some [if bo_to_del_ st then
                let e := ir_err_code_ (bo_del st) in
                if e =? RD_OK then OnInt (zlen (bo_str_dest_ st)) else if e =? RD_NIL then OnInt 0 else OnError e
              else
                let e := sr_err_code_ (bo_set st).2 in
                if e =? RD_OK then OnInt (zlen (bo_str_dest_ st)) else OnError e]
    end
|}.

(** An engine that commits what has passed ends the transaction as the driver
    does. *)
Lemma tx_end_of (auto_commits : bool -> bool) (auto_commit last : bool) (p : option bool) :
  (forall passed, auto_commits passed = passed) ->
  (if auto_commit then passed ← p; Some (if (if auto_commit && last then auto_commits passed else passed) : bool then TxCommitted else TxAborted)
   else Some TxLeft)
  = if auto_commit then tx_end true <$> p else Some TxLeft.
Proof. intros H. destruct auto_commit; [|done]. destruct p as [p|]; [|done]. cbn. rewrite H. by destruct last. Qed.

(** ** The slots of a database *)

(** The set in a slot. *)
Definition slot_set (s : option RedisEloqObject) : option (gset bytes) :=
  match s with None => Some ∅ | Some obj => set_contents <$> as_set obj end.

(** The set under a key, empty if there is none; [None] for another type. *)
Definition set_at (db : Db) (key : bytes) : option (gset bytes) := slot_set (db !! key).

Definition db_sound (db : Db) : Prop := forall key, slot_sound (db !! key).

Lemma put_same key db : put key (db !! key) db = db.
Proof. apply map_eq. intros k. unfold put. destruct (decide (k = key)) as [-> |Hk]; [by rewrite lookup_partial_alter_eq|by rewrite lookup_partial_alter_ne]. Qed.

Lemma lookup_put key s db : put key s db !! key = s.
Proof. apply lookup_partial_alter_eq. Qed.

Lemma lookup_put_ne key k s db : key <> k -> put key s db !! k = db !! k.
Proof. intros H. by apply lookup_partial_alter_ne. Qed.

Lemma put_sound key s db : db_sound db -> slot_sound s -> db_sound (put key s db).
Proof. intros Hdb Hs k. destruct (decide (key = k)) as [-> |Hk]; [by rewrite lookup_put|by rewrite lookup_put_ne]. Qed.

Lemma perm_elements (l : list bytes) (s : gset bytes) : NoDup l -> (forall x, x ∈ l <-> x ∈ s) -> l ≡ₚ elements s.
Proof. intros Hl H. apply NoDup_Permutation; [done|apply NoDup_elements|]. intros x. by rewrite H, elem_of_elements. Qed.

(** ** What SMEMBERS brings *)

(** A result that holds the set. *)
Definition holds (r : RedisHashSetResult) (s : gset bytes) : Prop :=
  (ss_err_code_ r = RD_OK \/ ss_err_code_ r = RD_NIL)
  /\ (exists l, ss_string_list_ r = es_own <$> l /\ l ≡ₚ elements s)
  /\ set_fits s /\ Z.of_nat (size s) <= INT32_MAX /\ (ss_ret_ r = 0 <-> s = ∅).

Section Read.

Context (walk : RedisHashSetObject -> list EloqString) (Hwalk : forall o, set_iter o (walk o)).

Lemma smembers_read db key : db_sound db ->
  exists r, tx_on (SMembersCommand walk) tt set_result0 key db = Some (tt, r, db)
  /\ match set_at db key with Some s => holds r s | None => ss_err_code_ r = RD_ERR_WRONG_TYPE end.
Proof using Hwalk.
  intros Hdb. specialize (Hdb key). unfold tx_on, tx_apply, set_at, slot_set. destruct (db !! key) as [obj|] eqn:E.
  - destruct Hdb as [Hs _]. cbn [ExecuteOn SMembersCommand]. unfold set_read. destruct (as_set obj) as [o|] eqn:Ho.
    + destruct (commit_set_lens obj o Hs Ho) as (s & _ & -> & Hsm & _). cbn [mbind option_bind fmap option_fmap option_map]. rewrite <- E, put_same. eexists. split; [done|].
      rewrite set_contents_of. split; [by left|]. destruct (set_iter_of s _ (Hwalk _)) as (l & Hl & Hp).
      split; [exists l; split; [|done]; cbn; rewrite Hl; apply clone_own_map; exact (order_fits s l (proj1 Hsm) Hp)|]. split; [apply Hsm|].
      pose proof (set_small_size s Hsm). split; [done|]. cbn. rewrite set_size_of, i32_id by (mach; lia). by rewrite empty_size.
    + cbn. rewrite <- E, put_same. by eexists.
  - cbn. rewrite <- E, put_same. eexists. split; [done|]. split; [by right|]. split; [by exists []|]. split; [set_solver|]. done.
Qed.

Lemma read_sets_of db keys : db_sound db -> exists results, read_sets walk keys db = Some results
  /\ Forall2 (fun r key => match set_at db key with Some s => holds r s | None => ss_err_code_ r = RD_ERR_WRONG_TYPE end) results keys.
Proof using Hwalk.
  intros Hdb. unfold read_sets.
  assert (exists cmds, tx_all (SMembersCommand walk) (map (fun key => (key, tt, set_result0)) keys) db = Some (cmds, db)
    /\ Forall2 (fun r key => match set_at db key with Some s => holds r s | None => ss_err_code_ r = RD_ERR_WRONG_TYPE end)
         (map snd cmds) keys) as (cmds & -> & H); [|by eexists].
  induction keys as [|key keys (cmds & IH & IHf)]; [by exists []|].
  destruct (smembers_read db key Hdb) as (r & E & Hr). exists ((key, tt, r) :: cmds).
  cbn [map tx_all]. rewrite E. cbn [mbind option_bind]. rewrite IH. cbn. split; [done|]. by constructor.
Qed.

End Read.

(** ** The algebra of the results *)

Inductive SetOp := OpDiff | OpInter | OpUnion.

(** What the operations mean. *)
Definition set_spec (op : SetOp) (sets : list (gset bytes)) : gset bytes :=
  match op, sets with
  | OpDiff, s :: sets => s ∖ ⋃ sets
  | OpInter, s :: sets => foldr (∩) s sets
  | OpUnion, sets => ⋃ sets
  | _, [] => ∅
  end.

Lemma elem_of_foldr_inter (s : gset bytes) sets x : x ∈ foldr (∩) s sets <-> x ∈ s /\ Forall (fun s => x ∈ s) sets.
Proof. induction sets as [|s' sets IH]; cbn; rewrite ?list.Forall_cons, ?elem_of_intersection; [|tauto]. rewrite list.Forall_nil. tauto. Qed.

Lemma holds_no_error results sets : Forall2 holds results sets -> first_error results = None.
Proof.
  induction 1 as [|r s results sets [He _] _ IH]; [done|]. cbn. by destruct He as [-> | ->].
Qed.

Lemma members_of_cons r results : members_of (r :: results) = list_to_set (es_view <$> ss_string_list_ r) ∪ members_of results.
Proof. unfold members_of. cbn. by rewrite list_to_set_app_L. Qed.

Lemma view_es_own (l : list bytes) : es_view <$> (es_own <$> l) = l.
Proof. rewrite <- list_fmap_compose. apply list_fmap_id. Qed.

Lemma holds_members results sets : Forall2 holds results sets -> members_of results = ⋃ sets.
Proof.
  induction 1 as [|r s results sets (_ & (l & Hl & Hp) & _) _ IH]; [done|].
  rewrite members_of_cons, IH, Hl, view_es_own. cbn. f_equal. by rewrite Hp, list_to_set_elements_L.
Qed.

Lemma holds_member r s : holds r s -> members_of [r] = s.
Proof. intros H. rewrite (holds_members [r] [s]) by (constructor; [done|constructor]). cbn. by rewrite union_empty_r_L. Qed.

(** A list of owned strings that spells a set. *)
Definition spells (els : list EloqString) (s : gset bytes) : Prop := exists l, els = es_own <$> l /\ l ≡ₚ elements s.

Lemma filter_own (P : bytes -> Prop) `{!forall x, Decision (P x)} `{!forall e, Decision (P (es_view e))} (l : list bytes) :
  filter (fun str => P (es_view str)) (es_own <$> l) = es_own <$> filter P l.
Proof.
  induction l as [|x l IH]; [done|]. cbn [fmap list_fmap]. rewrite !filter_cons. cbn [es_view es_own]. rewrite IH.
  by repeat case_decide.
Qed.

Lemma diff_spells results sets : Forall2 holds results sets -> spells (diff_elements results) (set_spec OpDiff sets).
Proof.
  intros [|r s results' sets' (_ & (l & Hl & Hp) & _) Hf]; [by exists []|]. cbn [diff_elements set_spec].
  rewrite (holds_members results' sets') by done. rewrite Hl.
  exists (filter (fun x => x ∉ ⋃ sets') l). split; [by rewrite (filter_own (fun x => x ∉ ⋃ sets'))|].
  apply perm_elements; [apply list.NoDup_filter; rewrite Hp; apply NoDup_elements|].
  intros x. rewrite list_elem_of_filter, Hp, elem_of_elements. set_solver.
Qed.

Lemma smallest_index_bound results i smallest len : (smallest < i)%nat -> (smallest_index results i smallest len < i + length results)%nat.
Proof.
  revert i smallest len. induction results as [|r results IH]; intros i smallest len H; cbn [smallest_index length]; [lia|].
  destruct (_ <? _)%nat; [specialize (IH (S i) i (length (ss_string_list_ r)))|specialize (IH (S i) smallest len)]; lia.
Qed.

Lemma inter_loop_of results sets i smallest l : Forall2 holds results sets -> NoDup l ->
  exists l', inter_loop results i smallest (es_own <$> l) = es_own <$> l' /\ NoDup l'
  /\ forall x, x ∈ l' <-> x ∈ l /\ forall j s, sets !! j = Some s -> (i + j)%nat <> smallest -> x ∈ s.
Proof.
  intros Hf. revert i l. induction Hf as [|r s results sets Hr _ IH]; intros i l Hl.
  { exists l. split; [done|]. split; [done|]. intros x. split; [intros H; split; [done|]; intros j s; by rewrite lookup_nil|by intros []]. }
  cbn [inter_loop]. destruct (Nat.eqb_spec i smallest) as [-> |Hi].
  - destruct (IH (S smallest) l Hl) as (l' & E & Hnd & Hin). exists l'. split; [done|]. split; [done|]. intros x. rewrite Hin.
    split; (intros [H1 H2]; split; [done|]; intros j s').
    + destruct j as [|j]; cbn; [lia|]. intros Hj Hne. apply (H2 j s' Hj). lia.
    + intros Hj Hne. apply (H2 (S j) s'); [done|lia].
  - rewrite (holds_member r s Hr), (filter_own (fun x => x ∈ s)).
    destruct (IH (S i) (filter (fun x => x ∈ s) l) (list.NoDup_filter _ _ Hl)) as (l' & E & Hnd & Hin). exists l'. split; [done|]. split; [done|].
    intros x. rewrite Hin, list_elem_of_filter. split.
    + intros [[H1 H2] H3]. split; [done|]. intros [|j] s'; cbn; [by intros [= <-]|]. intros Hj Hne. apply (H3 j s' Hj). lia.
    + intros [H1 H2]. split; [split; [apply (H2 0%nat s); [done|lia]|done]|]. intros j s' Hj Hne. apply (H2 (S j) s'); [done|lia].
Qed.

Lemma inter_spells results sets limit : Forall2 holds results sets -> results <> [] -> 0 <= limit ->
  exists els l, FindSetResultInter results limit = Some els /\ l ≡ₚ elements (set_spec OpInter sets)
  /\ els = es_own <$> take (Z.to_nat limit) l.
Proof.
  intros Hf Hne Hlim. destruct Hf as [|r s results sets Hr Hf]; [done|]. unfold FindSetResultInter. cbn [head tail mbind option_bind].
  set (small := smallest_index _ _ _ _).
  assert (small < length (r :: results))%nat as Hb.
  { pose proof (smallest_index_bound results 1 0 (length (ss_string_list_ r)) ltac:(lia)). cbn [length]. fold small in H. lia. }
  assert (Forall2 holds (r :: results) (s :: sets)) as Hall by by constructor.
  destruct (lookup_lt_is_Some_2 (r :: results) small Hb) as [target Ht]. rewrite Ht. cbn [mbind option_bind].
  destruct (Forall2_lookup_l _ _ _ _ _ Hall Ht) as (st & Hst & Hhold). destruct Hhold as (_ & (l & Hl & Hp) & _ & Hsz & _).
  rewrite Hl. destruct (inter_loop_of (r :: results) (s :: sets) 0 small l Hall) as (l' & E & Hnd & Hin); [rewrite Hp; apply NoDup_elements|].
  rewrite E. exists (es_own <$> take (Z.to_nat limit) l'), l'. split; [|split; [|done]].
  - f_equal. unfold zlen. rewrite length_fmap. destruct (Z.ltb_spec limit (Z.of_nat (length l'))).
    + by rewrite fmap_take.
    + by rewrite take_ge by lia.
  - apply perm_elements; [done|]. intros x. rewrite Hin, Hp, elem_of_elements. cbn [set_spec]. rewrite elem_of_foldr_inter.
    split.
    + intros [H1 H2]. assert (forall j s', (s :: sets) !! j = Some s' -> x ∈ s') as H.
      { intros j s' Hj. destruct (decide (j = small)) as [-> |Hjs]; [by simplify_eq|]. by apply (H2 j s' Hj). }
      split; [by apply (H 0%nat)|]. apply Forall_lookup. intros j s' Hj. by apply (H (S j)).
    + intros [H1 H2]. rewrite Forall_lookup in H2. assert (forall j s', (s :: sets) !! j = Some s' -> x ∈ s') as H.
      { intros [|j] s'; cbn; [by intros [= <-]|apply H2]. }
      split; [by apply (H small)|]. intros j s' Hj _. by apply (H j).
Qed.

Lemma inter_size results sets : Forall2 holds results sets -> Z.of_nat (length (elements (set_spec OpInter sets))) <= INT32_MAX.
Proof.
  intros [|r s results' sets' (_ & _ & _ & Hsz & _) _]; [cbn; concrete|]. cbn [set_spec].
  change (length (elements (foldr (∩) s sets'))) with (size (foldr (∩) s sets')). assert (size (foldr (∩) s sets') <= size s)%nat; [|lia].
  apply subseteq_size. intros x. rewrite elem_of_foldr_inter. tauto.
Qed.

Lemma moved_out_own (l : list bytes) : moved_out (es_own <$> l) = es_own <$> l.
Proof. unfold moved_out. rewrite <- list_fmap_compose. apply list_fmap_ext. intros i v _. apply es_move_own. Qed.

Lemma es_copy_own v : es_copy (es_own v) = es_own v.
Proof. unfold es_copy, es_own, owned_type. cbn. by case_decide. Qed.

Lemma inter_defined results limit : results <> [] -> is_Some (FindSetResultInter results limit).
Proof.
  intros Hne. destruct results as [|r results]; [done|]. unfold FindSetResultInter. cbn [head tail mbind option_bind].
  destruct (lookup_lt_is_Some_2 (r :: results) (smallest_index results 1 0 (length (ss_string_list_ r)))) as [t ->]; [|done].
  pose proof (smallest_index_bound results 1 0 (length (ss_string_list_ r)) ltac:(lia)). cbn [length]. lia.
Qed.

Lemma union_loop_of results sets s0 : Forall2 holds results sets -> union_loop results s0 = Some (s0 ∪ ⋃ sets).
Proof.
  intros Hf. revert s0. induction Hf as [|r s results sets Hr _ IH]; intros s0; cbn [union_loop]; [cbn; by rewrite union_empty_r_L|].
  rewrite union_list_cons. pose proof (holds_member r s Hr) as Hm. destruct Hr as (He & _ & _ & _ & Hret).
  assert ((ss_err_code_ r =? RD_ERR_WRONG_TYPE) = false) as -> by (by destruct He as [-> | ->]).
  destruct (Z.eqb_spec (ss_ret_ r) 0) as [H0|H0]; rewrite IH.
  - apply Hret in H0 as ->. f_equal. set_solver.
  - rewrite Hm. f_equal. set_solver.
Qed.

(** ** Running the set operations *)

(** The commands by their operation. *)
Definition reader_output (order : gset bytes -> list bytes) (op : SetOp) : list RedisHashSetResult -> option (list ReplyEvent) :=
  match op with OpDiff => SDiff_OutputResult | OpInter => SInter_OutputResult | OpUnion => SUnion_OutputResult order end.

Definition store_middle (order : gset bytes -> list bytes) (op : SetOp) : list RedisHashSetResult -> option (option (list EloqString)) :=
  match op with OpDiff => SDiffStore_middle | OpInter => SInterStore_middle | OpUnion => SUnionStore_middle order end.

(** What a SADD that replaces the object under its key does. *)
Definition store_test (s : gset bytes) : Z := set_image_len s - 5 + 4 * Z.of_nat (size s).

Definition stored (s : gset bytes) : option RedisEloqObject := if decide (s = ∅) then None else Some (ObjSet (set_of s)).

Lemma spells_len els s : spells els s -> zlen els = Z.of_nat (size s) /\ zsum elem_len (es_view <$> els) = set_image_len s - 5
  /\ add_all ∅ (es_view <$> els) = s /\ (els = [] <-> s = ∅).
Proof.
  intros (l & -> & Hp). rewrite view_es_own. split_and!.
  - unfold zlen. rewrite length_fmap. by rewrite (order_length s l Hp).
  - unfold set_image_len. rewrite (zsum_perm _ _ _ Hp). lia.
  - by apply order_restored.
  - split; [intros E|intros ->].
    + destruct l; [|done]. apply leibniz_equiv, elements_empty_iff. by apply Permutation_nil_l in Hp.
    + rewrite elements_empty in Hp. by apply Permutation_nil_r in Hp as ->.
Qed.

Lemma spells_ok els s : spells els s -> set_fits s -> Z.of_nat (size s) <= INT32_MAX -> members_ok els.
Proof.
  intros Hs Hf Hz. destruct (spells_len els s Hs) as (Hl & _). split; [|lia]. destruct Hs as (l & -> & Hp).
  rewrite Forall_fmap. apply (order_fits s l Hf Hp).
Qed.

Lemma store_run els s r key db : spells els s -> set_fits s -> Z.of_nat (size s) <= INT32_MAX ->
  exists r', tx_on SAddCommand (mkSAdd els true true) r key db
  = Some (mkSAdd els true true, r', if MAX_OBJECT_SIZE <? store_test s then db else put key (stored s) db).
Proof.
  intros Hs Hf Hz. pose proof (spells_ok els s Hs Hf Hz) as Hok. destruct (spells_len els s Hs) as (Hl & Hsum & Hadd & Hnil).
  assert (forall obj, ExecuteOn SAddCommand (mkSAdd els true true) obj r
    = if MAX_OBJECT_SIZE <? store_test s then Some (mkSAdd els true true, ss_set_err RD_ERR_OBJECT_TOO_BIG r, ExecFail)
      else Some (mkSAdd els true true, ss_set_ret (i32 (zlen els)) (ss_set_err RD_OK r), match els with [] => ExecDelete | _ => ExecWrite end)) as HE.
  { intros obj. cbn [ExecuteOn SAddCommand]. unfold SAdd_ExecuteOn. cbn [sa_vct_paras_ sa_force_remove_add_].
    rewrite (store_len_of els Hok), Hsum, Hl. unfold store_test. done. }
  assert (forall obj, CommitOn SAddCommand (mkSAdd els true true) obj = Some (stored s)) as HC.
  { intros obj. cbn [CommitOn SAddCommand]. unfold SAdd_CommitOn, stored. cbn [sa_vct_paras_ sa_force_remove_add_ sa_is_in_the_middle_stage_].
    destruct els as [|e els]; [by rewrite decide_True by by apply Hnil|]. rewrite decide_False by (intros E; by apply Hnil in E).
    rewrite set_new_of, CommitSAdd_of by apply Hok. rewrite Hadd. unfold null_if_empty.
    rewrite bool_decide_false by (intros E; by apply Hnil in E). done. }
  unfold tx_on, tx_apply. destruct (db !! key) as [obj|] eqn:E.
  - rewrite HE. destruct (MAX_OBJECT_SIZE <? store_test s); cbn [mbind option_bind]; [rewrite <- E, put_same; by eexists|].
    destruct els; rewrite HC; by eexists.
  - cbn [ProceedOnNonExistentObject CreateObject SAddCommand mbind option_bind]. rewrite HE.
    destruct (MAX_OBJECT_SIZE <? store_test s); cbn [mbind option_bind]; [rewrite <- E, put_same; by eexists|].
    destruct els; rewrite HC; by eexists.
Qed.

Lemma set_spec_fits op results sets : Forall2 holds results sets -> set_fits (set_spec op sets).
Proof.
  intros Hf. assert (set_fits (⋃ sets)) as Hu.
  { intros x. rewrite elem_of_union_list. intros (s & Hs & Hx). apply list_elem_of_lookup in Hs as [i Hi].
    destruct (Forall2_lookup_r _ _ _ _ _ Hf Hi) as (r & _ & (_ & _ & Hfit & _)). by apply Hfit. }
  intros x Hx. apply Hu. destruct Hf as [|r s results' sets' _ _]; [by destruct op|]. rewrite union_list_cons.
  destruct op; cbn [set_spec] in Hx; [set_solver|apply elem_of_foldr_inter in Hx; set_solver|done].
Qed.

Lemma stored_sound s : set_fits s -> store_test s <= MAX_OBJECT_SIZE -> set_image_len s <> MAX_OBJECT_SIZE + 1 -> slot_sound (stored s).
Proof.
  intros Hf Ht Hne. unfold stored. case_decide as Hs; [done|].
  assert (set_image_len s <= MAX_OBJECT_SIZE).
  { unfold store_test in Ht. assert (size s <> 0)%nat by (intros E; apply Hs, leibniz_equiv, size_empty_iff, E). lia. }
  split; [split; [by apply set_of_sound|done]|]. cbn [inhabited]. by rewrite set_contents_of.
Qed.

Section SetTheorems.

Context (walk : RedisHashSetObject -> list EloqString) (order : gset bytes -> list bytes).
Hypothesis Hwalk : forall o, set_iter o (walk o).
Hypothesis Horder : forall s, order s ≡ₚ elements s.

Lemma sets_read db keys sets : db_sound db -> mapM (set_at db) keys = Some sets ->
  exists results, read_sets walk keys db = Some results /\ Forall2 holds results sets.
Proof using Hwalk.
  intros Hdb Hm. destruct (read_sets_of walk Hwalk db keys Hdb) as (results & E & Hf). exists results. split; [done|]. clear E.
  apply mapM_Some in Hm. revert sets Hm. induction Hf as [|r key results keys Hr _ IH]; intros sets Hm; inversion Hm as [|? s ? sets' Hs Hm']; subst.
  - constructor.
  - rewrite Hs in Hr. constructor; [done|]. by apply IH.
Qed.

(** One key of another type is told by every operation. *)
Lemma wrong_type_read db keys : db_sound db -> mapM (set_at db) keys = None ->
  exists results, read_sets walk keys db = Some results /\ results <> []
  /\ first_error results = Some RD_ERR_WRONG_TYPE /\ forall s, union_loop results s = None.
Proof using Hwalk.
  intros Hdb Hm. destruct (read_sets_of walk Hwalk db keys Hdb) as (results & E & Hf). exists results. split; [done|]. clear E.
  apply mapM_None in Hm. induction Hf as [|r key results keys Hr _ IH]; [by inversion Hm|].
  destruct (set_at db key) as [s|] eqn:Es.
  - assert (Exists (fun key => set_at db key = None) keys) as Hm' by (inversion Hm; by simplify_eq). destruct (IH Hm') as (_ & IH1 & IH2).
    split; [done|]. destruct Hr as (He & _). split.
    + cbn. by destruct He as [-> | ->].
    + intros s0. cbn [union_loop]. assert ((ss_err_code_ r =? RD_ERR_WRONG_TYPE) = false) as -> by (by destruct He as [-> | ->]).
      by destruct (ss_ret_ r =? 0); rewrite IH2.
  - split; [done|]. cbn. by rewrite Hr.
Qed.

Lemma reader_output_of op results sets : Forall2 holds results sets -> results <> [] ->
  exists l, reader_output order op results = Some (output_array l) /\ l ≡ₚ elements (set_spec op sets).
Proof using Horder.
  intros Hf Hne. destruct op; cbn [reader_output].
  - destruct (diff_spells results sets Hf) as (l & El & Hl). exists l. split; [|done]. unfold SDiff_OutputResult.
    rewrite (holds_no_error results sets Hf), El, view_es_own. by destruct results.
  - destruct (inter_spells results sets UINT64_MAX Hf Hne ltac:(concrete)) as (els & l & E & Hl & ->). exists l. split; [|done].
    unfold SInter_OutputResult. rewrite E. cbn [mbind option_bind]. rewrite (holds_no_error results sets Hf), view_es_own.
    by rewrite take_ge by (apply inter_size in Hf; rewrite Hl; mach; lia).
  - exists (order (set_spec OpUnion sets)). split; [|apply Horder]. unfold SUnion_OutputResult.
    rewrite (union_loop_of results sets ∅ Hf). by rewrite union_empty_l_L.
Qed.

Lemma store_middle_of op results sets : Forall2 holds results sets -> results <> [] ->
  exists els, store_middle order op results = Some (Some els) /\ spells els (set_spec op sets).
Proof using Horder.
  intros Hf Hne. destruct op; cbn [store_middle].
  - destruct (diff_spells results sets Hf) as (l & El & Hl). exists (es_own <$> l). split; [|by exists l]. unfold SDiffStore_middle.
    rewrite (holds_no_error results sets Hf), El, moved_out_own. by destruct results.
  - destruct (inter_spells results sets UINT64_MAX Hf Hne ltac:(concrete)) as (els & l & E & Hl & ->). exists (es_own <$> l). split; [|by exists l].
    unfold SInterStore_middle. rewrite E. cbn [mbind option_bind]. rewrite (holds_no_error results sets Hf), moved_out_own.
    by rewrite take_ge by (apply inter_size in Hf; rewrite Hl; mach; lia).
  - exists (es_own <$> order (set_spec OpUnion sets)). split; [|eexists; split; [done|apply Horder]]. unfold SUnionStore_middle.
    rewrite (union_loop_of results sets ∅ Hf), union_empty_l_L. do 2 f_equal. apply list_fmap_ext. intros i e _. by rewrite es_copy_own.
Qed.

Section Driven.

Context (auto_commits : bool -> bool) (passed : bool).

Definition set_command (op : SetOp) (keys : list bytes) : MultiCommand :=
  match op with
  | OpDiff => SDiffCommand walk passed keys
  | OpInter => SInterCommand walk passed keys
  | OpUnion => SUnionCommand walk order passed keys
  end.

Definition set_store_command (op : SetOp) (keys : list bytes) (key : bytes) : MultiCommand :=
  match op with
  | OpDiff => SDiffStoreCommand walk passed keys key
  | OpInter => SInterStoreCommand walk passed keys key
  | OpUnion => SUnionStoreCommand walk order passed keys key
  end.

Lemma set_command_of op keys : set_command op keys = set_reader walk passed keys (reader_output order op).
Proof. by destruct op. Qed.

Lemma set_store_command_of op keys key : set_store_command op keys key = set_store walk passed keys key (store_middle order op).
Proof. by destruct op. Qed.

End Driven.

End SetTheorems.

(** ** A command on a set in a transaction *)


(** A writer is decided on the set in the slot, or on an empty one, and commits to
    a set with the same expiry. *)
Lemma set_slot_lens s S : slot_sound s -> slot_set s = Some S ->
  exists obj mk, (s = Some obj \/ s = None /\ obj = ObjSet set_new) /\ as_set obj = Some (set_of S) /\ set_small S
  /\ (forall f, commit_set f obj = Some (option_map mk (f (set_of S))))
  /\ (forall S', set_small S' -> S' <> ∅ -> slot_sound (Some (mk (set_of S'))) /\ slot_set (Some (mk (set_of S'))) = Some S').
Proof.
  destruct s as [obj|]; cbn [slot_sound slot_set].
  - intros [Hs Hi] HS. destruct (as_set obj) as [o|] eqn:Ho; [|done]. injection HS as HS.
    destruct (commit_set_lens obj o Hs Ho) as (S0 & mk & -> & Hsm & Hmk & Hok). rewrite set_contents_of in HS. subst S0.
    exists obj, mk. split; [by left|]. split; [done|]. split; [done|]. split; [done|]. intros S' HS' Hne. split; [by apply Hok|].
    assert (as_set (mk (set_of S')) = Some (set_of S')) as ->; [|cbn [fmap option_fmap option_map]; by rewrite set_contents_of].
    specialize (Hmk (fun _ => Some (set_of S'))). cbn in Hmk. destruct obj; try done; cbn in Hmk; by injection Hmk as <-.
  - intros _ [= <-]. exists (ObjSet set_new), ObjSet. split; [by right|]. split; [done|]. split; [apply set_empty_small|]. split; [done|].
    intros S' HS' Hne. cbn [slot_set as_set fmap option_fmap option_map slot_sound inhabited]. rewrite set_contents_of.
    split; [|done]. split; [split; [by apply set_of_sound|concrete]|done].
Qed.

Lemma tx_apply_slot (C : CommandClass) f r s obj f' r' v :
  s = Some obj \/ s = None /\ ProceedOnNonExistentObject C f = true /\ CreateObject C = Some obj ->
  ExecuteOn C f obj r = Some (f', r', v) ->
  tx_apply C f r s = match v with ExecWrite | ExecDelete => s' ← CommitOn C f' obj; Some (f', r', s') | _ => Some (f', r', s) end.
Proof.
  unfold tx_apply. intros [-> |(-> & Hp & Hc)] HE; [by rewrite HE|]. rewrite Hp, Hc. cbn [mbind option_bind]. by rewrite HE.
Qed.

Lemma srem_slot s S m r : slot_sound s -> slot_set s = Some S -> fits m ->
  exists r' s', tx_apply SRemCommand [es_of_view m] r s = Some ([es_of_view m], r', s')
  /\ ss_err_code_ r' = RD_OK /\ ss_ret_ r' = (if decide (m ∈ S) then 1 else 0)
  /\ slot_sound s' /\ slot_set s' = Some (S ∖ {[m]}) /\ (m ∉ S -> s' = s).
Proof.
  intros Hs HS Hm. destruct (set_slot_lens s S Hs HS) as (obj & mk & Hobj & Ho & Hsm & Hmk & Hok).
  assert (Forall es_fits [es_of_view m]) as Hf by (constructor; [done|constructor]).
  assert (remove_all S (es_view <$> [es_of_view m]) = S ∖ {[m]}) as HR by (unfold remove_all; cbn; set_solver).
  pose proof (Execute_SRem_of S [es_of_view m] r ltac:(apply NoDup_singleton) ltac:(concrete)) as HE. cbn zeta in HE. rewrite HR in HE.
  assert (ExecuteOn SRemCommand [es_of_view m] obj r
    = Some ([es_of_view m], ss_set_ret (Z.of_nat (size S) - Z.of_nat (size (S ∖ {[m]}))) (ss_set_err RD_OK r),
       write_delete_or_fail (if decide (S ∖ {[m]} = S) then NoChange else if decide (S ∖ {[m]} = ∅) then ModifiedToEmpty else Modified))) as HEx.
  { cbn [ExecuteOn SRemCommand]. by rewrite Ho, HE. }
  rewrite (tx_apply_slot SRemCommand _ _ _ obj _ _ _ ltac:(destruct Hobj as [-> |[-> ->]]; [by left|by right]) HEx).
  assert (CommitOn SRemCommand [es_of_view m] obj = Some (option_map mk (null_if_empty (set_of (S ∖ {[m]}), bool_decide (S ∖ {[m]} = ∅))))) as HC.
  { cbn [CommitOn SRemCommand]. rewrite Hmk, CommitSRem_of by done. by rewrite HR. }
  destruct (decide (m ∈ S)) as [Hin|Hin].
  - assert (S ∖ {[m]} <> S) as Hne by set_solver. rewrite decide_False by done.
    assert (Z.of_nat (size S) - Z.of_nat (size (S ∖ {[m]})) = 1) as Hsz.
    { rewrite size_difference by set_solver. rewrite size_singleton.
      assert (size S <> 0)%nat by (intros E; apply size_empty_iff, leibniz_equiv in E; set_solver). lia. }
    rewrite Hsz. destruct (decide (S ∖ {[m]} = ∅)) as [He|He]; cbn [write_delete_or_fail].
    + rewrite HC, bool_decide_true by done. cbn [null_if_empty option_map mbind option_bind].
      do 2 eexists. split; [done|]. split; [done|]. split; [done|]. split; [done|]. split; [by rewrite He|done].
    + rewrite HC, bool_decide_false by done. cbn [null_if_empty option_map mbind option_bind].
      do 2 eexists. split; [done|]. split; [done|]. split; [done|].
      destruct (Hok (S ∖ {[m]}) ltac:(rewrite <- HR; by apply remove_small) He). done.
  - assert (S ∖ {[m]} = S) as E by set_solver. rewrite E, decide_True by done. cbn [write_delete_or_fail].
    do 2 eexists. split; [done|]. split; [done|]. split; [cbn; lia|]. done.
Qed.

Lemma sadd_slot s S els mid r : slot_sound s -> slot_set s = Some S -> members_ok els -> NoDup (es_view <$> els) ->
  let S' := add_all S (es_view <$> els) in
  exists r' s', tx_apply SAddCommand (mkSAdd els false mid) r s = Some (mkSAdd els false mid, r', s')
  /\ if decide (MAX_OBJECT_SIZE < set_image_len S') then ss_err_code_ r' = RD_ERR_OBJECT_TOO_BIG /\ s' = s
     else ss_err_code_ r' = RD_OK /\ slot_sound s' /\ slot_set s' = Some S' /\ (S' = S -> s' = s).
Proof.
  intros Hs HS [Hf Hl] Hnd S'. destruct (set_slot_lens s S Hs HS) as (obj & mk & Hobj & Ho & Hsm & Hmk & Hok).
  pose proof (set_image_len_add S (es_view <$> els)) as Hadd. pose proof (members_len els Hf) as Hlen. destruct Hsm as [Hfit Hsm].
  pose proof (Execute_SAdd_of S els r Hf Hnd Hl ltac:(unfold MAX_OBJECT_SIZE in *; mach; lia)) as HE. cbn zeta in HE. fold S' in HE.
  assert (ExecuteOn SAddCommand (mkSAdd els false mid) obj r
    = let '(r, state) := Execute_SAdd (set_of S) els r in Some (mkSAdd els false mid, r, write_or_fail state)) as HEx.
  { cbn [ExecuteOn SAddCommand]. unfold SAdd_ExecuteOn. cbn [sa_force_remove_add_ sa_vct_paras_]. by rewrite Ho. }
  rewrite HE in HEx. assert (S ⊆ S') as Hsub by (unfold S', add_all; set_solver).
  assert (s = Some obj \/ s = None /\ ProceedOnNonExistentObject SAddCommand (mkSAdd els false mid) = true /\ CreateObject SAddCommand = Some obj) as Hobj'.
  { destruct Hobj as [-> |[-> ->]]; [by left|by right]. }
  case_decide as Hd; cbn zeta in HEx; rewrite (tx_apply_slot SAddCommand _ _ _ obj _ _ _ Hobj' HEx).
  - do 2 eexists. split; [done|]. done.
  - destruct (Z.ltb_spec 0 (Z.of_nat (size S') - Z.of_nat (size S))) as [Hn|Hn]; cbn [write_or_fail].
    + assert (S' <> ∅) as Hne by (intros E; rewrite E, size_empty in Hn; lia).
      cbn [CommitOn SAddCommand]. unfold SAdd_CommitOn. cbn [sa_force_remove_add_ sa_vct_paras_ sa_is_in_the_middle_stage_].
      rewrite Hmk, CommitSAdd_of by done. fold S'. unfold null_if_empty. rewrite bool_decide_false by done. cbn [option_map mbind option_bind].
      do 2 eexists. split; [done|]. split; [done|].
      destruct (Hok S' ltac:(split; [apply set_fits_add; [done|by apply es_fits_views]|lia]) Hne) as [H1 H2]. split; [done|]. split; [done|].
      intros E. rewrite E in Hn. lia.
    + assert (S' = S) as E by (apply leibniz_equiv; symmetry; apply set_subseteq_size_equiv; [done|lia]).
      do 2 eexists. split; [done|]. split; [done|]. rewrite E. done.
Qed.

Lemma set_write_wrong_type s : slot_set s = None -> exists obj, s = Some obj /\ as_set obj = None.
Proof. destruct s as [obj|]; [|done]. cbn [slot_set]. exists obj. by destruct (as_set obj). Qed.

Lemma set_at_small db key S : db_sound db -> set_at db key = Some S -> set_small S.
Proof. intros Hdb HS. by destruct (set_slot_lens _ S (Hdb key) HS) as (? & ? & _ & _ & ? & _). Qed.

Lemma member_ok m : fits m -> members_ok [es_of_view m].
Proof. intros Hm. split; [constructor; [done|constructor]|concrete]. Qed.

Lemma no_members_ok : members_ok [].
Proof. split; [constructor|concrete]. Qed.

(** On a key: the member that SREM removes, the members that SADD adds, and the
    error on an object of another type. *)
Lemma srem_at db key S m r : db_sound db -> set_at db key = Some S -> fits m ->
  exists r' db', tx_on SRemCommand [es_of_view m] r key db = Some ([es_of_view m], r', db')
  /\ ss_err_code_ r' = RD_OK /\ ss_ret_ r' = (if decide (m ∈ S) then 1 else 0)
  /\ db_sound db' /\ set_at db' key = Some (S ∖ {[m]}) /\ (forall k, k <> key -> db' !! k = db !! k) /\ (m ∉ S -> db' = db).
Proof.
  intros Hdb HS Hm. destruct (srem_slot _ S m r (Hdb key) HS Hm) as (r' & s' & E & Herr & Hret & Hs & HS' & Hsame).
  unfold tx_on. rewrite E. cbn [mbind option_bind]. do 2 eexists. split; [done|]. split; [done|]. split; [done|].
  split; [by apply put_sound|]. split; [unfold set_at; by rewrite lookup_put|]. split; [intros k Hk; by rewrite lookup_put_ne|].
  intros Hin. by rewrite (Hsame Hin), put_same.
Qed.

Lemma sadd_at db key S els mid r : db_sound db -> set_at db key = Some S -> members_ok els -> NoDup (es_view <$> els) ->
  let S' := add_all S (es_view <$> els) in
  exists r' db', tx_on SAddCommand (mkSAdd els false mid) r key db = Some (mkSAdd els false mid, r', db')
  /\ if decide (MAX_OBJECT_SIZE < set_image_len S') then ss_err_code_ r' = RD_ERR_OBJECT_TOO_BIG /\ db' = db
     else ss_err_code_ r' = RD_OK /\ db_sound db' /\ set_at db' key = Some S'
          /\ (forall k, k <> key -> db' !! k = db !! k) /\ (S' = S -> db' = db).
Proof.
  intros Hdb HS Hok Hnd S'. destruct (sadd_slot _ S els mid r (Hdb key) HS Hok Hnd) as (r' & s' & E & H).
  unfold tx_on. rewrite E. cbn [mbind option_bind]. do 2 eexists. split; [done|]. fold S' in H. case_decide; [destruct H as [H ->]; by rewrite put_same|].
  destruct H as (Herr & Hs & HS' & Hsame). split; [done|]. split; [by apply put_sound|].
  split; [unfold set_at; by rewrite lookup_put|]. split; [intros k Hk; by rewrite lookup_put_ne|]. intros E'. by rewrite (Hsame E'), put_same.
Qed.

Lemma srem_other_type db key els r : set_at db key = None ->
  tx_on SRemCommand els r key db = Some (els, ss_set_err RD_ERR_WRONG_TYPE r, db).
Proof.
  unfold set_at. intros H. destruct (set_write_wrong_type _ H) as (obj & E & Ho). unfold tx_on, tx_apply. rewrite E.
  cbn [ExecuteOn SRemCommand]. rewrite Ho. cbn. by rewrite <- E, put_same.
Qed.

Lemma sadd_other_type db key els mid r : set_at db key = None ->
  tx_on SAddCommand (mkSAdd els false mid) r key db = Some (mkSAdd els false mid, ss_set_err RD_ERR_WRONG_TYPE r, db).
Proof.
  unfold set_at. intros H. destruct (set_write_wrong_type _ H) as (obj & E & Ho). unfold tx_on, tx_apply. rewrite E.
  cbn [ExecuteOn SAddCommand]. unfold SAdd_ExecuteOn. cbn [sa_force_remove_add_]. rewrite Ho. cbn. by rewrite <- E, put_same.
Qed.

(** ** An example *)

(** The sets [{a}] under [s] and [{b}] under [t]. *)
Definition ex_db : Db := put (lit "s") (stored {[lit "a"]}) (put (lit "t") (stored {[lit "b"]}) ∅).

Lemma stored_singleton x : fits x -> 12 + zlen x <= MAX_OBJECT_SIZE -> stored {[x]} = Some (ObjSet (set_of {[x]})) /\ slot_sound (stored {[x]}).
Proof.
  intros Hx Hl. assert (set_image_len {[x]} = 9 + zlen x) as Hi by (unfold set_image_len; rewrite elements_singleton; cbn; unfold elem_len; lia).
  split; [unfold stored; by rewrite decide_False by set_solver|].
  apply stored_sound; [intros y ->%elem_of_singleton; done| |lia]. unfold store_test. rewrite size_singleton, Hi. lia.
Qed.

Lemma ex_db_sound : db_sound ex_db.
Proof. apply put_sound; [apply put_sound|]; [by intros k; rewrite lookup_empty|..]; apply stored_singleton; concrete. Qed.

Lemma ex_db_sets : set_at ex_db (lit "s") = Some {[lit "a"]} /\ set_at ex_db (lit "t") = Some {[lit "b"]} /\ set_at ex_db (lit "u") = Some ∅.
Proof.
  unfold set_at, ex_db. rewrite lookup_put. rewrite !lookup_put_ne by done. rewrite lookup_put.
  rewrite (proj1 (stored_singleton (lit "a") ltac:(concrete) ltac:(concrete))), (proj1 (stored_singleton (lit "b") ltac:(concrete) ltac:(concrete))).
  cbn [slot_set as_set fmap option_fmap option_map]. by rewrite !set_contents_of.
Qed.

Definition ex_walk (o : RedisHashSetObject) : list EloqString := (map_to_list (hash_set_ o)).*2.

Lemma ex_walk_iter o : set_iter o (ex_walk o).
Proof. unfold set_iter. done. Qed.

(** ** Properties *)

(** C24: SDIFF, SINTER and SUNION reply with exactly the members of the difference,
    the intersection and the union of the sets under their keys, a missing key
    counting as the empty set, each member once; if one of the keys holds another
    type they reply with the error.  They change nothing. *)
Theorem set_operations_correct walk order auto_commits passed auto_commit db keys op :
  (forall o, set_iter o (walk o)) -> (forall s, order s ≡ₚ elements s) -> db_sound db -> keys <> [] ->
  exists reply end_,
    ExecuteMultiObjTxRequest (fun _ => true) auto_commits (set_command walk order passed op keys) auto_commit db = Some (true, reply, end_, db)
    /\ match mapM (set_at db) keys with
       | Some sets => exists l, reply = output_array l /\ l ≡ₚ elements (set_spec op sets)
       | None => reply = [OnError RD_ERR_WRONG_TYPE]
       end.
Proof.
  intros Hwalk Horder Hdb Hk. rewrite set_command_of. unfold ExecuteMultiObjTxRequest. cbn [CmdSteps set_reader Nat.sub multi_loop run_step mo_init].
  destruct (mapM (set_at db) keys) as [sets|] eqn:E.
  - destruct (sets_read walk Hwalk db keys sets Hdb E) as (results & -> & Hf). cbn [mbind option_bind MultiOutput set_reader].
    assert (results <> []) as Hne by (intros ->; inversion Hf; subst; apply mapM_Some in E; by inversion E; subst).
    destruct (reader_output_of order Horder op results sets Hf Hne) as (l & -> & Hl). cbn [mbind option_bind].
    destruct auto_commit; do 2 eexists; (split; [reflexivity|]); by exists l.
  - destruct (wrong_type_read walk Hwalk db keys Hdb E) as (results & -> & Hne & He & Hu). cbn [mbind option_bind MultiOutput set_reader].
    assert (reader_output order op results = Some [OnError RD_ERR_WRONG_TYPE]) as ->; [|by destruct auto_commit; do 2 eexists].
    destruct op; cbn [reader_output].
    + unfold SDiff_OutputResult. rewrite He. by destruct results.
    + unfold SInter_OutputResult. rewrite He. by destruct (inter_defined results UINT64_MAX Hne) as [? ->].
    + unfold SUnion_OutputResult. by rewrite Hu.
Qed.

(** SUNION s t u. *)
Lemma set_operations_correct_witness :
  exists reply end_ l,
    ExecuteMultiObjTxRequest (fun _ => true) id (set_command ex_walk elements true OpUnion [lit "s"; lit "t"; lit "u"]) true ex_db
    = Some (true, reply, end_, ex_db)
    /\ reply = output_array l /\ l ≡ₚ elements (set_spec OpUnion [{[lit "a"]}; {[lit "b"]}; ∅]).
Proof.
  pose proof (set_operations_correct ex_walk elements id true true ex_db [lit "s"; lit "t"; lit "u"] OpUnion
    ex_walk_iter ltac:(intros o; reflexivity) ex_db_sound ltac:(discriminate)) as (reply & end_ & H1 & H2).
  cbn [mapM] in H2. destruct ex_db_sets as (Hs & Ht & Hu). rewrite Hs, Ht, Hu in H2. destruct H2 as (l & H2 & H3). exists reply, end_, l. split_and!; assumption.
Defined.

(** C10: SDIFFSTORE, SINTERSTORE and SUNIONSTORE put the result of the operation under
    the destination, whatever was there, or remove it when the result is empty,
    and reply with the number of members; no other key changes, also when the
    destination is one of the sources.  A result over the limit is not stored, and
    the reply is the same.  With a source of another type the reply is the
    error and nothing changes. *)
Theorem set_stores_correct walk order auto_commits db keys key op :
  (forall o, set_iter o (walk o)) -> (forall s, order s ≡ₚ elements s) -> auto_commits true = true -> db_sound db -> keys <> [] ->
  let run := ExecuteMultiObjTxRequest (fun _ => true) auto_commits (set_store_command walk order true op keys key) true db in
  match mapM (set_at db) keys with
  | Some sets =>
      let s := set_spec op sets in
      let db' := if MAX_OBJECT_SIZE <? store_test s then db else put key (stored s) db in
      Z.of_nat (size s) <= INT32_MAX ->
      run = Some (true, [OnInt (Z.of_nat (size s))], TxCommitted, db')
      /\ (set_image_len s <> MAX_OBJECT_SIZE + 1 -> db_sound db')
  | None => run = Some (true, [OnError RD_ERR_WRONG_TYPE], TxCommitted, db)
  end.
Proof.
  intros Hwalk Horder Hac Hdb Hk. cbn zeta. rewrite set_store_command_of.
  unfold ExecuteMultiObjTxRequest. cbn [CmdSteps set_store Nat.sub multi_loop run_step mo_init HandleMiddleResult].
  destruct (mapM (set_at db) keys) as [sets|] eqn:E.
  - intros Hz. destruct (sets_read walk Hwalk db keys sets Hdb E) as (results & -> & Hf).
    assert (results <> []) as Hne by (intros ->; inversion Hf; subst; apply mapM_Some in E; by inversion E; subst).
    pose proof (set_spec_fits op results sets Hf) as Hfit.
    destruct (store_middle_of order Horder op results sets Hf Hne) as (els & Hmid & Hs). cbn [mbind option_bind sst_results sst_store sst_store_result].
    rewrite Hmid. cbn [mbind option_bind sst_results sst_store sst_store_result sa_vct_paras_ app].
    destruct (store_run els (set_spec op sets) set_result0 key db Hs Hfit Hz) as (r' & Hrun). rewrite Hrun.
    destruct (spells_len els (set_spec op sets) Hs) as (Hl & _).
    cbn [mbind option_bind MultiOutput set_store sst_store sa_vct_paras_ IsPassed CmdSteps Nat.eqb andb]. rewrite Hac, Hl. split; [done|].
    intros Hi. destruct (Z.ltb_spec MAX_OBJECT_SIZE (store_test (set_spec op sets))); [done|]. apply put_sound; [done|]. by apply stored_sound.
  - destruct (wrong_type_read walk Hwalk db keys Hdb E) as (results & -> & Hne & He & Hu). cbn [mbind option_bind sst_results].
    assert (store_middle order op results = Some None) as ->; [|done].
    destruct op; cbn [store_middle].
    + unfold SDiffStore_middle. rewrite He. by destruct results.
    + unfold SInterStore_middle. rewrite He. by destruct (inter_defined results UINT64_MAX Hne) as [? ->].
    + unfold SUnionStore_middle. by rewrite Hu.
Qed.

(** SUNIONSTORE s s t u. *)
Lemma set_stores_correct_witness :
  let s := set_spec OpUnion [{[lit "a"]}; {[lit "b"]}; ∅] in
  ExecuteMultiObjTxRequest (fun _ => true) id (set_store_command ex_walk elements true OpUnion [lit "s"; lit "t"; lit "u"] (lit "s")) true ex_db
  = Some (true, [OnInt (Z.of_nat (size s))], TxCommitted, if MAX_OBJECT_SIZE <? store_test s then ex_db else put (lit "s") (stored s) ex_db).
Proof.
  pose proof (set_stores_correct ex_walk elements id ex_db [lit "s"; lit "t"; lit "u"] (lit "s") OpUnion
    ex_walk_iter ltac:(intros o; reflexivity) eq_refl ex_db_sound ltac:(discriminate)) as H.
  cbn [mapM] in H. destruct ex_db_sets as (Hs & Ht & Hu). rewrite Hs, Ht, Hu in H.
  assert (Z.of_nat (size (set_spec OpUnion [{[lit "a"]}; {[lit "b"]}; ∅])) <= INT32_MAX) as Hz by (vm_compute; discriminate).
  exact (proj1 (H Hz)).
Defined.

(** C11: With sets under both keys SMOVE moves a member of the source to the
    destination, replies 1 and changes no other key, the set staying as it is
    when the two are one key; a member that the source does not have changes
    nothing and the reply is 0.  When the destination would become too big, or a
    key holds another type, the reply is the error.  A command that runs alone is
    then aborted, so that the member is still in the source.  Inside MULTI or
    a script ([auto_commit] is false) the transaction goes on without the member
    in the source, although it did not reach the destination.  The data stay
    sound.  The objects are sound before, the member is shorter than 2^32 bytes,
    and the engine takes every request and every commit of the transaction. *)
Theorem smove_correct auto_commits auto_commit db src dst m :
  (forall passed, auto_commits passed = passed) -> db_sound db -> fits m ->
  exists reply (passed : bool) db',
    ExecuteMultiObjTxRequest (fun _ => true) auto_commits (SMoveCommand src dst m) auto_commit db
    = Some (true, [reply], tx_end auto_commit passed, db')
    /\ db_sound db'
    /\ match set_at db src, set_at db dst with
       | Some A, Some D =>
           if negb (bool_decide (m ∈ A)) then reply = OnInt 0 /\ passed = true /\ db' = db
           else if decide (MAX_OBJECT_SIZE < set_image_len (D ∪ {[m]})) then
             reply = OnError RD_ERR_OBJECT_TOO_BIG /\ passed = false
             /\ set_at db' src = Some (A ∖ {[m]}) /\ forall k, k <> src -> db' !! k = db !! k
           else reply = OnInt 1 /\ passed = true
                /\ set_at db' src = Some (if decide (src = dst) then A else A ∖ {[m]}) /\ set_at db' dst = Some (D ∪ {[m]})
                /\ forall k, k <> src -> k <> dst -> db' !! k = db !! k
       | Some A, None =>
           reply = OnError RD_ERR_WRONG_TYPE /\ passed = false
           /\ set_at db' src = Some (A ∖ {[m]}) /\ forall k, k <> src -> db' !! k = db !! k
       | None, _ => reply = OnError RD_ERR_WRONG_TYPE /\ passed = false /\ db' = db
       end.
Proof.
  intros Hac Hdb Hm. unfold ExecuteMultiObjTxRequest. cbn [CmdSteps SMoveCommand Nat.sub multi_loop run_step mo_init HandleMiddleResult].
  cbn [sm_src sm_src_result sm_dst sm_dst_result].
  destruct (set_at db src) as [A|] eqn:HA;
    [|rewrite srem_other_type by done; cbn; exists (OnError RD_ERR_WRONG_TYPE), false, db; by destruct auto_commit].
  destruct (srem_at db src A m set_result0 Hdb HA Hm) as (r & db1 & -> & He & Hr & Hdb1 & HA1 & Ho1 & Hsame).
  cbn [mbind option_bind]. unfold SMove_middle. cbn [sm_src sm_src_result sm_dst sm_dst_result head]. rewrite He, Hr.
  change (RD_OK =? RD_ERR_WRONG_TYPE) with false. cbn match.
  destruct (set_at db dst) as [D|] eqn:HD.
  - destruct (decide (m ∈ A)) as [Hin|Hin]; cbn [Z.eqb Pos.eqb mbind option_bind sm_src sm_src_result sm_dst sm_dst_result
      sa_vct_paras_ sa_force_remove_add_ sa_is_in_the_middle_stage_ app es_view es_of_view].
    + assert (exists D1, set_at db1 dst = Some D1 /\ add_all D1 [m] = D ∪ {[m]}) as (D1 & HD1 & HD').
      { destruct (decide (dst = src)) as [-> |Hne]; [exists (A ∖ {[m]})|exists D].
        - split; [done|]. assert (D = A) as -> by congruence. unfold add_all. cbn. apply set_eq. intros x. destruct (decide (x = m)); set_solver.
        - split; [unfold set_at; by rewrite Ho1|]. unfold add_all. cbn. set_solver. }
      destruct (sadd_at db1 dst D1 [es_of_view m] false set_result0 Hdb1 HD1 (member_ok m Hm) ltac:(apply NoDup_singleton)) as (r2 & db2 & -> & H2).
      cbn [fmap list_fmap es_view es_of_view] in H2. rewrite HD' in H2. rewrite bool_decide_true by done. cbn [negb].
      cbn [mbind option_bind MultiOutput IsPassed SMoveCommand CmdSteps Nat.eqb andb sm_src_result sm_dst_result]. rewrite Hac, He.
      case_decide as Hbig;
        [destruct H2 as [H2 ->]; rewrite H2; cbn; eexists _, false, db1; by destruct auto_commit|]. destruct H2 as (E2 & Hdb2 & HD2 & Ho2 & _). rewrite E2, Hr. cbn.
      eexists _, true, db2. split; [by destruct auto_commit|]. split; [done|]. split; [done|]. split; [done|]. split; [|split; [done|]].
      * case_decide as Heq; [subst dst; rewrite HD2; assert (D = A) as -> by congruence; f_equal; set_solver|].
        unfold set_at. rewrite Ho2 by done. exact HA1.
      * intros k Hk1 Hk2. by rewrite Ho2, Ho1.
    + rewrite (Hsame Hin). rewrite bool_decide_false by done. cbn [negb].
      destruct (sadd_at db dst D [] false set_result0 Hdb HD no_members_ok ltac:(constructor)) as (r2 & db2 & -> & H2).
      cbn [fmap list_fmap] in H2. assert (add_all D [] = D) as HD' by (unfold add_all; cbn; set_solver). rewrite HD' in H2.
      rewrite decide_False in H2 by (pose proof (set_at_small db dst D Hdb HD) as []; lia). destruct H2 as (E2 & _ & _ & _ & ->); [|done].
      cbn [mbind option_bind MultiOutput IsPassed SMoveCommand CmdSteps Nat.eqb andb sm_src_result sm_dst_result]. rewrite Hac, He, E2, Hr. cbn.
      eexists _, true, db. by destruct auto_commit.
  - assert (set_at db1 dst = None) as HD1.
    { unfold set_at in *. rewrite Ho1; [done|]. intros ->. congruence. }
    destruct (decide (m ∈ A)); cbn [Z.eqb Pos.eqb mbind option_bind sm_dst sm_dst_result];
      rewrite sadd_other_type by done; cbn; rewrite He, Hac; cbn; eexists _, false, db1; by destruct auto_commit.
Qed.

(** SMOVE s t a. *)
Lemma smove_correct_witness :
  exists db', ExecuteMultiObjTxRequest (fun _ => true) id (SMoveCommand (lit "s") (lit "t") (lit "a")) true ex_db
    = Some (true, [OnInt 1], TxCommitted, db')
  /\ set_at db' (lit "s") = Some ({[lit "a"]} ∖ {[lit "a"]}) /\ set_at db' (lit "t") = Some ({[lit "b"]} ∪ {[lit "a"]}).
Proof.
  destruct (smove_correct id true ex_db (lit "s") (lit "t") (lit "a") ltac:(intros b; reflexivity) ex_db_sound ltac:(concrete)) as (reply & end_ & db' & H1 & _ & H2).
  destruct ex_db_sets as (Hs & Ht & _). rewrite Hs, Ht in H2. rewrite bool_decide_true in H2 by set_solver. cbn [negb] in H2.
  rewrite decide_False in H2 by (vm_compute; discriminate). destruct H2 as (-> & -> & Hsrc & Hdst & _).
  exists db'. split; [exact H1|]. split; [exact Hsrc|exact Hdst].
Defined.
