(* ===== verification/MultiParse.v ===== *)
(** * Parsing commands on several keys

    The parsers of src/redis_command.cpp for the commands of the file
    MultiCommand, and what DEL, EXISTS, MSET, MSETNX and MGET do from their
    arguments to the reply: the parsers run one command for each different key
    and keep the pointers by which a key that comes again finds it. *)

From S2P Require Import Prelude Codec EloqString RedisTypes Encoding StringNum StringMatch StringObject ListObject ZsetObject RedisObject TxCommand KeyCommand StringCommand CommandParse MultiCommand.

Set Warnings "-clear-no-such-hyp".

Definition RD_ERR_NUMBER_GREATER_ARGS : Z := 19.
Definition RD_ERR_NUMBER_GREATER_ZERO : Z := 20.
Definition RD_ERR_LIMIT_NEGATIVE : Z := 21.
Definition RD_ERR_COUNT_GREATER_ZERO : Z := 27.

(** ** Unsigned numbers *)

(** The C string that starts at a buffer. *)
Fixpoint c_string (buf : bytes) : bytes :=
  match buf with
  | c :: buf => if c2z c =? 0 then [] else c :: c_string buf
  | [] => []
  end.

Fixpoint skip_digits (p : bytes) : bytes :=
  match p with
  | c :: p' => if is_digit 48 c then skip_digits p' else p
  | [] => []
  end.

(** [strtoull] in base ten: the value and what [endptr] points to; [None] for
    [ERANGE]. *)
Definition strtoull (s : bytes) : option (Z * bytes) :=
  let t := skip_spaces s in
  let '(negative, p) :=
    match t with
    | c :: p => if c2z c =? 45 then (true, p) else if c2z c =? 43 then (false, p) else (false, t)
    | [] => (false, t)
    end in
  match p with
  | c :: _ =>
      if is_digit 48 c then
        let v := stoull_digits 0 p in
        if UINT64_MAX <? v then None else Some (if negative : bool then u64 (- v) else v, skip_digits p)
      else Some (0, s)
  | [] => Some (0, s)
  end.

(** What [string2ll] does not take is read as a C string, beyond the end of the
    argument; [after] is what follows it in memory. *)
Definition string2ull (after s : bytes) : option Z :=
  match string2ll s with
  | Some ll => if ll <? 0 then None else Some ll
  | None =>
      let s := c_string (s ++ after) in
      match strtoull s with
      | Some (value, endptr) => if bool_decide (s = []) || negb (bool_decide (endptr = [])) then None else Some value
      | None => None
      end
  end.

(** ** Keys *)

(** [std::vector<EloqKey>] of the arguments from the first on. *)
Definition parse_keys (args : list bytes) (e : ReplyEvent) : Parsing (list bytes) :=
  match args with _ :: ((_ :: _) as keys) => Parsed keys | _ => Refused e end.

(** A destination and its sources. *)
Definition parse_store (args : list bytes) (e : ReplyEvent) : Parsing (bytes * list bytes) :=
  match args with _ :: dst :: ((_ :: _) as keys) => Parsed (dst, keys) | _ => Refused e end.

Definition wrong_number (cmd : bytes) : ReplyEvent := err (lit "ERR wrong number of arguments for '" ++ cmd ++ lit "' command").

Definition ParseSDiffCommand (args : list bytes) : Parsing (list bytes) := parse_keys args (wrong_number (lit "sdiff")).
Definition ParseSInterCommand (args : list bytes) : Parsing (list bytes) := parse_keys args (wrong_number (lit "sinter")).
Definition ParseSUnionCommand (args : list bytes) : Parsing (list bytes) := parse_keys args (wrong_number (lit "sunion")).
Definition ParseSDiffStoreCommand (args : list bytes) : Parsing (bytes * list bytes) := parse_store args (wrong_number (lit "sdiffstore")).
Definition ParseSInterStoreCommand (args : list bytes) : Parsing (bytes * list bytes) := parse_store args (wrong_number (lit "sinterstore")).
Definition ParseSUnionStoreCommand (args : list bytes) : Parsing (bytes * list bytes) := parse_store args (wrong_number (lit "sunionstore")).

(** The keys, and the limit if there are two more arguments. *)
Definition ParseSInterCardCommand (args : list bytes) : Parsing (list bytes * Z) :=
  match args with
  | _ :: a1 :: ((_ :: _) as rest) =>
      match string2ll a1 with
      | Some num =>
          if num <? 1 then Refused (OnError RD_ERR_NUMBER_GREATER_ZERO)
          else if zlen rest <? num then Refused (OnError RD_ERR_NUMBER_GREATER_ARGS)
          else
            let keys := take (Z.to_nat num) rest in
            match drop (Z.to_nat num) rest with
            | [] => Parsed (keys, INT64_MAX)
            | [opt; sv] =>
                if stringcomp opt (lit "limit") true then
                  match string2ll sv with
                  | Some limit => if limit <? 0 then Refused (OnError RD_ERR_LIMIT_NEGATIVE)
                                  else Parsed (keys, if limit =? 0 then INT64_MAX else limit)
                  | None => Refused (OnError RD_ERR_LIMIT_NEGATIVE)
                  end
                else Refused (OnError RD_ERR_SYNTAX)
            | _ => Refused (OnError RD_ERR_SYNTAX)
            end
      | None => Refused (OnError RD_ERR_NUMBER_GREATER_ZERO)
      end
  | _ => Refused (wrong_number (lit "sintercard"))
  end.

Definition ParseSMoveCommand (args : list bytes) : Parsing (bytes * bytes * bytes) :=
  match args with
  | [_; key_src; key_dst; member] => Parsed (key_src, key_dst, member)
  | _ => Refused (wrong_number (lit "smove"))
  end.

(** ** LMOVE, RPOPLPUSH and LMPOP *)

Definition parse_side (arg : bytes) : Parsing bool :=
  if stringcomp (lit "left") arg true then Parsed true
  else if stringcomp (lit "right") arg true then Parsed false
  else Refused (OnError RD_ERR_SYNTAX).

Definition ParseLMoveCommand (args : list bytes) : Parsing (bytes * bool * bytes * bool) :=
  match args with
  | [_; key_src; key_dst; src; dst] =>
      is_left_for_src ← parse_side src;
      is_left_for_dst ← parse_side dst;
      Parsed (key_src, is_left_for_src, key_dst, is_left_for_dst)
  | _ => Refused (wrong_number (lit "lmove"))
  end.

Definition ParseRPopLPushCommand (args : list bytes) : Parsing (bytes * bytes) :=
  match args with
  | [_; key_src; key_dst] => Parsed (key_src, key_dst)
  | _ => Refused (wrong_number (lit "rpoplpush"))
  end.

(** [args[i]] for an index in 64 bits. *)
Definition arg_at (args : list bytes) (i : Z) : Parsing bytes :=
  match args !! Z.to_nat (u64 i) with Some a => Parsed a | None => Undefined end.

Definition lmpop_count (args : list bytes) (numkeys : Z) : Parsing Z :=
  if u64 (numkeys + 3) <? zlen args then
    if negb (zlen args =? u64 (numkeys + 5)) then Refused (OnError RD_ERR_SYNTAX)
    else
      opt ← arg_at args (3 + numkeys);
      if negb (stringcomp (lit "count") opt true) then Refused (OnError RD_ERR_SYNTAX)
      else
        arg ← arg_at args (4 + numkeys);
        match string2ll arg with
        | Some count => if count <=? 0 then Refused (OnError RD_ERR_COUNT_GREATER_ZERO) else Parsed count
        | None => Refused (OnError RD_ERR_COUNT_GREATER_ZERO)
        end
  else Parsed 1.

(** The sums are in 64 bits. *)
Definition ParseLMPopCommand (after : bytes) (args : list bytes) : Parsing (list bytes * bool * Z) :=
  match args with
  | _ :: a1 :: ((_ :: _ :: _) as rest) =>
      match string2ull after a1 with
      | Some numkeys =>
          if numkeys <=? 0 then Refused (OnError RD_ERR_NUMBER_GREATER_ZERO)
          else if zlen args <? u64 (numkeys + 3) then Refused (OnError RD_ERR_SYNTAX)
          else
            side ← arg_at args (2 + numkeys);
            from_left ← parse_side side;
            count ← lmpop_count args numkeys;
            Parsed (take (Z.to_nat (u64 (2 + numkeys)) - 2) rest, from_left, count)
      | None => Refused (OnError RD_ERR_NUMBER_GREATER_ZERO)
      end
  | _ => Refused (wrong_number (lit "lmpop"))
  end.

(** ** BITOP *)

Definition ParseBitOpCommand (args : list bytes) : Parsing (BitOpType * bytes * list bytes) :=
  match args with
  | _ :: op :: dst_key :: ((_ :: rest) as s_keys) =>
      let parsed op_type := Parsed (op_type, dst_key, s_keys) in
      if stringcomp op (lit "and") true then parsed BitAnd
      else if stringcomp op (lit "or") true then parsed BitOr
      else if stringcomp op (lit "xor") true then parsed BitXor
      else if stringcomp op (lit "not") true then
        match rest with
        | [] => parsed BitNot
        | _ => Refused (err (lit "ERR BITOP NOT must be called with a single source key."))
        end
      else Refused (err (lit "ERR syntax error"))
  | _ => Refused (wrong_number (lit "bitop"))
  end.

(** ** DEL and UNLINK *)

Fixpoint del_loop (args : list bytes) (s : gset bytes) (vct_key : list bytes) : list bytes :=
  match args with
  | [] => vct_key
  | arg :: args => if decide (arg ∈ s) then del_loop args s vct_key else del_loop args ({[arg]} ∪ s) (vct_key ++ [arg])
  end.

Definition ParseDelCommand (args : list bytes) : Parsing (list bytes * bool) :=
  match args with
  | cmd :: ((_ :: _) as rest) => Parsed (del_loop rest ∅ [], bool_decide (cmd = lit "unlink"))
  | cmd :: _ => Refused (wrong_number cmd)
  | [] => Undefined
  end.

(** ** EXISTS, MSET, MSETNX and MGET *)

(** [key_to_cmd_ptr] points into a vector of commands that has its room from the
    start; the pointers are positions. *)
Abbreviation Ptrs := (gmap bytes nat).

Fixpoint exists_loop (args : list bytes) (key_to_cmd_ptr : Ptrs) (vct : list (bytes * Z)) : list (bytes * Z) :=
  match args with
  | [] => vct
  | arg :: args =>
      match key_to_cmd_ptr !! arg with
      | None => exists_loop args (<[arg := length vct]> key_to_cmd_ptr) (vct ++ [(arg, 1)])
      | Some i => exists_loop args key_to_cmd_ptr (alter (fun kc => (kc.1, i32 (kc.2 + 1))) i vct)
      end
  end.

Definition ParseExistsCommand (args : list bytes) : Parsing (list (bytes * Z)) :=
  match args with
  | _ :: ((_ :: _) as rest) => Parsed (exists_loop rest ∅ [])
  | _ => Refused (wrong_number (lit "exists"))
  end.

(** The loop goes by two; an argument that is missing at the end was refused. *)
Fixpoint mset_loop (args : list bytes) (key_to_cmd_ptr : Ptrs) (vct : list (bytes * bytes)) : list (bytes * bytes) :=
  match args with
  | key :: value :: args =>
      match key_to_cmd_ptr !! key with
      | None => mset_loop args (<[key := length vct]> key_to_cmd_ptr) (vct ++ [(key, value)])
      | Some i => mset_loop args key_to_cmd_ptr (alter (fun kv => (kv.1, value)) i vct)
      end
  | _ => vct
  end.

Definition ParseMSetCommand (args : list bytes) : Parsing (list (bytes * bytes)) :=
  if (zlen args <? 3) || (zlen args mod 2 =? 0) then Refused (wrong_number (lit "mset"))
  else Parsed (mset_loop (tail args) ∅ []).

(** The command with its two vectors. *)
Fixpoint msetnx_loop (args : list bytes) (key_to_cmd_ptr : Ptrs) (exist_cmds : list (bytes * Z)) (set_cmds : list (bytes * bytes))
    : list (bytes * Z) * list (bytes * bytes) :=
  match args with
  | key :: value :: args =>
      match key_to_cmd_ptr !! key with
      | None => msetnx_loop args (<[key := length set_cmds]> key_to_cmd_ptr) (exist_cmds ++ [(key, 1)]) (set_cmds ++ [(key, value)])
      | Some i => msetnx_loop args key_to_cmd_ptr (alter (fun kc => (kc.1, i32 (kc.2 + 1))) i exist_cmds)
                    (alter (fun kv => (kv.1, value)) i set_cmds)
      end
  | _ => (exist_cmds, set_cmds)
  end.

Definition ParseMSetNxCommand (args : list bytes) : Parsing (list (bytes * Z) * list (bytes * bytes)) :=
  if (zlen args <? 3) || (zlen args mod 2 =? 0) then Refused (wrong_number (lit "msetnx"))
  else Parsed (msetnx_loop (tail args) ∅ [] []).

Fixpoint mget_loop (args : list bytes) (key_to_cmd_ptr : Ptrs) (vct_key : list bytes) (vct_raw_cmd : list nat) : list bytes * list nat :=
  match args with
  | [] => (vct_key, vct_raw_cmd)
  | arg :: args =>
      match key_to_cmd_ptr !! arg with
      | None => mget_loop args (<[arg := length vct_key]> key_to_cmd_ptr) (vct_key ++ [arg]) (vct_raw_cmd ++ [length vct_key])
      | Some i => mget_loop args key_to_cmd_ptr vct_key (vct_raw_cmd ++ [i])
      end
  end.

Definition ParseMGetCommand (args : list bytes) : Parsing (list bytes * list nat) :=
  match args with
  | _ :: ((_ :: _) as rest) => Parsed (mget_loop rest ∅ [] [])
  | _ => Refused (wrong_number (lit "mget"))
  end.

(** ** The commands that the parsers build *)

Definition ptrs_ok (m : Ptrs) (keys : list bytes) : Prop := NoDup keys /\ forall k i, m !! k = Some i <-> keys !! i = Some k.

Lemma ptrs_empty : ptrs_ok ∅ [].
Proof. split; [constructor|]. intros k i. by rewrite lookup_empty. Qed.

Lemma ptrs_new m keys k : ptrs_ok m keys -> m !! k = None -> ptrs_ok (<[k := length keys]> m) (keys ++ [k]).
Proof.
  intros [Hnd Hm] Hk. assert (k ∉ keys) as Hnin.
  { intros [i Hi]%list_elem_of_lookup. apply Hm in Hi. congruence. }
  split; [apply list.NoDup_app; split; [done|]; split; [intros x Hx ->%list_elem_of_singleton; done|apply NoDup_singleton]|].
  intros x i. destruct (decide (x = k)) as [-> |Hne].
  - rewrite lookup_insert_eq. split; [intros [= <-]; by rewrite lookup_app_r, Nat.sub_diag by lia|].
    rewrite lookup_app_Some. intros [Hi|[Hi Hs]]; [by apply list_elem_of_lookup_2 in Hi|].
    apply list_lookup_singleton_Some in Hs as [? _]. f_equal. lia.
  - rewrite lookup_insert_ne, Hm by done. rewrite lookup_app_Some. split; [by left|]. intros [?|[_ Hs]]; [done|].
    apply list_lookup_singleton_Some in Hs as [_ ?]. congruence.
Qed.

Lemma del_loop_keys args s vct : NoDup vct -> (forall x, x ∈ s <-> x ∈ vct) ->
  NoDup (del_loop args s vct) /\ forall x, x ∈ del_loop args s vct <-> x ∈ vct \/ x ∈ args.
Proof.
  revert s vct. induction args as [|a args IH]; intros s vct Hnd Hs; cbn [del_loop]; [split; [done|]; set_solver|].
  case_decide as Ha.
  - destruct (IH s vct Hnd Hs) as [H1 H2]. split; [done|]. intros x. rewrite H2. set_solver.
  - destruct (IH ({[a]} ∪ s) (vct ++ [a])) as [H1 H2].
    + apply list.NoDup_app. split; [done|]. split; [|apply NoDup_singleton]. intros x Hx ->%list_elem_of_singleton. set_solver.
    + set_solver.
    + split; [done|]. intros x. rewrite H2. set_solver.
Qed.

(** The number of times that a key that satisfies [P] is counted. *)
Definition counted (P : bytes -> bool) (vct : list (bytes * Z)) : Z := zsum (fun kc => if P kc.1 then kc.2 else 0) vct.

Lemma counted_app P a b : counted P (a ++ b) = counted P a + counted P b.
Proof. apply zsum_app. Qed.

Lemma counted_alter P (f : Z -> Z) vct i k c : vct !! i = Some (k, c) -> f c = c + 1 ->
  counted P (alter (fun kc => (kc.1, f kc.2)) i vct) = counted P vct + (if P k then 1 else 0).
Proof.
  intros Hi Hf. revert i Hi. induction vct as [|kc vct IH]; intros [|i] Hi; try done.
  - injection Hi as ->. cbn. rewrite Hf. destruct (P k); lia.
  - specialize (IH i Hi). unfold counted in *. cbn in *. lia.
Qed.

Lemma keys_alter {A} (g : bytes * A -> A) (vct : list (bytes * A)) i : (alter (fun kc => (kc.1, g kc)) i vct).*1 = vct.*1.
Proof. revert i. induction vct as [|kc vct IH]; intros [|i]; cbn; try done. f_equal. apply IH. Qed.

Lemma ptrs_known {A} m (vct : list (bytes * A)) k i : ptrs_ok m vct.*1 -> m !! k = Some i -> exists v, vct !! i = Some (k, v).
Proof.
  intros [_ Hm] Hi. apply Hm in Hi. rewrite list_lookup_fmap in Hi. destruct (vct !! i) as [[k' v]|]; [|done].
  cbn in Hi. injection Hi as ->. by exists v.
Qed.

Lemma ptrs_push {A} m (vct : list (bytes * A)) k v : ptrs_ok m vct.*1 -> m !! k = None -> ptrs_ok (<[k := length vct]> m) (vct ++ [(k, v)]).*1.
Proof. intros Hm Hk. rewrite fmap_app. cbn. rewrite <- (length_fmap fst vct). by apply ptrs_new. Qed.

Lemma zlen_filter_cons (P : bytes -> bool) a args :
  zlen (filter (fun k => Is_true (P k)) (a :: args)) = (if P a then 1 else 0) + zlen (filter (fun k => Is_true (P k)) args).
Proof. rewrite filter_cons. unfold zlen. destruct (P a); cbn [Is_true decide]; [rewrite decide_True by done; cbn [length]|rewrite decide_False by tauto]; lia. Qed.

Lemma exists_loop_counts args m vct B : ptrs_ok m vct.*1 -> Forall (fun kc => 0 <= kc.2 <= B) vct -> 0 <= B -> B + zlen args <= INT32_MAX ->
  Forall (fun kc => 0 <= kc.2) (exists_loop args m vct)
  /\ forall P, counted P (exists_loop args m vct) = counted P vct + zlen (filter (fun k => Is_true (P k)) args).
Proof.
  revert m vct B. induction args as [|a args IH]; intros m vct B Hm Hc HB Hl; cbn [exists_loop].
  { split; [eapply Forall_impl; [|exact Hc]; cbn; lia|]. intros P. unfold zlen. cbn. lia. }
  rewrite zlen_cons in Hl. pose proof (zlen_nonneg args). destruct (m !! a) as [i|] eqn:Ha.
  - destruct (ptrs_known m vct a i Hm Ha) as [c Hi]. pose proof (Forall_lookup_1 _ _ _ _ Hc Hi) as Hcb. cbn in Hcb.
    edestruct (IH m (alter (fun kc => (kc.1, i32 (kc.2 + 1))) i vct) (B + 1)) as [H1 H2].
    + by rewrite (keys_alter (fun kc => i32 (kc.2 + 1))).
    + apply Forall_lookup_2. intros j kc Hj. rewrite list_lookup_alter in Hj. case_decide as E; [subst j|].
      * rewrite Hi in Hj. cbn [fmap option_fmap option_map] in Hj. injection Hj as <-. cbn [fst snd]. rewrite i32_id by (mach; lia). lia.
      * pose proof (Forall_lookup_1 _ _ _ _ Hc Hj) as Hb. cbn in Hb. lia.
    + lia.
    + lia.
    + split; [done|]. intros P. rewrite H2, zlen_filter_cons.
      rewrite (counted_alter P (fun c => i32 (c + 1)) vct i a c Hi) by (rewrite i32_id by (mach; lia); lia). destruct (P a); lia.
  - edestruct (IH (<[a := length vct]> m) (vct ++ [(a, 1)]) (B + 1)) as [H1 H2].
    + by apply ptrs_push.
    + apply Forall_app. split; [eapply Forall_impl; [|exact Hc]; cbn; lia|]. constructor; [cbn; lia|constructor].
    + lia.
    + lia.
    + split; [done|]. intros P. rewrite H2, zlen_filter_cons, counted_app. unfold counted at 2. cbn. destruct (P a); lia.
Qed.

(** The values that are set: of a key that comes again, the last. *)
Definition last_values (pairs : list (bytes * bytes)) (m : gmap bytes bytes) : gmap bytes bytes :=
  foldl (fun m kv => <[kv.1 := kv.2]> m) m pairs.

Definition pair_args (pairs : list (bytes * bytes)) : list bytes := concat (map (fun kv => [kv.1; kv.2]) pairs).

Lemma list_to_map_alter (vct : list (bytes * bytes)) i k v v0 : NoDup vct.*1 -> vct !! i = Some (k, v0) ->
  list_to_map (M := gmap bytes bytes) (alter (fun kv => (kv.1, v)) i vct) = <[k := v]> (list_to_map vct).
Proof.
  revert i. induction vct as [|[k1 v1] vct IH]; intros [|i] Hnd Hi; try done.
  - cbn in Hi. injection Hi as -> ->. cbn. by rewrite insert_insert_eq.
  - cbn in Hnd. apply list.NoDup_cons in Hnd as [Hnin Hnd]. cbn in *. rewrite (IH i Hnd Hi). rewrite insert_insert_ne; [done|].
    intros ->. apply Hnin. apply list_elem_of_fmap. exists (k, v0). split; [done|]. by eapply list_elem_of_lookup_2.
Qed.

Lemma mset_loop_values pairs m vct : ptrs_ok m vct.*1 ->
  NoDup (mset_loop (pair_args pairs) m vct).*1
  /\ list_to_map (mset_loop (pair_args pairs) m vct) = last_values pairs (list_to_map vct).
Proof.
  revert m vct. induction pairs as [|[k v] pairs IH]; intros m vct Hm; [by split; [apply Hm|]|].
  change (pair_args ((k, v) :: pairs)) with (k :: v :: pair_args pairs). cbn [mset_loop last_values foldl]. destruct (m !! k) as [i|] eqn:Hk.
  - destruct (ptrs_known m vct k i Hm Hk) as [v0 Hi]. destruct (IH m (alter (fun kv => (kv.1, v)) i vct)) as [H1 H2].
    { by rewrite (keys_alter (fun _ => v)). }
    split; [done|]. rewrite H2. by rewrite (list_to_map_alter vct i k v v0) by (apply Hm || done).
  - destruct (IH (<[k := length vct]> m) (vct ++ [(k, v)])) as [H1 H2]; [by apply ptrs_push|].
    split; [done|]. rewrite H2. unfold last_values. do 1 f_equal. apply list_to_map_snoc.
    intros [i Hi]%list_elem_of_lookup. apply Hm in Hi. cbn in Hi. congruence.
Qed.

(** The two vectors of MSETNX have their commands at the same positions. *)
Lemma msetnx_loop_split pairs m ex st : length ex = length st ->
  msetnx_loop (pair_args pairs) m ex st = (exists_loop pairs.*1 m ex, mset_loop (pair_args pairs) m st).
Proof.
  revert m ex st. induction pairs as [|[k v] pairs IH]; intros m ex st Hl; [done|].
  change (pair_args ((k, v) :: pairs)) with (k :: v :: pair_args pairs). cbn [msetnx_loop mset_loop fmap list_fmap fst exists_loop].
  destruct (m !! k) as [i|]; rewrite IH; [done|by rewrite !length_alter|by rewrite Hl|by rewrite !length_app, Hl].
Qed.

Lemma mget_loop_positions args m keys raw done_ : ptrs_ok m keys -> Forall2 (fun i k => keys !! i = Some k) raw done_ ->
  let '(keys', raw') := mget_loop args m keys raw in Forall2 (fun i k => keys' !! i = Some k) raw' (done_ ++ args).
Proof.
  revert m keys raw done_. induction args as [|a args IH]; intros m keys raw done_ Hm Hr; cbn [mget_loop]; [by rewrite app_nil_r|].
  change (a :: args) with ([a] ++ args). rewrite app_assoc. destruct (m !! a) as [i|] eqn:Ha; apply IH.
  - done.
  - apply Forall2_app; [done|]. constructor; [by apply Hm|constructor].
  - by apply ptrs_new.
  - apply Forall2_app.
    + eapply Forall2_impl; [|exact Hr]. intros i k Hi. cbn in Hi. by apply lookup_app_l_Some.
    + constructor; [by rewrite lookup_app_r, Nat.sub_diag by lia|constructor].
Qed.

(** ** The commands in their transaction *)

Lemma del_all keys db lazy : exists cmds db',
  tx_all DelCommand (map (fun key => (key, lazy, int_result0)) keys) db = Some (cmds, db')
  /\ (forall k, db' !! k = if decide (k ∈ keys) then None else db !! k)
  /\ zsum ir_int_val_ (map snd cmds) = Z.of_nat (size db) - Z.of_nat (size db').
Proof.
  revert db. induction keys as [|key keys IH]; intros db.
  - exists [], db. split; [done|]. split; [|cbn; lia]. intros k. by rewrite decide_False by set_solver.
  - assert (exists r, tx_on DelCommand lazy int_result0 key db = Some (lazy, r, delete key db)
            /\ ir_int_val_ r = Z.of_nat (size db) - Z.of_nat (size (delete key db))) as (r & Hr & Hn).
    { unfold tx_on, tx_apply. rewrite map_size_delete. destruct (db !! key) as [obj|] eqn:E; cbn.
      - eexists. split; [done|]. assert (size db <> 0)%nat by (intros H0; apply map_size_empty_inv in H0; by rewrite H0 in E). cbn. lia.
      - eexists. split; [done|]. cbn. lia. }
    destruct (IH (delete key db)) as (cmds & db' & HE & Hdb & Hsum). exists ((key, lazy, r) :: cmds), db'. split; [|split].
    + cbn [map tx_all]. rewrite Hr. cbn [mbind option_bind]. by rewrite HE.
    + intros k. rewrite Hdb. destruct (decide (k = key)) as [-> |Hk].
      * rewrite lookup_delete_eq, (decide_True (P := key ∈ key :: keys)) by set_solver. by case_decide.
      * rewrite lookup_delete_ne by done. destruct (decide (k ∈ keys)); [rewrite decide_True by set_solver|rewrite decide_False by set_solver]; done.
    + cbn [map snd zsum foldr]. change (foldr _ 0 (map snd cmds)) with (zsum ir_int_val_ (map snd cmds)). rewrite Hsum, Hn. lia.
Qed.

Definition present (db : Db) (key : bytes) : bool := bool_decide (is_Some (db !! key)).

Lemma exists_all counts db : exists cmds,
  tx_all ExistsCommand (exist_children counts) db = Some (cmds, db)
  /\ Forall2 (fun kc cmd => ir_int_val_ cmd.2 = if present db kc.1 then kc.2 else 0) counts cmds
  /\ forallb exist_asserted cmds = true.
Proof.
  induction counts as [|[key n] counts (cmds & HE & Hf & Ha)]; [by exists []|]. unfold present.
  unfold exist_children. cbn [map tx_all fst snd]. fold (exist_children counts). unfold tx_on, tx_apply.
  destruct (db !! key) as [obj|] eqn:E;
    cbn [mbind option_bind ExecuteOn ExistsCommand ProceedOnNonExistentObject]; rewrite <- E, put_same, HE; cbn [mbind option_bind];
    eexists; (split; [done|]); (split; [constructor; try done; cbn; rewrite E; done|]); cbn; by rewrite Ha.
Qed.

Lemma exists_sum db counts cmds : Forall2 (fun kc (cmd : bytes * Z * RedisIntResult) => ir_int_val_ cmd.2 = if present db kc.1 then kc.2 else 0) counts cmds ->
  zsum ir_int_val_ (map snd cmds) = counted (present db) counts.
Proof. unfold counted. induction 1 as [|? ? ? ? H _ IH]; cbn in *; [done|]. by rewrite H, IH. Qed.

(** What SET leaves under its key, with a value that is not too big. *)
Lemma plain_set_applied v r s : fits v ->
  exists r', tx_apply SetCommand (plain_set v) r s
    = Some (plain_set v, r', if decide (str_small v) then Some (ObjString (str_of v)) else s)
  /\ sr_err_code_ r' = if decide (str_small v) then RD_OK else RD_ERR_OBJECT_TOO_BIG.
Proof.
  intros Hv. assert (exists r', (forall obj, Set_ExecuteOn (plain_set v) obj r
    = Some (plain_set v, r', if decide (str_small v) then ExecWrite else ExecFail))
    /\ sr_err_code_ r' = if decide (str_small v) then RD_OK else RD_ERR_OBJECT_TOO_BIG) as (r' & HE & Hr).
  { unfold Set_ExecuteOn. cbn [plain_set set_flag_ set_value_]. rewrite CheckSerializedLength_of by exact Hv.
    change (has_flag OBJ_GET_SET 0) with false. cbn [es_view es_of_view].
    case_decide; [rewrite bool_decide_true by done|rewrite bool_decide_false by done]; eexists; (split; [intros obj; reflexivity|done]). }
  assert (forall obj, Set_CommitOn (plain_set v) obj = ObjString (str_of v)) as HC.
  { intros obj. destruct (as_string obj) as [o|] eqn:Ho.
    - rewrite Set_CommitOn_of by done. by destruct obj.
    - destruct obj; try done; cbn [Set_CommitOn plain_set set_value_ set_obj_expire_ts_];
        destruct (CommitSet str_new (es_of_view v)) as [o' v'] eqn:E; assert (v' = es_of_view v) as -> by (by injection E as _ <-);
        by rewrite CommitSet_of. }
  exists r'. split; [|done]. assert (s = Some (default (ObjString str_new) s) \/ s = None /\ ProceedOnNonExistentObject SetCommand (plain_set v) = true
    /\ CreateObject SetCommand = Some (default (ObjString str_new) s)) as Hs by (destruct s; [by left|by right]).
  rewrite (tx_apply_slot SetCommand _ _ _ _ _ _ _ Hs (HE _)). case_decide; [|done]. cbn [CommitOn SetCommand mbind option_bind]. by rewrite HC.
Qed.

(** The strings among the values. *)
Definition strings (m : gmap bytes bytes) : Db := (fun v => ObjString (str_of v)) <$> filter (fun kv => str_small kv.2) m.

Lemma set_all pairs db : NoDup pairs.*1 -> Forall (fun kv => fits kv.2) pairs ->
  exists cmds, tx_all SetCommand (set_children pairs) db = Some (cmds, strings (list_to_map pairs) ∪ db)
  /\ forallb (fun cmd => sr_err_code_ cmd.2 =? RD_OK) cmds = bool_decide (Forall (fun kv => str_small kv.2) pairs).
Proof.
  revert db. induction pairs as [|[k v] pairs IH]; intros db Hnd Hf.
  - exists []. unfold strings. by rewrite list_to_map_nil, map_filter_empty, fmap_empty, (left_id_L ∅ (∪)), bool_decide_true by constructor.
  - cbn in Hnd. apply list.NoDup_cons in Hnd as [Hk Hnd]. apply list.Forall_cons in Hf as [Hv Hf]. cbn in Hv.
    destruct (plain_set_applied v string_result0 (db !! k) Hv) as (r & Hr & Hcode).
    destruct (IH (put k (if decide (str_small v) then Some (ObjString (str_of v)) else db !! k) db) Hnd Hf) as (cmds & HE & Hcodes).
    exists ((k, plain_set v, r) :: cmds). unfold set_children. cbn [map tx_all fst snd]. unfold tx_on. rewrite Hr. cbn [mbind option_bind].
    unfold set_children in HE. rewrite HE. cbn [mbind option_bind]. split.
    2: { cbn [forallb snd]. rewrite Hcode, Hcodes. apply eq_true_iff_eq. rewrite andb_true_iff, !bool_decide_eq_true, list.Forall_cons, Z.eqb_eq. cbn.
      case_decide; [tauto|]. split; [intros [? _]; done|tauto]. }
    do 2 f_equal.
    assert (strings (list_to_map pairs) !! k = None) as Hn.
    { unfold strings. rewrite lookup_fmap, map_lookup_filter_None_2; [done|]. left. by apply not_elem_of_list_to_map_1. }
    cbn [list_to_map fold_right]. unfold strings in *. cbn. case_decide as Hs.
    + rewrite map_filter_insert_True by done. rewrite fmap_insert, <- insert_union_l. apply map_eq. intros x.
      destruct (decide (x = k)) as [-> |Hx].
      * rewrite lookup_insert_eq, lookup_union, Hn, lookup_put. done.
      * by rewrite lookup_insert_ne, !lookup_union, lookup_put_ne by done.
    + rewrite put_same. f_equal. f_equal. rewrite map_filter_insert_False by done.
      rewrite delete_id; [done|]. by apply not_elem_of_list_to_map_1.
Qed.

(** What GET finds and replies. *)
Definition get_result (db : Db) (key : bytes) : RedisStringResult :=
  match db !! key with
  | Some obj => match as_string obj with
                | Some o => Execute_Get o string_result0
                | None => sr_set_err RD_ERR_WRONG_TYPE string_result0
                end
  | None => string_result0
  end.

Definition string_reply (db : Db) (key : bytes) : ReplyEvent :=
  match db !! key with
  | Some obj => match as_string obj with Some o => OnString (str_StringView o) | None => OnNil end
  | None => OnNil
  end.

Definition got (db : Db) (keys : list bytes) : Children GetCommand := map (fun key => (key, tt, get_result db key)) keys.

Lemma get_all keys db : tx_all GetCommand (get_children keys) db = Some (got db keys, db).
Proof.
  unfold get_children, got. induction keys as [|key keys IH]; [done|]. cbn [map tx_all].
  assert (tx_apply GetCommand tt string_result0 (db !! key) = Some (tt, get_result db key, db !! key)) as Ha.
  { unfold get_result. destruct (db !! key) as [obj|]; [|done]. cbn [tx_apply ExecuteOn GetCommand]. unfold str_read. by destruct (as_string obj). }
  unfold tx_on. rewrite Ha. cbn [mbind option_bind]. rewrite put_same, IH. done.
Qed.

Lemma mget_reply_of db key : mget_reply (get_result db key) = Some [string_reply db key].
Proof. unfold get_result, string_reply. destruct (db !! key) as [obj|]; [|done]. by destruct (as_string obj). Qed.

Lemma mget_output_of db keys' raw args : Forall2 (fun i k => keys' !! i = Some k) raw args ->
  mget_output raw (map snd (got db keys')) = Some (OnArrayStart (zlen args) :: map (string_reply db) args ++ [OnArrayEnd]).
Proof.
  intros Hr. assert (map snd (got db keys') = get_result db <$> keys') as -> by (unfold got; rewrite map_map; done).
  assert (mapM (fun i => r ← (get_result db <$> keys') !! i; mget_reply r) raw = Some ((fun k => [string_reply db k]) <$> args)) as HE.
  { apply mapM_Some. rewrite Forall2_fmap_r. eapply Forall2_impl; [|exact Hr]. intros i k Hi. cbn in Hi.
    rewrite list_lookup_fmap, Hi. apply mget_reply_of. }
  unfold mget_output. rewrite HE. cbn [mbind option_bind]. unfold zlen. rewrite (Forall2_length Hr). do 3 f_equal.
  clear. induction args; cbn; [done|]. by f_equal.
Qed.

Lemma pair_args_length name pairs : pairs <> [] ->
  (zlen (name :: pair_args pairs) <? 3) || (zlen (name :: pair_args pairs) mod 2 =? 0) = false.
Proof.
  intros Hne. assert (zlen (pair_args pairs) = 2 * zlen pairs) as E.
  { clear Hne. unfold zlen, pair_args. induction pairs as [|kv pairs IH]; [done|]. cbn [map concat]. rewrite length_app. cbn [length]. lia. }
  assert (0 < zlen pairs) by (destruct pairs; [done|rewrite zlen_cons; pose proof (zlen_nonneg pairs); lia]).
  rewrite zlen_cons, E. apply orb_false_iff. split; [apply Z.ltb_ge; lia|]. apply Z.eqb_neq.
  rewrite (Z.mul_comm 2), Z.mod_add by lia. done.
Qed.

Lemma last_values_fits pairs m k v : Forall (fun kv => fits kv.2) pairs -> (forall k v, m !! k = Some v -> fits v) ->
  last_values pairs m !! k = Some v -> fits v.
Proof.
  revert m. induction pairs as [|[k1 v1] pairs IH]; intros m Hf Hm; [apply Hm|]. apply list.Forall_cons in Hf as [Hv Hf]. cbn [last_values foldl].
  apply IH; [done|]. intros k' v' H. apply lookup_insert_Some in H as [[_ <-]|[_ H]]; [done|by eapply Hm].
Qed.

Lemma vct_fits pairs : Forall (fun kv => fits kv.2) pairs -> Forall (fun kv => fits kv.2) (mset_loop (pair_args pairs) ∅ []).
Proof.
  intros Hf. destruct (mset_loop_values pairs ∅ [] ptrs_empty) as [Hnd HE]. apply list.Forall_forall. intros [k v] Hin.
  apply (elem_of_list_to_map_1 (M := gmap bytes)) in Hin; [|done]. rewrite HE in Hin. cbn. eapply (last_values_fits pairs ∅); [done| |done].
  intros ? ?. by rewrite lookup_empty.
Qed.

Lemma strings_lookup m db k : (strings m ∪ db) !! k
  = match filter (fun kv => str_small kv.2) m !! k with Some v => Some (ObjString (str_of v)) | None => db !! k end.
Proof.
  rewrite lookup_union. unfold strings. rewrite lookup_fmap. destruct (filter _ m !! k); cbn; [by rewrite union_Some_l|].
  by rewrite (left_id_L None _).
Qed.

Lemma strings_sound m db : db_sound db -> db_sound (strings m ∪ db).
Proof.
  intros Hdb k. rewrite strings_lookup. destruct (filter (fun kv => str_small kv.2) m !! k) as [v|] eqn:E; [|apply Hdb].
  apply map_lookup_filter_Some in E as [_ Hs]. cbn in Hs. destruct (str_of_small v Hs). by split.
Qed.

Lemma strings_values m db k : (strings m ∪ db) !! k
  = match m !! k with Some v => if decide (str_small v) then Some (ObjString (str_of v)) else db !! k | None => db !! k end.
Proof.
  rewrite strings_lookup. destruct (m !! k) as [v|] eqn:E.
  - case_decide; [by rewrite (map_lookup_filter_Some_2 _ m k v)|]. rewrite map_lookup_filter_None_2; [done|]. right. intros v' E'. by simplify_eq.
  - rewrite map_lookup_filter_None_2; [done|by left].
Qed.

Lemma small_values (vct : list (bytes * bytes)) (m : gmap bytes bytes) : NoDup vct.*1 -> list_to_map vct = m ->
  bool_decide (Forall (fun kv => str_small kv.2) vct) = bool_decide (map_Forall (fun _ v => str_small v) m).
Proof.
  intros Hnd <-. apply bool_decide_ext. rewrite list.Forall_forall. split.
  - intros H k v E. apply elem_of_list_to_map_2 in E. by apply (H (k, v)).
  - intros H [k v] Hin. apply (H k v). by apply elem_of_list_to_map_1.
Qed.

Lemma one_step_run auto_commits C cmds output db cmds' db' reply :
  auto_commits true = true -> tx_all C cmds db = Some (cmds', db') -> output cmds' = Some reply ->
  forall auto_commit,
  ExecuteMultiObjTxRequest (fun _ => true) auto_commits (one_step C true cmds output) auto_commit db = Some (true, reply, tx_end auto_commit true, db').
Proof.
  intros Hac HE Ho auto_commit. unfold ExecuteMultiObjTxRequest. cbn [CmdSteps one_step Nat.sub multi_loop run_step mo_init]. rewrite HE.
  cbn [mbind option_bind MultiOutput one_step IsPassed Nat.eqb andb]. rewrite Ho. destruct auto_commit; cbn; [by rewrite Hac|done].
Qed.

Lemma none_counted db keys (counts : list (bytes * Z)) (cmds : Children ExistsCommand) :
  Forall (fun kc => 0 <= kc.2) counts -> counted (present db) counts = zlen (filter (fun k => Is_true (present db k)) keys) ->
  Forall2 (fun kc cmd => ir_int_val_ cmd.2 = if present db kc.1 then kc.2 else 0) counts cmds ->
  forallb (fun cmd => ir_int_val_ cmd.2 =? 0) cmds = negb (existsb (present db) keys).
Proof.
  intros Hpos Hc Hf. assert (0 <= counted (present db) counts
    /\ (counted (present db) counts = 0 <-> forallb (fun cmd => ir_int_val_ cmd.2 =? 0) cmds = true)) as [Hp Hz].
  { clear Hc. unfold counted. induction Hf as [|kc cmd counts cmds H Hf IH]; [done|]. apply list.Forall_cons in Hpos as [H0 Hpos].
    destruct (IH Hpos) as [IH1 IH2]. cbn [zsum foldr forallb]. unfold zsum in *. cbn [foldr] in *.
    assert (0 <= (if present db kc.1 then kc.2 else 0)) by (destruct (present db kc.1); lia).
    split; [lia|]. rewrite andb_true_iff, <- IH2, Z.eqb_eq, H. lia. }
  rewrite Hc in Hz. apply eq_true_iff_eq. rewrite <- Hz. clear. induction keys as [|k keys IH]; [done|].
  rewrite zlen_filter_cons. cbn [existsb]. pose proof (zlen_nonneg (filter (fun k => Is_true (present db k)) keys)).
  destruct (present db k); cbn [negb orb]; [split; [lia|done]|]. rewrite <- IH. lia.
Qed.

Lemma MSetNx_middle_of (cmds : Children ExistsCommand) : forallb exist_asserted cmds = true ->
  MSetNx_middle cmds = Some (forallb (fun cmd => ir_int_val_ cmd.2 =? 0) cmds).
Proof.
  induction cmds as [|cmd cmds IH]; [done|]. cbn [forallb MSetNx_middle]. intros [-> Ha]%andb_true_iff. cbn [negb].
  destruct (_ =? 0); [by apply IH|done].
Qed.

(** ** BITOP byte by byte *)

(** The string under a key, empty if there is none; [None] for another type. *)
Definition string_at (db : Db) (key : bytes) : option bytes :=
  match db !! key with None => Some [] | Some obj => str_StringView <$> as_string obj end.

Definition max_length (sources : list bytes) : nat := foldr (fun s n => Nat.max (length s) n) 0%nat sources.

Definition source_byte (s : bytes) (i : nat) : byte := default Init.Byte.x00 (s !! i).

(** A source that is too short has zeroes there. *)
Definition bitop_spec (op : BitOpType) (sources : list bytes) : bytes :=
  (fun i => match op, sources with
            | BitNot, s :: _ => z2b (255 - b2z (source_byte s i))
            | _, s :: rest => foldl (fun b s => bit_op op b (source_byte s i)) (source_byte s i) rest
            | _, [] => Init.Byte.x00
            end) <$> seq 0 (max_length sources).

Lemma max_length_le s sources : s ∈ sources -> (length s <= max_length sources)%nat.
Proof. induction sources as [|t sources IH]; [set_solver|]. cbn. intros [->|H]%elem_of_cons; [lia|]. specialize (IH H). unfold max_length in IH. lia. Qed.

Lemma bit_op_zero op b : op <> BitNot -> bit_op op b Init.Byte.x00 = bit_rest op b.
Proof.
  intros Hop. destruct op; cbn [bit_op bit_rest]; [|by rewrite Z.lor_0_r, z2b_b2z|done|done]. by rewrite Z.land_0_r.
Qed.

Lemma bitop_source_of op f len s : op <> BitNot -> (length s <= len)%nat ->
  bitop_source op (f <$> seq 0 len) s = (fun i => bit_op op (f i) (source_byte s i)) <$> seq 0 len.
Proof.
  intros Hop Hs. unfold bitop_source. apply list_eq. intros i. destruct (decide (i < length s)%nat) as [Hi|Hi].
  - rewrite lookup_app_l by (rewrite length_zip_with, length_fmap, length_seq; lia).
    rewrite lookup_zip_with, !list_lookup_fmap, lookup_seq_lt by lia. cbn. unfold source_byte.
    destruct (s !! i) eqn:E; [done|]. apply lookup_ge_None in E. lia.
  - rewrite lookup_app_r by (rewrite length_zip_with, length_fmap, length_seq; lia).
    rewrite length_zip_with, length_fmap, length_seq, Nat.min_r by lia. rewrite list_lookup_fmap, lookup_drop, !list_lookup_fmap.
    replace (length s + (i - length s))%nat with i by lia. destruct (decide (i < len)%nat) as [Hl|Hl].
    + rewrite lookup_seq_lt by lia. cbn. unfold source_byte. rewrite (lookup_ge_None_2 s i) by lia. cbn. by rewrite bit_op_zero.
    + by rewrite lookup_seq_ge by lia.
Qed.

Lemma pad_of len s : (length s <= len)%nat -> pad len s = source_byte s <$> seq 0 len.
Proof.
  intros Hs. unfold pad. apply list_eq. intros i. rewrite list_lookup_fmap. unfold source_byte. destruct (decide (i < length s)%nat) as [Hi|Hi].
  - rewrite lookup_app_l, lookup_seq_lt by lia. cbn. destruct (s !! i) eqn:E; [done|]. apply lookup_ge_None in E. lia.
  - rewrite lookup_app_r by lia. destruct (decide (i < len)%nat).
    + rewrite lookup_replicate_2, lookup_seq_lt by lia. cbn. by rewrite (lookup_ge_None_2 s i) by lia.
    + rewrite lookup_seq_ge by lia. apply lookup_ge_None_2. rewrite length_replicate. lia.
Qed.

Lemma bitop_dest_of op sources : sources <> [] -> (op = BitNot -> length sources = 1%nat) ->
  bitop_dest op sources = Some (bitop_spec op sources).
Proof.
  destruct sources as [|s rest]; [done|]. intros _ Hnot. unfold bitop_dest, bitop_spec. fold (max_length (s :: rest)).
  set (len := max_length (s :: rest)). assert (Forall (fun t => length t <= len)%nat (s :: rest)) as Hlen.
  { apply list.Forall_forall. intros t. apply max_length_le. }
  apply list.Forall_cons in Hlen as [Hs Hrest]. destruct (decide (op = BitNot)) as [-> |Hop].
  - specialize (Hnot eq_refl). destruct rest; [|done]. cbn [foldl]. f_equal. assert (len = length s) as -> by (unfold len, max_length; cbn; lia).
    apply list_eq. intros i. rewrite !list_lookup_fmap. unfold source_byte. destruct (s !! i) as [c|] eqn:E.
    + assert (i < length s)%nat by (by eapply lookup_lt_Some). rewrite lookup_seq_lt by lia. cbn. by rewrite E.
    + apply lookup_ge_None in E. by rewrite lookup_seq_ge by lia.
  - assert (forall f, foldl (bitop_source op) (f <$> seq 0 len) rest
      = (fun i => foldl (fun b s => bit_op op b (source_byte s i)) (f i) rest) <$> seq 0 len) as Hfold.
    { clear Hnot Hs. revert Hrest. generalize len. clear len. intros len Hrest. induction rest as [|t rest IH]; intros f; [done|].
      apply list.Forall_cons in Hrest as [Ht Hrest]. cbn [foldl]. rewrite bitop_source_of by done. by rewrite IH. }
    f_equal. destruct op; try done; rewrite pad_of by done; apply Hfold.
Qed.

Lemma bitop_error_of db keys i :
  match mapM (string_at db) keys with
  | Some sources => bitop_error (map snd (got db keys)) i = None /\ sr_str_ <$> map snd (got db keys) = sources
  | None => exists j cmd, bitop_error (map snd (got db keys)) i = Some (i + Z.of_nat j) /\ got db keys !! j = Some cmd
            /\ sr_err_code_ cmd.2 = RD_ERR_WRONG_TYPE
  end.
Proof.
  revert i. induction keys as [|key keys IH]; intros i; [done|]. cbn [mapM got map bitop_error snd]. fold (got db keys). specialize (IH (i + 1)).
  assert (string_at db key = match db !! key with None => Some [] | Some obj => str_StringView <$> as_string obj end) as Hs by done.
  assert (get_result db key = match db !! key with Some obj => match as_string obj with Some o => Execute_Get o string_result0
    | None => sr_set_err RD_ERR_WRONG_TYPE string_result0 end | None => string_result0 end) as Hg by done.
  destruct (db !! key) as [obj|]; [destruct (as_string obj) as [o|]|].
  2: { rewrite Hs, Hg. exists 0%nat. eexists. cbn. split; [f_equal; lia|]. split; [done|]. done. }
  all: rewrite Hs, Hg; cbn [fmap option_fmap option_map mbind option_bind]; destruct (mapM (string_at db) keys) as [sources|];
    [destruct IH as [IH1 <-]; split; [exact IH1|done]|]; destruct IH as (j & cmd & IH1 & IH2 & IH3); exists (S j), cmd;
    split; [etrans; [exact IH1|f_equal; lia]|done].
Qed.

Lemma string_at_small db key v : db_sound db -> string_at db key = Some v -> str_small v.
Proof.
  intros Hdb Hv. unfold string_at in Hv. specialize (Hdb key). destruct (db !! key) as [obj|]; [|injection Hv as <-; concrete].
  destruct Hdb as [Hs _]. destruct (as_string obj) as [o|] eqn:Ho; [|done]. injection Hv as <-. by apply (shows_small o), (as_string_sound obj).
Qed.

Lemma small_fits v : str_small v -> fits v.
Proof. unfold str_small, fits, MAX_OBJECT_SIZE. pose proof (zlen_nonneg v). mach. lia. Qed.

Lemma bitop_spec_small db op keys sources : db_sound db -> mapM (string_at db) keys = Some sources -> str_small (bitop_spec op sources).
Proof.
  intros Hdb Hm. unfold str_small, bitop_spec, zlen. rewrite length_fmap, length_seq. apply mapM_Some in Hm.
  induction Hm as [|key s keys sources Hs _ IH]; [concrete|]. unfold max_length in *. cbn [foldr].
  pose proof (string_at_small db key s Hdb Hs) as Hs'. unfold str_small, zlen in Hs'. lia.
Qed.

(** ** Properties *)

(** C26: EXISTS replies how many of its arguments are keys of the database, one
    that comes several times as often as it comes, and changes nothing.  DEL and
    UNLINK remove exactly the keys that are given, and reply how many keys the
    database has lost. *)
Theorem del_exists_correct auto_commits db keys name :
  auto_commits true = true -> keys <> [] -> zlen keys <= INT32_MAX -> name = lit "del" \/ name = lit "unlink" ->
  let run M := ExecuteMultiObjTxRequest (fun _ => true) auto_commits M true db in
  (exists counts, ParseExistsCommand (lit "exists" :: keys) = Parsed counts
   /\ run (MExistsCommand true counts) = Some (true, [OnInt (zlen (filter (fun k => Is_true (present db k)) keys))], TxCommitted, db))
  /\ exists vct_key lazy db', ParseDelCommand (name :: keys) = Parsed (vct_key, lazy) /\ lazy = bool_decide (name = lit "unlink")
     /\ run (MDelCommand true vct_key lazy) = Some (true, [OnInt (Z.of_nat (size db) - Z.of_nat (size db'))], TxCommitted, db')
     /\ forall k, db' !! k = if decide (k ∈ keys) then None else db !! k.
Proof.
  intros Hac Hne Hlen _. cbn zeta. split.
  - destruct (exists_all (exists_loop keys ∅ []) db) as (cmds & HE & Hf & _). eexists. split; [by destruct keys|]. change TxCommitted with (tx_end true true).
    apply (one_step_run _ _ _ _ _ _ _ _ Hac HE). etrans; [exact (f_equal (fun z => Some [OnInt z]) (exists_sum db _ cmds Hf))|].
    destruct (exists_loop_counts keys ∅ [] 0 ptrs_empty) as [_ ->]; [constructor|lia|lia|]. done.
  - destruct (del_loop_keys keys ∅ [] ltac:(constructor) ltac:(set_solver)) as [_ Hk].
    destruct (del_all (del_loop keys ∅ []) db (bool_decide (name = lit "unlink"))) as (cmds & db' & HE & Hdb & Hsum).
    do 2 eexists. exists db'. split; [by destruct keys|]. split; [done|]. split.
    + change TxCommitted with (tx_end true true). apply (one_step_run _ _ _ _ _ _ _ _ Hac HE). exact (f_equal (fun z => Some [OnInt z]) Hsum).
    + intros k. rewrite Hdb. destruct (decide (k ∈ keys)) as [H|H]; [rewrite decide_True|rewrite decide_False]; try done; rewrite Hk; set_solver.
Qed.

(** EXISTS s x s and UNLINK s x s. *)
Lemma del_exists_correct_witness :
  (exists counts, ParseExistsCommand [lit "exists"; lit "s"; lit "x"; lit "s"] = Parsed counts
   /\ ExecuteMultiObjTxRequest (fun _ => true) id (MExistsCommand true counts) true ex_db = Some (true, [OnInt 2], TxCommitted, ex_db))
  /\ exists vct_key db', ParseDelCommand [lit "unlink"; lit "s"; lit "x"; lit "s"] = Parsed (vct_key, true)
     /\ ExecuteMultiObjTxRequest (fun _ => true) id (MDelCommand true vct_key true) true ex_db
        = Some (true, [OnInt (Z.of_nat (size ex_db) - Z.of_nat (size db'))], TxCommitted, db')
     /\ db' !! lit "s" = None.
Proof.
  destruct (del_exists_correct id ex_db [lit "s"; lit "x"; lit "s"] (lit "unlink") eq_refl ltac:(discriminate) ltac:(concrete) ltac:(right; reflexivity))
    as [(counts & H1 & H2) (vct_key & lazy & db' & H3 & H4 & H5 & H6)]. split.
  - exists counts. split; [exact H1|]. assert (zlen (filter (fun k => Is_true (present ex_db k)) [lit "s"; lit "x"; lit "s"]) = 2) as E by (vm_compute; reflexivity).
    rewrite E in H2. exact H2.
  - assert (lazy = true) as -> by exact H4. exists vct_key, db'. split; [exact H3|]. split; [exact H5|]. rewrite H6. reflexivity.
Defined.

(** C12: MSET sets each key to the last value that is given for it, except that a
    value over the limit leaves its key as it was, and replies OK in both cases;
    the data stay sound.  MGET then replies these values in the order of its
    arguments, and for the other keys what it would have replied before.  They do
    so alone and inside MULTI.  There are at least one pair and one key to get,
    the values are shorter than 2^32 bytes, the objects are sound before, and the
    engine takes every request and every commit of the transactions. *)
Theorem mset_mget_correct auto_commits auto_commit db pairs :
  auto_commits true = true -> pairs <> [] -> Forall (fun kv => fits kv.2) pairs -> db_sound db ->
  let set := filter (fun kv => str_small kv.2) (last_values pairs ∅) in
  exists vct db', ParseMSetCommand (lit "mset" :: pair_args pairs) = Parsed vct
  /\ ExecuteMultiObjTxRequest (fun _ => true) auto_commits (MSetCommand true vct) auto_commit db = Some (true, [OnStatus RD_OK], tx_end auto_commit true, db')
  /\ db_sound db'
  /\ (forall k, db' !! k = match set !! k with Some v => Some (ObjString (str_of v)) | None => db !! k end)
  /\ forall keys, keys <> [] -> exists vct_key raw, ParseMGetCommand (lit "mget" :: keys) = Parsed (vct_key, raw)
     /\ ExecuteMultiObjTxRequest (fun _ => true) auto_commits (MGetCommand true vct_key raw) auto_commit db'
        = Some (true, OnArrayStart (zlen keys)
                      :: map (fun k => match set !! k with Some v => OnString v | None => string_reply db k end) keys ++ [OnArrayEnd], tx_end auto_commit true, db').
Proof.
  intros Hac Hne Hf Hdb set. pose proof (mset_loop_values pairs ∅ [] ptrs_empty) as [Hnd Hlast].
  destruct (set_all (mset_loop (pair_args pairs) ∅ []) db Hnd (vct_fits pairs Hf)) as (cmds & HE & _).
  assert (forall k, (strings (last_values pairs ∅) ∪ db) !! k = match set !! k with Some v => Some (ObjString (str_of v)) | None => db !! k end) as Hdb'.
  { apply strings_lookup. }
  exists (mset_loop (pair_args pairs) ∅ []), (strings (last_values pairs ∅) ∪ db). split; [|split; [|split; [|split]]].
  - unfold ParseMSetCommand. by rewrite pair_args_length.
  - rewrite Hlast in HE. by apply (one_step_run _ _ _ _ _ _ _ _ Hac HE).
  - by apply strings_sound.
  - done.
  - intros keys Hk. pose proof (mget_loop_positions keys ∅ [] [] [] ptrs_empty ltac:(constructor)) as Hpos.
    destruct (mget_loop keys ∅ [] []) as [vct_key raw] eqn:Hl. exists vct_key, raw. split; [destruct keys; [done|]; unfold ParseMGetCommand; by rewrite Hl|].
    apply (one_step_run _ _ _ _ _ _ _ _ Hac (get_all vct_key _)). etrans; [exact (mget_output_of _ vct_key raw keys Hpos)|]. do 3 f_equal.
    apply map_ext. intros k. unfold string_reply. rewrite Hdb'. by destruct (set !! k).
Qed.

(** MSET k 1 s 2 k 3, then MGET k s. *)
Lemma mset_mget_correct_witness :
  exists vct db', ParseMSetCommand [lit "mset"; lit "k"; lit "1"; lit "s"; lit "2"; lit "k"; lit "3"] = Parsed vct
  /\ ExecuteMultiObjTxRequest (fun _ => true) id (MSetCommand true vct) true ex_db = Some (true, [OnStatus RD_OK], TxCommitted, db')
  /\ exists vct_key raw, ParseMGetCommand [lit "mget"; lit "k"; lit "s"; lit "x"] = Parsed (vct_key, raw)
     /\ ExecuteMultiObjTxRequest (fun _ => true) id (MGetCommand true vct_key raw) true db'
        = Some (true, [OnArrayStart 3; OnString (lit "3"); OnString (lit "2"); OnNil; OnArrayEnd], TxCommitted, db').
Proof.
  destruct (mset_mget_correct id true ex_db [(lit "k", lit "1"); (lit "s", lit "2"); (lit "k", lit "3")] eq_refl ltac:(discriminate)
    ltac:(repeat constructor; concrete) ex_db_sound) as (vct & db' & H1 & H2 & _ & _ & H3).
  destruct (H3 [lit "k"; lit "s"; lit "x"] ltac:(discriminate)) as (vct_key & raw & H4 & H5).
  exists vct, db'. split; [exact H1|]. split; [exact H2|]. exists vct_key, raw. split; [exact H4|]. exact H5.
Defined.

(** C25: MSETNX sets nothing and replies 0 if one of its keys exists.  Otherwise, if
    no value is over the limit, it sets each key to the last value given for it
    and replies 1.  With a value over the limit, a command that runs alone fails
    the assertion that all keys are set (the run is not defined), and inside
    MULTI, where the assertion is not reached, it leaves out the keys of these
    values and replies 1.  What is defined leaves the data sound.  There are
    from one to 2^31 - 1 pairs, the values are shorter than 2^32 bytes, the
    objects are sound before, and the engine takes every request and every commit
    of the transaction. *)
Theorem msetnx_correct auto_commits auto_commit db pairs :
  auto_commits true = true -> pairs <> [] -> Forall (fun kv => fits kv.2) pairs -> zlen pairs <= INT32_MAX -> db_sound db ->
  let values := last_values pairs ∅ in
  exists exist_cmds set_cmds, ParseMSetNxCommand (lit "msetnx" :: pair_args pairs) = Parsed (exist_cmds, set_cmds)
  /\ let run := ExecuteMultiObjTxRequest (fun _ => true) auto_commits (MSetNxCommand exist_cmds set_cmds) auto_commit db in
     if existsb (present db) pairs.*1 then run = Some (true, [OnInt 0], tx_end auto_commit true, db)
     else if auto_commit && negb (bool_decide (map_Forall (fun _ v => str_small v) values)) then run = None
     else exists db', run = Some (true, [OnInt 1], tx_end auto_commit true, db') /\ db_sound db'
          /\ forall k, db' !! k = match values !! k with
                                 | Some v => if decide (str_small v) then Some (ObjString (str_of v)) else db !! k
                                 | None => db !! k
                                 end.
Proof.
  intros Hac Hne Hf Hlen Hdb values. exists (exists_loop pairs.*1 ∅ []), (mset_loop (pair_args pairs) ∅ []).
  destruct (exists_loop_counts pairs.*1 ∅ [] 0 ptrs_empty) as [Hpos Hcount]; [constructor|lia|unfold zlen in *; rewrite length_fmap; lia|].
  destruct (exists_all (exists_loop pairs.*1 ∅ []) db) as (ex & HE & Hex & Hasserted).
  pose proof (none_counted db pairs.*1 (exists_loop pairs.*1 ∅ []) ex Hpos (Hcount _) Hex) as Hmid.
  pose proof (mset_loop_values pairs ∅ [] ptrs_empty) as [Hnd Hlast].
  destruct (set_all (mset_loop (pair_args pairs) ∅ []) db Hnd (vct_fits pairs Hf)) as (cmds & HS & Hcodes).
  rewrite (small_values _ values Hnd Hlast) in Hcodes.
  split; [unfold ParseMSetNxCommand; rewrite pair_args_length by done; f_equal; by apply msetnx_loop_split|].
  unfold ExecuteMultiObjTxRequest. cbn [CmdSteps MSetNxCommand Nat.sub multi_loop run_step mo_init fst snd HandleMiddleResult].
  rewrite HE. cbn [mbind option_bind fst snd]. rewrite MSetNx_middle_of, Hmid by done.
  destruct (existsb (present db) pairs.*1); cbn [negb mbind option_bind].
  { cbn [MultiOutput IsPassed MSetNxCommand fst snd mbind option_bind]. rewrite Hasserted. by destruct auto_commit. }
  cbn [multi_loop run_step MSetNxCommand fst snd]. rewrite HS, Hlast. cbn [mbind option_bind MultiOutput IsPassed MSetNxCommand fst snd].
  rewrite Hcodes. destruct auto_commit; cbn [andb].
  - case_bool_decide; cbn [negb mbind option_bind andb CmdSteps Nat.eqb MSetNxCommand]; [|done]. rewrite Hac.
    exists (strings values ∪ db). split; [done|]. split; [by apply strings_sound|]. intros k. by rewrite strings_values.
  - exists (strings values ∪ db). split; [done|]. split; [by apply strings_sound|]. intros k. by rewrite strings_values.
Qed.

(** MSETNX k 1 s 2, where s exists. *)
Lemma msetnx_correct_witness :
  exists exist_cmds set_cmds, ParseMSetNxCommand [lit "msetnx"; lit "k"; lit "1"; lit "s"; lit "2"] = Parsed (exist_cmds, set_cmds)
  /\ ExecuteMultiObjTxRequest (fun _ => true) id (MSetNxCommand exist_cmds set_cmds) true ex_db = Some (true, [OnInt 0], TxCommitted, ex_db).
Proof.
  destruct (msetnx_correct id true ex_db [(lit "k", lit "1"); (lit "s", lit "2")] eq_refl ltac:(discriminate)
    ltac:(repeat constructor; concrete) ltac:(concrete) ex_db_sound) as (ex & st & H1 & H2).
  assert (existsb (present ex_db) [lit "k"; lit "s"] = true) as E by (vm_compute; reflexivity). cbn [fmap list_fmap fst] in H2. rewrite E in H2.
  exists ex, st. split; [exact H1|exact H2].
Defined.

Definition ex_strings : Db := put (lit "k1") (Some (ObjString (str_of (lit "a")))) (put (lit "k2") (Some (ObjString (str_of (lit "b!")))) ∅).

Lemma ex_strings_sound : db_sound ex_strings.
Proof.
  assert (forall v, str_small v -> slot_sound (Some (ObjString (str_of v)))) as H by (intros v Hv; destruct (str_of_small v Hv); by split).
  apply put_sound; [apply put_sound|]; [by intros k; rewrite lookup_empty|..]; apply H; concrete.
Qed.

Lemma ex_strings_at : string_at ex_strings (lit "k1") = Some (lit "a") /\ string_at ex_strings (lit "k2") = Some (lit "b!") /\ string_at ex_strings (lit "k3") = Some [].
Proof. vm_compute. done. Qed.

Definition op_name (op : BitOpType) : bytes :=
  match op with BitAnd => lit "AND" | BitOr => lit "OR" | BitXor => lit "XOR" | BitNot => lit "NOT" end.

(** C22: BITOP puts under the destination the string whose bytes are the operation
    on the bytes of the sources, as long as the longest of them, with zeroes for
    the bytes that a source does not have, and replies its length; an empty
    result removes the destination.  If a source holds another type the reply is
    the error and nothing changes. *)
Theorem bitop_correct auto_commits db op dst keys :
  (forall passed, auto_commits passed = passed) -> db_sound db -> keys <> [] -> (op = BitNot -> length keys = 1%nat) ->
  exists reply end_ db', ParseBitOpCommand (lit "bitop" :: op_name op :: dst :: keys) = Parsed (op, dst, keys)
  /\ ExecuteMultiObjTxRequest (fun _ => true) auto_commits (BitOpCommand op keys dst) true db = Some (true, [reply], end_, db')
  /\ db_sound (db_after end_ db db')
  /\ match mapM (string_at db) keys with
     | Some sources =>
         let d := bitop_spec op sources in
         reply = OnInt (zlen d) /\ db_after end_ db db' = put dst (match d with [] => None | _ => Some (ObjString (str_of d)) end) db
     | None => reply = OnError RD_ERR_WRONG_TYPE /\ db_after end_ db db' = db
     end.
Proof.
  intros Hac Hdb Hne Hnot.
  assert (ParseBitOpCommand (lit "bitop" :: op_name op :: dst :: keys) = Parsed (op, dst, keys)) as ->.
  { destruct keys as [|k keys]; [done|]. destruct op; try reflexivity. specialize (Hnot eq_refl). by destruct keys. }
  unfold ExecuteMultiObjTxRequest. cbn [CmdSteps BitOpCommand Nat.sub multi_loop run_step mo_init HandleMiddleResult bo_sources].
  rewrite get_all. cbn [mbind option_bind bo_sources bo_set bo_del bo_to_del_ bo_err_pos_ bo_str_dest_].
  unfold BitOp_middle. cbn [bo_sources bo_set bo_del bo_to_del_ bo_err_pos_ bo_str_dest_].
  pose proof (bitop_error_of db keys 0) as He. destruct (mapM (string_at db) keys) as [sources|] eqn:Hm.
  - destruct He as [-> ->]. rewrite bitop_dest_of.
    2: { intros ->. apply mapM_Some in Hm. inversion Hm; subst; done. }
    2: { intros Hop. rewrite <- (length_mapM _ _ _ Hm). by apply Hnot. }
    pose proof (bitop_spec_small db op keys sources Hdb Hm) as Hsm. cbn [mbind option_bind].
    destruct (bitop_spec op sources) as [|c d] eqn:Hd.
    + cbn [multi_loop run_step BitOpCommand bo_to_del_ bo_sources bo_set bo_del bo_err_pos_ bo_str_dest_]. unfold tx_on, tx_apply.
      destruct (db !! dst) as [obj|] eqn:E; cbn; rewrite Hac; cbn; do 3 eexists; (split; [done|]); (split; [done|]);
        (split; [by try apply put_sound|]); (split; [done|]); [done|]. by rewrite <- E, put_same.
    + cbn [multi_loop run_step BitOpCommand bo_to_del_ bo_sources bo_set bo_del bo_err_pos_ bo_str_dest_ fst snd]. unfold tx_on.
      destruct (plain_set_applied (c :: d) string_result0 (db !! dst) (small_fits _ Hsm)) as (r & -> & Hr).
      destruct (decide (str_small (c :: d))); [|done]. cbn. rewrite Hac, Hr. cbn. do 3 eexists. split; [done|]. split; [done|]. split; [|done]. apply put_sound; [done|].
      destruct (str_of_small (c :: d) Hsm). by split.
  - destruct He as (j & cmd & -> & Hj & Hcmd). cbn [mbind option_bind MultiOutput BitOpCommand bo_err_pos_ bo_sources].
    rewrite Z.add_0_l, Nat2Z.id, Hj. cbn [mbind option_bind]. rewrite Hcmd. do 3 eexists. split; [done|]. split; [done|].
    cbn [IsPassed BitOpCommand bo_err_pos_]. by repeat case_match.
Qed.

(** BITOP OR d k1 k2 k3 on [a], [b!] and a missing key. *)
Lemma bitop_correct_witness :
  exists end_ db', ExecuteMultiObjTxRequest (fun _ => true) id (BitOpCommand BitOr [lit "k1"; lit "k2"; lit "k3"] (lit "d")) true ex_strings
    = Some (true, [OnInt 2], end_, db')
  /\ db_after end_ ex_strings db' = put (lit "d") (Some (ObjString (str_of (lit "c!")))) ex_strings.
Proof.
  destruct (bitop_correct id ex_strings BitOr (lit "d") [lit "k1"; lit "k2"; lit "k3"] ltac:(intros b; reflexivity) ex_strings_sound
    ltac:(discriminate) ltac:(discriminate)) as (reply & end_ & db' & _ & H2 & _ & H3).
  destruct ex_strings_at as (E1 & E2 & E3). cbn [mapM] in H3. rewrite E1, E2, E3 in H3. destruct H3 as [-> H3].
  exists end_, db'. split; [exact H2|exact H3].
Defined.
