(* ===== verification/ZScanCommand.v ===== *)
(** * ZSCAN from request to reply

    The parser of ZSCAN in src/redis_command.cpp, the command on the object of its
    key and its reply: the cursor of a page is kept in the connection under a
    hash (file ScanCursor), and the number sent is the hash.  A client that
    follows the numbers gets the whole set. *)

From S2P Require Import Prelude Codec EloqString RedisTypes Encoding StringNum StringMatch ScanCursor ZsetObject ZsetImage ZsetRange ZsetScan RedisObject TxCommand ZsetCommand CommandParse MultiParse.

Set Warnings "-clear-no-such-hyp".

Definition RD_ERR_INVALID_CURSOR : Z := 15.

(** ** The parser *)

(** The last option of a name counts. *)
Fixpoint zscan_options (opts : list bytes) (pattern : option bytes) (count : Z) : Parsing (option bytes * Z) :=
  match opts with
  | [] => Parsed (pattern, count)
  | name :: arg :: opts' =>
      if stringcomp name (lit "match") true then zscan_options opts' (Some arg) count
      else if stringcomp name (lit "count") true then
        count ← parse_ll arg (OnError RD_ERR_DIGITAL_INVALID);
        if count <? 1 then Refused (OnError RD_ERR_SYNTAX) else zscan_options opts' pattern count
      else Refused (OnError RD_ERR_SYNTAX)
  | [_] => Undefined
  end.

(** [with_cursor_], [cursor_field_] and [cursor_score_]. *)
Record ZScanFields := mkZScan { zsc_cursor : option (EloqString * Z); zsc_pattern : option bytes; zsc_count_ : Z }.

(** [after] is the memory behind the cursor's argument. *)
Definition ParseZScanCommand (after : bytes) (ctx : ScanCursors) (args : list bytes) : Parsing (bytes * ZScanFields) :=
  match args with
  | _ :: key :: a2 :: opts =>
      match string2ull after a2 with
      | None => Refused (OnError RD_ERR_INVALID_CURSOR)
      | Some cursor =>
          with_cursor ←
            (if 0 <? cursor then
               match FindScanCursor cursor ctx with
               | Some str => match DeserializeCursorZNode str with Some c => Parsed (Some c) | None => Undefined end
               | None => Parsed None
               end
             else Parsed None);
          if Nat.odd (length opts) then Refused (OnError RD_ERR_SYNTAX)
          else
            '(pattern, count) ← zscan_options opts None 0;
            Parsed (key, mkZScan with_cursor pattern count)
      end
  | _ => Refused (wrong_number (lit "zscan"))
  end.

(** ** The command *)

Section Run.

Context (fpconv_dtoa : Z -> bytes) (max_reserve : Z).

(** [pattern_after]: the memory behind the pattern. *)
Definition ExecuteOn_ZScan (pattern_after : bytes) (f : ZScanFields) (object : RedisEloqObject) (r : RedisZsetResult)
    : option (ZScanFields * RedisZsetResult * ExecResult) :=
  zset_read f (fun o _ => Execute_ZScan fpconv_dtoa max_reserve o (zsc_cursor f) (zsc_pattern f) pattern_after (zsc_count_ f)) object r.

(** [OutputResult(reply, ctx)]; [None]: another alternative is held, or the
    connection's table is broken. *)
Definition OutputResult_ZScan (r : RedisZsetResult) (ctx : ScanCursors) : option (ScanCursors * list ReplyEvent) :=
  let page cursor ans := [OnArrayStart 2; OnString cursor] ++ output_array ans ++ [OnArrayEnd] in
  if zr_err_code_ r =? RD_OK then
    match zr_result_ r with
    | ZRStrings (front :: ans) =>
        if negb (bool_decide (es_view front = lit "0")) then
          '(ctx, cursor_id) ← CacheScanCursor (es_view front) ctx;
          Some (ctx, page (to_string cursor_id) (es_view <$> ans))
        else Some (ctx, page (lit "0") (es_view <$> ans))
    | _ => None
    end
  else if zr_err_code_ r =? RD_NIL then Some (ctx, page (lit "0") [])
  else Some (ctx, [OnError (zr_err_code_ r)]).

(** A request on a key that holds an object, or nothing; the result is
    [zset_result0] until the command runs. *)
Definition zscan_request (after pattern_after : bytes) (slot : option RedisEloqObject) (args : list bytes) (ctx : ScanCursors)
    : option (ScanCursors * list ReplyEvent) :=
  match ParseZScanCommand after ctx args with
  | Parsed (_, f) =>
      let r := zset_result0 in
      r ← match slot with Some obj => '(_, r, _) ← ExecuteOn_ZScan pattern_after f obj r; Some r | None => Some r end;
      OutputResult_ZScan r ctx
  | Refused e => Some (ctx, [e])
  | Undefined => None
  end.

(** What a client reads of a reply: the cursor and the strings of the page. *)
Definition zscan_reply (reply : list ReplyEvent) : option (bytes * list bytes) :=
  match reply with
  | OnArrayStart _ :: OnString cursor :: OnArrayStart _ :: rest =>
      Some (cursor, omap (fun e => if e is OnString s then Some s else None) rest)
  | _ => None
  end.

(** A client that starts with the cursor and follows the replies to the cursor
    "0": the strings of all the pages. *)
Fixpoint zscan_client (fuel : nat) (after pattern_after : bytes) (slot : option RedisEloqObject) (key : bytes) (opts : list bytes)
    (cursor : bytes) (ctx : ScanCursors) : option (list bytes) :=
  match fuel with
  | O => None
  | S fuel =>
      '(ctx, reply) ← zscan_request after pattern_after slot (lit "zscan" :: key :: cursor :: opts) ctx;
      '(next, ans) ← zscan_reply reply;
      if bool_decide (next = lit "0") then Some ans
      else app ans <$> zscan_client fuel after pattern_after slot key opts next ctx
  end.

End Run.

(** ** The numbers sent come back *)

Lemma c_string_digits s after : forallb (is_digit 48) s = true -> c_string (s ++ Init.Byte.x00 :: after) = s.
Proof.
  induction s as [|c s IH]; [done|]. cbn [forallb app c_string]. intros [Hc Hs]%andb_true_iff.
  unfold is_digit in Hc. destruct (Z.eqb_spec (c2z c) 0) as [E|_]; [rewrite E in Hc; done|]. by rewrite IH.
Qed.

Lemma skip_digits_all s : forallb (is_digit 48) s = true -> skip_digits s = [].
Proof. induction s as [|c s IH]; [done|]. cbn [forallb skip_digits]. intros [-> Hs]%andb_true_iff. by apply IH. Qed.

Lemma strtoull_to_string n : is_u64 n -> strtoull (to_string n) = Some (n, []).
Proof.
  intros Hn. pose proof (to_string_digits n Hn) as Hd. pose proof (stoull_to_string n Hn) as Hv.
  unfold stoull in Hv. unfold strtoull. destruct (to_string n) as [|c p] eqn:E; [done|].
  cbn [forallb] in Hd. pose proof Hd as [Hc _]%andb_true_iff.
  assert (skip_spaces (c :: p) = c :: p) as Esk.
  { cbn [skip_spaces]. unfold is_digit, is_space in *. by replace (_ || _) with false by lia. }
  rewrite Esk in *.
  assert ((c2z c =? 45) = false /\ (c2z c =? 43) = false) as [E1 E2] by (unfold is_digit in Hc; lia).
  rewrite E1, E2 in *. rewrite Hc in *. set (v := stoull_digits 0 (c :: p)) in *. destruct (UINT64_MAX <? v); [done|]. injection Hv as ->.
  rewrite skip_digits_all by (cbn [forallb]; by rewrite Hc). done.
Qed.

Lemma string2ull_to_string n after : is_u64 n -> string2ull (Init.Byte.x00 :: after) (to_string n) = Some n.
Proof.
  intros Hn. unfold string2ull. destruct (string2ll (to_string n)) as [ll|] eqn:E.
  - apply string2ll_iff in E as [Hll E]. destruct (Z.ltb_spec ll 0) as [Hneg|Hpos].
    + exfalso. pose proof (to_string_digits n Hn) as Hd. rewrite E in Hd. unfold to_string in Hd.
      rewrite (proj2 (Z.ltb_lt ll 0)) in Hd by done. by cbn in Hd.
    + f_equal. symmetry. apply to_string_inj; [done|mach; lia|done].
  - rewrite c_string_digits by (by apply to_string_digits). rewrite strtoull_to_string by done.
    assert (to_string n <> []) as Hne.
    { intros E0. pose proof (stoull_to_string n Hn) as Hv. by rewrite E0 in Hv. }
    by rewrite bool_decide_false.
Qed.

(** ** A client's scan *)

Lemma zscan_reply_of cursor ans :
  zscan_reply ([OnArrayStart 2; OnString cursor] ++ output_array ans ++ [OnArrayEnd]) = Some (cursor, ans).
Proof.
  cbn. f_equal. f_equal. rewrite <- app_assoc. induction ans as [|s ans IH]; [done|]. cbn in *. by rewrite IH.
Qed.

(** What was cached last is found. *)
Lemma cached_found cursors c s : cursors_inv (cursors ++ [c]) s -> FindScanCursor (cursor_hash c) s = Some c.
Proof.
  intros [Hl He]. unfold FindScanCursor. rewrite (He (cursor_hash c)), last_content_snoc, decide_True by done.
  assert (cursor_hash c ∈ scan_cursor_list s) as Hin.
  { rewrite Hl. apply list_elem_of_fmap_2. unfold recent. rewrite drop_app_le by (rewrite length_app; cbn; lia).
    apply elem_of_app. right. by apply list_elem_of_singleton. }
  by apply occurrences_pos in Hin as ->.
Qed.

Lemma cursor_hash_u64 c : is_u64 (cursor_hash c).
Proof.
  unfold cursor_hash. destruct c as [|b c] using rev_ind; [by vm_compute|]. rewrite foldl_app. cbn [foldl].
  apply u64_range.
Qed.

(** The options MATCH and COUNT of a request. *)
Definition zscan_words (pattern : option bytes) (count : option Z) : list bytes :=
  (if pattern is Some p then [lit "MATCH"; p] else []) ++ (if count is Some n then [lit "COUNT"; to_string n] else []).

Lemma zscan_words_parsed pattern count : (forall n, count = Some n -> 1 <= n <= INT64_MAX) ->
  Nat.odd (length (zscan_words pattern count)) = false
  /\ zscan_options (zscan_words pattern count) None 0 = Parsed (pattern, default 0 count).
Proof.
  intros Hc. destruct pattern as [p|], count as [n|]; cbn [zscan_words app]; (split; [done|]); [|done| |done].
  all: specialize (Hc n eq_refl); cbn -[to_string parse_ll]; unfold parse_ll; rewrite string2ll_print by (mach; lia);
    cbn [mbind parse_bind]; by rewrite (proj2 (Z.ltb_ge n 1)) by lia.
Qed.

Section Client.

Context (fp : Z -> bytes) (max_reserve : Z) (pattern : option bytes) (pattern_after : bytes) (Hpat : pattern_ok pattern pattern_after).
Context (count : option Z) (Hcount : forall n, count = Some n -> 1 <= n <= INT64_MAX).
Context (l : list ZPair) (Hl : zl_ok l) (Hsize : zset_image_len l <= MAX_OBJECT_SIZE).
Context (slot : RedisEloqObject) (Hslot : as_zset slot = Some (zset_of l)).
Context (Hres : reserve_ok max_reserve pattern l (default 0 count)).

Abbreviation node_cursor := (fun p : ZPair => SerializeCursorZNode (es_own p.1) p.2).
Abbreviation matching := (fun p : ZPair => scan_matches pattern p.1 = true).

(** The cursor word that stands for the place. *)
Definition word_at (i : nat) (ctx : ScanCursors) (cursor : bytes) : Prop :=
  match i with
  | O => cursor = lit "0"
  | _ => exists p, l !! i = Some p /\ cursor = to_string (cursor_hash (node_cursor p)) /\ cursor_hash (node_cursor p) <> 0
         /\ p.1 <> [] /\ FindScanCursor (cursor_hash (node_cursor p)) ctx = Some (node_cursor p)
  end.

Lemma node_cursor_of i p : l !! i = Some p ->
  es_view (es_of_data (node_cursor p)) = node_cursor p /\ node_cursor p <> lit "0"
  /\ (p.1 <> [] -> DeserializeCursorZNode (node_cursor p) = Some (es_own p.1, p.2)).
Proof using Hl Hsize.
  intros Hp. apply list_elem_of_lookup_2 in Hp as Hin. pose proof (zl_member_len l p Hin) as Hmem. unfold MAX_OBJECT_SIZE, znode_len in *.
  destruct (cursor_roundtrip p) as (E & H1 & H2); [by apply (zl_fits l)|apply (zl_num l p Hl Hin)|lia|]. rewrite E in *. done.
Qed.

Lemma parse_word i ctx cursor key after : word_at i ctx cursor ->
  exists c, cursor_at l i c
  /\ ParseZScanCommand (Init.Byte.x00 :: after) ctx (lit "zscan" :: key :: cursor :: zscan_words pattern count)
     = Parsed (key, mkZScan c pattern (default 0 count)).
Proof using Hcount Hl Hsize.
  intros Hw. unfold ParseZScanCommand. destruct (zscan_words_parsed pattern count Hcount) as [Hodd Hopts].
  destruct i as [|i]; cbn [word_at] in Hw.
  - subst cursor. exists None. split; [done|]. change (lit "0") with (to_string 0).
    rewrite string2ull_to_string by concrete. cbn [Z.ltb Z.compare mbind parse_bind]. rewrite Hodd, Hopts. done.
  - destruct Hw as (p & Hp & -> & Hne0 & Hne & Hf). exists (Some (es_own p.1, p.2)). split; [by destruct p|].
    pose proof (cursor_hash_u64 (node_cursor p)) as Hu. rewrite string2ull_to_string by done.
    rewrite (proj2 (Z.ltb_lt 0 _)) by (mach; lia). rewrite Hf.
    destruct (node_cursor_of (S i) p Hp) as (_ & _ & ->); [|done]. cbn [mbind parse_bind]. rewrite Hodd, Hopts. done.
Qed.

Lemma zscan_client_of after key :
  (forall i p, l !! S i = Some p -> p.1 <> [] /\ cursor_hash (node_cursor p) <> 0) ->
  forall fuel i cursors ctx cursor, cursors_inv cursors ctx -> word_at i ctx cursor -> (length l - i < fuel)%nat ->
  zscan_client fp max_reserve fuel (Init.Byte.x00 :: after) pattern_after (Some slot) key (zscan_words pattern count) cursor ctx
  = Some (es_view <$> score_reply fp (filter matching (drop i l))).
Proof using Hcount Hl Hpat Hres Hsize Hslot.
  intros Hplaces. induction fuel as [|fuel IH]; intros i cursors ctx cursor Hctx Hw Hfuel; [lia|].
  destruct (parse_word i ctx cursor key after Hw) as (c & Hc & Hparse).
  destruct (Execute_ZScan_of fp max_reserve pattern pattern_after Hpat l (default 0 count) i c Hl Hres Hc) as (j & Hij & Hprog & Hexec).
  cbn [zscan_client]. unfold zscan_request. rewrite Hparse. unfold ExecuteOn_ZScan, zset_read. rewrite Hslot.
  cbn [zsc_cursor zsc_pattern zsc_count_]. rewrite Hexec. cbn [mbind option_bind]. unfold OutputResult_ZScan.
  cbn [zr_err_code_ zr_result_]. change (RD_OK =? RD_OK) with true. cbn iota.
  destruct (l !! j) as [p|] eqn:Hp.
  2: { cbn [es_own es_view]. rewrite (bool_decide_true (lit "0" = lit "0")) by done. cbn [negb mbind option_bind].
    rewrite zscan_reply_of. cbn [mbind option_bind]. rewrite bool_decide_true by done. do 4 f_equal. apply take_ge.
    apply lookup_ge_None in Hp. rewrite length_drop. lia. }
  destruct (node_cursor_of j p Hp) as (-> & Hn0 & _). rewrite bool_decide_false by done. cbn [negb].
  destruct (CacheScanCursor_ok cursors (node_cursor p) ctx Hctx) as (ctx' & -> & Hctx'). cbn [mbind option_bind].
  rewrite zscan_reply_of. cbn [mbind option_bind]. apply lookup_lt_Some in Hp as Hlt.
  destruct j as [|j]; [lia|]. destruct (Hplaces j p Hp) as [Hne Hh0].
  rewrite bool_decide_false.
  2: { change (lit "0") with (to_string 0). intros E. apply Hh0, to_string_inj; [apply cursor_hash_u64|concrete|done]. }
  rewrite (IH (S j) (cursors ++ [node_cursor p]) ctx'); [|done| |lia].
  - cbn [fmap option_fmap option_map]. by rewrite <- fmap_app, page_append.
  - exists p. split_and!; [done..|]. by apply (cached_found cursors).
Qed.

End Client.

(** ** Properties *)

(** C35: A client that sends ZSCAN with cursor 0 and then with the number of each
    reply, on a connection where no other scan runs in between, over a sorted
    set that does not change, gets every member that matches the pattern with
    its score, each exactly once and in order, and the cycle ends; with or
    without COUNT, and with or without MATCH, whose empty pattern matches
    everything.  Assumed: the byte behind the argument that holds the cursor is
    zero and the one behind the pattern cannot extend it; without MATCH there
    is memory for the page, for which COUNT alone decides; and for the members
    after the first, which a page may start with, that they are not empty (an
    assertion fails on their cursor) and that the hash of their cursor is not
    zero, which ends the scan. *)
Theorem zscan_complete (fp : Z -> bytes) (max_reserve : Z) (slot : RedisEloqObject) (o : RedisZsetObject) (pattern : option bytes)
    (count : option Z) (after pattern_after key : bytes) (cursors : list bytes) (ctx : ScanCursors) :
  as_zset slot = Some o -> zset_good o -> pattern_ok pattern pattern_after -> (forall n, count = Some n -> 1 <= n <= INT64_MAX) ->
  (pattern = None -> default (zset_size o) count * 2 + 1 <= max_reserve) -> cursors_inv cursors ctx ->
  Forall (fun p : ZPair => p.1 <> [] /\ cursor_hash (SerializeCursorZNode (es_own p.1) p.2) <> 0) (tail (zset_pairs o)) ->
  zscan_client fp max_reserve (S (length (zset_pairs o))) (Init.Byte.x00 :: after) pattern_after (Some slot) key (zscan_words pattern count) (lit "0") ctx
  = Some (es_view <$> score_reply fp (filter (fun p : ZPair => scan_matches pattern p.1 = true) (zset_pairs o))).
Proof.
  intros Hslot (l & Hl & -> & Hn & Hs)%zset_good_small Hp Hc Hres Hctx Hplaces. rewrite zset_pairs_of in *.
  rewrite (zscan_client_of fp max_reserve pattern pattern_after Hp count Hc l Hl ltac:(done) slot Hslot) with (i := 0%nat) (cursors := cursors);
    [by rewrite drop_0| | |exact Hctx|done|lia].
  - intros HN. specialize (Hres HN). unfold zset_size in Hres. cbn [z_ordered_set_ zset_of] in Hres. rewrite zlen_fmap in Hres.
    unfold page_size. destruct count as [n|]; cbn [default from_option id] in *.
    + specialize (Hc n eq_refl). rewrite (proj2 (Z.ltb_lt 0 n)) by lia. rewrite u64_id; [done|]. mach. lia.
    + cbn [Z.ltb Z.compare]. rewrite u64_id; [done|]. pose proof (zlen_nonneg l). mach. lia.
  - intros i p Hi. rewrite list.Forall_forall in Hplaces. apply Hplaces. apply (list_elem_of_lookup_2 _ i). by rewrite lookup_tail.
Qed.

Lemma zscan_complete_witness :
  zscan_client (fun _ => lit "1") 3 (S (length (zset_pairs z_ab))) [Init.Byte.x00] (lit "x") (Some (ObjZset z_ab)) (lit "k")
    (zscan_words None (Some 1)) (lit "0") no_cursors
  = Some [lit "a"; lit "1"; lit "b"; lit "1"].
Proof.
  etransitivity.
  - apply (zscan_complete (fun _ => lit "1") 3 (ObjZset z_ab) z_ab None (Some 1) [] (lit "x") (lit "k") [] no_cursors eq_refl z_ab_good I).
    + intros n [= <-]. concrete.
    + intros _. cbn. lia.
    + by split.
    + replace (tail (zset_pairs z_ab)) with [(lit "b", z_two)] by (vm_compute; reflexivity).
      constructor; [|constructor]. split; [discriminate|]. by vm_compute.
  - vm_compute. reflexivity.
Defined.

(** The cursor of an empty member is as long as its fixed part, and the
    request that brings it back fails the assertion that it is longer. *)
Theorem zscan_empty_member_asserts (after key : bytes) (score : Z) (cursors : list bytes) (ctx : ScanCursors) :
  let c := SerializeCursorZNode (es_own []) score in
  cursor_hash c <> 0 -> cursors_inv (cursors ++ [c]) ctx ->
  ParseZScanCommand (Init.Byte.x00 :: after) ctx [lit "zscan"; key; to_string (cursor_hash c)] = Undefined.
Proof.
  intros c Hne Hctx. unfold ParseZScanCommand. pose proof (cursor_hash_u64 c) as Hu. rewrite string2ull_to_string by done.
  rewrite (proj2 (Z.ltb_lt 0 _)) by (mach; lia). by rewrite (cached_found cursors).
Qed.

Lemma zscan_empty_member_asserts_witness : exists ctx,
  CacheScanCursor (SerializeCursorZNode (es_own []) 0) no_cursors = Some (ctx, cursor_hash (SerializeCursorZNode (es_own []) 0))
  /\ ParseZScanCommand [Init.Byte.x00] ctx [lit "zscan"; lit "k"; to_string (cursor_hash (SerializeCursorZNode (es_own []) 0))] = Undefined.
Proof.
  destruct (CacheScanCursor_ok [] (SerializeCursorZNode (es_own []) 0) no_cursors ltac:(by split)) as (ctx & E & Hctx).
  exists ctx. split; [exact E|]. apply (zscan_empty_member_asserts [] (lit "k") 0 [] ctx); [by vm_compute|exact Hctx].
Defined.
