(* ===== verification/MultiList.v ===== *)
(** * Lists moved between keys

    What LMOVE, RPOPLPUSH and LMPOP of the file MultiCommand do to the lists
    under their keys and what they reply, from their arguments on: an element is
    never lost between two keys, and LMPOP takes from the first list that is
    there. *)

From S2P Require Import Prelude Codec EloqString RedisTypes Encoding StringNum StringMatch ListObject StringObject RedisObject TxCommand ListCommand CommandParse MultiCommand MultiParse.

Set Warnings "-clear-no-such-hyp".

(** ** A command on a list in a transaction *)




Section Lists.

Context (block_code : BlockOperation -> Z) (block_of : Z -> BlockOperation).

Abbreviation ListC := (ListCommands block_code block_of).









End Lists.






(** ** Properties *)





Section Pops.

Context (block_code : BlockOperation -> Z) (block_of : Z -> BlockOperation) (from_left : bool) (count : Z).
Hypothesis Hcount : i32 count <> 0.


Abbreviation pop_command := (pop_cmd_ from_left count).




End Pops.



(** C40: the sums in the parser of LMPOP wrap around.  With the number of keys
    2^64 - 3 the test for enough arguments passes and the argument at the
    position 2^64 - 1 is read. *)
Theorem lmpop_numkeys_wraps after args :
  (2 <= length args)%nat -> zlen args < 2 ^ 63 ->
  ParseLMPopCommand (Init.Byte.x00 :: after) (lit "lmpop" :: lit "18446744073709551613" :: args) = Undefined.
Proof.
  intros H2 Hlen. assert (string2ull (Init.Byte.x00 :: after) (lit "18446744073709551613") = Some 18446744073709551613) as HN by (vm_compute; reflexivity).
  destruct args as [|a [|b args]]; [cbn in H2; lia|cbn in H2; lia|]. unfold ParseLMPopCommand. rewrite HN.
  change (18446744073709551613 <=? 0) with false. change (u64 (18446744073709551613 + 3)) with 0.
  pose proof (zlen_nonneg (lit "lmpop" :: lit "18446744073709551613" :: a :: b :: args)).
  rewrite (proj2 (Z.ltb_ge _ 0)) by lia. unfold arg_at. change (u64 (2 + 18446744073709551613)) with 18446744073709551615.
  rewrite lookup_ge_None_2; [done|]. unfold zlen in *. cbn [length] in *. lia.
Qed.

(** LMPOP 18446744073709551613 k LEFT. *)
Lemma lmpop_numkeys_wraps_witness :
  ParseLMPopCommand [Init.Byte.x00] [lit "lmpop"; lit "18446744073709551613"; lit "k"; lit "LEFT"] = Undefined.
Proof. exact (lmpop_numkeys_wraps [] [lit "k"; lit "LEFT"] ltac:(cbn; lia) ltac:(concrete)). Defined.
