(* ===== verification/Commands.v ===== *)
(** * The commands of the database

    The switch of [RedisTableSchema::CreateTxCommand] in
    src/eloqkv_catalog_factory.cpp over the command classes that the other files
    model, and what follows from their [Replayable] instances together: a log in
    which commands of all families follow each other on one key replays to the
    slot it was written for. *)

From S2P Require Import Prelude Codec EloqString RedisTypes Encoding ListObject StringObject HashObject SetObject ZsetObject ZsetImage RedisObject TxCommand ListCommand ZsetCommand KeyCommand StringCommand HashCommand HashSetCommand.

Set Warnings "-clear-no-such-hyp".

(** One constructor for each class; the list commands make up one class. *)
Inductive CommandKind :=
| KSet | KGet | KGetDel | KGetEx | KStrLen | KGetBit | KSetBit | KGetRange | KSetRange | KBitCount | KBitPos | KBitField | KAppend | KIntOp
| KList
| KHSet | KHSetNx | KHIncrBy | KHDel | KHGet | KHStrLen | KHExists | KHMGet | KHLen | KHKeys | KHVals | KHGetAll
| KSAdd | KSRem | KSPop | KSCard | KSIsMember | KSMIsMember | KSMembers | KSRandMember
| KZAdd | KZRem | KZPop | KZRemRange | KZRange | KZCount | KZLexCount | KZScore | KZMScore | KZCard | KZRank
| KDel | KExists | KType | KExpire | KPersist.

(** What the classes leave to code outside of the repository, to the layout of a
    structure in memory or to the order of a hash table. *)
Record Machine := mkMachine {
  mc_fpconv_dtoa : Z -> bytes;
  mc_block_code : BlockOperation -> Z;
  mc_block_of : Z -> BlockOperation;
  mc_padding : bytes;
  mc_count_provided : bool;
  mc_walk_hash : RedisHashObject -> list HashEntry;
  mc_walk_set : RedisHashSetObject -> list EloqString
}.

Section Machine.

Context (M : Machine).

Definition class_of (k : CommandKind) : CommandClass :=
  match k with
  | KSet => SetCommand | KGet => GetCommand | KGetDel => GetDelCommand | KGetEx => GetExCommand
  | KStrLen => StrLenCommand | KGetBit => GetBitCommand | KSetBit => SetBitCommand | KGetRange => GetRangeCommand
  | KSetRange => SetRangeCommand | KBitCount => BitCountCommand | KBitPos => BitPosCommand
  | KBitField => BitFieldCommand (mc_padding M) | KAppend => AppendCommand | KIntOp => IntOpCommand
  | KList => ListCommands (mc_block_code M) (mc_block_of M)
  | KHSet => HSetCommand | KHSetNx => HSetNxCommand | KHIncrBy => HIncrByCommand | KHDel => HDelCommand
  | KHGet => HGetCommand | KHStrLen => HStrLenCommand | KHExists => HExistsCommand | KHMGet => HMGetCommand | KHLen => HLenCommand
  | KHKeys => HKeysCommand (mc_walk_hash M) | KHVals => HValsCommand (mc_walk_hash M) | KHGetAll => HGetAllCommand (mc_walk_hash M)
  | KSAdd => SAddCommand | KSRem => SRemCommand | KSPop => SPopCommand | KSCard => SCardCommand | KSIsMember => SIsMemberCommand
  | KSMIsMember => SMIsMemberCommand | KSMembers => SMembersCommand (mc_walk_set M)
  | KSRandMember => SRandMemberCommand (mc_count_provided M)
  | KZAdd => ZAddCommand (mc_fpconv_dtoa M) | KZRem => ZRemCommand | KZPop => ZPopCommand (mc_fpconv_dtoa M)
  | KZRemRange => ZRemRangeCommand | KZRange => ZRangeCommand (mc_fpconv_dtoa M) (mc_walk_set M) | KZCount => ZCountCommand
  | KZLexCount => ZLexCountCommand | KZScore => ZScoreCommand (mc_fpconv_dtoa M) | KZMScore => ZMScoreCommand (mc_fpconv_dtoa M)
  | KZCard => ZCardCommand | KZRank => ZRankCommand (mc_fpconv_dtoa M)
  | KDel => DelCommand | KExists => ExistsCommand | KType => TypeCommand | KExpire => ExpireCommand | KPersist => PersistCommand
  end.

(** The switch over the first byte of an image.  A number that is not there is
    logged as unimplemented, and the command stays null. *)
Definition kind_of_code (code : Z) : option CommandKind :=
  match code with
  | 9 => Some KSet | 8 => Some KGet | 10 => Some KGetDel | 166 => Some KGetEx | 16 => Some KStrLen
  | 19 => Some KGetBit | 22 => Some KSetBit | 20 | 25 => Some KGetRange | 23 => Some KSetRange
  | 30 => Some KBitCount | 33 => Some KBitPos | 31 | 32 => Some KBitField | 24 => Some KAppend
  | 26 | 27 | 28 | 29 => Some KIntOp
  | 58 | 47 | 46 | 56 | 55 | 42 | 43 | 44 | 54 | 53 | 51 | 52 | 48 | 59 | 45 | 49 | 35 | 36 => Some KList
  | 62 => Some KHSet | 63 => Some KHSetNx | 66 => Some KHIncrBy | 73 => Some KHDel | 61 => Some KHGet | 65 => Some KHStrLen
  | 72 => Some KHExists | 68 => Some KHMGet | 64 => Some KHLen | 69 => Some KHKeys | 70 => Some KHVals | 71 => Some KHGetAll
  | 108 => Some KSAdd | 110 => Some KSRem | 120 => Some KSPop | 111 => Some KSCard | 117 => Some KSIsMember | 118 => Some KSMIsMember
  | 109 => Some KSMembers | 121 => Some KSRandMember
  | 76 => Some KZAdd | 81 => Some KZRem | 88 | 89 => Some KZPop | 86 => Some KZRemRange
  | 79 | 83 | 84 | 85 | 99 | 100 | 101 => Some KZRange | 77 => Some KZCount | 87 => Some KZLexCount | 82 => Some KZScore
  | 102 => Some KZMScore | 78 => Some KZCard | 97 => Some KZRank
  | 140 | 174 => Some KDel | 141 => Some KExists | 139 => Some KType | 161 => Some KExpire | 165 => Some KPersist
  | _ => None
  end.

(** The padding of a BITFIELD record has its size, and the operation of a blocking
    command is a byte that names it. *)
Class MachineLaws := {
  padding_length : length (mc_padding M) = 4%nat;
  block_code_u8 op : is_u8 (mc_block_code M op);
  block_of_code op : mc_block_of M (mc_block_code M op) = op
}.

#[export] Instance class_replayable `{MachineLaws} (k : CommandKind) : Replayable (class_of k).
Proof.
  destruct k; cbn [class_of]; first
    [ apply bitfield_replayable, padding_length
    | apply list_replayable; [apply block_code_u8|apply block_of_code]
    | apply _ ].
Defined.

Lemma codes_dispatch k code : code ∈ cc_codes (class_of k) -> kind_of_code code = Some k.
Proof.
  destruct k; cbn [class_of cc_codes]; unfold list_codes; cbn; intros H;
    repeat first [apply elem_of_cons in H as [-> |H]; [reflexivity|]|by apply elem_of_nil in H].
Qed.

(** ** Types and expiries *)

(** The type of object that the commands of a class are for. *)
Definition type_of (k : CommandKind) : option RedisObjectType :=
  match k with
  | KSet | KDel | KExists | KType | KExpire | KPersist => None
  | KZRange => None                                    (* reads sets too *)
  | KGet | KGetDel | KGetEx | KStrLen | KGetBit | KSetBit | KGetRange | KSetRange | KBitCount | KBitPos | KBitField | KAppend | KIntOp =>
      Some TyString
  | KList => Some TyList
  | KHSet | KHSetNx | KHIncrBy | KHDel | KHGet | KHStrLen | KHExists | KHMGet | KHLen | KHKeys | KHVals | KHGetAll => Some TyHash
  | KSAdd | KSRem | KSPop | KSCard | KSIsMember | KSMIsMember | KSMembers | KSRandMember => Some TySet
  | KZAdd | KZRem | KZPop | KZRemRange | KZCount | KZLexCount | KZScore | KZMScore | KZCard | KZRank => Some TyZset
  end.

(** Commands that put a new object in the place of the one they meet. *)
Definition replaces (k : CommandKind) : cc_fields (class_of k) -> bool :=
  match k with
  | KSet => fun _ => true
  | KSAdd => sa_force_remove_add_
  | KZAdd => fun c => ForceClear (za_flags c)
  | _ => fun _ => false
  end.

(** Commands that are about the expiry. *)
Definition sets_expiry (k : CommandKind) : bool := match k with KExpire | KPersist | KGetEx => true | _ => false end.

End Machine.

Definition same_expiry (obj obj' : RedisEloqObject) : Prop := HasTTL obj' = HasTTL obj /\ GetTTL obj' = GetTTL obj.

Lemma commit_string_keeps f obj obj' : commit_string f obj = Some (Some obj') -> ObjectType obj' = ObjectType obj /\ same_expiry obj obj'.
Proof. destruct obj; try done; cbn; destruct (f _); cbn; intros; by simplify_eq. Qed.

Lemma in_slot_some {A} (mk : A -> RedisEloqObject) s obj : in_slot mk s = Some (Some obj) -> exists o, obj = mk o.
Proof. destruct s as [[o|]|]; cbn; intros; simplify_eq. by exists o. Qed.

Lemma commit_list_keeps f obj obj' : commit_list f obj = Some (Some obj') -> ObjectType obj' = ObjectType obj /\ same_expiry obj obj'.
Proof. by destruct obj; try done; unfold commit_list; intros [? ->]%in_slot_some. Qed.

Lemma commit_hash_keeps f obj obj' : commit_hash f obj = Some (Some obj') -> ObjectType obj' = ObjectType obj /\ same_expiry obj obj'.
Proof. by destruct obj; try done; unfold commit_hash; intros [? ->]%in_slot_some. Qed.

Lemma commit_set_keeps f obj obj' : commit_set f obj = Some (Some obj') -> ObjectType obj' = ObjectType obj /\ same_expiry obj obj'.
Proof. by destruct obj; try done; unfold commit_set; intros [? ->]%in_slot_some. Qed.

Lemma commit_zset_keeps f obj obj' : commit_zset f obj = Some (Some obj') -> ObjectType obj' = ObjectType obj /\ same_expiry obj obj'.
Proof. by destruct obj; try done; unfold commit_zset; intros [? ->]%in_slot_some. Qed.

Ltac keeps H :=
  first [ exact (commit_string_keeps _ _ _ H) | exact (commit_list_keeps _ _ _ H) | exact (commit_hash_keeps _ _ _ H)
        | exact (commit_set_keeps _ _ _ H) | exact (commit_zset_keeps _ _ _ H) ].

Lemma GetEx_keeps c obj obj' : GetEx_CommitOn c obj = Some (Some obj') -> ObjectType obj' = ObjectType obj.
Proof. destruct obj; try done; cbn; intros; repeat case_match; by simplify_eq. Qed.

Lemma commit_keeps M k (f : cc_fields (class_of M k)) obj obj' : replaces M k f = false -> CommitOn (class_of M k) f obj = Some (Some obj') ->
  ObjectType obj' = ObjectType obj /\ (sets_expiry k = false -> same_expiry obj obj').
Proof.
  intros Hr HC. enough (ObjectType obj' = ObjectType obj /\ same_expiry obj obj' \/ ObjectType obj' = ObjectType obj /\ sets_expiry k = true)
    as [[? ?]|[? E]] by (split; [done|]; intros ?; congruence).
  destruct k; cbn [class_of replaces] in *; try done; try (left; keeps HC).
  - right. split; [|done]. by eapply GetEx_keeps.
  - left. destruct f. keeps HC.
  - left. destruct f. keeps HC.
  - left. cbn [CommitOn SAddCommand] in HC. unfold SAdd_CommitOn in HC. rewrite Hr in HC. keeps HC.
  - left. cbn [CommitOn ZAddCommand] in HC. unfold ZAdd_CommitOn in HC. rewrite Hr in HC. keeps HC.
  - left. destruct f. keeps HC.
  - left. destruct f. keeps HC.
  - right. split; [|done]. injection HC as <-. by destruct obj.
  - right. split; [|done]. injection HC as <-. by destruct obj.
Qed.

(** A command for another type neither writes nor deletes. *)
Definition refused {F R : Type} (res : option (F * R * ExecResult)) : Prop :=
  exists f r v, res = Some (f, r, v) /\ v <> ExecWrite /\ v <> ExecDelete.

Lemma wrong_type_refused M k (f : cc_fields (class_of M k)) obj r ty : type_of k = Some ty -> replaces M k f = false -> ObjectType obj <> ty ->
  refused (ExecuteOn (class_of M k) f obj r).
Proof.
  intros Ht Hr Hne. destruct k; cbn [type_of] in Ht; try done; injection Ht as <-; cbn [class_of replaces] in *.
  all: try (by destruct obj; try done; repeat eexists).
  all: try (by destruct f; destruct obj; try done; repeat eexists).
  all: try (by destruct f as [[]]; destruct obj; try done; repeat eexists).
  - cbn [ExecuteOn SAddCommand]. unfold SAdd_ExecuteOn. rewrite Hr. by destruct obj; try done; repeat eexists.
  - cbn [ExecuteOn ZAddCommand]. unfold ZAdd_ExecuteOn. rewrite Hr. by destruct obj; try done; repeat eexists.
Qed.

(** ** Properties *)

(** A machine for the examples. *)
Definition ex_machine : Machine :=
  mkMachine (fun _ => lit "1") ex_code ex_of (replicate 4 Init.Byte.x00) false
    (fun o => (map_to_list (hash_map_ o)).*2) (fun o => (map_to_list (hash_set_ o)).*2).

#[export] Instance ex_machine_laws : MachineLaws ex_machine.
Proof. split; [done|exact ex_code_u8|exact ex_of_code]. Qed.

(** C1: when commands of all families, with fields as their parsers make them, are
    committed one after the other on one key, whose slot is sound at the start,
    their images in the log, read back
    through the switch of [CreateTxCommand] and committed in the same order, lead
    to the same slot, which is sound: its object keeps its invariant and the size
    limit (a list may pass it by four bytes), and is not empty.  The conditions
    [exec_ok] of a history leave out the commands on which the code itself goes
    wrong: SET over an object of another type, whose image stores the empty
    string ([set_over_other_type_loses_value]), and SET with GET of a value over
    the limit on a missing key; BITFIELD with fields outside of the greatest
    string, or with an INCRBY that is to wrap a field of 64 bits; LREM with a
    count that an [int] cannot hold; ZREMRANGEBYSCORE from (d to (d where a member
    has the score [d] ([crossed_scores_stuck]); a store of a set one byte over
    the limit ([store_one_over_limit]); and a store of a sorted set that is empty
    ([empty_store_keeps_key]) or over the limit, which the code does not test.
    Strings are shorter than 2^32 bytes, and there are fewer than 2^31 of them in
    a command. *)
Theorem replay_history M `{!MachineLaws M} s log s' :
  history (class_of M) s log s' -> slot_sound s -> replay (class_of M) kind_of_code s log = Some s' /\ slot_sound s'.
Proof. apply replay_log, codes_dispatch. Qed.

Definition ex_sadd : SAddFields := mkSAdd [es_of_view (lit "a"); es_of_view (lit "b")] false false.
Definition ex_spop : SPopFields := mkSPop (-1) [] (mkDraw [es_own (lit "b"); es_own (lit "a")] 8 [1]).
Definition ex_ab : gset bytes := {[lit "a"; lit "b"]}.

Lemma ex_sadd_ok : sadd_ok ex_sadd.
Proof.
  split; [split; [repeat constructor; concrete|concrete]|]. apply (bool_decide_eq_true_1 _). vm_compute. reflexivity.
Qed.

Lemma ex_b_inhabited : inhabited (ObjSet (set_of {[lit "b"]})).
Proof. cbn [inhabited]. rewrite set_contents_of. set_solver. Qed.

Lemma ex_spop_ok : on_set (spop_ok ex_spop) (ObjSet (set_of ex_ab)).
Proof.
  unfold on_set, as_set. rewrite set_contents_of. split; [concrete|]. split.
  - unfold set_iter, ex_spop, sp_draw, dr_walk. vm_compute. apply Permutation_swap || reflexivity.
  - split; [concrete|]. repeat constructor; concrete.
Qed.

(** Two members are added to a set, one is popped, the set is given an expiry and
    deleted, and the key becomes a counter. *)
Lemma ex_history : exists log s', history (class_of ex_machine) None log s' /\ length log = 5%nat.
Proof.
  do 2 eexists. split; [|].
  - eapply (history_commit (class_of ex_machine) None KSAdd ex_sadd _ set_result0 _ _ ExecWrite (Some (ObjSet (set_of ex_ab))));
      [done|reflexivity|exact ex_sadd_ok|vm_compute; reflexivity|by left|vm_compute; reflexivity|].
    eapply (history_commit (class_of ex_machine) _ KSPop ex_spop _ set_result0 _ _ ExecWrite (Some (ObjSet (set_of {[lit "b"]}))));
      [done|reflexivity|by split; [|exact ex_spop_ok]|vm_compute; reflexivity|by left|vm_compute; reflexivity|].
    eapply (history_commit (class_of ex_machine) _ KExpire (mkExpire 5000 0 None) _ (int_result0, 1000) _ _ ExecWrite
      (Some (ObjSetTTL (mkSetTTL (set_of {[lit "b"]}) 5000))));
      [done|reflexivity|split; [split; concrete|exact ex_b_inhabited]|vm_compute; reflexivity|by left|vm_compute; reflexivity|].
    eapply (history_commit (class_of ex_machine) _ KDel false _ int_result0 _ _ ExecWrite None);
      [done|reflexivity|done|vm_compute; reflexivity|by left|vm_compute; reflexivity|].
    eapply (history_commit (class_of ex_machine) _ KIntOp 41 _ int_result0 _ _ ExecWrite (Some (ObjString (str_of (lit "41")))));
      [done|reflexivity|concrete|vm_compute; reflexivity|by left|vm_compute; reflexivity|].
    apply history_nil.
  - reflexivity.
Qed.

Lemma replay_history_witness :
  exists log s', history (class_of ex_machine) None log s' /\ length log = 5%nat
  /\ replay (class_of ex_machine) kind_of_code None log = Some s' /\ slot_sound s'.
Proof.
  destruct ex_history as (log & s' & Hh & Hl).
  exists log, s'. split; [exact Hh|]. split; [exact Hl|]. exact (replay_history ex_machine None log s' Hh I).
Defined.

(** C8: commands respect the types of the keys.  SET, and SADD and ZADD as the last
    step of a store, put a new object in the place of the old one and are left
    out.  Any other command for one type of object neither writes to nor deletes
    an object of another type; and the commit of any other command leaves the
    type of the object as it is, and the expiry too unless the command is
    EXPIRE, PERSIST or GETEX. *)
Theorem commands_respect_types M k (f : cc_fields (class_of M k)) obj :
  replaces M k f = false ->
  (forall r ty, type_of k = Some ty -> ObjectType obj <> ty -> refused (ExecuteOn (class_of M k) f obj r))
  /\ (forall obj', CommitOn (class_of M k) f obj = Some (Some obj') ->
      ObjectType obj' = ObjectType obj /\ (sets_expiry k = false -> same_expiry obj obj')).
Proof.
  intros Hr. split; [intros r ty Ht Hne; by eapply wrong_type_refused|intros obj'; by apply commit_keeps].
Qed.

Lemma ex_sadd_commit :
  CommitOn (class_of ex_machine KSAdd) ex_sadd (ObjSetTTL (mkSetTTL set_new 7)) = Some (Some (ObjSetTTL (mkSetTTL (set_of ex_ab) 7))).
Proof. vm_compute. reflexivity. Qed.

(** SADD meets a sorted set, and a set that expires. *)
Lemma commands_respect_types_witness :
  refused (ExecuteOn (class_of ex_machine KSAdd) ex_sadd (ObjZset z_ab) set_result0)
  /\ GetTTL (ObjSetTTL (mkSetTTL (set_of ex_ab) 7)) = 7.
Proof.
  split.
  - exact (proj1 (commands_respect_types ex_machine KSAdd ex_sadd (ObjZset z_ab) eq_refl) set_result0 TySet eq_refl ltac:(discriminate)).
  - exact (proj2 (proj2 (proj2 (commands_respect_types ex_machine KSAdd ex_sadd (ObjSetTTL (mkSetTTL set_new 7)) eq_refl) _ ex_sadd_commit)
      eq_refl)).
Defined.
